(* ===== verification/_CoqProject ===== *)
-Q . S2P
Prelude.v
Words.v
Mpn.v
BitUtil.v
Mpfx.v
MpfxArith.v
Mpbq.v
Expr.v
BoolRewriter.v
BoolRewriterProofs.v
BoolRewriterSound.v
Bdd.v
BddProofs.v
BddSound.v
BddTheorems.v
Heap.v
HeapProofs.v
HeapTheorems.v
UnionFind.v
UnionFindProofs.v
UnionFindTheorems.v
ExtNumeral.v
Interval.v
IntervalBounds.v
IntervalProofs.v
IntervalSound.v
IntervalTight.v
IntervalRoot.v
IntervalRootProofs.v
IntervalTrig.v
IntervalTrigProofs.v
Dependency.v
DependencyProofs.v
DepIntervals.v
DepIntervalsProofs.v
IntervalTheorems.v
Nla.v
NlaTerms.v
NlaObs.v
NlaProofs.v
NlaTheorems.v
