(* ===== verification/Prelude.v ===== *)
(** * The solver kernel behind the statechart verification tool

    The repository verifies statecharts: a Java front end ([src/src/dfa], parsers, type checker,
    control flow graphs, a simulator and a symbolic execution engine), an OCaml simulator
    ([src/src/sim-see]), and the C++ sources of the Z3 solver that decides the path conditions
    ([src/src/dfa/z3-master/src], below [Z]).  This development models parts of the C++ solver: the
    number representations and data structures everything else in [Z] is built on.

    ** Parts and files

    - [Prelude.v] (this file): machine words ([u32], [u64]) as [Z] with their wrap-around, arrays
      as lists with partial reads and writes, loops with invariant rules, the number an array of
      words denotes.  [Words.v]: bit level lemmas on words.
    - [Mpn.v]: [Z/util/mpn.cpp], natural numbers as little-endian arrays of 32 bit digits.  Module
      [mpn_manager] has one definition per member ([compare], [add], [sub], [mul], [div] with Knuth's
      algorithm D split as in the source into normalize, step loop, denormalize).  Reads outside an
      array are [None], so each theorem also states memory safety.
    - [BitUtil.v]: [Z/util/bit_util.cpp], shifts, zero counts, comparison and in-place arithmetic on
      word arrays, with the aliasing the callers use.
    - [Mpfx.v], [MpfxArith.v]: [Z/util/mpfx.cpp] and [Z/util/id_gen.h], fixed point numbers in one
      word array shared by all numerals.  Operations run in a monad over the manager's state, with
      numerals addressed by reference so that operands may be the result; the weakest precondition
      calculus of [mpfx_wp] gives one triple per operation, over the invariant [wf].
    - [Mpbq.v]: [Z/util/mpbq.cpp] and the integer root of [Z/util/mpz.cpp], binary rationals.  [V] is
      the rational denoted, [wf] the normalization invariant.

    - [Expr.v]: the boolean fragment of the terms of [Z/ast/ast.h] as trees (terms are hash-consed, so
      pointer equality is equality of trees), their sorts and meaning, the value tests of
      [ast_manager] over an interface to the theory plugins ([Theories]) whose documented laws
      are the class [TheoryLaws].
    - [BoolRewriter.v], [BoolRewriterProofs.v], [BoolRewriterSound.v]: [Z/ast/rewriter/bool_rewriter.cpp].
      One definition per member, in a monad over the local context cost; marks are lists of marked
      terms.  The proofs go up the call graph: equations and negations, flat connectives, the rounds
      of the local context simplification (a weight decreases in each round that changes anything),
      [distinct], conditionals, the dispatch.

    - [Bdd.v]: [Z/math/dd/dd_bdd.cpp], binary decision diagrams, in a monad over the manager: nodes with
      reference counts, the node table, the operation cache, the stack of intermediate results, the
      collector, the operations and the handles ([bdd] objects).  [BddProofs.v]: diagrams as boolean
      functions, canonicity, the invariant [wf], what the collector protects, weakest preconditions.
      [BddSound.v]: each operation, the counts of a client's handles, the abstract machine ([step]) whose
      states are lists of boolean functions, and the initial manager.  [BddTheorems.v]: the properties.

    - [Heap.v], [HeapProofs.v], [HeapTheorems.v]: [Z/util/heap.h], a binary heap with the position of each
      value.  The loops carry a value that floats; the proofs put it back and see each step as an exchange.
    - [UnionFind.v], [UnionFindProofs.v], [UnionFindTheorems.v]: [Z/util/union_find.h] and [trail_stack] of
      [Z/util/trail.h], equivalence classes as trees and rings, with scopes.  The invariant [uf_ok]
      bounds depths by sizes; [hist] is the list of vectors behind the trail.

    - [ExtNumeral.v]: [Z/util/ext_numeral.h], numbers with infinities, over an interface to the numeral
      manager of the template ([NumManager], with a rounding mode) and its laws ([NumLaws]: each numeral
      denotes a real number, operations are rounded in the requested direction). Rationals are a precise
      instance, quarters an imprecise one; the theorems are proved from the laws.
    - [Interval.v]: [Z/math/interval/interval.h], [interval_def.h] and the counter of [Z/util/rlimit.h]:
      intervals as objects of a store, one definition per member, operations and the dependency rules
      ([*_jst]) they give. [IntervalBounds.v]: which products, quotients and powers of bounds are bounds.
      [IntervalProofs.v]: members, the invariant, signs. [IntervalSound.v]: every operation is justified;
      [IntervalTight.v]: products have the best bounds. [IntervalRoot.v], [IntervalRootProofs.v]: n-th roots,
      [xn_eq_y] and the series for e and pi, in a monad with the exception of the resource limit; Newton's
      iteration decreases to the root. [IntervalTrig.v], [IntervalTrigProofs.v]: sine and cosine, by their
      Taylor series, and the cached multiples of pi.
    - [Dependency.v], [DependencyProofs.v]: [Z/util/dependency.h], justifications as shared joins of
      constraints, walked with one mark per node. [DepIntervals.v], [DepIntervalsProofs.v]:
      [Z/math/interval/dep_intervals.h] and [.cpp], intervals with a justification for each bound; a client
      that runs a sequence of operations. [IntervalTheorems.v]: the properties of these files.
    - [Nla.v]: [Z/math/lp/nla_intervals.cpp], with the expressions of [Z/math/lp/nex.h] and what it uses of
      [Z/math/lp/lar_term.h]: intervals of polynomial expressions from the bounds of the columns, over an
      interface to the linear solver ([NlaCore]). Scoped intervals live at a stack pointer. [NlaTerms.v]: values
      of expressions and linear terms. [NlaObs.v]: results depend on the operands only. [NlaProofs.v]: the laws
      of the solver ([NlaLaws]), one lemma per step, and the induction on expressions. [NlaTheorems.v]: the
      properties, a solver with concrete bounds.

    ** What the theorems show

    [Mpn]: the operations compute the sum, product, quotient and remainder of the numbers their
    arrays denote, and comparison is the order of those numbers.  [BitUtil]: shifts, counts and word
    arithmetic against multiplication, division and the bits of the number.  [MpfxArith]: exact
    addition, multiplication and division correctly rounded in the requested direction, powers,
    rounding to integers, order, conversions, and the concrete runs on which the code departs from
    its contract.  [Mpbq]: exactness of the ring operations, order, simplest point of an interval,
    roots, approximation and refinement bounds.  [BoolRewriterSound]: the rewriter returns on every
    well sorted application a well sorted term with the same meaning, and its normal forms.
    [BddTheorems]: a client's run refines the abstract machine of boolean functions with equal handles
    for equal functions, the invariant holds throughout, the collector frees exactly what is not
    reachable; and the runs on which a missing root, the level of the constants or the comparison of
    cache entries gives a wrong result.

    [HeapTheorems]: a simulation of priority queues by the heap, also when the client changes the order of
    one value, and sorting.  [UnionFindTheorems]: a simulation of equivalences, with a
    logarithmic bound on [find]; backtracking restores every vector; [dissolve] does not dissolve a class.

    [IntervalTheorems]: operations on intervals enclose the operations on real numbers, products exactly;
    the bounds a rule names justify the result; roots end; the series of sine and cosine enclose them; a sequence of operations refines the same
    operations on numbers with every bound justified, conflicts with 0 are explained, intersections are
    exact, justifications are sets; and runs with wrong results (aliases, rounding modes).
    [NlaTheorems]: from a solver whose constraints have a solution (the caller checks an expression only when
    the linear solver found one), the interval of an expression has its value, justified; a conflict is
    reported with exactly one explanation, which is right whatever the other constraints; and a run where the
    explanation of contradicting bounds is wrong.

    ** Bounds and fuel

    Loops whose number of steps is known are loops over [nat] ([for_up], [for_dn]).  The others take
    fuel and return [None] when it runs out; the theorem on such a function bounds the fuel by
    an expression of its arguments and concludes that a result is returned.  32 bit exponents and
    sizes wrap as in the source; the hypotheses [... < 4294967296] of a theorem are the cases
    without overflow.

    ** Not modelled

    The Java and OCaml parts, and in [Z] everything outside the files above: the memory
    representation of terms, theories, tactics and the search engines, which depend on global state,
    allocators and callbacks spread over hundreds of files; parsers, the API and shells, which are
    input and output.  Of [dd_bdd.cpp], the reordering of variables (an operation that runs out of nodes
    ends there), size estimates in floating point and printing. Of [Z/math/lp], everything but
    the interval analysis; of the dependency manager, the reference counted deletion, which
    the scoped manager never calls.  Debug checks ([SASSERT], [DEBUG_CODE]), tracing and statistics are left out.
    Memory exhaustion is not modelled.
*)
From Stdlib Require Import ZArith Lia.
From stdpp Require Import base tactics option list numbers.

Open Scope Z_scope.

(** ** Machine words

    [unsigned] / [mpn_digit] are 32 bit, [uint64_t] / [size_t] are 64 bit.  A word is a [Z]
    kept in range by the explicit reduction the C++ type performs. *)

Definition u32 (x : Z) : Z := x mod 4294967296.
Definition u64 (x : Z) : Z := x mod 18446744073709551616.

Definition is_u32 (x : Z) : Prop := 0 <= x < 4294967296.

Declare Scope word_scope.
Delimit Scope word_scope with word.
Notation "x ⊕ y" := (u32 (x + y)) (at level 50, left associativity) : word_scope.
Notation "x ⊖ y" := (u32 (x - y)) (at level 50, left associativity) : word_scope.
Open Scope word_scope.

Definition lnot32 (x : Z) : Z := 4294967295 - x.
Definition b2z (b : bool) : Z := if b then 1 else 0.

(** Linear arithmetic with [/] and [mod] by constants. *)
Ltac dlia := Z.to_euclidean_division_equations; lia.
Ltac dnia := Z.to_euclidean_division_equations; nia.

Create HintDb words.

Lemma u32_range x : is_u32 (u32 x).
Proof. unfold is_u32, u32. dlia. Qed.

Lemma u32_small x : is_u32 x -> u32 x = x.
Proof. unfold is_u32, u32. dlia. Qed.

Lemma u32_over x : 4294967296 <= x < 8589934592 -> u32 x = x - 4294967296.
Proof. unfold u32. dlia. Qed.

Lemma u32_under x : -4294967296 <= x < 0 -> u32 x = x + 4294967296.
Proof. unfold u32. dlia. Qed.

(** Case analysis on whether one 32 bit addition or subtraction wraps. *)
Ltac u32_add x :=
  destruct (Z_lt_le_dec x 4294967296);
  [ rewrite (u32_small x) in * by (unfold is_u32 in *; lia)
  | rewrite (u32_over x) in * by (unfold is_u32 in *; lia) ].
Ltac u32_sub x :=
  destruct (Z_lt_le_dec x 0);
  [ rewrite (u32_under x) in * by (unfold is_u32 in *; lia)
  | rewrite (u32_small x) in * by (unfold is_u32 in *; lia) ].
(** Case analysis on the comparisons of the goal. *)
Ltac zcases :=
  repeat match goal with
  | |- context [?x <? ?y] => destruct (Z.ltb_spec x y)
  | |- context [?x <=? ?y] => destruct (Z.leb_spec x y)
  | |- context [?x =? ?y] => destruct (Z.eqb_spec x y)
  end.

Lemma is_u32_0 : is_u32 0.
Proof. unfold is_u32. lia. Qed.

#[export] Hint Resolve u32_range is_u32_0 : words.

(** stdpp writes the shifts of [Z] [x ≪ k] and [x ≫ k]. *)

(** ** Arrays

    An array is a list of words; an access outside its bounds is undefined behaviour in the
    source and [None] here, so a theorem whose conclusion is [Some _] states memory safety. *)

Definition rd {A} (a : list A) (i : nat) : option A := a !! i.
Definition wr {A} (a : list A) (i : nat) (v : A) : option (list A) :=
  if (i <? length a)%nat then Some (<[i:=v]> a) else None.

Lemma wr_ok {A} (a : list A) i v : (i < length a)%nat -> wr a i v = Some (<[i:=v]> a).
Proof. intros H. unfold wr. by rewrite (proj2 (Nat.ltb_lt _ _) H). Qed.

(** A word of the array, and 0 outside it: the digit [zero] of the source. *)
Definition limb (a : list Z) (i : nat) : Z := default 0 (a !! i).

Lemma rd_ok (a : list Z) i : (i < length a)%nat -> rd a i = Some (limb a i).
Proof.
  intros H. unfold rd, limb. destruct (lookup_lt_is_Some_2 a i H) as [x ->]. done.
Qed.

Lemma limb_ge (a : list Z) i : (length a <= i)%nat -> limb a i = 0.
Proof. intros H. unfold limb. by rewrite lookup_ge_None_2. Qed.

Lemma limb_insert_eq (a : list Z) i v : (i < length a)%nat -> limb (<[i:=v]> a) i = v.
Proof. intros H. unfold limb. by rewrite list_lookup_insert_eq. Qed.

Lemma limb_insert_ne (a : list Z) i j v : i <> j -> limb (<[i:=v]> a) j = limb a j.
Proof. intros H. unfold limb. by rewrite list_lookup_insert_ne. Qed.

Lemma limb_insert (a : list Z) i j v : (i < length a)%nat ->
  limb (<[i:=v]> a) j = if decide (i = j) then v else limb a j.
Proof.
  intros H. case_decide as E; [subst; by apply limb_insert_eq | by apply limb_insert_ne].
Qed.

Lemma limb_drop (a : list Z) n i : limb (drop n a) i = limb a (n + i).
Proof. unfold limb. by rewrite lookup_drop. Qed.

Lemma limb_take (a : list Z) n i : (i < n)%nat -> limb (take n a) i = limb a i.
Proof. intros H. unfold limb. by rewrite lookup_take_lt. Qed.

Lemma limb_app_l (a b : list Z) i : (i < length a)%nat -> limb (a ++ b) i = limb a i.
Proof. intros H. unfold limb. by rewrite lookup_app_l. Qed.

Lemma limb_app_r (a b : list Z) i :
  (length a <= i)%nat -> limb (a ++ b) i = limb b (i - length a).
Proof. intros H. unfold limb. by rewrite lookup_app_r. Qed.

Lemma limb_replicate n v i : (i < n)%nat -> limb (replicate n v) i = v.
Proof. intros H. unfold limb. by rewrite lookup_replicate_2. Qed.

Lemma limb_ext (a b : list Z) :
  length a = length b -> (forall i, (i < length a)%nat -> limb a i = limb b i) -> a = b.
Proof.
  intros Hl H. apply list_eq. intros i. destruct (decide (i < length a)%nat) as [Hi|Hi].
  - specialize (H i Hi). unfold limb in H.
    destruct (lookup_lt_is_Some_2 a i Hi) as [x Hx].
    destruct (lookup_lt_is_Some_2 b i ltac:(lia)) as [y Hy].
    rewrite Hx, Hy in H |- *. by simpl in H; subst.
  - rewrite !lookup_ge_None_2; [done | lia | lia].
Qed.

(** ** Loops

    [for_up n lo body s] runs [body lo], ..., [body (lo + n - 1)]; [for_dn n body s] runs
    [body (n - 1)], ..., [body 0].  The [_ret] variants stop at the first [Ret]. *)

Inductive ctl (S R : Type) : Type :=
  | Next (s : S)
  | Ret (r : R).
Arguments Next {S R} s.
Arguments Ret {S R} r.

Section Loops.
Context {S R : Type}.

Fixpoint for_up (n lo : nat) (body : nat -> S -> option S) (s : S) : option S :=
  match n with
  | O => Some s
  | Datatypes.S n' => s' ← body lo s; for_up n' (Datatypes.S lo) body s'
  end.

Fixpoint for_dn (n : nat) (body : nat -> S -> option S) (s : S) : option S :=
  match n with
  | O => Some s
  | Datatypes.S n' => s' ← body n' s; for_dn n' body s'
  end.

Fixpoint for_up_ret (n lo : nat) (body : nat -> S -> option (ctl S R)) (s : S)
    : option (ctl S R) :=
  match n with
  | O => Some (Next s)
  | Datatypes.S n' =>
      c ← body lo s;
      match c with
      | Next s' => for_up_ret n' (Datatypes.S lo) body s'
      | Ret r => Some (Ret r)
      end
  end.

Fixpoint for_dn_ret (n : nat) (body : nat -> S -> option (ctl S R)) (s : S)
    : option (ctl S R) :=
  match n with
  | O => Some (Next s)
  | Datatypes.S n' =>
      c ← body n' s;
      match c with
      | Next s' => for_dn_ret n' body s'
      | Ret r => Some (Ret r)
      end
  end.

(** Invariant rules: the loop returns, and its result satisfies the invariant. *)
Lemma for_up_inv (P : nat -> S -> Prop) n lo body s :
  P lo s ->
  (forall i s0, (lo <= i < lo + n)%nat -> P i s0 ->
     exists s1, body i s0 = Some s1 /\ P (Datatypes.S i) s1) ->
  exists s', for_up n lo body s = Some s' /\ P (lo + n)%nat s'.
Proof.
  revert lo s. induction n as [|n IH]; intros lo s H0 Hb; simpl.
  - rewrite Nat.add_0_r. eauto.
  - destruct (Hb lo s) as (s1 & -> & H1); [lia | done | simpl].
    destruct (IH (Datatypes.S lo) s1) as (s' & -> & H'); [done | | ].
    + intros i s0 Hi. apply Hb. lia.
    + exists s'. by rewrite Nat.add_succ_r.
Qed.

Lemma for_dn_inv (P : nat -> S -> Prop) n body s :
  P n s ->
  (forall i s0, (i < n)%nat -> P (Datatypes.S i) s0 ->
     exists s1, body i s0 = Some s1 /\ P i s1) ->
  exists s', for_dn n body s = Some s' /\ P O s'.
Proof.
  revert s. induction n as [|n IH]; intros s H0 Hb; simpl; [eauto |].
  destruct (Hb n s) as (s1 & -> & H1); [lia | done | simpl].
  apply IH; [done | intros i s0 Hi; apply Hb; lia].
Qed.

Lemma for_up_ret_inv (P : nat -> S -> Prop) (Q : R -> Prop) n lo body s :
  P lo s ->
  (forall i s0, (lo <= i < lo + n)%nat -> P i s0 ->
     (exists s1, body i s0 = Some (Next s1) /\ P (Datatypes.S i) s1) \/
     (exists r, body i s0 = Some (Ret r) /\ Q r)) ->
  (exists s', for_up_ret n lo body s = Some (Next s') /\ P (lo + n)%nat s') \/
  (exists r, for_up_ret n lo body s = Some (Ret r) /\ Q r).
Proof.
  revert lo s. induction n as [|n IH]; intros lo s H0 Hb; simpl.
  - rewrite Nat.add_0_r. eauto.
  - destruct (Hb lo s) as [(s1 & -> & H1)|(r & -> & Hr)]; [lia | done | simpl | simpl; eauto].
    destruct (IH (Datatypes.S lo) s1) as [(s' & -> & H')|(r & -> & Hr)]; eauto.
    + intros i s0 Hi. apply Hb. lia.
    + left. exists s'. by rewrite Nat.add_succ_r.
Qed.

Lemma for_dn_ret_inv (P : nat -> S -> Prop) (Q : R -> Prop) n body s :
  P n s ->
  (forall i s0, (i < n)%nat -> P (Datatypes.S i) s0 ->
     (exists s1, body i s0 = Some (Next s1) /\ P i s1) \/
     (exists r, body i s0 = Some (Ret r) /\ Q r)) ->
  (exists s', for_dn_ret n body s = Some (Next s') /\ P O s') \/
  (exists r, for_dn_ret n body s = Some (Ret r) /\ Q r).
Proof.
  revert s. induction n as [|n IH]; intros s H0 Hb; simpl; [eauto |].
  destruct (Hb n s) as [(s1 & -> & H1)|(r & -> & Hr)]; [lia | done | simpl | simpl; eauto].
  apply IH; [done | intros i s0 Hi; apply Hb; lia].
Qed.
End Loops.

(** ** The number a little-endian array of 32 bit words denotes *)

Definition Bpow (n : nat) : Z := 4294967296 ^ Z.of_nat n.

Lemma Bpow_0 : Bpow 0 = 1.
Proof. done. Qed.

Lemma Bpow_S n : Bpow (S n) = 4294967296 * Bpow n.
Proof. unfold Bpow. rewrite Nat2Z.inj_succ, Z.pow_succ_r; lia. Qed.

Lemma Bpow_pos n : 0 < Bpow n.
Proof. unfold Bpow. apply Z.pow_pos_nonneg; lia. Qed.

Lemma Bpow_add n m : Bpow (n + m) = Bpow n * Bpow m.
Proof. unfold Bpow. rewrite Nat2Z.inj_add, Z.pow_add_r; lia. Qed.

Lemma Bpow_pow2 n : Bpow n = 2 ^ (32 * Z.of_nat n).
Proof. unfold Bpow. rewrite Z.pow_mul_r by lia. done. Qed.

Definition words (a : list Z) : Prop := Forall is_u32 a.

Fixpoint num (n : nat) (a : list Z) : Z :=
  match n with
  | O => 0
  | S n' => num n' a + limb a n' * Bpow n'
  end.

(** The whole array. *)
Definition val (a : list Z) : Z := num (length a) a.

Lemma words_lookup a i : words a -> is_u32 (limb a i).
Proof.
  intros H. destruct (decide (i < length a)%nat) as [Hi|Hi].
  - destruct (lookup_lt_is_Some_2 a i Hi) as [x Hx]. unfold limb. rewrite Hx.
    eapply (Forall_lookup_1 is_u32); eauto.
  - rewrite limb_ge by lia. apply is_u32_0.
Qed.

Lemma words_insert a i v : words a -> is_u32 v -> words (<[i:=v]> a).
Proof. intros. by apply Forall_insert. Qed.

Lemma words_replicate n v : is_u32 v -> words (replicate n v).
Proof. intros. by apply Forall_replicate. Qed.

#[export] Hint Resolve words_lookup words_insert words_replicate : words.

Lemma num_ext n (a b : list Z) :
  (forall i, (i < n)%nat -> limb a i = limb b i) -> num n a = num n b.
Proof.
  induction n as [|n IH]; intros H; simpl; [done |].
  rewrite IH by (intros; apply H; lia). rewrite H by lia. done.
Qed.

Lemma num_insert_ge n (a : list Z) i v : (n <= i)%nat -> num n (<[i:=v]> a) = num n a.
Proof.
  intros H. apply num_ext. intros j Hj. apply limb_insert_ne. lia.
Qed.

Lemma num_insert_lt n (a : list Z) i v :
  (i < n)%nat -> (i < length a)%nat ->
  num n (<[i:=v]> a) = num n a + (v - limb a i) * Bpow i.
Proof.
  induction n as [|n IH]; intros Hi Hl; [lia |]. simpl.
  destruct (decide (i = n)) as [->|Hne].
  - rewrite num_insert_ge, limb_insert_eq by lia. lia.
  - rewrite IH, limb_insert_ne by lia. lia.
Qed.

Lemma num_bound n a : words a -> 0 <= num n a < Bpow n.
Proof.
  intros Hw. induction n as [|n IH]; simpl; [rewrite Bpow_0; lia |].
  rewrite Bpow_S. pose proof (words_lookup a n Hw) as Hd. unfold is_u32 in Hd.
  pose proof (Bpow_pos n). nia.
Qed.

Lemma num_split n m (a : list Z) : num (n + m) a = num n a + Bpow n * num m (drop n a).
Proof.
  induction m as [|m IH]; simpl; [rewrite Nat.add_0_r; lia |].
  rewrite Nat.add_succ_r. simpl. rewrite IH, Bpow_add, limb_drop. lia.
Qed.

Lemma num_ge_length n (a : list Z) : (length a <= n)%nat -> num n a = val a.
Proof.
  intros H. unfold val. replace n with (length a + (n - length a))%nat by lia.
  generalize (n - length a)%nat as m. intros m. induction m as [|m IH].
  - by rewrite Nat.add_0_r.
  - rewrite Nat.add_succ_r. simpl. rewrite IH, limb_ge by lia. lia.
Qed.

Lemma num_zero n (a : list Z) : (forall i, (i < n)%nat -> limb a i = 0) -> num n a = 0.
Proof.
  induction n as [|n IH]; intros H; simpl; [done |].
  rewrite IH by (intros; apply H; lia). rewrite H by lia. done.
Qed.

Lemma num_replicate_0 n m : num n (replicate m 0) = 0.
Proof.
  apply num_zero. intros i _. destruct (decide (i < m)%nat).
  - by rewrite limb_replicate.
  - apply limb_ge. rewrite length_replicate. lia.
Qed.

Lemma words_limb a : (forall i, (i < length a)%nat -> is_u32 (limb a i)) -> words a.
Proof.
  intros H. apply Forall_lookup. intros i x Hx.
  assert (Hi : (i < length a)%nat) by (eapply lookup_lt_Some; eauto).
  specialize (H i Hi). unfold limb in H. by rewrite Hx in H.
Qed.

(** ** Loops that fill an array

    Each iteration writes one element whose value does not depend on the array. *)
Section Fill.
Context (f : nat -> Z) (off n : nat).
Implicit Types r : list Z.

Definition filled r r' : Prop :=
  length r' = length r /\
  (forall i, (i < n)%nat -> limb r' (off + i) = f i) /\
  (forall i, (i < off \/ off + n <= i)%nat -> limb r' i = limb r i).

Lemma fill_up body r :
  (forall i r, (i < n)%nat -> body i r = wr r (off + i) (f i)) ->
  (off + n <= length r)%nat ->
  exists r', for_up n 0 body r = Some r' /\ filled r r'.
Proof.
  intros Hb Hl.
  edestruct (for_up_inv (fun k r' => length r' = length r /\
    (forall i, (i < k)%nat -> limb r' (off + i) = f i) /\
    (forall i, (i < off \/ off + k <= i)%nat -> limb r' i = limb r i))) as (r' & -> & H);
    [| | eauto].
  - repeat split; auto; lia.
  - intros i r0 Hi (Hl0 & H1 & H2). rewrite Hb, wr_ok by lia.
    eexists. split; [done |]. rewrite length_insert. split; [done |]. split.
    + intros j Hj. destruct (decide (j = i)) as [->|].
      * rewrite limb_insert_eq by lia. done.
      * rewrite limb_insert_ne by lia. apply H1. lia.
    + intros j Hj. rewrite limb_insert_ne by lia. apply H2. lia.
Qed.

Lemma fill_dn body r :
  (forall i r, (i < n)%nat -> body i r = wr r (off + i) (f i)) ->
  (off + n <= length r)%nat ->
  exists r', for_dn n body r = Some r' /\ filled r r'.
Proof.
  intros Hb Hl.
  edestruct (for_dn_inv (fun k r' => length r' = length r /\
    (forall i, (k <= i < n)%nat -> limb r' (off + i) = f i) /\
    (forall i, (i < off + k \/ off + n <= i)%nat -> limb r' i = limb r i))) as (r' & -> & H);
    [| | exists r'; split; [done |]].
  - repeat split; auto; lia.
  - intros i r0 Hi (Hl0 & H1 & H2). rewrite Hb, wr_ok by lia.
    eexists. split; [done |]. rewrite length_insert. split; [done |]. split.
    + intros j Hj. destruct (decide (j = i)) as [->|].
      * rewrite limb_insert_eq by lia. done.
      * rewrite limb_insert_ne by lia. apply H1. lia.
    + intros j Hj. rewrite limb_insert_ne by lia. apply H2. lia.
  - destruct H as (? & H1 & H2). repeat split; [done | | ].
    + intros i Hi. apply H1. lia.
    + intros i Hi. apply H2. lia.
Qed.

Lemma filled_words r r' :
  filled r r' -> words r -> (forall i, (i < n)%nat -> is_u32 (f i)) -> words r'.
Proof.
  intros (Hl & H1 & H2) Hw Hf. apply words_limb. intros i Hi.
  destruct (decide (off <= i < off + n)%nat) as [Hin|Hout].
  - replace i with (off + (i - off))%nat by lia. rewrite H1 by lia. apply Hf. lia.
  - rewrite H2 by lia. by apply words_lookup.
Qed.
End Fill.

(** A loop that writes the same word from index [lo] on. *)
Lemma fill_from_up x lo n (r : list Z) :
  (lo + n <= length r)%nat ->
  exists r', for_up n lo (fun i r => wr r i x) r = Some r' /\ length r' = length r /\
    (words r -> is_u32 x -> words r') /\
    (forall i, limb r' i = if decide (lo <= i < lo + n)%nat then x else limb r i).
Proof.
  intros Hl.
  edestruct (for_up_inv (fun k r' => length r' = length r /\ (words r -> is_u32 x -> words r') /\
    (forall i, limb r' i = if decide (lo <= i < k)%nat then x else limb r i)))
    as (r' & -> & H); [| | by exists r'].
  - repeat split; auto. intros i. case_decide; [lia | done].
  - intros i r0 Hi (Hl0 & Hw & H). rewrite wr_ok by lia. eexists. split; [done |].
    rewrite length_insert. split; [done |]. split; [auto with words |].
    intros k. rewrite limb_insert, H by lia. repeat case_decide; try done; lia.
Qed.

(** [mstep] evaluates the next array access of the goal's computation: the head of its
    outermost bind.  [msteps] runs as far as the accesses are in bounds. *)
Ltac m_head e :=
  lazymatch e with
  | @mbind _ _ _ _ _ ?x => m_head x
  | _ => e
  end.
Ltac in_bounds := rewrite ?length_insert; lia.
Ltac mstep :=
  cbv beta;
  lazymatch goal with
  | |- context [@mbind option _ ?A ?B ?f ?x] =>
      let h := m_head x in
      lazymatch h with
      | rd ?a ?i => rewrite (rd_ok a i) by in_bounds
      | wr ?a ?i ?v => rewrite (wr_ok a i v) by in_bounds
      | Some _ => idtac
      end
  | |- context [wr ?a ?i ?v] => rewrite (wr_ok a i v) by in_bounds
  end;
  cbn [mbind option_bind].
Ltac msteps := repeat mstep.
