(* ===== verification/Words.v ===== *)
(** * Words: arithmetic of 32 bit words and of the arrays they form

    Lemmas shared by the components that work on little-endian arrays of words: carries and
    borrows, word shifts, and what they do to the number an array denotes. *)
From S2P Require Import Prelude.
From Stdlib Require Import ZArith Lia.
From stdpp Require Import base tactics option list numbers.
Open Scope Z_scope.
Open Scope word_scope.

Lemma words_take n a : words a -> words (take n a).
Proof. intros. by apply Forall_take. Qed.

Lemma num_take_ge n lng a :
  (lng <= length a)%nat -> (lng <= n)%nat -> num n (take lng a) = num lng a.
Proof.
  intros Ha Hn. rewrite num_ge_length by (rewrite length_take; lia).
  unfold val. rewrite length_take, Nat.min_l by lia.
  apply num_ext. intros. by apply limb_take.
Qed.

Lemma carry_step u v k :
  is_u32 u -> is_u32 v -> 0 <= k <= 1 ->
  let r := u ⊕ v in
  let c := r ⊕ k in
  let k' := b2z ((r <? u) || (c <? r)) in
  c + 4294967296 * k' = u + v + k /\ 0 <= k' <= 1 /\ is_u32 c.
Proof.
  cbv zeta. intros Hu Hv Hk. unfold is_u32 in *. u32_add (u + v);
    [u32_add (u + v + k) | u32_add (u + v - 4294967296 + k)];
    zcases; cbn [orb b2z]; lia.
Qed.

Lemma borrow_step u v k :
  is_u32 u -> is_u32 v -> 0 <= k <= 1 ->
  let r := u ⊖ v in
  let c := r ⊖ k in
  let k' := b2z ((u <? r) || (r <? c)) in
  c - 4294967296 * k' = u - v - k /\ 0 <= k' <= 1 /\ is_u32 c.
Proof.
  cbv zeta. intros Hu Hv Hk. unfold is_u32 in *. u32_sub (u - v);
    [u32_sub (u - v + 4294967296 - k) | u32_sub (u - v - k)];
    zcases; cbn [orb b2z]; lia.
Qed.

Lemma shr32_shl32 t : 0 <= t -> u64 (t ≪ 32) ≫ 32 = t mod 4294967296.
Proof.
  intros. unfold u64. rewrite Z.shiftr_div_pow2, Z.shiftl_mul_pow2 by lia.
  change (2 ^ 32) with 4294967296. dlia.
Qed.

Lemma shr32 t : t ≫ 32 = t / 4294967296.
Proof. by rewrite Z.shiftr_div_pow2 by lia. Qed.

Lemma lor_disjoint x y k : 0 <= k -> 0 <= y < 2 ^ k -> Z.lor (x * 2 ^ k) y = x * 2 ^ k + y.
Proof.
  intros Hk Hy. pose proof (Z.add_lor_land (x * 2 ^ k) y).
  enough (Z.land (x * 2 ^ k) y = 0) by lia.
  apply Z.bits_inj'. intros i Hi. rewrite Z.land_spec, Z.bits_0.
  destruct (Z_lt_le_dec i k).
  - by rewrite Z.mul_pow2_bits_low.
  - enough (Z.testbit y i = false) as -> by apply andb_false_r.
    rewrite <- (Z.mod_small y (2 ^ k)) by lia. by apply Z.mod_pow2_bits_high.
Qed.

Lemma pow2_split d : 0 <= d <= 32 -> 2 ^ d * 2 ^ (32 - d) = 4294967296 /\ 0 < 2 ^ d /\ 0 < 2 ^ (32 - d).
Proof.
  intros. rewrite <- Z.pow_add_r by lia. replace (d + (32 - d)) with 32 by lia.
  repeat split; apply Z.pow_pos_nonneg; lia.
Qed.

(** The word [x << d] filled with the top bits of the word below it. *)
Lemma shl_word d x y :
  0 < d < 32 -> is_u32 x -> is_u32 y ->
  Z.lor (u32 (x ≪ d)) (y ≫ (32 - d)) = (x * 2 ^ d) mod 4294967296 + y / 2 ^ (32 - d) /\
  is_u32 ((x * 2 ^ d) mod 4294967296 + y / 2 ^ (32 - d)).
Proof.
  unfold is_u32, u32. intros Hd Hx Hy.
  rewrite Z.shiftl_mul_pow2, Z.shiftr_div_pow2 by lia.
  destruct (pow2_split d) as (E & P1 & P2); [lia |].
  assert (Hq : 0 <= y / 2 ^ (32 - d) < 2 ^ d).
  { split; [apply Z.div_pos; lia | apply Z.div_lt_upper_bound; nia]. }
  assert ((x * 2 ^ d) mod 4294967296 = (x mod 2 ^ (32 - d)) * 2 ^ d) as ->.
  { rewrite <- E, (Z.mul_comm (2 ^ d) (2 ^ (32 - d))). apply Z.mul_mod_distr_r; lia. }
  rewrite lor_disjoint by lia. split; [done |].
  pose proof (Z.mod_pos_bound x (2 ^ (32 - d)) P2). nia.
Qed.

(** The word [x >> d] filled with the low bits of the word above it. *)
Lemma shr_word d x y :
  0 < d < 32 -> is_u32 x -> is_u32 y ->
  Z.lor (x ≫ d) (u32 (y ≪ (32 - d))) = x / 2 ^ d + (y mod 2 ^ d) * 2 ^ (32 - d) /\
  is_u32 (x / 2 ^ d + (y mod 2 ^ d) * 2 ^ (32 - d)).
Proof.
  unfold is_u32, u32. intros Hd Hx Hy.
  rewrite Z.shiftl_mul_pow2, Z.shiftr_div_pow2 by lia.
  destruct (pow2_split d) as (E & P1 & P2); [lia |].
  assert (Hq : 0 <= x / 2 ^ d < 2 ^ (32 - d)).
  { split; [apply Z.div_pos; lia | apply Z.div_lt_upper_bound; nia]. }
  pose proof (Z.mod_pos_bound y (2 ^ d) P1) as Hm.
  assert (y * 2 ^ (32 - d) mod 4294967296 = y mod 2 ^ d * 2 ^ (32 - d)) as ->.
  { rewrite <- E. apply Z.mul_mod_distr_r; lia. }
  rewrite Z.lor_comm, lor_disjoint by lia. split; [lia | nia].
Qed.

(** The value of an array whose digits are those of [a] shifted left by [d]. *)
Lemma shl_num d a r n :
  0 <= d <= 32 -> words a ->
  (forall i, (i < n)%nat -> limb r i = (limb a i * 2 ^ d) mod 4294967296 +
      match i with O => 0 | S i' => limb a i' / 2 ^ (32 - d) end) ->
  num n r + match n with O => 0 | S n' => limb a n' / 2 ^ (32 - d) end * Bpow n
    = num n a * 2 ^ d.
Proof.
  intros Hd Ha. destruct (pow2_split d Hd) as (E & P1 & P2).
  induction n as [|n IH]; intros H; [done |].
  cbn [num]. rewrite H, Bpow_S by lia.
  assert (IH' := IH (fun i Hi => H i (Nat.lt_lt_succ_r _ _ Hi))). clear IH.
  assert (Hq : limb a n / 2 ^ (32 - d) = limb a n * 2 ^ d / 4294967296).
  { rewrite <- E, (Z.mul_comm (2 ^ d) (2 ^ (32 - d))), Z.div_mul_cancel_r by lia. done. }
  rewrite Hq. pose proof (Z.div_mod (limb a n * 2 ^ d) 4294967296) as Hdm.
  set (Q := limb a n * 2 ^ d / 4294967296) in *.
  set (M := (limb a n * 2 ^ d) mod 4294967296) in *. clearbody Q M.
  replace ((num n a + limb a n * Bpow n) * 2 ^ d) with
    (num n a * 2 ^ d + Bpow n * (limb a n * 2 ^ d)) by ring.
  rewrite Hdm, <- IH' by lia. ring.
Qed.

(** The value of an array whose digits are those of [u] shifted right by [d]. *)
Lemma shr_num d u r n :
  0 <= d <= 32 ->
  (forall i, (i < n)%nat -> limb r i = limb u i / 2 ^ d + (limb u (S i) mod 2 ^ d) * 2 ^ (32 - d)) ->
  2 ^ d * num n r = num n u - limb u 0 mod 2 ^ d + (limb u n mod 2 ^ d) * Bpow n.
Proof.
  intros Hd. destruct (pow2_split d Hd) as (E & P1 & P2).
  induction n as [|n IH]; intros H; cbn [num]; [rewrite Bpow_0; lia |].
  rewrite H, Bpow_S by lia.
  assert (IH' := IH (fun i Hi => H i (Nat.lt_lt_succ_r _ _ Hi))). clear IH.
  pose proof (Z.div_mod (limb u n) (2 ^ d)) as Hdm.
  set (Q := limb u n / 2 ^ d) in *. set (M := limb u n mod 2 ^ d) in *.
  set (M' := limb u (S n) mod 2 ^ d). clearbody Q M M'.
  replace (2 ^ d * (num n r + (Q + M' * 2 ^ (32 - d)) * Bpow n))
    with (2 ^ d * num n r + (2 ^ d * Q) * Bpow n + M' * (2 ^ d * 2 ^ (32 - d)) * Bpow n) by ring.
  rewrite E, IH'. replace (2 ^ d * Q) with (limb u n - M) by lia. ring.
Qed.
