(* ===== verification/Mpn.v ===== *)
(** * Mpn: multi precision naturals ([util/mpn.cpp], class [mpn_manager])

    A number is a little-endian array of 32 bit digits.  Every pointer argument of the source
    is the array it points to, a size argument is a [nat], and an output buffer is passed in
    with its old contents and returned.  Functions are partial: [None] is an access outside an
    array, a division by zero, a shift by the width of the type or a loop that does not end. *)
From S2P Require Import Prelude.
From S2P Require Import Words.
From Stdlib Require Import ZArith Lia.
From stdpp Require Import base tactics option list numbers.
Open Scope Z_scope.
Open Scope word_scope.

Module mpn_manager.

Definition zero : Z := 0.

(** [(j < lng) ? a[j] : zero] *)
Definition digit_at (a : list Z) (lng j : nat) : option Z :=
  if (j <? lng)%nat then rd a j else Some zero.

Definition compare (a : list Z) (lnga : nat) (b : list Z) (lngb : nat) : option Z :=
  c ← for_dn_ret (lnga `max` lngb) (fun j (_ : unit) =>
        u_j ← digit_at a lnga j;
        v_j ← digit_at b lngb j;
        Some (if v_j <? u_j then Ret 1 else if u_j <? v_j then Ret (-1) else Next tt)) tt;
  Some (match c with Next _ => 0 | Ret res => res end).

(** [for (os = len+1; os > 1 && c[os-1] == 0; ) os--;] *)
Fixpoint trim (c : list Z) (os : nat) : option nat :=
  match os with
  | S (S _ as os') => d ← rd c os'; if d =? 0 then trim c os' else Some os
  | _ => Some os
  end.

(** Returns [c] and the size stored in [*plngc]. *)
Definition add (a : list Z) (lnga : nat) (b : list Z) (lngb : nat) (c : list Z)
    : option (list Z * nat) :=
  let len := (lnga `max` lngb)%nat in
  '(c, k) ← for_up len 0 (fun j '(c, k) =>
        u_j ← digit_at a lnga j;
        v_j ← digit_at b lngb j;
        let r := u_j ⊕ v_j in
        let c1 := r <? u_j in
        let c_j := r ⊕ k in
        c ← wr c j c_j;
        let c2 := c_j <? r in
        Some (c, b2z (c1 || c2))) (c, 0);
  c ← wr c len k;
  os ← trim c (len + 1);
  Some (c, os).

(** The loop of [sub]; [rda] and [rdb] read the two operands and see the current contents of
    [c], so that the call of [div_n], whose output is its first operand, is covered. *)
Definition sub_loop (rda rdb : list Z -> nat -> option Z) (len : nat) (c : list Z)
    : option (list Z * Z) :=
  for_up len 0 (fun j '(c, k) =>
    u_j ← rda c j;
    v_j ← rdb c j;
    let r := u_j ⊖ v_j in
    let c1 := u_j <? r in
    let c_j := r ⊖ k in
    c ← wr c j c_j;
    let c2 := r <? c_j in
    Some (c, b2z (c1 || c2))) (c, 0).

(** Returns [c] and the borrow stored in [*pborrow]. *)
Definition sub (a : list Z) (lnga : nat) (b : list Z) (lngb : nat) (c : list Z)
    : option (list Z * Z) :=
  sub_loop (fun _ => digit_at a lnga) (fun _ => digit_at b lngb) (lnga `max` lngb) c.

(** [sub(c, lnga, b, lngb, c, &borrow)] *)
Definition sub_inplace (c : list Z) (lnga : nat) (b : list Z) (lngb : nat)
    : option (list Z * Z) :=
  sub_loop (fun c => digit_at c lnga) (fun _ => digit_at b lngb) (lnga `max` lngb) c.

Definition DIGIT_BITS : Z := 32.

Definition mul (a : list Z) (lnga : nat) (b : list Z) (lngb : nat) (c : list Z)
    : option (list Z) :=
  c ← for_up lnga 0 (fun i c => wr c i 0) c;
  for_up lngb 0 (fun j c =>
    v_j ← rd b j;
    if v_j =? 0 then wr c (j + lnga) 0
    else
      '(c, k) ← for_up lnga 0 (fun i '(c, k) =>
          u_i ← rd a i;
          c_ij ← rd c (i + j);
          let t := u64 (u_i * v_j + c_ij + k) in
          c ← wr c (i + j) (u64 (t ≪ DIGIT_BITS) ≫ DIGIT_BITS);
          Some (c, u32 (t ≫ DIGIT_BITS))) (c, 0);
      wr c (j + lnga) k) c.

Definition MASK_FIRST : Z := 2147483648.
Definition FIRST_BITS (N X : Z) : Z := X ≫ (DIGIT_BITS - N).
Definition LAST_BITS (N X : Z) : Z := u32 (X ≪ (DIGIT_BITS - N)) ≫ (DIGIT_BITS - N).
Definition BASE : Z := 4294967296.

(** [sbuffer::resize] *)
Definition resize (nsz : nat) (l : list Z) : list Z :=
  take nsz l ++ replicate (nsz - length l) 0.

(** [while (((x << d) & MASK_FIRST) == 0) d++;]  A shift by 32 is undefined. *)
Fixpoint normalize_shift (fuel : nat) (x d : Z) : option Z :=
  match fuel with
  | O => None
  | S fuel' =>
      if Z.land (u32 (x ≪ d)) MASK_FIRST =? 0 then normalize_shift fuel' x (d + 1)
      else Some d
  end.

Definition div_normalize (numer : list Z) (lnum : nat) (denom : list Z) (lden : nat)
    (n_numer n_denom : list Z) : option (Z * list Z * list Z) :=
  d ← match lden with
      | O => Some 0
      | S top => x ← rd denom top; normalize_shift 32 x 0
      end;
  let n_numer := resize (lnum + 1) n_numer in
  let n_denom := resize lden n_denom in
  if d =? 0 then
    n_numer ← wr n_numer lnum 0;
    n_numer ← for_up lnum 0 (fun i n_numer => x ← rd numer i; wr n_numer i x) n_numer;
    n_denom ← for_up lden 0 (fun i n_denom => x ← rd denom i; wr n_denom i x) n_denom;
    Some (d, n_numer, n_denom)
  else if (lnum =? 0)%nat then Some (0, n_numer, n_denom)
  else
    top ← rd numer (lnum - 1);
    n_numer ← wr n_numer lnum (FIRST_BITS d top);
    n_numer ← for_dn (lnum - 1) (fun i' n_numer =>
        x ← rd numer (i' + 1);
        y ← rd numer i';
        wr n_numer (i' + 1) (Z.lor (u32 (x ≪ d)) (FIRST_BITS d y))) n_numer;
    x0 ← rd numer 0;
    n_numer ← wr n_numer 0 (u32 (x0 ≪ d));
    n_denom ← for_dn (lden - 1) (fun i' n_denom =>
        x ← rd denom (i' + 1);
        y ← rd denom i';
        wr n_denom (i' + 1) (Z.lor (u32 (x ≪ d)) (FIRST_BITS d y))) n_denom;
    y0 ← rd denom 0;
    n_denom ← wr n_denom 0 (u32 (y0 ≪ d));
    Some (d, n_numer, n_denom).

Definition div_unnormalize (numer denom : list Z) (d : Z) (rem : list Z) : option (list Z) :=
  let n := length denom in
  if d =? 0 then
    for_up n 0 (fun i rem => x ← rd numer i; wr rem i x) rem
  else
    rem ← for_up (n - 1) 0 (fun i rem =>
        x ← rd numer i;
        y ← rd numer (i + 1);
        wr rem i (Z.lor (x ≫ d) (u32 (LAST_BITS d y ≪ (DIGIT_BITS - d))))) rem;
    x ← rd numer (n - 1);
    wr rem (n - 1) (x ≫ d).

(** Returns the partial remainders left in [numer] and the quotient. *)
Definition div_1 (numer : list Z) (denom : Z) (quot : list Z) : option (list Z * list Z) :=
  if denom =? 0 then None else
  for_dn (length numer - 1) (fun j' '(numer, quot) =>
    hi ← rd numer (j' + 1);
    lo ← rd numer j';
    let temp := Z.lor (u64 (hi ≪ DIGIT_BITS)) lo in
    let q_hat := temp / denom in
    let ms := u64 (temp - u64 (q_hat * denom)) in
    let borrow := temp <? ms in
    numer ← wr numer j' (u32 ms);
    numer ← wr numer (j' + 1) (u32 (ms ≫ DIGIT_BITS));
    quot ← wr quot j' (u32 q_hat);
    if borrow then
      quot ← wr quot j' (u32 q_hat ⊖ 1);
      numer ← wr numer (j' + 1) (u32 ms ⊕ denom);
      Some (numer, quot)
    else Some (numer, quot)) (numer, quot).

(** The [recheck:] loop of [div_n]; [d1], [d2] are [denom[n-1]], [denom[n-2]], [x] is
    [numer[j+n-2]]. *)
Fixpoint recheck (fuel : nat) (d1 d2 x q_hat r_hat : Z) : option Z :=
  match fuel with
  | O => None
  | S fuel' =>
      if (BASE <=? q_hat) || (u64 (u64 (r_hat ≪ DIGIT_BITS) + x) <? u64 (q_hat * d2)) then
        let q_hat := u64 (q_hat - 1) in
        let r_hat := u64 (r_hat + d1) in
        if r_hat <? BASE then recheck fuel' d1 d2 x q_hat r_hat else Some q_hat
      else Some q_hat
  end.

(** [&numer[j]], a window of [n] digits, and its contents after a call that wrote to it. *)
Definition window (numer : list Z) (j n : nat) : list Z := take n (drop j numer).
Definition put_window (numer : list Z) (j : nat) (w : list Z) : list Z :=
  take j numer ++ w ++ drop (j + length w) numer.

(** One iteration of the loop of [div_n]. *)
Definition div_n_step (denom : list Z) (j : nat)
    (st : list Z * list Z * list Z * list Z) : option (list Z * list Z * list Z * list Z) :=
  let '(numer, quot, ms, ab) := st in
  let n := length denom in
  hi ← rd numer (j + n);
  lo ← rd numer (j + n - 1);
  d1 ← rd denom (n - 1);
  d2 ← rd denom (n - 2);
  if d1 =? 0 then None else
  let temp := Z.lor (u64 (hi ≪ DIGIT_BITS)) lo in
  x ← rd numer (j + n - 2);
  q_hat ← recheck 3 d1 d2 x (temp / d1) (temp mod d1);
  let q_hat_small := u32 q_hat in
  ms ← mul [q_hat_small] 1 denom n ms;
  '(w, borrow) ← sub_inplace (window numer j (n + 1)) (n + 1) ms (n + 1);
  let numer := put_window numer j w in
  quot ← wr quot j q_hat_small;
  if borrow =? 0 then Some (numer, quot, ms, ab)
  else
    quot ← wr quot j (q_hat_small ⊖ 1);
    let ab := resize (n + 2) ab in
    '(ab, _) ← add denom n (window numer j (n + 1)) (n + 1) ab;
    numer ← for_up (n + 1) 0 (fun i numer => y ← rd ab i; wr numer (j + i) y) numer;
    Some (numer, quot, ms, ab).

(** Knuth's Algorithm D.  Returns the partial remainders left in [numer] and the quotient. *)
Definition div_n (numer denom quot ms ab : list Z) : option (list Z * list Z) :=
  let n := length denom in
  let m := (length numer - n)%nat in
  let ms := resize (n + 1) ms in
  '(numer, quot, _, _) ← for_dn m (div_n_step denom) (numer, quot, ms, ab);
  Some (numer, quot).

Definition all_zero (denom : list Z) (lden : nat) : option bool :=
  c ← for_up_ret lden 0 (fun i (_ : unit) =>
        x ← rd denom i; Some (if x =? zero then Next tt else Ret false)) tt;
  Some (match c with Next _ => true | Ret r => r end).

(** Returns the result of the call with [quot] and [rem].  The first loop runs
    [lnum - lden + 1] times in the arithmetic of [size_t]. *)
Definition div (numer : list Z) (lnum : nat) (denom : list Z) (lden : nat)
    (quot rem : list Z) : option (bool * list Z * list Z) :=
  let copy_rem rem :=
    for_up lden 0 (fun i rem =>
      x ← (if (i <? lnum)%nat then rd numer i else Some 0); wr rem i x) rem in
  if (lnum <? lden)%nat then
    let k := Z.to_nat (u64 (Z.of_nat lnum - Z.of_nat lden + 1)) in
    quot ← for_up k 0 (fun i quot => wr quot i 0) quot;
    rem ← copy_rem rem;
    Some (false, quot, rem)
  else
    z ← all_zero denom lden;
    if (z : bool) then Some (false, quot, rem)
    else
      if ((lnum =? 1) && (lden =? 1))%nat then
        n0 ← rd numer 0;
        d0 ← rd denom 0;
        if d0 =? 0 then None else
        quot ← wr quot 0 (n0 / d0);
        rem ← wr rem 0 (n0 mod d0);
        Some (false, quot, rem)
      else
        ntop ← rd numer (lnum - 1);
        dtop ← rd denom (lden - 1);
        if (lnum <? lden)%nat || ((lnum =? lden)%nat && (ntop <? dtop)) then
          quot ← wr quot 0 0;
          rem ← copy_rem rem;
          Some (false, quot, rem)
        else
          '(d, u, v) ← div_normalize numer lnum denom lden [] [];
          '(u, quot) ← (if (lden =? 1)%nat then v0 ← rd v 0; div_1 u v0 quot
                        else div_n u v quot [] []);
          rem ← div_unnormalize u v d rem;
          Some (true, quot, rem).

(** [printf("%u")]: decimal digits, most significant first. *)
Fixpoint dec_aux (fuel : nat) (x : Z) (acc : list Z) : list Z :=
  match fuel with
  | O => acc
  | S fuel' =>
      let acc := (48 + x mod 10) :: acc in
      if x / 10 =? 0 then acc else dec_aux fuel' (x / 10) acc
  end.
Definition dec_u32 (x : Z) : list Z := dec_aux 10 x [].

(** [while (!temp.empty() && temp.back() == 0) temp.pop_back();] *)
Fixpoint pop_zeros_rev (r : list Z) : list Z :=
  match r with
  | x :: r' => if x =? 0 then pop_zeros_rev r' else r
  | [] => []
  end.
Definition pop_zeros (l : list Z) : list Z := rev (pop_zeros_rev (rev l)).

(** The loop that extracts the decimal digits, least significant first; returns [j]. *)
Fixpoint extract_digits (fuel : nat) (temp t_numer t_denom buf : list Z) (j : nat)
    : option (list Z * nat) :=
  if match temp with [] => false | [x] => negb (x =? 0) | _ => true end then
    match fuel with
    | O => None
    | S fuel' =>
        '(d, t_numer, t_denom) ← div_normalize temp (length temp) [10] 1 t_numer t_denom;
        t0 ← rd t_denom 0;
        '(t_numer, temp) ← div_1 t_numer t0 temp;
        rem ← div_unnormalize t_numer t_denom d [0];
        r ← rd rem 0;
        buf ← wr buf j (48 + r);
        extract_digits fuel' (pop_zeros temp) t_numer t_denom buf (j + 1)
    end
  else Some (buf, j).

(** [snprintf]: at most [lbuf - 1] characters and a terminating 0. *)
Definition put_string (s : list Z) (buf : list Z) : list Z :=
  match length buf with
  | O => buf
  | S room => let s := take room s in s ++ 0 :: drop (length s + 1) buf
  end.

(** The buffer after the call; the text ends at the first 0. *)
Definition to_string (a : list Z) (lng : nat) (buf : list Z) : option (list Z) :=
  if (lng =? 1)%nat then
    x ← rd a 0; Some (put_string (dec_u32 x) buf)
  else
    temp ← for_up lng 0 (fun i temp => x ← rd a i; wr temp i x) (replicate lng 0);
    '(buf, j) ← extract_digits (10 * lng) temp (replicate (lng + 1) 0) [0] buf 0;
    buf ← wr buf j 0;
    (* [j--] wraps for [j = 0], and the swaps below then leave the buffer *)
    if (j =? 0)%nat then None else
    let j := (j - 1)%nat in
    let mid := (j / 2 + if (j mod 2 =? 0)%nat then 0 else 1)%nat in
    for_up mid 0 (fun i buf =>
      x ← rd buf i;
      y ← rd buf (j - i);
      buf ← wr buf i y;
      wr buf (j - i) x) buf.

End mpn_manager.

(** ** Lemmas *)

Module Import mpn_facts.
Import mpn_manager.

Lemma digit_at_ok a lng j :
  (lng <= length a)%nat -> digit_at a lng j = Some (limb (take lng a) j).
Proof.
  intros H. unfold digit_at. destruct (Nat.ltb_spec j lng).
  - rewrite rd_ok, limb_take by lia. done.
  - rewrite limb_ge; [done |]. rewrite length_take. lia.
Qed.

Lemma trim_SS c os : trim c (S (S os)) =
  (d ← rd c (S os); if d =? 0 then trim c (S os) else Some (S (S os))).
Proof. done. Qed.

Lemma trim_spec c os :
  (1 <= os <= length c)%nat ->
  exists os', trim c os = Some os' /\ (1 <= os' <= os)%nat /\ num os' c = num os c /\
              (os' = 1%nat \/ limb c (os' - 1) <> 0).
Proof.
  induction os as [|os IH]; intros H; [lia |].
  destruct os as [|os]; [exists 1%nat; split; [done | lia] |].
  rewrite trim_SS, rd_ok by lia. cbn [mbind option_bind].
  destruct (Z.eqb_spec (limb c (S os)) 0) as [E|E].
  - destruct IH as (os' & Ht & Hle & Hn & Hz); [lia |].
    exists os'. split; [exact Ht |]. split; [lia |]. split; [| done].
    rewrite Hn. cbn [num]. rewrite E. lia.
  - exists (S (S os)). split; [done |]. split; [lia |]. split; [done |]. right. by replace (S (S os) - 1)%nat with (S os) by lia.
Qed.

Lemma add_loop_spec A Bv (rda rdb : nat -> option Z) len c :
  words A -> words Bv -> words c -> (len <= length c)%nat ->
  (forall j, rda j = Some (limb A j)) -> (forall j, rdb j = Some (limb Bv j)) ->
  exists c' k,
    for_up len 0 (fun j '(c, k) =>
      u_j ← rda j; v_j ← rdb j;
      let r := u_j ⊕ v_j in
      let c1 := r <? u_j in
      let c_j := r ⊕ k in
      c ← wr c j c_j;
      let c2 := c_j <? r in
      Some (c, b2z (c1 || c2))) (c, 0) = Some (c', k) /\
    length c' = length c /\ words c' /\ 0 <= k <= 1 /\
    num len c' + k * Bpow len = num len A + num len Bv.
Proof.
  intros HA HB Hc Hl Ha Hb.
  edestruct (for_up_inv (fun j '(c', k) => length c' = length c /\ words c' /\ 0 <= k <= 1 /\
    num j c' + k * Bpow j = num j A + num j Bv)) as ([c' k] & -> & H); [| | eauto 10].
  - cbn [num]. repeat split; auto; lia.
  - intros j [c' k] Hj (Hl' & Hw & Hk & He). rewrite Ha, Hb.
    cbn [mbind option_bind]. rewrite wr_ok by lia. cbn [mbind option_bind].
    pose proof (carry_step (limb A j) (limb Bv j) k
                  (words_lookup _ _ HA) (words_lookup _ _ HB) Hk) as (Hs & Hk' & Hu).
    eexists (_, _). split; [done |].
    rewrite length_insert. split; [done |]. split; [auto with words |]. split; [done |].
    cbn [num]. rewrite num_insert_ge, limb_insert_eq, Bpow_S by lia. nia.
Qed.

Lemma sub_loop_spec A Bv (rda rdb : list Z -> nat -> option Z) len c :
  words A -> words Bv -> words c -> (len <= length c)%nat ->
  (forall j c', (j < len)%nat -> (forall i, (j <= i)%nat -> limb c' i = limb c i) ->
     length c' = length c -> rda c' j = Some (limb A j)) ->
  (forall j c', (j < len)%nat -> (forall i, (j <= i)%nat -> limb c' i = limb c i) ->
     length c' = length c -> rdb c' j = Some (limb Bv j)) ->
  exists c' k,
    sub_loop rda rdb len c = Some (c', k) /\
    length c' = length c /\ words c' /\ 0 <= k <= 1 /\
    num len c' - k * Bpow len = num len A - num len Bv /\
    (forall i, (len <= i)%nat -> limb c' i = limb c i).
Proof.
  intros HA HB Hc Hl Ha Hb. unfold sub_loop.
  edestruct (for_up_inv (fun j '(c', k) => length c' = length c /\ words c' /\ 0 <= k <= 1 /\
    num j c' - k * Bpow j = num j A - num j Bv /\
    (forall i, (j <= i)%nat -> limb c' i = limb c i))) as ([c' k] & -> & H); [| | eauto 10].
  - cbn [num]. repeat split; auto; lia.
  - intros j [c' k] Hj (Hl' & Hw & Hk & He & Hr). rewrite Ha, Hb by (auto; lia).
    cbn [mbind option_bind]. rewrite wr_ok by lia. cbn [mbind option_bind].
    pose proof (borrow_step (limb A j) (limb Bv j) k
                  (words_lookup _ _ HA) (words_lookup _ _ HB) Hk) as (Hs & Hk' & Hu).
    eexists (_, _). split; [done |].
    rewrite length_insert. split; [done |]. split; [auto with words |]. split; [done |]. split.
    + cbn [num]. rewrite num_insert_ge, limb_insert_eq, Bpow_S by lia. nia.
    + intros i Hi. rewrite limb_insert_ne by lia. apply Hr. lia.
Qed.

Lemma mul_row_spec a lnga v c j :
  words a -> words c -> is_u32 v -> (lnga <= length a)%nat -> (lnga + j <= length c)%nat ->
  exists c' k,
    for_up lnga 0 (fun i '(c, k) =>
        u_i ← rd a i;
        c_ij ← rd c (i + j);
        let t := u64 (u_i * v + c_ij + k) in
        c ← wr c (i + j) (u64 (t ≪ DIGIT_BITS) ≫ DIGIT_BITS);
        Some (c, u32 (t ≫ DIGIT_BITS))) (c, 0) = Some (c', k) /\
    length c' = length c /\ words c' /\ is_u32 k /\
    num (lnga + j) c' + k * Bpow (lnga + j) = num (lnga + j) c + num lnga a * v * Bpow j.
Proof.
  intros Ha Hc Hv Hla Hlc.
  edestruct (for_up_inv (fun i '(c', k) => length c' = length c /\ words c' /\ is_u32 k /\
    num (i + j) c' + k * Bpow (i + j) = num (i + j) c + num i a * v * Bpow j /\
    (forall i', (i + j <= i')%nat -> limb c' i' = limb c i')))
    as ([c' k] & -> & H); [| | exists c', k; destruct H as (? & ? & ? & ? & _); auto].
  - cbn [num Nat.add]. repeat split; auto; unfold is_u32; lia.
  - intros i [c' k] Hi (Hl' & Hw & Hk & He & Hr).
    rewrite !rd_ok by lia. cbn [mbind option_bind]. rewrite wr_ok by lia. cbn [mbind option_bind].
    pose proof (words_lookup a i Ha) as Hu. pose proof (words_lookup c' (i + j) Hw) as Hx.
    set (t := limb a i * v + limb c' (i + j) + k) in *.
    assert (Ht : 0 <= t < 18446744073709551616) by (unfold is_u32 in *; subst t; nia).
    assert (u64 t = t) as -> by (unfold u64; dlia).
    rewrite shr32_shl32, shr32 by lia.
    eexists (_, _). split; [done |]. rewrite length_insert. split; [done |].
    split; [apply words_insert; auto; unfold is_u32; dlia |].
    split; [auto with words |]. split.
    + cbn [Nat.add num]. rewrite num_insert_ge, limb_insert_eq, Bpow_S by lia.
      rewrite <- (Hr (i + j)%nat) by lia.
      assert (u32 (t / 4294967296) = t / 4294967296) as -> by (unfold u32; dlia).
      assert (Hd : t mod 4294967296 + 4294967296 * (t / 4294967296) = t) by dlia.
      rewrite Bpow_add in *. set (Q := t / 4294967296) in *.
      set (M := t mod 4294967296) in *. subst t. clearbody Q M. nia.
    + intros i' Hi'. rewrite limb_insert_ne by lia. apply Hr. lia.
Qed.

End mpn_facts.

(** ** Shifts of whole numbers *)

Module Import mpn_shift_facts.
Import mpn_manager.

(** [((double)hi << 32) | lo] *)
Lemma double_digit hi lo :
  is_u32 hi -> is_u32 lo -> Z.lor (u64 (hi ≪ DIGIT_BITS)) lo = hi * 4294967296 + lo.
Proof.
  unfold is_u32, DIGIT_BITS. intros Hh Hl.
  rewrite Z.shiftl_mul_pow2 by lia. unfold u64.
  rewrite Z.mod_small by (change (2 ^ 32) with 4294967296; lia).
  apply lor_disjoint; lia.
Qed.

(** [(x << d) | FIRST_BITS(d, y)] *)
Lemma shl_digit d x y :
  0 < d < 32 -> is_u32 x -> is_u32 y ->
  Z.lor (u32 (x ≪ d)) (FIRST_BITS d y) = (x * 2 ^ d) mod 4294967296 + y / 2 ^ (32 - d) /\
  is_u32 ((x * 2 ^ d) mod 4294967296 + y / 2 ^ (32 - d)).
Proof. apply shl_word. Qed.

(** [x >> d | (LAST_BITS(d, y) << (32 - d))] *)
Lemma shr_digit d x y :
  0 < d < 32 -> is_u32 x -> is_u32 y ->
  Z.lor (x ≫ d) (u32 (LAST_BITS d y ≪ (DIGIT_BITS - d))) =
    x / 2 ^ d + (y mod 2 ^ d) * 2 ^ (32 - d) /\
  is_u32 (x / 2 ^ d + (y mod 2 ^ d) * 2 ^ (32 - d)).
Proof.
  intros Hd Hx Hy. enough (u32 (LAST_BITS d y ≪ (DIGIT_BITS - d)) = u32 (y ≪ (32 - d))) as ->
    by (by apply shr_word).
  unfold LAST_BITS, DIGIT_BITS, u32. destruct (pow2_split d) as (E & P1 & P2); [lia |].
  assert (Ey : (y ≪ (32 - d)) mod 4294967296 = y mod 2 ^ d * 2 ^ (32 - d)).
  { rewrite Z.shiftl_mul_pow2 by lia. rewrite <- E. apply Z.mul_mod_distr_r; lia. }
  rewrite Ey, Z.shiftr_div_pow2, Z.div_mul, Z.shiftl_mul_pow2 by lia.
  rewrite <- Ey. apply Z.mod_mod. lia.
Qed.

Lemma mask_first y : is_u32 y -> (Z.land y MASK_FIRST =? 0) = (y <? 2147483648).
Proof.
  unfold is_u32, MASK_FIRST. intros Hy.
  assert (E : Z.land y 2147483648 = if Z.testbit y 31 then 2147483648 else 0).
  { change 2147483648 with (2 ^ 31). apply Z.bits_inj'. intros i Hi.
    rewrite Z.land_spec, Z.pow2_bits_eqb by lia.
    destruct (Z.testbit y 31) eqn:T; rewrite ?Z.bits_0, ?(Z.pow2_bits_eqb 31 i) by lia;
      destruct (Z.eqb_spec 31 i) as [<-|]; by rewrite ?T, ?andb_false_r. }
  rewrite E. assert (T : Z.testbit y 31 = ((y / 2 ^ 31) mod 2 =? 1))
    by (rewrite Z.testbit_eqb by lia; done).
  rewrite T. change (2 ^ 31) with 2147483648.
  destruct (Z.ltb_spec y 2147483648).
  - rewrite Z.div_small by lia. done.
  - assert (y / 2147483648 = 1) as -> by dlia. done.
Qed.

Lemma normalize_shift_spec fuel x d :
  0 <= d -> d + Z.of_nat fuel = 32 -> 0 < x -> x * 2 ^ d < 4294967296 ->
  exists d', normalize_shift fuel x d = Some d' /\ 0 <= d' < 32 /\
    2147483648 <= x * 2 ^ d' < 4294967296.
Proof.
  revert d. induction fuel as [|fuel IH]; intros d Hd Hf Hx Hb; cbn [normalize_shift].
  - replace d with 32 in Hb by lia. change (2 ^ 32) with 4294967296 in Hb. lia.
  - assert (0 < 2 ^ d) by (apply Z.pow_pos_nonneg; lia).
    rewrite Z.shiftl_mul_pow2, u32_small, mask_first by (unfold is_u32; nia).
    destruct (Z.ltb_spec (x * 2 ^ d) 2147483648).
    + apply IH; try lia. rewrite Z.pow_add_r by lia. change (2 ^ 1) with 2. lia.
    + exists d. repeat split; lia.
Qed.

End mpn_shift_facts.

(** ** Normalization *)

Module Import mpn_norm_facts.
Import mpn_manager.

Lemma length_resize n l : length (resize n l) = n.
Proof. unfold resize. rewrite length_app, length_take, length_replicate. lia. Qed.

Lemma words_resize n l : words l -> words (resize n l).
Proof.
  intros H. apply Forall_app. split; [by apply Forall_take | apply words_replicate, is_u32_0].
Qed.

Lemma shl_fill_spec d a r n :
  0 < d < 32 -> words a -> words r -> (1 <= n <= length a)%nat -> (n <= length r)%nat ->
  exists r1 r2,
    for_dn (n - 1) (fun i' r =>
        x ← rd a (i' + 1); y ← rd a i';
        wr r (i' + 1) (Z.lor (u32 (x ≪ d)) (FIRST_BITS d y))) r = Some r1 /\
    wr r1 0 (u32 (limb a 0 ≪ d)) = Some r2 /\
    length r2 = length r /\ words r2 /\
    (forall i, (i < n)%nat -> limb r2 i = (limb a i * 2 ^ d) mod 4294967296 +
      match i with O => 0 | S i' => limb a i' / 2 ^ (32 - d) end) /\
    (forall i, (n <= i)%nat -> limb r2 i = limb r i).
Proof.
  intros Hd Ha Hr Hn Hl.
  set (f i := (limb a (S i) * 2 ^ d) mod 4294967296 + limb a i / 2 ^ (32 - d)).
  edestruct (fill_dn f 1 (n - 1)) as (r1 & -> & Hf); [| |].
  { intros i r0 Hi. cbv beta. rewrite !rd_ok by lia. cbn [mbind option_bind].
    rewrite (proj1 (shl_digit d _ _ Hd (words_lookup _ _ Ha) (words_lookup _ _ Ha))).
    replace (i + 1)%nat with (S i) by lia. done. }
  { lia. }
  assert (Hw1 : words r1).
  { eapply filled_words; eauto. intros i _.
    apply (shl_digit d _ _ Hd (words_lookup _ _ Ha) (words_lookup _ _ Ha)). }
  destruct Hf as (Hl1 & H1 & H2).
  exists r1. rewrite wr_ok by lia.
  eexists. split; [done |]. split; [done |]. rewrite length_insert. split; [done |].
  split; [auto with words |]. split.
  - intros [|i] Hi.
    + rewrite limb_insert_eq by lia. unfold u32. rewrite Z.shiftl_mul_pow2 by lia. lia.
    + rewrite limb_insert_ne by lia. apply (H1 i). lia.
  - intros i Hi. rewrite limb_insert_ne by lia. apply H2. lia.
Qed.

Lemma div_normalize_spec numer lnum denom lden nn nd :
  words numer -> words denom -> words nn -> words nd ->
  (1 <= lnum <= length numer)%nat -> (1 <= lden <= length denom)%nat ->
  limb denom (lden - 1) <> 0 ->
  exists d u v, div_normalize numer lnum denom lden nn nd = Some (d, u, v) /\
    0 <= d < 32 /\ length u = (lnum + 1)%nat /\ length v = lden /\ words u /\ words v /\
    num (lnum + 1) u = num lnum numer * 2 ^ d /\ num lden v = num lden denom * 2 ^ d /\
    2147483648 <= limb v (lden - 1).
Proof.
  intros Hwn Hwd Hnn Hnd Hln Hld Htop. unfold div_normalize.
  destruct lden as [|top]; [lia |]. replace (S top - 1)%nat with top in * by lia.
  mstep.
  pose proof (words_lookup denom top Hwd) as Ht. unfold is_u32 in Ht.
  destruct (normalize_shift_spec 32 (limb denom top) 0) as (d & -> & Hd & Hx);
    [lia | lia | lia | change (2 ^ 0) with 1; lia |].
  cbn [mbind option_bind].
  rewrite (wr_ok (resize (lnum + 1) nn)) by (rewrite length_resize; lia). cbn [mbind option_bind].
  destruct (Z.eqb_spec d 0) as [->|Hd0].
  - edestruct (fill_up (limb numer) 0 lnum (fun i n => x ← rd numer i; wr n i x)) as (u & -> & Hu).
    { intros i r Hi. cbv beta. rewrite rd_ok by lia. done. }
    { rewrite length_insert, length_resize. lia. }
    cbn [mbind option_bind].
    edestruct (fill_up (limb denom) 0 (S top) (fun i n => x ← rd denom i; wr n i x))
      as (v & -> & Hv).
    { intros i r Hi. cbv beta. rewrite rd_ok by lia. done. }
    { rewrite length_resize. lia. }
    cbn [mbind option_bind]. exists 0, u, v. split; [done |].
    assert (words u /\ words v) as [Hwu Hwv].
    { split; eapply filled_words; eauto using words_lookup.
      - apply words_insert; auto using words_resize with words.
      - by apply words_resize. }
    destruct Hu as (Hlu & Hu1 & Hu2), Hv as (Hlv & Hv1 & _).
    rewrite length_insert, length_resize in Hlu. rewrite length_resize in Hlv.
    cbn [Nat.add] in *. change (2 ^ 0) with 1 in *. rewrite !Z.mul_1_r.
    repeat split; try done; try lia.
    + rewrite Nat.add_1_r. cbn [num]. rewrite Hu2, limb_insert_eq by (rewrite ?length_resize; lia).
      rewrite (num_ext lnum u numer) by auto. lia.
    + apply num_ext. auto.
    + rewrite Hv1 by lia. lia.
  - rewrite (proj2 (Nat.eqb_neq lnum 0)) by lia.
    mstep. rewrite (wr_ok (resize (lnum + 1) nn)) by (rewrite length_resize; lia).
    cbn [mbind option_bind].
    assert (Hd' : 0 < d < 32) by lia. destruct (pow2_split d) as (E & P1 & P2); [lia |].
    assert (Hwt : is_u32 (FIRST_BITS d (limb numer (lnum - 1)))).
    { unfold FIRST_BITS, DIGIT_BITS. rewrite Z.shiftr_div_pow2 by lia.
      pose proof (words_lookup numer (lnum - 1) Hwn) as Hw. unfold is_u32 in *.
      split; [apply Z.div_pos; lia | apply Z.div_lt_upper_bound; nia]. }
    destruct (shl_fill_spec d numer (<[lnum:=FIRST_BITS d (limb numer (lnum - 1))]>
        (resize (lnum + 1) nn)) lnum) as (u1 & u & -> & Eu & Hlu & Hwu & Hu1 & Hu2);
      try done; try lia; [auto using words_resize with words | rewrite length_insert, length_resize; lia |].
    cbn [mbind option_bind].
    mstep. rewrite Eu.
    cbn [mbind option_bind].
    destruct (shl_fill_spec d denom (resize (S top) nd) (S top))
      as (v1 & v & Ev1 & Ev & Hlv & Hwv & Hv1 & _); try done; try lia;
      [auto using words_resize | rewrite length_resize; lia |].
    replace (S top - 1)%nat with top in Ev1 by lia. rewrite Ev1.
    cbn [mbind option_bind].
    mstep. rewrite Ev.
    cbn [mbind option_bind]. exists d, u, v. split; [done |].
    rewrite length_insert, length_resize in Hlu. rewrite length_resize in Hlv.
    repeat split; try done; try lia.
    + rewrite Nat.add_1_r. cbn [num].
      rewrite Hu2, limb_insert_eq by (rewrite ?length_resize; lia).
      rewrite <- (shl_num d numer u lnum) by (auto; lia).
      destruct lnum as [|l]; [lia |]. replace (S l - 1)%nat with l by lia.
      unfold FIRST_BITS, DIGIT_BITS. rewrite Z.shiftr_div_pow2 by lia. done.
    + pose proof (shl_num d denom v (S top) ltac:(lia) Hwd Hv1) as Hs. cbn [num] in Hs |- *.
      rewrite (Z.div_small (limb denom top)) in Hs by nia. lia.
    + rewrite Hv1 by lia. rewrite Z.mod_small by lia.
      enough (0 <= match top with O => 0 | S i' => limb denom i' / 2 ^ (32 - d) end) by lia.
      destruct top as [|i']; [lia |]. apply Z.div_pos; [| lia].
      apply (words_lookup denom i' Hwd).
Qed.

Lemma div_unnormalize_spec numer denom d rem :
  0 <= d < 32 -> words numer -> words rem ->
  (1 <= length denom <= length numer)%nat -> (length denom <= length rem)%nat ->
  exists r, div_unnormalize numer denom d rem = Some r /\
    length r = length rem /\ words r /\
    num (length denom) r = num (length denom) numer / 2 ^ d.
Proof.
  intros Hd Hwn Hwr Hn Hl. unfold div_unnormalize. set (n := length denom) in *.
  destruct (pow2_split d) as (E & P1 & P2); [lia |].
  destruct (Z.eqb_spec d 0) as [->|Hd0].
  - edestruct (fill_up (limb numer) 0 n (fun i r => x ← rd numer i; wr r i x)) as (r & -> & Hr);
      [intros; cbv beta; by rewrite rd_ok by lia | lia |].
    exists r. split; [done |]. destruct Hr as (Hlr & Hr1 & Hr2) eqn:Eq. split; [done |].
    split; [eapply filled_words; eauto using words_lookup |].
    change (2 ^ 0) with 1. rewrite Z.div_1_r. apply num_ext. auto.
  - set (f i := limb numer i / 2 ^ d + (limb numer (S i) mod 2 ^ d) * 2 ^ (32 - d)).
    assert (Hd' : 0 < d < 32) by lia.
    pose proof (fun i => shr_digit d _ _ Hd' (words_lookup numer i Hwn)
                           (words_lookup numer (S i) Hwn)) as Hf.
    edestruct (fill_up f 0 (n - 1) (fun i rem => x ← rd numer i; y ← rd numer (i + 1);
        wr rem i (Z.lor (x ≫ d) (u32 (LAST_BITS d y ≪ (DIGIT_BITS - d)))))) as (r & -> & Hr).
    { intros i r Hi. cbv beta. rewrite !rd_ok by lia. cbn [mbind option_bind].
      replace (i + 1)%nat with (S i) by lia. by rewrite (proj1 (Hf i)). }
    { lia. }
    assert (Hwr' : words r) by (eapply filled_words; eauto; intros; apply Hf).
    destruct Hr as (Hlr & Hr1 & Hr2). cbn [mbind option_bind].
    do 2 mstep.
    eexists. split; [done |]. rewrite length_insert. split; [done |].
    rewrite Z.shiftr_div_pow2 by lia.
    pose proof (words_lookup numer (n - 1) Hwn) as Hlast.
    pose proof (words_lookup numer 0 Hwn) as H0.
    split.
    { apply words_insert; [done |]. unfold is_u32 in *.
      split; [apply Z.div_pos; lia | apply Z.div_lt_upper_bound; nia]. }
    destruct n as [|n']; [lia |]. replace (S n' - 1)%nat with n' in * by lia.
    pose proof (shr_num d numer r n' ltac:(lia) (fun i Hi => Hr1 i Hi)) as Hs.
    cbn [num]. rewrite num_insert_ge, limb_insert_eq by lia.
    pose proof (Z.div_mod (limb numer n') (2 ^ d)) as Hdm.
    pose proof (Z.mod_pos_bound (limb numer 0) (2 ^ d) P1) as Hm.
    apply Z.div_unique with (limb numer 0 mod 2 ^ d); [lia |].
    set (Q := limb numer n' / 2 ^ d) in *. set (M := limb numer n' mod 2 ^ d) in *.
    rewrite Z.mul_add_distr_l, Hs, Hdm by lia. ring.
Qed.

End mpn_norm_facts.

(** ** Division by one digit, and Knuth's quotient digit *)

Module Import mpn_div_facts.
Import mpn_manager.

(** The value of the digits of [q] from position [j] on, below position [m]. *)
Definition num_from (m j : nat) (q : list Z) : Z := num m q - num j q.

Lemma num_from_write m j q x :
  (j < m <= length q)%nat ->
  num_from m j (<[j:=x]> q) = num_from m (S j) q + x * Bpow j.
Proof.
  intros H. unfold num_from. rewrite num_insert_lt, num_insert_ge by lia. cbn [num]. lia.
Qed.

Lemma div_1_spec numer denom quot L :
  words numer -> words quot -> is_u32 denom -> 0 < denom ->
  length numer = S L -> (L <= length quot)%nat -> limb numer L < denom ->
  exists u q, div_1 numer denom quot = Some (u, q) /\
    length u = S L /\ length q = length quot /\ words u /\ words q /\
    num (S L) numer = denom * num L q + limb u 0 /\ limb u 0 < denom.
Proof.
  intros Hwn Hwq Hd Hd0 Hln Hlq Htop. unfold div_1.
  rewrite (proj2 (Z.eqb_neq denom 0)) by lia. rewrite Hln.
  replace (S L - 1)%nat with L by lia.
  edestruct (for_dn_inv (fun j '(u, q) =>
    length u = S L /\ length q = length quot /\ words u /\ words q /\ limb u j < denom /\
    num (S L) numer = denom * num_from L j q + num (S j) u))
    as ([u q] & -> & Hl1 & Hl2 & Hw1 & Hw2 & Hlt & He);
    [| | exists u, q; repeat split; auto; unfold num_from in He; cbn [num] in He |- *;
         rewrite Bpow_0 in He; lia].
  - repeat split; auto. unfold num_from. rewrite Z.sub_diag. lia.
  - intros j [u q] Hj (Hl1 & Hl2 & Hw1 & Hw2 & Hlt & He).
    rewrite Nat.add_1_r in *.
    pose proof (words_lookup u (S j) Hw1) as Hh. pose proof (words_lookup u j Hw1) as Hlo.
    do 2 mstep. rewrite double_digit by done.
    set (temp := limb u (S j) * 4294967296 + limb u j).
    pose proof (Z.div_mod temp denom) as Hdm. pose proof (Z.mod_pos_bound temp denom Hd0) as Hm.
    assert (Hq : 0 <= temp / denom < 4294967296).
    { unfold is_u32 in *. split; [apply Z.div_pos; lia | apply Z.div_lt_upper_bound; lia]. }
    set (qh := temp / denom) in *. set (r := temp mod denom) in *.
    assert (Hb : 0 <= qh * denom < 18446744073709551616) by (unfold is_u32 in *; nia).
    assert (u64 (qh * denom) = qh * denom) as -> by (unfold u64; dlia).
    assert (u64 (temp - qh * denom) = r) as ->.
    { replace (temp - qh * denom) with r by lia. unfold u64, is_u32 in *. dlia. }
    assert ((temp <? r) = false) as -> by (apply Z.ltb_ge; nia).
    rewrite shr32, (Z.div_small r) by (unfold is_u32 in *; lia).
    do 3 mstep. eexists (_, _). split; [done |].
    rewrite !(u32_small) by (unfold is_u32 in *; lia).
    rewrite !length_insert. split; [done |]. split; [done |].
    split; [apply words_insert; [apply words_insert; [done |] |]; unfold is_u32 in *; lia |].
    split; [apply words_insert; [done |]; unfold is_u32 in *; lia |]. split.
    + rewrite limb_insert_ne, limb_insert_eq by lia. lia.
    + rewrite num_from_write, num_insert_ge by lia. rewrite He.
      cbn [num]. rewrite (num_insert_ge j), limb_insert_eq, Bpow_S by lia.
      replace (limb u (S j)) with (limb u (S j)) by done. subst temp. nia.
Qed.

(** [W] is the window divided, [v] the divisor, and [beta] the weight of the digits below the
    two leading ones. *)
Section Knuth.
Context (beta W w0 v v0 un un1 un2 d1 d2 : Z).
Hypothesis Hbeta : 0 < beta.
Hypothesis HW : W = ((un * 4294967296 + un1) * 4294967296 + un2) * beta + w0.
Hypothesis Hw0 : 0 <= w0 < beta.
Hypothesis Hv : v = (d1 * 4294967296 + d2) * beta + v0.
Hypothesis Hv0 : 0 <= v0 < beta.
Hypothesis Hun : is_u32 un.
Hypothesis Hun1 : is_u32 un1.
Hypothesis Hun2 : is_u32 un2.
Hypothesis Hd1 : 2147483648 <= d1 < 4294967296.
Hypothesis Hd2 : is_u32 d2.
Hypothesis HWv : W < v * 4294967296.

Let temp := un * 4294967296 + un1.
Let q := W / v.
Let U3 := temp * 4294967296 + un2.
Let V2 := d1 * 4294967296 + d2.
Let G := 4294967296 * beta.

Lemma knuth_weights :
  W = U3 * beta + w0 /\ v = V2 * beta + v0 /\ temp * G <= W < (temp + 1) * G /\
  d1 * G <= v < (d1 + 1) * G /\ un * (4294967296 * G) <= W /\
  0 < G /\ 0 < V2 /\ 0 <= U3 /\ 0 <= temp.
Proof.
  assert (Hu2 : 0 <= un2 * beta <= 4294967295 * beta) by (unfold is_u32 in *; nia).
  assert (Hu1 : 0 <= un1 * G) by (unfold is_u32, G in *; nia).
  assert (Hdd : 0 <= d2 * beta <= 4294967295 * beta) by (unfold is_u32 in *; nia).
  subst U3 V2 G temp. unfold is_u32 in *. repeat split; lia.
Qed.

Lemma knuth_v_pos : 0 < v.
Proof. destruct knuth_weights as (_ & _ & _ & Hv' & _ & HG & _). nia. Qed.

Lemma knuth_q_bounds : 0 <= q < 4294967296 /\ q * v <= W < q * v + v.
Proof.
  pose proof knuth_v_pos as P. destruct knuth_weights as (_ & _ & HWt & _ & _ & HG & _ & _ & Ht).
  assert (0 <= W) by nia.
  pose proof (Z.div_mod W v) as Hdm. pose proof (Z.mod_pos_bound W v P).
  unfold q. repeat split; try lia.
  - apply Z.div_pos; lia.
  - apply Z.div_lt_upper_bound; lia.
Qed.

Lemma knuth_un_le : un <= d1.
Proof.
  destruct knuth_weights as (_ & _ & _ & Hv' & HWu & HG & _).
  destruct (Z_lt_le_dec d1 un) as [H|]; [exfalso | done].
  assert ((d1 + 1) * (4294967296 * G) <= un * (4294967296 * G))
    by (apply Z.mul_le_mono_nonneg_r; lia).
  lia.
Qed.

Lemma knuth_q_V2 : q * V2 <= U3.
Proof.
  destruct knuth_q_bounds as [Hqb [Hle _]].
  destruct knuth_weights as (EW & Ev & _ & _ & _ & _ & HV2 & _ & _).
  destruct (Z_lt_le_dec U3 (q * V2)) as [H|]; [exfalso | done].
  assert ((U3 + 1) * beta <= q * V2 * beta) by (apply Z.mul_le_mono_nonneg_r; lia).
  pose proof (Z.mul_nonneg_nonneg q v0 ltac:(lia) ltac:(lia)).
  assert (q * v = q * V2 * beta + q * v0) by (rewrite Ev; ring). lia.
Qed.

(** A guess rejected by the second-digit test is too large. *)
Lemma knuth_reject qh rh :
  qh * d1 + rh = temp -> rh * 4294967296 + un2 < qh * d2 -> q <= qh - 1.
Proof.
  intros He Ht. pose proof knuth_q_V2 as HqV.
  destruct knuth_weights as (_ & _ & _ & _ & _ & _ & HV2 & _ & _).
  assert (H1 : U3 < qh * V2) by (subst U3 V2; lia).
  enough (q < qh) by lia. apply (Z.mul_lt_mono_pos_r V2); lia.
Qed.

Lemma knuth_accept qh rh :
  0 <= qh < 4294967296 -> qh * d1 + rh = temp -> qh * d2 <= rh * 4294967296 + un2 -> qh <= q + 1.
Proof.
  intros Hq He Ht. destruct knuth_q_bounds as [Hqb [_ Hlt]]. pose proof knuth_v_pos as P.
  destruct knuth_weights as (EW & Ev & _ & Hv' & _ & HG & HV2 & _ & _).
  assert (H1 : qh * V2 <= U3) by (subst U3 V2; lia).
  assert (H2 : qh * V2 * beta <= U3 * beta) by (apply Z.mul_le_mono_nonneg_r; lia).
  assert (H3 : qh * v0 <= 4294967296 * beta) by (apply Z.mul_le_mono_nonneg; lia).
  assert (H4 : 1 * G <= d1 * G) by (apply Z.mul_le_mono_nonneg_r; lia).
  assert (H5 : qh * v = qh * V2 * beta + qh * v0) by (rewrite Ev; ring).
  enough (qh < q + 2) by lia. apply (Z.mul_lt_mono_pos_r v); [done |]. subst G. lia.
Qed.

Lemma knuth_big qh rh :
  0 <= qh <= 4294967296 -> qh * d1 + rh = temp -> 4294967296 <= rh -> qh <= q.
Proof.
  intros Hq He Hr. pose proof knuth_v_pos as P.
  destruct knuth_weights as (_ & _ & HWt & Hv' & _ & HG & _ & _ & _).
  assert (H1 : qh * v <= qh * ((d1 + 1) * G)) by (apply Z.mul_le_mono_nonneg_l; lia).
  assert (H2 : (qh * (d1 + 1)) * G <= temp * G) by (apply Z.mul_le_mono_nonneg_r; lia).
  apply Z.div_le_lower_bound; [done |]. lia.
Qed.

Lemma knuth_initial : q <= temp / d1 <= 4294967297.
Proof.
  destruct knuth_q_bounds as [Hqb [Hle _]]. pose proof knuth_un_le.
  destruct knuth_weights as (_ & _ & HWt & Hv' & _ & HG & _ & _ & _). split.
  - apply Z.div_le_lower_bound; [lia |].
    destruct (Z_lt_le_dec temp (d1 * q)) as [Hlt|]; [exfalso | done].
    assert ((temp + 1) * G <= d1 * q * G) by (apply Z.mul_le_mono_nonneg_r; lia).
    assert (q * (d1 * G) <= q * v) by (apply Z.mul_le_mono_nonneg_l; lia). lia.
  - enough (temp / d1 < 4294967298) by lia.
    apply Z.div_lt_upper_bound; unfold is_u32 in *; subst temp; lia.
Qed.

(** The number of corrections still possible is bounded by how far [rh] is from [BASE]. *)
Lemma recheck_spec fuel qh rh :
  q <= qh <= 4294967297 -> qh * d1 + rh = temp -> 0 <= rh < 4294967296 ->
  (4294967296 - rh <= Z.of_nat fuel * 2147483648 ) -> (0 < fuel)%nat ->
  (4294967296 < qh -> rh < d1) ->
  exists qh', recheck fuel d1 d2 un2 qh rh = Some qh' /\ q <= qh' <= q + 1 /\
    0 <= qh' < 4294967296.
Proof.
  destruct knuth_q_bounds as [Hqb _].
  revert qh rh. induction fuel as [|fuel IH]; intros qh rh Hq He Hr Hf Hpos Hbig; [lia |].
  cbn [recheck]. unfold BASE.
  assert (Hs : u64 (rh ≪ DIGIT_BITS) = rh * 4294967296).
  { unfold DIGIT_BITS. rewrite Z.shiftl_mul_pow2 by lia. unfold u64.
    change (2 ^ 32) with 4294967296. dlia. }
  assert (Hs2 : u64 (rh * 4294967296 + un2) = rh * 4294967296 + un2)
    by (unfold u64, is_u32 in *; dlia).
  rewrite Hs, Hs2.
  assert (Hdec : u64 (qh - 1) = qh - 1 \/ qh = 0) by (unfold u64; dlia).
  assert (Hadd : u64 (rh + d1) = rh + d1) by (unfold u64; dlia).
  assert (Hcase : ((4294967296 <=? qh) || (rh * 4294967296 + un2 <? u64 (qh * d2)) = true /\
                   q <= qh - 1 /\ 0 < qh) \/
                  ((4294967296 <=? qh) || (rh * 4294967296 + un2 <? u64 (qh * d2)) = false /\
                   qh < 4294967296 /\ qh * d2 <= rh * 4294967296 + un2)).
  { destruct (Z.leb_spec 4294967296 qh); cbn [orb]; [left; lia |].
    assert (u64 (qh * d2) = qh * d2) as -> by (unfold u64, is_u32 in *; rewrite Z.mod_small; nia).
    destruct (Z.ltb_spec (rh * 4294967296 + un2) (qh * d2)); [left | right; lia].
    split; [done |]. split; [apply (knuth_reject qh rh); lia |].
    unfold is_u32 in *. destruct (decide (qh = 0)); [subst; lia | lia]. }
  destruct Hcase as [(-> & Hq1 & Hpos') | (-> & Hlt & Hle)].
  - destruct Hdec as [-> | ?]; [| lia]. rewrite Hadd.
    destruct (Z.ltb_spec (rh + d1) 4294967296) as [Hlt|Hge].
    + apply IH; lia.
    + exists (qh - 1). pose proof (knuth_big (qh - 1) (rh + d1) ltac:(lia) ltac:(lia) Hge).
      repeat split; lia.
  - exists qh. pose proof (knuth_accept qh rh ltac:(lia) He Hle). repeat split; lia.
Qed.

Lemma recheck_ok :
  exists qh, recheck 3 d1 d2 un2 (temp / d1) (temp mod d1) = Some qh /\
    q <= qh <= q + 1 /\ 0 <= qh < 4294967296.
Proof.
  pose proof knuth_initial as Hi.
  pose proof (Z.div_mod temp d1) as Hdm. pose proof (Z.mod_pos_bound temp d1) as Hm.
  apply recheck_spec; lia.
Qed.
End Knuth.

End mpn_div_facts.

(** ** Specifications of the operations *)

Module Import mpn_specs.
Import mpn_manager.

Lemma add_spec a lnga b lngb c :
  words a -> words b -> words c ->
  (lnga <= length a)%nat -> (lngb <= length b)%nat ->
  (lnga `max` lngb + 1 <= length c)%nat ->
  exists c' os, add a lnga b lngb c = Some (c', os) /\
    length c' = length c /\ words c' /\ (1 <= os <= lnga `max` lngb + 1)%nat /\
    num (lnga `max` lngb + 1) c' = num lnga a + num lngb b /\
    num os c' = num lnga a + num lngb b /\
    (os = 1%nat \/ limb c' (os - 1) <> 0).
Proof.
  intros Ha Hb Hc Hla Hlb Hlc. unfold add. set (len := (lnga `max` lngb)%nat) in *.
  destruct (add_loop_spec (take lnga a) (take lngb b) (digit_at a lnga) (digit_at b lngb) len c)
    as (c1 & k & E & Hl1 & Hw1 & Hk & He);
    auto using words_take, digit_at_ok; [lia |].
  cbv zeta in E. rewrite E.
  rewrite !num_take_ge in He by lia. cbn [mbind option_bind]. mstep.
  assert (Hn : num (len + 1) (<[len:=k]> c1) = num lnga a + num lngb b).
  { rewrite Nat.add_1_r. cbn [num]. rewrite num_insert_ge, limb_insert_eq by lia. lia. }
  destruct (trim_spec (<[len:=k]> c1) (len + 1)) as (os & -> & Hos & Hnos & Htop);
    [rewrite length_insert; lia |].
  eexists _, _. split; [done |]. rewrite length_insert.
  split; [done |]. split; [apply words_insert; [done | unfold is_u32; lia] |].
  split; [lia |]. split; [done |]. split; [by rewrite Hnos | done].
Qed.

Lemma sub_spec a lnga b lngb c :
  words a -> words b -> words c ->
  (lnga <= length a)%nat -> (lngb <= length b)%nat -> (lnga `max` lngb <= length c)%nat ->
  exists c' k, sub a lnga b lngb c = Some (c', k) /\
    length c' = length c /\ words c' /\ 0 <= k <= 1 /\
    num (lnga `max` lngb) c' = num lnga a - num lngb b + k * Bpow (lnga `max` lngb).
Proof.
  intros Ha Hb Hc Hla Hlb Hlc. unfold sub.
  destruct (sub_loop_spec (take lnga a) (take lngb b) (fun _ => digit_at a lnga)
    (fun _ => digit_at b lngb) (lnga `max` lngb) c) as (c1 & k & -> & Hl & Hw & Hk & He & _);
    auto using words_take, digit_at_ok.
  rewrite !num_take_ge in He by lia. exists c1, k. repeat split; auto; lia.
Qed.

(** The call whose output is its first operand gives the same result. *)
Lemma sub_inplace_spec n c b :
  words b -> words c -> (n <= length b)%nat -> length c = n ->
  exists c' k, sub_inplace c n b n = Some (c', k) /\
    length c' = n /\ words c' /\ 0 <= k <= 1 /\
    num n c' = num n c - num n b + k * Bpow n.
Proof.
  intros Hb Hc Hlb Hlc. unfold sub_inplace. rewrite Nat.max_id.
  destruct (sub_loop_spec (take n c) (take n b) (fun c => digit_at c n)
    (fun _ => digit_at b n) n c) as (c1 & k & -> & Hl & Hw & Hk & He & _);
    auto using words_take, digit_at_ok; [lia | |].
  { intros j c' Hj Hr Hl. rewrite digit_at_ok, !limb_take by lia. rewrite Hr by lia. done. }
  rewrite !num_take_ge in He by lia. exists c1, k. repeat split; auto; lia.
Qed.

Lemma mul_spec a lnga b lngb c :
  words a -> words b -> words c ->
  (lnga <= length a)%nat -> (lngb <= length b)%nat -> (lnga + lngb <= length c)%nat ->
  exists c', mul a lnga b lngb c = Some c' /\
    length c' = length c /\ words c' /\ num (lnga + lngb) c' = num lnga a * num lngb b.
Proof.
  intros Ha Hb Hc Hla Hlb Hlc. unfold mul.
  destruct (fill_up (fun _ => 0) 0 lnga (fun i c => wr c i 0) c) as (c1 & -> & Hf); [done | lia |].
  assert (Hw1 : words c1) by (eapply filled_words; eauto with words).
  destruct Hf as (Hl1 & Hf1 & _). cbn [mbind option_bind].
  edestruct (for_up_inv (fun j c' => length c' = length c /\ words c' /\
    num (lnga + j) c' = num lnga a * num j b)) as (c' & -> & H); [| | exists c'; by split].
  - rewrite Nat.add_0_r. cbn [num]. rewrite num_zero by auto. repeat split; auto; lia.
  - intros j c2 Hj (Hl2 & Hw2 & He). cbv beta. mstep.
    pose proof (words_lookup b j Hb) as Hv.
    destruct (Z.eqb_spec (limb b j) 0) as [E0|Hv0].
    + rewrite wr_ok by lia. eexists. split; [done |]. rewrite length_insert.
      split; [done |]. split; [auto with words |].
      rewrite Nat.add_succ_r. cbn [num].
      replace (lnga + j)%nat with (j + lnga)%nat in * by lia.
      rewrite num_insert_ge, limb_insert_eq by lia. rewrite He, E0. ring.
    + destruct (mul_row_spec a lnga (limb b j) c2 j) as (c3 & k & E & Hl3 & Hw3 & Hk & H3);
        auto; try lia.
      cbv zeta in E. rewrite E.
      cbn [mbind option_bind]. rewrite wr_ok by lia. eexists. split; [done |].
      rewrite length_insert. split; [lia |]. split; [auto with words |].
      rewrite Nat.add_succ_r. cbn [num].
      replace (lnga + j)%nat with (j + lnga)%nat in * by lia.
      rewrite num_insert_ge, limb_insert_eq by lia. rewrite H3, He. ring.
Qed.

Lemma compare_spec a lnga b lngb :
  words a -> words b -> (lnga <= length a)%nat -> (lngb <= length b)%nat ->
  compare a lnga b lngb = Some (Z.sgn (num lnga a - num lngb b)).
Proof.
  intros Ha Hb Hla Hlb. unfold compare. set (len := (lnga `max` lngb)%nat).
  set (A := take lnga a). set (B := take lngb b).
  assert (HA : num len A = num lnga a) by (apply num_take_ge; lia).
  assert (HB : num len B = num lngb b) by (apply num_take_ge; lia).
  rewrite <- HA, <- HB.
  edestruct (for_dn_ret_inv (fun j (_ : unit) => num len A - num len B = num j A - num j B)
    (fun r => r = Z.sgn (num len A - num len B))) as [([] & -> & H)|(r & -> & ->)];
    [| | | done].
  - done.
  - intros j [] Hj He. cbv beta. rewrite !digit_at_ok by lia. cbn [mbind option_bind].
    fold A B. cbn [num] in He.
    pose proof (num_bound j A (words_take _ _ Ha)). pose proof (num_bound j B (words_take _ _ Hb)).
    destruct (Z.ltb_spec (limb B j) (limb A j)); [right | destruct (Z.ltb_spec (limb A j) (limb B j)); [right | left]].
    + eexists. split; [done |]. symmetry. apply Z.sgn_pos. nia.
    + eexists. split; [done |]. symmetry. apply Z.sgn_neg. nia.
    + eexists. split; [done |]. replace (limb A j) with (limb B j) in He by lia. lia.
  - cbn [mbind option_bind]. cbn [num] in H. by rewrite H.
Qed.

(** *** The window of [div_n] *)

Lemma length_window numer j n : (j + n <= length numer)%nat -> length (window numer j n) = n.
Proof. intros. unfold window. rewrite length_take, length_drop. lia. Qed.

Lemma limb_window numer j n i : (i < n)%nat -> limb (window numer j n) i = limb numer (j + i).
Proof. intros. unfold window. by rewrite limb_take, limb_drop. Qed.

Lemma words_window numer j n : words numer -> words (window numer j n).
Proof. intros. unfold window. by apply Forall_take, Forall_drop. Qed.

Lemma num_window numer j n : num n (window numer j n) = num n (drop j numer).
Proof. apply num_ext. intros. by rewrite limb_window, limb_drop. Qed.

Lemma put_window_spec numer j w :
  (j + length w <= length numer)%nat -> words numer -> words w ->
  length (put_window numer j w) = length numer /\ words (put_window numer j w) /\
  (forall i, (i < j)%nat -> limb (put_window numer j w) i = limb numer i) /\
  (forall i, (i < length w)%nat -> limb (put_window numer j w) (j + i) = limb w i).
Proof.
  intros Hl Hn Hw. unfold put_window. split.
  { rewrite !length_app, length_take, length_drop. lia. }
  split.
  { apply Forall_app; split; [by apply Forall_take |]. apply Forall_app; split; [done |].
    by apply Forall_drop. }
  split; intros i Hi.
  - rewrite limb_app_l by (rewrite length_take; lia). by rewrite limb_take.
  - rewrite limb_app_r by (rewrite length_take; lia).
    rewrite length_take, Nat.min_l by lia. replace (j + i - j)%nat with i by lia.
    by rewrite limb_app_l.
Qed.

Lemma num_low_drop j n (a : list Z) : num (j + n) a = num j a + Bpow j * num n (drop j a).
Proof. apply num_split. Qed.

Lemma num_drop_S j n (a : list Z) :
  num (S n) (drop j a) = limb a j + 4294967296 * num n (drop (S j) a).
Proof.
  change (S n) with (1 + n)%nat. rewrite num_split, drop_drop. cbn [num].
  rewrite Bpow_S, Bpow_0, limb_drop, Nat.add_0_r. replace (j + 1)%nat with (S j) by lia. lia.
Qed.

End mpn_specs.

(** ** Algorithm D *)

Module Import mpn_algorithm_d.
Import mpn_manager.

Section AlgorithmD.
Context (denom : list Z) (k m : nat) (N : Z).
Let n : nat := S (S k).
Let v : Z := num n denom.
Hypothesis Hdw : words denom.
Hypothesis Hdl : length denom = n.
Hypothesis Htop : 2147483648 <= limb denom (S k).

(** Before the iteration for [j - 1]: the digits of the quotient from [j] on are final and the
    digits of [numer] from [j] on hold the remainder so far. *)
Definition div_n_inv (lq : nat) (j : nat) (st : list Z * list Z * list Z * list Z) : Prop :=
  let '(numer, quot, ms, ab) := st in
  length numer = (m + n)%nat /\ length quot = lq /\ length ms = (n + 1)%nat /\
  words numer /\ words quot /\ words ms /\ words ab /\
  num n (drop j numer) < v /\
  N = v * num_from m j quot + num (j + n) numer.

(** The correction that undoes a quotient digit one too large. *)
Lemma low_digits_unique (x w c y P : Z) :
  0 < P -> 0 <= x < P -> 0 <= w < P -> w + c * P = x + y * P -> w = x.
Proof. intros HP Hx Hw E. assert (c = y) by nia. nia. Qed.

Lemma v_eq : v = (limb denom (S k) * 4294967296 + limb denom k) * Bpow k + num k denom.
Proof. unfold v, n. cbn [num]. rewrite Bpow_S. ring. Qed.

Lemma W_eq j numer :
  num (n + 1) (drop j numer) =
    ((limb numer (j + n) * 4294967296 + limb numer (j + n - 1)) * 4294967296 +
      limb numer (j + n - 2)) * Bpow k + num k (drop j numer).
Proof.
  unfold n. replace (S (S k) + 1)%nat with (S (S (S k))) by lia. cbn [num].
  rewrite !limb_drop, !Bpow_S.
  replace (j + S (S k) - 1)%nat with (j + S k)%nat by lia.
  replace (j + S (S k) - 2)%nat with (j + k)%nat by lia. ring.
Qed.

(** What the multiply-and-subtract step leaves in the window. *)
Lemma window_remainder W qh w b :
  0 <= W -> 0 < v -> v < Bpow n -> W / v <= qh <= W / v + 1 ->
  0 <= w < Bpow (n + 1) -> 0 <= b <= 1 ->
  w = W - qh * v + b * Bpow (n + 1) ->
  (b = 0 /\ qh = W / v /\ w = W mod v) \/
  (b = 1 /\ qh = W / v + 1 /\ w + v = W mod v + Bpow (n + 1)).
Proof.
  intros HW Hv HvP Hq Hw Hb E.
  pose proof (Z.div_mod W v) as Hdm. pose proof (Z.mod_pos_bound W v Hv) as Hm.
  rewrite Nat.add_1_r, Bpow_S in *. set (Q := W / v) in *. set (R := W mod v) in *.
  assert (qh = Q \/ qh = Q + 1) as [->| ->] by lia.
  - left. assert (Q * v = v * Q) by ring. assert (b = 0 \/ b = 1) as [->| ->] by lia; lia.
  - right. assert ((Q + 1) * v = v * Q + v) by ring.
    assert (b = 0 \/ b = 1) as [->| ->] by lia; lia.
Qed.

Lemma window_bounds j numer :
  words numer -> num n (drop (S j) numer) < v ->
  0 <= num (n + 1) (drop j numer) < v * 4294967296 /\ 0 < v < Bpow n.
Proof.
  intros Hw Hlt. rewrite Nat.add_1_r, num_drop_S.
  pose proof (words_lookup numer j Hw) as Hx. unfold is_u32 in Hx.
  pose proof (num_bound n (drop (S j) numer) (Forall_drop _ _ _ Hw)).
  pose proof (num_bound n denom Hdw) as Hv. fold v in Hv. lia.
Qed.

(** The guess of an iteration. *)
Lemma qhat_spec j numer :
  words numer -> num n (drop (S j) numer) < v ->
  let W := num (n + 1) (drop j numer) in
  let temp := limb numer (j + n) * 4294967296 + limb numer (j + n - 1) in
  let d1 := limb denom (S k) in
  exists qh, recheck 3 d1 (limb denom k) (limb numer (j + n - 2)) (temp / d1) (temp mod d1)
      = Some qh /\ W / v <= qh <= W / v + 1 /\ is_u32 qh.
Proof.
  intros Hw Hlt. destruct (window_bounds j numer Hw Hlt) as [HW Hv].
  pose proof (words_lookup denom (S k) Hdw) as Hd1. pose proof (words_lookup denom k Hdw).
  apply (recheck_ok (Bpow k) _ (num k (drop j numer)) v (num k denom));
    auto using Bpow_pos, v_eq, W_eq, words_lookup, num_bound, Forall_drop; try apply HW.
  - apply num_bound. by apply Forall_drop.
  - unfold is_u32 in *. lia.
Qed.

(** An iteration that leaves the remainder in the window re-establishes the invariant. *)
Lemma div_n_inv_next lq j numer quot ms ab numer' quot' ms' ab' :
  div_n_inv lq (S j) (numer, quot, ms, ab) ->
  length numer' = length numer -> words numer' ->
  (forall i, (i < j)%nat -> limb numer' i = limb numer i) ->
  num (n + 1) (drop j numer') = num (n + 1) (drop j numer) mod v ->
  length quot' = lq -> words quot' ->
  num_from m j quot' = num_from m (S j) quot + (num (n + 1) (drop j numer) / v) * Bpow j ->
  length ms' = (n + 1)%nat -> words ms' -> words ab' ->
  div_n_inv lq j (numer', quot', ms', ab').
Proof.
  intros (Hln & Hlq & Hlm & Hwn & Hwq & Hwm & Hwa & Hlt & HN) H1 H2 H3 H4 H5 H6 H7 H8 H9 H10.
  destruct (window_bounds j numer Hwn Hlt) as [HW Hv].
  set (W := num (n + 1) (drop j numer)) in *.
  pose proof (Z.mod_pos_bound W v) as Hm. pose proof (Z.div_mod W v) as Hdm.
  assert (Hn : num n (drop j numer') = W mod v).
  { rewrite Nat.add_1_r in H4. cbn [num] in H4.
    pose proof (num_bound n (drop j numer') (Forall_drop _ _ _ H2)).
    apply (low_digits_unique _ _ (limb (drop j numer') n) 0 (Bpow n)); lia. }
  repeat split; auto; [lia | lia |].
  rewrite num_low_drop, Hn, H7, (num_ext j numer' numer) by auto.
  rewrite HN. replace (S j + n)%nat with (j + (n + 1))%nat by lia.
  rewrite num_low_drop. fold W. rewrite Hdm at 1 by lia. ring.
Qed.

Lemma put_window_num j numer w :
  (j + length w <= length numer)%nat -> words numer -> words w ->
  num (length w) (drop j (put_window numer j w)) = num (length w) w.
Proof.
  intros Hl Hn Hw. destruct (put_window_spec numer j w) as (_ & _ & _ & H); auto.
  apply num_ext. intros i Hi. by rewrite limb_drop, H.
Qed.

Lemma div_n_step_spec lq j st :
  (j < m <= lq)%nat -> div_n_inv lq (S j) st ->
  exists st', div_n_step denom j st = Some st' /\ div_n_inv lq j st'.
Proof.
  destruct st as [[[numer quot] ms] ab]. intros Hj Hinv.
  pose proof Hinv as (Hln & Hlq & Hlm & Hwn & Hwq & Hwm & Hwa & Hlt & HN).
  unfold div_n_step. rewrite Hdl. do 4 mstep.
  replace (n - 1)%nat with (S k) by (unfold n; lia). replace (n - 2)%nat with k by (unfold n; lia).
  rewrite (proj2 (Z.eqb_neq (limb denom (S k)) 0)) by lia. mstep.
  rewrite double_digit by auto with words.
  destruct (window_bounds j numer Hwn Hlt) as [HW Hv].
  destruct (qhat_spec j numer Hwn Hlt) as (qh & Eq & Hq & Hqb). cbv zeta in Eq. rewrite Eq.
  set (W := num (n + 1) (drop j numer)) in *.
  cbn [mbind option_bind]. rewrite (u32_small qh) by done.
  destruct (mul_spec [qh] 1 denom n ms) as (ms' & -> & Hlm' & Hwm' & Hm);
    auto; try (simpl; lia); [by apply Forall_singleton |].
  cbn [mbind option_bind].
  destruct (sub_inplace_spec (n + 1) (window numer j (n + 1)) ms')
    as (w & b & -> & Hlw & Hww & Hb & Hs);
    auto using words_window; [lia | apply length_window; lia |].
  cbn [mbind option_bind]. rewrite num_window in Hs. fold W in Hs.
  replace (1 + n)%nat with (n + 1)%nat in Hm by lia. rewrite Hm in Hs. cbn [num] in Hs.
  change (limb [qh] 0) with qh in Hs. rewrite Bpow_0, Z.mul_1_r, Z.add_0_l in Hs. fold v in Hs.
  pose proof (put_window_num j numer w ltac:(lia) Hwn Hww) as Hpn. rewrite Hlw in Hpn.
  destruct (put_window_spec numer j w) as (Hlp & Hwp & Hp1 & Hp2); auto; [lia |].
  mstep.
  destruct (window_remainder W qh (num (n + 1) w) b) as [(-> & Eqh & Ew)|(-> & Eqh & Ew)];
    auto using num_bound; try lia.
  - rewrite Z.eqb_refl. eexists. split; [done |].
    eapply div_n_inv_next; eauto; fold W; try lia; rewrite ?length_insert; auto with words.
    rewrite num_from_write, Eqh by lia. done.
  - change (1 =? 0) with false. cbv iota. mstep.
    destruct (add_spec denom n (window (put_window numer j w) j (n + 1)) (n + 1)
      (resize (n + 2) ab)) as (ab' & os & Ea & Hla & Hwab & _ & Hna & _);
      auto using words_window, words_resize;
      rewrite ?length_resize, ?length_window by lia; try lia.
    rewrite Ea. cbn [mbind option_bind].
    rewrite num_window, Hpn in Hna. rewrite length_resize in Hla.
    replace (n `max` (n + 1) + 1)%nat with (S (n + 1)) in Hna by lia.
    cbn [num] in Hna. fold v in Hna.
    destruct (fill_up (limb ab') j (n + 1) (fun i numer => y ← rd ab' i; wr numer (j + i) y)
      (put_window numer j w)) as (numer' & -> & Hf).
    { intros i r Hi. cbv beta. by rewrite rd_ok by lia. }
    { lia. }
    assert (Hwn' : words numer') by (eapply filled_words; eauto using words_lookup).
    destruct Hf as (Hf1 & Hf2 & Hf3). cbn [mbind option_bind]. eexists. split; [done |].
    assert (Hnn : num (n + 1) (drop j numer') = num (n + 1) ab')
      by (apply num_ext; intros; rewrite limb_drop; auto).
    eapply div_n_inv_next; eauto; fold W; rewrite ?length_insert; auto with words.
    + lia.
    + intros i Hi. rewrite Hf3 by lia. auto.
    + rewrite Hnn. apply (low_digits_unique _ _ (limb ab' (n + 1)) 1 (Bpow (n + 1)));
        auto using num_bound, Bpow_pos; [| lia].
      pose proof (Z.mod_pos_bound W v). rewrite Nat.add_1_r, Bpow_S. lia.
    + rewrite list_insert_insert_eq.
      rewrite num_from_write, Eqh by lia. rewrite u32_small; [f_equal; lia |].
      unfold is_u32 in *. pose proof (Z.div_pos W v). lia.
    + lia.
Qed.

Lemma div_n_spec numer quot :
  length numer = (m + n)%nat -> (m <= length quot)%nat -> words numer -> words quot ->
  N = num (m + n) numer -> num n (drop m numer) < v ->
  exists u q, div_n numer denom quot [] [] = Some (u, q) /\
    length u = (m + n)%nat /\ length q = length quot /\ words u /\ words q /\
    N = v * num m q + num n u /\ num n u < v.
Proof.
  intros Hl Hlq Hwn Hwq HN Hlt. unfold div_n. rewrite Hl, Hdl.
  replace (m + n - n)%nat with m by lia.
  edestruct (for_dn_inv (div_n_inv (length quot)) m (div_n_step denom))
    as ([[[u q] ms] ab] & -> & H1 & H2 & _ & H4 & H5 & _ & _ & H8 & H9).
  - repeat split; eauto using length_resize, words_resize, Forall_nil.
    + by apply words_resize, Forall_nil.
    + by apply Forall_nil.
    + unfold num_from. rewrite Z.sub_diag. lia.
  - intros j st Hj Hinv. by apply div_n_step_spec.
  - exists u, q. rewrite drop_0 in H8. unfold num_from in H9. cbn [num Nat.add] in H9.
    rewrite Z.sub_0_r in H9. by repeat split.
Qed.
End AlgorithmD.

End mpn_algorithm_d.

(** ** Division *)

Module Import mpn_div_specs.
Import mpn_manager.

Lemma all_zero_spec denom lden :
  (lden <= length denom)%nat -> (1 <= lden)%nat -> limb denom (lden - 1) <> 0 ->
  all_zero denom lden = Some false.
Proof.
  intros Hl H1 Ht. unfold all_zero.
  edestruct (for_up_ret_inv (fun i (_ : unit) => forall i', (i' < i)%nat -> limb denom i' = 0)
    (fun r => r = false)) as [(s & -> & H)|(r & -> & ->)]; [| | | done].
  - intros; lia.
  - intros i [] Hi H. cbv beta. mstep. unfold zero.
    destruct (Z.eqb_spec (limb denom i) 0); [left | right]; eexists; (split; [done |]); [| done].
    intros i' Hi'. destruct (decide (i' = i)) as [->|]; [done | apply H; lia].
  - destruct Ht. apply H. lia.
Qed.

Lemma copy_rem_spec numer lnum lden rem :
  (lnum <= length numer)%nat -> (lden <= length rem)%nat -> words numer -> words rem ->
  exists r, for_up lden 0 (fun i rem =>
      x ← (if (i <? lnum)%nat then rd numer i else Some 0); wr rem i x) rem = Some r /\
    length r = length rem /\ words r /\ num lden r = num lden (take lnum numer).
Proof.
  intros Hn Hr Hwn Hwr.
  destruct (fill_up (limb (take lnum numer)) 0 lden (fun i rem =>
      x ← (if (i <? lnum)%nat then rd numer i else Some 0); wr rem i x) rem) as (r & -> & Hf).
  { intros i r Hi. cbv beta. change (if (i <? lnum)%nat then rd numer i else Some 0)
      with (digit_at numer lnum i). rewrite digit_at_ok by lia. done. }
  { lia. }
  assert (Hw : words r) by (eapply filled_words; eauto using words_lookup, words_take).
  destruct Hf as (H1 & H2 & _). exists r. repeat split; auto. apply num_ext. auto.
Qed.

(** The precondition the callers in [mpz.cpp] establish. *)
Record div_pre (numer : list Z) (lnum : nat) (denom : list Z) (lden : nat) (quot rem : list Z)
    : Prop := {
  dp_numer : words numer; dp_denom : words denom; dp_quot : words quot; dp_rem : words rem;
  dp_lnum : (lden <= lnum <= length numer)%nat;
  dp_lden : (1 <= lden <= length denom)%nat;
  dp_top : limb denom (lden - 1) <> 0;
  dp_lquot : (lnum - lden + 1 <= length quot)%nat;
  dp_lrem : (lden <= length rem)%nat }.

Definition div_post numer lnum denom lden (quot rem q r : list Z) : Prop :=
  length q = length quot /\ length r = length rem /\ words q /\ words r /\
  num lnum numer = num lden denom * num (lnum - lden + 1) q + num lden r /\
  num lden r < num lden denom.

Lemma num_pos_top denom lden :
  words denom -> (1 <= lden)%nat -> limb denom (lden - 1) <> 0 ->
  limb denom (lden - 1) * Bpow (lden - 1) <= num lden denom /\ 1 <= limb denom (lden - 1).
Proof.
  intros Hw H1 Ht. destruct lden as [|l]; [lia |]. replace (S l - 1)%nat with l in * by lia.
  cbn [num]. pose proof (num_bound l denom Hw). pose proof (words_lookup denom l Hw) as Hx.
  unfold is_u32 in Hx. lia.
Qed.

(** The branches that need no normalization. *)
Lemma div_small numer lnum denom lden quot rem :
  div_pre numer lnum denom lden quot rem ->
  (lnum = 1%nat /\ lden = 1%nat) \/
  (lnum = lden /\ limb numer (lnum - 1) < limb denom (lden - 1)) ->
  exists b q r, div numer lnum denom lden quot rem = Some (b, q, r) /\
    div_post numer lnum denom lden quot rem q r.
Proof.
  intros [Hwn Hwd Hwq Hwr Hln Hld Ht Hlq Hlr] Hcase. unfold div.
  rewrite (proj2 (Nat.ltb_ge lnum lden)), all_zero_spec by lia. cbn [mbind option_bind].
  pose proof (words_lookup numer 0 Hwn) as Hn0. pose proof (words_lookup denom 0 Hwd) as Hd0.
  destruct (decide (lnum = 1%nat /\ lden = 1%nat)) as [[-> ->]|Hne].
  - cbn [Nat.eqb andb]. change (1 - 1)%nat with 0%nat in *. change (1 - 1 + 1)%nat with 1%nat in *.
    do 2 mstep. rewrite (proj2 (Z.eqb_neq _ 0)) by lia. do 2 mstep.
    pose proof (Z.div_mod (limb numer 0) (limb denom 0)) as Hdm.
    pose proof (Z.mod_pos_bound (limb numer 0) (limb denom 0)) as Hm. unfold is_u32 in *.
    eexists _, _, _. split; [done |]. unfold div_post. rewrite !length_insert.
    assert (Hq : 0 <= limb numer 0 / limb denom 0 < 4294967296).
    { split; [apply Z.div_pos; lia | apply Z.div_lt_upper_bound; nia]. }
    repeat split; try (apply words_insert; [done | unfold is_u32; lia]).
    + change (1 - 1 + 1)%nat with 1%nat. cbn [num].
      rewrite !limb_insert_eq, Bpow_0 by lia. lia.
    + cbn [num]. rewrite limb_insert_eq, Bpow_0 by lia. lia.
  - destruct Hcase as [?|[-> Hlt]]; [done |].
    assert (((lden =? 1) && (lden =? 1))%nat = false) as ->
      by (destruct (Nat.eqb_spec lden 1); [lia | done]).
    do 2 mstep. rewrite Nat.eqb_refl, (proj2 (Z.ltb_lt _ _) Hlt), orb_true_r. mstep.
    destruct (copy_rem_spec numer lden lden rem) as (r & -> & Hr1 & Hr2 & Hr3); auto; [lia |].
    cbn [mbind option_bind]. rewrite num_take_ge in Hr3 by lia.
    eexists _, _, _. split; [done |]. unfold div_post. rewrite !length_insert, Hr3.
    replace (lden - lden + 1)%nat with 1%nat by lia. cbn [num].
    rewrite limb_insert_eq, Bpow_0 by lia.
    repeat split; auto using words_insert with words; [lia |].
    destruct lden as [|l]; [lia |]. replace (S l - 1)%nat with l in * by lia. cbn [num].
    pose proof (num_bound l numer Hwn). pose proof (num_bound l denom Hwd). nia.
Qed.

Lemma div_exact_shift A Bv Q R d :
  0 <= d -> 0 <= R < Bv * 2 ^ d -> A * 2 ^ d = Bv * 2 ^ d * Q + R ->
  A = Bv * Q + R / 2 ^ d /\ R / 2 ^ d < Bv.
Proof.
  intros Hd HR E. assert (P : 0 < 2 ^ d) by (apply Z.pow_pos_nonneg; lia).
  assert (ER : R = (A - Bv * Q) * 2 ^ d) by lia.
  rewrite ER, Z.div_mul by lia. split; [lia |].
  apply (Z.mul_lt_mono_pos_r (2 ^ d)); lia.
Qed.

(** The top digits of a normalized numerator are below the normalized denominator. *)
Lemma top_lt_denom numer lnum lden d u v :
  words numer -> (1 <= lden <= lnum)%nat -> 0 <= d < 32 -> words u -> words v ->
  num (lnum + 1) u = num lnum numer * 2 ^ d -> 2147483648 <= limb v (lden - 1) ->
  num lden (drop (lnum - lden + 1) u) < num lden v.
Proof.
  intros Hwn Hl Hd Hwu Hwv Hu Ht.
  destruct (num_pos_top v lden Hwv) as [Hv _]; [lia | lia |].
  replace (lnum + 1)%nat with ((lnum - lden + 1) + lden)%nat in Hu by lia.
  rewrite num_split in Hu. set (m := (lnum - lden + 1)%nat) in *.
  pose proof (num_bound lnum numer Hwn) as Hb. pose proof (num_bound m u Hwu) as Hbu.
  assert (Hpd : 2 ^ d <= 2147483648).
  { change 2147483648 with (2 ^ 31). apply Z.pow_le_mono_r; lia. }
  assert (Hp0 : 0 < 2 ^ d) by (apply Z.pow_pos_nonneg; lia).
  assert (HB : Bpow lnum = Bpow m * Bpow (lden - 1)).
  { rewrite <- Bpow_add. f_equal. lia. }
  pose proof (Bpow_pos m) as Hm. pose proof (Bpow_pos (lden - 1)) as Hl1.
  assert (H1 : num lnum numer * 2 ^ d < Bpow lnum * 2 ^ d) by (apply Z.mul_lt_mono_pos_r; lia).
  assert (H2 : Bpow (lden - 1) * 2 ^ d <= Bpow (lden - 1) * limb v (lden - 1))
    by (apply Z.mul_le_mono_nonneg_l; lia).
  apply (Z.mul_lt_mono_pos_l (Bpow m)); [done |].
  apply Z.lt_le_trans with (Bpow m * (Bpow (lden - 1) * 2 ^ d)); [rewrite HB in H1; lia |].
  apply Z.mul_le_mono_nonneg_l; lia.
Qed.

Lemma div_spec numer lnum denom lden quot rem :
  div_pre numer lnum denom lden quot rem ->
  exists b q r, div numer lnum denom lden quot rem = Some (b, q, r) /\
    div_post numer lnum denom lden quot rem q r.
Proof.
  intros Hpre.
  destruct (decide ((lnum = 1%nat /\ lden = 1%nat) \/
    (lnum = lden /\ limb numer (lnum - 1) < limb denom (lden - 1)))) as [Hc|Hc];
    [by apply div_small |].
  destruct Hpre as [Hwn Hwd Hwq Hwr Hln Hld Ht Hlq Hlr]. unfold div.
  rewrite (proj2 (Nat.ltb_ge lnum lden)), all_zero_spec by lia. cbn [mbind option_bind].
  assert (((lnum =? 1) && (lden =? 1))%nat = false) as ->.
  { apply andb_false_iff. rewrite !Nat.eqb_neq. tauto || lia. }
  do 2 mstep.
  assert (false || (lnum =? lden)%nat && (limb numer (lnum - 1) <? limb denom (lden - 1)) = false) as ->.
  { apply andb_false_iff. rewrite Nat.eqb_neq, Z.ltb_ge. lia. }
  destruct (div_normalize_spec numer lnum denom lden [] []) as
    (d & u & v & -> & Hd & Hlu & Hlv & Hwu & Hwv & Hu & Hv & Htop);
    auto using Forall_nil_2; [by apply Forall_nil | by apply Forall_nil | lia |].
  cbn [mbind option_bind].
  pose proof (top_lt_denom numer lnum lden d u v Hwn ltac:(lia) Hd Hwu Hwv Hu Htop) as Htl.
  set (m := (lnum - lden + 1)%nat) in *.
  assert (Hdiv : exists u' q, (if (lden =? 1)%nat then v0 ← rd v 0; div_1 u v0 quot
                 else div_n u v quot [] []) = Some (u', q) /\
      length u' = (lnum + 1)%nat /\ length q = length quot /\ words u' /\ words q /\
      num (lnum + 1) u = num lden v * num m q + num lden u' /\ num lden u' < num lden v).
  { destruct (Nat.eqb_spec lden 1) as [->|Hne].
    - mstep. change (1 - 1)%nat with 0%nat in Htop. cbn [num] in Htl |- *.
      rewrite Bpow_0, !Z.mul_1_r, !Z.add_0_l in *. rewrite limb_drop in Htl.
      replace (m + 0)%nat with lnum in Htl by lia. pose proof (words_lookup v 0 Hwv).
      destruct (div_1_spec u (limb v 0) quot lnum) as (u' & q & -> & H1 & H2 & H3 & H4 & H5 & H6);
        auto; try lia.
      exists u', q. replace m with lnum by lia. rewrite Nat.add_1_r.
      repeat split; auto; lia.
    - destruct (div_n_spec v (lden - 2) m (num (lnum + 1) u)) with (numer := u) (quot := quot)
        as (u' & q & -> & H1 & H2 & H3 & H4 & H5 & H6);
        replace (S (S (lden - 2))) with lden in * by lia; auto; try lia.
      + by replace (S (lden - 2)) with (lden - 1)%nat by lia.
      + by replace (m + lden)%nat with (lnum + 1)%nat by lia.
      + exists u', q. repeat split; auto; lia. }
  destruct Hdiv as (u' & q & -> & H1 & H2 & H3 & H4 & H5 & H6). cbn [mbind option_bind].
  destruct (div_unnormalize_spec u' v d rem) as (r & -> & Hr1 & Hr2 & Hr3); auto; try lia.
  cbn [mbind option_bind]. eexists _, q, r. split; [done |].
  rewrite Hlv in Hr3. rewrite Hu, Hv in *.
  destruct (div_exact_shift (num lnum numer) (num lden denom) (num m q) (num lden u') d) as [E1 E2];
    [lia | pose proof (num_bound lden u' H3); lia | lia |].
  unfold div_post. rewrite Hr3. by repeat split.
Qed.

End mpn_div_specs.

(** ** Decimal output *)

Module Import mpn_string_facts.
Import mpn_manager.

(** The number a string of ASCII digits denotes, most significant digit first. *)
Definition dec_val (s : list Z) : Z := fold_left (fun acc c => 10 * acc + (c - 48)) s 0.
Definition is_digit (c : Z) : Prop := 48 <= c <= 57.
(** A numeral as one writes it: digits, and no leading 0 unless it is the only one. *)
Definition numeral (s : list Z) : Prop :=
  Forall is_digit s /\ s <> [] /\ (length s = 1%nat \/ head s <> Some 48).

Lemma dec_val_snoc s c : dec_val (s ++ [c]) = 10 * dec_val s + (c - 48).
Proof. unfold dec_val. by rewrite fold_left_app. Qed.

Lemma dec_val_cons s c : dec_val (c :: s) = (c - 48) * 10 ^ Z.of_nat (length s) + dec_val s.
Proof.
  induction s as [|x s IH] using rev_ind; [simpl; unfold dec_val; simpl; lia |].
  rewrite app_comm_cons, !dec_val_snoc, IH, length_app. simpl.
  rewrite Nat.add_1_r, Nat2Z.inj_succ, Z.pow_succ_r by lia. lia.
Qed.

Lemma dec_aux_spec fuel x acc :
  0 <= x < 10 ^ Z.of_nat fuel -> (0 < fuel)%nat ->
  exists ds, dec_aux fuel x acc = ds ++ acc /\ dec_val ds = x /\ Forall is_digit ds /\ ds <> [] /\
    (x = 0 -> length ds = 1%nat) /\ (0 < x -> head ds <> Some 48).
Proof.
  revert x acc. induction fuel as [|fuel IH]; intros x acc Hx Hf; [lia |]. cbn [dec_aux].
  assert (Hm : is_digit (48 + x mod 10)) by (unfold is_digit; dlia).
  rewrite Nat2Z.inj_succ, Z.pow_succ_r in Hx by lia.
  destruct (Z.eqb_spec (x / 10) 0) as [E|E].
  - exists [48 + x mod 10]. split; [done |]. split; [unfold dec_val; simpl; dlia |].
    split; [by apply Forall_singleton |]. split; [done |]. split; [done |].
    intros Hp [= E0]. dlia.
  - destruct (IH (x / 10) ((48 + x mod 10) :: acc)) as (ds & -> & Hv & Hd & Hne & _ & Hh);
      [dlia | destruct fuel; [simpl in Hx; dlia | lia] |].
    exists (ds ++ [48 + x mod 10]). rewrite <- app_assoc. split; [done |].
    split; [rewrite dec_val_snoc, Hv; dlia |].
    split; [apply Forall_app; split; [done | by apply Forall_singleton] |].
    split; [by destruct ds |]. split; [dlia |]. intros _.
    destruct ds as [|c ds]; [done | simpl in *; apply Hh; dlia].
Qed.

Lemma dec_aux_length fuel x acc : (length (dec_aux fuel x acc) <= fuel + length acc)%nat.
Proof.
  revert x acc. induction fuel as [|fuel IH]; intros x acc; cbn [dec_aux]; [lia |].
  case_match; [simpl; lia |]. etrans; [apply IH |]. simpl. lia.
Qed.

Lemma dec_u32_spec x : is_u32 x -> numeral (dec_u32 x) /\ dec_val (dec_u32 x) = x.
Proof.
  intros Hx. unfold is_u32 in Hx. unfold dec_u32.
  destruct (dec_aux_spec 10 x []) as (ds & -> & Hv & Hd & Hne & H0 & Hp); [simpl; lia | lia |].
  rewrite app_nil_r. split; [| done]. split; [done |]. split; [done |].
  destruct (decide (x = 0)); [left; auto | right; apply Hp; lia].
Qed.

(** One round: the quotient replaces the number and the remainder is the digit. *)
Lemma div_digit_round temp tn td :
  words temp -> words tn -> words td -> (1 <= length temp)%nat ->
  exists d u v u' q r,
    div_normalize temp (length temp) [10] 1 tn td = Some (d, u, v) /\
    rd v 0 = Some (limb v 0) /\ div_1 u (limb v 0) temp = Some (u', q) /\
    div_unnormalize u' v d [0] = Some [r] /\
    words u' /\ words v /\ words q /\ length q = length temp /\
    val temp = 10 * val q + r /\ 0 <= r < 10.
Proof.
  intros Hw Hwn Hwd Hl.
  assert (Hw10 : words [10]) by (apply Forall_singleton; unfold is_u32; lia).
  destruct (div_normalize_spec temp (length temp) [10] 1 tn td) as
    (d & u & v & E1 & Hd & Hlu & Hlv & Hwu & Hwv & Hu & Hv & Htop); auto; try (simpl; lia); try done.
  pose proof (top_lt_denom temp (length temp) 1 d u v Hw ltac:(lia) Hd Hwu Hwv Hu Htop) as Htl.
  change (1 - 1)%nat with 0%nat in Htop. cbn [num] in Htl, Hv.
  rewrite Bpow_0, !Z.mul_1_r, !Z.add_0_l, limb_drop in Htl.
  replace (length temp - 1 + 1 + 0)%nat with (length temp) in Htl by lia.
  pose proof (words_lookup v 0 Hwv).
  destruct (div_1_spec u (limb v 0) temp (length temp)) as (u' & q & E2 & H1 & H2 & H3 & H4 & H5 & H6);
    auto; try lia.
  destruct (div_unnormalize_spec u' v d [0]) as (r & E3 & Hr1 & Hr2 & Hr3); auto; try (simpl; lia).
  { apply Forall_singleton, is_u32_0. }
  destruct r as [|r [|]]; [done | | done].
  exists d, u, v, u', q, r. rewrite rd_ok by lia.
  rewrite Hlv in Hr3. cbn [num] in Hr3. rewrite Bpow_0 in *. rewrite !Z.mul_1_r, !Z.add_0_l in *.
  change (limb [r] 0) with r in Hr3. change (limb [10] 0) with 10 in Hv.
  rewrite <- Nat.add_1_r in H5. rewrite Hu, Hv in H5. rewrite Hv in H6.
  pose proof (words_lookup u' 0 H3) as Hu0. unfold is_u32 in Hu0.
  destruct (div_exact_shift (num (length temp) temp) 10 (num (length temp) q) (limb u' 0) d)
    as [E4 E5]; [lia | lia | lia |].
  unfold val. rewrite H2. assert (0 <= r) by (subst r; apply Z.div_pos; [lia |]; apply Z.pow_pos_nonneg; lia).
  repeat split; auto; lia.
Qed.

Lemma pop_zeros_spec l :
  words l -> exists n, pop_zeros l = take n l /\ val (pop_zeros l) = val l /\ words (pop_zeros l) /\
    (pop_zeros l = [] \/ 0 < val (pop_zeros l)).
Proof.
  unfold pop_zeros. induction l as [|x l IH] using rev_ind; intros Hw.
  - exists O. by repeat split; auto.
  - rewrite rev_app_distr. cbn [rev app pop_zeros_rev].
    apply Forall_app in Hw as [Hw Hx]. rewrite Forall_singleton in Hx.
    assert (Hlast : val (l ++ [x]) = val l + x * Bpow (length l)).
    { unfold val. rewrite length_app, Nat.add_1_r. cbn [num].
      rewrite limb_app_r, Nat.sub_diag by lia. change (limb [x] 0) with x. f_equal.
      apply num_ext. intros. by apply limb_app_l. }
    destruct (Z.eqb_spec x 0) as [->|Hx0].
    + destruct (IH Hw) as (n & E & Hv & Hw' & Hz).
      exists (n `min` length l)%nat. rewrite Hv in Hz |- *. rewrite Hlast.
      split; [| split; [lia | by split]].
      rewrite take_app_le by lia. rewrite E. destruct (decide (n <= length l)%nat).
      * by rewrite Nat.min_l by lia.
      * rewrite Nat.min_r by lia. rewrite !take_ge by lia. done.
    + exists (length (l ++ [x])). cbn [rev]. rewrite rev_involutive, take_ge by lia.
      split; [done |]. split; [done |].
      split; [apply Forall_app; split; [done | apply Forall_singleton; exact Hx] |].
      right. rewrite Hlast. pose proof (num_bound (length l) l Hw) as Hb. fold (val l) in Hb.
      pose proof (Bpow_pos (length l)). unfold is_u32 in Hx. nia.
Qed.

Definition continues (temp : list Z) : bool :=
  match temp with [] => false | [x] => negb (x =? 0) | _ => true end.

Lemma extract_digits_spec fuel temp tn td buf j :
  words temp -> words tn -> words td ->
  val temp < 10 ^ Z.of_nat fuel -> (continues temp = true -> (0 < fuel)%nat) ->
  (j + fuel < length buf)%nat ->
  exists ds, extract_digits fuel temp tn td buf j =
      Some (take j buf ++ ds ++ drop (j + length ds) buf, (j + length ds)%nat) /\
    dec_val (rev ds) = val temp /\ Forall is_digit ds /\ (length ds <= fuel)%nat /\
    (ds = [] <-> continues temp = false) /\ (0 < val temp -> head (rev ds) <> Some 48) /\
    (val temp = 0 -> (length ds <= 1)%nat).
Proof.
  revert temp tn td buf j.
  induction fuel as [|fuel IH]; intros temp tn td buf j Hw Hwn Hwd Hv Hc Hb;
    cbn [extract_digits]; fold (continues temp); destruct (continues temp) eqn:Ec;
    try (specialize (Hc eq_refl); lia).
  1, 3: exists []; cbn [app length]; rewrite Nat.add_0_r, take_drop;
    assert (val temp = 0) as -> by (destruct temp as [|x [|? ?]]; [done | | done]; cbn in Ec;
      destruct (Z.eqb_spec x 0); [subst; done | done]);
    repeat split; auto; simpl; lia.
  destruct (div_digit_round temp tn td) as (d & u & v & u' & q & r & -> & Hrv & Hd1 & Hun & Hwu & Hwv & Hwq & Hlq & Hval & Hr);
    auto; [destruct temp; [done | simpl; lia] |].
  cbn [mbind option_bind]. rewrite Hrv. cbn [mbind option_bind]. rewrite Hd1. cbn [mbind option_bind].
  rewrite Hun. cbn [mbind option_bind]. rewrite (rd_ok [r] 0) by (simpl; lia).
  cbn [mbind option_bind]. change (limb [r] 0) with r. rewrite wr_ok by lia. cbn [mbind option_bind].
  destruct (pop_zeros_spec q Hwq) as (n & _ & Hvq & Hwp & Hpz).
  rewrite Nat2Z.inj_succ, Z.pow_succ_r in Hv by lia.
  destruct (IH (pop_zeros q) u' v (<[j:=48 + r]> buf) (j + 1)%nat) as (ds & -> & Hds & Hdig & Hlen & Hne & Hlast & H0);
    auto; [rewrite Hvq; lia | | rewrite length_insert; lia |].
  { intros Hcont. destruct Hpz as [E|Hpos]; [by rewrite E in Hcont |].
    destruct fuel; [change (10 ^ Z.of_nat 0) with 1 in Hv; lia | lia]. }
  exists ((48 + r) :: ds). split.
  { f_equal. f_equal; [| simpl; lia].
    rewrite !Nat.add_1_r, (take_S_r _ _ (48 + r)) by (apply list_lookup_insert_eq; lia).
    rewrite take_insert_ge, drop_insert_lt by lia.
    rewrite <- app_assoc. simpl. do 3 f_equal. f_equal. lia. }
  rewrite Hvq in *. cbn [rev]. rewrite dec_val_snoc, Hds, Hval. split; [lia |].
  split; [constructor; [unfold is_digit; lia | done] |].
  split; [simpl; lia |]. split; [done |]. split.
  - intros Hpos. destruct ds as [|c ds'].
    + simpl. intros [= E]. unfold dec_val in Hds. simpl in Hds. lia.
    + assert (0 < val q) as Hq0.
      { destruct Hpz as [E|]; [| done]. rewrite E in Hne. by specialize (proj2 Hne eq_refl). }
      specialize (Hlast Hq0). cbn [rev] in *.
      destruct (rev ds' ++ [c]) as [|x l] eqn:Er; [by destruct (rev ds') | done].
  - intros Hz. pose proof (num_bound (length q) q Hwq) as Hbq. fold (val q) in Hbq.
    destruct Hpz as [E|]; [| lia]. rewrite E in Hne. rewrite (proj2 Hne eq_refl). simpl. lia.
Qed.

End mpn_string_facts.

Module Import mpn_to_string.
Import mpn_manager.

Lemma limb_rev (l : list Z) i : (i < length l)%nat -> limb (rev l) i = limb l (length l - 1 - i).
Proof.
  intros H. unfold limb. rewrite rev_alt. change (rev_append l []) with (reverse l).
  rewrite reverse_lookup by done. do 2 f_equal. lia.
Qed.

(** The swapping loop reverses the text and leaves the terminator. *)
Lemma swap_loop_spec (ds rest : list Z) :
  (1 <= length ds)%nat ->
  let j := (length ds - 1)%nat in
  let mid := (j / 2 + if (j mod 2 =? 0)%nat then 0 else 1)%nat in
  for_up mid 0 (fun i buf =>
    x ← rd buf i;
    y ← rd buf (j - i);
    buf ← wr buf i y;
    wr buf (j - i) x) (ds ++ rest) = Some (rev ds ++ rest).
Proof.
  intros Hl j mid.
  assert (Hmid : (2 * mid = j \/ 2 * mid = S j)%nat).
  { subst mid. pose proof (Nat.div_mod_eq j 2). pose proof (Nat.mod_upper_bound j 2).
    destruct (Nat.eqb_spec (j mod 2) 0); lia. }
  clearbody mid.
  edestruct (for_up_inv (fun i b => length b = length (ds ++ rest) /\
      (forall k, limb b k = if decide (k < i \/ j - i < k <= j)%nat then limb ds (j - k)
                            else limb (ds ++ rest) k))) as (b & -> & Hlb & Hb).
  - split; [done |]. intros k. case_decide; [lia | done].
  - intros i b Hi (Hlb & Hb). rewrite length_app in *. do 3 mstep. rewrite wr_ok by in_bounds.
    eexists. split; [done |]. rewrite !length_insert. split; [done |]. intros k.
    assert (Hlow : forall a, (a <= j)%nat -> limb (ds ++ rest) a = limb ds a)
      by (intros; apply limb_app_l; lia).
    rewrite !limb_insert by in_bounds. rewrite !Hb.
    repeat case_decide; subst; try lia; rewrite ?Hlow by lia; try (f_equal; lia); done.
  - f_equal. apply limb_ext; rewrite ?Hlb, !length_app, ?length_rev; [done |].
    intros k Hk. rewrite Hb. destruct (decide (k <= j)%nat).
    + rewrite (limb_app_l (rev ds)), limb_rev by (rewrite ?length_rev; lia).
      case_decide; [f_equal; lia |]. rewrite limb_app_l by lia. f_equal. lia.
    + rewrite decide_False by lia.
      rewrite !limb_app_r by (rewrite ?length_rev; lia). by rewrite length_rev.
Qed.

Lemma B_le_10_10 n : Bpow n <= 10 ^ Z.of_nat (10 * n).
Proof.
  unfold Bpow. rewrite Nat2Z.inj_mul, Z.pow_mul_r by lia.
  apply Z.pow_le_mono_l. split; [lia |]. change (10 ^ Z.of_nat 10) with 10000000000. lia.
Qed.

Lemma to_string_spec a lng buf :
  words a -> (1 <= lng <= length a)%nat -> (10 * lng + 1 <= length buf)%nat ->
  exists s, to_string a lng buf = Some (s ++ 0 :: drop (length s + 1) buf) /\
    numeral s /\ dec_val s = num lng a.
Proof.
  intros Hw Hl Hb. unfold to_string. destruct (Nat.eqb_spec lng 1) as [->|Hne].
  - mstep. destruct (dec_u32_spec (limb a 0)) as [Hs Hv]; [auto with words |].
    pose proof (dec_aux_length 10 (limb a 0) []) as Hlen.
    assert (Hlen' : (length (dec_u32 (limb a 0)) <= 10)%nat)
      by (unfold dec_u32; simpl length in *; lia).
    unfold put_string. destruct (length buf) as [|room] eqn:El; [lia |].
    rewrite take_ge by lia. eexists. split; [done |]. split; [done |].
    cbn [num]. rewrite Bpow_0. lia.
  - destruct (fill_up (limb a) 0 lng (fun i temp => x ← rd a i; wr temp i x) (replicate lng 0))
      as (temp & -> & Hf).
    { intros. cbv beta. by rewrite rd_ok by lia. }
    { rewrite length_replicate. lia. }
    assert (Hwt : words temp).
    { eapply filled_words; eauto using words_lookup. apply words_replicate, is_u32_0. }
    destruct Hf as (Hlt & Hf & _). rewrite length_replicate in Hlt.
    assert (Hvt : val temp = num lng a) by (unfold val; rewrite Hlt; apply num_ext; auto).
    pose proof (num_bound lng a Hw) as Hbound. pose proof (B_le_10_10 lng).
    cbn [mbind option_bind].
    destruct (extract_digits_spec (10 * lng) temp (replicate (lng + 1) 0) [0] buf 0)
      as (ds & -> & Hds & Hdig & Hlen & Hcont & Hh & H1); auto using words_replicate, is_u32_0; try lia.
    { apply Forall_singleton, is_u32_0. }
    cbn [mbind option_bind Nat.add] in *. rewrite take_0, app_nil_l.
    assert (Hne0 : (1 <= length ds)%nat).
    { destruct ds; [| simpl; lia]. apply proj1 in Hcont. specialize (Hcont eq_refl).
      by destruct temp as [|x [|y t]]; simpl in Hlt; [lia | lia |]. }
    rewrite wr_ok by (rewrite length_app, length_drop; lia). cbn [mbind option_bind].
    rewrite (proj2 (Nat.eqb_neq _ 0)) by lia.
    rewrite insert_app_r_alt, Nat.sub_diag by lia.
    destruct (drop (length ds) buf) as [|x rest] eqn:Ed.
    { apply (f_equal length) in Ed. rewrite length_drop in Ed. simpl in Ed. lia. }
    simpl (<[0%nat:=0]> (x :: rest)).
    pose proof (swap_loop_spec ds (0 :: rest) Hne0) as Hsw. cbv zeta in Hsw. rewrite Hsw.
    exists (rev ds). rewrite length_rev, Nat.add_1_r. split.
    + do 3 f_equal. rewrite <- Nat.add_1_r, <- drop_drop, Ed. done.
    + split; [| lia]. split; [by apply Forall_rev |]. split; [by destruct ds; [simpl in Hne0; lia |]; cbn [rev]; destruct (rev ds) |].
      rewrite length_rev. destruct (decide (num lng a = 0)); [left; lia | right; apply Hh; lia].
Qed.
End mpn_to_string.

(** ** Properties *)

Module mpn_properties.
Import mpn_manager.

Lemma fill_overrun n lo (r : list Z) x :
  (lo <= length r < lo + n)%nat -> for_up n lo (fun i r => wr r i x) r = None.
Proof.
  revert lo r. induction n as [|n IH]; intros lo r H; cbn [for_up]; [lia |].
  destruct (decide (lo = length r)) as [->|].
  - unfold wr. by rewrite Nat.ltb_irrefl.
  - rewrite wr_ok by lia. cbn [mbind option_bind]. apply IH. rewrite length_insert. lia.
Qed.

(** C1: Knuth's Algorithm D as [mpn_manager::div] runs it, normalization and correction steps
    included, terminates without leaving its buffers and returns the quotient and the remainder:
    [numer = denom * quot + rem] with [rem < denom], for every numerator at least as long as a
    denominator whose leading digit is not 0. *)
Theorem div_correct numer lnum denom lden quot rem :
  div_pre numer lnum denom lden quot rem ->
  exists b q r, div numer lnum denom lden quot rem = Some (b, q, r) /\
    length q = length quot /\ length r = length rem /\ words q /\ words r /\
    num lnum numer = num lden denom * num (lnum - lden + 1) q + num lden r /\
    0 <= num lden r < num lden denom.
Proof.
  intros Hp. destruct (div_spec _ _ _ _ _ _ Hp) as (b & q & r & E & H1 & H2 & H3 & H4 & H5 & H6).
  exists b, q, r. pose proof (num_bound lden r H4). repeat split; auto; lia.
Qed.

Lemma div_correct_witness :
  exists b q r, div [4294967295; 4294967294; 4294967295; 0; 5] 5 [4294967295; 4294967295; 2147483648] 3
      [9; 9; 9] [9; 9; 9] = Some (b, q, r) /\
    length q = 3%nat /\ length r = 3%nat /\ words q /\ words r /\
    num 5 [4294967295; 4294967294; 4294967295; 0; 5] =
      num 3 [4294967295; 4294967295; 2147483648] * num 3 q + num 3 r /\
    0 <= num 3 r < num 3 [4294967295; 4294967295; 2147483648].
Proof.
  apply div_correct. split; try (repeat constructor; unfold is_u32; lia).
  vm_compute. discriminate.
Defined.

(** C2: [mpn_manager::mul] (Algorithm M) computes the product in [lnga + lngb] digits, with no
    carry lost in the 64 bit accumulator. *)
Theorem mul_correct a lnga b lngb c :
  words a -> words b -> words c ->
  (lnga <= length a)%nat -> (lngb <= length b)%nat -> (lnga + lngb <= length c)%nat ->
  exists c', mul a lnga b lngb c = Some c' /\ length c' = length c /\ words c' /\
    num (lnga + lngb) c' = num lnga a * num lngb b.
Proof. intros. by apply mul_spec. Qed.

Lemma mul_correct_witness :
  exists c', mul [4294967295; 4294967295] 2 [4294967295; 0; 7] 3 [1; 2; 3; 4; 5] = Some c' /\
    length c' = 5%nat /\ words c' /\
    num 5 c' = num 2 [4294967295; 4294967295] * num 3 [4294967295; 0; 7].
Proof. apply mul_correct; try (repeat constructor; unfold is_u32; lia); simpl; lia. Defined.

(** C3: [mpn_manager::add] and [mpn_manager::sub]: the sum with its carry and its size without
    leading zero digits, and the difference with the borrow that leaves it. *)
Theorem add_sub_correct a lnga b lngb c :
  words a -> words b -> words c ->
  (lnga <= length a)%nat -> (lngb <= length b)%nat -> (lnga `max` lngb + 1 <= length c)%nat ->
  (exists c' os, add a lnga b lngb c = Some (c', os) /\ words c' /\
     num os c' = num lnga a + num lngb b /\ (1 <= os <= lnga `max` lngb + 1)%nat /\
     (os = 1%nat \/ limb c' (os - 1) <> 0)) /\
  (exists c' k, sub a lnga b lngb c = Some (c', k) /\ words c' /\
     num (lnga `max` lngb) c' = num lnga a - num lngb b + k * Bpow (lnga `max` lngb) /\
     k = if num lnga a <? num lngb b then 1 else 0).
Proof.
  intros Ha Hb Hc Hla Hlb Hlc. split.
  - destruct (add_spec a lnga b lngb c) as (c' & os & E & H1 & H2 & H3 & H4 & H5 & H6); auto.
    exists c', os. auto.
  - destruct (sub_spec a lnga b lngb c) as (c' & k & E & H1 & H2 & H3 & H4); auto; [lia |].
    exists c', k. repeat split; auto.
    pose proof (num_bound (lnga `max` lngb) c' H2).
    pose proof (num_bound lnga a Ha). pose proof (num_bound lngb b Hb).
    destruct (Z.ltb_spec (num lnga a) (num lngb b)); [nia |].
    assert (num lnga a < Bpow (lnga `max` lngb)).
    { rewrite <- (num_take_ge (lnga `max` lngb)) by lia. apply num_bound, words_take, Ha. }
    nia.
Qed.

Lemma add_sub_correct_witness :
  (exists c' os, add [4294967295; 4294967295] 2 [1] 1 [0; 0; 0] = Some (c', os) /\ words c' /\
     num os c' = num 2 [4294967295; 4294967295] + num 1 [1] /\ (1 <= os <= 3)%nat /\
     (os = 1%nat \/ limb c' (os - 1) <> 0)) /\
  (exists c' k, sub [4294967295; 4294967295] 2 [1] 1 [0; 0; 0] = Some (c', k) /\ words c' /\
     num 2 c' = num 2 [4294967295; 4294967295] - num 1 [1] + k * Bpow 2 /\
     k = if num 2 [4294967295; 4294967295] <? num 1 [1] then 1 else 0).
Proof.
  apply add_sub_correct; try (repeat constructor; unfold is_u32; lia); simpl; lia.
Defined.

(** C4: [mpn_manager::to_string] terminates with the canonical decimal numeral of the number:
    digits only, no leading zeros, and reading it back gives the number. *)
Theorem to_string_correct a lng buf :
  words a -> (1 <= lng <= length a)%nat -> (10 * lng + 1 <= length buf)%nat ->
  exists s, to_string a lng buf = Some (s ++ 0 :: drop (length s + 1) buf) /\
    numeral s /\ dec_val s = num lng a.
Proof. intros. by apply to_string_spec. Qed.

Lemma to_string_correct_witness :
  exists s, to_string [1; 2; 3] 3 (replicate 33 0) = Some (s ++ 0 :: drop (length s + 1) (replicate 33 0)) /\
    numeral s /\ dec_val s = num 3 [1; 2; 3].
Proof.
  apply to_string_correct; try (repeat constructor; unfold is_u32; lia); simpl; lia.
Defined.

(** Called with a numerator two or more digits shorter than the denominator, [div] counts
    its first loop as [lnum - lden + 1] in [size_t], which wraps, and writes past the end of
    every quotient buffer that fits in memory. *)
Lemma div_short_numerator numer lnum denom lden quot rem :
  (lnum + 2 <= lden)%nat -> Z.of_nat lden + Z.of_nat (length quot) < 18446744073709551616 ->
  div numer lnum denom lden quot rem = None.
Proof.
  intros Hl Hq. unfold div. rewrite (proj2 (Nat.ltb_lt lnum lden)) by lia.
  assert (E : u64 (Z.of_nat lnum - Z.of_nat lden + 1) =
    18446744073709551616 - (Z.of_nat lden - Z.of_nat lnum - 1)) by (unfold u64; dlia).
  rewrite E, fill_overrun by lia. done.
Qed.

Lemma div_short_numerator_witness :
  div [7] 1 [1; 2; 3] 3 [0] [0; 0; 0] = None.
Proof. apply div_short_numerator; simpl; lia. Defined.

End mpn_properties.
