(* ===== verification/BitUtil.v ===== *)
(** * BitUtil: bit hacking on words and arrays of words ([util/bit_util.cpp])

    Free functions on [unsigned] words and on arrays [data] of [sz] words, least significant
    word first.  A shift of an [unsigned] by 32 or more is undefined in C++ and [None] here. *)
From S2P Require Import Prelude.
From S2P Require Import Words.
From Stdlib Require Import ZArith Lia.
From stdpp Require Import base tactics option list numbers.
Open Scope Z_scope.
Open Scope word_scope.

Module bit_util.

(** ** Words *)

(** [while (v != 1) { v = v >> 1; r++; }] *)
Fixpoint slow_msb_pos_loop (fuel : nat) (v r : Z) : option Z :=
  match fuel with
  | O => None
  | S fuel' => if v =? 1 then Some r else slow_msb_pos_loop fuel' (v ≫ 1) (r + 1)
  end.
Definition slow_msb_pos (v : Z) : option Z := slow_msb_pos_loop 32 v 0.

Definition msb_pos (v : Z) : Z :=
  let r := b2z (65535 <? v) ≪ 4 in
  let v := v ≫ r in
  let shift := b2z (255 <? v) ≪ 3 in
  let v := v ≫ shift in
  let r := Z.lor r shift in
  let shift := b2z (15 <? v) ≪ 2 in
  let v := v ≫ shift in
  let r := Z.lor r shift in
  let shift := b2z (3 <? v) ≪ 1 in
  let v := v ≫ shift in
  let r := Z.lor r shift in
  Z.lor r (v ≫ 1).

(** The branch for compilers other than GCC; GCC's is [__builtin_clz]. *)
Definition nlz_core (x : Z) : Z := 31 ⊖ msb_pos x.

(** [__builtin_ctz]: the position of the lowest set bit. *)
Fixpoint builtin_ctz (fuel : nat) (x : Z) : Z :=
  match fuel with
  | O => 0
  | S fuel' => if Z.testbit x 0 then 0 else 1 + builtin_ctz fuel' (x ≫ 1)
  end.
Definition ntz_core (x : Z) : Z := builtin_ctz 32 x.

(** The other branch: [x & -x] is a power of two, whose conversion to [float] is exact with the
    exponent [log2 + 127] in bits 23 to 30 and a zero mantissa. *)
Definition float_bits_pow2 (x : Z) : Z := (Z.log2 x + 127) ≪ 23.
Definition ntz_core_float (x : Z) : Z :=
  let f := float_bits_pow2 (Z.land x (u32 (- x))) in
  (f ≫ 23) ⊖ 127.

(** ** Arrays *)

Definition nlz (sz : nat) (data : list Z) : option Z :=
  c ← for_dn_ret sz (fun i r =>
        d ← rd data i;
        Some (if d =? 0 then Next (r ⊕ 32) else Ret (r ⊕ nlz_core d))) 0;
  Some (match c with Next r => r | Ret r => r end).

Definition ntz (sz : nat) (data : list Z) : option Z :=
  c ← for_up_ret sz 0 (fun i r =>
        d ← rd data i;
        Some (if d =? 0 then Next (r ⊕ 32) else Ret (r ⊕ ntz_core d))) 0;
  Some (match c with Next r => r | Ret r => r end).

Definition copy (src_sz : nat) (src : list Z) (dst_sz : nat) (dst : list Z) : option (list Z) :=
  if (src_sz <=? dst_sz)%nat then
    dst ← for_up src_sz 0 (fun i dst => x ← rd src i; wr dst i x) dst;
    for_up (dst_sz - src_sz) src_sz (fun i dst => wr dst i 0) dst
  else
    for_up dst_sz 0 (fun i dst => x ← rd src i; wr dst i x) dst.

Definition is_zero (sz : nat) (data : list Z) : option bool :=
  c ← for_up_ret sz 0 (fun i (_ : unit) =>
        d ← rd data i; Some (if d =? 0 then Next tt else Ret false)) tt;
  Some (match c with Next _ => true | Ret r => r end).

Definition reset (sz : nat) (data : list Z) : option (list Z) :=
  for_up sz 0 (fun i data => wr data i 0) data.

(** [x << s] and [x >> s] on [unsigned]. *)
Definition shl_word (x : Z) (s : nat) : option Z :=
  if (s <? 32)%nat then Some (u32 (x ≪ Z.of_nat s)) else None.
Definition shr_word (x : Z) (s : nat) : option Z :=
  if (s <? 32)%nat then Some (x ≫ Z.of_nat s) else None.

(** The first part of [shl] when whole words move: returns [dst] with [src] moved up by
    [word_shift] words. *)
Definition shl_words (src_sz : nat) (src : list Z) (word_shift dst_sz : nat) (dst : list Z)
    : option (list Z) :=
  let j := src_sz in
  let i := (src_sz + word_shift)%nat in
  '(j, i, dst) ← (if (dst_sz <? i)%nat then
                    Some (if (i - dst_sz <=? j)%nat then (j - (i - dst_sz))%nat else O, dst_sz, dst)
                  else if (i <? dst_sz)%nat then
                    dst ← for_up (dst_sz - i) i (fun r dst => wr dst r 0) dst;
                    Some (j, i, dst)
                  else Some (j, i, dst));
  '(i, dst) ← for_dn j (fun j '(i, dst) =>
                let i := (i - 1)%nat in
                x ← rd src j;
                dst ← wr dst i x;
                Some (i, dst)) (i, dst);
  for_dn i (fun i dst => wr dst i 0) dst.

(** The pass that carries the bits of each word into the next one. *)
Definition shl_bits (word_shift bit_shift dst_sz : nat) (dst : list Z) : option (list Z) :=
  let comp_shift := (32 - bit_shift)%nat in
  '(dst, _) ← for_up (dst_sz - word_shift) word_shift (fun i '(dst, prev) =>
      d ← rd dst i;
      new_prev ← shr_word d comp_shift;
      d' ← shl_word d bit_shift;
      dst ← wr dst i (Z.lor d' prev);
      Some (dst, new_prev)) (dst, 0);
  Some dst.

Definition shl (src_sz : nat) (src : list Z) (k dst_sz : nat) (dst : list Z) : option (list Z) :=
  let word_shift := (k / 32)%nat in
  let bit_shift := (k mod 32)%nat in
  if (0 <? word_shift)%nat then
    dst ← shl_words src_sz src word_shift dst_sz dst;
    if (0 <? bit_shift)%nat then shl_bits word_shift bit_shift dst_sz dst else Some dst
  else
    let comp_shift := (32 - bit_shift)%nat in
    let src_sz := if (dst_sz <? src_sz)%nat then dst_sz else src_sz in
    '(dst, prev) ← for_up src_sz 0 (fun i '(dst, prev) =>
        s ← rd src i;
        new_prev ← shr_word s comp_shift;
        d ← shl_word s bit_shift;
        dst ← wr dst i (Z.lor d prev);
        Some (dst, new_prev)) (dst, 0);
    if (src_sz <? dst_sz)%nat then
      dst ← wr dst src_sz prev;
      for_up (dst_sz - (src_sz + 1)) (src_sz + 1) (fun i dst => wr dst i 0) dst
    else Some dst.

(** [dst[i] = src[j]; dst[i] >>= bit_shift; dst[i] |= (src[j+1] << comp_shift);] for
    [i = 0, ..., n - 1] and [j = digit_shift + i].  [rds] reads [src] and sees the current
    contents of [dst], so that a call whose source is its destination is covered. *)
Definition shr_loop (rds : list Z -> nat -> option Z) (digit_shift bit_shift comp_shift n : nat)
    (dst : list Z) : option (list Z) :=
  for_up n 0 (fun i dst =>
    s ← rds dst (digit_shift + i)%nat;
    d ← shr_word s bit_shift;
    s' ← rds dst (digit_shift + i + 1)%nat;
    h ← shl_word s' comp_shift;
    wr dst i (Z.lor d h)) dst.

(** [shr(sz, src, k, dst)] *)
Definition shr (sz : nat) (src : list Z) (k : nat) (dst : list Z) : option (list Z) :=
  let digit_shift := (k / 32)%nat in
  if (sz <=? digit_shift)%nat then reset sz dst else
  let bit_shift := (k mod 32)%nat in
  let comp_shift := (32 - bit_shift)%nat in
  let new_sz := (sz - digit_shift)%nat in
  if (new_sz <? sz)%nat then
    dst ← (if negb (bit_shift =? 0)%nat then
             dst ← shr_loop (fun _ => rd src) digit_shift bit_shift comp_shift (new_sz - 1) dst;
             s ← rd src (digit_shift + (new_sz - 1));
             d ← shr_word s bit_shift;
             wr dst (new_sz - 1) d
           else
             for_up new_sz 0 (fun i dst => s ← rd src (digit_shift + i); wr dst i s) dst);
    for_up (sz - new_sz) new_sz (fun i dst => wr dst i 0) dst
  else
    dst ← shr_loop (fun _ => rd src) 0 bit_shift comp_shift (new_sz - 1) dst;
    s ← rd src (new_sz - 1);
    d ← shr_word s bit_shift;
    wr dst (new_sz - 1) d.

(** [shr(src_sz, src, k, dst_sz, dst)] *)
Definition shr_resize_at (rds : list Z -> nat -> option Z) (src_sz k dst_sz : nat) (dst : list Z)
    : option (list Z) :=
  let digit_shift := (k / 32)%nat in
  if (src_sz <=? digit_shift)%nat then reset dst_sz dst else
  let bit_shift := (k mod 32)%nat in
  let comp_shift := (32 - bit_shift)%nat in
  let new_sz := (src_sz - digit_shift)%nat in
  let with_bits digit_shift :=
    let sz := if (dst_sz <? new_sz)%nat then dst_sz else new_sz in
    if (sz =? 0)%nat then None else    (* [sz - 1] wraps and the loop leaves [src] *)
    dst ← shr_loop rds digit_shift bit_shift comp_shift (sz - 1) dst;
    s ← rds dst (digit_shift + (sz - 1))%nat;
    d ← shr_word s bit_shift;
    if (dst_sz <? new_sz)%nat then
      s' ← rds dst (digit_shift + (sz - 1) + 1)%nat;
      h ← shl_word s' comp_shift;
      wr dst (sz - 1) (Z.lor d h)
    else wr dst (sz - 1) d in
  '(dst, new_sz) ← (if (0 <? digit_shift)%nat then
      if negb (bit_shift =? 0)%nat then
        dst ← with_bits digit_shift; Some (dst, new_sz)
      else
        let new_sz := if (dst_sz <? new_sz)%nat then dst_sz else new_sz in
        dst ← for_up new_sz 0 (fun i dst => s ← rds dst (digit_shift + i)%nat; wr dst i s) dst;
        Some (dst, new_sz)
    else dst ← with_bits O; Some (dst, new_sz));
  for_up (dst_sz - new_sz) new_sz (fun i dst => wr dst i 0) dst.

Definition shr_resize (src_sz : nat) (src : list Z) (k dst_sz : nat) (dst : list Z)
    : option (list Z) :=
  shr_resize_at (fun _ => rd src) src_sz k dst_sz dst.

(** [shr(sz, w, k, sz, w)] *)
Definition shr_inplace (sz k : nat) (w : list Z) : option (list Z) :=
  shr_resize_at rd sz k sz w.

Definition has_one_at_first_k_bits (sz : nat) (data : list Z) (k : nat) : option bool :=
  let word_sz := (k / 32)%nat in
  let word_sz := if (sz <? word_sz)%nat then sz else word_sz in
  c ← for_up_ret word_sz 0 (fun i (_ : unit) =>
        d ← rd data i; Some (if negb (d =? 0) then Ret true else Next tt)) tt;
  match c with
  | Ret r => Some r
  | Next _ =>
      if (word_sz <? sz)%nat then
        let bit_sz := (k mod 32)%nat in
        one ← shl_word 1 bit_sz;
        let mask := one ⊖ 1 in
        d ← rd data word_sz;
        Some (negb (Z.land d mask =? 0))
      else Some false
  end.

Definition inc (sz : nat) (data : list Z) : option (list Z * bool) :=
  c ← for_up_ret sz 0 (fun i data =>
        d ← rd data i;
        let d := d ⊕ 1 in
        data ← wr data i d;
        Some (if negb (d =? 0) then Ret data else Next data)) data;
  Some (match c with Ret data => (data, true) | Next data => (data, false) end).

Definition UINT_MAX : Z := 4294967295.

Definition dec (sz : nat) (data : list Z) : option (list Z * bool) :=
  c ← for_up_ret sz 0 (fun i data =>
        d ← rd data i;
        let d := d ⊖ 1 in
        data ← wr data i d;
        Some (if negb (d =? UINT_MAX) then Ret data else Next data)) data;
  Some (match c with Ret data => (data, true) | Next data => (data, false) end).

Definition lt (sz : nat) (data1 data2 : list Z) : option bool :=
  c ← for_dn_ret sz (fun i (_ : unit) =>
        x ← rd data1 i;
        y ← rd data2 i;
        Some (if x <? y then Ret true else if y <? x then Ret false else Next tt)) tt;
  Some (match c with Ret r => r | Next _ => false end).

(** Returns [c] and whether no carry leaves it; [rda] and [rdb] read the operands and see the
    current contents of [c], which may be one of them. *)
Definition add_at (rda rdb : list Z -> nat -> option Z) (sz : nat) (c : list Z)
    : option (list Z * bool) :=
  '(c, k) ← for_up sz 0 (fun j '(c, k) =>
      a_j ← rda c j;
      b_j ← rdb c j;
      let r := a_j ⊕ b_j in
      let c1 := r <? a_j in
      let c_j := r ⊕ k in
      c ← wr c j c_j;
      let c2 := c_j <? r in
      Some (c, b2z (c1 || c2))) (c, 0);
  Some (c, k =? 0).
Definition add (sz : nat) (a b c : list Z) : option (list Z * bool) :=
  add_at (fun _ => rd a) (fun _ => rd b) sz c.

End bit_util.

(** ** Words: lemmas *)

Module Import bit_util_word_facts.
Import bit_util.

Lemma log2_shift v k : 0 <= k -> 2 ^ k <= v -> Z.log2 v = k + Z.log2 (v ≫ k).
Proof.
  intros Hk Hv. assert (0 < 2 ^ k) by (apply Z.pow_pos_nonneg; lia).
  rewrite Z.log2_shiftr by lia.
  assert (k <= Z.log2 v) by (apply Z.log2_le_pow2; lia). lia.
Qed.

Lemma shift_bound v n k : 0 <= k <= n -> 0 < v < 2 ^ n -> 2 ^ k <= v -> 0 < v ≫ k < 2 ^ (n - k).
Proof.
  intros Hk Hv Hp. assert (0 < 2 ^ k) by (apply Z.pow_pos_nonneg; lia).
  rewrite Z.shiftr_div_pow2 by lia. split; [apply Z.div_str_pos; lia |].
  apply Z.div_lt_upper_bound; [lia |]. rewrite <- Z.pow_add_r by lia.
  replace (k + (n - k)) with n by lia. lia.
Qed.

(** One halving step of [msb_pos]: [shift] is [k] or 0. *)
Lemma msb_step v n k m :
  0 <= k -> n = 2 * k -> m = 2 ^ k - 1 -> 0 < v < 2 ^ n ->
  exists s, (s = k \/ s = 0) /\ (if m <? v then k else 0) = s /\
    0 < v ≫ s < 2 ^ k /\ Z.log2 v = s + Z.log2 (v ≫ s).
Proof.
  intros Hk -> -> Hv. destruct (Z.ltb_spec (2 ^ k - 1) v).
  - exists k. pose proof (shift_bound v (2 * k) k ltac:(lia) Hv ltac:(lia)) as Hb.
    replace (2 * k - k) with k in Hb by lia.
    split; [by left |]. split; [done |]. split; [done |]. apply log2_shift; lia.
  - exists 0. rewrite Z.shiftr_0_r. split; [by right |]. repeat split; lia.
Qed.

Lemma b2z_shl (b : bool) k : b2z b ≪ k = if b then 1 ≪ k else 0.
Proof. destruct b; [done |]. by rewrite Z.shiftl_0_l. Qed.

Lemma msb_pos_log2 v : 0 < v < 4294967296 -> msb_pos v = Z.log2 v.
Proof.
  intros Hv. unfold msb_pos. rewrite !b2z_shl.
  change (1 ≪ 4) with 16. change (1 ≪ 3) with 8. change (1 ≪ 2) with 4. change (1 ≪ 1) with 2.
  destruct (msb_step v 32 16 65535) as (s1 & C1 & -> & B1 & ->); try done.
  destruct (msb_step (v ≫ s1) 16 8 255) as (s2 & C2 & -> & B2 & ->); try done.
  destruct (msb_step ((v ≫ s1) ≫ s2) 8 4 15) as (s3 & C3 & -> & B3 & ->); try done.
  destruct (msb_step (((v ≫ s1) ≫ s2) ≫ s3) 4 2 3) as (s4 & C4 & -> & B4 & ->); try done.
  change (2 ^ 2) with 4 in B4. set (w := (((v ≫ s1) ≫ s2) ≫ s3) ≫ s4) in *. clearbody w.
  assert (w = 1 \/ w = 2 \/ w = 3) as Hw by lia.
  destruct C1 as [->| ->], C2 as [->| ->], C3 as [->| ->], C4 as [->| ->],
    Hw as [->|[->| ->]]; reflexivity.
Qed.

Lemma slow_msb_pos_loop_log2 fuel v r :
  0 < v < 2 ^ Z.of_nat fuel -> slow_msb_pos_loop fuel v r = Some (r + Z.log2 v).
Proof.
  revert v r. induction fuel as [|fuel IH]; intros v r Hv; [simpl in Hv; lia |].
  cbn [slow_msb_pos_loop]. rewrite Nat2Z.inj_succ, Z.pow_succ_r in Hv by lia.
  destruct (Z.eqb_spec v 1) as [->|Hne]; [simpl; f_equal; lia |].
  rewrite (log2_shift v 1) by (simpl; lia).
  assert (0 < v ≫ 1 < 2 ^ Z.of_nat fuel) by (rewrite Z.shiftr_div_pow2 by lia; change (2 ^ 1) with 2; dlia).
  rewrite IH by done. f_equal. lia.
Qed.

(** [x = 2^r * odd] *)
Definition lowest_bit (x r : Z) : Prop := 0 <= r /\ exists m, x = (2 * m + 1) * 2 ^ r.

Lemma builtin_ctz_spec fuel x :
  0 < x < 2 ^ Z.of_nat fuel -> lowest_bit x (builtin_ctz fuel x) /\ builtin_ctz fuel x < Z.of_nat fuel.
Proof.
  revert x. induction fuel as [|fuel IH]; intros x Hx; [simpl in Hx; lia |].
  cbn [builtin_ctz]. rewrite Nat2Z.inj_succ, Z.pow_succ_r in Hx by lia.
  rewrite Z.bit0_odd. destruct (Z.odd x) eqn:Ho.
  - apply Z.odd_spec in Ho as [m ->]. split; [| lia]. split; [lia |]. exists m. simpl. lia.
  - assert (Z.even x = true) as He by (rewrite <- Z.negb_odd, Ho; done).
    apply Z.even_spec in He as [y ->].
    assert (Hy : (2 * y) ≫ 1 = y).
    { rewrite Z.shiftr_div_pow2 by lia. change (2 ^ 1) with 2. dlia. }
    rewrite Hy. destruct (IH y ltac:(lia)) as [[Hr [m Hm]] Hlt].
    split; [| lia]. split; [lia |]. exists m. rewrite Z.pow_add_r by lia. rewrite Hm at 1.
    change (2 ^ 1) with 2. ring.
Qed.

Lemma land_opp_lowest x r : lowest_bit x r -> Z.land x (- x) = 2 ^ r.
Proof.
  intros [Hr [m ->]]. set (x := (2 * m + 1) * 2 ^ r).
  assert (E : - x = Z.lnot (2 * m * 2 ^ r + (2 ^ r - 1))) by (unfold Z.lnot, x; lia).
  rewrite E. assert (0 < 2 ^ r) by (apply Z.pow_pos_nonneg; lia).
  rewrite <- lor_disjoint by lia. apply Z.bits_inj'. intros i Hi.
  rewrite Z.land_spec, Z.lnot_spec, Z.lor_spec, Z.pow2_bits_eqb by lia.
  replace (2 ^ r - 1) with (Z.ones r) by (rewrite Z.ones_equiv; lia). unfold x.
  destruct (Z_lt_le_dec i r).
  - rewrite Z.mul_pow2_bits_low by lia. cbn [andb]. symmetry. apply Z.eqb_neq. lia.
  - rewrite Z.ones_spec_high, orb_false_r, !Z.mul_pow2_bits by lia.
    destruct (Z.eqb_spec r i) as [->|].
    + rewrite Z.sub_diag, Z.testbit_odd_0, Z.testbit_even_0. done.
    + replace (i - r) with (Z.succ (i - r - 1)) by lia.
      rewrite Z.testbit_odd_succ, Z.testbit_even_succ by lia. by destruct (Z.testbit m _).
Qed.

Lemma land_u32_r x y : is_u32 x -> Z.land x (u32 y) = Z.land x y.
Proof.
  intros Hx. unfold u32. change 4294967296 with (2 ^ 32). rewrite <- Z.land_ones by lia.
  rewrite (Z.land_comm y), Z.land_assoc, Z.land_ones, Z.mod_small by (unfold is_u32 in Hx; lia). done.
Qed.

Lemma ntz_core_float_eq x : 0 < x < 4294967296 -> ntz_core_float x = ntz_core x.
Proof.
  intros Hx. unfold ntz_core_float, ntz_core, float_bits_pow2.
  destruct (builtin_ctz_spec 32 x) as [Hl Hlt]; [done |]. set (r := builtin_ctz 32 x) in *.
  rewrite land_u32_r, (land_opp_lowest x r Hl) by (unfold is_u32; lia). destruct Hl as [Hr _].
  rewrite Z.log2_pow2 by done. rewrite Z.shiftr_shiftl_l, Z.sub_diag, Z.shiftl_0_r by lia.
  replace (r + 127 - 127) with r by lia. apply u32_small. unfold is_u32. lia.
Qed.

Lemma nlz_core_log2 x : 0 < x < 4294967296 -> nlz_core x = 31 - Z.log2 x.
Proof.
  intros Hx. unfold nlz_core. rewrite msb_pos_log2 by done.
  pose proof (Z.log2_nonneg x). assert (Z.log2 x < 32) by (apply Z.log2_lt_pow2; lia).
  apply u32_small. unfold is_u32. lia.
Qed.

End bit_util_word_facts.

(** ** Arrays: lemmas *)

Module Import bit_util_array_facts.
Import bit_util.

Lemma val_split n (a : list Z) : words a -> val a = num n a + Bpow n * val (drop n a).
Proof.
  intros Hw. destruct (decide (n <= length a)%nat).
  - unfold val at 1. replace (length a) with (n + (length a - n))%nat by lia.
    rewrite num_split. unfold val. by rewrite length_drop.
  - rewrite drop_ge by lia. rewrite num_ge_length by lia. change (val []) with 0. lia.
Qed.

Lemma num_mod n a : words a -> num n a = val a mod Bpow n.
Proof.
  intros Hw. rewrite (val_split n a Hw). pose proof (num_bound n a Hw).
  rewrite Z.mul_comm, Z.mod_add by (pose proof (Bpow_pos n); lia).
  symmetry. by apply Z.mod_small.
Qed.

Lemma num_div n a : words a -> val (drop n a) = val a / Bpow n.
Proof.
  intros Hw. rewrite (val_split n a Hw). pose proof (num_bound n a Hw).
  apply Z.div_unique with (num n a); [lia |]. lia.
Qed.

Lemma val_take n a : (n <= length a)%nat -> val (take n a) = num n a.
Proof.
  intros H. unfold val. rewrite length_take, Nat.min_l by lia.
  apply num_ext. intros. by apply limb_take.
Qed.

Lemma shl_word_ok x s : (s < 32)%nat -> bit_util.shl_word x s = Some (u32 (x ≪ Z.of_nat s)).
Proof. intros H. unfold bit_util.shl_word. by rewrite (proj2 (Nat.ltb_lt _ _) H). Qed.

Lemma shr_word_ok x s : (s < 32)%nat -> bit_util.shr_word x s = Some (x ≫ Z.of_nat s).
Proof. intros H. unfold bit_util.shr_word. by rewrite (proj2 (Nat.ltb_lt _ _) H). Qed.

(** *** Left shift *)

(** The bits of word [i - 1] that move into word [i]. *)
Definition carry_in (b : Z) (s : list Z) (i : nat) : Z :=
  match i with O => 0 | S i' => limb s i' / 2 ^ (32 - b) end.

(** The pass over the words, reading [s] through [rda]. *)
Lemma shl_pass_spec (rda : list Z -> nat -> option Z) s b lo n dst :
  (0 < b < 32)%nat -> words s -> words dst -> (lo + n <= length dst \/ n = 0)%nat ->
  (forall i c, (lo <= i < lo + n)%nat -> (forall r, (i <= r)%nat -> limb c r = limb dst r) ->
     length c = length dst -> rda c i = Some (limb s i)) ->
  exists dst', for_up n lo (fun i '(dst, prev) =>
      d ← rda dst i;
      new_prev ← bit_util.shr_word d (32 - b);
      d' ← bit_util.shl_word d b;
      dst ← wr dst i (Z.lor d' prev);
      Some (dst, new_prev)) (dst, carry_in (Z.of_nat b) s lo)
    = Some (dst', carry_in (Z.of_nat b) s (lo + n)) /\
    length dst' = length dst /\ words dst' /\
    (forall i, (lo <= i < lo + n)%nat ->
       limb dst' i = (limb s i * 2 ^ Z.of_nat b) mod 4294967296 + carry_in (Z.of_nat b) s i) /\
    (forall i, (i < lo \/ lo + n <= i)%nat -> limb dst' i = limb dst i).
Proof.
  intros Hb Hs Hd Hl Hr.
  edestruct (for_up_inv (fun i '(c, prev) => prev = carry_in (Z.of_nat b) s i /\
    length c = length dst /\ words c /\
    (forall r, (lo <= r < i)%nat ->
       limb c r = (limb s r * 2 ^ Z.of_nat b) mod 4294967296 + carry_in (Z.of_nat b) s r) /\
    (forall r, (r < lo \/ i <= r)%nat -> limb c r = limb dst r)))
    as ([dst' prev] & -> & -> & H); [| | by exists dst'].
  - repeat split; auto; lia.
  - intros i [c prev] Hi (-> & Hlc & Hwc & H1 & H2). rewrite Hr by (auto; lia).
    cbn [mbind option_bind]. rewrite shr_word_ok, shl_word_ok by lia. cbn [mbind option_bind].
    assert (Hlor : Z.lor (u32 (limb s i ≪ Z.of_nat b)) (carry_in (Z.of_nat b) s i) =
      (limb s i * 2 ^ Z.of_nat b) mod 4294967296 + carry_in (Z.of_nat b) s i /\
      is_u32 ((limb s i * 2 ^ Z.of_nat b) mod 4294967296 + carry_in (Z.of_nat b) s i)).
    { destruct i as [|i'].
      - cbn [carry_in]. rewrite Z.lor_0_r, Z.add_0_r. unfold u32.
        rewrite Z.shiftl_mul_pow2 by lia. split; [done | apply u32_range].
      - cbn [carry_in]. rewrite <- Z.shiftr_div_pow2 by lia.
        rewrite (Z.shiftr_div_pow2 _ (32 - Z.of_nat b)) at 2 3 by lia.
        apply Words.shl_word; auto with words; lia. }
    destruct Hlor as [-> Hu]. rewrite wr_ok by lia. eexists (_, _). split; [done |].
    split; [cbn [carry_in]; rewrite Z.shiftr_div_pow2 by lia; do 2 f_equal; lia |].
    rewrite length_insert. split; [done |]. split; [auto with words |]. split.
    + intros r Hr'. destruct (decide (r = i)) as [->|].
      * by rewrite limb_insert_eq by lia.
      * rewrite limb_insert_ne by lia. apply H1. lia.
    + intros r Hr'. rewrite limb_insert_ne by lia. apply H2. lia.
Qed.

(** Words whose bits all moved up by [b] denote the number multiplied by [2^b]. *)
Lemma shl_value b s r n :
  (0 < b < 32)%nat -> words s -> words r ->
  (forall i, (i < n)%nat ->
     limb r i = (limb s i * 2 ^ Z.of_nat b) mod 4294967296 + carry_in (Z.of_nat b) s i) ->
  num n r = (num n s * 2 ^ Z.of_nat b) mod Bpow n.
Proof.
  intros Hb Hs Hr H. pose proof (shl_num (Z.of_nat b) s r n ltac:(lia) Hs H) as E.
  rewrite <- E. rewrite Z.mod_add by (pose proof (Bpow_pos n); lia).
  symmetry. apply Z.mod_small, num_bound, Hr.
Qed.

(** Words moved up by [w] positions. *)
Lemma words_up_value w s d n :
  words s -> (forall i, (i < n)%nat -> limb d i = if decide (i < w)%nat then 0 else limb s (i - w)) ->
  num n d = (val s * Bpow w) mod Bpow n.
Proof.
  intros Hs H. destruct (decide (n <= w)%nat) as [Hnw|Hnw].
  - rewrite num_zero by (intros i Hi; rewrite H, decide_True by lia; done).
    replace w with (n + (w - n))%nat by lia. rewrite Bpow_add.
    replace (val s * (Bpow n * Bpow (w - n))) with ((val s * Bpow (w - n)) * Bpow n) by ring.
    symmetry. apply Z.mod_mul. pose proof (Bpow_pos n). lia.
  - replace n with (w + (n - w))%nat by lia. rewrite num_split.
    rewrite (num_zero w) by (intros i Hi; rewrite H, decide_True by lia; done).
    rewrite (num_ext _ (drop w d) s).
    + rewrite num_mod by done. rewrite Bpow_add, (Z.mul_comm (val s)), Z.mul_mod_distr_l;
        [lia | pose proof (Bpow_pos (n - w)); lia | pose proof (Bpow_pos w); lia].
    + intros i Hi. rewrite limb_drop, H, decide_False by lia. f_equal. lia.
Qed.

Lemma shl_words_spec src_sz src w dst_sz dst :
  words src -> words dst -> (src_sz <= length src)%nat -> length dst = dst_sz ->
  exists dst', shl_words src_sz src w dst_sz dst = Some dst' /\
    length dst' = dst_sz /\ words dst' /\
    (forall i, (i < dst_sz)%nat ->
       limb dst' i = if decide (i < w)%nat then 0 else limb (take src_sz src) (i - w)).
Proof.
  intros Hs Hd Hls Hld. unfold shl_words.
  set (i0 := (dst_sz `min` (src_sz + w))%nat).
  assert (Hbranch : exists d0, (if (dst_sz <? src_sz + w)%nat then
        Some (if (src_sz + w - dst_sz <=? src_sz)%nat then (src_sz - (src_sz + w - dst_sz))%nat
              else O, dst_sz, dst)
      else if (src_sz + w <? dst_sz)%nat then
        dst ← for_up (dst_sz - (src_sz + w)) (src_sz + w) (fun r dst => wr dst r 0) dst;
        Some (src_sz, (src_sz + w)%nat, dst)
      else Some (src_sz, (src_sz + w)%nat, dst)) = Some ((i0 - w)%nat, i0, d0) /\
      length d0 = dst_sz /\ words d0 /\ (forall r, (i0 <= r < dst_sz)%nat -> limb d0 r = 0)).
  { destruct (Nat.ltb_spec dst_sz (src_sz + w)).
    - exists dst. replace i0 with dst_sz by lia. split; [| repeat split; auto; lia].
      destruct (Nat.leb_spec (src_sz + w - dst_sz) src_sz); do 3 f_equal; lia.
    - replace i0 with (src_sz + w)%nat by lia. replace (src_sz + w - w)%nat with src_sz by lia.
      destruct (Nat.ltb_spec (src_sz + w) dst_sz); [| exists dst; repeat split; auto; lia].
      destruct (fill_from_up 0 (src_sz + w) (dst_sz - (src_sz + w)) dst) as (d0 & -> & H1 & H2 & H3);
        [lia |].
      exists d0. split; [done |]. split; [lia |]. split; [auto using is_u32_0 |].
      intros r Hr. rewrite H3, decide_True by lia. done. }
  cbv zeta in Hbranch |- *. destruct Hbranch as (d0 & -> & Hl0 & Hw0 & Hz0). cbn [mbind option_bind].
  set (j0 := (i0 - w)%nat).
  edestruct (for_dn_inv (fun j '(i, c) => i = (j + (i0 - j0))%nat /\ length c = dst_sz /\ words c /\
      (forall r, (i <= r < i0)%nat -> limb c r = limb src (r - (i0 - j0))) /\
      (forall r, (i0 <= r < dst_sz)%nat -> limb c r = 0)) j0) as ([i1 c] & -> & -> & Hlc & Hwc & H1 & H2).
  - repeat split; auto; lia.
  - intros j [i c] Hj (-> & Hlc & Hwc & H1 & H2). cbv beta zeta. do 2 mstep.
    eexists (_, _). split; [done |]. rewrite length_insert. split; [lia |]. split; [done |].
    split; [auto with words |]. split; intros r Hr.
    + destruct (decide (r = S j + (i0 - j0) - 1)%nat) as [->|].
      * rewrite limb_insert_eq by lia. f_equal. lia.
      * rewrite limb_insert_ne by lia. apply H1. lia.
    + rewrite limb_insert_ne by lia. auto.
  - cbn [mbind option_bind Nat.add] in *.
    destruct (fill_dn (fun _ => 0) 0 (i0 - j0) (fun i dst => wr dst i 0) c) as (dst' & -> & Hf);
      [done | lia |].
    assert (Hw' : words dst') by (eapply filled_words; eauto with words).
    destruct Hf as (Hl' & H3 & H4). exists dst'. split; [done |]. split; [lia |]. split; [done |].
    intros i Hi. case_decide.
    + destruct (decide (i < i0 - j0)%nat); [by apply H3 |]. rewrite H4, H2 by lia. done.
    + rewrite H4 by lia. destruct (decide (i < i0)%nat).
      * rewrite H1, limb_take by lia. f_equal. lia.
      * rewrite H2 by lia. symmetry. apply limb_ge. rewrite length_take. lia.
Qed.

Lemma pow2_words k : 2 ^ Z.of_nat k = Bpow (k / 32) * 2 ^ Z.of_nat (k mod 32).
Proof.
  rewrite Bpow_pow2, <- Z.pow_add_r by lia. f_equal.
  rewrite (Nat.div_mod_eq k 32) at 1. lia.
Qed.

Lemma mod32_lt k : (k mod 32 < 32)%nat.
Proof. by apply Nat.mod_upper_bound. Qed.

Lemma shl_far_spec src_sz src k dst_sz dst :
  words src -> words dst -> (src_sz <= length src)%nat -> length dst = dst_sz ->
  (0 < k / 32)%nat ->
  exists dst', shl src_sz src k dst_sz dst = Some dst' /\ length dst' = dst_sz /\ words dst' /\
    num dst_sz dst' = (num src_sz src * 2 ^ Z.of_nat k) mod Bpow dst_sz.
Proof.
  intros Hs Hd Hls Hld Hk. unfold shl. cbv zeta. rewrite pow2_words.
  pose proof (mod32_lt k) as Hb. set (w := (k / 32)%nat) in *. set (b := (k mod 32)%nat) in *.
  rewrite (proj2 (Nat.ltb_lt 0 w)) by lia.
  destruct (shl_words_spec src_sz src w dst_sz dst) as (d1 & -> & Hl1 & Hw1 & H1); auto.
  cbn [mbind option_bind].
  assert (E1 : num dst_sz d1 = (num src_sz src * Bpow w) mod Bpow dst_sz).
  { rewrite <- (val_take src_sz src) by done. apply words_up_value; auto using words_take. }
  destruct (Nat.ltb_spec 0 b).
  - unfold shl_bits. cbv zeta.
    assert (Hz : forall i, (i < w)%nat -> limb d1 i = 0).
    { intros i Hi. destruct (decide (i < dst_sz)%nat); [| apply limb_ge; lia].
      by rewrite H1, decide_True by lia. }
    assert (Hc : forall i, (i <= w)%nat -> carry_in (Z.of_nat b) d1 i = 0).
    { intros [|i] Hi; [done | cbn [carry_in]]. by rewrite Hz, Z.div_0_l by lia. }
    destruct (shl_pass_spec rd d1 b w (dst_sz - w) d1) as (d2 & E & Hl2 & Hw2 & Hin & Hout);
      [lia | done | done | lia | |].
    { intros i c Hi Hr Hl. rewrite rd_ok, Hr by lia. done. }
    rewrite Hc in E by lia. rewrite E. cbn [mbind option_bind].
    exists d2. split; [done |]. split; [lia |]. split; [done |].
    rewrite (shl_value b d1 d2 dst_sz); [| lia | done | done |].
    + rewrite E1, Z.mul_mod_idemp_l by (pose proof (Bpow_pos dst_sz); lia). f_equal. ring.
    + intros i Hi. destruct (decide (i < w)%nat); [| apply Hin; lia].
      rewrite Hout, Hz, Hc by lia. done.
  - exists d1. repeat split; auto. rewrite E1. replace b with O by lia.
    change (2 ^ Z.of_nat 0) with 1. f_equal. ring.
Qed.

Lemma shl_near_spec src_sz src k dst_sz dst :
  words src -> words dst -> (src_sz <= length src)%nat -> length dst = dst_sz ->
  (0 < k < 32)%nat ->
  exists dst', shl src_sz src k dst_sz dst = Some dst' /\ length dst' = dst_sz /\ words dst' /\
    num dst_sz dst' = (num src_sz src * 2 ^ Z.of_nat k) mod Bpow dst_sz.
Proof.
  intros Hs Hd Hls Hld Hk. unfold shl. cbv zeta.
  rewrite Nat.div_small, Nat.mod_small by lia. change (0 <? 0)%nat with false. cbv iota.
  set (s := take src_sz src). assert (Hws : words s) by (by apply words_take).
  set (m := if (dst_sz <? src_sz)%nat then dst_sz else src_sz).
  assert (Hm : m = (src_sz `min` dst_sz)%nat).
  { unfold m. destruct (Nat.ltb_spec dst_sz src_sz); lia. }
  destruct (shl_pass_spec (fun _ i => rd src i) s k 0 m dst) as (d1 & E & Hl1 & Hw1 & Hin & Hout);
    [lia | done | done | lia | |].
  { intros i c Hi _ _. unfold s. rewrite rd_ok, limb_take by lia. done. }
  cbn [carry_in Nat.add] in *. rewrite E. cbn [mbind option_bind].
  assert (Hfin : exists d2, (if (m <? dst_sz)%nat then
      dst ← wr d1 m (carry_in (Z.of_nat k) s m);
      for_up (dst_sz - (m + 1)) (m + 1) (fun i dst => wr dst i 0) dst else Some d1) = Some d2 /\
    length d2 = dst_sz /\ words d2 /\ (forall i, (i < dst_sz)%nat ->
      limb d2 i = (limb s i * 2 ^ Z.of_nat k) mod 4294967296 + carry_in (Z.of_nat k) s i)).
  { destruct (Nat.ltb_spec m dst_sz).
    - assert (Hcm : is_u32 (carry_in (Z.of_nat k) s m)).
      { destruct m as [|m']; cbn [carry_in]; [apply is_u32_0 |].
        pose proof (words_lookup s m' Hws). unfold is_u32 in *.
        assert (0 < 2 ^ (32 - Z.of_nat k)) by (apply Z.pow_pos_nonneg; lia).
        split; [apply Z.div_pos; lia | apply Z.div_lt_upper_bound; nia]. }
      mstep.
      destruct (fill_from_up 0 (m + 1) (dst_sz - (m + 1)) (<[m:=carry_in (Z.of_nat k) s m]> d1))
        as (d2 & -> & Hl2 & Hw2 & H2); [rewrite length_insert; lia |].
      rewrite length_insert in Hl2. exists d2. split; [done |]. split; [lia |].
      split; [apply Hw2; auto with words |].
      assert (Hz : forall i, (m <= i)%nat -> limb s i = 0).
      { intros i Hi. apply limb_ge. unfold s. rewrite length_take. lia. }
      intros i Hi. rewrite H2. case_decide.
      + rewrite Hz by lia. destruct i as [|i]; [done |]. cbn [carry_in].
        rewrite Hz, Z.div_0_l by lia. done.
      + destruct (decide (i = m)) as [->|].
        * rewrite limb_insert_eq, Hz by lia. done.
        * rewrite limb_insert_ne by lia. apply Hin. lia.
    - exists d1. split; [done |]. split; [lia |]. split; [done |]. intros i Hi. apply Hin. lia. }
  destruct Hfin as (d2 & -> & Hl2 & Hw2 & H2). exists d2. split; [done |]. split; [done |].
  split; [done |]. rewrite (shl_value k s d2 dst_sz) by (auto; lia).
  unfold s. rewrite num_mod, val_take by done. apply Z.mul_mod_idemp_l. pose proof (Bpow_pos dst_sz). lia.
Qed.

Lemma shl_spec src_sz src k dst_sz dst :
  words src -> words dst -> (src_sz <= length src)%nat -> length dst = dst_sz -> (0 < k)%nat ->
  exists dst', shl src_sz src k dst_sz dst = Some dst' /\ length dst' = dst_sz /\ words dst' /\
    num dst_sz dst' = (num src_sz src * 2 ^ Z.of_nat k) mod Bpow dst_sz.
Proof.
  intros. destruct (decide (k < 32)%nat).
  - apply shl_near_spec; auto.
  - apply shl_far_spec; auto. apply Nat.div_str_pos. lia.
Qed.

(** *** Right shift *)

(** Word [i] of [s >> b]. *)
Definition shr_digit (b : nat) (s : list Z) (i : nat) : Z :=
  limb s i / 2 ^ Z.of_nat b + (limb s (S i) mod 2 ^ Z.of_nat b) * 2 ^ (32 - Z.of_nat b).

Lemma shr_digit_u32 b s i : (b < 32)%nat -> words s -> is_u32 (shr_digit b s i).
Proof.
  intros Hb Hs. unfold shr_digit, is_u32.
  pose proof (words_lookup s i Hs) as H1. unfold is_u32 in *.
  destruct (pow2_split (Z.of_nat b)) as (E & P1 & P2); [lia |].
  pose proof (Z.mod_pos_bound (limb s (S i)) (2 ^ Z.of_nat b) P1).
  assert (0 <= limb s i / 2 ^ Z.of_nat b < 2 ^ (32 - Z.of_nat b)).
  { split; [apply Z.div_pos; lia | apply Z.div_lt_upper_bound; nia]. }
  nia.
Qed.

Lemma shr_value b s r n :
  (b < 32)%nat -> words s -> words r ->
  (forall i, (i < n)%nat -> limb r i = shr_digit b s i) ->
  num n r = (val s / 2 ^ Z.of_nat b) mod Bpow n.
Proof.
  intros Hb Hs Hr H. unfold shr_digit in H.
  pose proof (shr_num (Z.of_nat b) s r n ltac:(lia) H) as E. clear H.
  destruct (pow2_split (Z.of_nat b)) as (E32 & P1 & P2); [lia |].
  pose proof (val_split (S n) s Hs) as Hv. cbn [num] in Hv. rewrite Bpow_S in Hv.
  pose proof (Z.div_mod (limb s n) (2 ^ Z.of_nat b)) as Hdm.
  pose proof (Z.mod_pos_bound (limb s 0) (2 ^ Z.of_nat b) P1) as Hl0.
  set (l0 := limb s 0 mod 2 ^ Z.of_nat b) in *.
  set (rest := val (drop (S n) s)) in *.
  set (q := limb s n / 2 ^ Z.of_nat b) in *. set (m := limb s n mod 2 ^ Z.of_nat b) in *.
  assert (Hq : val s / 2 ^ Z.of_nat b = num n r + (q + 2 ^ (32 - Z.of_nat b) * rest) * Bpow n).
  { symmetry. apply Z.div_unique with l0; [lia |]. rewrite Hv, Hdm, <- E32 by lia.
    replace (num n s) with (2 ^ Z.of_nat b * num n r + l0 - m * Bpow n) by lia. ring. }
  rewrite Hq, Z.mod_add by (pose proof (Bpow_pos n); lia).
  symmetry. by apply Z.mod_small, num_bound.
Qed.

(** The first [n] words of [dst] are those of the shifted number. *)
Definition shr_done (src : list Z) (ds b sz n : nat) (dst dst' : list Z) : Prop :=
  length dst' = length dst /\ words dst' /\
  (forall i, (i < n)%nat -> limb dst' i = shr_digit b (drop ds (take sz src)) i).

Lemma limb_part src ds sz i :
  limb (drop ds (take sz src)) i = if decide (ds + i < sz)%nat then limb src (ds + i) else 0.
Proof.
  rewrite limb_drop. case_decide; [by apply limb_take |].
  apply limb_ge. rewrite length_take. lia.
Qed.

Lemma words_part src ds sz : words src -> words (drop ds (take sz src)).
Proof. intros. by apply Forall_drop, Forall_take. Qed.

Lemma shr_word_pair src ds b sz n :
  (0 < b < 32)%nat -> words src -> (ds + S n < sz)%nat ->
  Z.lor (limb src (ds + n) ≫ Z.of_nat b)
        (u32 (limb src (ds + n + 1) ≪ Z.of_nat (32 - b))) = shr_digit b (drop ds (take sz src)) n.
Proof.
  intros Hb Hs Hn. unfold shr_digit. rewrite !limb_part, !decide_True by lia.
  replace (ds + n + 1)%nat with (ds + S n)%nat by lia. rewrite Nat2Z.inj_sub by lia.
  apply Words.shr_word; auto with words. lia.
Qed.

Lemma shr_loop_spec src ds b sz n dst :
  (0 < b < 32)%nat -> words src -> words dst -> (sz <= length src)%nat -> (ds + n < sz)%nat ->
  (n <= length dst)%nat ->
  exists dst', shr_loop (fun _ => rd src) ds b (32 - b) n dst = Some dst' /\ shr_done src ds b sz n dst dst'.
Proof.
  intros Hb Hs Hd Hl Hn Hld. unfold shr_loop.
  destruct (fill_up (shr_digit b (drop ds (take sz src))) 0 n (fun i dst =>
    s ← rd src (ds + i); d ← bit_util.shr_word s b; s' ← rd src (ds + i + 1);
    h ← bit_util.shl_word s' (32 - b); wr dst i (Z.lor d h)) dst) as (dst' & -> & Hf); [| lia |].
  - intros i r Hi. mstep. rewrite shr_word_ok by lia. do 2 mstep.
    rewrite shl_word_ok by lia. mstep. rewrite (shr_word_pair _ _ _ sz) by (auto; lia).
    done.
  - exists dst'. split; [done |]. split; [apply Hf |]. split; [| apply Hf].
    eapply filled_words; eauto. intros. apply shr_digit_u32; [lia | by apply words_part].
Qed.

Lemma shr_done_insert src ds b sz n dst dst' v :
  shr_done src ds b sz n dst dst' -> (b < 32)%nat -> words src -> (n < length dst)%nat ->
  v = shr_digit b (drop ds (take sz src)) n ->
  shr_done src ds b sz (S n) dst (<[n:=v]> dst').
Proof.
  intros (Hl & Hw & H) Hb Hs Hn ->. split; [by rewrite length_insert |]. split.
  - apply words_insert; [done |]. by apply shr_digit_u32, words_part.
  - intros i Hi. destruct (decide (i = n)) as [->|].
    + by rewrite limb_insert_eq by lia.
    + rewrite limb_insert_ne by lia. apply H. lia.
Qed.

Lemma shr_digit_last src ds b sz n :
  (ds + S n = sz)%nat -> limb src (ds + n) ≫ Z.of_nat b = shr_digit b (drop ds (take sz src)) n.
Proof.
  intros Hn. unfold shr_digit. rewrite !limb_part, decide_True, decide_False by lia.
  rewrite Z.shiftr_div_pow2 by lia. rewrite Z.mod_0_l by (apply Z.pow_nonzero; lia). lia.
Qed.

(** The loop and the last word, of which nothing comes in from above. *)
Lemma shr_part_spec src ds b sz n dst :
  (0 < b < 32)%nat -> words src -> words dst -> (sz <= length src)%nat -> (ds + n = sz)%nat ->
  (0 < n <= length dst)%nat ->
  exists dst', (dst ← shr_loop (fun _ => rd src) ds b (32 - b) (n - 1) dst;
    s ← rd src (ds + (n - 1)); d ← bit_util.shr_word s b; wr dst (n - 1) d) = Some dst' /\
    shr_done src ds b sz n dst dst'.
Proof.
  intros Hb Hs Hd Hl Hn Hld. destruct n as [|n]; [lia |]. rewrite Nat.sub_succ, Nat.sub_0_r.
  destruct (shr_loop_spec src ds b sz n dst) as (d1 & -> & H1); auto; try lia.
  do 2 mstep. rewrite shr_word_ok by lia. cbn [mbind option_bind].
  rewrite wr_ok by (destruct H1; lia). eexists. split; [done |].
  apply shr_done_insert; auto; [lia.. |]. apply shr_digit_last. lia.
Qed.

(** The words above a result that covers the whole number are zeroed. *)
Lemma shr_zeros src ds b sz n dst d1 :
  shr_done src ds b sz n dst d1 -> (sz - ds <= n <= length dst)%nat ->
  exists dst', for_up (length dst - n) n (fun i dst => wr dst i 0) d1 = Some dst' /\
    shr_done src ds b sz (length dst) dst dst'.
Proof.
  intros (Hl & Hw & H) Hn.
  destruct (fill_from_up 0 n (length dst - n) d1) as (d2 & -> & Hl2 & Hw2 & H2); [lia |].
  exists d2. split; [done |]. split; [lia |]. split; [auto using is_u32_0 |].
  intros i Hi. rewrite H2. case_decide; [| apply H; lia].
  unfold shr_digit. rewrite !limb_part, !decide_False by lia.
  rewrite Z.div_0_l, Z.mod_0_l by (apply Z.pow_nonzero; lia). done.
Qed.

Lemma shr_moved src ds sz n dst :
  words src -> words dst -> (sz <= length src)%nat -> (ds + n <= sz)%nat -> (n <= length dst)%nat ->
  exists dst', for_up n 0 (fun i dst => s ← rd src (ds + i); wr dst i s) dst = Some dst' /\
    shr_done src ds 0 sz n dst dst'.
Proof.
  intros Hs Hd Hl Hn Hld.
  assert (E : forall i, shr_digit 0 (drop ds (take sz src)) i = limb (drop ds (take sz src)) i).
  { intros i. unfold shr_digit. change (2 ^ Z.of_nat 0) with 1. rewrite Z.div_1_r, Z.mod_1_r. lia. }
  destruct (fill_up (shr_digit 0 (drop ds (take sz src))) 0 n
    (fun i dst => s ← rd src (ds + i); wr dst i s) dst) as (dst' & -> & Hf); [| lia |].
  - intros i r Hi. cbv beta. rewrite rd_ok by lia. cbn [mbind option_bind].
    by rewrite E, limb_part, decide_True by lia.
  - exists dst'. split; [done |]. split; [apply Hf |]. split; [| apply Hf].
    eapply filled_words; eauto. intros. apply shr_digit_u32; [lia | by apply words_part].
Qed.

Lemma shr_done_value src k sz dst dst' :
  words src -> (sz <= length src)%nat ->
  shr_done src (k / 32) (k mod 32) sz (length dst) dst dst' ->
  val dst' = (num sz src / 2 ^ Z.of_nat k) mod Bpow (length dst).
Proof.
  intros Hs Hl (Hl' & Hw & H). unfold val. rewrite Hl'.
  rewrite (shr_value (k mod 32) (drop (k / 32) (take sz src)) dst'); auto using words_part, mod32_lt.
  rewrite num_div, val_take by auto using words_take.
  pose proof (Bpow_pos (k / 32)). assert (0 < 2 ^ Z.of_nat (k mod 32)) by (apply Z.pow_pos_nonneg; lia).
  rewrite Z.div_div by lia. by rewrite <- pow2_words.
Qed.

Lemma reset_spec sz data : length data = sz ->
  reset sz data = Some (replicate sz 0).
Proof.
  intros Hl. unfold reset. destruct (fill_from_up 0 0 sz data) as (d & -> & Hld & _ & H); [lia |].
  f_equal. apply limb_ext; [rewrite length_replicate; lia |]. intros i Hi.
  rewrite H, decide_True, limb_replicate by lia. done.
Qed.

Lemma shr_all_zero src k sz (dst : list Z) :
  words src -> (sz <= k / 32)%nat ->
  val (replicate (length dst) 0) = (num sz src / 2 ^ Z.of_nat k) mod Bpow (length dst).
Proof.
  intros Hs Hk. unfold val. rewrite num_replicate_0.
  pose proof (num_bound sz src Hs). rewrite Z.div_small; [by rewrite Z.mod_0_l by (pose proof (Bpow_pos (length dst)); lia) |].
  split; [lia |]. eapply Z.lt_le_trans; [apply H |]. rewrite Bpow_pow2.
  apply Z.pow_le_mono_r; [lia |]. pose proof (Nat.div_mod_eq k 32). lia.
Qed.

Lemma shr_spec sz src k dst :
  words src -> words dst -> (sz <= length src)%nat -> length dst = sz -> (0 < k)%nat ->
  exists dst', shr sz src k dst = Some dst' /\ length dst' = sz /\ words dst' /\
    val dst' = num sz src / 2 ^ Z.of_nat k.
Proof.
  intros Hs Hd Hl <- Hk. set (sz := length dst) in *.
  assert (Hm : (num sz src / 2 ^ Z.of_nat k) mod Bpow sz = num sz src / 2 ^ Z.of_nat k).
  { pose proof (num_bound sz src Hs).
    assert (0 < 2 ^ Z.of_nat k) by (apply Z.pow_pos_nonneg; lia).
    apply Z.mod_small. split; [apply Z.div_pos; lia |]. apply Z.div_lt_upper_bound; nia. }
  rewrite <- Hm. unfold shr. cbv zeta.
  pose proof (mod32_lt k). pose proof (Nat.div_mod_eq k 32).
  destruct (Nat.leb_spec sz (k / 32)).
  { rewrite reset_spec by done. eexists. split; [done |]. rewrite length_replicate.
    split; [done |]. split; [auto with words |]. by apply shr_all_zero. }
  enough (exists dst', _ = Some dst' /\ shr_done src (k / 32) (k mod 32) sz sz dst dst')
    as (dst' & -> & Hdone).
  { exists dst'. split; [done |]. split; [destruct Hdone; lia |]. split; [apply Hdone |].
    apply shr_done_value; [done | done | done]. }
  destruct (Nat.ltb_spec (sz - k / 32) sz).
  - destruct (Nat.eqb_spec (k mod 32) 0) as [E0|E0]; cbn [negb].
    + destruct (shr_moved src (k / 32) sz (sz - k / 32) dst) as (d1 & -> & Hd1); auto; [lia.. |].
      cbn [mbind option_bind]. rewrite E0.
      destruct (shr_zeros _ _ _ _ _ _ _ Hd1) as (d2 & E2 & Hd2); [lia |].
      eauto.
    + destruct (shr_part_spec src (k / 32) (k mod 32) sz (sz - k / 32) dst) as (d1 & -> & Hd1);
        auto; [lia.. |]. cbn [mbind option_bind].
      destruct (shr_zeros _ _ _ _ _ _ _ Hd1) as (d2 & E2 & Hd2); [lia |].
      eauto.
  - assert (k / 32 = 0)%nat as -> by lia. rewrite Nat.sub_0_r.
    apply shr_part_spec; auto; lia.
Qed.

(** The loop and the last word when the destination may be shorter than the shifted number. *)
Lemma shr_with_bits src ds b src_sz dst :
  (0 < b < 32)%nat -> words src -> words dst -> (src_sz <= length src)%nat -> (ds < src_sz)%nat ->
  (0 < length dst)%nat ->
  let new_sz := (src_sz - ds)%nat in
  let sz := if (length dst <? new_sz)%nat then length dst else new_sz in
  (sz =? 0)%nat = false /\
  exists dst', (dst0 ← shr_loop (fun _ => rd src) ds b (32 - b) (sz - 1) dst;
    s ← rd src (ds + (sz - 1));
    d ← bit_util.shr_word s b;
    if (length dst <? new_sz)%nat then
      s' ← rd src (ds + (sz - 1) + 1);
      h ← bit_util.shl_word s' (32 - b);
      wr dst0 (sz - 1) (Z.lor d h)
    else wr dst0 (sz - 1) d) = Some dst' /\ shr_done src ds b src_sz sz dst dst'.
Proof.
  intros Hb Hs Hd Hl Hds Hld. cbv zeta.
  destruct (Nat.ltb_spec (length dst) (src_sz - ds)).
  - split; [apply Nat.eqb_neq; lia |].
    destruct (length dst) as [|n] eqn:En; [lia |]. rewrite Nat.sub_succ, Nat.sub_0_r.
    destruct (shr_loop_spec src ds b src_sz n dst) as (d1 & -> & Hd1); auto; try lia.
    do 2 mstep. rewrite shr_word_ok by lia. do 2 mstep. rewrite shl_word_ok by lia.
    cbn [mbind option_bind]. rewrite wr_ok by (destruct Hd1; lia). eexists. split; [done |].
    apply shr_done_insert; auto; [lia.. |]. apply shr_word_pair; auto; lia.
  - split; [apply Nat.eqb_neq; lia |]. apply shr_part_spec; auto; lia.
Qed.

Lemma shr_resize_spec src_sz src k dst :
  words src -> words dst -> (src_sz <= length src)%nat -> (0 < length dst)%nat -> (0 < k)%nat ->
  exists dst', shr_resize src_sz src k (length dst) dst = Some dst' /\
    length dst' = length dst /\ words dst' /\
    val dst' = (num src_sz src / 2 ^ Z.of_nat k) mod Bpow (length dst).
Proof.
  intros Hs Hd Hl Hld Hk. unfold shr_resize, shr_resize_at. cbv zeta.
  pose proof (mod32_lt k). pose proof (Nat.div_mod_eq k 32).
  destruct (Nat.leb_spec src_sz (k / 32)).
  { rewrite reset_spec by done. eexists. split; [done |]. rewrite length_replicate.
    split; [done |]. split; [auto with words |]. by apply shr_all_zero. }
  enough (exists dst', _ = Some dst' /\
      shr_done src (k / 32) (k mod 32) src_sz (length dst) dst dst') as (dst' & -> & Hdone).
  { exists dst'. split; [done |]. split; [by destruct Hdone |]. split; [apply Hdone |].
    by apply shr_done_value. }
  assert (Htail : forall n d1, shr_done src (k / 32) (k mod 32) src_sz
      (if (length dst <? src_sz - k / 32)%nat then length dst else src_sz - k / 32)%nat dst d1 ->
      (n = src_sz - k / 32 \/
       n = if length dst <? src_sz - k / 32 then length dst else src_sz - k / 32)%nat ->
      exists dst', for_up (length dst - n) n (fun i dst => wr dst i 0) d1 = Some dst' /\
      shr_done src (k / 32) (k mod 32) src_sz (length dst) dst dst').
  { intros n d1 Hd1 Hn. destruct (Nat.ltb_spec (length dst) (src_sz - k / 32)).
    - replace (length dst - n)%nat with O by lia. eauto.
    - assert (n = src_sz - k / 32)%nat as -> by lia. eapply shr_zeros; [exact Hd1 | lia]. }
  destruct (Nat.ltb_spec 0 (k / 32)).
  - destruct (Nat.eqb_spec (k mod 32) 0) as [E0|E0]; cbn [negb].
    + destruct (shr_moved src (k / 32) src_sz
        (if (length dst <? src_sz - k / 32)%nat then length dst else src_sz - k / 32)%nat dst)
        as (d1 & -> & Hd1); auto; [destruct (Nat.ltb_spec (length dst) (src_sz - k / 32)); lia.. |].
      cbn [mbind option_bind]. rewrite E0 in *. apply Htail; auto.
    + destruct (shr_with_bits src (k / 32) (k mod 32) src_sz dst) as (-> & d1 & -> & Hd1); auto; [lia |].
      cbn [mbind option_bind]. apply Htail; auto.
  - assert (k / 32 = 0)%nat as Ek by lia. rewrite Ek in *.
    destruct (shr_with_bits src 0 (k mod 32) src_sz dst) as (-> & d1 & -> & Hd1); auto; [lia |].
    cbn [mbind option_bind]. apply Htail; auto.
Qed.

(** *** Counting zeros *)

Lemma num_step n a : num (S n) a = num n a + limb a n * Bpow n.
Proof. done. Qed.

Lemma nlz_spec sz data :
  words data -> (sz <= length data)%nat -> Z.of_nat sz < 134217728 ->
  exists r, nlz sz data = Some r /\
    ((num sz data = 0 /\ r = 32 * Z.of_nat sz) \/
     (0 < num sz data /\ r = 32 * Z.of_nat sz - 1 - Z.log2 (num sz data))).
Proof.
  intros Hw Hl Hsz. unfold nlz.
  destruct (for_dn_ret_inv (fun i r => r = 32 * (Z.of_nat sz - Z.of_nat i) /\ num sz data = num i data)
    (fun r => 0 < num sz data /\ r = 32 * Z.of_nat sz - 1 - Z.log2 (num sz data))
    sz (fun i r => d ← rd data i; Some (if d =? 0 then Next (r ⊕ 32) else Ret (r ⊕ nlz_core d))) 0)
    as [(r & -> & -> & H)|(r & -> & H)].
  - split; [lia | done].
  - intros i r Hi [-> E]. mstep. pose proof (words_lookup data i Hw) as Hd. unfold is_u32 in Hd.
    rewrite E. cbn [num]. destruct (Z.eqb_spec (limb data i) 0) as [->|Hne].
    + left. eexists. split; [done |]. rewrite u32_small by (unfold is_u32; lia). lia.
    + right. eexists. split; [done |]. rewrite nlz_core_log2 by lia.
      pose proof (num_bound i data Hw) as Hb. pose proof (Bpow_pos i).
      assert (Hlog : Z.log2 (num i data + limb data i * Bpow i) =
        32 * Z.of_nat i + Z.log2 (limb data i)).
      { rewrite Bpow_pow2 in *. apply Z.log2_unique; [pose proof (Z.log2_nonneg (limb data i)); lia |].
        pose proof (Z.log2_spec (limb data i) ltac:(lia)) as Hlg. pose proof (Z.log2_nonneg (limb data i)).
        rewrite <- Z.add_succ_r, !Z.pow_add_r by lia. nia. }
      rewrite Hlog. pose proof (Z.log2_nonneg (limb data i)).
      assert (Z.log2 (limb data i) < 32) by (apply Z.log2_lt_pow2; lia).
      split; [nia |]. rewrite u32_small by (unfold is_u32; lia). lia.
  - eexists. split; [done |]. left. split; [done |]. lia.
  - eexists. split; [done |]. by right.
Qed.

Lemma ntz_spec sz data :
  words data -> (sz <= length data)%nat -> Z.of_nat sz < 134217728 ->
  exists r, ntz sz data = Some r /\
    ((num sz data = 0 /\ r = 32 * Z.of_nat sz) \/ lowest_bit (num sz data) r).
Proof.
  intros Hw Hl Hsz. unfold ntz.
  destruct (for_up_ret_inv (fun i r => r = 32 * Z.of_nat i /\ num i data = 0)
    (fun r => lowest_bit (num sz data) r)
    sz 0 (fun i r => d ← rd data i; Some (if d =? 0 then Next (r ⊕ 32) else Ret (r ⊕ ntz_core d))) 0)
    as [(r & -> & -> & H)|(r & -> & H)].
  - done.
  - intros i r Hi [-> E]. mstep. pose proof (words_lookup data i Hw) as Hd. unfold is_u32 in Hd.
    destruct (Z.eqb_spec (limb data i) 0) as [E0|Hne].
    + left. eexists. split; [done |]. rewrite u32_small by (unfold is_u32; lia).
      rewrite num_step, E, E0. lia.
    + right. eexists. split; [done |]. unfold ntz_core.
      destruct (builtin_ctz_spec 32 (limb data i)) as [[Hr [m Hm]] Hlt]; [lia |].
      set (c := builtin_ctz 32 (limb data i)) in *.
      rewrite u32_small by (unfold is_u32; lia). split; [lia |].
      replace sz with (S i + (sz - S i))%nat by lia.
      rewrite num_split, Bpow_S, num_step, E, Hm.
      exists (m + 2 ^ (31 - c) * num (sz - S i) (drop (S i) data)).
      rewrite Z.pow_add_r, <- Bpow_pow2 by lia.
      replace 4294967296 with (2 * 2 ^ (31 - c) * 2 ^ c); [ring |].
      rewrite <- Z.mul_assoc, <- Z.pow_add_r by lia. replace (31 - c + c) with 31 by lia. done.
  - eexists. split; [done |]. left. split; [done |]. lia.
  - eexists. split; [done |]. by right.
Qed.

(** *** Copying, testing, counting *)

Lemma copy_spec src_sz src dst :
  words src -> words dst -> (src_sz <= length src)%nat ->
  exists dst', copy src_sz src (length dst) dst = Some dst' /\
    length dst' = length dst /\ words dst' /\ val dst' = num src_sz src mod Bpow (length dst).
Proof.
  intros Hs Hd Hl.
  assert (Hc : forall n, (n <= length src)%nat -> (n <= length dst)%nat -> exists d1,
    for_up n 0 (fun i dst => x ← rd src i; wr dst i x) dst = Some d1 /\ filled (limb src) 0 n dst d1).
  { intros n H1 H2. apply fill_up; [| lia]. intros i r Hi. by rewrite rd_ok by lia. }
  assert (Hv : forall d, length d = length dst ->
      (forall i, (i < length dst)%nat -> limb d i = limb (take src_sz src) i) ->
      val d = num src_sz src mod Bpow (length dst)).
  { intros d Hld H. unfold val. rewrite Hld, (num_ext _ _ _ H).
    rewrite num_mod, val_take by auto using words_take. done. }
  unfold copy. destruct (Nat.leb_spec src_sz (length dst)).
  - destruct (Hc src_sz) as (d1 & -> & Hf); [lia.. |]. cbn [mbind option_bind].
    assert (Hw1 : words d1) by (eapply filled_words; eauto with words).
    destruct Hf as (Hl1 & Hi1 & _).
    destruct (fill_from_up 0 src_sz (length dst - src_sz) d1) as (d2 & -> & Hl2 & Hw2 & Hi2); [lia |].
    exists d2. split; [done |]. split; [lia |]. split; [auto using is_u32_0 |]. apply Hv; [lia |].
    intros i Hi. rewrite Hi2. case_decide.
    + symmetry. apply limb_ge. rewrite length_take. lia.
    + rewrite limb_take by lia. apply Hi1. lia.
  - destruct (Hc (length dst)) as (d1 & -> & Hf); [lia.. |]. exists d1. split; [done |].
    split; [apply Hf |]. split; [eapply filled_words; eauto with words |]. apply Hv; [apply Hf |].
    intros i Hi. rewrite limb_take by lia. apply Hf. lia.
Qed.

Lemma num_zero_iff n a : words a -> num n a = 0 <-> (forall i, (i < n)%nat -> limb a i = 0).
Proof.
  intros Hw. split; [| apply num_zero]. intros H i Hi.
  replace n with (S i + (n - S i))%nat in H by lia. rewrite num_split, num_step in H.
  pose proof (num_bound i a Hw). pose proof (Bpow_pos i). pose proof (Bpow_pos (S i)).
  assert (Hwd : words (drop (S i) a)) by (by apply Forall_drop).
  pose proof (num_bound (n - S i) (drop (S i) a) Hwd). pose proof (words_lookup a i Hw) as Hd.
  unfold is_u32 in Hd. nia.
Qed.

(** The loop shared by [is_zero] and [has_one_at_first_k_bits]. *)
Lemma scan_spec (b : bool) n data body :
  words data ->
  (forall i, (i < n)%nat -> body i tt = Some (if limb data i =? 0 then Next tt else Ret b)) ->
  for_up_ret n 0 body tt = Some (if num n data =? 0 then Next tt else Ret b).
Proof.
  intros Hw Hb.
  destruct (for_up_ret_inv (fun i _ => num i data = 0) (fun r => r = b /\ num n data <> 0) n 0 body tt)
    as [([] & -> & H)|(r & -> & -> & H)].
  - done.
  - intros i [] Hi H. rewrite Hb by lia. destruct (Z.eqb_spec (limb data i) 0) as [E|E].
    + left. eexists. split; [done |]. rewrite num_step, H, E. lia.
    + right. eexists. split; [done |]. split; [done |]. rewrite num_zero_iff by done.
      intros H'. apply E, H'. lia.
  - cbn [Nat.add] in H. by rewrite H.
  - by rewrite (proj2 (Z.eqb_neq _ _) H).
Qed.

Lemma is_zero_spec sz data : words data -> (sz <= length data)%nat ->
  is_zero sz data = Some (num sz data =? 0).
Proof.
  intros Hw Hl. unfold is_zero.
  rewrite (scan_spec false sz data) by (done || (intros; by rewrite rd_ok by lia)).
  cbn [mbind option_bind]. by destruct (num sz data =? 0).
Qed.

Lemma land_mask x b : 0 <= b < 32 -> is_u32 x -> Z.land x (u32 (1 ≪ b) ⊖ 1) = x mod 2 ^ b.
Proof.
  intros Hb Hx. rewrite Z.shiftl_mul_pow2, Z.mul_1_l by lia.
  destruct (pow2_split b) as (E & P1 & P2); [lia |].
  assert (2 ^ 1 <= 2 ^ (32 - b)) by (apply Z.pow_le_mono_r; lia). change (2 ^ 1) with 2 in *.
  rewrite (u32_small (2 ^ b)) by (unfold is_u32; nia). rewrite u32_small by (unfold is_u32; nia).
  rewrite <- Z.land_ones by lia. f_equal. rewrite Z.ones_equiv. lia.
Qed.

Lemma has_one_spec sz data k : words data -> (sz <= length data)%nat ->
  has_one_at_first_k_bits sz data k = Some (negb (num sz data mod 2 ^ Z.of_nat k =? 0)).
Proof.
  intros Hw Hl. unfold has_one_at_first_k_bits. cbv zeta.
  pose proof (mod32_lt k). pose proof (Nat.div_mod_eq k 32).
  set (w := (k / 32)%nat) in *. set (b := (k mod 32)%nat) in *.
  set (m := if (sz <? w)%nat then sz else w).
  assert (Hm : (m = sz `min` w)%nat) by (unfold m; destruct (Nat.ltb_spec sz w); lia).
  rewrite (scan_spec true m data) by (done || (intros; mstep;
    by destruct (limb data _ =? 0))).
  cbn [mbind option_bind]. rewrite pow2_words. fold w b.
  pose proof (Bpow_pos w). assert (0 < 2 ^ Z.of_nat b) by (apply Z.pow_pos_nonneg; lia).
  destruct (Nat.ltb_spec m sz).
  - assert (m = w) as -> by lia.
    assert (Hmod : num sz data mod (Bpow w * 2 ^ Z.of_nat b) =
      num w data + Bpow w * (limb data w mod 2 ^ Z.of_nat b)).
    { rewrite Z.rem_mul_r by lia. replace sz with (w + S (sz - S w))%nat by lia.
      rewrite num_split. pose proof (num_bound w data Hw).
      rewrite Z.mul_comm, Z.mod_add, Z.div_add, Z.mod_small, Z.div_small by lia. do 2 f_equal.
      rewrite Z.add_0_l. change (S (sz - S w)) with (1 + (sz - S w))%nat. rewrite num_split.
      cbn [num]. rewrite Bpow_S, Bpow_0, limb_drop, Nat.add_0_r.
      destruct (pow2_split (Z.of_nat b)) as (E32 & _ & _); [lia |].
      rewrite <- E32, <- (Z.mod_add (limb data w) (2 ^ (32 - Z.of_nat b) *
        num (sz - S w) (drop 1 (drop w data))) (2 ^ Z.of_nat b)) by lia. f_equal. ring. }
    rewrite Hmod. pose proof (num_bound w data Hw).
    pose proof (Z.mod_pos_bound (limb data w) (2 ^ Z.of_nat b)).
    destruct (Z.eqb_spec (num w data) 0) as [E|E]; cbn [mbind option_bind].
    + rewrite shl_word_ok by lia. cbn [mbind option_bind]. rewrite rd_ok by lia. cbn [mbind option_bind].
      rewrite land_mask by (auto with words; lia). rewrite E. do 2 f_equal.
      apply eq_true_iff_eq. rewrite !Z.eqb_eq. nia.
    + rewrite (proj2 (Z.eqb_neq _ _)) by nia. done.
  - assert (m = sz) as -> by lia. pose proof (num_bound sz data Hw).
    rewrite (Z.mod_small (num sz data)).
    + by destruct (num sz data =? 0).
    + split; [lia |]. assert (Bpow sz <= Bpow w) by (rewrite !Bpow_pow2; apply Z.pow_le_mono_r; lia). nia.
Qed.

(** *** Arithmetic *)

Lemma inc_spec sz data :
  words data -> (sz <= length data)%nat ->
  exists data' ok, inc sz data = Some (data', ok) /\
    length data' = length data /\ words data' /\
    num sz data' = (num sz data + 1) mod Bpow sz /\ ok = (num sz data + 1 <? Bpow sz) /\
    (forall i, (sz <= i)%nat -> limb data' i = limb data i).
Proof.
  intros Hw Hl. pose proof (num_bound sz data Hw) as Hb. unfold inc.
  set (P := fun d : list Z => length d = length data /\ words d /\
    (forall i, (sz <= i)%nat -> limb d i = limb data i)).
  edestruct (for_up_ret_inv (fun i d => P d /\ num sz d = num sz data + 1 - Bpow i)
    (fun d => P d /\ num sz d = num sz data + 1)) as [(d & -> & (Hl' & Hw' & Ho) & H)
      |(d & -> & (Hl' & Hw' & Ho) & H)].
  - unfold P. rewrite Bpow_0. repeat split; auto; lia.
  - intros i d Hi [(Hld & Hwd & Hod) E]. do 2 mstep.
    pose proof (words_lookup d i Hwd) as Hx. unfold is_u32 in Hx.
    assert (HP : P (<[i:=limb d i ⊕ 1]> d)).
    { split; [by rewrite length_insert |]. split; [auto with words |].
      intros j Hj. rewrite limb_insert_ne by lia. auto. }
    assert (En := num_insert_lt sz d i (limb d i ⊕ 1) ltac:(lia) ltac:(lia)).
    u32_add (limb d i + 1).
    + rewrite (proj2 (Z.eqb_neq (limb d i + 1) 0)) by lia. right. eexists. split; [done |].
      split; [done |]. rewrite En, E. lia.
    + assert (Hmax : limb d i = 4294967295) by lia.
      replace (limb d i + 1 - 4294967296) with 0 in * by lia. left. eexists. split; [done |].
      split; [done |]. rewrite En, E, Bpow_S, Hmax. lia.
  - pose proof (num_bound sz d Hw'). exists d, false. cbn [Nat.add] in H.
    assert (Hmax : num sz data + 1 = Bpow sz) by lia.
    rewrite Hmax, Z.mod_same by lia. repeat split; auto; [lia |]. symmetry. apply Z.ltb_ge. lia.
  - pose proof (num_bound sz d Hw'). exists d, true.
    rewrite Z.mod_small by lia. repeat split; auto. symmetry. apply Z.ltb_lt. lia.
Qed.

Lemma dec_spec sz data :
  words data -> (sz <= length data)%nat ->
  exists data' ok, dec sz data = Some (data', ok) /\
    length data' = length data /\ words data' /\
    num sz data' = (num sz data - 1) mod Bpow sz /\ ok = (0 <? num sz data) /\
    (forall i, (sz <= i)%nat -> limb data' i = limb data i).
Proof.
  intros Hw Hl. pose proof (num_bound sz data Hw) as Hb. unfold dec, UINT_MAX.
  set (P := fun d : list Z => length d = length data /\ words d /\
    (forall i, (sz <= i)%nat -> limb d i = limb data i)).
  edestruct (for_up_ret_inv (fun i d => P d /\ num sz d = num sz data - 1 + Bpow i)
    (fun d => P d /\ num sz d = num sz data - 1)) as [(d & -> & (Hl' & Hw' & Ho) & H)
      |(d & -> & (Hl' & Hw' & Ho) & H)].
  - unfold P. rewrite Bpow_0. repeat split; auto; lia.
  - intros i d Hi [(Hld & Hwd & Hod) E]. do 2 mstep.
    pose proof (words_lookup d i Hwd) as Hx. unfold is_u32 in Hx.
    assert (HP : P (<[i:=limb d i ⊖ 1]> d)).
    { split; [by rewrite length_insert |]. split; [auto with words |].
      intros j Hj. rewrite limb_insert_ne by lia. auto. }
    assert (En := num_insert_lt sz d i (limb d i ⊖ 1) ltac:(lia) ltac:(lia)).
    u32_sub (limb d i - 1).
    + assert (Hz : limb d i = 0) by lia.
      replace (limb d i - 1 + 4294967296) with 4294967295 in * by lia. left. eexists. split; [done |].
      split; [done |]. rewrite En, E, Bpow_S, Hz. lia.
    + rewrite (proj2 (Z.eqb_neq (limb d i - 1) 4294967295)) by lia. right. eexists. split; [done |].
      split; [done |]. rewrite En, E. lia.
  - pose proof (num_bound sz d Hw'). exists d, false. cbn [Nat.add] in H.
    assert (Hz : num sz data = 0) by lia. rewrite H, Hz in *.
    split; [done |]. repeat split; auto.
    replace (0 - 1 + Bpow sz) with (0 - 1 + 1 * Bpow sz) by lia. rewrite <- (Z.mod_add (0 - 1) 1) by lia.
    symmetry. apply Z.mod_small. lia.
  - pose proof (num_bound sz d Hw'). exists d, true.
    rewrite Z.mod_small by lia. repeat split; auto. symmetry. apply Z.ltb_lt. lia.
Qed.

Lemma lt_spec sz a b :
  words a -> words b -> (sz <= length a)%nat -> (sz <= length b)%nat ->
  lt sz a b = Some (num sz a <? num sz b).
Proof.
  intros Ha Hb Hla Hlb. unfold lt.
  edestruct (for_dn_ret_inv
    (fun i (_ : unit) => num sz a - num sz b = num i a - num i b)
    (fun r => r = (num sz a <? num sz b))) as [([] & -> & H)|(r & -> & ->)]; [| | | done].
  - done.
  - intros i [] Hi E. do 2 mstep. cbn [num] in E.
    pose proof (num_bound i a Ha). pose proof (num_bound i b Hb).
    destruct (Z.ltb_spec (limb a i) (limb b i)); [| destruct (Z.ltb_spec (limb b i) (limb a i))].
    + right. eexists. split; [done |]. symmetry. apply Z.ltb_lt. nia.
    + right. eexists. split; [done |]. symmetry. apply Z.ltb_ge. nia.
    + left. eexists. split; [done |]. assert (limb a i = limb b i) as Hi' by lia. rewrite Hi' in E. lia.
  - cbn [num mbind option_bind] in *. f_equal. symmetry. apply Z.ltb_ge. lia.
Qed.

Lemma add_at_spec rda rdb sz a b c :
  words a -> words b -> words c -> (sz <= length c)%nat ->
  (forall i c', (i < sz)%nat -> length c' = length c -> (forall r, (i <= r)%nat -> limb c' r = limb c r) ->
     rda c' i = Some (limb a i) /\ rdb c' i = Some (limb b i)) ->
  exists c' ok, add_at rda rdb sz c = Some (c', ok) /\ length c' = length c /\ words c' /\
    num sz c' = (num sz a + num sz b) mod Bpow sz /\ ok = (num sz a + num sz b <? Bpow sz).
Proof.
  intros Ha Hb Hc Hlc Hr. unfold add_at.
  edestruct (for_up_inv (fun i '(d, k) => length d = length c /\ words d /\ 0 <= k <= 1 /\
    (forall r, (i <= r)%nat -> limb d r = limb c r) /\
    num i d + k * Bpow i = num i a + num i b)) as ([d k] & -> & Hl & Hw & Hk & _ & H).
  - repeat split; auto; lia.
  - intros j [d k] Hj (Hl & Hw & Hk & Hs & H). cbv beta.
    destruct (Hr j d) as [-> ->]; [lia | done | done |]. cbn [mbind option_bind].
    destruct (carry_step (limb a j) (limb b j) k) as (E & Hk' & Hu); auto with words.
    mstep. eexists (_, _). split; [done |]. rewrite length_insert. split; [done |].
    split; [auto with words |]. split; [done |]. split.
    { intros r Hr'. rewrite limb_insert_ne by lia. apply Hs. lia. }
    rewrite !num_step, num_insert_ge, limb_insert_eq, Bpow_S by lia.
    set (k' := b2z _) in *. set (x := _ ⊕ k) in *. nia.
  - cbn [mbind option_bind Nat.add] in *. exists d, (k =? 0). split; [done |].
    split; [done |]. split; [done |]. pose proof (num_bound sz d Hw) as Hd. pose proof (Bpow_pos sz).
    rewrite <- H. rewrite Z.mod_add, Z.mod_small by lia. split; [done |].
    apply eq_true_iff_eq. rewrite Z.eqb_eq, Z.ltb_lt. nia.
Qed.

Lemma add_words_spec sz a b c :
  words a -> words b -> words c ->
  (sz <= length a)%nat -> (sz <= length b)%nat -> (sz <= length c)%nat ->
  exists c' ok, add sz a b c = Some (c', ok) /\ length c' = length c /\ words c' /\
    num sz c' = (num sz a + num sz b) mod Bpow sz /\ ok = (num sz a + num sz b <? Bpow sz).
Proof.
  intros. apply add_at_spec; auto. intros. by rewrite !rd_ok by lia.
Qed.

(** *** Shifting right in place *)

(** A loop over an array whose body reads it at index [i] and above sees its initial contents. *)
Definition above (w : list Z) (i : nat) (d : list Z) : Prop :=
  length d = length w /\ forall r, (i <= r)%nat -> limb d r = limb w r.

Lemma above_rd w i d r : above w i d -> (i <= r)%nat -> rd d r = rd w r.
Proof.
  intros [Hl H] Hr. destruct (decide (r < length w)%nat).
  - by rewrite !rd_ok, H by lia.
  - unfold rd. by rewrite !lookup_ge_None_2 by lia.
Qed.

Lemma above_wr w i d v d' : above w i d -> wr d i v = Some d' -> above w (S i) d'.
Proof.
  unfold wr. intros [Hl H] E. destruct (i <? length d)%nat; simplify_eq.
  split; [by rewrite length_insert |]. intros r Hr. rewrite limb_insert_ne by lia. apply H. lia.
Qed.

Lemma for_up_above w n body1 body2 :
  (forall i d, above w i d -> body1 i d = body2 i d) ->
  (forall i d d', above w i d -> body2 i d = Some d' -> above w (S i) d') ->
  forall lo d, above w lo d -> for_up n lo body1 d = for_up n lo body2 d /\
    (forall d', for_up n lo body2 d = Some d' -> above w (lo + n) d').
Proof.
  intros He Hp. induction n as [|n IH]; intros lo d Hd; cbn [for_up].
  - rewrite Nat.add_0_r. split; [done |]. by intros ? [= ->].
  - rewrite He by done. destruct (body2 lo d) as [d1|] eqn:E; cbn [mbind option_bind]; [| done].
    rewrite Nat.add_succ_r. apply (IH (S lo)). eauto.
Qed.

Lemma shr_loop_inplace w ds b c n d :
  above w 0 d ->
  shr_loop rd ds b c n d = shr_loop (fun _ => rd w) ds b c n d /\
  (forall d', shr_loop (fun _ => rd w) ds b c n d = Some d' -> above w n d').
Proof.
  intros Hd. apply (for_up_above w n); [| | done].
  - intros i d0 H0. by rewrite (above_rd w i d0 (ds + i)), (above_rd w i d0 (ds + i + 1)) by (done || lia).
  - intros i d0 d' H0 E. destruct (rd w (ds + i)); [| done]. cbn [mbind option_bind] in E.
    destruct (bit_util.shr_word z b); [| done]. cbn [mbind option_bind] in E.
    destruct (rd w (ds + i + 1)); [| done]. cbn [mbind option_bind] in E.
    destruct (bit_util.shl_word z1 c); [| done]. cbn [mbind option_bind] in E. eauto using above_wr.
Qed.

Lemma shr_inplace_eq sz k w : (0 < sz)%nat -> shr_inplace sz k w = shr_resize sz w k sz w.
Proof.
  intros Hsz. unfold shr_inplace, shr_resize, shr_resize_at. cbv zeta.
  assert (Hw : above w 0 w) by done.
  destruct (Nat.leb_spec sz (k / 32)); [done |].
  rewrite (proj2 (Nat.ltb_ge sz (sz - k / 32))) by lia.
  assert (Hb : forall ds n d, (d0 ← shr_loop rd ds (k mod 32) (32 - k mod 32) n d;
      s ← rd d0 (ds + n)%nat; x ← bit_util.shr_word s (k mod 32); wr d0 n x) =
    (d0 ← shr_loop (fun _ => rd d) ds (k mod 32) (32 - k mod 32) n d;
      s ← rd d (ds + n)%nat; x ← bit_util.shr_word s (k mod 32); wr d0 n x)).
  { intros ds n d. destruct (shr_loop_inplace d ds (k mod 32) (32 - k mod 32) n d) as [-> Ha]; [done |].
    destruct (shr_loop _ _ _ _ _ _) as [d1|] eqn:E; [| done]. cbn [mbind option_bind].
    by rewrite (above_rd d n d1 (ds + n)) by (auto; lia). }
  assert (Hc : forall ds n (d : list Z), for_up n 0 (fun i dst => s ← rd dst (ds + i); wr dst i s) d =
    for_up n 0 (fun i dst => s ← rd d (ds + i)%nat; wr dst i s) d).
  { intros ds n d. apply (for_up_above d n); [| | done].
    - intros i d0 H0. by rewrite (above_rd d i d0 (ds + i)) by (done || lia).
    - intros i d0 d' H0 E. destruct (rd d (ds + i)%nat); [| done]. cbn [mbind option_bind] in E.
      eauto using above_wr. }
  destruct (0 <? k / 32)%nat; [destruct (negb (k mod 32 =? 0)%nat) |];
    destruct (sz - k / 32 =? 0)%nat; try rewrite Hb; try rewrite Hc; try done.
Qed.

End bit_util_array_facts.

(** ** Properties *)

Module bit_util_properties.
Import bit_util.

(** C5: For a shift [k <> 0], [shl] always returns, stays inside its arrays, and leaves in [dst]
    the number in [src] times [2^k], truncated to the words of [dst]; the whole-word and the
    sub-word paths, a longer and a shorter destination all included. *)
Theorem shl_correct src_sz src k dst_sz dst :
  words src -> words dst -> (src_sz <= length src)%nat -> length dst = dst_sz -> (0 < k)%nat ->
  exists dst', shl src_sz src k dst_sz dst = Some dst' /\ length dst' = dst_sz /\ words dst' /\
    val dst' = (num src_sz src * 2 ^ Z.of_nat k) mod Bpow dst_sz.
Proof.
  intros Hs Hd Hl Hld Hk.
  destruct (shl_spec src_sz src k dst_sz dst) as (d & E & Hl' & Hw & H); auto.
  exists d. repeat split; auto. unfold val. by rewrite Hl'.
Qed.

Lemma shl_correct_witness :
  exists dst', shl 2 [4026531841; 5] 36 4 [9; 9; 9; 9] = Some dst' /\ length dst' = 4%nat /\
    words dst' /\ val dst' = (num 2 [4026531841; 5] * 2 ^ 36) mod Bpow 4.
Proof.
  apply (shl_correct 2 [4026531841; 5] 36 4 [9; 9; 9; 9]);
    [by repeat constructor | by repeat constructor | simpl; lia | done | lia].
Defined.

(** For a shift [k <> 0], both [shr] functions always return, stay inside their arrays, and
    leave in [dst] the number in [src] divided by [2^k] (rounded down), truncated to the words of
    [dst] by the one with a separate destination size. *)
Theorem shr_correct src_sz src k dst :
  words src -> words dst -> (src_sz <= length src)%nat -> (0 < length dst)%nat -> (0 < k)%nat ->
  (length dst = src_sz -> exists dst', shr src_sz src k dst = Some dst' /\
     length dst' = src_sz /\ words dst' /\ val dst' = num src_sz src / 2 ^ Z.of_nat k) /\
  exists dst', shr_resize src_sz src k (length dst) dst = Some dst' /\
    length dst' = length dst /\ words dst' /\
    val dst' = (num src_sz src / 2 ^ Z.of_nat k) mod Bpow (length dst).
Proof.
  intros Hs Hd Hl Hld Hk. split.
  - intros E. by apply shr_spec.
  - by apply shr_resize_spec.
Qed.

Lemma shr_correct_witness :
  (2%nat = 2%nat -> exists dst', shr 2 [4026531841; 5] 3 [9; 9] = Some dst' /\
     length dst' = 2%nat /\ words dst' /\ val dst' = num 2 [4026531841; 5] / 2 ^ 3) /\
  exists dst', shr_resize 2 [4026531841; 5] 3 2 [9; 9] = Some dst' /\
    length dst' = 2%nat /\ words dst' /\
    val dst' = (num 2 [4026531841; 5] / 2 ^ 3) mod Bpow 2.
Proof.
  apply (shr_correct 2 [4026531841; 5] 3 [9; 9]);
    [by repeat constructor | by repeat constructor | simpl; lia | simpl; lia | lia].
Defined.

(** C6: [nlz] counts the leading zero bits of an array ([32 * sz] for zero, otherwise the number
    lies in [2^(32 sz - 1 - r), 2^(32 sz - r))), [ntz] its trailing ones (the number is an odd
    multiple of [2^r]); on a word, [msb_pos] and its debugging version agree and give the binary
    logarithm, and both compilers' branches of [ntz_core] agree. *)
Theorem count_zeros_correct sz data v :
  words data -> (sz <= length data)%nat -> Z.of_nat sz < 134217728 -> 0 < v < 4294967296 ->
  (exists r, nlz sz data = Some r /\
     ((num sz data = 0 /\ r = 32 * Z.of_nat sz) \/
      (2 ^ (32 * Z.of_nat sz - 1 - r) <= num sz data < 2 ^ (32 * Z.of_nat sz - r)))) /\
  (exists r, ntz sz data = Some r /\
     ((num sz data = 0 /\ r = 32 * Z.of_nat sz) \/
      exists m, num sz data = (2 * m + 1) * 2 ^ r)) /\
  slow_msb_pos v = Some (msb_pos v) /\ msb_pos v = Z.log2 v /\ ntz_core_float v = ntz_core v.
Proof.
  intros Hw Hl Hsz Hv. split; [| split; [| split; [| split]]].
  - destruct (nlz_spec sz data Hw Hl Hsz) as (r & E & [H|[H ->]]); eexists; (split; [exact E |]);
      [by left | right].
    replace (32 * Z.of_nat sz - 1 - (32 * Z.of_nat sz - 1 - Z.log2 (num sz data))) with
      (Z.log2 (num sz data)) by lia.
    replace (32 * Z.of_nat sz - (32 * Z.of_nat sz - 1 - Z.log2 (num sz data))) with
      (Z.succ (Z.log2 (num sz data))) by lia.
    by apply Z.log2_spec.
  - destruct (ntz_spec sz data Hw Hl Hsz) as (r & E & [H|[_ H]]); exists r; auto.
  - unfold slow_msb_pos. rewrite slow_msb_pos_loop_log2, msb_pos_log2 by (simpl; lia). done.
  - by apply msb_pos_log2.
  - by apply ntz_core_float_eq.
Qed.

Lemma count_zeros_correct_witness :
  (exists r, nlz 2 [40; 0] = Some r /\
     ((num 2 [40; 0] = 0 /\ r = 32 * Z.of_nat 2) \/
      (2 ^ (32 * Z.of_nat 2 - 1 - r) <= num 2 [40; 0] < 2 ^ (32 * Z.of_nat 2 - r)))) /\
  (exists r, ntz 2 [40; 0] = Some r /\
     ((num 2 [40; 0] = 0 /\ r = 32 * Z.of_nat 2) \/
      exists m, num 2 [40; 0] = (2 * m + 1) * 2 ^ r)) /\
  slow_msb_pos 77 = Some (msb_pos 77) /\ msb_pos 77 = Z.log2 77 /\
  ntz_core_float 77 = ntz_core 77.
Proof.
  apply (count_zeros_correct 2 [40; 0] 77); [by repeat constructor | simpl; lia | lia | lia].
Defined.

(** Fixed-width arithmetic on arrays of [sz] words: [inc] and [dec] add and subtract 1 modulo
    [2^(32 sz)] and return false exactly when they wrap; [add] adds modulo [2^(32 sz)] and returns
    false exactly on overflow; [lt] is the order of the numbers. *)
Lemma word_arith_correct sz a b c :
  words a -> words b -> words c ->
  (sz <= length a)%nat -> (sz <= length b)%nat -> (sz <= length c)%nat ->
  (exists a' ok, inc sz a = Some (a', ok) /\ words a' /\
     num sz a' = (num sz a + 1) mod Bpow sz /\ ok = (num sz a + 1 <? Bpow sz)) /\
  (exists a' ok, dec sz a = Some (a', ok) /\ words a' /\
     num sz a' = (num sz a - 1) mod Bpow sz /\ ok = (0 <? num sz a)) /\
  (exists c' ok, add sz a b c = Some (c', ok) /\ words c' /\
     num sz c' = (num sz a + num sz b) mod Bpow sz /\ ok = (num sz a + num sz b <? Bpow sz)) /\
  lt sz a b = Some (num sz a <? num sz b).
Proof.
  intros Ha Hb Hc Hla Hlb Hlc. split; [| split; [| split]].
  - destruct (inc_spec sz a) as (a' & ok & E & _ & Hw & H & Hok & _); eauto 10.
  - destruct (dec_spec sz a) as (a' & ok & E & _ & Hw & H & Hok & _); eauto 10.
  - destruct (add_words_spec sz a b c) as (c' & ok & E & _ & Hw & H & Hok); eauto 10.
  - by apply lt_spec.
Qed.

Lemma word_arith_correct_witness :
  (exists a' ok, inc 2 [4294967295; 4294967295] = Some (a', ok) /\ words a' /\
     num 2 a' = (num 2 [4294967295; 4294967295] + 1) mod Bpow 2 /\
     ok = (num 2 [4294967295; 4294967295] + 1 <? Bpow 2)) /\
  (exists a' ok, dec 2 [4294967295; 4294967295] = Some (a', ok) /\ words a' /\
     num 2 a' = (num 2 [4294967295; 4294967295] - 1) mod Bpow 2 /\
     ok = (0 <? num 2 [4294967295; 4294967295])) /\
  (exists c' ok, add 2 [4294967295; 4294967295] [1; 7] [0; 0] = Some (c', ok) /\ words c' /\
     num 2 c' = (num 2 [4294967295; 4294967295] + num 2 [1; 7]) mod Bpow 2 /\
     ok = (num 2 [4294967295; 4294967295] + num 2 [1; 7] <? Bpow 2)) /\
  lt 2 [4294967295; 4294967295] [1; 7] =
    Some (num 2 [4294967295; 4294967295] <? num 2 [1; 7]).
Proof.
  apply (word_arith_correct 2 [4294967295; 4294967295] [1; 7] [0; 0]);
    solve [by repeat constructor | simpl; lia].
Defined.

(** A shift right by 0 of two or more words is undefined behaviour (the complementary shift is
    by the full width of [unsigned]), although the comment on [shr] does not ask for [k <> 0]. *)
Lemma shr_by_zero sz src dst :
  (2 <= sz <= length src)%nat -> length dst = sz -> shr sz src 0 dst = None.
Proof.
  intros [H1 H2] Hd. unfold shr. cbv zeta. change (0 / 32)%nat with 0%nat. change (0 mod 32)%nat with 0%nat.
  rewrite (proj2 (Nat.leb_gt sz 0)), Nat.sub_0_r, Nat.ltb_irrefl by lia.
  destruct sz as [|[|n]]; [lia.. |]. unfold shr_loop. rewrite Nat.sub_succ, Nat.sub_0_r.
  cbn [for_up]. rewrite !(rd_ok src) by lia. done.
Qed.

End bit_util_properties.
