(* ===== verification/Mpfx.v ===== *)
(** * Mpfx: multi precision fixed point numbers ([util/mpfx.cpp])

    A manager keeps the words of all its numerals in one array [m_words]; a numeral is a sign and
    the index of its block there, index 0 being shared by every zero.  The code passes numerals by
    reference and lets them alias, so they live in a store [nums] indexed by address.  Operations
    run in a monad with the manager's state and C++ exceptions; [None] is undefined behaviour or
    non-termination.  Natural-number parameters stand for [mpz] and [mpq] arguments by the integers
    they denote. *)
From S2P Require Import Prelude.
From S2P Require Import Words.
From S2P Require Import Mpn.
From S2P Require Import BitUtil.
From Stdlib Require Import ZArith Lia.
From stdpp Require Import base tactics option list numbers decidable fin_maps functions.
Open Scope Z_scope.
Open Scope word_scope.

Module mpfx_manager.

Record mpfx := Mpfx { m_sign : bool; m_sig_idx : nat }.

(** The objects of type [mpfx]: a client's variables, the manager's own [m_one], and the
    [scoped_mpfx] temporaries of a function. *)
Inductive addr := Var (n : nat) | One | Tmp (n : nat).
#[export] Instance addr_eq_dec : EqDecision addr.
Proof. solve_decision. Defined.

Inductive exn := overflow_exception | div0_exception.

Record state := State {
  m_int_part_sz : nat; m_frac_part_sz : nat; m_total_sz : nat;
  m_words : list Z; m_capacity : nat; m_to_plus_inf : bool;
  m_next_id : nat; m_free_ids : list nat;
  m_buffer0 : list Z; m_buffer1 : list Z; m_buffer2 : list Z;
  nums : addr -> mpfx }.

Definition with_words (w : list Z) (cap : nat) (s : state) : state :=
  State (m_int_part_sz s) (m_frac_part_sz s) (m_total_sz s) w cap (m_to_plus_inf s)
    (m_next_id s) (m_free_ids s) (m_buffer0 s) (m_buffer1 s) (m_buffer2 s) (nums s).
Definition with_ids (next : nat) (free : list nat) (s : state) : state :=
  State (m_int_part_sz s) (m_frac_part_sz s) (m_total_sz s) (m_words s) (m_capacity s)
    (m_to_plus_inf s) next free (m_buffer0 s) (m_buffer1 s) (m_buffer2 s) (nums s).
Definition with_buffers (b0 b1 b2 : list Z) (s : state) : state :=
  State (m_int_part_sz s) (m_frac_part_sz s) (m_total_sz s) (m_words s) (m_capacity s)
    (m_to_plus_inf s) (m_next_id s) (m_free_ids s) b0 b1 b2 (nums s).
Definition with_num (x : addr) (n : mpfx) (s : state) : state :=
  State (m_int_part_sz s) (m_frac_part_sz s) (m_total_sz s) (m_words s) (m_capacity s)
    (m_to_plus_inf s) (m_next_id s) (m_free_ids s) (m_buffer0 s) (m_buffer1 s) (m_buffer2 s)
    (<[x := n]> (nums s)).

(** ** The monad *)

Inductive outcome (A : Type) : Type := Val (a : A) | Throw (e : exn).
Arguments Val {A} a.
Arguments Throw {A} e.

Definition M (A : Type) : Type := state -> option (outcome A * state).
#[export] Instance M_ret : MRet M := fun A a s => Some (Val a, s).
#[export] Instance M_bind : MBind M := fun A B f m s =>
  match m s with
  | None => None
  | Some (Throw e, s') => Some (Throw e, s')
  | Some (Val a, s') => f a s'
  end.
Definition gets {A} (f : state -> A) : M A := fun s => Some (Val (f s), s).
Definition modify (f : state -> state) : M unit := fun s => Some (Val tt, f s).
Definition lift {A} (o : option A) : M A := fun s => a ← o; Some (Val a, s).
Definition throw {A} (e : exn) : M A := fun s => Some (Throw e, s).

(** A scope that destroys the temporaries [ts] however it is left. *)
Definition scoped {A} (del : addr -> M unit) (ts : list addr) (m : M A) : M A := fun s =>
  '(r, s) ← m s;
  let fix destroy ts s :=
    match ts with
    | [] => Some s
    | t :: ts => '(_, s) ← del t s; destroy ts (with_num t (Mpfx false 0) s)
    end in
  s ← destroy ts s;
  Some (r, s).

(** ** Numerals and their words *)

Definition num_at (x : addr) : M mpfx := gets (fun s => nums s x).
Definition set_sign (x : addr) (b : bool) : M unit :=
  n ← num_at x; modify (with_num x (Mpfx b (m_sig_idx n))).
Definition set_sig_idx (x : addr) (i : nat) : M unit :=
  n ← num_at x; modify (with_num x (Mpfx (m_sign n) i)).

(** The block of [m_words] that starts at [words(n)]. *)
Definition block (s : state) (i : nat) : list Z :=
  take (m_total_sz s) (drop (i * m_total_sz s) (m_words s)).
Definition words (x : addr) : M (list Z) := fun s =>
  let i := m_sig_idx (nums s x) in
  if ((i + 1) * m_total_sz s <=? length (m_words s))%nat then Some (Val (block s i), s) else None.
Definition put_words (x : addr) (w : list Z) : M unit := fun s =>
  let i := m_sig_idx (nums s x) in
  Some (Val tt, with_words (take (i * m_total_sz s) (m_words s) ++ w ++
                            drop ((i + 1) * m_total_sz s) (m_words s)) (m_capacity s) s).

(** [id_gen] *)
Definition mk : M nat := fun s =>
  match reverse (m_free_ids s) with
  | [] => Some (Val (m_next_id s), with_ids (m_next_id s + 1) (m_free_ids s) s)
  | r :: rest => Some (Val r, with_ids (m_next_id s) (reverse rest) s)
  end.
Definition recycle (id : nat) : M unit :=
  modify (fun s => with_ids (m_next_id s) (m_free_ids s ++ [id]) s).

Definition expand : M unit :=
  modify (fun s => with_words
    (mpn_manager.resize (2 * m_capacity s * m_total_sz s) (m_words s)) (2 * m_capacity s) s).

Fixpoint ensure_capacity (fuel sig_idx : nat) : M unit :=
  match fuel with
  | O => lift None
  | S fuel' =>
      cap ← gets m_capacity;
      if (cap <=? sig_idx)%nat then expand;; ensure_capacity fuel' sig_idx else mret tt
  end.

Definition allocate (n : addr) : M unit :=
  sig_idx ← mk;
  ensure_capacity (sig_idx + 1) sig_idx;;
  set_sig_idx n sig_idx.

Definition is_zero (n : addr) : M bool := n ← num_at n; mret (m_sig_idx n =? 0)%nat.
Definition is_neg (n : addr) : M bool := n ← num_at n; mret (m_sign n).
Definition is_pos (n : addr) : M bool :=
  n ← num_at n; mret (negb (m_sign n) && negb (m_sig_idx n =? 0)%nat).

Definition allocate_if_needed (n : addr) : M unit :=
  z ← is_zero n; if (z : bool) then allocate n else mret tt.

Definition zero_fill (lo n : nat) (w : list Z) : option (list Z) :=
  for_up n lo (fun i w => wr w i 0) w.

Definition del (n : addr) : M unit :=
  x ← num_at n;
  if negb (m_sig_idx x =? 0)%nat then
    recycle (m_sig_idx x);;
    total ← gets m_total_sz;
    w ← words n;
    w ← lift (zero_fill 0 total w);
    put_words n w
  else mret tt.

Definition reset (n : addr) : M unit :=
  del n;; modify (with_num n (Mpfx false 0)).

(** [mpfx_manager(int_sz, frac_sz, initial_capacity)], before [set(m_one, 1)]. *)
Definition init_state (int_sz frac_sz initial_capacity : nat) : state :=
  let total := (int_sz + frac_sz)%nat in
  State int_sz frac_sz total (replicate (initial_capacity * total) 0) initial_capacity false
    1 [] (replicate (2 * total) 0) (replicate (2 * total) 0) (replicate (2 * total) 0)
    (fun _ => Mpfx false 0).

(** ** Tests *)

(** [for (i = lo; i < lo + n; i++) if (w[i] != 0) return false; return true;] *)
Definition all_zero (lo n : nat) (w : list Z) : option bool :=
  c ← for_up_ret n lo (fun i (_ : unit) =>
        d ← rd w i; Some (if d =? 0 then Next tt else Ret false)) tt;
  Some (match c with Next _ => true | Ret r => r end).

Definition is_int (n : addr) : M bool :=
  frac ← gets m_frac_part_sz;
  w ← words n;
  lift (all_zero 0 frac w).

Definition is_abs_one (n : addr) : M bool :=
  frac ← gets m_frac_part_sz;
  int ← gets m_int_part_sz;
  i ← is_int n;
  w ← words n;
  if (i : bool) then
    x ← lift (rd w frac);
    if x =? 1 then lift (bit_util.is_zero (int - 1) (drop (frac + 1) w)) else mret false
  else mret false.

Definition is_int64 (a : addr) : M bool :=
  frac ← gets m_frac_part_sz;
  int ← gets m_int_part_sz;
  i ← is_int a;
  if negb i then mret false else
  z ← is_zero a;
  if z || (int <=? 1)%nat then mret true else
  w ← words a;
  let w := drop frac w in
  w1 ← lift (rd w 1);
  neg ← is_neg a;
  if (w1 <? 2147483648) || ((w1 =? 2147483648) && neg) then lift (all_zero 2 (int - 2) w)
  else mret false.

Definition is_uint64 (a : addr) : M bool :=
  frac ← gets m_frac_part_sz;
  int ← gets m_int_part_sz;
  total ← gets m_total_sz;
  i ← is_int a;
  neg ← is_neg a;
  if negb i || neg then mret false else
  z ← is_zero a;
  if z || (int <=? 2)%nat then mret true else
  w ← words a;
  lift (all_zero (frac + 2) (total - (frac + 2)) w).

(** ** Assignment *)

Definition set_unsigned (n : addr) (v : Z) : M unit :=
  if v =? 0 then reset n
  else
    allocate_if_needed n;;
    set_sign n false;;
    total ← gets m_total_sz;
    frac ← gets m_frac_part_sz;
    w ← words n;
    w ← lift (zero_fill 0 total w);
    w ← lift (wr w frac v);
    put_words n w.

(** [-v] is undefined for the least [int]. *)
Definition set_int (n : addr) (v : Z) : M unit :=
  if v =? 0 then reset n
  else if v <? 0 then
    if v =? -2147483648 then lift None else
    set_unsigned n (- v);; set_sign n true
  else set_unsigned n v.

Definition set_uint64 (n : addr) (v : Z) : M unit :=
  int ← gets m_int_part_sz;
  if (int =? 1)%nat && (4294967295 <? v) then throw overflow_exception else
  if v =? 0 then reset n
  else
    allocate_if_needed n;;
    set_sign n false;;
    total ← gets m_total_sz;
    frac ← gets m_frac_part_sz;
    w ← words n;
    w ← lift (zero_fill 0 total w);
    w ← lift (wr w frac (u32 v));
    w ← (if (int =? 1)%nat then mret w else lift (wr w (frac + 1) (v ≫ 32)));
    put_words n w.

Definition set_int64 (n : addr) (v : Z) : M unit :=
  int ← gets m_int_part_sz;
  if (int =? 1)%nat && ((v <? -4294967295) || (4294967295 <? v)) then throw overflow_exception else
  if v =? 0 then reset n
  else if v <? 0 then
    if v =? -9223372036854775808 then lift None else
    set_uint64 n (- v);; set_sign n true
  else set_uint64 n v.

(** [set(n, v)] *)
Definition set (n v : addr) : M unit :=
  z ← is_zero v;
  if (z : bool) then reset n
  else
    allocate_if_needed n;;
    neg ← is_neg v;
    set_sign n neg;;
    total ← gets m_total_sz;
    w1 ← words n;
    w2 ← words v;
    w1 ← lift (for_up total 0 (fun i w1 => x ← rd w2 i; wr w1 i x) w1);
    put_words n w1.

(** [mpz_manager::decompose]: the sign and the digits of the magnitude, at least one. *)
Fixpoint digits (fuel : nat) (v : Z) : list Z :=
  match fuel with
  | O => []
  | S fuel' => u32 v :: (if v ≫ 32 =? 0 then [] else digits fuel' (v ≫ 32))
  end.
Definition decompose (v : Z) : bool * list Z :=
  (v <? 0, digits (S (Z.to_nat (Z.log2 (Z.abs v)))) (Z.abs v)).

Definition set_mpz (n : addr) (v : Z) : M unit :=
  if v =? 0 then reset n
  else
    allocate_if_needed n;;
    let '(sgn, ds) := decompose v in
    set_sign n sgn;;
    int ← gets m_int_part_sz;
    frac ← gets m_frac_part_sz;
    if (int <? length ds)%nat then throw overflow_exception else
    w ← words n;
    w ← lift (zero_fill 0 frac w);
    wi ← lift (bit_util.copy (length ds) ds int (drop frac w));
    put_words n (take frac w ++ wi).

(** [v] is the rational [numer / denom]. *)
Definition set_mpq (n : addr) (numer denom : Z) : M unit :=
  if denom =? 1 then set_mpz n numer
  else
    allocate_if_needed n;;
    neg ← is_neg n;
    set_sign n neg;;
    frac ← gets m_frac_part_sz;
    total ← gets m_total_sz;
    plus_inf ← gets m_to_plus_inf;
    let tmp := Z.abs (numer * 2 ^ (32 * Z.of_nat frac)) in
    let tmp := if xorb neg plus_inf && negb (tmp mod denom =? 0) then tmp / denom + 1
               else tmp / denom in
    let ds := snd (decompose tmp) in
    if (total <? length ds)%nat then throw overflow_exception else
    w ← words n;
    w ← lift (bit_util.copy (length ds) ds total w);
    put_words n w.

(** ** Comparison *)

Definition eq (a b : addr) : M bool :=
  za ← is_zero a;
  zb ← is_zero b;
  if za && zb then mret true else
  if za || zb then mret false else
  x ← num_at a;
  y ← num_at b;
  if xorb (m_sign x) (m_sign y) then mret false else
  total ← gets m_total_sz;
  w1 ← words a;
  w2 ← words b;
  c ← lift (for_up_ret total 0 (fun i (_ : unit) =>
        d1 ← rd w1 i; d2 ← rd w2 i; Some (if d1 =? d2 then Next tt else Ret false)) tt);
  mret (match c with Next _ => true | Ret r => r end).

Definition lt (a b : addr) : M bool :=
  total ← gets m_total_sz;
  za ← is_zero a;
  zb ← is_zero b;
  neg_a ← is_neg a;
  neg_b ← is_neg b;
  if (za : bool) then mret (negb zb && negb neg_b)
  else if (zb : bool) then mret neg_a
  else if (neg_a : bool) then
    pos_b ← is_pos b;
    if (pos_b : bool) then mret true else
    w_b ← words b; w_a ← words a; lift (bit_util.lt total w_b w_a)
  else
    pos_b ← is_pos b;
    if (pos_b : bool) then w_a ← words a; w_b ← words b; lift (bit_util.lt total w_a w_b)
    else mret false.

Definition neg (a : addr) : M unit :=
  z ← is_zero a; x ← num_at a;
  if (z : bool) then mret tt else set_sign a (negb (m_sign x)).
Definition abs (a : addr) : M unit := set_sign a false.

(** ** Arithmetic *)

(** Reads the words [w] of operand [x]; when the result [c] is the same object, its words as they
    are being overwritten. *)
Definition operand (rd : list Z -> nat -> option Z) (x c : mpfx) (w : list Z)
    : list Z -> nat -> option Z :=
  if (m_sig_idx x =? m_sig_idx c)%nat then rd else fun _ => rd w.

Definition add_sub (is_sub : bool) (a b c : addr) : M unit :=
  za ← is_zero a;
  zb ← is_zero b;
  if (za : bool) then set c b;; (if is_sub then neg c else mret tt)
  else if (zb : bool) then set c a
  else
    allocate_if_needed c;;
    na ← num_at a;
    nb ← num_at b;
    nc ← num_at c;
    total ← gets m_total_sz;
    w_a ← words a;
    w_b ← words b;
    w_c ← words c;
    let sgn_a := m_sign na in
    let sgn_b := if is_sub then negb (m_sign nb) else m_sign nb in
    if eqb sgn_a sgn_b then
      set_sign c sgn_a;;
      '(w_c, ok) ← lift (bit_util.add_at (operand rd na nc w_a) (operand rd nb nc w_b) total w_c);
      put_words c w_c;;
      if (ok : bool) then mret tt else throw overflow_exception
    else
      let digit l j := mpn_manager.digit_at l total j in
      less ← lift (bit_util.lt total w_a w_b);
      if (less : bool) then
        set_sign c sgn_b;;
        '(w_c, _) ← lift (mpn_manager.sub_loop (operand digit nb nc w_b) (operand digit na nc w_a)
                            (total `max` total) w_c);
        put_words c w_c
      else
        set_sign c sgn_a;;
        '(w_c, _) ← lift (mpn_manager.sub_loop (operand digit na nc w_a) (operand digit nb nc w_b)
                            (total `max` total) w_c);
        put_words c w_c;;
        z ← lift (bit_util.is_zero total w_c);
        if (z : bool) then reset c else mret tt.

Definition add : addr -> addr -> addr -> M unit := add_sub false.
Definition sub : addr -> addr -> addr -> M unit := add_sub true.

(** [allocate_if_needed(c); c.m_sign = a.m_sign ^ b.m_sign;] and the sign. *)
Definition prepare (a b c : addr) : M bool :=
  allocate_if_needed c;;
  na ← num_at a;
  nb ← num_at b;
  let sgn := xorb (m_sign na) (m_sign nb) in
  set_sign c sgn;;
  mret sgn.

Definition mul (a b c : addr) : M unit :=
  za ← is_zero a;
  zb ← is_zero b;
  if za || zb then reset c
  else
    sgn ← prepare a b c;
    int ← gets m_int_part_sz;
    frac ← gets m_frac_part_sz;
    total ← gets m_total_sz;
    plus_inf ← gets m_to_plus_inf;
    w_a ← words a;
    w_b ← words b;
    r ← gets m_buffer0;
    r ← lift (mpn_manager.mul w_a total w_b total r);
    modify (fun s => with_buffers r (m_buffer1 s) (m_buffer2 s) s);;
    exact ← lift (bit_util.is_zero frac r);
    _r ← (if xorb sgn plus_inf && negb exact then
            '(_r, ok) ← lift (bit_util.inc total (drop frac r));
            modify (fun s => with_buffers (take frac r ++ _r) (m_buffer1 s) (m_buffer2 s) s);;
            if (ok : bool) then mret _r else throw overflow_exception
          else mret (drop frac r));
    fits ← lift (bit_util.is_zero int (drop total _r));
    if negb fits then throw overflow_exception else
    w_c ← words c;
    w_c ← lift (for_up total 0 (fun i w_c => x ← rd _r i; wr w_c i x) w_c);
    put_words c w_c.

(** [sz(ws)]: below index 0 the loop leaves the array. *)
Definition sz (total : nat) (ws : list Z) : option nat :=
  c ← for_dn_ret total (fun r (_ : unit) =>
        d ← rd ws r; Some (if negb (d =? 0) then Ret (r + 1)%nat else Next tt)) tt;
  match c with Ret r => Some r | Next _ => None end.

Definition set_epsilon (n : addr) : M unit :=
  total ← gets m_total_sz;
  w ← words n;
  w ← lift (wr w 0 1);
  w ← lift (zero_fill 1 (total - 1) w);
  put_words n w.
Definition set_minus_epsilon (n : addr) : M unit := set_epsilon n;; set_sign n true.
Definition set_plus_epsilon (n : addr) : M unit := set_epsilon n;; set_sign n false.

(** [for (i < n) { if (w_q[i] != 0) zero_q = false; w_c[i] = w_q[i]; }] *)
Definition copy_quot (n : nat) (w_q w_c : list Z) : option (list Z * bool) :=
  for_up n 0 (fun i '(w_c, zero_q) =>
    x ← rd w_q i;
    w_c ← wr w_c i x;
    Some (w_c, if negb (x =? 0) then false else zero_q)) (w_c, true).

Definition div (a b c : addr) : M unit :=
  zb ← is_zero b;
  if (zb : bool) then throw div0_exception else
  za ← is_zero a;
  if (za : bool) then reset c
  else
    sgn ← prepare a b c;
    frac ← gets m_frac_part_sz;
    total ← gets m_total_sz;
    plus_inf ← gets m_to_plus_inf;
    let round_up := xorb sgn plus_inf in
    w_a ← words a;
    sz_a ← lift (sz total w_a);
    let a_shft_sz := (sz_a + frac)%nat in
    w_a_shft ← gets m_buffer0;
    w_a_shft ← lift (zero_fill 0 frac w_a_shft);
    w_a_shft ← lift (for_up total 0 (fun i w => x ← rd w_a i; wr w (i + frac) x) w_a_shft);
    modify (fun s => with_buffers w_a_shft (m_buffer1 s) (m_buffer2 s) s);;
    w_b ← words b;
    b_sz ← lift (sz total w_b);
    if (a_shft_sz <? b_sz)%nat then
      if round_up then set_epsilon c else reset c
    else
      let q_sz := (a_shft_sz - b_sz + 1)%nat in
      w_q ← gets m_buffer1;
      w_r ← gets m_buffer2;
      '(_, w_q, w_r) ← lift (mpn_manager.div w_a_shft a_shft_sz w_b b_sz w_q w_r);
      modify (fun s => with_buffers w_a_shft w_q w_r s);;
      fits ← lift (all_zero total (q_sz - total) w_q);
      if negb fits then throw overflow_exception else
      exact ← lift (bit_util.is_zero b_sz w_r);
      w_q ← (if round_up && negb exact then
               '(w_q, ok) ← lift (bit_util.inc total w_q);
               modify (fun s => with_buffers w_a_shft w_q w_r s);;
               if (ok : bool) then mret w_q else throw overflow_exception
             else mret w_q);
      w_c ← words c;
      '(w_c, zero_q) ← (if (q_sz <=? total)%nat then
          '(w_c, zero_q) ← lift (copy_quot q_sz w_q w_c);
          w_c ← lift (zero_fill q_sz (total - q_sz) w_c);
          mret (w_c, zero_q)
        else lift (copy_quot total w_q w_c));
      put_words c w_c;;
      if (zero_q : bool) then (if round_up then set_epsilon c else reset c) else mret tt.

Definition set_int_frac (n : addr) (num den : Z) : M unit :=
  scoped del [Tmp 1; Tmp 0] (set_int (Tmp 0) num;; set_unsigned (Tmp 1) den;; div (Tmp 0) (Tmp 1) n).
Definition set_int64_frac (n : addr) (num den : Z) : M unit :=
  scoped del [Tmp 1; Tmp 0] (set_int64 (Tmp 0) num;; set_uint64 (Tmp 1) den;; div (Tmp 0) (Tmp 1) n).

Definition div2k (a : addr) (k : nat) : M unit :=
  z ← is_zero a;
  if negb z && (0 <? k)%nat then
    total ← gets m_total_sz;
    plus_inf ← gets m_to_plus_inf;
    n ← num_at a;
    w ← words a;
    lost ← lift (bit_util.has_one_at_first_k_bits total w k);
    let _inc := xorb (m_sign n) plus_inf && lost in
    w ← lift (bit_util.shr_inplace total k w);
    put_words a w;;
    if (_inc : bool) then
      '(w, _) ← lift (bit_util.inc total w);
      put_words a w
    else
      z ← lift (bit_util.is_zero total w);
      if (z : bool) then reset a else mret tt
  else mret tt.

(** [for (i < frac) { if (w[i] != 0) { is_int = false; w[i] = 0; } }] *)
Definition clear_frac (frac : nat) (w : list Z) : option (list Z * bool) :=
  for_up frac 0 (fun i '(w, is_int) =>
    x ← rd w i;
    if negb (x =? 0) then w ← wr w i 0; Some (w, false) else Some (w, is_int)) (w, true).

(** The common part of [floor] and [ceil]; [away] tells whether a fraction rounds away from 0. *)
Definition round_int (away : bool) (n : addr) : M unit :=
  int ← gets m_int_part_sz;
  frac ← gets m_frac_part_sz;
  w ← words n;
  w ← (if away then
         '(w, is_int) ← lift (clear_frac frac w);
         put_words n w;;
         if negb is_int then
           '(wi, ok) ← lift (bit_util.inc int (drop frac w));
           put_words n (take frac w ++ wi);;
           if negb ok then throw overflow_exception else mret (take frac w ++ wi)
         else mret w
       else
         w ← lift (zero_fill 0 frac w);
         put_words n w;;
         mret w);
  z ← lift (bit_util.is_zero int (drop frac w));
  if (z : bool) then reset n else mret tt.

Definition floor (n : addr) : M unit := away ← is_neg n; round_int away n.
Definition ceil (n : addr) : M unit := away ← is_pos n; round_int away n.

Definition SMALL_POWER : Z := 8.

(** [while (p > 0) { --p; mul(a, b, b); }] *)
Fixpoint power_small (p : nat) (a b : addr) : M unit :=
  match p with
  | O => mret tt
  | S p' => mul a b b;; power_small p' a b
  end.

(** [while (mask <= p) { ...; mask = mask << 1; }] on 32 bit words. *)
Fixpoint power_loop (fuel : nat) (mask p : Z) (b pw : addr) : M unit :=
  match fuel with
  | O => lift None
  | S fuel' =>
      if mask <=? p then
        (if negb (Z.land mask p =? 0) then mul b pw b else mret tt);;
        mul pw pw pw;;
        power_loop fuel' (u32 (mask ≪ 1)) p b pw
      else mret tt
  end.

Definition power (a : addr) (p : Z) (b : addr) : M unit :=
  za ← is_zero a;
  if (za : bool) then reset b
  else if p =? 0 then set_int b 1
  else if p =? 1 then set b a
  else if p =? 2 then mul a a b
  else if (p <=? SMALL_POWER) && negb (bool_decide (a = b)) then
    set b a;; power_small (Z.to_nat (p - 1)) a b
  else
    scoped del [Tmp 0] (
      set (Tmp 0) a;;
      set_int b 1;;
      power_loop 33 1 p b (Tmp 0)).

(** ** Conversions *)

(** [util.h]'s [is_power_of_two] on [unsigned] and [util.cpp]'s [log2]. *)
Definition is_power_of_two_word (v : Z) : bool := (Z.land v (v ⊖ 1) =? 0) && negb (v =? 0).
Definition log2 (v : Z) : Z :=
  let step '(v, r) '(m, k) :=
    if negb (Z.land v m =? 0) then (v ≫ k, Z.lor r k) else (v, r) in
  snd (fold_left step [(4294901760, 16); (65280, 8); (240, 4); (12, 2); (2, 1)] (v, 0)).

(** Returns [k] when the answer is true. *)
Definition is_power_of_two (a : addr) : M (option Z) :=
  frac ← gets m_frac_part_sz;
  total ← gets m_total_sz;
  i ← is_int a;
  z ← is_zero a;
  if negb i || z then mret None else
  w ← words a;
  s ← lift (sz total w);
  let i := (s - 1)%nat in
  x ← lift (rd w i);
  if negb (is_power_of_two_word x) then mret None else
  let k := u32 (u32 (32 * (Z.of_nat i - Z.of_nat frac)) + log2 x) in
  c ← lift (for_dn_ret (i - frac) (fun j (_ : unit) =>
        d ← rd w (frac + j); Some (if negb (d =? 0) then Ret false else Next tt)) tt);
  mret (match c with Ret _ => None | Next _ => Some k end).

(** [memcpy(&r, w, sizeof(uint64_t))] at the integer part: two words of [m_words], the second one
    in the next block when the integer part has a single word. *)
Definition two_words (n : addr) : M Z := fun s =>
  let i := (m_sig_idx (nums s n) * m_total_sz s + m_frac_part_sz s)%nat in
  lo ← rd (m_words s) i;
  hi ← rd (m_words s) (i + 1);
  Some (Val (lo + 4294967296 * hi), s).

(** The two's complement reading of a 64 bit word. *)
Definition to_int64 (x : Z) : Z := let x := u64 x in
  if x <? 9223372036854775808 then x else x - 18446744073709551616.

Definition get_int64 (n : addr) : M Z :=
  r ← two_words n;
  neg ← is_neg n;
  if r =? 9223372036854775808 then mret (-9223372036854775808)
  else mret (to_int64 (if (neg : bool) then - to_int64 r else r)).
Definition get_uint64 (n : addr) : M Z := two_words n.

Definition to_mpz (n : addr) : M Z :=
  int ← gets m_int_part_sz;
  frac ← gets m_frac_part_sz;
  w ← words n;
  neg ← is_neg n;
  let t := num int (drop frac w) in
  mret (if (neg : bool) then - t else t).

(** Numerator and denominator in lowest terms. *)
Definition to_mpq (n : addr) : M (Z * Z) :=
  frac ← gets m_frac_part_sz;
  total ← gets m_total_sz;
  w ← words n;
  neg ← is_neg n;
  let a := num total w in
  let b := 1 * 2 ^ (32 * Z.of_nat frac) in
  let g := Z.gcd a b in
  mret (if (neg : bool) then - (a / g) else a / g, b / g).

Definition prev_power_of_two (a : addr) : M Z :=
  pos ← is_pos a;
  if negb pos then mret 0 else
  int ← gets m_int_part_sz;
  frac ← gets m_frac_part_sz;
  w ← words a;
  k ← lift (bit_util.nlz int (drop frac w));
  mret (u32 (32 * Z.of_nat int - k - 1)).

(** [mpfx_manager(int_sz, frac_sz, initial_capacity)] *)
Definition create (int_sz frac_sz initial_capacity : nat) : option (outcome unit * state) :=
  set_int One 1 (init_state int_sz frac_sz initial_capacity).

End mpfx_manager.

(** ** Reasoning about the monad *)

Module Import mpfx_wp.
Import mpfx_manager.

(** [m] run in [s] is defined, and ends in [Q] when it returns and in [E] when it throws. *)
Definition wp {A} (m : M A) (s : state) (Q : A -> state -> Prop) (E : exn -> state -> Prop) : Prop :=
  match m s with
  | None => False
  | Some (Val a, s') => Q a s'
  | Some (Throw e, s') => E e s'
  end.

Lemma wp_bind {A B} (m : M A) (f : A -> M B) s Q E :
  wp m s (fun a s' => wp (f a) s' Q E) E -> wp (m ≫= f) s Q E.
Proof.
  unfold wp. change ((m ≫= f) s) with (M_bind _ _ f m s). unfold M_bind.
  destruct (m s) as [[[a|e] s']|]; auto.
Qed.

Lemma wp_mono {A} (m : M A) s (Q Q' : A -> state -> Prop) (E E' : exn -> state -> Prop) :
  wp m s Q E -> (forall a s', Q a s' -> Q' a s') -> (forall e s', E e s' -> E' e s') -> wp m s Q' E'.
Proof. unfold wp. destruct (m s) as [[[a|e] s']|]; auto. Qed.

Lemma wp_lift {A} (o : option A) a s Q E : o = Some a -> Q a s -> wp (lift o) s Q E.
Proof. intros -> H. exact H. Qed.

Lemma wp_run {A} (m : M A) s Q E : wp m s Q E -> (forall e s', E e s' -> False) ->
  exists a s', m s = Some (Val a, s') /\ Q a s'.
Proof. unfold wp. destruct (m s) as [[[a|e] s']|]; [eauto | naive_solver | done]. Qed.

(** One step of a computation whose head is a primitive of the monad. *)
Ltac wstep :=
  cbv beta iota zeta;
  lazymatch goal with
  | |- wp (mbind _ _) _ _ _ => apply wp_bind; wstep
  | |- wp (gets ?f) ?s ?Q ?E => change (Q (f s) s); cbv beta
  | |- wp (modify ?f) ?s ?Q ?E => change (Q tt (f s)); cbv beta
  | |- wp (mret ?a) ?s ?Q ?E => change (Q a s); cbv beta
  | |- wp (throw ?e) ?s ?Q ?E => change (E e s); cbv beta
  | |- wp (num_at ?x) ?s ?Q ?E => change (Q (nums s x) s); cbv beta
  | |- wp (is_zero ?x) ?s ?Q ?E => change (Q (m_sig_idx (nums s x) =? 0)%nat s); cbv beta
  | |- wp (is_neg ?x) ?s ?Q ?E => change (Q (m_sign (nums s x)) s); cbv beta
  | |- wp (is_pos ?x) ?s ?Q ?E =>
      change (Q (negb (m_sign (nums s x)) && negb (m_sig_idx (nums s x) =? 0)%nat) s); cbv beta
  | |- wp (set_sign ?x ?b) ?s ?Q ?E =>
      change (Q tt (with_num x (Mpfx b (m_sig_idx (nums s x))) s)); cbv beta
  | |- wp (set_sig_idx ?x ?i) ?s ?Q ?E =>
      change (Q tt (with_num x (Mpfx (m_sign (nums s x)) i) s)); cbv beta
  end.

End mpfx_wp.

(** ** The manager's memory *)

Module Import mpfx_memory.
Import mpfx_manager.
Implicit Types s : state.

Definition idx s (x : addr) : nat := m_sig_idx (nums s x).
Definition bval s (i : nat) : Z := num (m_total_sz s) (block s i).

(** The number [x] denotes, in units of the last fractional bit. *)
Definition sgn (b : bool) (v : Z) : Z := if b then - v else v.
Definition value s (x : addr) : Z := sgn (m_sign (nums s x)) (bval s (idx s x)).

Definition buffer_ok s (b : list Z) : Prop :=
  Prelude.words b /\ length b = (2 * m_total_sz s)%nat.

(** Blocks are owned by at most one numeral; block 0, the free blocks and those never handed out
    are zero. *)
Record wf s : Prop := {
  wf_int : (0 < m_int_part_sz s)%nat;
  wf_frac : (0 < m_frac_part_sz s)%nat;
  wf_total : m_total_sz s = (m_int_part_sz s + m_frac_part_sz s)%nat;
  wf_len : length (m_words s) = (m_capacity s * m_total_sz s)%nat;
  wf_w : Prelude.words (m_words s);
  wf_next : (1 <= m_next_id s <= m_capacity s)%nat;
  wf_lt : forall x, (idx s x < m_next_id s)%nat;
  wf_nodup : NoDup (m_free_ids s);
  wf_free : forall i, i ∈ m_free_ids s -> (0 < i < m_next_id s)%nat /\ forall x, idx s x <> i;
  wf_inj : forall x y, idx s x = idx s y -> idx s x <> 0%nat -> x = y;
  wf_zero : forall i, (i = 0%nat \/ forall x, idx s x <> i) -> bval s i = 0;
  wf_sign : forall x, idx s x = 0%nat -> m_sign (nums s x) = false;
  wf_b0 : buffer_ok s (m_buffer0 s);
  wf_b1 : buffer_ok s (m_buffer1 s);
  wf_b2 : buffer_ok s (m_buffer2 s) }.

(** [s'] differs from [s] at most in the numeral at [c] and the buffers. *)
Record upd (c : addr) s s' : Prop := {
  upd_int : m_int_part_sz s' = m_int_part_sz s;
  upd_frac : m_frac_part_sz s' = m_frac_part_sz s;
  upd_total : m_total_sz s' = m_total_sz s;
  upd_mode : m_to_plus_inf s' = m_to_plus_inf s;
  upd_num : forall x, x <> c -> nums s' x = nums s x;
  upd_blk : forall x, x <> c -> block s' (idx s x) = block s (idx s x) }.

Lemma upd_refl c s : upd c s s.
Proof. done. Qed.

Lemma upd_trans c s1 s2 s3 : upd c s1 s2 -> upd c s2 s3 -> upd c s1 s3.
Proof.
  intros [] []. split; try congruence.
  - intros x Hx. rewrite upd_num1, upd_num0 by done. done.
  - intros x Hx. rewrite <- upd_blk0 by done. unfold idx in *.
    rewrite <- (upd_num0 x) by done. by apply upd_blk1.
Qed.

Lemma upd_value c s s' x : upd c s s' -> x <> c -> value s' x = value s x.
Proof.
  intros H Hx. unfold value, bval, idx. rewrite (upd_num _ _ _ H) by done.
  by rewrite (upd_total _ _ _ H), (upd_blk _ _ _ H x Hx : block s' (m_sig_idx (nums s x)) = _).
Qed.

Lemma limb_block s i j : (j < m_total_sz s)%nat ->
  limb (block s i) j = limb (m_words s) (i * m_total_sz s + j).
Proof. intros H. unfold block. by rewrite limb_take, limb_drop by done. Qed.

Lemma wf_fit s i : wf s -> (i < m_next_id s)%nat -> ((i + 1) * m_total_sz s <= length (m_words s))%nat.
Proof.
  intros H Hi. rewrite (wf_len _ H). pose proof (wf_next _ H).
  apply Nat.mul_le_mono_r. lia.
Qed.

Lemma length_block s i : wf s -> (i < m_next_id s)%nat -> length (block s i) = m_total_sz s.
Proof.
  intros H Hi. pose proof (wf_fit s i H Hi). unfold block. rewrite length_take, length_drop. lia.
Qed.

Lemma words_block s i : wf s -> Prelude.words (block s i).
Proof. intros H. apply words_take, Forall_drop, wf_w, H. Qed.

Lemma bval_bound s i : wf s -> 0 <= bval s i < Bpow (m_total_sz s).
Proof. intros H. by apply num_bound, words_block. Qed.

Lemma wp_words s x Q E : wf s -> Q (block s (idx s x)) s -> wp (words x) s Q E.
Proof.
  intros H HQ. unfold wp, words. fold (idx s x).
  by rewrite (proj2 (Nat.leb_le _ _) (wf_fit s _ H (wf_lt _ H x))).
Qed.

(** Overwriting one block. *)
Definition put (i : nat) (w : list Z) s : state :=
  with_words (take (i * m_total_sz s) (m_words s) ++ w ++ drop ((i + 1) * m_total_sz s) (m_words s))
    (m_capacity s) s.

Lemma wp_put_words s x w (Q : unit -> state -> Prop) E : Q tt (put (idx s x) w s) -> wp (put_words x w) s Q E.
Proof. done. Qed.

Lemma block_put i w s j :
  length w = m_total_sz s -> ((i + 1) * m_total_sz s <= length (m_words s))%nat ->
  block (put i w s) j = if decide (j = i) then w else block s j.
Proof.
  intros Hw Hl. unfold block, put. cbn [m_total_sz m_words with_words].
  set (T := m_total_sz s) in *. set (l := m_words s) in *.
  assert (Hti : length (take (i * T) l) = (i * T)%nat) by (rewrite length_take; lia).
  case_decide as E.
  - subst j. rewrite drop_app_length' by done. apply take_app_length'. done.
  - destruct (decide (j < i)%nat) as [Hj|Hj].
    + assert ((j + 1) * T <= i * T)%nat by (apply Nat.mul_le_mono_r; lia).
      rewrite drop_app_le by lia. rewrite take_app_le by (rewrite length_drop; lia).
      by rewrite !take_drop_commute, take_take, Nat.min_l by lia.
    + assert ((i + 1) * T <= j * T)%nat by (apply Nat.mul_le_mono_r; lia).
      rewrite app_assoc, drop_app_ge by (rewrite length_app; lia).
      rewrite length_app, Hti, Hw, drop_drop. do 2 f_equal. lia.
Qed.

Lemma length_put i w s :
  length w = m_total_sz s -> ((i + 1) * m_total_sz s <= length (m_words s))%nat ->
  length (m_words (put i w s)) = length (m_words s).
Proof.
  intros Hw Hl. cbn [put with_words m_words].
  rewrite !length_app, length_take, length_drop, Hw. lia.
Qed.

Lemma words_put i w s :
  Prelude.words w -> Prelude.words (m_words s) -> Prelude.words (m_words (put i w s)).
Proof.
  intros Hw Hs. cbn [put with_words m_words].
  apply Forall_app; split; [by apply Forall_take |]. apply Forall_app; split; [done |].
  by apply Forall_drop.
Qed.

Lemma idx_with_num s x n y : idx (with_num x n s) y = if decide (y = x) then m_sig_idx n else idx s y.
Proof.
  unfold idx, with_num. cbn [nums]. case_decide as E.
  - subst. by rewrite fn_lookup_insert.
  - by rewrite fn_lookup_insert_ne.
Qed.

Lemma nums_with_num s x n y : nums (with_num x n s) y = if decide (y = x) then n else nums s y.
Proof.
  unfold with_num. cbn [nums]. case_decide as E.
  - subst. by rewrite fn_lookup_insert.
  - by rewrite fn_lookup_insert_ne.
Qed.

(** Writing the words of an allocated numeral. *)
Lemma wf_put s x w :
  wf s -> idx s x <> 0%nat -> length w = m_total_sz s -> Prelude.words w ->
  wf (put (idx s x) w s) /\ upd x s (put (idx s x) w s) /\
  bval (put (idx s x) w s) (idx s x) = num (m_total_sz s) w.
Proof.
  intros H Hx Hl Hw. pose proof (wf_fit s _ H (wf_lt _ H x)) as Hf.
  assert (Hb : forall j, bval (put (idx s x) w s) j = if decide (j = idx s x) then num (m_total_sz s) w
                         else bval s j).
  { intros j. unfold bval. rewrite block_put by done. by case_decide. }
  split; [| split].
  - destruct H. split; try done.
    + by rewrite length_put.
    + by apply words_put.
    + intros i Hi. rewrite Hb, decide_False; [by apply wf_zero0 |].
      intros ->. destruct Hi as [Hi|Hi]; [done |]. by apply (Hi x).
  - split; try done. intros y Hy. rewrite block_put by done. case_decide as E; [| done].
    exfalso. apply Hy. apply (wf_inj _ H); [done |]. by rewrite E.
  - by rewrite Hb, decide_True.
Qed.

Lemma wf_set_sign s x b :
  wf s -> idx s x <> 0%nat ->
  wf (with_num x (Mpfx b (idx s x)) s) /\ upd x s (with_num x (Mpfx b (idx s x)) s).
Proof.
  intros H Hx. set (s' := with_num _ _ s).
  assert (Hi : forall y, idx s' y = idx s y).
  { intros y. unfold s'. rewrite idx_with_num. case_decide; by subst. }
  split.
  - destruct H. split; try done.
    + intros y. rewrite Hi. apply wf_lt0.
    + intros i Hf. destruct (wf_free0 i Hf) as [? Hne]. split; [done |]. intros y. by rewrite Hi.
    + intros y z. rewrite !Hi. apply wf_inj0.
    + intros i Hz. apply wf_zero0. destruct Hz as [Hz|Hz]; [by left | right].
      intros y. rewrite <- Hi. apply Hz.
    + intros y. rewrite Hi. intros Hy. unfold s'. rewrite nums_with_num. case_decide; [by subst |].
      by apply wf_sign0.
  - split; try done. intros y Hy. unfold s'. by rewrite nums_with_num, decide_False.
Qed.

End mpfx_memory.

(** ** Allocation *)

Module Import mpfx_alloc.
Import mpfx_manager.
Implicit Types s : state.

Lemma zero_fill_ok w : zero_fill 0 (length w) w = Some (replicate (length w) 0).
Proof. by apply bit_util_array_facts.reset_spec. Qed.

(** The numeral at [x] gives its block back and becomes zero. *)
Definition released s (x : addr) : state :=
  with_num x (Mpfx false 0)
    (if decide (idx s x = 0%nat) then s
     else put (idx s x) (replicate (m_total_sz s) 0)
            (with_ids (m_next_id s) (m_free_ids s ++ [idx s x]) s)).


Lemma wf_released s x : wf s -> wf (released s x) /\ upd x s (released s x).
Proof.
  intros H. unfold released. case_decide as E0.
  - assert (Hn : nums s x = Mpfx false 0).
    { pose proof (wf_sign _ H x E0) as Hs. unfold idx in E0. destruct (nums s x). simpl in *. congruence. }
    assert (Hi : forall y, nums (with_num x (Mpfx false 0) s) y = nums s y).
    { intros y. rewrite nums_with_num. case_decide; by subst. }
    split; [| split; try done; intros y Hy; apply Hi].
    destruct H. unfold idx in *. split; unfold idx; try done.
    + intros y. rewrite Hi. apply wf_lt0.
    + intros i Hf. destruct (wf_free0 i Hf). split; [done |]. intros y. by rewrite Hi.
    + intros y z. rewrite !Hi. apply wf_inj0.
    + intros i Hz. apply wf_zero0. destruct Hz as [Hz|Hz]; [by left | right].
      intros y. rewrite <- Hi. apply Hz.
    + intros y. rewrite Hi. apply wf_sign0.
  - pose proof (wf_fit s _ H (wf_lt _ H x)) as Hf.
    set (s1 := with_ids _ _ s). set (s2 := put _ _ s1). set (s3 := with_num _ _ s2).
    assert (Hb : forall j, block s3 j = if decide (j = idx s x) then replicate (m_total_sz s) 0
                           else block s j).
    { intros j. change (block s3 j) with (block s2 j). unfold s2.
      rewrite block_put by (by rewrite ?length_replicate). done. }
    assert (Hi : forall y, idx s3 y = if decide (y = x) then 0%nat else idx s y).
    { intros y. unfold s3. rewrite idx_with_num. done. }
    split.
    + destruct H. split; try done.
      * change (length (m_words s2) = (m_capacity s * m_total_sz s)%nat). unfold s2.
        rewrite length_put by (by rewrite ?length_replicate). done.
      * change (Prelude.words (m_words s2)). apply words_put; [auto with words | done].
      * intros y. rewrite Hi. case_decide; [| apply wf_lt0].
        change (0 < m_next_id s)%nat. lia.
      * cbn. apply list.NoDup_app. split; [done |]. split; [| apply NoDup_singleton].
        intros i Hin ->%list_elem_of_singleton. destruct (wf_free0 _ Hin) as [_ Hne]. by apply (Hne x).
      * cbn. intros i [Hin|Hin%list_elem_of_singleton]%elem_of_app.
        -- destruct (wf_free0 _ Hin) as [Hr Hne]. split; [done |].
           intros y. rewrite Hi. case_decide; [lia | apply Hne].
        -- subst i. split; [pose proof (wf_lt0 x); lia |]. intros y. rewrite Hi.
           case_decide; [lia |]. intros E. apply H, wf_inj0; congruence.
      * intros y z. rewrite !Hi. repeat case_decide; intros; try congruence. by apply wf_inj0.
      * intros i Hz. unfold bval. rewrite Hb. case_decide; [apply num_replicate_0 |].
        apply wf_zero0. destruct Hz as [Hz|Hz]; [by left |]. right. intros y E.
        specialize (Hz y). rewrite Hi in Hz. case_decide; [by subst | done].
      * intros y. rewrite Hi. unfold s3. rewrite nums_with_num. case_decide; [done |]. apply wf_sign0.
    + split; try done.
      * intros y Hy. unfold s3. by rewrite nums_with_num, decide_False.
      * intros y Hy. rewrite Hb, decide_False; [done |]. intros E. apply Hy.
        apply (wf_inj _ H); [done |]. by rewrite E.
Qed.

Lemma del_run s x : wf s ->
  exists s1, del x s = Some (Val tt, s1) /\ with_num x (Mpfx false 0) s1 = released s x.
Proof.
  intros H. unfold released, del. unfold mbind, M_bind, num_at, gets.
  change (m_sig_idx (nums s x)) with (idx s x).
  destruct (Nat.eqb_spec (idx s x) 0) as [E0|E0]; cbn [negb].
  - exists s. by rewrite decide_True.
  - unfold recycle, modify. set (s1 := with_ids _ _ s).
    change (words x s1) with (if ((idx s x + 1) * m_total_sz s <=? length (m_words s))%nat
      then Some (Val (block s (idx s x)), s1) else None).
    rewrite (proj2 (Nat.leb_le _ _) (wf_fit s _ H (wf_lt _ H x))). unfold lift.
    change (m_total_sz s1) with (m_total_sz s).
    pose proof (zero_fill_ok (block s (idx s x))) as Ez.
    rewrite length_block in Ez by (done || apply wf_lt; done). rewrite Ez.
    eexists. split; [reflexivity |]. by rewrite decide_False.
Qed.

Lemma fx_reset_spec s x (Q : unit -> state -> Prop) E :
  wf s ->
  (forall s', wf s' -> upd x s s' -> nums s' x = Mpfx false 0 -> value s' x = 0 -> Q tt s') ->
  wp (reset x) s Q E.
Proof.
  intros H HQ. unfold reset. apply wp_bind. destruct (del_run s x H) as (s1 & Ed & Er).
  unfold wp at 1. rewrite Ed. wstep. rewrite Er. destruct (wf_released s x H) as [Hw Hu].
  assert (Hx : nums (released s x) x = Mpfx false 0).
  { unfold released. by rewrite nums_with_num, decide_True. }
  apply HQ; auto. unfold value, idx. rewrite Hx. cbn [m_sign m_sig_idx sgn].
  apply (wf_zero _ Hw). by left.
Qed.

(** Leaving the scope of a temporary. *)
Lemma scoped_spec {A} t (m : M A) s (Q : A -> state -> Prop) (E : exn -> state -> Prop) :
  let fin P s' := wf s' /\ (forall s'', wf s'' -> upd t s' s'' -> nums s'' t = Mpfx false 0 -> P s'') in
  wp m s (fun a => fin (Q a)) (fun e => fin (E e)) -> wp (scoped del [t] m) s Q E.
Proof.
  intros fin Hm. unfold wp, scoped in *. destruct (m s) as [[[a|e] s']|]; [| | done];
    destruct Hm as [H HP]; cbn [mbind option_bind];
    destruct (del_run s' t H) as (s1 & Ed & Er); rewrite Ed; cbn [mbind option_bind]; rewrite Er;
    destruct (wf_released s' t H) as [Hw Hu]; (apply HP; [done | done |]);
    unfold released; by rewrite nums_with_num, decide_True.
Qed.

(** *** Growing the array *)

Definition grown (k : nat) s : state :=
  with_words (m_words s ++ replicate (k * m_total_sz s) 0) (m_capacity s + k) s.

Lemma ensure_capacity_spec fuel i s :
  (i + 1 < m_capacity s + fuel)%nat -> (0 < fuel)%nat -> (1 <= m_capacity s)%nat ->
  length (m_words s) = (m_capacity s * m_total_sz s)%nat ->
  exists k, ensure_capacity fuel i s = Some (Val tt, grown k s) /\ (i < m_capacity s + k)%nat.
Proof.
  revert s. induction fuel as [|fuel IH]; intros s Hi Hf Hc Hl; [lia |].
  cbn [ensure_capacity]. change (m_capacity s <=? i)%nat with (m_capacity s <=? i)%nat.
  unfold mbind, M_bind, gets. destruct (Nat.leb_spec (m_capacity s) i).
  - unfold expand, modify.
    assert (Hres : mpn_manager.resize (2 * m_capacity s * m_total_sz s) (m_words s) =
      m_words s ++ replicate (m_capacity s * m_total_sz s) 0).
    { unfold mpn_manager.resize. rewrite take_ge by nia. do 2 f_equal. rewrite Hl. nia. }
    rewrite Hres. set (s1 := with_words _ _ s).
    assert (Hc1 : m_capacity s1 = (2 * m_capacity s)%nat) by done.
    assert (Ht1 : m_total_sz s1 = m_total_sz s) by done.
    destruct (IH s1) as (k & E & Hk); try lia.
    + rewrite Hc1, Ht1. cbn [s1 with_words m_words]. rewrite length_app, length_replicate, Hl. nia.
    + exists (m_capacity s + k)%nat. split; [| lia]. rewrite E. unfold grown, s1, with_words.
      cbn. do 3 f_equal; [| lia]. rewrite <- app_assoc, <- replicate_add. do 2 f_equal. nia.
  - exists 0%nat. split; [| lia]. unfold grown. cbn. rewrite app_nil_r, Nat.add_0_r. by destruct s.
Qed.

Lemma block_grown k s i :
  wf s -> bval (grown k s) i = bval s i /\
  ((i < m_next_id s)%nat -> block (grown k s) i = block s i).
Proof.
  intros H. split.
  - apply num_ext. cbn [m_total_sz grown with_words]. intros j Hj. rewrite !limb_block by done.
    cbn [m_words m_total_sz grown with_words].
    destruct (decide (i * m_total_sz s + j < length (m_words s))%nat).
    + by rewrite limb_app_l.
    + rewrite limb_app_r, (limb_ge (m_words s)) by lia.
      destruct (decide (i * m_total_sz s + j - length (m_words s) < k * m_total_sz s)%nat).
      * by rewrite limb_replicate.
      * apply limb_ge. rewrite length_replicate. lia.
  - intros Hi. pose proof (wf_fit s i H Hi). unfold block. cbn [m_words m_total_sz grown with_words].
    rewrite drop_app_le by lia. rewrite take_app_le by (rewrite length_drop; lia). done.
Qed.

(** A fresh, zero block for [x]. *)
Lemma allocate_spec s x (Q : unit -> state -> Prop) E :
  wf s -> idx s x = 0%nat ->
  (forall s', wf s' -> upd x s s' -> idx s' x <> 0%nat -> bval s' (idx s' x) = 0 -> Q tt s') ->
  wp (allocate x) s Q E.
Proof.
  intros H Hx HQ. unfold allocate. apply wp_bind.
  assert (Hgen : forall id next free k,
    let s1 := grown k (with_ids next free s) in
    let s' := with_num x (Mpfx (m_sign (nums s x)) id) s1 in
    (id <> 0 -> id < next -> m_next_id s <= next <= m_capacity s + k ->
    (forall y, idx s y <> id) -> NoDup free -> (forall i, i ∈ free -> i ∈ m_free_ids s /\ i <> id) ->
    Q tt s')%nat).
  { intros id next free k s1 s' Hid Hnx Hcap Hnew Hnd Hfr.
    assert (Hi : forall y, idx s' y = if decide (y = x) then id else idx s y).
    { intros y. unfold s'. rewrite idx_with_num. done. }
    assert (Hbv : forall i, bval s' i = bval s i) by (intros i; exact (proj1 (block_grown k s i H))).
    apply HQ.
    - destruct H. split; try done.
      + change (length (m_words s ++ replicate (k * m_total_sz s) 0) =
          ((m_capacity s + k) * m_total_sz s)%nat). rewrite length_app, length_replicate. lia.
      + apply Forall_app. split; [done | apply words_replicate, is_u32_0].
      + cbn. lia.
      + intros y. rewrite Hi. cbn. specialize (wf_lt0 y). case_decide; lia.
      + intros i Hin. destruct (Hfr i Hin) as [Hin' Hne]. destruct (wf_free0 i Hin') as [? Hno].
        split; [cbn; lia |]. intros y. rewrite Hi. case_decide; auto.
      + intros y z. rewrite !Hi. repeat case_decide; intros E1 E2;
          [congruence | by destruct (Hnew z) | by destruct (Hnew y) | by apply wf_inj0].
      + intros i Hz. rewrite Hbv. apply wf_zero0. destruct Hz as [Hz|Hz]; [by left |].
        destruct (decide (i = 0%nat)); [by left | right]. intros y. specialize (Hz y).
        rewrite Hi in Hz. case_decide; [subst; lia | done].
      + intros y. rewrite Hi. unfold s'. rewrite nums_with_num. case_decide; [done | apply wf_sign0].
    - split; try done.
      + intros y Hy. unfold s'. by rewrite nums_with_num, decide_False.
      + intros y Hy. apply (proj2 (block_grown k s (idx s y) H)), wf_lt, H.
    - by rewrite Hi, decide_True.
    - rewrite Hi, decide_True, Hbv by done. apply (wf_zero _ H). auto. }
  pose proof (wf_next _ H). pose proof (wf_len _ H) as Hlen.
  unfold wp at 1, mk. destruct (reverse (m_free_ids s)) as [|r rest] eqn:Er.
  - set (s0 := with_ids _ _ s). apply wp_bind. unfold wp at 1.
    destruct (ensure_capacity_spec (m_next_id s + 1) (m_next_id s) s0) as (k & -> & Hk); try done; cbn; try lia.
    apply (Hgen (m_next_id s) (m_next_id s + 1)%nat (m_free_ids s) k); try lia.
    + cbn in Hk. lia.
    + intros y. pose proof (wf_lt _ H y). lia.
    + apply H.
    + intros i Hin. split; [done |]. pose proof (wf_free _ H i Hin). lia.
  - assert (Ef : m_free_ids s = reverse rest ++ [r]).
    { apply (f_equal reverse) in Er. rewrite reverse_involutive, reverse_cons in Er. done. }
    assert (Hr : r ∈ m_free_ids s) by (rewrite Ef; set_solver).
    destruct (wf_free _ H r Hr) as [Hrange Hno].
    set (s0 := with_ids _ _ s). apply wp_bind. unfold wp at 1.
    destruct (ensure_capacity_spec (r + 1) r s0) as (k & -> & Hk); try done; cbn; try lia.
    pose proof (wf_nodup _ H) as Hnd. rewrite Ef in Hnd. apply list.NoDup_app in Hnd as (Hnd & Hdis & _).
    apply (Hgen r (m_next_id s) (reverse rest) k); try lia; try done.
    intros i Hin. split; [rewrite Ef; set_solver |]. intros ->. apply (Hdis r); set_solver.
Qed.

Lemma allocate_if_needed_spec s x (Q : unit -> state -> Prop) E :
  wf s ->
  (forall s', wf s' -> upd x s s' -> idx s' x <> 0%nat ->
     (idx s x = 0%nat -> bval s' (idx s' x) = 0) ->
     (idx s x <> 0%nat -> s' = s) -> Q tt s') ->
  wp (allocate_if_needed x) s Q E.
Proof.
  intros H HQ. unfold allocate_if_needed. wstep. fold (idx s x).
  destruct (Nat.eqb_spec (idx s x) 0) as [E0|E0].
  - apply allocate_spec; auto. intros s' Hw Hu Hi Hb. by apply HQ.
  - wstep. by apply HQ; auto using upd_refl.
Qed.

End mpfx_alloc.
