(* ===== verification/MpfxArith.v ===== *)
(** * MpfxArith: correctness of the fixed point operations

    Weakest-precondition specifications of the operations of [Mpfx], for every aliasing of their
    arguments: the result has the exact or correctly rounded value, everything but the result is
    unchanged, and the manager's memory stays well formed, also when an exception is thrown. *)
From S2P Require Import Prelude.
From S2P Require Import Words.
From S2P Require Import Mpn.
From S2P Require Import BitUtil.
From S2P Require Import Mpfx.
From Stdlib Require Import ZArith Lia.
From stdpp Require Import base tactics option list numbers decidable fin_maps functions.
Open Scope Z_scope.
Open Scope word_scope.
Import mpfx_wp mpfx_memory mpfx_alloc.

(** ** Addition, subtraction, multiplication *)

Module Import mpfx_arith.
Import mpfx_manager.
Implicit Types s : state.

(** [check] of the source: an allocated numeral is not zero. *)
Definition check s x : Prop := idx s x <> 0%nat -> bval s (idx s x) <> 0.

Lemma value_unalloc s x : wf s -> idx s x = 0%nat -> value s x = 0.
Proof.
  intros H Hx. unfold value. rewrite Hx, (wf_zero _ H) by (by left). by destruct (m_sign _).
Qed.

Lemma sgn_zero b v : sgn b v = 0 <-> v = 0.
Proof. destruct b; simpl; lia. Qed.

Lemma check_value s x : wf s -> check s x -> value s x = 0 <-> idx s x = 0%nat.
Proof.
  intros H Hc. split; [| by apply value_unalloc]. unfold value. rewrite sgn_zero.
  intros E. destruct (decide (idx s x = 0%nat)); [done |]. by apply Hc in E.
Qed.

Lemma value_bound s x : wf s -> Z.abs (value s x) < Bpow (m_total_sz s).
Proof.
  intros H. pose proof (bval_bound s (idx s x) H). unfold value, sgn. destruct (m_sign _); lia.
Qed.

(** The last step of an operation: its result is written to [c]. *)
Lemma store_spec s c w (Q : unit -> state -> Prop) E :
  wf s -> idx s c <> 0%nat -> length w = m_total_sz s -> Prelude.words w ->
  (forall s', wf s' -> upd c s s' -> nums s' c = nums s c ->
     value s' c = sgn (m_sign (nums s c)) (num (m_total_sz s) w) ->
     (num (m_total_sz s) w <> 0 -> check s' c) -> Q tt s') ->
  wp (put_words c w) s Q E.
Proof.
  intros H Hc Hl Hw HQ. apply wp_put_words. destruct (wf_put s c w H Hc Hl Hw) as (Hwf & Hu & Hb).
  assert (Hi : idx (put (idx s c) w s) c = idx s c) by done.
  apply HQ; auto; [unfold value; by rewrite Hi, Hb |]. intros Hnz _. by rewrite Hi, Hb.
Qed.

(** Making room for the result leaves the allocated operands as they were. *)
Lemma operand_kept c a s s1 :
  upd c s s1 -> (idx s c <> 0%nat -> s1 = s) -> idx s a <> 0%nat ->
  nums s1 a = nums s a /\ block s1 (idx s a) = block s (idx s a).
Proof.
  intros Hu Hs Ha. destruct (decide (a = c)) as [->|Hne].
  - by rewrite Hs.
  - split; [by apply Hu |]. by apply (upd_blk _ _ _ Hu a Hne).
Qed.

Lemma copy_words total w1 w2 :
  Prelude.words w1 -> Prelude.words w2 -> length w1 = total -> (total <= length w2)%nat ->
  for_up total 0 (fun i w1 => x ← rd w2 i; wr w1 i x) w1 = Some (take total w2).
Proof.
  intros H1 H2 Hl1 Hl2.
  destruct (fill_up (limb w2) 0 total (fun i w1 => x ← rd w2 i; wr w1 i x) w1) as (w & E & Hf & Hi & _).
  - intros i r Hi. by rewrite rd_ok by lia.
  - lia.
  - rewrite E. f_equal. apply limb_ext; [rewrite length_take; lia |]. intros i Hlt.
    rewrite limb_take by lia. apply (Hi i). lia.
Qed.

Lemma num_take_all n w : (n <= length w)%nat -> num n (take n w) = num n w.
Proof. intros H. apply num_ext. intros. by apply limb_take. Qed.

Lemma set_spec s n v (Q : unit -> state -> Prop) E :
  wf s ->
  (forall s', wf s' -> upd n s s' -> value s' n = value s v -> (check s v -> check s' n) ->
     m_sign (nums s' n) = m_sign (nums s v) -> (idx s' n = 0%nat <-> idx s v = 0%nat) -> Q tt s') ->
  wp (set n v) s Q E.
Proof.
  intros H HQ. unfold set. wstep. fold (idx s v). destruct (Nat.eqb_spec (idx s v) 0) as [E0|E0].
  { apply fx_reset_spec; [done |]. intros s' Hw Hu Hn Hv.
    assert (Hi : idx s' n = 0%nat) by (unfold idx; by rewrite Hn).
    apply HQ; [done | done | | by intros _ ? | | by rewrite Hi].
    - by rewrite Hv, value_unalloc.
    - by rewrite Hn, (wf_sign _ H). }
  apply wp_bind, allocate_if_needed_spec; [done |]. intros s1 H1 Hu1 Hi1 _ Hs1.
  destruct (operand_kept n v s s1 Hu1 Hs1 E0) as [Hn1 Hb1]. do 2 wstep. rewrite Hn1.
  destruct (wf_set_sign s1 n (m_sign (nums s v)) H1 Hi1) as [H2 Hu2].
  set (s2 := with_num _ _ s1) in *. wstep.
  assert (Hn2 : nums s2 n = Mpfx (m_sign (nums s v)) (idx s1 n)).
  { unfold s2. by rewrite nums_with_num, decide_True. }
  assert (Hv2 : idx s2 v = idx s v).
  { unfold s2. rewrite idx_with_num. case_decide as Ev; [| unfold idx; by rewrite Hn1].
    subst. unfold idx. by rewrite Hn1. }
  assert (Hi2 : idx s2 n = idx s1 n) by (unfold idx at 1; by rewrite Hn2).
  apply wp_bind, wp_words; [done |]. apply wp_bind, wp_words; [done |].
  rewrite Hv2. change (block s2 (idx s v)) with (block s1 (idx s v)). rewrite Hb1.
  apply wp_bind. assert (Htot : m_total_sz s2 = m_total_sz s) by apply Hu1.
  assert (Hl : length (block s (idx s v)) = m_total_sz s) by (apply length_block, wf_lt; done).
  eapply wp_lift.
  { apply copy_words; [by apply words_block | by apply words_block | | lia].
    apply length_block, wf_lt; done. }
  rewrite take_ge by lia.
  apply store_spec; [done | lia | lia | by apply words_block |].
  intros s3 H3 Hu3 Hn3 Hv3 Hc3. rewrite Hn2 in *. cbn [m_sign] in Hv3. rewrite Htot in *.
  assert (Hi3 : idx s3 n = idx s1 n) by (unfold idx at 1; by rewrite Hn3).
  apply HQ; auto.
  - eauto using upd_trans.
  - by rewrite Hn3.
  - by rewrite Hi3.
Qed.

Lemma neg_spec s x (Q : unit -> state -> Prop) E :
  wf s -> (forall s', wf s' -> upd x s s' -> value s' x = - value s x -> (check s x -> check s' x) -> Q tt s') ->
  wp (neg x) s Q E.
Proof.
  intros H HQ. unfold neg. do 2 wstep. fold (idx s x).
  destruct (Nat.eqb_spec (idx s x) 0) as [E0|E0].
  - wstep. apply HQ; auto using upd_refl. rewrite value_unalloc by done. lia.
  - destruct (wf_set_sign s x (negb (m_sign (nums s x))) H E0) as [H2 Hu2].
    wstep. fold (idx s x). set (s2 := with_num _ _ s) in *.
    assert (Hn : nums s2 x = Mpfx (negb (m_sign (nums s x))) (idx s x)).
    { unfold s2. by rewrite nums_with_num, decide_True. }
    assert (Hi : idx s2 x = idx s x) by (unfold idx at 1; by rewrite Hn).
    apply HQ; auto.
    + unfold value. rewrite Hi, Hn. cbn [m_sign]. change (bval s2) with (bval s).
      destruct (m_sign (nums s x)); simpl; lia.
    + unfold check. rewrite Hi. done.
Qed.

(** An operand that may be the result's own block, read through [operand]. *)
Lemma operand_reads rdl s a c :
  wf s -> (forall l j, (j < length l)%nat -> rdl l j = Some (limb l j)) ->
  forall i c', (i < m_total_sz s)%nat -> length c' = m_total_sz s ->
  (forall r, (i <= r)%nat -> limb c' r = limb (block s (idx s c)) r) ->
  operand rdl (nums s a) (nums s c) (block s (idx s a)) c' i = Some (limb (block s (idx s a)) i).
Proof.
  intros H Hr i c' Hi Hl Hs. unfold operand. fold (idx s a) (idx s c).
  destruct (Nat.eqb_spec (idx s a) (idx s c)) as [E|E].
  - rewrite Hr by lia. rewrite Hs by lia. by rewrite E.
  - apply Hr. rewrite length_block by (done || apply wf_lt; done). done.
Qed.

Lemma sub_words_spec s a b c :
  wf s -> bval s (idx s b) <= bval s (idx s a) ->
  exists w k, mpn_manager.sub_loop
      (operand (fun l j => mpn_manager.digit_at l (m_total_sz s) j) (nums s a) (nums s c) (block s (idx s a)))
      (operand (fun l j => mpn_manager.digit_at l (m_total_sz s) j) (nums s b) (nums s c) (block s (idx s b)))
      (m_total_sz s `max` m_total_sz s) (block s (idx s c)) = Some (w, k) /\
    length w = m_total_sz s /\ Prelude.words w /\
    num (m_total_sz s) w = bval s (idx s a) - bval s (idx s b).
Proof.
  intros H Hle. rewrite Nat.max_id.
  assert (Hlen : forall x, length (block s (idx s x)) = m_total_sz s).
  { intros x. apply length_block, wf_lt; done. }
  assert (Hrd : forall x i c', (i < m_total_sz s)%nat -> length c' = m_total_sz s ->
    (forall r, (i <= r)%nat -> limb c' r = limb (block s (idx s c)) r) ->
    operand (fun l j => mpn_manager.digit_at l (m_total_sz s) j) (nums s x) (nums s c)
      (block s (idx s x)) c' i = Some (limb (block s (idx s x)) i)).
  { intros x i c' Hi Hl Hs. unfold operand. fold (idx s x) (idx s c).
    destruct (Nat.eqb_spec (idx s x) (idx s c)) as [Ex|Ex].
    - cbv beta. rewrite mpn_facts.digit_at_ok, limb_take by lia. rewrite Hs by lia. by rewrite Ex.
    - cbv beta. rewrite mpn_facts.digit_at_ok, limb_take by (rewrite ?Hlen; lia). done. }
  destruct (mpn_facts.sub_loop_spec (block s (idx s a)) (block s (idx s b))
    (operand (fun l j => mpn_manager.digit_at l (m_total_sz s) j) (nums s a) (nums s c) (block s (idx s a)))
    (operand (fun l j => mpn_manager.digit_at l (m_total_sz s) j) (nums s b) (nums s c) (block s (idx s b)))
    (m_total_sz s) (block s (idx s c))) as (w & k & E & Hl & Hw & Hk & He & _);
    try (by apply words_block); [rewrite Hlen; lia | | |].
  - intros j c' Hj Hs Hl. apply Hrd; [lia | by rewrite Hl, Hlen | done].
  - intros j c' Hj Hs Hl. apply Hrd; [lia | by rewrite Hl, Hlen | done].
  - exists w, k. rewrite Hlen in Hl. split; [done |]. split; [done |]. split; [done |].
    pose proof (num_bound (m_total_sz s) w Hw). fold (bval s (idx s a)) (bval s (idx s b)) in He.
    pose proof (bval_bound s (idx s a) H). pose proof (bval_bound s (idx s b) H).
    assert (k = 0 \/ k = 1) as [->| ->] by lia; lia.
Qed.

(** Both operands are allocated. *)
Lemma add_sub_alloc_spec (is_sub : bool) s a b c (Q : unit -> state -> Prop) (E : exn -> state -> Prop) :
  wf s -> idx s a <> 0%nat -> idx s b <> 0%nat ->
  let r := if is_sub then value s a - value s b else value s a + value s b in
  (forall s', wf s' -> upd c s s' -> value s' c = r -> (check s a -> check s b -> check s' c) -> Q tt s') ->
  (forall s', wf s' -> upd c s s' -> Bpow (m_total_sz s) <= Z.abs r -> E overflow_exception s') ->
  wp (add_sub is_sub a b c) s Q E.
Proof.
  intros H Ha Hb r HQ HE. unfold add_sub. do 2 wstep. fold (idx s a) (idx s b).
  rewrite (proj2 (Nat.eqb_neq _ _) Ha), (proj2 (Nat.eqb_neq _ _) Hb).
  apply wp_bind, allocate_if_needed_spec; [done |]. intros s1 H1 Hu1 Hi1 _ Hs1.
  destruct (operand_kept c a s s1 Hu1 Hs1 Ha) as [Hna Hba].
  destruct (operand_kept c b s s1 Hu1 Hs1 Hb) as [Hnb Hbb].
  assert (Hia : idx s1 a = idx s a) by (unfold idx; by rewrite Hna).
  assert (Hib : idx s1 b = idx s b) by (unfold idx; by rewrite Hnb).
  assert (Htot : m_total_sz s1 = m_total_sz s) by apply Hu1.
  assert (Hva : bval s1 (idx s1 a) = bval s (idx s a)) by (unfold bval; by rewrite Htot, Hia, Hba).
  assert (Hvb : bval s1 (idx s1 b) = bval s (idx s b)) by (unfold bval; by rewrite Htot, Hib, Hbb).
  do 4 wstep. do 3 (apply wp_bind, wp_words; [done |]). rewrite Hna, Hnb.
  set (sa := m_sign (nums s a)).
  set (sb := if is_sub then negb (m_sign (nums s b)) else m_sign (nums s b)).
  assert (Hr : r = sgn sa (bval s1 (idx s1 a)) + sgn sb (bval s1 (idx s1 b))).
  { unfold r, value. fold sa. rewrite Hva, Hvb. unfold sb, sgn.
    destruct is_sub, sa, (m_sign (nums s b)); simpl; lia. }
  assert (Hc : check s a -> bval s1 (idx s1 a) <> 0) by (intros Hc; rewrite Hva; auto).
  pose proof (bval_bound s1 (idx s1 a) H1) as Bva. pose proof (bval_bound s1 (idx s1 b) H1) as Bvb.
  rewrite <- Htot in HE. rewrite <- Hna, <- Hnb. clear Hva Hvb Hba Hbb. clearbody r.
  (* the state in which the result is written *)
  assert (Hstep : forall sg w (Q' : unit -> state -> Prop), length w = m_total_sz s1 -> Prelude.words w ->
    sgn sg (num (m_total_sz s1) w) = r ->
    (forall s', wf s' -> upd c s s' -> value s' c = r -> (num (m_total_sz s1) w <> 0 -> check s' c) -> Q' tt s') ->
    wp (put_words c w) (with_num c (Mpfx sg (idx s1 c)) s1) Q' E).
  { intros sg w Q' Hl Hw Hv HQ'. destruct (wf_set_sign s1 c sg H1 Hi1) as [H2 Hu2].
    set (s2 := with_num _ _ s1) in *.
    assert (Hn2 : nums s2 c = Mpfx sg (idx s1 c)) by (unfold s2; by rewrite nums_with_num, decide_True).
    apply store_spec; auto; [unfold idx at 1; by rewrite Hn2 |].
    intros s3 H3 Hu3 Hn3 Hv3 Hc3. apply HQ'; eauto using upd_trans.
    by rewrite Hv3, Hn2. }
  destruct (eqb sa sb) eqn:Esg.
  - apply eqb_prop in Esg. rewrite <- Esg in *. wstep.
    destruct (bit_util_array_facts.add_at_spec (operand rd (nums s1 a) (nums s1 c) (block s1 (idx s1 a)))
      (operand rd (nums s1 b) (nums s1 c) (block s1 (idx s1 b))) (m_total_sz s1)
      (block s1 (idx s1 a)) (block s1 (idx s1 b)) (block s1 (idx s1 c)))
      as (w & ok & Eadd & Hl & Hw & Hn & Hok); try (by apply words_block).
    { rewrite length_block by (done || apply wf_lt; done). done. }
    { intros i c' Hi Hl Hs. rewrite length_block in Hl by (done || apply wf_lt; done).
      split; apply operand_reads; auto using rd_ok. }
    rewrite length_block in Hl by (done || apply wf_lt; done).
    fold (bval s1 (idx s1 a)) (bval s1 (idx s1 b)) in Hn, Hok.
    apply wp_bind. eapply wp_lift; [exact Eadd |]. cbv beta iota.
    assert (Hru : Z.abs r = bval s1 (idx s1 a) + bval s1 (idx s1 b)) by (rewrite Hr; destruct sa; simpl; lia).
    destruct ok; symmetry in Hok; [apply Z.ltb_lt in Hok | apply Z.ltb_ge in Hok].
    + rewrite Z.mod_small in Hn by lia. apply wp_bind, Hstep; auto.
      * rewrite Hn, Hr. destruct sa; simpl; lia.
      * intros s3 H3 Hu3 Hv3 Hc3. wstep. apply HQ; auto. intros Hka _. apply Hc3. apply Hc in Hka. lia.
    + destruct (wf_set_sign s1 c sa H1 Hi1) as [H2 Hu2]. set (s2 := with_num _ _ s1) in *.
      apply wp_bind, store_spec; auto.
      { unfold idx, s2. by rewrite nums_with_num, decide_True. }
      intros s3 H3 Hu3 _ _ _. wstep. apply HE; eauto using upd_trans. lia.
  - assert (Esb : sb = negb sa) by (by destruct sa, sb).
    apply wp_bind. eapply wp_lift.
    { apply bit_util_array_facts.lt_spec; try (by apply words_block); rewrite length_block by (done || apply wf_lt; done); done. }
    fold (bval s1 (idx s1 a)) (bval s1 (idx s1 b)).
    destruct (Z.ltb_spec (bval s1 (idx s1 a)) (bval s1 (idx s1 b))) as [Hlt|Hge]; wstep.
    + destruct (sub_words_spec s1 b a c) as (w & k & Es & Hl & Hw & Hn); [done | lia |].
      apply wp_bind. eapply wp_lift; [exact Es |]. apply Hstep; auto.
      * rewrite Hn, Hr, Esb. destruct sa; simpl; lia.
      * intros s3 H3 Hu3 Hv3 Hc3. apply HQ; auto. intros _ _. apply Hc3. lia.
    + destruct (sub_words_spec s1 a b c) as (w & k & Es & Hl & Hw & Hn); [done | lia |].
      apply wp_bind. eapply wp_lift; [exact Es |]. apply wp_bind. apply Hstep; auto.
      * rewrite Hn, Hr, Esb. destruct sa; simpl; lia.
      * intros s3 H3 Hu3 Hv3 Hc3. apply wp_bind.
        eapply wp_lift; [apply bit_util_array_facts.is_zero_spec; [done | lia] |].
        destruct (Z.eqb_spec (num (m_total_sz s1) w) 0) as [Ez|Ez].
        -- apply fx_reset_spec; [done |]. intros s4 H4 Hu4 Hn4 Hv4.
           apply HQ; eauto using upd_trans.
           ++ rewrite Hv4, Hr, Esb. rewrite Ez in Hn. destruct sa; simpl; lia.
           ++ intros _ _ Hi. unfold idx in Hi. by rewrite Hn4 in Hi.
        -- wstep. apply HQ; auto.
Qed.

Lemma add_sub_spec (is_sub : bool) s a b c (Q : unit -> state -> Prop) (E : exn -> state -> Prop) :
  wf s ->
  let r := if is_sub then value s a - value s b else value s a + value s b in
  (forall s', wf s' -> upd c s s' -> value s' c = r -> (check s a -> check s b -> check s' c) -> Q tt s') ->
  (forall s', wf s' -> upd c s s' -> Bpow (m_total_sz s) <= Z.abs r -> E overflow_exception s') ->
  wp (add_sub is_sub a b c) s Q E.
Proof.
  intros H r HQ HE. destruct (decide (idx s a = 0%nat)) as [Ea|Ea]; [| destruct (decide (idx s b = 0%nat)) as [Eb|Eb]].
  - unfold add_sub. do 2 wstep. fold (idx s a). rewrite (proj2 (Nat.eqb_eq _ _) Ea).
    pose proof (value_unalloc s a H Ea) as Hva.
    apply wp_bind, set_spec; [done |]. intros s1 H1 Hu1 Hv1 Hc1 _ _. destruct is_sub.
    + apply neg_spec; [done |]. intros s2 H2 Hu2 Hv2 Hc2. apply HQ; eauto using upd_trans.
      unfold r. rewrite Hv2, Hv1, Hva. lia.
    + wstep. apply HQ; auto. unfold r. rewrite Hv1, Hva. lia.
  - unfold add_sub. do 2 wstep. fold (idx s a) (idx s b).
    rewrite (proj2 (Nat.eqb_neq _ _) Ea), (proj2 (Nat.eqb_eq _ _) Eb).
    pose proof (value_unalloc s b H Eb) as Hvb.
    apply set_spec; [done |]. intros s1 H1 Hu1 Hv1 Hc1 _ _. apply HQ; auto.
    unfold r. rewrite Hv1, Hvb. destruct is_sub; lia.
  - by apply add_sub_alloc_spec.
Qed.

Lemma wf_with_buffers s b0 b1 b2 :
  wf s -> buffer_ok s b0 -> buffer_ok s b1 -> buffer_ok s b2 -> wf (with_buffers b0 b1 b2 s).
Proof. intros [] H0 H1 H2. by split. Qed.

Lemma upd_buffers c s b0 b1 b2 : upd c s (with_buffers b0 b1 b2 s).
Proof. by split. Qed.

(** Division of [x] by [m] rounded in the manager's mode. *)
Definition round_div (plus_inf : bool) (x m : Z) : Z :=
  if plus_inf then - ((- x) / m) else x / m.

Lemma div_opp_round p m : 0 <= p -> 0 < m ->
  - ((- p) / m) = p / m + b2z (negb (p mod m =? 0)).
Proof.
  intros Hp Hm. destruct (Z.eqb_spec (p mod m) 0) as [E|E]; cbn [negb b2z].
  - rewrite Z.div_opp_l_z by lia. lia.
  - rewrite Z.div_opp_l_nz by lia. lia.
Qed.

(** How the magnitude is rounded. *)
Lemma round_magnitude sg plus_inf p m : 0 <= p -> 0 < m ->
  sgn sg (p / m + b2z (xorb sg plus_inf && negb (p mod m =? 0))) = round_div plus_inf (sgn sg p) m.
Proof.
  intros Hp Hm. unfold round_div, sgn. pose proof (div_opp_round p m Hp Hm).
  destruct sg, plus_inf; cbn [xorb andb b2z negb]; rewrite ?Z.opp_involutive; lia.
Qed.

Lemma round_magnitude_nonneg p m (b : bool) : 0 <= p -> 0 < m -> 0 <= p / m + b2z b.
Proof. intros. pose proof (Z.div_pos p m). destruct b; simpl; lia. Qed.

Lemma sgn_mul a b x y : sgn a x * sgn b y = sgn (xorb a b) (x * y).
Proof. destruct a, b; simpl; lia. Qed.

Lemma abs_sgn b v : Z.abs (sgn b v) = Z.abs v.
Proof. destruct b; simpl; lia. Qed.

(** The parts of a double-width product. *)
Lemma product_parts r frac int total p :
  Prelude.words r -> length r = (2 * total)%nat -> total = (int + frac)%nat -> num (total + total) r = p ->
  num frac r = p mod Bpow frac /\ num total (drop frac r) = (p / Bpow frac) mod Bpow total /\
  num int (drop total (drop frac r)) = p / Bpow frac / Bpow total.
Proof.
  intros Hw Hl Ht Hp.
  assert (Hv : val r = p) by (unfold val; rewrite Hl, <- Hp; do 2 f_equal; lia).
  assert (Hwd : Prelude.words (drop frac r)) by (by apply Forall_drop).
  split; [rewrite bit_util_array_facts.num_mod, Hv by done; done |].
  split; [rewrite bit_util_array_facts.num_mod, bit_util_array_facts.num_div, Hv by done; done |].
  rewrite <- Hv, <- (bit_util_array_facts.num_div frac r Hw), <- (bit_util_array_facts.num_div total) by done.
  unfold val. rewrite !length_drop. f_equal. lia.
Qed.

(** The result's object gets its block and its sign. *)
Lemma prepare_spec s a b c (Q : bool -> state -> Prop) E :
  wf s -> idx s a <> 0%nat -> idx s b <> 0%nat ->
  (forall s', wf s' -> upd c s s' -> idx s' c <> 0%nat ->
     let sg := xorb (m_sign (nums s a)) (m_sign (nums s b)) in m_sign (nums s' c) = sg ->
     block s' (idx s' a) = block s (idx s a) -> block s' (idx s' b) = block s (idx s b) -> Q sg s') ->
  wp (prepare a b c) s Q E.
Proof.
  intros H Ha Hb HQ. unfold prepare.
  apply wp_bind, allocate_if_needed_spec; [done |]. intros s1 H1 Hu1 Hi1 _ Hs1.
  destruct (operand_kept c a s s1 Hu1 Hs1 Ha) as [Hna Hba].
  destruct (operand_kept c b s s1 Hu1 Hs1 Hb) as [Hnb Hbb].
  do 2 wstep. rewrite Hna, Hnb. set (sg := xorb _ _) in *. wstep.
  destruct (wf_set_sign s1 c sg H1 Hi1) as [H2 Hu2]. fold (idx s1 c).
  set (s2 := with_num _ _ s1) in *. wstep.
  assert (Hidx : forall x, idx s2 x = idx s1 x).
  { intros x. unfold s2. rewrite idx_with_num. case_decide; by subst. }
  apply HQ; rewrite ?Hidx; eauto using upd_trans.
  - unfold s2. by rewrite nums_with_num, decide_True.
  - unfold idx at 1. rewrite Hna. exact Hba.
  - unfold idx at 1. rewrite Hnb. exact Hbb.
Qed.

(** The end of [mul]: [_r] holds the rounded product, to be checked and copied. *)
Lemma mul_store_spec s c q _r (Q : unit -> state -> Prop) (E : exn -> state -> Prop) :
  wf s -> idx s c <> 0%nat -> 0 <= q ->
  Prelude.words _r -> length _r = (m_total_sz s + m_int_part_sz s)%nat ->
  (q < Bpow (m_total_sz s) -> num (m_total_sz s) _r = q) ->
  (num (m_int_part_sz s) (drop (m_total_sz s) _r) = 0 <-> q < Bpow (m_total_sz s)) ->
  (forall s', wf s' -> upd c s s' -> value s' c = sgn (m_sign (nums s c)) q ->
     (q <> 0 -> check s' c) -> Q tt s') ->
  (Bpow (m_total_sz s) <= q -> E overflow_exception s) ->
  wp (fits ← lift (bit_util.is_zero (m_int_part_sz s) (drop (m_total_sz s) _r));
      if negb fits then throw overflow_exception else
      w_c ← words c;
      w_c ← lift (for_up (m_total_sz s) 0 (fun i w_c => x ← rd _r i; wr w_c i x) w_c);
      put_words c w_c) s Q E.
Proof.
  intros H Hc Hq Hw Hl Hn Hh HQ HE. apply wp_bind. eapply wp_lift.
  { apply bit_util_array_facts.is_zero_spec; [by apply Forall_drop | rewrite length_drop; lia]. }
  destruct (Z.eqb_spec (num (m_int_part_sz s) (drop (m_total_sz s) _r)) 0) as [E0|E0]; cbn [negb].
  - apply Hh in E0. specialize (Hn E0).
    apply wp_bind, wp_words; [done |]. apply wp_bind. eapply wp_lift.
    { apply copy_words; [by apply words_block | exact Hw | | lia].
      apply length_block, wf_lt; done. }
    apply store_spec; [done | done | rewrite length_take; lia | by apply words_take |].
    intros s' H' Hu' Hn' Hv' Hc'. rewrite num_take_all, Hn in Hv', Hc' by lia. by apply HQ.
  - wstep. apply HE. destruct (Z_lt_le_dec q (Bpow (m_total_sz s))); [| done]. by apply Hh in l.
Qed.

(** The rounding of [mul] on the double-width product [rr] of value [p]. *)
Lemma mul_round_spec s c up rr p (Q : unit -> state -> Prop) (E : exn -> state -> Prop) :
  wf s -> idx s c <> 0%nat -> 0 <= p -> Prelude.words rr -> length rr = (2 * m_total_sz s)%nat ->
  num (m_total_sz s + m_total_sz s) rr = p ->
  let F := Bpow (m_frac_part_sz s) in
  let q := p / F + b2z (up && negb (p mod F =? 0)) in
  (forall s', wf s' -> upd c s s' -> value s' c = sgn (m_sign (nums s c)) q ->
     (q <> 0 -> check s' c) -> Q tt s') ->
  (forall s', wf s' -> upd c s s' -> Bpow (m_total_sz s) <= q -> E overflow_exception s') ->
  wp (modify (fun s => with_buffers rr (m_buffer1 s) (m_buffer2 s) s);;
      exact ← lift (bit_util.is_zero (m_frac_part_sz s) rr);
      _r ← (if up && negb exact then
              '(_r, ok) ← lift (bit_util.inc (m_total_sz s) (drop (m_frac_part_sz s) rr));
              modify (fun s' => with_buffers (take (m_frac_part_sz s) rr ++ _r) (m_buffer1 s') (m_buffer2 s') s');;
              if (ok : bool) then mret _r else throw overflow_exception
            else mret (drop (m_frac_part_sz s) rr));
      fits ← lift (bit_util.is_zero (m_int_part_sz s) (drop (m_total_sz s) _r));
      if negb fits then throw overflow_exception else
      w_c ← words c;
      w_c ← lift (for_up (m_total_sz s) 0 (fun i w_c => x ← rd _r i; wr w_c i x) w_c);
      put_words c w_c) s Q E.
Proof.
  intros H Hc Hp0 Hw Hl Hp F q HQ HE. wstep.
  pose proof (wf_total _ H) as HT. pose proof (Bpow_pos (m_frac_part_sz s)) as HF. fold F in HF.
  pose proof (Bpow_pos (m_total_sz s)) as HB.
  destruct (product_parts rr (m_frac_part_sz s) (m_int_part_sz s) (m_total_sz s) p)
    as (Hlow & Hmid & Hhigh); [done | done | done | exact Hp |]. fold F in Hlow, Hmid, Hhigh.
  apply wp_bind. eapply wp_lift; [apply bit_util_array_facts.is_zero_spec; [done | lia] |]. rewrite Hlow.
  assert (Hq : 0 <= q) by (by apply round_magnitude_nonneg).
  assert (Hd : 0 <= p / F) by (apply Z.div_pos; lia).
  pose proof (Z.mod_pos_bound (p / F) (Bpow (m_total_sz s)) HB) as Hmb.
  pose proof (Z.div_mod (p / F) (Bpow (m_total_sz s)) ltac:(lia)) as Hdm.
  pose proof (Z.div_pos (p / F) (Bpow (m_total_sz s)) Hd HB) as Hdp.
  assert (Hwd : Prelude.words (drop (m_frac_part_sz s) rr)) by (by apply Forall_drop).
  assert (Hb : forall b0, Prelude.words b0 -> length b0 = (2 * m_total_sz s)%nat ->
    wf (with_buffers b0 (m_buffer1 s) (m_buffer2 s) s)).
  { intros b0 Hw0 Hl0. apply (wf_with_buffers s); [done | done | apply H | apply H]. }
  destruct (up && negb (p mod F =? 0)); cbn [b2z] in *.
  - destruct (bit_util_array_facts.inc_spec (m_total_sz s) (drop (m_frac_part_sz s) rr))
      as (_r & ok & Ei & Hl_ & Hw_ & Hn_ & Hok & Hs_); [done | rewrite length_drop; lia |].
    apply wp_bind, wp_bind. eapply wp_lift; [exact Ei |]. cbv beta iota. wstep.
    rewrite Hmid in Hn_, Hok. rewrite length_drop in Hl_.
    assert (H3 := Hb (take (m_frac_part_sz s) rr ++ _r)).
    destruct ok; symmetry in Hok; [apply Z.ltb_lt in Hok | apply Z.ltb_ge in Hok].
    + wstep. rewrite Z.mod_small in Hn_ by lia.
      apply (mul_store_spec (with_buffers _ _ _ s) c q);
        [apply H3 | done | done | done | cbn; lia | | | intros s' H' Hu'; apply HQ; [exact H' | exact (upd_trans _ _ _ _ (upd_buffers c s _ _ _) Hu')] |]; cbn -[Z.mul Z.div Bpow].
      * apply Forall_app; split; [by apply Forall_take | done].
      * rewrite length_app, length_take. lia.
      * unfold q. intros. rewrite Z.mod_small in Hn_ by lia. lia.
      * rewrite (num_ext _ _ (drop (m_total_sz s) (drop (m_frac_part_sz s) rr))), Hhigh.
        -- unfold q. rewrite Hdm at 2. nia.
        -- intros i Hi. rewrite !limb_drop, Hs_ by lia. by rewrite limb_drop.
      * intros Hge. apply HE; [apply H3 | by split | done].
        -- apply Forall_app; split; [by apply Forall_take | done].
        -- rewrite length_app, length_take. lia.
    + wstep. apply HE; [apply H3 | by split | unfold q; nia].
      * apply Forall_app; split; [by apply Forall_take | done].
      * rewrite length_app, length_take. lia.
  - wstep. apply (mul_store_spec (with_buffers _ _ _ s) c q);
      [by apply Hb | done | done | done | | | | intros s' H' Hu'; apply HQ; [exact H' | exact (upd_trans _ _ _ _ (upd_buffers c s _ _ _) Hu')] |]; cbn -[Z.mul Z.div Bpow].
    + rewrite length_drop. lia.
    + unfold q. rewrite Hmid. intros. rewrite Z.mod_small by lia. lia.
    + rewrite Hhigh. unfold q. nia.
    + intros Hge. apply HE; [by apply Hb | by split | done].
Qed.

Section mul.
Context (s : state) (a b c : addr) (Q : unit -> state -> Prop) (E : exn -> state -> Prop).
Context (H : wf s).
Abbreviation r := (round_div (m_to_plus_inf s) (value s a * value s b) (Bpow (m_frac_part_sz s))).
Hypothesis HQ : forall s', wf s' -> upd c s s' -> value s' c = r -> (r <> 0 -> check s' c) -> Q tt s'.
Hypothesis HE : forall s', wf s' -> upd c s s' -> Bpow (m_total_sz s) <= Z.abs r -> E overflow_exception s'.

Lemma mul_alloc_spec : idx s a <> 0%nat -> idx s b <> 0%nat -> wp (mul a b c) s Q E.
Proof.
intros Ha Hb. unfold mul. do 2 wstep. fold (idx s a) (idx s b).
rewrite (proj2 (Nat.eqb_neq _ _) Ha), (proj2 (Nat.eqb_neq _ _) Hb). cbn [orb].
apply wp_bind, prepare_spec; [done | done | done |]. intros s2 H2 Hu2 Hi2 sg Hn2 Hba Hbb.
do 4 wstep. do 2 (apply wp_bind, wp_words; [done |]). rewrite Hba, Hbb.
assert (Hp : sgn sg (bval s (idx s a) * bval s (idx s b)) = value s a * value s b).
{ unfold value, sg. by rewrite sgn_mul. }
rewrite <- Hp in HQ, HE.
pose proof (bval_bound s (idx s a) H) as Bva. pose proof (bval_bound s (idx s b) H) as Bvb.
set (p := bval s (idx s a) * bval s (idx s b)) in *.
assert (Hp0 : 0 <= p) by (unfold p; nia).
rewrite <- round_magnitude in HQ, HE by (done || apply Bpow_pos).
rewrite <- (upd_mode _ _ _ Hu2), <- (upd_frac _ _ _ Hu2) in HQ, HE.
rewrite <- (upd_total _ _ _ Hu2) in HE.
(* the product *)
wstep. destruct (wf_b0 _ H2) as [Hwb0 Hlb0]. pose proof (upd_total _ _ _ Hu2) as Htot.
assert (Hlen : forall x, (m_total_sz s2 <= length (block s (idx s x)))%nat).
{ intros x. rewrite length_block by (done || apply wf_lt; done). lia. }
destruct (mpn_specs.mul_spec (block s (idx s a)) (m_total_sz s2) (block s (idx s b))
  (m_total_sz s2) (m_buffer0 s2)) as (rr & Em & Hlr & Hwr & Hnr);
  try (by apply words_block); auto; [lia |].
apply wp_bind. eapply wp_lift; [exact Em |].
apply mul_round_spec with p; try done; [lia | | |].
- rewrite Hnr, Htot. done.
- rewrite Hn2. intros s3 H3 Hu3 Hv3 Hc3. apply HQ; [done | by eapply upd_trans | done |].
  rewrite sgn_zero. done.
- intros s3 H3 Hu3 Hge. apply HE; [done | by eapply upd_trans |].
  rewrite abs_sgn, Z.abs_eq; [done |]. by apply round_magnitude_nonneg, Bpow_pos.
Qed.

Lemma fx_mul_spec : wp (mul a b c) s Q E.
Proof.
destruct (decide (idx s a = 0%nat \/ idx s b = 0%nat)) as [Hz|Hz]; [| apply mul_alloc_spec; lia].
unfold mul. do 2 wstep. fold (idx s a) (idx s b).
assert (((idx s a =? 0) || (idx s b =? 0))%nat = true) as ->.
{ apply orb_true_iff. rewrite !Nat.eqb_eq. done. }
assert (Hr : r = 0).
{ assert (value s a * value s b = 0) as ->.
  { destruct Hz as [Hz|Hz]; rewrite (value_unalloc s _ H Hz); lia. }
  pose proof (Bpow_pos (m_frac_part_sz s)). unfold round_div.
  destruct (m_to_plus_inf s); cbn [Z.opp]; by rewrite Z.div_0_l by lia. }
apply fx_reset_spec; [done |]. intros s1 H1 Hu1 Hn1 Hv1. apply HQ; auto; [lia | done].
Qed.
End mul.

End mpfx_arith.

(** ** Division *)

Module Import mpfx_division.
Import mpfx_manager.
Implicit Types s : state.

Lemma sz_spec T w :
  Prelude.words w -> (T <= length w)%nat -> num T w <> 0 ->
  exists n, sz T w = Some n /\ (1 <= n <= T)%nat /\ limb w (n - 1) <> 0 /\ num n w = num T w.
Proof.
  intros Hw Hl Hnz. unfold sz.
  destruct (for_dn_ret_inv (fun i (_ : unit) => num i w = num T w)
    (fun n => (1 <= n <= T)%nat /\ limb w (n - 1) <> 0 /\ num n w = num T w) T
    (fun r (_ : unit) => d ← rd w r; Some (if negb (d =? 0) then Ret (r + 1)%nat else Next tt)) tt)
    as [([] & -> & H0)|(n & -> & Hn)].
  - done.
  - intros i [] Hi E. mstep. destruct (Z.eqb_spec (limb w i) 0) as [E0|E0]; cbn [negb].
    + left. eexists. split; [done |]. cbn [num] in E. rewrite E0 in E. lia.
    + right. eexists. split; [done |]. replace (i + 1 - 1)%nat with i by lia.
      rewrite Nat.add_1_r. split; [lia | done].
  - cbn [num] in H0. lia.
  - by exists n.
Qed.

(** The dividend moved up by the fractional part. *)
Lemma shift_up_spec frac T w buf :
  Prelude.words w -> Prelude.words buf -> length w = T -> (T + frac <= length buf)%nat ->
  exists buf', (b ← zero_fill 0 frac buf;
                for_up T 0 (fun i b => x ← rd w i; wr b (i + frac) x) b) = Some buf' /\
    length buf' = length buf /\ Prelude.words buf' /\
    forall n, (n <= T)%nat -> num (n + frac) buf' = Bpow frac * num n w.
Proof.
  intros Hw Hb Hl Hlb. unfold zero_fill.
  destruct (fill_from_up 0 0 frac buf) as (b1 & -> & Hl1 & Hw1 & Hi1); [lia |].
  cbn [mbind option_bind].
  destruct (fill_up (limb w) frac T (fun i b => x ← rd w i; wr b (i + frac) x) b1) as (b2 & -> & Hf);
    [| lia |].
  { intros i r Hi. rewrite rd_ok by lia. by rewrite Nat.add_comm. }
  assert (Hw2 : Prelude.words b2).
  { eapply filled_words; eauto using is_u32_0 with words. }
  destruct Hf as (Hl2 & Hin & Hout). exists b2. split; [done |]. split; [lia |]. split; [done |].
  intros n Hn. rewrite Nat.add_comm, num_split.
  rewrite (num_zero frac b2), Z.add_0_l.
  - f_equal. apply num_ext. intros i Hi. rewrite limb_drop. apply Hin. lia.
  - intros i Hi. rewrite Hout, Hi1, decide_True by lia. done.
Qed.

Lemma copy_quot_spec n w_q w_c :
  Prelude.words w_q -> Prelude.words w_c -> (n <= length w_q)%nat -> (n <= length w_c)%nat ->
  exists w, copy_quot n w_q w_c = Some (w, num n w_q =? 0) /\ length w = length w_c /\
    Prelude.words w /\ num n w = num n w_q.
Proof.
  intros Hq Hc Hlq Hlc. unfold copy_quot.
  edestruct (for_up_inv (fun i '(w, z) => length w = length w_c /\ Prelude.words w /\
    num i w = num i w_q /\ z = (num i w_q =? 0))) as ([w z] & -> & Hl & Hw & Hn & Hz).
  - done.
  - intros i [w z] Hi (Hl & Hw & Hn & ->). do 2 mstep. eexists (_, _). split; [done |].
    rewrite length_insert. split; [done |]. split; [auto with words |].
    rewrite !bit_util_array_facts.num_step, num_insert_ge, limb_insert_eq by lia. split; [lia |].
    pose proof (num_bound i w_q Hq). pose proof (words_lookup w_q i Hq) as Hx. unfold is_u32 in Hx.
    pose proof (Bpow_pos i). destruct (Z.eqb_spec (limb w_q i) 0) as [->|]; cbn [negb].
    + f_equal. lia.
    + symmetry. apply Z.eqb_neq. nia.
  - exists w. rewrite Hz. done.
Qed.

Lemma set_epsilon_spec s c (Q : unit -> state -> Prop) E :
  wf s -> idx s c <> 0%nat ->
  (forall s', wf s' -> upd c s s' -> value s' c = sgn (m_sign (nums s c)) 1 -> check s' c -> Q tt s') ->
  wp (set_epsilon c) s Q E.
Proof.
  intros H Hc HQ. unfold set_epsilon. wstep. apply wp_bind, wp_words; [done |].
  assert (Hl : length (block s (idx s c)) = m_total_sz s) by (apply length_block, wf_lt; done).
  pose proof (wf_total _ H). pose proof (wf_int _ H).
  apply wp_bind. eapply wp_lift; [apply wr_ok; lia |].
  assert (Hw1 : Prelude.words (<[0%nat:=1]> (block s (idx s c)))).
  { apply words_insert; [by apply words_block | unfold is_u32; lia]. }
  destruct (fill_from_up 0 1 (m_total_sz s - 1) (<[0%nat:=1]> (block s (idx s c)))) as (w & E1 & Hlw & Hw & Hi).
  { rewrite length_insert. lia. }
  rewrite length_insert in Hlw. specialize (Hw Hw1 is_u32_0).
  apply wp_bind. eapply wp_lift; [exact E1 |].
  assert (Hn : num (m_total_sz s) w = 1).
  { replace (m_total_sz s) with (1 + (m_total_sz s - 1))%nat by lia. rewrite num_split, (num_zero (_ - 1)).
    - cbn [num]. rewrite Hi, decide_False, limb_insert_eq, Bpow_0 by lia. lia.
    - intros i Hlt. rewrite limb_drop, Hi, decide_True by lia. done. }
  apply store_spec; [done | done | lia | done |].
  intros s' H' Hu' Hn' Hv' Hc'. rewrite Hn in *. apply HQ; auto.
Qed.

(** The end of [div]: the rounded quotient is copied to the result. *)
Lemma div_store_spec s c q_sz w_q (up : bool) (Q : unit -> state -> Prop) E :
  wf s -> idx s c <> 0%nat -> Prelude.words w_q -> (m_total_sz s <= length w_q)%nat ->
  let n := if (q_sz <=? m_total_sz s)%nat then q_sz else m_total_sz s in
  (num n w_q = 0 -> up = false) ->
  (forall s', wf s' -> upd c s s' -> value s' c = sgn (m_sign (nums s c)) (num n w_q) -> check s' c -> Q tt s') ->
  wp (w_c ← words c;
      '(w_c, zero_q) ← (if (q_sz <=? m_total_sz s)%nat then
          '(w_c, zero_q) ← lift (copy_quot q_sz w_q w_c);
          w_c ← lift (zero_fill q_sz (m_total_sz s - q_sz) w_c);
          mret (w_c, zero_q)
        else lift (copy_quot (m_total_sz s) w_q w_c));
      put_words c w_c;;
      if (zero_q : bool) then (if up then set_epsilon c else reset c) else mret tt) s Q E.
Proof.
  intros H Hc Hw Hl n Hup HQ. apply wp_bind, wp_words; [done |].
  assert (Hlc : length (block s (idx s c)) = m_total_sz s) by (apply length_block, wf_lt; done).
  assert (Hn : (n <= m_total_sz s)%nat) by (unfold n; destruct (Nat.leb_spec q_sz (m_total_sz s)); lia).
  destruct (copy_quot_spec n w_q (block s (idx s c))) as (w & E1 & Hl1 & Hw1 & Hn1);
    [done | by apply words_block | lia | lia |].
  assert (Hend : forall w', length w' = m_total_sz s -> Prelude.words w' -> num (m_total_sz s) w' = num n w_q ->
    wp (put_words c w';; if num n w_q =? 0 then (if up then set_epsilon c else reset c) else mret tt) s Q E).
  { intros w' Hl' Hw' Hn'. apply wp_bind, store_spec; auto. intros s1 H1 Hu1 Hs1 Hv1 Hc1.
    rewrite Hn' in *. destruct (Z.eqb_spec (num n w_q) 0) as [E0|E0].
    - rewrite (Hup E0). apply fx_reset_spec; [done |]. intros s2 H2 Hu2 Hs2 Hv2.
      apply HQ; eauto using upd_trans.
      + rewrite Hv2, E0. by destruct (m_sign _).
      + intros Hi. unfold idx in Hi. by rewrite Hs2 in Hi.
    - wstep. apply HQ; auto. }
  apply wp_bind. unfold n in *. destruct (Nat.leb_spec q_sz (m_total_sz s)).
  - apply wp_bind. eapply wp_lift; [exact E1 |]. cbv beta iota.
    destruct (fill_from_up 0 q_sz (m_total_sz s - q_sz) w) as (w2 & E2 & Hl2 & Hw2 & Hi2); [lia |].
    apply wp_bind. eapply wp_lift; [exact E2 |]. wstep. apply Hend; [lia | auto using is_u32_0 |].
    replace (m_total_sz s) with (q_sz + (m_total_sz s - q_sz))%nat by lia.
    rewrite num_split, (num_zero (_ - q_sz)), (num_ext q_sz w2 w).
    + lia.
    + intros i Hi. by rewrite Hi2, decide_False by lia.
    + intros i Hi. by rewrite limb_drop, Hi2, decide_True by lia.
  - eapply wp_lift; [exact E1 |]. cbv beta iota. apply Hend; [lia | done | done].
Qed.

Lemma fx_all_zero_spec lo n w : Prelude.words w -> (lo + n <= length w)%nat ->
  all_zero lo n w = Some (num n (drop lo w) =? 0).
Proof.
  intros Hw Hl. unfold all_zero.
  assert (Hwd : Prelude.words (drop lo w)) by (by apply Forall_drop).
  edestruct (for_up_ret_inv (fun i (_ : unit) => num (i - lo) (drop lo w) = 0)
    (fun r => r = false /\ num n (drop lo w) <> 0)) as [([] & -> & H0)|(r & -> & -> & Hn)].
  - by rewrite Nat.sub_diag.
  - intros i [] Hi E. mstep. destruct (Z.eqb_spec (limb w i) 0) as [E0|E0].
    + left. eexists. split; [done |]. rewrite Nat.sub_succ_l by lia. cbn [num].
      rewrite limb_drop, E. replace (lo + (i - lo))%nat with i by lia. rewrite E0. lia.
    + right. eexists. split; [done |]. split; [done |].
      rewrite bit_util_array_facts.num_zero_iff by done.
      intros Hz. apply E0. rewrite <- (Hz (i - lo)%nat), limb_drop by lia. f_equal. lia.
  - replace (lo + n - lo)%nat with n in H0 by lia. cbn [mbind option_bind]. by rewrite H0.
  - cbn [mbind option_bind]. by rewrite (proj2 (Z.eqb_neq _ _) Hn).
Qed.

Lemma num_low n T w : Prelude.words w -> (n <= T)%nat -> num n w = num T w mod Bpow n.
Proof.
  intros Hw Hn. replace T with (n + (T - n))%nat by lia. rewrite num_split, Z.mul_comm, Z.mod_add.
  - symmetry. apply Z.mod_small, num_bound, Hw.
  - pose proof (Bpow_pos n). lia.
Qed.

Lemma Bpow_mono n m : (n <= m)%nat -> Bpow n <= Bpow m.
Proof. intros. rewrite !Bpow_pow2. apply Z.pow_le_mono_r; lia. Qed.

(** What [inc] makes of a quotient of [q_sz] words below words left by earlier operations. *)
Lemma round_quot_spec T q_sz w_q :
  Prelude.words w_q -> (T <= length w_q)%nat -> (q_sz <= length w_q)%nat ->
  num q_sz w_q < Bpow T -> num q_sz w_q + 1 < Bpow q_sz \/ (T <= q_sz)%nat ->
  exists w ok, bit_util.inc T w_q = Some (w, ok) /\ length w = length w_q /\ Prelude.words w /\
    (ok = true -> num (if (q_sz <=? T)%nat then q_sz else T) w = num q_sz w_q + 1) /\
    (ok = false -> num q_sz w_q + 1 = Bpow T).
Proof.
  intros Hw HT Hq Hlt Hc.
  destruct (bit_util_array_facts.inc_spec T w_q) as (w & ok & E & Hl & Hww & Hn & Hok & _); [done | lia |].
  exists w, ok. split; [done |]. split; [done |]. split; [done |].
  pose proof (num_bound T w_q Hw) as HbT. pose proof (num_bound q_sz w_q Hw) as Hbq.
  assert (HTq : (T <= q_sz)%nat -> num T w_q = num q_sz w_q).
  { intros Hle. rewrite (num_low T q_sz) by done. apply Z.mod_small. lia. }
  split; intros Eok; rewrite Eok in Hok; symmetry in Hok;
    [apply Z.ltb_lt in Hok | apply Z.ltb_ge in Hok].
  - rewrite Z.mod_small in Hn by lia. destruct (Nat.leb_spec q_sz T).
    + destruct (decide (q_sz = T)) as [->|]; [done |].
      rewrite (num_low q_sz T), Hn, Z.add_mod, <- num_low by (done || lia || (pose proof (Bpow_pos q_sz); lia)).
      rewrite (Z.mod_small 1), Z.mod_small; lia.
    + rewrite Hn, HTq by lia. done.
  - destruct (decide (T <= q_sz)%nat) as [Hle|Hnle]; [rewrite <- HTq by done; lia |]. exfalso.
    pose proof (num_low q_sz T w_q Hw ltac:(lia)) as Hlow.
    assert (num T w_q = Bpow T - 1) as E1 by lia. rewrite E1 in Hlow.
    replace T with (q_sz + (T - q_sz))%nat in Hlow by lia. rewrite Bpow_add in Hlow.
    replace (Bpow q_sz * Bpow (T - q_sz) - 1) with (Bpow q_sz - 1 + (Bpow (T - q_sz) - 1) * Bpow q_sz)
      in Hlow by ring.
    rewrite Z.mod_add, Z.mod_small in Hlow by lia. lia.
Qed.

(** [div] once the division of naturals is done. *)
Lemma div_round_spec s c q_sz b_sz buf w_q w_r (up : bool) (Q : unit -> state -> Prop)
    (E : exn -> state -> Prop) :
  wf s -> idx s c <> 0%nat -> buffer_ok s buf -> buffer_ok s w_q -> buffer_ok s w_r ->
  (q_sz <= 2 * m_total_sz s)%nat -> (b_sz <= 2 * m_total_sz s)%nat ->
  let inexact := up && negb (num b_sz w_r =? 0) in
  let q := num q_sz w_q + b2z inexact in
  (num q_sz w_q = 0 -> num b_sz w_r <> 0) ->
  (inexact = true -> q < Bpow q_sz \/ (m_total_sz s <= q_sz)%nat) ->
  (forall s', wf s' -> upd c s s' -> value s' c = sgn (m_sign (nums s c)) q -> check s' c -> Q tt s') ->
  (forall s', wf s' -> upd c s s' -> Bpow (m_total_sz s) <= q -> E overflow_exception s') ->
  wp (modify (fun s => with_buffers buf w_q w_r s);;
      fits ← lift (all_zero (m_total_sz s) (q_sz - m_total_sz s) w_q);
      if negb fits then throw overflow_exception else
      exact ← lift (bit_util.is_zero b_sz w_r);
      w_q ← (if up && negb exact then
               '(w_q, ok) ← lift (bit_util.inc (m_total_sz s) w_q);
               modify (fun s => with_buffers buf w_q w_r s);;
               if (ok : bool) then mret w_q else throw overflow_exception
             else mret w_q);
      w_c ← words c;
      '(w_c, zero_q) ← (if (q_sz <=? m_total_sz s)%nat then
          '(w_c, zero_q) ← lift (copy_quot q_sz w_q w_c);
          w_c ← lift (zero_fill q_sz (m_total_sz s - q_sz) w_c);
          mret (w_c, zero_q)
        else lift (copy_quot (m_total_sz s) w_q w_c));
      put_words c w_c;;
      if (zero_q : bool) then (if up then set_epsilon c else reset c) else mret tt) s Q E.
Proof.
  intros H Hc Hb [Hwq Hlq] [Hwr Hlr] Hqs Hbs inexact q Hnz Hcarry HQ HE. wstep.
  assert (Hwb : forall w, Prelude.words w -> length w = length w_q -> wf (with_buffers buf w w_r s)).
  { intros w Hw Hl. apply wf_with_buffers; auto; split; congruence. }
  pose proof (upd_buffers c s buf) as Hub. pose proof (num_bound q_sz w_q Hwq) as Hqb.
  set (T := m_total_sz s) in *. pose proof (Bpow_pos T) as HBT.
  set (n := if (q_sz <=? T)%nat then q_sz else T).
  apply wp_bind. eapply wp_lift; [apply fx_all_zero_spec; [done | lia] |].
  assert (Hsplit : num q_sz w_q = num n w_q + Bpow n * num (q_sz - T) (drop T w_q)).
  { unfold n. destruct (Nat.leb_spec q_sz T).
    - replace (q_sz - T)%nat with O by lia. cbn [num]. lia.
    - replace q_sz with (T + (q_sz - T))%nat at 1 by lia. rewrite num_split. done. }
  pose proof (num_bound n w_q Hwq) as Hnb.
  assert (HnT : Bpow n <= Bpow T).
  { apply Bpow_mono. unfold n. destruct (Nat.leb_spec q_sz T); lia. }
  destruct (Z.eqb_spec (num (q_sz - T) (drop T w_q)) 0) as [Ef|Ef]; cbn [negb].
  2: { wstep. apply HE; [by apply Hwb | done |]. unfold q.
       assert (Hn : n = T). { unfold n. destruct (Nat.leb_spec q_sz T); [| done].
         replace (q_sz - T)%nat with O in Ef by lia. done. }
       rewrite Hn in *. assert (Hwd : Prelude.words (drop T w_q)) by (by apply Forall_drop).
       pose proof (num_bound (q_sz - T) _ Hwd). destruct inexact; simpl; nia. }
  rewrite Ef, Z.mul_0_r, Z.add_0_r in Hsplit.
  apply wp_bind. eapply wp_lift; [apply bit_util_array_facts.is_zero_spec; [done | lia] |].
  fold inexact. destruct inexact eqn:Ei; cbn [b2z] in q.
  - destruct (round_quot_spec T q_sz w_q) as (w & ok & Einc & Hl & Hw & Ht & Hf); [done | lia | lia | lia | auto |].
    apply wp_bind, wp_bind. eapply wp_lift; [exact Einc |]. cbv beta iota. wstep. destruct ok; wstep.
    + specialize (Ht eq_refl). fold n in Ht. fold q in Ht.
      apply (div_store_spec (with_buffers buf w w_r s) c q_sz w up); cbn [with_buffers m_total_sz];
        fold T; fold n; [by apply Hwb | done | done | lia | rewrite Ht; unfold q; lia |].
      intros s' H' Hu' Hv' Hc'. apply HQ; [done | exact (upd_trans _ _ _ _ (Hub _ _) Hu') | | done].
      by rewrite Hv', Ht.
    + apply HE; [by apply (Hwb w) | exact (Hub _ _) |]. specialize (Hf eq_refl). unfold q. lia.
  - wstep. apply (div_store_spec (with_buffers buf w_q w_r s) c q_sz w_q up); cbn [with_buffers m_total_sz];
      fold T; fold n; [by apply Hwb | done | done | lia | |].
    + intros E0. unfold inexact in Ei. rewrite <- Hsplit in E0. apply Hnz in E0.
      rewrite (proj2 (Z.eqb_neq _ _) E0), andb_true_r in Ei. done.
    + intros s' H' Hu' Hv' Hc'. apply HQ; [done | exact (upd_trans _ _ _ _ (Hub _ _) Hu') | | done].
      rewrite Hv', <- Hsplit. unfold q. by rewrite Z.add_0_r.
Qed.

(** The rounded quotient of the magnitudes, and the one case in which the code loses the carry of
    the rounding: the rounded quotient needs one word more than the quotient, and that word is not
    copied. *)
Definition quot_up s a b : bool :=
  xorb (xorb (m_sign (nums s a)) (m_sign (nums s b))) (m_to_plus_inf s) &&
  negb ((Bpow (m_frac_part_sz s) * bval s (idx s a)) mod bval s (idx s b) =? 0).
Definition quot s a b : Z :=
  (Bpow (m_frac_part_sz s) * bval s (idx s a)) / bval s (idx s b) + b2z (quot_up s a b).
Definition carry_lost s a b : Prop :=
  quot_up s a b = true /\ exists n m,
    sz (m_total_sz s) (block s (idx s a)) = Some n /\
    sz (m_total_sz s) (block s (idx s b)) = Some m /\
    quot s a b = Bpow (n + m_frac_part_sz s - m + 1) /\
    (n + m_frac_part_sz s - m + 1 < m_total_sz s)%nat.

Section div.
Context (s : state) (a b c : addr) (Q : unit -> state -> Prop) (E : exn -> state -> Prop).
Context (H : wf s) (Ha : check s a) (Hb : check s b) (Hcarry : ~ carry_lost s a b).
Abbreviation r := (sgn (xorb (m_sign (nums s a)) (m_sign (nums s b))) (quot s a b)).
Hypothesis HQ : forall s', wf s' -> upd c s s' -> value s' c = r -> check s' c -> Q tt s'.
Hypothesis HE : forall s', wf s' -> upd c s s' -> Bpow (m_total_sz s) <= Z.abs r ->
E overflow_exception s'.

Lemma sz_block x : idx s x <> 0%nat -> check s x ->
exists n, sz (m_total_sz s) (block s (idx s x)) = Some n /\ (1 <= n <= m_total_sz s)%nat /\
  limb (block s (idx s x)) (n - 1) <> 0 /\ num n (block s (idx s x)) = bval s (idx s x).
Proof.
intros Hx Hc. apply sz_spec; [by apply words_block | | by apply Hc].
rewrite length_block by (done || apply wf_lt; done). done.
Qed.

(** A divisor with more words than the shifted dividend. *)
Lemma div_small_quot n m :
(1 <= n)%nat -> num n (block s (idx s a)) = bval s (idx s a) ->
limb (block s (idx s b)) (m - 1) <> 0 -> num m (block s (idx s b)) = bval s (idx s b) ->
0 < bval s (idx s a) -> (n + m_frac_part_sz s < m)%nat ->
quot s a b = b2z (xorb (xorb (m_sign (nums s a)) (m_sign (nums s b))) (m_to_plus_inf s)).
Proof.
intros Hn Ea Ht Eb Hpos Hlt. unfold quot, quot_up.
pose proof (mpn_div_specs.num_pos_top (block s (idx s b)) m (words_block s _ H) ltac:(lia) Ht) as [Hge H1].
pose proof (num_bound n (block s (idx s a)) (words_block s _ H)) as Hna. rewrite Ea in Hna. rewrite Eb in Hge.
assert (HF : Bpow (n + m_frac_part_sz s) <= Bpow (m - 1)) by (apply Bpow_mono; lia).
rewrite Bpow_add in HF. pose proof (Bpow_pos (m_frac_part_sz s)). pose proof (Bpow_pos (m - 1)).
rewrite Z.div_small, Z.mod_small by nia. rewrite (proj2 (Z.eqb_neq _ _)), andb_true_r by nia. lia.
Qed.

Lemma div_alloc_spec : idx s a <> 0%nat -> idx s b <> 0%nat -> wp (div a b c) s Q E.
Proof.
intros Hia Hib. unfold div. wstep. fold (idx s b). rewrite (proj2 (Nat.eqb_neq _ _) Hib).
wstep. fold (idx s a). rewrite (proj2 (Nat.eqb_neq _ _) Hia).
apply wp_bind, prepare_spec; [done | done | done |]. intros s2 H2 Hu2 Hi2 sg Hn2 Hba Hbb.
do 3 wstep. apply wp_bind, wp_words; [done |]. rewrite Hba.
destruct (sz_block a Hia Ha) as (n & En & Hn & Hta & Hna).
destruct (sz_block b Hib Hb) as (m & Em & Hm & Htb & Hnb).
pose proof (upd_total _ _ _ Hu2) as Htot. pose proof (upd_frac _ _ _ Hu2) as Hfrac.
rewrite Htot, Hfrac, (upd_mode _ _ _ Hu2). set (T := m_total_sz s) in *.
set (up := xorb sg (m_to_plus_inf s)). set (FA := Bpow (m_frac_part_sz s) * bval s (idx s a)).
assert (HB : 0 < bval s (idx s b)) by (pose proof (bval_bound s (idx s b) H); specialize (Hb Hib); lia).
assert (HA : 0 < bval s (idx s a)) by (pose proof (bval_bound s (idx s a) H); specialize (Ha Hia); lia).
pose proof (Bpow_pos (m_frac_part_sz s)) as HF.
assert (HFA : 0 < FA) by (unfold FA; nia).
assert (Hlen : forall x, length (block s (idx s x)) = T).
{ intros x. apply length_block, wf_lt; done. }
assert (Hsum : T = (m_int_part_sz s + m_frac_part_sz s)%nat) by apply H.
apply wp_bind. eapply wp_lift; [exact En |]. wstep.
destruct (wf_b0 _ H2) as [Hwb0 Hlb0]. rewrite Htot in Hlb0.
destruct (shift_up_spec (m_frac_part_sz s) T (block s (idx s a)) (m_buffer0 s2))
  as (buf & Es & Hlbuf & Hwbuf & Hnbuf); [by apply words_block | done | done | lia |].
destruct (zero_fill 0 (m_frac_part_sz s) (m_buffer0 s2)) as [b1|] eqn:Ez; [| done].
apply wp_bind. eapply wp_lift; [reflexivity |]. apply wp_bind. eapply wp_lift; [exact Es |]. wstep.
assert (Hbuf : buffer_ok s2 buf) by (split; [done | lia]).
assert (H3 : wf (with_buffers buf (m_buffer1 s2) (m_buffer2 s2) s2))
  by (apply wf_with_buffers; auto; apply H2).
set (s3 := with_buffers _ _ _ s2) in *.
assert (Hu3 : upd c s s3) by exact (upd_trans _ _ _ _ Hu2 (upd_buffers c s2 _ _ _)).
apply wp_bind, wp_words; [done |]. change (block s3 (idx s3 b)) with (block s2 (idx s2 b)). rewrite Hbb.
apply wp_bind. eapply wp_lift; [exact Em |].
assert (Hquot : forall s', value s' c = sgn (m_sign (nums s3 c)) (quot s a b) -> value s' c = r).
{ intros s' ->. change (nums s3 c) with (nums s2 c). by rewrite Hn2. }
assert (Habs : Z.abs r = quot s a b).
{ rewrite abs_sgn. apply Z.abs_eq. unfold quot. by apply round_magnitude_nonneg; [lia |]. }
destruct (Nat.ltb_spec (n + m_frac_part_sz s) m) as [Hlt|Hge].
- pose proof (div_small_quot n m ltac:(lia) Hna Htb Hnb HA Hlt) as Eq. fold sg up in Eq.
  assert (Hic : idx s3 c <> 0%nat) by exact Hi2.
  destruct up; cbn [b2z] in Eq.
  + apply set_epsilon_spec; [done | done |]. intros s4 H4 Hu4 Hv4 Hc4.
    apply HQ; [done | eauto using upd_trans | | done]. apply Hquot. by rewrite Eq.
  + apply fx_reset_spec; [done |]. intros s4 H4 Hu4 Hs4 Hv4. apply HQ; [done | eauto using upd_trans | |].
    * rewrite Hv4, Eq. by destruct (xorb _ _).
    * intros Hi. unfold idx in Hi. by rewrite Hs4 in Hi.
- do 2 wstep. destruct (wf_b1 _ H2) as [Hwb1 Hlb1]. destruct (wf_b2 _ H2) as [Hwb2 Hlb2].
  rewrite Htot in Hlb1, Hlb2. change (m_buffer1 s3) with (m_buffer1 s2).
  change (m_buffer2 s3) with (m_buffer2 s2).
  destruct (mpn_div_specs.div_spec buf (n + m_frac_part_sz s) (block s (idx s b)) m (m_buffer1 s2) (m_buffer2 s2))
    as (ok & w_q & w_r & Ed & Hl1 & Hl2 & Hwq & Hwr & Hdm & Hrem).
  { split; try done; try (by apply words_block); rewrite ?Hlen; lia. }
  apply wp_bind. eapply wp_lift; [exact Ed |]. cbv beta iota.
  rewrite Hnbuf, Hna, Hnb in Hdm by lia. rewrite Hnb in Hrem. fold FA in Hdm.
  set (q_sz := (n + m_frac_part_sz s - m + 1)%nat) in *.
  pose proof (num_bound m w_r Hwr) as Hr0.
  assert (Eq : num q_sz w_q = FA / bval s (idx s b)).
  { apply Z.div_unique with (num m w_r); [lia |]. lia. }
  assert (Er : num m w_r = FA mod bval s (idx s b)).
  { apply Z.mod_unique with (num q_sz w_q); [lia |]. lia. }
  assert (Hq : num q_sz w_q + b2z (up && negb (num m w_r =? 0)) = quot s a b).
  { unfold quot, quot_up. fold FA sg up. by rewrite Eq, Er. }
  assert (Ht3 : T = m_total_sz s3) by (symmetry; exact Htot). rewrite Ht3. apply div_round_spec; try done;
    try (split; [done | rewrite ?Htot; cbn; lia]); cbn [s3 with_buffers m_total_sz]; rewrite ?Htot;
    rewrite ?Hq; try lia.
  + intros Eup. destruct (Z_lt_le_dec (quot s a b) (Bpow q_sz)); [by left | right].
    destruct (le_lt_dec T q_sz) as [|Hlt]; [done |]. exfalso. apply Hcarry. split.
    { unfold quot_up. fold FA sg up. by rewrite <- Er. }
    exists n, m. split; [done |]. split; [done |]. split; [| exact Hlt]. fold q_sz.
    rewrite Eup in Hq. cbn [b2z] in Hq. pose proof (num_bound q_sz w_q Hwq). lia.
  + intros s4 H4 Hu4 Hv4 Hc4. apply HQ; eauto using upd_trans.
  + intros s4 H4 Hu4 Hov. apply HE; eauto using upd_trans. rewrite Habs. done.
Qed.

Lemma fx_div_spec : idx s b <> 0%nat -> wp (div a b c) s Q E.
Proof.
intros Hib. destruct (decide (idx s a = 0%nat)) as [Hia|Hia]; [| by apply div_alloc_spec].
unfold div. wstep. fold (idx s b). rewrite (proj2 (Nat.eqb_neq _ _) Hib).
wstep. fold (idx s a). rewrite (proj2 (Nat.eqb_eq _ _) Hia).
apply fx_reset_spec; [done |]. intros s1 H1 Hu1 Hn1 Hv1. apply HQ; auto.
- rewrite Hv1. unfold quot, quot_up. rewrite Hia, (wf_zero _ H 0%nat) by (by left).
  rewrite Z.mul_0_r, Z.div_0_l, Z.mod_0_l by (by apply Hb). cbn. rewrite andb_false_r.
  by destruct (xorb _ _).
- intros Hi. unfold idx in Hi. by rewrite Hn1 in Hi.
Qed.
End div.

(** The quotient is the rounded one. *)
Lemma quot_round s a b :
  wf s -> check s b -> idx s b <> 0%nat ->
  sgn (xorb (m_sign (nums s a)) (m_sign (nums s b))) (quot s a b) =
  round_div (m_to_plus_inf s) (Z.sgn (value s b) * (Bpow (m_frac_part_sz s) * value s a)) (Z.abs (value s b)).
Proof.
  intros H Hb Hi. specialize (Hb Hi). pose proof (bval_bound s (idx s b) H).
  pose proof (bval_bound s (idx s a) H). pose proof (Bpow_pos (m_frac_part_sz s)).
  unfold quot, quot_up. rewrite round_magnitude by nia. unfold value. rewrite abs_sgn, Z.abs_eq by lia.
  f_equal. set (A := bval s (idx s a)) in *. set (B := bval s (idx s b)) in *.
  destruct (m_sign (nums s a)), (m_sign (nums s b)); cbn [xorb sgn].
  all: rewrite ?Z.sgn_opp, (Z.sgn_pos B) by lia; lia.
Qed.

End mpfx_division.

(** ** Halving and rounding to integers *)

Module Import mpfx_rounding.
Import mpfx_manager.
Implicit Types s : state.

Lemma put_block_same s x : wf s -> put (idx s x) (block s (idx s x)) s = s.
Proof.
  intros H. pose proof (wf_fit s _ H (wf_lt _ H x)) as Hf. unfold put, block.
  set (l := m_words s) in *. set (T := m_total_sz s) in *. set (i := idx s x) in *.
  assert (E : take (i * T) l ++ take T (drop (i * T) l) ++ drop ((i + 1) * T) l = l).
  { replace ((i + 1) * T)%nat with (i * T + T)%nat by lia. rewrite <- drop_drop, take_drop.
    apply take_drop. }
  rewrite E. unfold l, with_words. by destruct s.
Qed.

(** Writing back the words of any numeral, when an unallocated one keeps its zeros. *)
Lemma store_any_spec s x w (Q : unit -> state -> Prop) E :
  wf s -> length w = m_total_sz s -> Prelude.words w ->
  (idx s x = 0%nat -> num (m_total_sz s) w = 0) ->
  (forall s', wf s' -> upd x s s' -> nums s' x = nums s x ->
     bval s' (idx s' x) = num (m_total_sz s) w -> block s' (idx s' x) = w -> Q tt s') ->
  wp (put_words x w) s Q E.
Proof.
  intros H Hl Hw Hz HQ. apply wp_put_words. destruct (decide (idx s x = 0%nat)) as [E0|E0].
  - assert (Ew : w = block s (idx s x)).
    { pose proof (length_block s (idx s x) H (wf_lt _ H x)) as Hlb.
      apply limb_ext; [lia |]. intros i Hi.
      rewrite (proj1 (bit_util_array_facts.num_zero_iff _ _ Hw) (Hz E0)) by lia.
      assert (Hzb : bval s (idx s x) = 0) by (apply (wf_zero _ H); auto).
      symmetry. apply (proj1 (bit_util_array_facts.num_zero_iff _ _ (words_block s _ H)) Hzb). lia. }
    rewrite Ew, put_block_same by done. rewrite Ew in HQ. by apply HQ; auto using upd_refl.
  - destruct (wf_put s x w H E0 Hl Hw) as (H' & Hu & Hb). apply HQ; auto.
    change (idx (put (idx s x) w s) x) with (idx s x).
    rewrite block_put by (auto using wf_fit, wf_lt). by rewrite decide_True.
Qed.

Lemma shr_block k T w :
  Prelude.words w -> length w = T -> (0 < T)%nat -> (0 < k)%nat ->
  exists w', bit_util.shr_inplace T k w = Some w' /\ length w' = T /\ Prelude.words w' /\
    num T w' = num T w / 2 ^ Z.of_nat k.
Proof.
  intros Hw <- HT Hk. rewrite bit_util_array_facts.shr_inplace_eq by done.
  destruct (bit_util_array_facts.shr_resize_spec (length w) w k w) as (w' & E & Hl & Hw' & Hv); auto.
  exists w'. split; [done |]. split; [done |]. split; [done |].
  rewrite num_ge_length, Hv by lia. pose proof (num_bound (length w) w Hw).
  assert (0 < 2 ^ Z.of_nat k) by (apply Z.pow_pos_nonneg; lia).
  apply Z.mod_small. split; [apply Z.div_pos; lia |]. apply Z.div_lt_upper_bound; nia.
Qed.

Section div2k.
Context (s : state) (a : addr) (k : nat) (Q : unit -> state -> Prop) (E : exn -> state -> Prop).
Context (H : wf s) (Hc : check s a).
Abbreviation r := (round_div (m_to_plus_inf s) (value s a) (2 ^ Z.of_nat k)).
Hypothesis HQ : forall s', wf s' -> upd a s s' -> value s' a = r -> check s' a -> Q tt s'.

Lemma div2k_spec : wp (div2k a k) s Q E.
Proof.
unfold div2k. wstep. fold (idx s a). assert (H2k : 0 < 2 ^ Z.of_nat k) by (apply Z.pow_pos_nonneg; lia).
destruct (Nat.eqb_spec (idx s a) 0) as [Ea|Ea]; cbn [negb andb].
{ wstep. apply HQ; auto using upd_refl. rewrite value_unalloc by done. unfold round_div.
  destruct (m_to_plus_inf s); cbn; by rewrite Z.div_0_l by lia. }
destruct (Nat.ltb_spec 0 k) as [Hk|Hk].
2: { wstep. apply HQ; auto using upd_refl. replace k with O by lia. unfold round_div.
     change (2 ^ Z.of_nat 0) with 1. rewrite !Z.div_1_r. destruct (m_to_plus_inf s); lia. }
do 3 wstep. apply wp_bind, wp_words; [done |].
assert (Hl : length (block s (idx s a)) = m_total_sz s) by (apply length_block, wf_lt; done).
assert (HT : (0 < m_total_sz s)%nat) by (pose proof (wf_total _ H); pose proof (wf_int _ H); lia).
apply wp_bind. eapply wp_lift;
  [apply bit_util_array_facts.has_one_spec; [by apply words_block | lia] |].
fold (bval s (idx s a)). pose proof (bval_bound s (idx s a) H) as Hb.
pose proof (round_magnitude (m_sign (nums s a)) (m_to_plus_inf s) (bval s (idx s a)) (2 ^ Z.of_nat k)
  ltac:(lia) H2k) as Hr. fold (value s a) in Hr.
set (up := xorb _ _ && _) in *. destruct (shr_block k (m_total_sz s) (block s (idx s a)))
  as (w & Es & Hlw & Hww & Hnw); auto using words_block.
fold (bval s (idx s a)) in Hnw. set (q := bval s (idx s a) / 2 ^ Z.of_nat k) in *.
assert (Hq : 0 <= q /\ 2 * q < Bpow (m_total_sz s)).
{ assert (2 ^ 1 <= 2 ^ Z.of_nat k) by (apply Z.pow_le_mono_r; lia). change (2 ^ 1) with 2 in *.
  split; [apply Z.div_pos; lia |].
  pose proof (Z.mul_div_le (bval s (idx s a)) (2 ^ Z.of_nat k) H2k). fold q in H1. nia. }
pose proof (Bpow_mono 1 (m_total_sz s) ltac:(lia)) as HB. change (Bpow 1) with 4294967296 in HB.
apply wp_bind. eapply wp_lift; [exact Es |].
apply wp_bind, store_spec; [done | done | done | done |]. intros s1 H1 Hu1 Hn1 Hv1 Hc1.
assert (Hi1 : idx s1 a = idx s a) by (unfold idx; by rewrite Hn1).
assert (Ht1 : m_total_sz s1 = m_total_sz s) by apply Hu1.
destruct up; cbn [b2z] in Hr.
- destruct (bit_util_array_facts.inc_spec (m_total_sz s) w) as (w' & ok & Ei & Hl' & Hw' & Hn' & _ & _);
    [done | lia |].
  apply wp_bind. eapply wp_lift; [exact Ei |]. cbv beta iota.
  apply store_spec; [done | lia | lia | done |]. intros s2 H2 Hu2 Hn2 Hv2 Hc2.
  rewrite Ht1, Hn', Hnw, Z.mod_small in Hv2, Hc2 by lia. apply HQ; eauto using upd_trans.
  + by rewrite Hv2, Hn1, Hr.
  + apply Hc2. lia.
- rewrite Z.add_0_r in Hr. apply wp_bind. eapply wp_lift;
    [apply bit_util_array_facts.is_zero_spec; [done | lia] |].
  rewrite Hnw in *. destruct (Z.eqb_spec q 0) as [Ez|Ez].
  + apply fx_reset_spec; [done |]. intros s2 H2 Hu2 Hn2 Hv2. apply HQ; eauto using upd_trans.
    * rewrite Hv2, <- Hr, Ez. by destruct (m_sign _).
    * intros Hi. unfold idx in Hi. by rewrite Hn2 in Hi.
  + wstep. apply HQ; auto. by rewrite Hv1.
Qed.
End div2k.

(** *** [floor] and [ceil] *)

(** [w] with its [frac] low words cleared. *)
Definition cleared (frac : nat) (w w' : list Z) : Prop :=
  length w' = length w /\ Prelude.words w' /\
  (forall i, limb w' i = if decide (i < frac)%nat then 0 else limb w i).

Lemma clear_frac_spec frac w : Prelude.words w -> (frac <= length w)%nat ->
  exists w', clear_frac frac w = Some (w', num frac w =? 0) /\ cleared frac w w'.
Proof.
  intros Hw Hl. unfold clear_frac.
  edestruct (for_up_inv (fun i '(w', z) => length w' = length w /\ Prelude.words w' /\
    (forall j, limb w' j = if decide (j < i)%nat then 0 else limb w j) /\ z = (num i w =? 0)))
    as ([w' z] & -> & Hl' & Hw' & Hi & Hz).
  - repeat split; auto.
  - intros i [w' z] Hi (Hl' & Hw' & Hlimb & ->). cbv beta. mstep. rewrite Hlimb, decide_False by lia.
    pose proof (num_bound i w Hw). pose proof (words_lookup w i Hw) as Hx. unfold is_u32 in Hx.
    pose proof (Bpow_pos i). rewrite bit_util_array_facts.num_step.
    destruct (Z.eqb_spec (limb w i) 0) as [E0|E0]; cbn [negb].
    + eexists (_, _). split; [done |]. split; [done |]. split; [done |]. split.
      * intros j. rewrite Hlimb. repeat case_decide; try done; try lia.
        by assert (j = i) as -> by lia.
      * rewrite E0. f_equal. lia.
    + rewrite wr_ok by lia. eexists (_, _). split; [done |]. rewrite length_insert.
      split; [done |]. split; [auto using is_u32_0 with words |]. split.
      * intros j. rewrite limb_insert, Hlimb by lia. repeat case_decide; try done; lia.
      * symmetry. apply Z.eqb_neq. nia.
  - exists w'. by rewrite Hz.
Qed.

Lemma zero_fill_cleared frac w : Prelude.words w -> (frac <= length w)%nat ->
  exists w', zero_fill 0 frac w = Some w' /\ cleared frac w w'.
Proof.
  intros Hw Hl. destruct (fill_from_up 0 0 frac w) as (w' & E & Hl' & Hw' & Hi); [lia |].
  exists w'. split; [done |]. split; [done |]. split; [auto using is_u32_0 |].
  intros i. rewrite Hi. repeat case_decide; try done; lia.
Qed.

(** The number above [frac] words of zeros. *)
Lemma num_above frac int w w' :
  Prelude.words w -> (forall i, (i < frac)%nat -> limb w i = 0) -> drop frac w = w' ->
  num (frac + int) w = Bpow frac * num int w'.
Proof. intros Hw Hz <-. rewrite num_split, num_zero by done. lia. Qed.

Lemma cleared_num frac int w w' : Prelude.words w -> cleared frac w w' ->
  num int (drop frac w') = num (frac + int) w / Bpow frac.
Proof.
  intros Hw (_ & _ & Hi). rewrite num_split, Z.mul_comm, Z.div_add by (pose proof (Bpow_pos frac); lia).
  rewrite Z.div_small by (by apply num_bound). rewrite Z.add_0_l. apply num_ext. intros i Hlt.
  by rewrite !limb_drop, Hi, decide_False by lia.
Qed.

Lemma bval_parts s i : wf s ->
  bval s i mod Bpow (m_frac_part_sz s) = num (m_frac_part_sz s) (block s i) /\
  bval s i / Bpow (m_frac_part_sz s) < Bpow (m_int_part_sz s).
Proof.
  intros H. pose proof (wf_total _ H) as HT. split.
  - unfold bval. rewrite HT. symmetry. apply num_low; [by apply words_block | lia].
  - pose proof (bval_bound s i H) as Hb. rewrite HT, Bpow_add in Hb.
    apply Z.div_lt_upper_bound; [apply Bpow_pos | lia].
Qed.

Section round_int.
Context (s : state) (n : addr) (up_mode : bool) (Q : unit -> state -> Prop) (E : exn -> state -> Prop).
Context (H : wf s).
Abbreviation F := (Bpow (m_frac_part_sz s)).
Abbreviation r := (round_div up_mode (value s n) F * F).
Hypothesis HQ : forall s', wf s' -> upd n s s' -> value s' n = r -> check s' n -> Q tt s'.
Hypothesis HE : forall s', wf s' -> upd n s s' -> Bpow (m_total_sz s) <= Z.abs r -> E overflow_exception s'.

(** The last test: an integer part of value [q] above a cleared fraction. *)
Lemma round_int_end s1 w q :
wf s1 -> upd n s s1 -> nums s1 n = nums s n ->
length w = m_total_sz s -> Prelude.words w -> bval s1 (idx s1 n) = q * F ->
num (m_int_part_sz s) (drop (m_frac_part_sz s) w) = q ->
sgn (m_sign (nums s n)) (q * F) = r ->
wp (z ← lift (bit_util.is_zero (m_int_part_sz s) (drop (m_frac_part_sz s) w));
    if (z : bool) then reset n else mret tt) s1 Q E.
Proof.
intros H1 Hu1 Hn1 Hl Hw Hb Hq Hr. apply wp_bind. eapply wp_lift.
{ apply bit_util_array_facts.is_zero_spec; [by apply Forall_drop |].
  rewrite length_drop, Hl, (wf_total _ H). lia. }
rewrite Hq. destruct (Z.eqb_spec q 0) as [Ez|Ez].
- apply fx_reset_spec; [done |]. intros s2 H2 Hu2 Hn2 Hv2. apply HQ; eauto using upd_trans.
  + rewrite Hv2, <- Hr, Ez. by destruct (m_sign _).
  + intros Hi. unfold idx in Hi. by rewrite Hn2 in Hi.
- wstep. apply HQ; auto.
  + unfold value. by rewrite Hb, Hn1.
  + intros _. rewrite Hb. pose proof (Bpow_pos (m_frac_part_sz s)). nia.
Qed.

Lemma round_int_spec (away : bool) :
(idx s n <> 0%nat -> away = xorb (m_sign (nums s n)) up_mode) ->
(idx s n = 0%nat -> away = false) ->
wp (round_int away n) s Q E.
Proof.
intros Hnz Hz. unfold round_int. do 2 wstep. apply wp_bind, wp_words; [done |].
pose proof (wf_total _ H) as HT. pose proof (Bpow_pos (m_frac_part_sz s)) as HF.
pose proof (wf_lt _ H n) as Hlt.
assert (Hl : length (block s (idx s n)) = m_total_sz s) by (by apply length_block).
pose proof (words_block s (idx s n) H) as Hw. pose proof (bval_bound s (idx s n) H) as Hb.
destruct (bval_parts s (idx s n) H) as [Hlow Hhigh].
assert (Hr : sgn (m_sign (nums s n)) ((bval s (idx s n) / F +
    b2z (away && negb (bval s (idx s n) mod F =? 0))) * F) = r).
{ destruct (decide (idx s n = 0%nat)) as [E0|E0].
  - rewrite Hz, (wf_sign _ H), value_unalloc, E0, (wf_zero _ H 0%nat) by auto. unfold round_div.
    rewrite Z.div_0_l, Z.mod_0_l by lia. destruct up_mode; cbn; by rewrite ?Z.div_0_l by lia.
  - rewrite Hnz by done. unfold value. rewrite <- round_magnitude by lia.
    destruct (m_sign (nums s n)); simpl; ring. }
assert (Hcl : forall w, cleared (m_frac_part_sz s) (block s (idx s n)) w ->
  length w = m_total_sz s /\ Prelude.words w /\
  num (m_int_part_sz s) (drop (m_frac_part_sz s) w) = bval s (idx s n) / F /\
  num (m_total_sz s) w = bval s (idx s n) / F * F).
{ intros w Hcl. pose proof (cleared_num _ (m_int_part_sz s) _ _ Hw Hcl) as Hc.
  rewrite (Nat.add_comm (m_frac_part_sz s)), <- HT in Hc. fold (bval s (idx s n)) in Hc.
  destruct Hcl as (Hlw & Hww & Hi). split; [lia |]. split; [done |]. split; [done |].
  rewrite HT, Nat.add_comm, (num_above _ _ w (drop (m_frac_part_sz s) w)), Hc; [lia | done | | done].
  intros i Hilt. by rewrite Hi, decide_True. }
apply wp_bind. destruct away; cbn [andb] in Hr.
- assert (Hi0 : idx s n <> 0%nat) by (intros E0; by apply Hz in E0).
  destruct (clear_frac_spec (m_frac_part_sz s) (block s (idx s n)) Hw) as (w & Ecl & Hw0); [lia |].
  destruct (Hcl w Hw0) as (Hlw & Hww & Hiw & Htw). rewrite <- Hlow in Ecl.
  apply wp_bind. eapply wp_lift; [exact Ecl |]. cbv beta iota.
  apply wp_bind, store_any_spec; [done | done | done | done |]. intros s1 H1 Hu1 Hn1 Hb1 _.
  destruct (Z.eqb_spec (bval s (idx s n) mod F) 0) as [E0|E0]; cbn [negb b2z] in *.
  + wstep. rewrite Z.add_0_r in Hr.
    apply round_int_end with (bval s (idx s n) / F); auto. by rewrite Hb1.
  + set (wi := drop (m_frac_part_sz s) w) in *.
    assert (Hwi : Prelude.words wi) by (by apply Forall_drop).
    assert (Hli : length wi = m_int_part_sz s) by (unfold wi; rewrite length_drop; lia).
    destruct (bit_util_array_facts.inc_spec (m_int_part_sz s) wi) as (wi' & ok & Ei & Hli' & Hwi' & Hni & Hok & _);
      [done | lia |]. rewrite Hiw in Hni, Hok.
    apply wp_bind. eapply wp_lift; [exact Ei |]. cbv beta iota.
    set (w2 := take (m_frac_part_sz s) w ++ wi').
    assert (Hlt2 : length (take (m_frac_part_sz s) w) = m_frac_part_sz s) by (rewrite length_take; lia).
    assert (Hd2 : drop (m_frac_part_sz s) w2 = wi') by (by apply drop_app_length').
    assert (Hl2 : length w2 = m_total_sz s) by (unfold w2; rewrite length_app; lia).
    assert (Hw2 : Prelude.words w2) by (apply Forall_app; split; [by apply Forall_take | done]).
    assert (Ht1 : m_total_sz s1 = m_total_sz s) by apply Hu1.
    assert (Hi1 : idx s1 n = idx s n) by (unfold idx; by rewrite Hn1).
    apply wp_bind, store_any_spec; [done | lia | done | lia |]. intros s2 H2 Hu2 Hn2 Hb2 _.
    destruct ok; symmetry in Hok; [apply Z.ltb_lt in Hok | apply Z.ltb_ge in Hok]; cbn [negb]; wstep.
    * rewrite Z.mod_small in Hni by (pose proof (Z.div_pos (bval s (idx s n)) F); lia).
      assert (Hz2 : forall i, (i < m_frac_part_sz s)%nat -> limb w2 i = 0).
      { intros i Hi. unfold w2. rewrite limb_app_l, limb_take by lia.
        destruct Hw0 as (_ & _ & ->). by rewrite decide_True. }
      apply round_int_end with (bval s (idx s n) / F + 1); eauto using upd_trans.
      -- by rewrite Hn2.
      -- rewrite Hb2, Ht1, HT, Nat.add_comm, (num_above _ _ w2 wi' Hw2 Hz2 Hd2), Hni. lia.
      -- by rewrite Hd2.
    * apply HE; eauto using upd_trans. rewrite <- Hr, abs_sgn, HT, Bpow_add. nia.
- destruct (zero_fill_cleared (m_frac_part_sz s) (block s (idx s n)) Hw) as (w & Ecl & Hw0); [lia |].
  destruct (Hcl w Hw0) as (Hlw & Hww & Hiw & Htw).
  apply wp_bind. eapply wp_lift; [exact Ecl |].
  apply wp_bind, store_any_spec; [done | done | done | |].
  { intros E0. rewrite Htw, (wf_zero _ H) by auto. by rewrite Z.div_0_l by lia. }
  intros s1 H1 Hu1 Hn1 Hb1 _. wstep. cbn [b2z] in Hr. rewrite Z.add_0_r in Hr.
  apply round_int_end with (bval s (idx s n) / F); auto. by rewrite Hb1.
Qed.
End round_int.

End mpfx_rounding.

(** ** Comparison, assignment and conversion *)

Module Import mpfx_values.
Import mpfx_manager.
Implicit Types s : state.

Lemma num_inj n a b : Prelude.words a -> Prelude.words b ->
  num n a = num n b <-> (forall i, (i < n)%nat -> limb a i = limb b i).
Proof.
  intros Ha Hb. split; [| apply num_ext]. induction n as [|n IH]; intros E i Hi; [lia |]. cbn [num] in E.
  pose proof (num_bound n a Ha). pose proof (num_bound n b Hb). pose proof (Bpow_pos n).
  assert (limb a n = limb b n) by nia. destruct (decide (i = n)) as [->|]; [done |].
  apply IH; [nia | lia].
Qed.

Lemma sgn_inj_ne a b x y : 0 < x -> 0 < y -> xorb a b = true -> sgn a x <> sgn b y.
Proof. destruct a, b; simpl; intros; try done; lia. Qed.

Lemma block_pos s x : wf s -> check s x -> idx s x <> 0%nat -> 0 < bval s (idx s x).
Proof. intros H Hc Hi. pose proof (bval_bound s (idx s x) H). specialize (Hc Hi). lia. Qed.

Lemma eq_spec s a b (Q : bool -> state -> Prop) E :
  wf s -> check s a -> check s b -> Q (value s a =? value s b) s -> wp (eq a b) s Q E.
Proof.
  intros H Ha Hb HQ. unfold eq. do 2 wstep. fold (idx s a) (idx s b).
  pose proof (check_value s a H Ha) as Hza. pose proof (check_value s b H Hb) as Hzb.
  destruct (Nat.eqb_spec (idx s a) 0) as [Ea|Ea], (Nat.eqb_spec (idx s b) 0) as [Eb|Eb]; cbn [andb orb].
  - wstep. by rewrite (proj2 Hza Ea), (proj2 Hzb Eb) in HQ.
  - wstep. rewrite (proj2 Hza Ea), (proj2 (Z.eqb_neq _ _)) in HQ; [done |]. intros E0. by apply Eb, Hzb.
  - wstep. rewrite (proj2 Hzb Eb), (proj2 (Z.eqb_neq _ _)) in HQ; [done |]. intros E0. by apply Ea, Hza.
  - do 2 wstep. pose proof (block_pos s a H Ha Ea). pose proof (block_pos s b H Hb Eb).
    destruct (xorb (m_sign (nums s a)) (m_sign (nums s b))) eqn:Ex.
    { wstep. rewrite (proj2 (Z.eqb_neq _ _)) in HQ by (by apply sgn_inj_ne). done. }
    wstep. do 2 (apply wp_bind, wp_words; [done |]). apply wp_bind.
    assert (Hl : forall x, length (block s (idx s x)) = m_total_sz s).
    { intros x. apply length_block, wf_lt; done. }
    assert (Hv : (value s a =? value s b) = (bval s (idx s a) =? bval s (idx s b))).
    { unfold value. apply xorb_eq in Ex. rewrite Ex. apply eq_true_iff_eq. rewrite !Z.eqb_eq.
      destruct (m_sign (nums s b)); simpl; lia. }
    rewrite Hv in HQ.
    destruct (for_up_ret_inv (fun i (_ : unit) => num i (block s (idx s a)) = num i (block s (idx s b)))
      (fun r => r = false /\ bval s (idx s a) <> bval s (idx s b)) (m_total_sz s) 0
      (fun i (_ : unit) => d1 ← rd (block s (idx s a)) i; d2 ← rd (block s (idx s b)) i;
         Some (if d1 =? d2 then Next tt else Ret false)) tt) as [([] & El & Hn)|(r & El & -> & Hn)].
    + done.
    + intros i [] Hi En. rewrite !rd_ok by (rewrite Hl; lia). cbn [mbind option_bind].
      destruct (Z.eqb_spec (limb (block s (idx s a)) i) (limb (block s (idx s b)) i)) as [Ed|Ed].
      * left. eexists. split; [done |]. cbn [num]. by rewrite En, Ed.
      * right. eexists. split; [done |]. split; [done |]. unfold bval.
        rewrite num_inj by (by apply words_block). intros Hall. apply Ed, Hall. lia.
    + eapply wp_lift; [exact El |]. wstep. by rewrite (proj2 (Z.eqb_eq (bval s (idx s a)) (bval s (idx s b))) Hn) in HQ.
    + eapply wp_lift; [exact El |]. wstep. by rewrite (proj2 (Z.eqb_neq (bval s (idx s a)) (bval s (idx s b))) Hn) in HQ.
Qed.

Lemma fx_lt_spec s a b (Q : bool -> state -> Prop) E :
  wf s -> check s a -> check s b -> Q (value s a <? value s b) s -> wp (lt a b) s Q E.
Proof.
  intros H Ha Hb HQ. unfold lt. do 5 wstep. fold (idx s a) (idx s b).
  pose proof (value_unalloc s a H) as Hza. pose proof (value_unalloc s b H) as Hzb.
  pose proof (wf_sign _ H a) as Hsa. pose proof (wf_sign _ H b) as Hsb.
  pose proof (block_pos s a H Ha) as Hpa. pose proof (block_pos s b H Hb) as Hpb.
  assert (Hl : forall x y, wp (w1 ← words x; w2 ← words y; lift (bit_util.lt (m_total_sz s) w1 w2)) s
    (fun r s' => s' = s /\ r = (bval s (idx s x) <? bval s (idx s y))) E).
  { intros x y. do 2 (apply wp_bind, wp_words; [done |]). eapply wp_lift; [| done].
    apply bit_util_array_facts.lt_spec; try (by apply words_block);
      rewrite length_block by (done || apply wf_lt; done); done. }
  assert (Hfin : forall x y, (value s a <? value s b) = (bval s (idx s x) <? bval s (idx s y)) ->
    wp (w1 ← words x; w2 ← words y; lift (bit_util.lt (m_total_sz s) w1 w2)) s Q E).
  { intros x y Ev. eapply wp_mono; [apply Hl | | done]. intros r s' [-> ->]. by rewrite <- Ev. }
  unfold value in *. destruct (Nat.eqb_spec (idx s a) 0) as [Ea|Ea].
  { wstep. rewrite Hza in HQ by done. destruct (Nat.eqb_spec (idx s b) 0) as [Eb|Eb]; cbn [negb andb].
    - rewrite Hzb in HQ by done. done.
    - specialize (Hpb Eb). destruct (m_sign (nums s b)); cbn [negb sgn] in *.
      + by rewrite (proj2 (Z.ltb_ge _ _)) in HQ by lia.
      + by rewrite (proj2 (Z.ltb_lt _ _)) in HQ by lia. }
  specialize (Hpa Ea). destruct (Nat.eqb_spec (idx s b) 0) as [Eb|Eb].
  { wstep. rewrite Hzb in HQ by done. destruct (m_sign (nums s a)); cbn [sgn] in *.
    - by rewrite (proj2 (Z.ltb_lt _ _)) in HQ by lia.
    - by rewrite (proj2 (Z.ltb_ge _ _)) in HQ by lia. }
  specialize (Hpb Eb). destruct (m_sign (nums s a)); wstep; fold (idx s b);
    rewrite (proj2 (Nat.eqb_neq _ _) Eb); destruct (m_sign (nums s b)); cbn [negb andb sgn] in *;
    try wstep.
  - apply Hfin. apply eq_true_iff_eq. rewrite !Z.ltb_lt. lia.
  - by rewrite (proj2 (Z.ltb_lt _ _)) in HQ by lia.
  - by rewrite (proj2 (Z.ltb_ge _ _)) in HQ by lia.
  - by apply Hfin.
Qed.

(** *** Integers *)

(** The words of a small integer. *)
Lemma num_two_words frac int T w lo hi :
  Prelude.words w -> T = (int + frac)%nat -> (1 <= int)%nat ->
  (forall i, (i < T)%nat -> limb w i = if decide (i = frac) then lo else
     if decide (i = frac + 1)%nat then hi else 0) ->
  num T w = Bpow frac * (lo + (if (int =? 1)%nat then 0 else 4294967296 * hi)).
Proof.
  intros Hw -> Hint Hi. rewrite Nat.add_comm, num_split.
  rewrite num_zero by (intros i Hlt; rewrite Hi, !decide_False by lia; done).
  rewrite Z.add_0_l. f_equal. destruct (Nat.eqb_spec int 1) as [->|].
  - cbn [num]. rewrite limb_drop, Hi, decide_True, Bpow_0 by lia. lia.
  - replace int with (2 + (int - 2))%nat by lia. rewrite num_split, (num_zero (int - 2)).
    + cbn [num]. rewrite !limb_drop, !Hi by lia.
      rewrite decide_True, decide_False, decide_True, Bpow_0, Bpow_S, Bpow_0 by lia. lia.
    + intros i Hlt. rewrite !limb_drop, Hi, !decide_False by lia. done.
Qed.

Lemma set_words_spec s n v (Q : unit -> state -> Prop) E lo hi (two : bool) :
  wf s -> idx s n <> 0%nat -> is_u32 lo -> is_u32 hi ->
  (two = true -> (2 <= m_int_part_sz s)%nat) -> (two = false -> hi = 0) ->
  (m_int_part_sz s = 1%nat -> hi = 0) -> v = lo + 4294967296 * hi ->
  (forall s', wf s' -> upd n s s' -> nums s' n = nums s n ->
     value s' n = sgn (m_sign (nums s n)) (v * Bpow (m_frac_part_sz s)) -> (v <> 0 -> check s' n) -> Q tt s') ->
  wp (w ← words n;
      w ← lift (zero_fill 0 (m_total_sz s) w);
      w ← lift (wr w (m_frac_part_sz s) lo);
      w ← (if two then lift (wr w (m_frac_part_sz s + 1) hi) else mret w);
      put_words n w) s Q E.
Proof.
  intros H Hi Hlo Hhi Htwo Hone Hint Hv HQ. pose proof (wf_total _ H) as HT. pose proof (wf_int _ H) as Hint0.
  apply wp_bind, wp_words; [done |].
  assert (Hl : length (block s (idx s n)) = m_total_sz s) by (apply length_block, wf_lt; done).
  apply wp_bind. eapply wp_lift. { rewrite <- Hl. apply zero_fill_ok. } rewrite Hl.
  apply wp_bind. eapply wp_lift; [apply wr_ok; rewrite length_replicate; lia |].
  set (w1 := <[m_frac_part_sz s:=lo]> (replicate (m_total_sz s) 0)).
  assert (Hl1 : length w1 = m_total_sz s) by (unfold w1; by rewrite length_insert, length_replicate).
  assert (Hw1 : Prelude.words w1) by (apply words_insert; auto using words_replicate, is_u32_0).
  assert (Hfin : forall w, length w = m_total_sz s -> Prelude.words w ->
    (forall i, (i < m_total_sz s)%nat -> limb w i = if decide (i = m_frac_part_sz s) then lo else
     if decide (i = m_frac_part_sz s + 1)%nat then hi else 0) -> wp (put_words n w) s Q E).
  { intros w Hlw Hw Hlimb.
    pose proof (num_two_words _ (m_int_part_sz s) _ w lo hi Hw HT ltac:(lia) Hlimb) as Hn.
    assert (Hn' : num (m_total_sz s) w = v * Bpow (m_frac_part_sz s)).
    { rewrite Hn, Hv. destruct (Nat.eqb_spec (m_int_part_sz s) 1) as [E1|]; [| ring].
      rewrite Hint by done. ring. }
    apply store_spec; auto. rewrite Hn'. intros s' H' Hu' Hs' Hv' Hc'. apply HQ; auto.
    intros Hnz. apply Hc'. pose proof (Bpow_pos (m_frac_part_sz s)). nia. }
  assert (Hlimb1 : forall i, (i < m_total_sz s)%nat ->
    limb w1 i = if decide (i = m_frac_part_sz s) then lo else 0).
  { intros i Hlt. unfold w1. rewrite limb_insert by (rewrite length_replicate; lia).
    repeat case_decide; try done; try lia. by apply limb_replicate. }
  apply wp_bind. destruct two.
  - specialize (Htwo eq_refl). eapply wp_lift; [apply wr_ok; lia |].
    apply Hfin; [by rewrite length_insert | by apply words_insert |]. intros i Hlt.
    rewrite limb_insert, Hlimb1 by lia. repeat case_decide; try done; lia.
  - wstep. apply Hfin; [done | done |]. intros i Hlt. rewrite Hlimb1 by done.
    repeat case_decide; try done. by rewrite Hone.
Qed.

(** Assignment of an integer [v]: the value is [v] units of the integer part. *)
Definition set_to s n v (Q : unit -> state -> Prop) : Prop :=
  forall s', wf s' -> upd n s s' -> value s' n = v * Bpow (m_frac_part_sz s) -> check s' n -> Q tt s'.

Lemma reset_set_to s n (Q : unit -> state -> Prop) E : wf s -> set_to s n 0 Q -> wp (reset n) s Q E.
Proof.
  intros H HQ. apply fx_reset_spec; [done |]. intros s' H' Hu' Hn' Hv'. apply HQ; auto.
  intros Hi. unfold idx in Hi. by rewrite Hn' in Hi.
Qed.

Lemma set_nonzero_spec s n v lo hi (two : bool) (Q : unit -> state -> Prop) E :
  wf s -> is_u32 lo -> is_u32 hi ->
  (two = true -> (2 <= m_int_part_sz s)%nat) -> (two = false -> hi = 0) ->
  (m_int_part_sz s = 1%nat -> hi = 0) -> v = lo + 4294967296 * hi -> v <> 0 ->
  (forall s', wf s' -> upd n s s' -> idx s' n <> 0%nat -> m_sign (nums s' n) = false ->
     value s' n = v * Bpow (m_frac_part_sz s) -> check s' n -> Q tt s') ->
  wp (allocate_if_needed n;;
      set_sign n false;;
      total ← gets m_total_sz;
      frac ← gets m_frac_part_sz;
      w ← words n;
      w ← lift (zero_fill 0 total w);
      w ← lift (wr w frac lo);
      w ← (if two then lift (wr w (frac + 1) hi) else mret w);
      put_words n w) s Q E.
Proof.
  intros H Hlo Hhi Htwo Hone Hint Hv Hnz HQ.
  apply wp_bind, allocate_if_needed_spec; [done |]. intros s1 H1 Hu1 Hi1 _ _. wstep.
  destruct (wf_set_sign s1 n false H1 Hi1) as [H2 Hu2]. fold (idx s1 n). set (s2 := with_num _ _ s1) in *.
  assert (Hn2 : nums s2 n = Mpfx false (idx s1 n)) by (unfold s2; by rewrite nums_with_num, decide_True).
  assert (Hi2 : idx s2 n = idx s1 n) by (unfold idx at 1; by rewrite Hn2).
  assert (Hu02 : upd n s s2) by eauto using upd_trans. do 2 wstep.
  pose proof (upd_int _ _ _ Hu02) as Eint. pose proof (upd_frac _ _ _ Hu02) as Efrac.
  apply (set_words_spec s2 n v Q E lo hi two); rewrite ?Eint, ?Hi2; auto.
  intros s3 H3 Hu3 Hn3 Hv3 Hc3. rewrite Hn2, Efrac in *. cbn [m_sign sgn] in Hv3.
  apply HQ; eauto using upd_trans.
  - unfold idx. by rewrite Hn3.
  - by rewrite Hn3.
Qed.

Lemma set_unsigned_spec s n v (Q : unit -> state -> Prop) E :
  wf s -> is_u32 v ->
  (forall s', wf s' -> upd n s s' -> (v <> 0 -> idx s' n <> 0%nat) -> m_sign (nums s' n) = false ->
     value s' n = v * Bpow (m_frac_part_sz s) -> check s' n -> Q tt s') ->
  wp (set_unsigned n v) s Q E.
Proof.
  intros H Hv HQ. unfold set_unsigned. destruct (Z.eqb_spec v 0) as [->|Hnz].
  - apply fx_reset_spec; [done |]. intros s' H' Hu' Hn' Hv'. apply HQ; auto; try done.
    + by rewrite Hn'.
    + intros Hi. unfold idx in Hi. by rewrite Hn' in Hi.
  - apply (set_nonzero_spec s n v v 0 false); auto using is_u32_0; try done; try lia; eauto.
Qed.

(** The sign set last. *)
Lemma set_negative s n v (Q : unit -> state -> Prop) E :
  wf s -> idx s n <> 0%nat -> m_sign (nums s n) = false -> value s n = v -> check s n ->
  (forall s', wf s' -> upd n s s' -> value s' n = - v -> check s' n -> Q tt s') ->
  wp (set_sign n true) s Q E.
Proof.
  intros H Hi Hs Hv Hc HQ. wstep. fold (idx s n). destruct (wf_set_sign s n true H Hi) as [H2 Hu2].
  set (s2 := with_num _ _ s) in *.
  assert (Hn2 : nums s2 n = Mpfx true (idx s n)) by (unfold s2; by rewrite nums_with_num, decide_True).
  assert (Hi2 : idx s2 n = idx s n) by (unfold idx at 1; by rewrite Hn2).
  apply HQ; auto; [| unfold check; by rewrite Hi2].
  unfold value in *. rewrite Hi2, Hn2. rewrite Hs in Hv. cbn [m_sign sgn] in *. by rewrite <- Hv.
Qed.

Lemma set_int_spec s n v (Q : unit -> state -> Prop) E :
  wf s -> -2147483648 < v < 2147483648 -> set_to s n v Q -> wp (set_int n v) s Q E.
Proof.
  intros H Hv HQ. unfold set_int. destruct (Z.eqb_spec v 0) as [->|Hnz]; [by apply reset_set_to |].
  destruct (Z.ltb_spec v 0).
  - rewrite (proj2 (Z.eqb_neq _ _)) by lia. apply wp_bind, set_unsigned_spec; [done | unfold is_u32; lia |].
    intros s1 H1 Hu1 Hi1 Hs1 Hv1 Hc1. eapply set_negative; eauto; [apply Hi1; lia |].
    intros s2 H2 Hu2 Hv2 Hc2. apply HQ; eauto using upd_trans. rewrite Hv2. lia.
  - apply set_unsigned_spec; [done | unfold is_u32; lia |]. eauto.
Qed.

Lemma set_uint64_spec s n v (Q : unit -> state -> Prop) (E : exn -> state -> Prop) :
  wf s -> 0 <= v < 18446744073709551616 ->
  (forall s', wf s' -> upd n s s' -> (v <> 0 -> idx s' n <> 0%nat) -> m_sign (nums s' n) = false ->
     value s' n = v * Bpow (m_frac_part_sz s) -> check s' n -> Q tt s') ->
  (m_int_part_sz s = 1%nat -> 4294967296 <= v -> E overflow_exception s) ->
  wp (set_uint64 n v) s Q E.
Proof.
  intros H Hv HQ HE. unfold set_uint64. wstep.
  destruct (Nat.eqb_spec (m_int_part_sz s) 1) as [E1|E1]; cbn [andb].
  - destruct (Z.ltb_spec 4294967295 v); [wstep; apply HE; [done | lia] |].
    destruct (Z.eqb_spec v 0) as [->|Hnz].
    + apply (set_unsigned_spec s n 0); [done | apply is_u32_0 | done].
    + apply (set_nonzero_spec s n v (u32 v) 0 false); auto using is_u32_0, u32_range; try done.
      rewrite u32_small by (unfold is_u32; lia). lia.
  - destruct (Z.eqb_spec v 0) as [->|Hnz].
    + apply (set_unsigned_spec s n 0); [done | apply is_u32_0 | done].
    + pose proof (wf_int _ H). rewrite Z.shiftr_div_pow2 by lia. change (2 ^ 32) with 4294967296.
      apply (set_nonzero_spec s n v (u32 v) (v / 4294967296) true); auto using u32_range; try done.
      * unfold is_u32. dlia.
      * lia.
      * unfold u32. dlia.
Qed.

Lemma set_int64_spec s n v (Q : unit -> state -> Prop) (E : exn -> state -> Prop) :
  wf s -> -9223372036854775808 < v < 9223372036854775808 -> set_to s n v Q ->
  (m_int_part_sz s = 1%nat -> 4294967296 <= Z.abs v -> E overflow_exception s) ->
  wp (set_int64 n v) s Q E.
Proof.
  intros H Hv HQ HE. unfold set_int64. wstep.
  assert (Hov : (m_int_part_sz s =? 1)%nat && ((v <? -4294967295) || (4294967295 <? v)) =
    (m_int_part_sz s =? 1)%nat && (4294967296 <=? Z.abs v)).
  { f_equal. zcases; simpl; try done; lia. }
  rewrite Hov. destruct (Nat.eqb_spec (m_int_part_sz s) 1) as [E1|E1], (Z.leb_spec 4294967296 (Z.abs v));
    cbn [andb]; try (wstep; by apply HE).
  all: destruct (Z.eqb_spec v 0) as [->|Hnz]; [by apply reset_set_to |]; destruct (Z.ltb_spec v 0).
  all: try (rewrite (proj2 (Z.eqb_neq _ _)) by lia; apply wp_bind, set_uint64_spec; [done | lia | | intros; lia];
    intros s1 Hw1 Hu1 Hi1 Hs1 Hv1 Hc1; eapply set_negative; eauto; [apply Hi1; lia |];
    intros s2 Hw2 Hu2 Hv2 Hc2; apply HQ; eauto using upd_trans; rewrite Hv2; lia).
  all: apply set_uint64_spec; [done | lia | by eauto | intros; lia].
Qed.

(** *** Reading integers back *)

Lemma two_words_spec s n (Q : Z -> state -> Prop) E :
  wf s -> (2 <= m_int_part_sz s)%nat ->
  Q (bval s (idx s n) / Bpow (m_frac_part_sz s) mod 18446744073709551616) s -> wp (two_words n) s Q E.
Proof.
  intros H Hint HQ. unfold wp, two_words. fold (idx s n).
  pose proof (wf_fit s _ H (wf_lt _ H n)) as Hf. pose proof (wf_total _ H) as HT.
  set (i := (idx s n * m_total_sz s + m_frac_part_sz s)%nat).
  rewrite !rd_ok by (unfold i; lia). cbn [mbind option_bind].
  assert (E1 : limb (m_words s) i + 4294967296 * limb (m_words s) (i + 1) =
    num 2 (drop (m_frac_part_sz s) (block s (idx s n)))).
  { cbn [num]. rewrite !limb_drop, !limb_block, Bpow_0, Bpow_S, Bpow_0 by lia.
    replace (idx s n * m_total_sz s + (m_frac_part_sz s + 0))%nat with i by (unfold i; lia).
    replace (idx s n * m_total_sz s + (m_frac_part_sz s + 1))%nat with (i + 1)%nat by (unfold i; lia). lia. }
  rewrite E1. rewrite (num_low 2 (m_int_part_sz s)) by (try (by apply Forall_drop, words_block); lia).
  change (Bpow 2) with 18446744073709551616. pose proof (words_block s (idx s n) H) as Hw.
  assert (E2 : num (m_int_part_sz s) (drop (m_frac_part_sz s) (block s (idx s n))) =
    bval s (idx s n) / Bpow (m_frac_part_sz s)).
  { unfold bval. rewrite HT, Nat.add_comm, num_split, Z.mul_comm, Z.div_add
      by (pose proof (Bpow_pos (m_frac_part_sz s)); lia).
    rewrite Z.div_small by (by apply num_bound). lia. }
  by rewrite E2.
Qed.

Lemma get_int64_spec s n v (Q : Z -> state -> Prop) E :
  wf s -> (2 <= m_int_part_sz s)%nat -> value s n = v * Bpow (m_frac_part_sz s) ->
  -9223372036854775808 <= v < 9223372036854775808 -> Q v s -> wp (get_int64 n) s Q E.
Proof.
  intros H Hint Hval Hv HQ. unfold get_int64. apply wp_bind, two_words_spec; [done | done |].
  pose proof (Bpow_pos (m_frac_part_sz s)) as HF. pose proof (bval_bound s (idx s n) H) as Hb.
  assert (Hq : bval s (idx s n) / Bpow (m_frac_part_sz s) = Z.abs v).
  { unfold value, sgn in Hval. replace (bval s (idx s n)) with (Z.abs v * Bpow (m_frac_part_sz s)).
    - by apply Z.div_mul; lia.
    - destruct (m_sign (nums s n)); nia. }
  assert (Hs : v = sgn (m_sign (nums s n)) (Z.abs v)).
  { unfold value, sgn in *. destruct (m_sign (nums s n)); nia. }
  rewrite Hq, Z.mod_small by lia. wstep.
  destruct (Z.eqb_spec (Z.abs v) 9223372036854775808); wstep.
  - assert (v = -9223372036854775808) as <- by lia. done.
  - assert (E1 : forall x, -9223372036854775808 < x < 9223372036854775808 -> to_int64 x = x).
    { intros x Hx. unfold to_int64, u64. zcases; dlia. }
    rewrite (E1 (Z.abs v)) by lia. destruct (m_sign (nums s n)); cbn [sgn] in Hs.
    + rewrite E1 by lia. by rewrite <- Hs.
    + rewrite E1 by lia. by rewrite <- Hs.
Qed.

End mpfx_values.

(** ** Powers of integers *)

Module Import mpfx_power.
Import mpfx_manager.
Implicit Types s : state.

Lemma mul_int_spec s a b c x y (Q : unit -> state -> Prop) (E : exn -> state -> Prop) :
  wf s -> value s a = x * Bpow (m_frac_part_sz s) -> value s b = y * Bpow (m_frac_part_sz s) ->
  (forall s', wf s' -> upd c s s' -> value s' c = x * y * Bpow (m_frac_part_sz s) -> Q tt s') ->
  (forall s', wf s' -> upd c s s' -> E overflow_exception s') ->
  wp (mul a b c) s Q E.
Proof.
  intros H Hx Hy HQ HE. pose proof (Bpow_pos (m_frac_part_sz s)) as HF.
  assert (Hr : round_div (m_to_plus_inf s) (value s a * value s b) (Bpow (m_frac_part_sz s)) =
    x * y * Bpow (m_frac_part_sz s)).
  { rewrite Hx, Hy. set (F := Bpow _) in *. replace (x * F * (y * F)) with (x * y * F * F) by ring.
    unfold round_div. destruct (m_to_plus_inf s); [rewrite <- Z.mul_opp_l |]; rewrite Z.div_mul; lia. }
  apply fx_mul_spec; [done | |].
  - intros s' H' Hu' Hv' _. rewrite Hr in Hv'. by apply HQ.
  - intros s' H' Hu' _. by apply HE.
Qed.

(** Everything but [b] and the function's temporary keeps its value. *)
Record kept (b : addr) s s' : Prop := {
  kept_frac : m_frac_part_sz s' = m_frac_part_sz s;
  kept_total : m_total_sz s' = m_total_sz s;
  kept_mode : m_to_plus_inf s' = m_to_plus_inf s;
  kept_value : forall y, y <> b -> y <> Tmp 0 -> value s' y = value s y }.

Lemma kept_upd b c s s' : upd c s s' -> c = b \/ c = Tmp 0 -> kept b s s'.
Proof.
  intros Hu Hc. split; try apply Hu. intros y Hb Ht. eapply upd_value; [exact Hu |]. destruct Hc; congruence.
Qed.

Lemma kept_trans b s1 s2 s3 : kept b s1 s2 -> kept b s2 s3 -> kept b s1 s3.
Proof. intros [] []. split; try congruence. intros. by rewrite kept_value1, kept_value0. Qed.

(** From [x^k] in [b] to [x^(k + n)]. *)
Lemma power_small_spec n s a b x k (Q : unit -> state -> Prop) (E : exn -> state -> Prop) :
  wf s -> a <> b -> 0 <= k -> value s a = x * Bpow (m_frac_part_sz s) ->
  value s b = x ^ k * Bpow (m_frac_part_sz s) ->
  (forall s', wf s' -> upd b s s' -> value s' b = x ^ (k + Z.of_nat n) * Bpow (m_frac_part_sz s) -> Q tt s') ->
  (forall s', wf s' -> upd b s s' -> E overflow_exception s') ->
  wp (power_small n a b) s Q E.
Proof.
  revert s k. induction n as [|n IH]; intros s k H Hab Hk Ha Hb HQ HE; cbn [power_small].
  - wstep. apply HQ; auto using upd_refl. by rewrite Z.add_0_r.
  - apply wp_bind, (mul_int_spec s a b b x (x ^ k)); auto. intros s1 H1 Hu1 Hv1.
    pose proof (upd_frac _ _ _ Hu1) as Ef. apply (IH s1 (k + 1)); rewrite ?Ef; try lia; auto.
    + rewrite (upd_value _ _ _ a Hu1) by done. done.
    + rewrite Hv1, Z.pow_add_r, Z.pow_1_r by lia. ring.
    + intros s2 H2 Hu2 Hv2. apply HQ; eauto using upd_trans. rewrite Hv2. do 2 f_equal. lia.
    + intros s2 H2 Hu2. apply HE; eauto using upd_trans.
Qed.

Lemma land_pow2 i p : 0 <= i -> negb (Z.land (2 ^ i) p =? 0) = Z.testbit p i.
Proof.
  intros Hi. assert (Ht : forall j, Z.testbit (Z.land (2 ^ i) p) j = (i =? j) && Z.testbit p j).
  { intros j. by rewrite Z.land_spec, Z.pow2_bits_eqb by lia. }
  destruct (Z.testbit p i) eqn:E.
  - apply negb_true_iff, Z.eqb_neq. intros E0. specialize (Ht i). rewrite E0, Z.bits_0, Z.eqb_refl, E in Ht. done.
  - apply negb_false_iff, Z.eqb_eq. apply Z.bits_inj'. intros j Hj. rewrite Ht, Z.bits_0.
    destruct (Z.eqb_spec i j) as [->|]; [by rewrite E | done].
Qed.

Lemma mod_pow2_step i p : 0 <= i -> 0 <= p ->
  p mod 2 ^ (i + 1) = p mod 2 ^ i + (if Z.testbit p i then 2 ^ i else 0).
Proof.
  intros Hi Hp. rewrite Z.pow_add_r, Z.pow_1_r, Z.rem_mul_r by (try apply Z.pow_nonzero; lia).
  pose proof (Z.testbit_spec' p i Hi) as Ht. rewrite <- Ht. destruct (Z.testbit p i); simpl; lia.
Qed.

(** Before round [i], [b] is [x^(p mod 2^i)] and the temporary [x^(2^i)]. *)
Lemma power_loop_spec fuel i s b x p (Q : unit -> state -> Prop) (E : exn -> state -> Prop) :
  wf s -> b <> Tmp 0 -> 0 <= i <= 31 -> 32 - i < Z.of_nat fuel -> 0 <= p < 2147483648 ->
  value s b = x ^ (p mod 2 ^ i) * Bpow (m_frac_part_sz s) ->
  value s (Tmp 0) = x ^ (2 ^ i) * Bpow (m_frac_part_sz s) ->
  (forall s', wf s' -> kept b s s' -> value s' b = x ^ p * Bpow (m_frac_part_sz s) -> Q tt s') ->
  (forall s', wf s' -> kept b s s' -> E overflow_exception s') ->
  wp (power_loop fuel (2 ^ i) p b (Tmp 0)) s Q E.
Proof.
  revert i s. induction fuel as [|fuel IH]; intros i s H Hbt Hi Hf Hp Hb Ht HQ HE; [lia |].
  cbn [power_loop]. assert (Hpi : 0 < 2 ^ i) by (apply Z.pow_pos_nonneg; lia).
  destruct (Z.leb_spec (2 ^ i) p).
  - assert (Hi31 : i <> 31).
    { intros ->. apply (Z.lt_irrefl p). eapply Z.lt_le_trans; [apply Hp | eassumption]. }
    assert (i < 31) by (clear - Hi Hi31; lia).
    rewrite land_pow2 by lia.
    assert (Hstep : forall s1, wf s1 -> kept b s s1 ->
      value s1 b = x ^ (p mod 2 ^ (i + 1)) * Bpow (m_frac_part_sz s) ->
      value s1 (Tmp 0) = value s (Tmp 0) ->
      wp (mul (Tmp 0) (Tmp 0) (Tmp 0);; power_loop fuel (u32 (2 ^ i ≪ 1)) p b (Tmp 0)) s1 Q E).
    { intros s1 Hw1 Hk1 Hb1 Ht1. pose proof (kept_frac _ _ _ Hk1) as Ef. rewrite Ht in Ht1.
      apply wp_bind, (mul_int_spec s1 _ _ _ (x ^ 2 ^ i) (x ^ 2 ^ i)); rewrite ?Ef; auto.
      - intros s2 Hw2 Hu2 Hv2. pose proof (upd_frac _ _ _ Hu2) as Ef2.
        assert (Hk2 : kept b s s2) by (eapply kept_trans; [exact Hk1 | eapply kept_upd; eauto]).
        assert (Em : u32 (2 ^ i ≪ 1) = 2 ^ (i + 1)).
        { rewrite Z.shiftl_mul_pow2, <- Z.pow_add_r by lia. apply u32_small. unfold is_u32.
          split; [apply Z.pow_nonneg; lia |]. change 4294967296 with (2 ^ 32). apply Z.pow_lt_mono_r; lia. }
        rewrite Em. apply (IH (i + 1)); rewrite ?Ef2, ?Ef; auto; try lia.
        + by rewrite (upd_value _ _ _ b Hu2) by done.
        + rewrite Hv2. f_equal. rewrite <- Z.pow_add_r by lia. f_equal.
          rewrite Z.pow_add_r, Z.pow_1_r by lia. ring.
        + intros s3 Hw3 Hk3 Hv3. apply HQ; eauto using kept_trans.
        + intros s3 Hw3 Hk3. apply HE; eauto using kept_trans.
      - intros s2 Hw2 Hu2. apply HE; [done |]. eapply kept_trans; [exact Hk1 | eapply kept_upd; eauto]. }
    pose proof (mod_pow2_step i p ltac:(lia) ltac:(lia)) as Hm.
    pose proof (Z.mod_pos_bound p (2 ^ i) Hpi).
    destruct (Z.testbit p i).
    + apply wp_bind, (mul_int_spec s _ _ _ (x ^ (p mod 2 ^ i)) (x ^ 2 ^ i)); auto.
      * intros s1 Hw1 Hu1 Hv1. apply Hstep; auto.
        -- eapply kept_upd; eauto.
        -- rewrite Hv1, Hm, Z.pow_add_r by lia. done.
        -- by apply (upd_value _ _ _ (Tmp 0) Hu1).
      * intros s1 Hw1 Hu1. apply HE; [done |]. eapply kept_upd; eauto.
    + apply wp_bind. wstep. apply Hstep; auto.
      * eapply kept_upd; eauto using upd_refl.
      * by rewrite Hm, Z.add_0_r.
  - wstep. apply HQ; auto; [eapply kept_upd; eauto using upd_refl |].
    by rewrite Z.mod_small in Hb by lia.
Qed.

Lemma power_spec s a b x p (Q : unit -> state -> Prop) (E : exn -> state -> Prop) :
  wf s -> a <> Tmp 0 -> b <> Tmp 0 -> 0 <= p < 2147483648 -> value s a = x * Bpow (m_frac_part_sz s) ->
  (idx s a = 0%nat -> 0 < p) ->
  (forall s', wf s' -> kept b s s' -> value s' b = x ^ p * Bpow (m_frac_part_sz s) -> Q tt s') ->
  (forall s', wf s' -> kept b s s' -> E overflow_exception s') ->
  wp (power a p b) s Q E.
Proof.
  intros H Hat Hbt Hp Ha Hz HQ HE. unfold power. wstep. fold (idx s a).
  assert (Hk : forall s', upd b s s' -> kept b s s') by (intros; eapply kept_upd; eauto).
  pose proof (Bpow_pos (m_frac_part_sz s)) as HF.
  destruct (Nat.eqb_spec (idx s a) 0) as [Ea|Ea].
  { rewrite (value_unalloc s a H Ea) in Ha. apply fx_reset_spec; [done |]. intros s' H' Hu' _ Hv'.
    apply HQ; auto. assert (x = 0) as -> by nia. rewrite Hv', Z.pow_0_l; [lia | auto]. }
  destruct (Z.eqb_spec p 0) as [->|].
  { apply set_int_spec; [done | lia |]. intros s' H' Hu' Hv' _. apply HQ; auto. }
  destruct (Z.eqb_spec p 1) as [->|].
  { apply set_spec; [done |]. intros s' H' Hu' Hv' _ _ _. apply HQ; auto. by rewrite Hv', Ha, Z.pow_1_r. }
  destruct (Z.eqb_spec p 2) as [->|].
  { apply (mul_int_spec s a a b x x); auto. intros s' H' Hu' Hv'. apply HQ; auto.
    by rewrite Hv', Z.pow_2_r. }
  unfold SMALL_POWER. destruct ((p <=? 8) && negb (bool_decide (a = b))) eqn:Esm.
  - apply andb_true_iff in Esm as [_ Hab]. apply negb_true_iff, bool_decide_eq_false in Hab.
    apply wp_bind, set_spec; [done |]. intros s1 H1 Hu1 Hv1 _ _ _. pose proof (upd_frac _ _ _ Hu1) as Ef.
    apply (power_small_spec _ s1 a b x 1); rewrite ?Ef; auto; try lia.
    + by rewrite (upd_value _ _ _ a Hu1) by done.
    + intros s2 H2 Hu2 Hv2. apply HQ; eauto using upd_trans. rewrite Hv2. do 2 f_equal. lia.
    + intros s2 H2 Hu2. apply HE; eauto using upd_trans.
  - apply scoped_spec. apply wp_bind, set_spec; [done |]. intros s1 H1 Hu1 Hv1 _ _ _.
    pose proof (upd_frac _ _ _ Hu1) as Ef1.
    apply wp_bind, set_int_spec; [done | lia |]. intros s2 H2 Hu2 Hv2 _.
    pose proof (upd_frac _ _ _ Hu2) as Ef2. rewrite Ef1 in *.
    assert (Hk2 : kept b s s2).
    { eapply kept_trans; eapply kept_upd; [exact Hu1 | by right | exact Hu2 | by left]. }
    assert (Hk3 : forall s3 s4, kept b s2 s3 -> upd (Tmp 0) s3 s4 -> kept b s s4).
    { intros s3 s4 Hk3 Hu4. eapply kept_trans; [exact Hk2 |]. eapply kept_trans; [exact Hk3 |].
      eapply kept_upd; eauto. }
    apply (power_loop_spec 33 0 s2 b x p); rewrite ?Ef2; auto; try lia.
    + rewrite Hv2. change (2 ^ 0) with 1. by rewrite Z.mod_1_r, Z.pow_0_r.
    + change (2 ^ 0) with 1. rewrite Z.pow_1_r, (upd_value _ _ _ (Tmp 0) Hu2) by done. by rewrite Hv1.
    + intros s3 H3 Hkk Hv3. split; [done |]. intros s4 H4 Hu4 _. apply HQ; eauto.
      by rewrite (upd_value _ _ _ b Hu4) by done.
    + intros s3 H3 Hkk. split; [done |]. intros s4 H4 Hu4 _. apply HE; eauto.
Qed.

End mpfx_power.

(** ** Properties *)

Module mpfx_properties.
Import mpfx_manager.
Implicit Types s : state.

Lemma wf_init int frac cap : (0 < int)%nat -> (0 < frac)%nat -> (0 < cap)%nat ->
  wf (init_state int frac cap).
Proof.
  intros Hi Hf Hc. split; try done; try (cbn; lia).
  - cbn. by rewrite length_replicate.
  - apply words_replicate, is_u32_0.
  - apply NoDup_nil_2.
  - intros i Hin. by apply not_elem_of_nil in Hin.
  - intros i _. unfold bval. apply num_zero. intros j Hj. rewrite limb_block by done. cbn [m_words init_state].
    destruct (decide (i * m_total_sz (init_state int frac cap) + j < cap * (int + frac))%nat).
    + by apply limb_replicate.
    + apply limb_ge. rewrite length_replicate. lia.
  - split; [apply words_replicate, is_u32_0 | cbn; by rewrite length_replicate].
  - split; [apply words_replicate, is_u32_0 | cbn; by rewrite length_replicate].
  - split; [apply words_replicate, is_u32_0 | cbn; by rewrite length_replicate].
Qed.

(** A state with [-5] in variable 0 and [2] in variable 1. *)
Definition sample_prog : M unit := set_int (Var 0) (-5);; set_int (Var 1) 2.
Definition sample : state :=
  match sample_prog (init_state 2 1 2) with Some (Val _, s) => s | _ => init_state 2 1 2 end.

Lemma wp_final {A} (m : M A) s (P : state -> Prop) : wp m s (fun _ s' => P s') (fun _ _ => False) ->
  P (match m s with Some (Val _, s') => s' | _ => s end).
Proof. unfold wp. by destruct (m s) as [[[a|e] s']|]. Qed.

Lemma sample_wp : wp sample_prog (init_state 2 1 2)
  (fun _ s => wf s /\ check s (Var 0) /\ check s (Var 1)) (fun _ _ => False).
Proof.
  apply wp_bind, set_int_spec; [apply wf_init; lia | lia |]. intros s1 H1 Hu1 Hv1 Hc1.
  apply set_int_spec; [done | lia |]. intros s2 H2 Hu2 Hv2 Hc2. split; [done |]. split; [| done].
  assert (Hn : Var 0 <> Var 1) by done. unfold check, idx, bval in *.
  rewrite (upd_num _ _ _ Hu2 _ Hn), (upd_total _ _ _ Hu2).
  by rewrite (upd_blk _ _ _ Hu2 _ Hn : block s2 (m_sig_idx (nums s1 (Var 0))) = _).
Qed.

Lemma sample_ok : wf sample /\ check sample (Var 0) /\ check sample (Var 1).
Proof. exact (wp_final _ _ _ sample_wp). Qed.

(** C9: Addition and subtraction of fixed point numbers are exact for every aliasing of operands
    and result; [overflow_exception] is thrown only when the magnitude of the exact result does
    not fit in the words of a numeral; in both cases the memory stays well formed and every other
    numeral keeps its words. *)
Theorem add_sub_exact (is_sub : bool) s a b c :
  wf s ->
  let r := if is_sub then value s a - value s b else value s a + value s b in
  wp (add_sub is_sub a b c) s
    (fun _ s' => wf s' /\ upd c s s' /\ value s' c = r /\ (check s a -> check s b -> check s' c))
    (fun e s' => e = overflow_exception /\ wf s' /\ upd c s s' /\ Bpow (m_total_sz s) <= Z.abs r).
Proof. intros H r. by apply add_sub_spec. Qed.

Lemma add_sub_exact_witness :
  let r := value sample (Var 0) - value sample (Var 1) in
  wp (add_sub true (Var 0) (Var 1) (Var 0)) sample
    (fun _ s' => wf s' /\ upd (Var 0) sample s' /\ value s' (Var 0) = r /\
       (check sample (Var 0) -> check sample (Var 1) -> check s' (Var 0)))
    (fun e s' => e = overflow_exception /\ wf s' /\ upd (Var 0) sample s' /\
       Bpow (m_total_sz sample) <= Z.abs r).
Proof. apply (add_sub_exact true sample (Var 0) (Var 1) (Var 0)). apply sample_ok. Defined.

(** C8: Multiplication returns the exact product rounded in the manager's mode (towards plus
    infinity or minus infinity) to the last fractional bit, or throws [overflow_exception] when
    the rounded product does not fit; operands and result may alias. *)
Theorem mul_rounded s a b c :
  wf s ->
  let r := round_div (m_to_plus_inf s) (value s a * value s b) (Bpow (m_frac_part_sz s)) in
  wp (mul a b c) s
    (fun _ s' => wf s' /\ upd c s s' /\ value s' c = r /\ (r <> 0 -> check s' c))
    (fun e s' => e = overflow_exception /\ wf s' /\ upd c s s' /\ Bpow (m_total_sz s) <= Z.abs r).
Proof. intros H r. by apply fx_mul_spec. Qed.

Lemma mul_rounded_witness :
  let r := round_div false (value sample (Var 0) * value sample (Var 1)) (Bpow 1) in
  wp (mul (Var 0) (Var 1) (Var 0)) sample
    (fun _ s' => wf s' /\ upd (Var 0) sample s' /\ value s' (Var 0) = r /\ (r <> 0 -> check s' (Var 0)))
    (fun e s' => e = overflow_exception /\ wf s' /\ upd (Var 0) sample s' /\ Bpow 3 <= Z.abs r).
Proof. apply (mul_rounded sample (Var 0) (Var 1) (Var 0)). apply sample_ok. Defined.

(** C7: Division returns the quotient rounded in the manager's mode, throws [div0_exception]
    exactly for a zero divisor and [overflow_exception] only when the rounded quotient does not
    fit.  The hypothesis excludes the one case the code gets wrong: a rounding whose carry needs
    a word that the quotient did not have. *)
Theorem div_rounded s a b c :
  wf s -> check s a -> check s b -> ~ carry_lost s a b ->
  let r := round_div (m_to_plus_inf s) (Z.sgn (value s b) * (Bpow (m_frac_part_sz s) * value s a))
             (Z.abs (value s b)) in
  wp (div a b c) s
    (fun _ s' => value s b <> 0 /\ wf s' /\ upd c s s' /\ value s' c = r /\ check s' c)
    (fun e s' => (e = div0_exception /\ value s b = 0 /\ s' = s) \/
       (e = overflow_exception /\ value s b <> 0 /\ wf s' /\ upd c s s' /\
        Bpow (m_total_sz s) <= Z.abs r)).
Proof.
  intros H Ha Hb Hcar r. pose proof (check_value s b H Hb) as Hz.
  destruct (decide (idx s b = 0%nat)) as [Eb|Eb].
  - unfold div. wstep. fold (idx s b). rewrite (proj2 (Nat.eqb_eq _ _) Eb). wstep. left.
    split; [done |]. split; [by apply Hz | done].
  - assert (Hnz : value s b <> 0) by (intros E; by apply Eb, Hz).
    unfold r. rewrite <- quot_round by done. apply fx_div_spec; auto 10.
Qed.

Lemma div_rounded_witness :
  let r := round_div false (Z.sgn (value sample (Var 1)) * (Bpow 1 * value sample (Var 0)))
             (Z.abs (value sample (Var 1))) in
  wp (div (Var 0) (Var 1) (Var 1)) sample
    (fun _ s' => value sample (Var 1) <> 0 /\ wf s' /\ upd (Var 1) sample s' /\ value s' (Var 1) = r /\
       check s' (Var 1))
    (fun e s' => (e = div0_exception /\ value sample (Var 1) = 0 /\ s' = sample) \/
       (e = overflow_exception /\ value sample (Var 1) <> 0 /\ wf s' /\ upd (Var 1) sample s' /\
        Bpow 3 <= Z.abs r)).
Proof.
  apply (div_rounded sample (Var 0) (Var 1) (Var 1));
    [apply sample_ok | apply sample_ok | apply sample_ok |].
  intros [Hup _]. vm_compute in Hup. discriminate.
Defined.

(** [div2k] divides by [2^k] and [floor] and [ceil] round to an integer; the first rounds in
    the manager's mode and never throws, [floor] and [ceil] throw [overflow_exception] only when
    the integer does not fit. *)
Theorem rounding_correct s a k :
  wf s ->
  let F := Bpow (m_frac_part_sz s) in
  (check s a -> wp (div2k a k) s
    (fun _ s' => wf s' /\ upd a s s' /\ check s' a /\
       value s' a = round_div (m_to_plus_inf s) (value s a) (2 ^ Z.of_nat k)) (fun _ _ => False)) /\
  (forall up : bool, wp ((if up then ceil else floor) a) s
    (fun _ s' => wf s' /\ upd a s s' /\ check s' a /\ value s' a = round_div up (value s a) F * F)
    (fun e s' => e = overflow_exception /\ wf s' /\ upd a s s' /\
       Bpow (m_total_sz s) <= Z.abs (round_div up (value s a) F * F))).
Proof.
  intros H F. split.
  - intros Hc. apply div2k_spec; auto.
  - intros up. pose proof (wf_sign _ H a) as Hs.
    assert (Hr : forall away : bool, (idx s a <> 0%nat -> away = xorb (m_sign (nums s a)) up) ->
      (idx s a = 0%nat -> away = false) -> wp (round_int away a) s
      (fun _ s' => wf s' /\ upd a s s' /\ check s' a /\ value s' a = round_div up (value s a) F * F)
      (fun e s' => e = overflow_exception /\ wf s' /\ upd a s s' /\
       Bpow (m_total_sz s) <= Z.abs (round_div up (value s a) F * F))).
    { intros away Hnz Hz. apply (round_int_spec s a up); auto. }
    destruct up; [unfold ceil | unfold floor]; wstep; fold (idx s a); apply Hr.
    + intros Hi. rewrite (proj2 (Nat.eqb_neq _ _) Hi). by destruct (m_sign _).
    + intros ->. by rewrite andb_false_r.
    + intros _. by destruct (m_sign _).
    + done.
Qed.

Lemma rounding_correct_witness :
  let F := Bpow 1 in
  (check sample (Var 0) -> wp (div2k (Var 0) 3) sample
    (fun _ s' => wf s' /\ upd (Var 0) sample s' /\ check s' (Var 0) /\
       value s' (Var 0) = round_div false (value sample (Var 0)) (2 ^ 3)) (fun _ _ => False)) /\
  (forall up : bool, wp ((if up then ceil else floor) (Var 0)) sample
    (fun _ s' => wf s' /\ upd (Var 0) sample s' /\ check s' (Var 0) /\
       value s' (Var 0) = round_div up (value sample (Var 0)) F * F)
    (fun e s' => e = overflow_exception /\ wf s' /\ upd (Var 0) sample s' /\
       Bpow 3 <= Z.abs (round_div up (value sample (Var 0)) F * F))).
Proof. apply (rounding_correct sample (Var 0) 3). apply sample_ok. Defined.

(** C15: [eq] and [lt] decide equality and order of the numbers and change nothing. *)
Theorem order_correct s a b :
  wf s -> check s a -> check s b ->
  wp (eq a b) s (fun r s' => s' = s /\ r = (value s a =? value s b)) (fun _ _ => False) /\
  wp (lt a b) s (fun r s' => s' = s /\ r = (value s a <? value s b)) (fun _ _ => False).
Proof. intros H Ha Hb. split; [by apply eq_spec | by apply fx_lt_spec]. Qed.

Lemma order_correct_witness :
  wp (eq (Var 0) (Var 1)) sample
    (fun r s' => s' = sample /\ r = (value sample (Var 0) =? value sample (Var 1))) (fun _ _ => False) /\
  wp (lt (Var 0) (Var 1)) sample
    (fun r s' => s' = sample /\ r = (value sample (Var 0) <? value sample (Var 1))) (fun _ _ => False).
Proof. apply (order_correct sample (Var 0) (Var 1)); apply sample_ok. Defined.

(** Machine integers survive the round trip: with at least two words for the integer part,
    [set_int64] followed by [get_int64] returns the integer and never throws. *)
Lemma int64_roundtrip s n v :
  wf s -> (2 <= m_int_part_sz s)%nat -> -9223372036854775808 < v < 9223372036854775808 ->
  wp (set_int64 n v;; get_int64 n) s
    (fun r s' => r = v /\ wf s' /\ upd n s s' /\ check s' n /\ value s' n = v * Bpow (m_frac_part_sz s))
    (fun _ _ => False).
Proof.
  intros H Hint Hv. apply wp_bind, set_int64_spec; [done | done | | lia].
  intros s1 H1 Hu1 Hv1 Hc1. apply (get_int64_spec s1 n v); auto; [| | lia].
  - by rewrite (upd_int _ _ _ Hu1).
  - by rewrite (upd_frac _ _ _ Hu1).
Qed.

Lemma int64_roundtrip_witness :
  wp (set_int64 (Var 0) (-1234567890123);; get_int64 (Var 0)) sample
    (fun r s' => r = -1234567890123 /\ wf s' /\ upd (Var 0) sample s' /\ check s' (Var 0) /\
       value s' (Var 0) = -1234567890123 * Bpow 1)
    (fun _ _ => False).
Proof. apply (int64_roundtrip sample (Var 0)); [apply sample_ok | vm_compute; lia | lia]. Defined.

(** C10: [power] of an integer [x] terminates and is exactly [x^p], or throws
    [overflow_exception]; [b] may be [a], and every numeral but [b] and the function's temporary
    keeps its value. *)
Theorem power_exact s a b x p :
  wf s -> a <> Tmp 0 -> b <> Tmp 0 -> 0 < p < 2147483648 ->
  value s a = x * Bpow (m_frac_part_sz s) ->
  wp (power a p b) s
    (fun _ s' => wf s' /\ kept b s s' /\ value s' b = x ^ p * Bpow (m_frac_part_sz s))
    (fun e s' => e = overflow_exception /\ wf s' /\ kept b s s').
Proof. intros H Ha Hb Hp Hv. apply power_spec with x; auto; lia. Qed.

Lemma power_exact_witness :
  wp (power (Var 0) 13 (Var 0)) sample
    (fun _ s' => wf s' /\ kept (Var 0) sample s' /\ value s' (Var 0) = (-5) ^ 13 * Bpow 1)
    (fun e s' => e = overflow_exception /\ wf s' /\ kept (Var 0) sample s').
Proof.
  apply (power_exact sample (Var 0) (Var 0) (-5) 13);
    [apply sample_ok | done | done | lia | reflexivity].
Defined.

(** *** Defects *)





(** A negative number is taken for a power of two, a number below [-2^63] for an [int64], and
    [set_plus_epsilon] of a zero writes into the block all zeros share. *)
Lemma test_defects :
  option_map fst ((set_int (Var 0) (-4);; is_power_of_two (Var 0)) (init_state 2 1 2)) =
    Some (Val (Some 2)) /\
  option_map fst ((set_mpz (Var 0) (-2 ^ 63 - 5);; is_int64 (Var 0)) (init_state 2 1 2)) =
    Some (Val true) /\
  option_map (fun '(_, s) => (idx s (Var 0), limb (m_words s) 0))
    (set_plus_epsilon (Var 0) (init_state 2 1 2)) = Some (0%nat, 1).
Proof. split; [| split]; vm_compute; reflexivity. Qed.

End mpfx_properties.
