(* ===== verification/Mpbq.v ===== *)
(** * Mpbq: binary rationals ([util/mpbq.cpp])

    A numeral is [m_num / 2^m_k]; the manager keeps numerals normalized ([m_k = 0] or [m_num] odd),
    which [eq] relies on.  Numerators are [mpz], here integers; [m_k] is an [unsigned].  Rationals
    ([mpq]) are the standard library's [Q] in lowest terms.  An operation returns its result object;
    where the result may be an operand and the code reads the operand again after writing the
    result ([mul]), the aliasing is an argument. *)
From S2P Require Import Prelude.
From Stdlib Require Import ZArith Lia Lqa QArith Qpower Qround Qreduction.
From stdpp Require Import base tactics option list numbers.
Open Scope Z_scope.
Open Scope word_scope.

(** ** The operations of [mpz] the code uses *)

Module mpz_manager.

Fixpoint pos_twos (p : positive) : Z :=
  match p with xO p' => 1 + pos_twos p' | _ => 0 end.
Definition power_of_two_multiple (a : Z) : Z :=
  match a with Z0 => 0 | Zpos p | Zneg p => pos_twos p end.

(** Truncates towards zero. *)
Definition machine_div2k (a k : Z) : Z := Z.quot a (2 ^ k).
Definition mul2k (a k : Z) : Z := a * 2 ^ k.

Definition is_power_of_two (a : Z) : option Z :=
  if (0 <? a) && (a =? 2 ^ Z.log2 a) then Some (Z.log2 a) else None.

(** [a / n] rounded down and up, for [unsigned]. *)
Definition div_l (k n : Z) : Z := k / n.
Definition div_u (k n : Z) : Z := if k mod n =? 0 then k / n else k / n + 1.

(** The bisection of [root]: the root or its upper bound, and whether it is exact. *)
Fixpoint root_loop (fuel : nat) (a n lower upper : Z) : option (Z * bool) :=
  match fuel with
  | O => None
  | S fuel' =>
      let mid := machine_div2k (upper + lower) 1 in
      let mid_n := mid ^ n in
      if mid_n =? a then Some (mid, true)
      else if (mid =? lower) || (mid =? upper) then Some (upper, false)
      else if mid_n <? a then root_loop fuel' a n mid upper
      else root_loop fuel' a n lower mid
  end.

Definition root (fuel : nat) (a n : Z) : option (Z * bool) :=
  if a =? 0 then Some (a, true)
  else
    let '(lower, upper) :=
      if 0 <? a then
        let k := Z.log2 a in (2 ^ div_l k n, 2 ^ div_u (k + 1) n)
      else
        let k := Z.log2 (- a) in (- 2 ^ div_u (k + 1) n, - 2 ^ div_l k n) in
    if lower =? upper then Some (lower, true) else root_loop fuel a n lower upper.

End mpz_manager.

(** ** Binary rationals *)

Module mpbq_manager.
Import mpz_manager.

Record mpbq := Mpbq { m_num : Z; m_k : Z }.

Definition normalize (a : mpbq) : mpbq :=
  if m_k a =? 0 then a
  else if m_num a =? 0 then Mpbq (m_num a) 0
  else
    let k := power_of_two_multiple (m_num a) in
    let k := if m_k a <? k then m_k a else k in
    Mpbq (machine_div2k (m_num a) k) (m_k a - k).

(** [set(a, n, k)] *)
Definition mk (n k : Z) : mpbq := normalize (Mpbq n k).
Definition of_mpz (n : Z) : mpbq := Mpbq n 0.

Definition is_int (a : mpbq) : bool := m_k a =? 0.
Definition is_zero (a : mpbq) : bool := m_num a =? 0.
Definition is_pos (a : mpbq) : bool := 0 <? m_num a.
Definition is_neg (a : mpbq) : bool := m_num a <? 0.

(** The two's complement reading of an [unsigned] converted to [int]. *)
Definition to_int (x : Z) : Z := let x := u32 x in if x <? 2147483648 then x else x - 4294967296.

Definition magnitude_lb (a : mpbq) : Z :=
  if m_num a =? 0 then 0
  else if 0 <? m_num a then to_int (Z.log2 (m_num a) - m_k a)
  else to_int (Z.log2 (- m_num a) - m_k a + 1).
Definition magnitude_ub (a : mpbq) : Z :=
  if m_num a =? 0 then 0
  else if 0 <? m_num a then to_int (Z.log2 (m_num a) - m_k a + 1)
  else to_int (Z.log2 (- m_num a) - m_k a).

Definition neg (a : mpbq) : mpbq := Mpbq (- m_num a) (m_k a).
Definition div2k (a : mpbq) (k : Z) : mpbq :=
  let old_k_zero := m_k a =? 0 in
  let a := Mpbq (m_num a) (u32 (m_k a + k)) in
  if old_k_zero then normalize a else a.
Definition div2 (a : mpbq) : mpbq := div2k a 1.

Definition mul2 (a : mpbq) : mpbq :=
  if m_k a =? 0 then Mpbq (mpz_manager.mul2k (m_num a) 1) (m_k a) else Mpbq (m_num a) (m_k a - 1).
Definition mul2k (a : mpbq) (k : Z) : mpbq :=
  if k =? 0 then a
  else if m_k a <? k then Mpbq (mpz_manager.mul2k (m_num a) (k - m_k a)) 0
  else Mpbq (m_num a) (m_k a - k).

Definition add (a b : mpbq) : mpbq :=
  normalize
    (if m_k a =? m_k b then Mpbq (m_num a + m_num b) (m_k a)
     else if m_k a <? m_k b then
       Mpbq (m_num b + mpz_manager.mul2k (m_num a) (m_k b - m_k a)) (m_k b)
     else Mpbq (m_num a + mpz_manager.mul2k (m_num b) (m_k a - m_k b)) (m_k a)).

Definition add_mpz (a : mpbq) (b : Z) : mpbq :=
  normalize
    (if m_k a =? 0 then Mpbq (m_num a + b) (m_k a)
     else Mpbq (m_num a + mpz_manager.mul2k b (m_k a)) (m_k a)).

Definition sub (a b : mpbq) : mpbq :=
  normalize
    (if m_k a =? m_k b then Mpbq (m_num a - m_num b) (m_k a)
     else if m_k a <? m_k b then
       Mpbq (mpz_manager.mul2k (m_num a) (m_k b - m_k a) - m_num b) (m_k b)
     else Mpbq (m_num a - mpz_manager.mul2k (m_num b) (m_k a - m_k b)) (m_k a)).

Definition sub_mpz (a : mpbq) (b : Z) : mpbq :=
  normalize
    (if m_k a =? 0 then Mpbq (m_num a - b) (m_k a)
     else Mpbq (m_num a - mpz_manager.mul2k b (m_k a)) (m_k a)).

(** [mul(a, b, r)]: [a_is_r] and [b_is_r] tell which operand is the result's object; the test
    after the assignments reads its new exponent. *)
Definition mul (a_is_r b_is_r : bool) (a b : mpbq) : mpbq :=
  let r := Mpbq (m_num a * m_num b) (u32 (m_k a + m_k b)) in
  let a_k := if a_is_r then m_k r else m_k a in
  let b_k := if b_is_r then m_k r else m_k b in
  if (a_k =? 0) || (b_k =? 0) then normalize r else r.

Definition mul_mpz (a : mpbq) (b : Z) : mpbq := normalize (Mpbq (m_num a * b) (m_k a)).

(** [addmul(a, b, c, r)]: the product is computed in a temporary. *)
Definition addmul (a b c : mpbq) : mpbq := add a (mul false false b c).

Definition power (a : mpbq) (k : Z) : mpbq := Mpbq (m_num a ^ k) (u32 (m_k a * k)).

Definition root_lower (fuel : nat) (a : mpbq) (n : Z) : option (mpbq * bool) :=
  '(num, r) ← root fuel (m_num a) n;
  let num := if r : bool then num else num - 1 in
  Some (if m_k a mod n =? 0 then (normalize (Mpbq num (m_k a / n)), r)
        else if num <? 0 then (normalize (Mpbq num (m_k a / n)), false)
        else (normalize (Mpbq num (m_k a / n + 1)), false)).

Definition root_upper (fuel : nat) (a : mpbq) (n : Z) : option (mpbq * bool) :=
  '(num, r) ← root fuel (m_num a) n;
  Some (if m_k a mod n =? 0 then (normalize (Mpbq num (m_k a / n)), r)
        else if num <? 0 then (normalize (Mpbq num (m_k a / n + 1)), false)
        else (normalize (Mpbq num (m_k a / n)), false)).

(** ** Comparisons *)

Definition eq (a b : mpbq) : bool := (m_k a =? m_k b) && (m_num a =? m_num b).

Definition lt (a b : mpbq) : bool :=
  if m_k a =? m_k b then m_num a <? m_num b
  else if m_k a <? m_k b then mpz_manager.mul2k (m_num a) (m_k b - m_k a) <? m_num b
  else m_num a <? mpz_manager.mul2k (m_num b) (m_k a - m_k b).
Definition gt (a b : mpbq) : bool := lt b a.
Definition le (a b : mpbq) : bool := negb (gt a b).

Definition lt_1div2k (a : mpbq) (k : Z) : bool :=
  if m_num a <=? 0 then true
  else if m_k a <=? k then false
  else m_num a <? mpz_manager.mul2k 1 (m_k a - k).

Definition is_one (z : Z) : bool := z =? 1.

Definition eq_mpq (a : mpbq) (b : Q) : bool :=
  if is_int a && is_one (Zpos (Qden b)) then m_num a =? Qnum b
  else mpz_manager.mul2k (Qnum b) (m_k a) =? m_num a * Zpos (Qden b).
Definition lt_mpq (a : mpbq) (b : Q) : bool :=
  if is_int a && is_one (Zpos (Qden b)) then m_num a <? Qnum b
  else m_num a * Zpos (Qden b) <? mpz_manager.mul2k (Qnum b) (m_k a).
Definition le_mpq (a : mpbq) (b : Q) : bool :=
  if is_int a && is_one (Zpos (Qden b)) then m_num a <=? Qnum b
  else m_num a * Zpos (Qden b) <=? mpz_manager.mul2k (Qnum b) (m_k a).
Definition gt_mpq (a : mpbq) (b : Q) : bool := negb (le_mpq a b).

Definition lt_mpz (a : mpbq) (b : Z) : bool :=
  if is_int a then m_num a <? b else m_num a <? mpz_manager.mul2k b (m_k a).
Definition le_mpz (a : mpbq) (b : Z) : bool :=
  if is_int a then m_num a <=? b else m_num a <=? mpz_manager.mul2k b (m_k a).

(** ** Conversion and refinement *)

Definition to_mpbq (q : Q) : mpbq * bool :=
  let n := Qnum q in
  let d := Zpos (Qden q) in
  if is_one d then (of_mpz n, true)
  else match is_power_of_two d with
       | Some k => (mk n k, true)
       | None => (mk n (Z.log2 d + 1), false)
       end.

(** The loop bisects until the new bound is found; returns [(l, u)]. *)
Fixpoint refine_upper (fuel : nat) (q : Q) (l u : mpbq) : option (mpbq * mpbq) :=
  match fuel with
  | O => None
  | S fuel' =>
      let mid := div2 (add l u) in
      if gt_mpq mid q then Some (l, mid) else refine_upper fuel' q mid u
  end.
Fixpoint refine_lower (fuel : nat) (q : Q) (l u : mpbq) : option (mpbq * mpbq) :=
  match fuel with
  | O => None
  | S fuel' =>
      let mid := div2 (add l u) in
      if lt_mpq mid q then Some (mid, u) else refine_lower fuel' q l mid
  end.

Definition floor (a : mpbq) : Z :=
  if is_int a then m_num a
  else
    let f := machine_div2k (m_num a) (m_k a) in
    if is_neg a then f - 1 else f.
Definition ceil (a : mpbq) : Z :=
  if is_int a then m_num a
  else
    let c := machine_div2k (m_num a) (m_k a) in
    if is_pos a then c + 1 else c.

(** *** Selecting an integer in an interval *)

Definition pick (ceil_lower floor_upper : Z) : option Z :=
  if ceil_lower <=? floor_upper then Some ceil_lower else None.

(** [[lower, upper]] *)
Definition select_integer (lower upper : mpbq) : option Z :=
  if is_int lower then Some (m_num lower)
  else if is_int upper then Some (m_num upper)
  else pick (ceil lower) (floor upper).

Definition is_int_mpq (q : Q) : bool := is_one (Zpos (Qden q)).
(** The least integer above and the greatest integer below an excluded bound. *)
Definition above_mpq (q : Q) : Z := if is_int_mpq q then Qnum q + 1 else Qceiling q.
Definition below_mpq (q : Q) : Z := if is_int_mpq q then Qnum q - 1 else Qfloor q.

(** [(lower, upper]] *)
Definition select_integer_qb (lower : Q) (upper : mpbq) : option Z :=
  if is_int upper then Some (m_num upper) else pick (above_mpq lower) (floor upper).
(** [[lower, upper)] *)
Definition select_integer_bq (lower : mpbq) (upper : Q) : option Z :=
  if is_int lower then Some (m_num lower) else pick (ceil lower) (below_mpq upper).
(** [(lower, upper)] *)
Definition select_integer_qq (lower upper : Q) : option Z :=
  pick (above_mpq lower) (below_mpq upper).

Definition LINEAR_SEARCH_THRESHOLD : Z := 8.

Fixpoint select_linear (fuel : nat) (k : Z) (l2k u2k : mpbq) : option mpbq :=
  match fuel with
  | O => None
  | S fuel' =>
      let k := k + 1 in
      let l2k := mul2 l2k in
      let u2k := mul2 u2k in
      match select_integer l2k u2k with
      | Some aux => Some (mk aux k)
      | None => select_linear fuel' k l2k u2k
      end
  end.

(** [aux] keeps the last integer selected.  [None] also when the final [VERIFY] fails. *)
Fixpoint select_binary (fuel : nat) (lower upper : mpbq) (min_k max_k aux : Z) : option mpbq :=
  match fuel with
  | O => None
  | S fuel' =>
      let mid_k := min_k + (max_k - min_k) / 2 in
      let '(min_k, max_k, aux) :=
        match select_integer (mul2k lower mid_k) (mul2k upper mid_k) with
        | Some aux => (min_k, mid_k, aux)
        | None => (mid_k + 1, max_k, aux)
        end in
      if min_k =? max_k then
        if max_k =? mid_k then Some (mk aux max_k)
        else
          aux ← select_integer (mul2k lower max_k) (mul2k upper max_k);
          Some (mk aux max_k)
      else select_binary fuel' lower upper min_k max_k aux
  end.

Definition select_small_core (fuel : nat) (lower upper : mpbq) : option mpbq :=
  match select_integer lower upper with
  | Some aux => Some (of_mpz aux)
  | None =>
      let max_k := Z.min (m_k lower) (m_k upper) in
      if max_k <=? LINEAR_SEARCH_THRESHOLD then select_linear fuel 0 lower upper
      else select_binary fuel lower upper 0 max_k 0
  end.

(** The outer [option] is the loops' termination, the inner one the answer. *)
Definition select_small (fuel : nat) (lower upper : mpbq) : option (option mpbq) :=
  if gt lower upper then Some None
  else r ← select_small_core fuel lower upper; Some (Some r).

Definition mul2_mpq (q : Q) : Q := Qred (q * 2).

(** The loops of the three variants with rational bounds. *)
Fixpoint select_scaled {L U} (double_l : L -> L) (double_u : U -> U)
    (select : L -> U -> option Z) (fuel : nat) (k : Z) (l : L) (u : U) : option mpbq :=
  match fuel with
  | O => None
  | S fuel' =>
      let k := k + 1 in
      let l := double_l l in
      let u := double_u u in
      match select l u with
      | Some aux => Some (mk aux k)
      | None => select_scaled double_l double_u select fuel' k l u
      end
  end.

Definition select_small_core_qb (fuel : nat) (lower : Q) (upper : mpbq) : option mpbq :=
  match select_integer_qb lower upper with
  | Some aux => Some (of_mpz aux)
  | None => select_scaled mul2_mpq mul2 select_integer_qb fuel 0 lower upper
  end.
Definition select_small_core_bq (fuel : nat) (lower : mpbq) (upper : Q) : option mpbq :=
  match select_integer_bq lower upper with
  | Some aux => Some (of_mpz aux)
  | None => select_scaled mul2 mul2_mpq select_integer_bq fuel 0 lower upper
  end.
Definition select_small_core_qq (fuel : nat) (lower upper : Q) : option mpbq :=
  match select_integer_qq lower upper with
  | Some aux => Some (of_mpz aux)
  | None => select_scaled mul2_mpq mul2_mpq select_integer_qq fuel 0 lower upper
  end.

(** ** Approximation *)

Definition approx (a : mpbq) (k : Z) (to_plus_inf : bool) : mpbq :=
  if m_k a <=? k then a
  else
    let sgn := m_num a <? 0 in
    let _inc := xorb sgn to_plus_inf in
    let shift := m_k a - k in
    let num := machine_div2k (Z.abs (m_num a)) shift in
    let num := if _inc then num + 1 else num in
    let num := if sgn then - num else num in
    normalize (Mpbq num k).

Definition divides (a b : Z) : bool := if a =? 0 then b =? 0 else Z.rem b a =? 0.

Definition approx_div (a b : mpbq) (k : Z) (to_plus_inf : bool) : mpbq :=
  match is_power_of_two (m_num b) with
  | Some k_prime =>
      let num := if 0 <? m_k b then m_num a * 2 ^ m_k b else m_num a in
      normalize (Mpbq num (u32 (m_k a + k_prime)))
  | None =>
      if divides (m_num b) (m_num a) then
        let num := Z.quot (m_num a) (m_num b) in
        normalize (if m_k b <=? m_k a then Mpbq num (m_k a - m_k b)
                   else Mpbq (mpz_manager.mul2k num (m_k b - m_k a)) 0)
      else
        let sgn := xorb (is_neg a) (is_neg b) in
        let abs_a := Z.abs (m_num a) in
        let abs_b := Z.abs (m_num b) in
        let norm_a :=
          if m_k b <? m_k a then
            if m_k a - m_k b <=? k then mpz_manager.mul2k abs_a (k - (m_k a - m_k b))
            else machine_div2k abs_a (m_k a - m_k b - k)
          else mpz_manager.mul2k abs_a (u32 (k + m_k b - m_k a)) in
        let num := Z.quot norm_a abs_b in
        let num := if xorb sgn to_plus_inf then num + 1 else num in
        let num := if sgn then - num else num in
        normalize (Mpbq num k)
  end.

(** ** Printing, as the tokens sent to the stream; a number is printed by [mpz]'s [to_string]. *)

Inductive token := Str (s : list Z) | Num (n : Z).

(** The digit loop of [display_decimal]: [n1] is the remainder over [two_k]. *)
Fixpoint decimal_loop (prec : nat) (n1 two_k : Z) : list token :=
  match prec with
  | O => [Str [63]]
  | S prec' =>
      let n1 := n1 * 10 in
      let v1 := Z.quot n1 two_k in
      let n1 := Z.rem n1 two_k in
      Num v1 :: (if n1 =? 0 then [] else decimal_loop prec' n1 two_k)
  end.

Definition display_decimal (a : mpbq) (prec : nat) : list token :=
  if is_int a then [Num (m_num a)]
  else
    let two_k := 2 ^ m_k a in
    let v1 := Z.abs (m_num a) in
    let n1 := Z.rem v1 two_k in
    (if m_num a <? 0 then [Str [45]] else []) ++
    [Num (Z.quot v1 two_k); Str [46]] ++ decimal_loop prec n1 two_k.

(** The digits two numbers share, for an interval [[a, b]]. *)
Fixpoint common_loop (prec : nat) (n1 n2 two_k1 two_k2 : Z) : list token :=
  match prec with
  | O => [Str [63]]
  | S prec' =>
      let n1 := n1 * 10 in
      let n2 := n2 * 10 in
      let v1 := Z.quot n1 two_k1 in
      let v2 := Z.quot n2 two_k2 in
      if v1 =? v2 then
        let n1 := Z.rem n1 two_k1 in
        let n2 := Z.rem n2 two_k2 in
        Num v1 :: (if (n1 =? 0) && (n2 =? 0) then [] else common_loop prec' n1 n2 two_k1 two_k2)
      else [Str [63]]
  end.

Definition display_common (a b : mpbq) (prec : nat) : list token :=
  if xorb (m_num a <? 0) (m_num b <? 0) then [Str [63]]
  else
    let v1 := Z.abs (m_num a) in
    let v2 := Z.abs (m_num b) in
    let two_k1 := 2 ^ m_k a in
    let two_k2 := 2 ^ m_k b in
    let n1 := Z.rem v1 two_k1 in
    let n2 := Z.rem v2 two_k2 in
    let v1 := Z.quot v1 two_k1 in
    let v2 := Z.quot v2 two_k2 in
    (if m_num a <? 0 then [Str [45]] else []) ++
    (if v1 =? v2 then
       Num v1 ::
       (if (n1 =? 0) && (n2 =? 0) then [] else Str [46] :: common_loop prec n1 n2 two_k1 two_k2)
     else [Str [63]]).

Definition to_string (a : mpbq) : list token :=
  Num (m_num a) ::
  (if m_k a =? 1 then [Str [47; 50]]
   else if 1 <? m_k a then [Str [47; 50; 94]; Num (m_k a)] else []).

Definition display (a : mpbq) : list token :=
  [Num (m_num a)] ++ (if 0 <? m_k a then [Str [47; 50]] else []) ++
  (if 1 <? m_k a then [Str [94]; Num (m_k a)] else []).

End mpbq_manager.

(** ** The numbers denoted *)

Module Import mpbq_value.
Import mpz_manager mpbq_manager.

Definition V (x : mpbq) : Q := Qmake (m_num x) (Z.to_pos (2 ^ m_k x)).

(** Normalized numerals. *)
Definition wf (x : mpbq) : Prop := is_u32 (m_k x) /\ (m_k x = 0 \/ Z.odd (m_num x) = true).

Lemma pow2_pos k : 0 <= k -> 0 < 2 ^ k.
Proof. intros. apply Z.pow_pos_nonneg; lia. Qed.

Lemma den_pow k : 0 <= k -> Zpos (Z.to_pos (2 ^ k)) = 2 ^ k.
Proof. intros H. apply Z2Pos.id, pow2_pos, H. Qed.

Lemma pow2_sum k j : 0 <= k <= j -> 2 ^ j = 2 ^ k * 2 ^ (j - k).
Proof. intros H. rewrite <- Z.pow_add_r by lia. f_equal. lia. Qed.

(** Statements on values as statements on integers. *)
Ltac vq :=
  unfold V, inject_Z, Qminus, Qeq, Qle, Qlt, Qplus, Qmult, Qopp; cbn [m_num m_k Qnum Qden];
  rewrite ?Pos2Z.inj_mul, ?den_pow by (cbn [m_num m_k]; lia); rewrite ?Z.pow_0_r, ?Z.mul_1_r.

Lemma wf_k x : wf x -> 0 <= m_k x < 4294967296.
Proof. intros [H _]. exact H. Qed.

Lemma V_int n : (V (Mpbq n 0) == inject_Z n)%Q.
Proof. vq. lia. Qed.

Lemma V_eq_iff a b : 0 <= m_k a -> 0 <= m_k b ->
  (V a == V b)%Q <-> m_num a * 2 ^ m_k b = m_num b * 2 ^ m_k a.
Proof. intros. vq. done. Qed.

Lemma V_lt_iff a b : 0 <= m_k a -> 0 <= m_k b ->
  (V a < V b)%Q <-> m_num a * 2 ^ m_k b < m_num b * 2 ^ m_k a.
Proof. intros. vq. done. Qed.

Lemma V_le_iff a b : 0 <= m_k a -> 0 <= m_k b ->
  (V a <= V b)%Q <-> m_num a * 2 ^ m_k b <= m_num b * 2 ^ m_k a.
Proof. intros. vq. done. Qed.

(** *** Normalization *)

Lemma pos_twos_spec p : 0 <= pos_twos p /\ exists c, Zpos p = Zpos c * 2 ^ pos_twos p /\ Z.odd (Zpos c) = true.
Proof.
  induction p as [p _|p [H0 (c & Hc & Ho)]|]; cbn [pos_twos].
  - split; [lia|]. exists (xI p). split; [lia|done].
  - split; [lia|]. exists c. split; [|done].
    rewrite Z.add_comm, Z.pow_add_r by lia. rewrite Pos2Z.inj_xO, Hc. lia.
  - split; [lia|]. exists xH. done.
Qed.

Lemma power_of_two_multiple_spec a : a <> 0 ->
  let v := power_of_two_multiple a in
  0 <= v /\ exists c, a = c * 2 ^ v /\ Z.odd c = true.
Proof.
  intros Ha. destruct a as [|p|p]; [lia| |]; cbn [power_of_two_multiple];
    destruct (pos_twos_spec p) as [H0 (c & Hc & Ho)]; (split; [done|]).
  - by exists (Zpos c).
  - exists (Zneg c). split; [|done]. rewrite <- !Pos2Z.opp_pos. lia.
Qed.

Lemma normalize_shape a : 0 <= m_k a ->
  exists e, 0 <= e <= m_k a /\ m_k (normalize a) = m_k a - e /\
    m_num a = m_num (normalize a) * 2 ^ e /\
    (m_k (normalize a) = 0 \/ Z.odd (m_num (normalize a)) = true).
Proof.
  intros Hk. unfold normalize. destruct (Z.eqb_spec (m_k a) 0) as [E|E].
  { exists 0. rewrite Z.pow_0_r. repeat split; [lia..|by left]. }
  destruct (Z.eqb_spec (m_num a) 0) as [E0|E0]; cbn [m_num m_k].
  { exists (m_k a). rewrite E0. repeat split; [lia..|by left]. }
  destruct (power_of_two_multiple_spec _ E0) as [Hv (c & Hc & Ho)].
  set (v := power_of_two_multiple (m_num a)) in *.
  exists (if m_k a <? v then m_k a else v). unfold machine_div2k.
  destruct (Z.ltb_spec (m_k a) v) as [Hlt|Hge].
  - rewrite (pow2_sum (m_k a) v) in Hc by lia.
    replace (m_num a) with (c * 2 ^ (v - m_k a) * 2 ^ m_k a) by lia.
    rewrite Z.quot_mul by (apply Z.pow_nonzero; lia). repeat split; [lia..|left; lia].
  - rewrite Hc. rewrite Z.quot_mul by (apply Z.pow_nonzero; lia).
    repeat split; [lia..|by right].
Qed.

Lemma V_normalize a : 0 <= m_k a -> (V (normalize a) == V a)%Q.
Proof.
  intros Hk. destruct (normalize_shape a Hk) as (e & He & Ek & En & _).
  apply V_eq_iff; [lia..|]. rewrite En, Ek, (pow2_sum e (m_k a)) by lia. lia.
Qed.

Lemma wf_normalize a : is_u32 (m_k a) -> wf (normalize a).
Proof.
  intros Hk. destruct (normalize_shape a ltac:(unfold is_u32 in *; lia)) as (e & He & Ek & _ & Ho).
  split; [unfold is_u32 in *; lia|done].
Qed.

Lemma wf_int n : wf (Mpbq n 0).
Proof. split; [apply is_u32_0|by left]. Qed.

(** Equal normalized numerals are identical. *)
Lemma wf_unique a b : wf a -> wf b -> (V a == V b)%Q -> a = b.
Proof.
  assert (forall x y, wf x -> wf y -> m_k x < m_k y -> ~ (V x == V y)%Q) as Hne.
  { intros x y Hx Hy Hlt E. pose proof (wf_k x Hx). pose proof (wf_k y Hy).
    apply V_eq_iff in E; [|lia..]. rewrite (pow2_sum (m_k x) (m_k y)) in E by lia.
    assert (m_num x * 2 ^ (m_k y - m_k x) = m_num y) as E'.
    { pose proof (pow2_pos (m_k x)). nia. }
    destruct Hy as [_ [Hy|Hy]]; [lia|]. rewrite <- E' in Hy.
    rewrite Z.odd_mul, (Z.odd_pow 2) in Hy by lia. by rewrite andb_false_r in Hy. }
  intros Ha Hb E. destruct (Z.lt_trichotomy (m_k a) (m_k b)) as [H|[H|H]].
  - by destruct (Hne a b).
  - pose proof (wf_k a Ha). apply V_eq_iff in E; [|lia..].
    destruct a as [n1 k1], b as [n2 k2]; cbn [m_num m_k] in *. subst k2.
    pose proof (pow2_pos k1). f_equal. nia.
  - destruct (Hne b a); [done..|]. by symmetry.
Qed.

End mpbq_value.

(** ** Ring operations *)

Module Import mpbq_ring.
Import mpz_manager mpbq_manager.

(** Case analysis on the order of two exponents; the greater one becomes a sum. *)
Ltac align a b :=
  destruct (Z.eqb_spec (m_k a) (m_k b)) as [Eab|Eab];
  [|destruct (Z.ltb_spec (m_k a) (m_k b))]; vq;
  [ rewrite Eab | rewrite (pow2_sum (m_k a) (m_k b)) by lia
  | rewrite (pow2_sum (m_k b) (m_k a)) by lia ].

Lemma bq_add_spec a b : wf a -> wf b -> wf (add a b) /\ (V (add a b) == V a + V b)%Q.
Proof.
  intros Ha Hb. pose proof (wf_k a Ha). pose proof (wf_k b Hb). unfold add, mpz_manager.mul2k.
  split; [apply wf_normalize; repeat case_match; cbn [m_k]; unfold is_u32; lia|].
  rewrite V_normalize by (repeat case_match; cbn [m_k]; lia).
  align a b; ring.
Qed.

Lemma bq_sub_spec a b : wf a -> wf b -> wf (sub a b) /\ (V (sub a b) == V a - V b)%Q.
Proof.
  intros Ha Hb. pose proof (wf_k a Ha). pose proof (wf_k b Hb). unfold sub, mpz_manager.mul2k.
  split; [apply wf_normalize; repeat case_match; cbn [m_k]; unfold is_u32; lia|].
  rewrite V_normalize by (repeat case_match; cbn [m_k]; lia).
  align a b; ring.
Qed.

Lemma add_mpz_spec a n : wf a -> wf (add_mpz a n) /\ (V (add_mpz a n) == V a + inject_Z n)%Q.
Proof.
  intros Ha. pose proof (wf_k a Ha). unfold add_mpz, mpz_manager.mul2k.
  split; [apply wf_normalize; case_match; apply Ha|].
  rewrite V_normalize by (case_match; cbn [m_k]; lia).
  destruct (Z.eqb_spec (m_k a) 0) as [E|_]; vq; [rewrite E|]; ring.
Qed.

Lemma sub_mpz_spec a n : wf a -> wf (sub_mpz a n) /\ (V (sub_mpz a n) == V a - inject_Z n)%Q.
Proof.
  intros Ha. pose proof (wf_k a Ha). unfold sub_mpz, mpz_manager.mul2k.
  split; [apply wf_normalize; case_match; apply Ha|].
  rewrite V_normalize by (case_match; cbn [m_k]; lia).
  destruct (Z.eqb_spec (m_k a) 0) as [E|_]; vq; [rewrite E|]; ring.
Qed.

Lemma bq_neg_spec a : wf a -> wf (neg a) /\ (V (neg a) == - V a)%Q.
Proof.
  intros Ha. pose proof (wf_k a Ha). destruct Ha as [H1 H2]. split.
  - split; [done|]. unfold neg. cbn [m_k m_num]. by rewrite Z.odd_opp.
  - unfold neg. vq. ring.
Qed.

(** The value of a product does not depend on the aliasing. *)
Lemma V_mul x y a b : wf a -> wf b -> m_k a + m_k b < 4294967296 ->
  (V (mul x y a b) == V a * V b)%Q.
Proof.
  intros Ha Hb Hs. pose proof (wf_k a Ha). pose proof (wf_k b Hb). unfold mul. cbn [m_k].
  rewrite u32_small by (unfold is_u32; lia).
  assert (V (Mpbq (m_num a * m_num b) (m_k a + m_k b)) == V a * V b)%Q as E.
  { vq. rewrite Z.pow_add_r by lia. ring. }
  destruct (_ || _); [|done]. by rewrite V_normalize by (cbn [m_k]; lia).
Qed.

Lemma bq_mul_spec a b : wf a -> wf b -> m_k a + m_k b < 4294967296 ->
  wf (mul false false a b) /\ (V (mul false false a b) == V a * V b)%Q.
Proof.
  intros Ha Hb Hs. split; [|by apply V_mul].
  pose proof (wf_k a Ha). pose proof (wf_k b Hb). unfold mul.
  rewrite u32_small by (unfold is_u32; lia).
  destruct (_ || _) eqn:E; [apply wf_normalize; unfold is_u32; cbn [m_k]; lia|].
  apply orb_false_iff in E as [E1 E2]. apply Z.eqb_neq in E1, E2.
  split; [unfold is_u32; cbn [m_k]; lia|]. right. cbn [m_num].
  destruct Ha as [_ [?|Oa]]; [lia|]. destruct Hb as [_ [?|Ob]]; [lia|].
  by rewrite Z.odd_mul, Oa, Ob.
Qed.

Lemma mul_mpz_spec a n : wf a -> wf (mul_mpz a n) /\ (V (mul_mpz a n) == V a * inject_Z n)%Q.
Proof.
  intros Ha. pose proof (wf_k a Ha). unfold mul_mpz. split.
  - apply wf_normalize, Ha.
  - rewrite V_normalize by (cbn [m_k]; lia). vq. ring.
Qed.

Lemma bq_div2k_spec a k : wf a -> 0 <= k -> m_k a + k < 4294967296 ->
  wf (div2k a k) /\ (V (div2k a k) == V a / inject_Z (2 ^ k))%Q.
Proof.
  intros Ha Hk0 Hs. pose proof (wf_k a Ha). unfold div2k.
  rewrite u32_small by (unfold is_u32; lia).
  assert (V (Mpbq (m_num a) (m_k a + k)) == V a / inject_Z (2 ^ k))%Q as E.
  { pose proof (pow2_pos k Hk0) as Hp.
    unfold Qdiv. apply (Qmult_inj_r _ _ (inject_Z (2 ^ k))); [unfold Qeq, inject_Z; cbn; lia|].
    rewrite <- Qmult_assoc, (Qmult_comm (/ _)), Qmult_inv_r by (unfold Qeq, inject_Z; cbn; lia).
    vq. rewrite Z.pow_add_r by lia. ring. }
  destruct (Z.eqb_spec (m_k a) 0) as [E0|E0].
  - rewrite V_normalize by (cbn [m_k]; lia). split; [|done].
    apply wf_normalize. unfold is_u32. cbn [m_k]. lia.
  - split; [|done]. split; [unfold is_u32; cbn [m_k]; lia|]. right. cbn [m_num].
    by destruct Ha as [_ [?|?]].
Qed.

Lemma mul2k_spec a k : wf a -> 0 <= k ->
  wf (mul2k a k) /\ (V (mul2k a k) == V a * inject_Z (2 ^ k))%Q.
Proof.
  intros Ha Hk0. pose proof (wf_k a Ha). unfold mul2k, mpz_manager.mul2k.
  destruct (Z.eqb_spec k 0) as [->|E0]; [split; [done|]; vq; lia|].
  destruct (Z.ltb_spec (m_k a) k).
  - split; [apply wf_int|]. vq. rewrite (pow2_sum (m_k a) k) by lia. ring.
  - split.
    + split; [unfold is_u32; cbn [m_k]; lia|]. destruct Ha as [_ [?|?]]; [left; cbn [m_k]; lia|by right].
    + vq. rewrite (pow2_sum k (m_k a)) by lia. ring.
Qed.

Lemma mul2_mul2k a : 0 <= m_k a -> mul2 a = mul2k a 1.
Proof.
  intros H. unfold mul2, mul2k. cbn [Z.eqb].
  destruct (Z.eqb_spec (m_k a) 0) as [E|E], (Z.ltb_spec (m_k a) 1); try lia; [|done].
  by rewrite E.
Qed.

Lemma power_fields a k : 0 <= k -> 0 <= m_k a ->
  (V (Mpbq (m_num a ^ k) (m_k a * k)) == V a ^ k)%Q.
Proof.
  intros Hk0 Ha. rewrite <- (Z2Nat.id k Hk0). generalize (Z.to_nat k). clear k Hk0.
  induction n as [|n IH]; [by rewrite Z.mul_0_r|].
  rewrite Nat2Z.inj_succ. unfold Z.succ. rewrite Qpower_plus' by lia.
  rewrite <- IH, !Z.pow_add_r, Z.mul_add_distr_l by lia. change (V a ^ 1)%Q with (V a). vq. rewrite Z.pow_add_r by lia. ring.
Qed.

Lemma bq_power_spec a k : wf a -> 0 <= k -> m_k a * k < 4294967296 ->
  wf (power a k) /\ (V (power a k) == V a ^ k)%Q.
Proof.
  intros Ha Hk0 Hs. pose proof (wf_k a Ha). unfold power.
  rewrite u32_small by (unfold is_u32; nia). split.
  - split; [unfold is_u32; cbn [m_k]; nia|]. cbn [m_k m_num].
    destruct (Z.eqb_spec (m_k a * k) 0); [by left|right].
    destruct Ha as [_ [E|Ho]]; [lia|]. rewrite Z.odd_pow by nia. done.
  - apply power_fields; lia.
Qed.

Lemma addmul_spec a b c : wf a -> wf b -> wf c -> m_k b + m_k c < 4294967296 ->
  wf (addmul a b c) /\ (V (addmul a b c) == V a + V b * V c)%Q.
Proof.
  intros Ha Hb Hc Hs. destruct (bq_mul_spec b c) as [Hm Em]; [done..|].
  destruct (bq_add_spec a (mul false false b c)) as [H E]; [done..|].
  split; [done|]. unfold addmul. rewrite E, Em. done.
Qed.

End mpbq_ring.

(** ** Comparisons and integer parts *)

Module Import mpbq_order.
Import mpz_manager mpbq_manager.

Lemma bq_eq_spec a b : wf a -> wf b -> eq a b = true <-> (V a == V b)%Q.
Proof.
  intros Ha Hb. split.
  - unfold eq. intros [E1 E2]%andb_true_iff. apply Z.eqb_eq in E1, E2.
    unfold V. by rewrite E1, E2.
  - intros E. apply wf_unique in E as ->; [|done..]. unfold eq. by rewrite !Z.eqb_refl.
Qed.

Lemma bq_lt_spec a b : 0 <= m_k a -> 0 <= m_k b -> lt a b = true <-> (V a < V b)%Q.
Proof.
  intros Ha Hb. unfold lt, mpz_manager.mul2k.
  pose proof (pow2_pos _ Ha). pose proof (pow2_pos _ Hb).
  align a b; rewrite Z.ltb_lt; try (pose proof (pow2_pos (m_k b - m_k a) ltac:(lia)));
    try (pose proof (pow2_pos (m_k a - m_k b) ltac:(lia))); split; nia.
Qed.

Lemma le_spec a b : 0 <= m_k a -> 0 <= m_k b -> le a b = true <-> (V a <= V b)%Q.
Proof.
  intros Ha Hb. unfold le, gt. rewrite negb_true_iff, <- not_true_iff_false, bq_lt_spec by done.
  split; [apply Qnot_lt_le | apply Qle_not_lt].
Qed.

Lemma is_one_true z : is_one z = true <-> z = 1.
Proof. apply Z.eqb_eq. Qed.

(** The integer case of a comparison with a rational. *)
Lemma int_mpq a b : is_int a && is_one (Zpos (Qden b)) = true ->
  V a = Qmake (m_num a) 1 /\ b = Qmake (Qnum b) 1.
Proof.
  intros [E1%Z.eqb_eq E2%is_one_true]%andb_true_iff.
  split; [unfold V; by rewrite E1|]. destruct b as [n d]. cbn in *. by injection E2 as ->.
Qed.

Lemma eq_mpq_spec a b : 0 <= m_k a -> eq_mpq a b = true <-> (V a == b)%Q.
Proof.
  intros Ha. unfold eq_mpq, mpz_manager.mul2k. destruct (_ && _) eqn:E.
  - apply int_mpq in E as [-> ->]. cbn [Qnum]. rewrite Z.eqb_eq. unfold Qeq. cbn [Qnum Qden]. lia.
  - rewrite Z.eqb_eq. vq. lia.
Qed.

Lemma lt_mpq_spec a b : 0 <= m_k a -> lt_mpq a b = true <-> (V a < b)%Q.
Proof.
  intros Ha. unfold lt_mpq, mpz_manager.mul2k. destruct (_ && _) eqn:E.
  - apply int_mpq in E as [-> ->]. cbn [Qnum]. rewrite Z.ltb_lt. unfold Qlt. cbn [Qnum Qden]. lia.
  - rewrite Z.ltb_lt. vq. lia.
Qed.

Lemma le_mpq_spec a b : 0 <= m_k a -> le_mpq a b = true <-> (V a <= b)%Q.
Proof.
  intros Ha. unfold le_mpq, mpz_manager.mul2k. destruct (_ && _) eqn:E.
  - apply int_mpq in E as [-> ->]. cbn [Qnum]. rewrite Z.leb_le. unfold Qle. cbn [Qnum Qden]. lia.
  - rewrite Z.leb_le. vq. lia.
Qed.

Lemma gt_mpq_spec a b : 0 <= m_k a -> gt_mpq a b = true <-> (b < V a)%Q.
Proof.
  intros Ha. unfold gt_mpq. rewrite negb_true_iff, <- not_true_iff_false, le_mpq_spec by done.
  split; [apply Qnot_le_lt | apply Qlt_not_le].
Qed.

Lemma lt_mpz_spec a z : 0 <= m_k a -> lt_mpz a z = true <-> (V a < inject_Z z)%Q.
Proof.
  intros Ha. unfold lt_mpz, is_int, mpz_manager.mul2k.
  destruct (Z.eqb_spec (m_k a) 0) as [E|_]; rewrite Z.ltb_lt; vq; rewrite ?E; lia.
Qed.

Lemma le_mpz_spec a z : 0 <= m_k a -> le_mpz a z = true <-> (V a <= inject_Z z)%Q.
Proof.
  intros Ha. unfold le_mpz, is_int, mpz_manager.mul2k.
  destruct (Z.eqb_spec (m_k a) 0) as [E|_]; rewrite Z.leb_le; vq; rewrite ?E; lia.
Qed.

Lemma lt_1div2k_spec a k : 0 <= m_k a -> 0 <= k ->
  lt_1div2k a k = true <-> (V a < Qmake 1 (Z.to_pos (2 ^ k)))%Q.
Proof.
  intros Ha Hk. unfold lt_1div2k, mpz_manager.mul2k.
  pose proof (pow2_pos _ Ha). pose proof (pow2_pos _ Hk). vq.
  destruct (Z.leb_spec (m_num a) 0); [split; [nia|done]|].
  destruct (Z.leb_spec (m_k a) k).
  - split; [done|]. rewrite (pow2_sum (m_k a) k) by lia.
    pose proof (pow2_pos (k - m_k a) ltac:(lia)). intros HF.
    assert (1 <= m_num a * 2 ^ (k - m_k a)) by nia. nia.
  - rewrite Z.ltb_lt, (pow2_sum k (m_k a)) by lia.
    pose proof (pow2_pos (m_k a - k) ltac:(lia)). split; nia.
Qed.

(** *** Integer parts *)

Lemma wf_not_multiple a : wf a -> m_k a <> 0 -> m_num a mod 2 ^ m_k a <> 0.
Proof.
  intros Ha Hk. pose proof (wf_k a Ha). destruct Ha as [_ [?|Ho]]; [lia|].
  intros E. apply Z.mod_divide in E as [c E]; [|apply Z.pow_nonzero; lia].
  rewrite E, Z.odd_mul, Z.odd_pow in Ho by lia. by rewrite andb_false_r in Ho.
Qed.

Lemma quot_neg n d : n < 0 -> 0 < d -> n mod d <> 0 -> Z.quot n d = n / d + 1.
Proof.
  intros Hn Hd Hm. rewrite <- (Z.opp_involutive n) at 1.
  rewrite Z.quot_opp_l, Z.quot_div_nonneg by lia.
  rewrite Z.div_opp_l_nz by lia. lia.
Qed.

Lemma Qfloor_V a : 0 <= m_k a -> Qfloor (V a) = m_num a / 2 ^ m_k a.
Proof. intros H. unfold V, Qfloor. by rewrite den_pow. Qed.

Lemma floor_spec a : wf a -> floor a = Qfloor (V a).
Proof.
  intros Ha. pose proof (wf_k a Ha) as Hk. rewrite Qfloor_V by lia.
  unfold floor, is_int, is_neg, machine_div2k.
  destruct (Z.eqb_spec (m_k a) 0) as [E|E]; [by rewrite E, Z.div_1_r|].
  pose proof (wf_not_multiple a Ha E). pose proof (pow2_pos (m_k a) ltac:(lia)).
  destruct (Z.ltb_spec (m_num a) 0).
  - rewrite quot_neg by done. lia.
  - apply Z.quot_div_nonneg; lia.
Qed.

Lemma ceil_spec a : wf a -> ceil a = Qceiling (V a).
Proof.
  intros Ha. pose proof (wf_k a Ha) as Hk.
  assert (Qceiling (V a) = - ((- m_num a) / 2 ^ m_k a)) as ->.
  { unfold Qceiling. f_equal. unfold V, Qopp, Qfloor. cbn [Qnum Qden]. by rewrite den_pow by lia. }
  unfold ceil, is_int, is_pos, machine_div2k.
  destruct (Z.eqb_spec (m_k a) 0) as [E|E]; [rewrite E, Z.div_1_r; lia|].
  pose proof (wf_not_multiple a Ha E). pose proof (pow2_pos (m_k a) ltac:(lia)).
  rewrite Z.div_opp_l_nz by lia. destruct (Z.ltb_spec 0 (m_num a)).
  - rewrite Z.quot_div_nonneg by lia. lia.
  - rewrite quot_neg by (try done; assert (m_num a <> 0) by (intros E0; rewrite E0 in *; by rewrite Z.mod_0_l in * by lia); lia). lia.
Qed.

End mpbq_order.

(** ** Selection of a number in an interval *)

Module Import mpbq_select.
Import mpz_manager mpbq_manager.

(** [o] is an integer of the set, and [None] only when there is none. *)
Definition selects (o : option Z) (P : Z -> Prop) : Prop :=
  match o with Some n => P n | None => forall n, ~ P n end.

Lemma pick_selects c f (Lo Up : Z -> Prop) :
  (forall n, Lo n <-> c <= n) -> (forall n, Up n <-> n <= f) ->
  selects (pick c f) (fun n => Lo n /\ Up n).
Proof.
  intros Hc Hf. unfold pick. destruct (Z.leb_spec c f); cbn.
  - rewrite Hc, Hf. lia.
  - intros n. rewrite Hc, Hf. lia.
Qed.

Lemma Qceiling_le_iff x n : (x <= inject_Z n)%Q <-> Qceiling x <= n.
Proof.
  split; intros H.
  - rewrite <- (Qceiling_Z n). by apply Qceiling_resp_le.
  - eapply Qle_trans; [apply Qle_ceiling|]. by rewrite <- Zle_Qle.
Qed.

Lemma Qfloor_le_iff x n : (inject_Z n <= x)%Q <-> n <= Qfloor x.
Proof.
  split; intros H.
  - rewrite <- (Qfloor_Z n). by apply Qfloor_resp_le.
  - eapply Qle_trans; [|apply Qfloor_le]. by rewrite <- Zle_Qle.
Qed.

(** A rational in lowest terms, as [mpq_manager] keeps them. *)
Definition reduced (q : Q) : Prop := Qred q = q.

Lemma reduced_int q n : reduced q -> (q == inject_Z n)%Q -> is_int_mpq q = true.
Proof.
  intros Hr E. pose proof (gcd_Qred q) as G. rewrite Hr in G.
  unfold Qeq, inject_Z in E. cbn [Qnum Qden] in E. apply is_one_true.
  replace (Qnum q) with (Zpos (Qden q) * n) in G by lia.
  by rewrite Z.gcd_comm, Z.gcd_mul_diag_l in G by lia.
Qed.

Lemma mul2_mpq_spec q : reduced (mul2_mpq q) /\ (mul2_mpq q == q * inject_Z 2)%Q.
Proof. unfold mul2_mpq, reduced. split; [apply Qred_complete, Qred_correct|]. by rewrite Qred_correct. Qed.

Lemma is_int_mpq_true q : is_int_mpq q = true -> q = inject_Z (Qnum q).
Proof. unfold is_int_mpq. rewrite is_one_true. destruct q. cbn. by intros [= ->]. Qed.

Lemma above_mpq_spec q n : reduced q -> (q < inject_Z n)%Q <-> above_mpq q <= n.
Proof.
  intros Hr. unfold above_mpq. destruct (is_int_mpq q) eqn:E.
  - apply is_int_mpq_true in E. rewrite E at 1. rewrite <- Zlt_Qlt. lia.
  - rewrite <- Qceiling_le_iff. split; [apply Qlt_le_weak|].
    intros [H|H]%Qle_lteq; [done|]. by rewrite (reduced_int q n) in E.
Qed.

Lemma below_mpq_spec q n : reduced q -> (inject_Z n < q)%Q <-> n <= below_mpq q.
Proof.
  intros Hr. unfold below_mpq. destruct (is_int_mpq q) eqn:E.
  - apply is_int_mpq_true in E. rewrite E at 1. rewrite <- Zlt_Qlt. lia.
  - rewrite <- Qfloor_le_iff. split; [apply Qlt_le_weak|].
    intros [H|H]%Qle_lteq; [done|]. rewrite (reduced_int q n) in E; [done..|]. by symmetry.
Qed.

Lemma V_is_int a : is_int a = true -> V a = inject_Z (m_num a).
Proof. intros E%Z.eqb_eq. unfold V, inject_Z. by rewrite E. Qed.

Section Integers.
Context (l u : mpbq) (Hl : wf l) (Hu : wf u).

Lemma select_integer_selects : (V l <= V u)%Q ->
  selects (select_integer l u) (fun n => (V l <= inject_Z n)%Q /\ (inject_Z n <= V u)%Q).
Proof.
  intros H. unfold select_integer.
  destruct (is_int l) eqn:El; [cbn; rewrite <- V_is_int by done; split; [apply Qle_refl|done]|].
  destruct (is_int u) eqn:Eu; [cbn; rewrite <- V_is_int by done; split; [done|apply Qle_refl]|].
  rewrite ceil_spec, floor_spec by done. apply pick_selects; intros n.
  - apply Qceiling_le_iff.
  - apply Qfloor_le_iff.
Qed.

Lemma select_integer_qb_selects ql : reduced ql -> (ql < V u)%Q ->
  selects (select_integer_qb ql u) (fun n => (ql < inject_Z n)%Q /\ (inject_Z n <= V u)%Q).
Proof.
  intros Hr H. unfold select_integer_qb.
  destruct (is_int u) eqn:Eu; [cbn; rewrite <- V_is_int by done; split; [done|apply Qle_refl]|].
  rewrite floor_spec by done. apply pick_selects; intros n.
  - by apply above_mpq_spec.
  - apply Qfloor_le_iff.
Qed.

Lemma select_integer_bq_selects qu : reduced qu -> (V l < qu)%Q ->
  selects (select_integer_bq l qu) (fun n => (V l <= inject_Z n)%Q /\ (inject_Z n < qu)%Q).
Proof.
  intros Hr H. unfold select_integer_bq.
  destruct (is_int l) eqn:El; [cbn; rewrite <- V_is_int by done; split; [apply Qle_refl|done]|].
  rewrite ceil_spec by done. apply pick_selects; intros n.
  - apply Qceiling_le_iff.
  - by apply below_mpq_spec.
Qed.
End Integers.

Lemma select_integer_qq_selects ql qu : reduced ql -> reduced qu ->
  selects (select_integer_qq ql qu) (fun n => (ql < inject_Z n)%Q /\ (inject_Z n < qu)%Q).
Proof.
  intros Hl Hu. apply pick_selects; intros n; [by apply above_mpq_spec|by apply below_mpq_spec].
Qed.

(** *** Scaling *)

(** [n / 2^k] *)
Definition at_scale (n k : Z) : Q := V (Mpbq n k).

Lemma scale_mult k : 0 <= k -> (0 < inject_Z (2 ^ k))%Q.
Proof. intros H. rewrite <- (Zlt_Qlt 0). by apply pow2_pos. Qed.

Lemma at_scale_mult n k : 0 <= k -> (at_scale n k * inject_Z (2 ^ k) == inject_Z n)%Q.
Proof. intros H. unfold at_scale. vq. lia. Qed.

Lemma scaled_ge x n k : 0 <= k -> (x * inject_Z (2 ^ k) <= inject_Z n <-> x <= at_scale n k)%Q.
Proof. intros H. rewrite <- (at_scale_mult n k H). apply Qmult_le_r, scale_mult, H. Qed.

Lemma scaled_le x n k : 0 <= k -> (inject_Z n <= x * inject_Z (2 ^ k) <-> at_scale n k <= x)%Q.
Proof. intros H. rewrite <- (at_scale_mult n k H). apply Qmult_le_r, scale_mult, H. Qed.

Lemma scaled_gt x n k : 0 <= k -> (x * inject_Z (2 ^ k) < inject_Z n <-> x < at_scale n k)%Q.
Proof. intros H. rewrite <- (at_scale_mult n k H). apply Qmult_lt_r, scale_mult, H. Qed.

Lemma scaled_lt x n k : 0 <= k -> (inject_Z n < x * inject_Z (2 ^ k) <-> at_scale n k < x)%Q.
Proof. intros H. rewrite <- (at_scale_mult n k H). apply Qmult_lt_r, scale_mult, H. Qed.

Lemma selects_ext o (P R : Z -> Prop) : (forall n, P n <-> R n) -> selects o P -> selects o R.
Proof. intros H. destruct o as [n|]; cbn; [apply H|]. intros Hn n HR. by apply (Hn n), H. Qed.

(** A rational and its double, scaled by powers of two. *)
Lemma scale_succ x y k : 0 <= k -> (y == x * inject_Z (2 ^ k))%Q ->
  (y * inject_Z 2 == x * inject_Z (2 ^ (k + 1)))%Q.
Proof. intros Hk ->. rewrite Z.pow_add_r by lia. rewrite inject_Z_mult.
  change (2 ^ 1) with 2. ring. Qed.

Lemma rescale n j k : 0 <= j <= k -> (at_scale (n * 2 ^ (k - j)) k == at_scale n j)%Q.
Proof. intros H. unfold at_scale. vq. rewrite (pow2_sum j k) by lia. ring. Qed.

(** *** The search from above the interval's least scale *)

(** [r] is the point of the set with the least exponent. *)
Definition simplest (P : Q -> Prop) (r : mpbq) : Prop :=
  wf r /\ P (V r) /\ forall r', wf r' -> P (V r') -> m_k r <= m_k r'.

Lemma simplest_mk (P : Q -> Prop) n k : Proper (Qeq ==> iff) P -> is_u32 k ->
  P (at_scale n k) -> (forall j m, 0 <= j < k -> ~ P (at_scale m j)) -> simplest P (mk n k).
Proof.
  intros HP Hk Hn Hmin. unfold is_u32 in Hk. unfold mk.
  destruct (normalize_shape (Mpbq n k)) as (e & He & Ek & _); [cbn; lia|]. cbn [m_k] in *.
  split; [apply wf_normalize, Hk|]. split; [by rewrite V_normalize by (cbn; lia)|].
  intros [m j] Hw Hr. pose proof (wf_k _ Hw). cbn [m_k] in *.
  destruct (Z_lt_le_dec j k); [|lia]. by destruct (Hmin j m ltac:(lia)).
Qed.

Section Scaled.
Context {L U : Type} (dl : L -> L) (du : U -> U) (select : L -> U -> option Z).
Context (P : Q -> Prop) (R : Z -> L -> U -> Prop).
Context (Hsel : forall k l u, 0 <= k -> R k l u -> selects (select l u) (fun n => P (at_scale n k))).
Context (Hdouble : forall k l u, 0 <= k -> R k l u -> R (k + 1) (dl l) (du u)).

Lemma select_scaled_spec fuel : forall k l u K m,
  0 <= k -> R k l u -> k < K <= k + Z.of_nat fuel -> P (at_scale m K) ->
  exists n k', select_scaled dl du select fuel k l u = Some (mk n k') /\ k < k' <= K /\
    P (at_scale n k') /\ forall j m', k < j < k' -> ~ P (at_scale m' j).
Proof.
  induction fuel as [|fuel IH]; intros k l u K m Hk HR HK HP; [lia|]. cbn [select_scaled].
  pose proof (Hdouble k l u Hk HR) as HR'. pose proof (Hsel (k + 1) _ _ ltac:(lia) HR') as Hs.
  destruct (select (dl l) (du u)) as [n|]; cbn in Hs.
  - exists n, (k + 1). repeat split; [lia..|done|]. intros j m' Hj. lia.
  - destruct (Z.eqb_spec K (k + 1)) as [->|Hne]; [by destruct (Hs m)|].
    destruct (IH (k + 1) (dl l) (du u) K m) as (n & k' & E & Hk' & Hn & Hmin); [lia|done|lia|done|].
    exists n, k'. split; [done|]. split; [lia|]. split; [done|].
    intros j m' Hj. destruct (Z.eqb_spec j (k + 1)) as [->|]; [apply Hs|apply Hmin; lia].
Qed.

(** A search from [k = 0], when there is no integer in the set. *)
Lemma select_scaled_simplest fuel l u K m : Proper (Qeq ==> iff) P ->
  R 0 l u -> select l u = None -> 0 <= K < 4294967296 -> K <= Z.of_nat fuel -> P (at_scale m K) ->
  exists r, select_scaled dl du select fuel 0 l u = Some r /\ simplest P r.
Proof.
  intros HP HR E0 HK Hf Hm. pose proof (Hsel 0 l u ltac:(lia) HR) as Hs. rewrite E0 in Hs. cbn in Hs.
  destruct (Z.eqb_spec K 0) as [->|HK0]; [by destruct (Hs m)|].
  destruct (select_scaled_spec fuel 0 l u K m) as (n & k & E & Hk & Hp & Hmin); [lia|done|lia|done|].
  exists (mk n k). split; [done|]. apply simplest_mk; [done|unfold is_u32; lia|done|].
  intros j m' Hj. destruct (Z.eqb_spec j 0) as [->|]; [apply Hs|apply Hmin; lia].
Qed.
End Scaled.

End mpbq_select.

Module Import mpbq_select_small.
Import mpz_manager mpbq_manager.

Definition closed (l u : Q) (q : Q) : Prop := (l <= q /\ q <= u)%Q.
Definition open_closed (l u : Q) (q : Q) : Prop := (l < q /\ q <= u)%Q.
Definition closed_open (l u : Q) (q : Q) : Prop := (l <= q /\ q < u)%Q.
Definition open (l u : Q) (q : Q) : Prop := (l < q /\ q < u)%Q.

#[export] Instance closed_proper l u : Proper (Qeq ==> iff) (closed l u).
Proof. intros x y E. unfold closed. by rewrite E. Qed.
#[export] Instance open_closed_proper l u : Proper (Qeq ==> iff) (open_closed l u).
Proof. intros x y E. unfold open_closed. by rewrite E. Qed.
#[export] Instance closed_open_proper l u : Proper (Qeq ==> iff) (closed_open l u).
Proof. intros x y E. unfold closed_open. by rewrite E. Qed.
#[export] Instance open_proper l u : Proper (Qeq ==> iff) (open l u).
Proof. intros x y E. unfold open. by rewrite E. Qed.

(** The bound [q], scaled. *)
Definition scaled_b (q : Q) (k : Z) (x : mpbq) : Prop := wf x /\ (V x == q * inject_Z (2 ^ k))%Q.
Definition scaled_q (q : Q) (k : Z) (x : Q) : Prop := reduced x /\ (x == q * inject_Z (2 ^ k))%Q.

Lemma scaled_b_0 x : wf x -> scaled_b (V x) 0 x.
Proof. intros H. split; [done|]. change (inject_Z (2 ^ 0)) with 1%Q. ring. Qed.

Lemma scaled_q_0 q : reduced q -> scaled_q q 0 q.
Proof. intros H. split; [done|]. change (inject_Z (2 ^ 0)) with 1%Q. ring. Qed.

Lemma mul2_spec x : wf x -> wf (mul2 x) /\ (V (mul2 x) == V x * inject_Z 2)%Q.
Proof.
  intros H. rewrite mul2_mul2k by (destruct (wf_k x H); lia).
  destruct (mul2k_spec x 1 H) as [H1 H2]; [lia|]. done.
Qed.

Lemma scaled_b_double q k x : 0 <= k -> scaled_b q k x -> scaled_b q (k + 1) (mul2 x).
Proof.
  intros Hk [Hw E]. destruct (mul2_spec x Hw) as [Hw' E']. split; [done|].
  rewrite E'. by apply scale_succ.
Qed.

Lemma scaled_q_double q k x : 0 <= k -> scaled_q q k x -> scaled_q q (k + 1) (mul2_mpq x).
Proof.
  intros Hk [Hw E]. destruct (mul2_mpq_spec x) as [Hw' E']. split; [done|].
  rewrite E'. by apply scale_succ.
Qed.

Lemma scaled_b_mul2k x k : wf x -> 0 <= k -> scaled_b (V x) k (mul2k x k).
Proof. intros Hx Hk. by apply mul2k_spec. Qed.

Section Bounds.
Context (lo hi : Q) (k : Z) (Hk : 0 <= k).

Lemma hit_closed l u : (lo <= hi)%Q -> scaled_b lo k l -> scaled_b hi k u ->
  selects (select_integer l u) (fun n => closed lo hi (at_scale n k)).
Proof.
  intros H [Hl El] [Hu Eu]. eapply selects_ext; [|apply select_integer_selects; [done..|]].
  - intros n. cbv beta. rewrite El, Eu, scaled_ge, scaled_le by done. done.
  - rewrite El, Eu. by apply Qmult_le_r; [apply scale_mult|].
Qed.

Lemma hit_open_closed l u : (lo < hi)%Q -> scaled_q lo k l -> scaled_b hi k u ->
  selects (select_integer_qb l u) (fun n => open_closed lo hi (at_scale n k)).
Proof.
  intros H [Hl El] [Hu Eu]. eapply selects_ext; [|apply select_integer_qb_selects; [done..|]].
  - intros n. cbv beta. rewrite El, Eu, scaled_gt, scaled_le by done. done.
  - rewrite El, Eu. by apply Qmult_lt_r; [apply scale_mult|].
Qed.

Lemma hit_closed_open l u : (lo < hi)%Q -> scaled_b lo k l -> scaled_q hi k u ->
  selects (select_integer_bq l u) (fun n => closed_open lo hi (at_scale n k)).
Proof.
  intros H [Hl El] [Hu Eu]. eapply selects_ext; [|apply select_integer_bq_selects; [done..|]].
  - intros n. cbv beta. rewrite El, Eu, scaled_ge, scaled_lt by done. done.
  - rewrite El, Eu. by apply Qmult_lt_r; [apply scale_mult|].
Qed.

Lemma hit_open l u : scaled_q lo k l -> scaled_q hi k u ->
  selects (select_integer_qq l u) (fun n => open lo hi (at_scale n k)).
Proof.
  intros [Hl El] [Hu Eu]. eapply selects_ext; [|apply select_integer_qq_selects; done].
  intros n. cbv beta. rewrite El, Eu, scaled_gt, scaled_lt by done. done.
Qed.
End Bounds.

(** An integer selected at once is a simplest point. *)
Lemma simplest_int (P : Q -> Prop) n : P (at_scale n 0) -> simplest P (of_mpz n).
Proof. intros H. split; [apply wf_int|]. split; [done|]. intros r' Hr _. apply (wf_k r' Hr). Qed.

Lemma at_own_scale x : at_scale (m_num x) (m_k x) = V x.
Proof. by destruct x. Qed.

Lemma select_linear_scaled fuel k l u :
  select_linear fuel k l u = select_scaled mul2 mul2 select_integer fuel k l u.
Proof.
  revert k l u. induction fuel as [|fuel IH]; intros k l u; [done|].
  cbn [select_linear select_scaled]. by destruct (select_integer _ _).
Qed.

Section Closed.
Context (l u : mpbq) (Hl : wf l) (Hu : wf u) (Hlu : (V l <= V u)%Q).
Let hit k := exists n, closed (V l) (V u) (at_scale n k).

Lemma hit_own : hit (Z.min (m_k l) (m_k u)).
Proof using Hlu.
  destruct (Z.min_spec (m_k l) (m_k u)) as [[_ ->]|[_ ->]].
  - exists (m_num l). rewrite at_own_scale. split; [apply Qle_refl|done].
  - exists (m_num u). rewrite at_own_scale. split; [done|apply Qle_refl].
Qed.

Lemma hit_mono j k : 0 <= j <= k -> hit j -> hit k.
Proof. intros H [n Hn]. exists (n * 2 ^ (k - j)). by rewrite rescale. Qed.

Lemma select_at k : 0 <= k ->
  match select_integer (mul2k l k) (mul2k u k) with
  | Some n => closed (V l) (V u) (at_scale n k)
  | None => ~ hit k
  end.
Proof using Hl Hu Hlu.
  intros Hk. pose proof (hit_closed _ _ k Hk _ _ Hlu (scaled_b_mul2k l k Hl Hk) (scaled_b_mul2k u k Hu Hk)) as H.
  destruct (select_integer _ _); cbn in H; [done|]. intros [n Hn]. by apply (H n).
Qed.

Lemma select_binary_spec fuel : forall min_k max_k aux,
  0 <= min_k < max_k -> max_k - min_k <= Z.of_nat fuel ->
  hit max_k -> (forall j, 0 <= j < min_k -> ~ hit j) ->
  exists n k, select_binary fuel l u min_k max_k aux = Some (mk n k) /\ min_k <= k <= max_k /\
    closed (V l) (V u) (at_scale n k) /\ forall j, 0 <= j < k -> ~ hit j.
Proof using Hl Hu Hlu.
  induction fuel as [|fuel IH]; intros lo hi aux Hr Hf Hhi Hlo; [lia|]. cbn [select_binary].
  assert (lo <= lo + (hi - lo) / 2 < hi) as Hm by dlia. set (mid := lo + (hi - lo) / 2) in *.
  pose proof (select_at mid ltac:(lia)) as Hs.
  destruct (select_integer (mul2k l mid) (mul2k u mid)) as [n|]; cbv beta iota.
  - destruct (Z.eqb_spec lo mid) as [E|E].
    + rewrite Z.eqb_refl. exists n, mid. repeat split; [lia..|apply Hs|apply Hs|].
      intros j Hj. apply Hlo. lia.
    + destruct (IH lo mid n) as (n' & k & -> & Hk & Hn & Hmin); [lia..|by exists n|done|].
      exists n', k. repeat split; [lia..|apply Hn|apply Hn|done].
  - assert (forall j, 0 <= j < mid + 1 -> ~ hit j) as Hlo'.
    { intros j Hj Hh. apply Hs. apply (hit_mono j); [lia|done]. }
    destruct (Z.eqb_spec (mid + 1) hi) as [E|E].
    + destruct (Z.eqb_spec hi mid); [lia|].
      pose proof (select_at hi ltac:(lia)) as Hs'.
      destruct (select_integer (mul2k l hi) (mul2k u hi)) as [n'|]; [|done]. cbn.
      exists n', hi. repeat split; [lia..|apply Hs'|apply Hs'|].
      intros j Hj. apply Hlo'. lia.
    + destruct (IH (mid + 1) hi aux) as (n' & k & -> & Hk & Hn & Hmin); [lia..|done|done|].
      exists n', k. repeat split; [lia..|apply Hn|apply Hn|done].
Qed.

Lemma select_small_core_spec fuel : Z.min (m_k l) (m_k u) <= Z.of_nat fuel ->
  exists r, select_small_core fuel l u = Some r /\ simplest (closed (V l) (V u)) r.
Proof using Hl Hu Hlu.
  intros Hf. unfold select_small_core. pose proof (wf_k l Hl). pose proof (wf_k u Hu).
  pose proof (hit_closed _ _ 0 ltac:(lia) _ _ Hlu (scaled_b_0 l Hl) (scaled_b_0 u Hu)) as H0s.
  destruct (select_integer l u) as [n|] eqn:E; cbn in H0s.
  { exists (of_mpz n). split; [done|]. by apply simplest_int. }
  destruct hit_own as [m Hm]. destruct (Z.leb_spec (Z.min (m_k l) (m_k u)) LINEAR_SEARCH_THRESHOLD) as [Ht|Ht].
  - rewrite select_linear_scaled.
    apply (select_scaled_simplest _ _ _ (closed (V l) (V u))
             (fun k x y => scaled_b (V l) k x /\ scaled_b (V u) k y)) with (K := Z.min (m_k l) (m_k u)) (m := m);
      [..|lia|lia|done].
    + intros k x y Hk [Hx Hy]. by apply hit_closed.
    + intros k x y Hk [Hx Hy]. split; by apply scaled_b_double.
    + apply _.
    + split; by apply scaled_b_0.
    + done.
  - destruct (select_binary_spec fuel 0 (Z.min (m_k l) (m_k u)) 0) as (n & k & -> & Hk & Hn & Hmin);
      [unfold LINEAR_SEARCH_THRESHOLD in Ht; lia|lia|by exists m|lia|].
    exists (mk n k). split; [done|]. apply simplest_mk; [apply _|unfold is_u32; lia|done|].
    intros j m' Hj Hp. apply (Hmin j Hj). by exists m'.
Qed.
End Closed.

(** The interval between two rationals has a point with [log2] of the denominators' product. *)
Lemma open_hit (p q : Q) : (p < q)%Q ->
  exists n, open p q (at_scale n (Z.log2 (Zpos (Qden p) * Zpos (Qden q)) + 1)).
Proof.
  intros H. set (d := Zpos (Qden p) * Zpos (Qden q)). assert (0 < d) as Hd by lia.
  set (K := Z.log2 d + 1). assert (d < 2 ^ K) as HK by apply (Z.log2_spec d Hd).
  assert (0 <= K) as HK0. { unfold K. pose proof (Z.log2_nonneg d). lia. }
  exists (Qnum p * 2 ^ K / Zpos (Qden p) + 1). unfold open, at_scale. unfold Qlt in H.
  pose proof (Z.div_mod (Qnum p * 2 ^ K) (Zpos (Qden p)) ltac:(lia)) as E.
  pose proof (Z.mod_pos_bound (Qnum p * 2 ^ K) (Zpos (Qden p)) ltac:(lia)) as Hr.
  assert (0 < Zpos (Qden p)) as Hpd by lia. assert (0 < Zpos (Qden q)) as Hqd by lia.
  split; vq; set (f := Qnum p * 2 ^ K / Zpos (Qden p)) in *;
    set (r := (Qnum p * 2 ^ K) mod Zpos (Qden p)) in *; subst d; clearbody f K r;
    set (pd := Zpos (Qden p)) in *; set (qd := Zpos (Qden q)) in *; set (w := 2 ^ K) in *;
    clearbody pd qd w.
  - nia.
  - apply (Zmult_lt_reg_r _ _ pd); [done|].
    assert ((f + 1) * pd <= Qnum p * w + pd) by lia.
    assert ((f + 1) * pd * qd <= (Qnum p * w + pd) * qd) by (apply Zmult_le_compat_r; lia).
    assert ((Qnum p * qd + 1) * w <= Qnum q * pd * w) by (apply Zmult_le_compat_r; lia).
    lia.
Qed.

Lemma open_closed_own (p : Q) u : (p < V u)%Q -> open_closed p (V u) (at_scale (m_num u) (m_k u)).
Proof. intros H. rewrite at_own_scale. split; [done|apply Qle_refl]. Qed.

Lemma closed_open_own l (q : Q) : (V l < q)%Q -> closed_open (V l) q (at_scale (m_num l) (m_k l)).
Proof. intros H. rewrite at_own_scale. split; [apply Qle_refl|done]. Qed.

End mpbq_select_small.

(** ** Approximation and refinement *)

Module Import mpbq_approx.
Import mpz_manager mpbq_manager.

Lemma divide_pow2_odd c k : 0 <= k -> Z.odd c = true -> Z.gcd (2 ^ k) c = 1.
Proof.
  intros Hk Hc. rewrite Z.gcd_comm. apply Z.coprime_pow_r; [done|]. rewrite (Zodd_div2 c) by (by apply Zodd_bool_iff).
  unfold Z.coprime. rewrite Z.gcd_comm, Z.add_comm, (Z.mul_comm 2), Z.gcd_add_mult_diag_r. done.
Qed.

Lemma is_power_of_two_pow k : 0 <= k -> is_power_of_two (2 ^ k) = Some k.
Proof.
  intros H. pose proof (pow2_pos k H). unfold is_power_of_two. rewrite Z.log2_pow2 by done.
  by rewrite Z.eqb_refl, (proj2 (Z.ltb_lt _ _)).
Qed.

Lemma is_power_of_two_Some a k : is_power_of_two a = Some k -> 0 <= k /\ a = 2 ^ k.
Proof.
  unfold is_power_of_two. destruct (Z.ltb_spec 0 a), (Z.eqb_spec a (2 ^ Z.log2 a)); try done.
  cbn. intros [= <-]. split; [apply Z.log2_nonneg|done].
Qed.

(** A rational in lowest terms is a binary rational only when its denominator is a power of two. *)
Lemma not_binary q x : reduced q -> is_power_of_two (Zpos (Qden q)) = None -> wf x ->
  ~ (V x == q)%Q.
Proof.
  intros Hr Hn Hx E. pose proof (wf_k x Hx) as Hk. pose proof (gcd_Qred q) as G. rewrite Hr in G.
  unfold V, Qeq in E. cbn [Qnum Qden] in E. rewrite den_pow in E by lia.
  assert (Zpos (Qden q) = 2 ^ m_k x) as Hd.
  { apply Z.divide_antisym_nonneg; [lia|apply Z.pow_nonneg; lia|..].
    - apply (Z.gauss _ (Qnum q)); [exists (m_num x); lia|by rewrite Z.gcd_comm].
    - destruct Hx as [_ [E0|Ho]]; [rewrite E0; apply Z.divide_1_l|].
      apply (Z.gauss _ (m_num x)); [exists (Qnum q); lia|by apply divide_pow2_odd; [lia|]]. }
  rewrite Hd, is_power_of_two_pow in Hn by lia. done.
Qed.

(** *** Bisection *)

Lemma normalize_le a : 0 <= m_k a -> m_k (normalize a) <= m_k a.
Proof. intros H. destruct (normalize_shape a H) as (e & He & -> & _). lia. Qed.

Lemma add_le a b : 0 <= m_k a -> 0 <= m_k b -> m_k (add a b) <= Z.max (m_k a) (m_k b).
Proof.
  intros Ha Hb. unfold add. etransitivity; [apply normalize_le|]; zcases; cbn [m_k]; lia.
Qed.

Lemma div2_le a : 0 <= m_k a < 4294967295 -> m_k (div2 a) <= m_k a + 1.
Proof.
  intros H. unfold div2, div2k. rewrite u32_small by (unfold is_u32; lia).
  case_match; [etransitivity; [apply normalize_le|]|]; cbn [m_k]; lia.
Qed.

Definition mid (l u : mpbq) : mpbq := div2 (add l u).

Lemma mid_spec l u M : wf l -> wf u -> m_k l <= M -> m_k u <= M -> M + 1 < 4294967296 ->
  wf (mid l u) /\ (V (mid l u) == (V l + V u) * (1 # 2))%Q /\ m_k (mid l u) <= M + 1.
Proof.
  intros Hl Hu H1 H2 HM. destruct (bq_add_spec l u Hl Hu) as [Hw E]. pose proof (wf_k _ Hw).
  pose proof (add_le l u ltac:(apply (wf_k l Hl)) ltac:(apply (wf_k u Hu))).
  destruct (bq_div2k_spec (add l u) 1 Hw) as [Hw' E']; [lia..|].
  split; [done|]. split; [|unfold mid; pose proof (div2_le (add l u)); lia].
  unfold mid, div2. rewrite E', E. reflexivity.
Qed.

Section Refine.
Context (q : Q) (Hr : reduced q) (Hn : is_power_of_two (Zpos (Qden q)) = None).

(** Each step halves the interval; [n] halvings reach the distance of the bound from [q]. *)
Lemma refine_upper_spec n : forall fuel l u M, (n <= fuel)%nat ->
  wf l -> wf u -> (V l < q)%Q -> (q < V u)%Q ->
  m_k l <= M -> m_k u <= M -> M + Z.of_nat n < 4294967296 ->
  (V u - V l < (V u - q) * inject_Z (2 ^ Z.of_nat n))%Q ->
  exists l' u', refine_upper fuel q l u = Some (l', u') /\ wf l' /\ wf u' /\
    (V l <= V l')%Q /\ (V l' < q)%Q /\ (q < V u')%Q /\ (V u' < V u)%Q.
Proof using Hr Hn.
  induction n as [|n IH]; intros fuel l u M Hf Hl Hu Hlq Hqu H1 H2 HM Hd.
  { exfalso. apply (Qlt_not_le _ _ Hd). change (inject_Z (2 ^ Z.of_nat 0)) with 1%Q. lra. }
  destruct fuel as [|fuel]; [lia|]. cbn [refine_upper]. fold (mid l u).
  destruct (mid_spec l u M Hl Hu) as (Hw & E & Hk); [lia..|]. pose proof (wf_k _ Hw).
  destruct (gt_mpq (mid l u) q) eqn:Eg.
  { apply gt_mpq_spec in Eg; [|lia]. exists l, (mid l u).
    split_and!; try done; try apply Qle_refl; lra. }
  assert (V (mid l u) < q)%Q as Hm.
  { apply not_true_iff_false in Eg. rewrite gt_mpq_spec in Eg by lia.
    apply Qnot_lt_le, Qle_lteq in Eg as [?|Eq]; [done|]. by destruct (not_binary q (mid l u)). }
  destruct (IH fuel (mid l u) u (M + 1)) as (l' & u' & -> & Hl' & Hu' & H3 & H4 & H5 & H6);
    [lia|done..|lia|lia|lia| |].
  { rewrite Nat2Z.inj_succ, Z.pow_succ_r, inject_Z_mult in Hd by lia.
    change (inject_Z 2) with (2 # 1)%Q in Hd. lra. }
  exists l', u'. split_and!; try done; try apply Qle_refl; lra.
Qed.

Lemma refine_lower_spec n : forall fuel l u M, (n <= fuel)%nat ->
  wf l -> wf u -> (V l < q)%Q -> (q < V u)%Q ->
  m_k l <= M -> m_k u <= M -> M + Z.of_nat n < 4294967296 ->
  (V u - V l < (q - V l) * inject_Z (2 ^ Z.of_nat n))%Q ->
  exists l' u', refine_lower fuel q l u = Some (l', u') /\ wf l' /\ wf u' /\
    (V l < V l')%Q /\ (V l' < q)%Q /\ (q < V u')%Q /\ (V u' <= V u)%Q.
Proof using Hr Hn.
  induction n as [|n IH]; intros fuel l u M Hf Hl Hu Hlq Hqu H1 H2 HM Hd.
  { exfalso. apply (Qlt_not_le _ _ Hd). change (inject_Z (2 ^ Z.of_nat 0)) with 1%Q. lra. }
  destruct fuel as [|fuel]; [lia|]. cbn [refine_lower]. fold (mid l u).
  destruct (mid_spec l u M Hl Hu) as (Hw & E & Hk); [lia..|]. pose proof (wf_k _ Hw).
  destruct (lt_mpq (mid l u) q) eqn:Eg.
  { apply lt_mpq_spec in Eg; [|lia]. exists (mid l u), u.
    split_and!; try done; try apply Qle_refl; lra. }
  assert (q < V (mid l u))%Q as Hm.
  { apply not_true_iff_false in Eg. rewrite lt_mpq_spec in Eg by lia.
    apply Qnot_lt_le, Qle_lteq in Eg as [?|Eq]; [done|]. destruct (not_binary q (mid l u)); [done..|]. by symmetry. }
  destruct (IH fuel l (mid l u) (M + 1)) as (l' & u' & -> & Hl' & Hu' & H3 & H4 & H5 & H6);
    [lia|done..|lia|lia|lia| |].
  { rewrite Nat2Z.inj_succ, Z.pow_succ_r, inject_Z_mult in Hd by lia.
    change (inject_Z 2) with (2 # 1)%Q in Hd. lra. }
  exists l', u'. split_and!; try done; try apply Qle_refl; lra.
Qed.
End Refine.

(** *** Rounding to [k] fractional bits *)

Definition ulp (k : Z) : Q := V (Mpbq 1 k).

Lemma approx_spec a k plus : wf a -> 0 <= k < m_k a ->
  wf (approx a k plus) /\ m_k (approx a k plus) <= k /\
  if plus then (V a < V (approx a k plus) /\ V (approx a k plus) < V a + ulp k)%Q
  else (V (approx a k plus) < V a /\ V a < V (approx a k plus) + ulp k)%Q.
Proof.
  intros Ha Hk. pose proof (wf_k a Ha). pose proof (wf_not_multiple a Ha ltac:(lia)) as Hn.
  unfold approx. destruct (Z.leb_spec (m_k a) k); [lia|].
  set (s := m_k a - k). pose proof (pow2_pos s ltac:(lia)) as Hs.
  assert (2 ^ m_k a = 2 ^ k * 2 ^ s) as Ep by (apply pow2_sum; lia).
  assert (m_num a mod 2 ^ s <> 0) as Hns.
  { intros E. destruct Ha as [_ [?|Ho]]; [lia|]. apply Z.mod_divide in E as [c E]; [|lia].
    rewrite E, Z.odd_mul, Z.odd_pow in Ho by lia. by rewrite andb_false_r in Ho. }
  assert (forall x, wf (normalize (Mpbq x k)) /\ m_k (normalize (Mpbq x k)) <= k) as Hw.
  { intros x. split; [apply wf_normalize; unfold is_u32; cbn; lia|apply (normalize_le (Mpbq x k)); cbn; lia]. }
  split; [apply Hw|]. split; [apply Hw|]. unfold machine_div2k, ulp. rewrite Z.quot_div_nonneg by lia.
  set (x := if m_num a <? 0 then _ else _). assert (V (normalize (Mpbq x k)) == V (Mpbq x k))%Q as Ex
    by (apply V_normalize; cbn; lia).
  pose proof (Z.div_mod (Z.abs (m_num a)) (2 ^ s) ltac:(lia)) as Ed.
  pose proof (Z.mod_pos_bound (Z.abs (m_num a)) (2 ^ s) Hs) as Hr.
  assert (Z.abs (m_num a) mod 2 ^ s <> 0) as Hna.
  { intros E. apply Hns. destruct (Z.abs_spec (m_num a)) as [[? ->]|[? ->]] in E; [done|].
    apply Z.mod_opp_l_z in E; [|lia]. by rewrite Z.opp_involutive in E. }
  set (r := Z.abs (m_num a) mod 2 ^ s) in *. set (d := Z.abs (m_num a) / 2 ^ s) in *.
  pose proof (pow2_pos k ltac:(lia)) as Hp.
  clearbody r d. destruct plus; rewrite Ex; subst x; destruct (Z.ltb_spec (m_num a) 0); cbn [xorb]; vq; rewrite Ep;
    generalize dependent (2 ^ k); generalize dependent (2 ^ s); intros; split; nia.
Qed.

End mpbq_approx.

Module Import mpbq_division.
Import mpz_manager mpbq_manager.

(** The quotient of two numerals, with a positive denominator. *)
Lemma V_div a b : 0 <= m_k a -> 0 <= m_k b -> m_num b <> 0 ->
  (V a / V b == Qmake (Z.sgn (m_num b) * m_num a * 2 ^ m_k b)
                      (Z.to_pos (Z.abs (m_num b) * 2 ^ m_k a)))%Q.
Proof.
  intros Ha Hb Hn. pose proof (pow2_pos _ Ha). pose proof (pow2_pos _ Hb).
  assert (~ V b == 0)%Q as Hb0. { vq. lia. }
  rewrite <- (Qdiv_mult_l (Qmake _ _) (V b) Hb0). apply Qmult_comp; [|done].
  vq. rewrite Z2Pos.id by nia. destruct (Z.sgn_spec (m_num b)) as [[? ->]|[[? _]|[? ->]]]; nia.
Qed.

Lemma V_mk x k : 0 <= k -> (V (normalize (Mpbq x k)) == V (Mpbq x k))%Q.
Proof. intros H. by apply V_normalize. Qed.

(** The truncated quotient with [k] fractional bits. *)
Lemma scaled_quot A B ka kb k : 0 <= A -> 0 < B -> 0 <= ka -> 0 <= kb -> 0 <= k ->
  k + kb < 4294967296 ->
  let norm :=
    if kb <? ka then
      if ka - kb <=? k then mpz_manager.mul2k A (k - (ka - kb))
      else machine_div2k A (ka - kb - k)
    else mpz_manager.mul2k A (u32 (k + kb - ka)) in
  let d := Z.quot norm B in
  0 <= d /\ d * (B * 2 ^ ka) <= A * 2 ^ kb * 2 ^ k < (d + 1) * (B * 2 ^ ka).
Proof.
  intros HA HB Hka Hkb Hk Hs norm.
  assert (norm = if ka - kb <=? k then A * 2 ^ (k + kb - ka) else A / 2 ^ (ka - kb - k)) as ->.
  { unfold norm, mpz_manager.mul2k, machine_div2k.
    destruct (Z.ltb_spec kb ka), (Z.leb_spec (ka - kb) k); try lia.
    - do 2 f_equal. lia.
    - apply Z.quot_div_nonneg; [lia|apply pow2_pos; lia].
    - rewrite u32_small by (unfold is_u32; lia). done. }
  intros d. pose proof (pow2_pos ka Hka). subst d.
  destruct (Z.leb_spec (ka - kb) k) as [Hc|Hc].
  - set (e := k + kb - ka). pose proof (pow2_pos e ltac:(lia)).
    assert (2 ^ kb * 2 ^ k = 2 ^ e * 2 ^ ka) as E by (rewrite <- !Z.pow_add_r by lia; f_equal; lia).
    rewrite <- Z.mul_assoc, E. rewrite Z.quot_div_nonneg by nia.
    pose proof (Z.div_mod (A * 2 ^ e) B ltac:(lia)). pose proof (Z.mod_pos_bound (A * 2 ^ e) B HB).
    pose proof (Z.div_pos (A * 2 ^ e) B ltac:(nia) HB).
    generalize dependent (2 ^ ka). generalize dependent (2 ^ e). intros. split; nia.
  - set (e := ka - kb - k). pose proof (pow2_pos e ltac:(lia)).
    assert (2 ^ ka = 2 ^ e * (2 ^ kb * 2 ^ k)) as E by (rewrite <- !Z.pow_add_r by lia; f_equal; lia).
    pose proof (Z.div_pos A (2 ^ e) ltac:(lia) ltac:(lia)).
    rewrite Z.quot_div_nonneg, Z.div_div by lia. rewrite E, <- Z.mul_assoc.
    assert (0 < 2 ^ kb * 2 ^ k) by (apply Z.mul_pos_pos; apply pow2_pos; lia).
    pose proof (Z.div_mod A (2 ^ e * B) ltac:(nia)). pose proof (Z.mod_pos_bound A (2 ^ e * B) ltac:(nia)).
    pose proof (Z.div_pos A (2 ^ e * B) ltac:(lia) ltac:(nia)).
    clear E. generalize dependent (2 ^ kb * 2 ^ k). intros p **. split; [done|].
    set (d := A / (2 ^ e * B)) in *. set (r := A mod (2 ^ e * B)) in *. clearbody d r.
    split; [apply (Z.le_trans _ ((2 ^ e * B * d) * p)); [lia|nia]|].
    apply (Z.lt_le_trans _ ((2 ^ e * B * (d + 1)) * p)); [nia|lia].
Qed.

(** The branches of [approx_div] whose result is exact. *)
Definition exact_div (a b : mpbq) : Prop :=
  is_Some (is_power_of_two (m_num b)) \/ divides (m_num b) (m_num a) = true.

Lemma exact_pow2 a b k : wf a -> wf b -> is_power_of_two (m_num b) = Some k ->
  m_k a + k < 4294967296 ->
  let c := normalize (Mpbq (if 0 <? m_k b then m_num a * 2 ^ m_k b else m_num a) (u32 (m_k a + k))) in
  wf c /\ (V c == V a / V b)%Q.
Proof.
  intros Ha Hb Ek Hs c. apply is_power_of_two_Some in Ek as [Hk Eb].
  pose proof (wf_k a Ha). pose proof (wf_k b Hb). pose proof (pow2_pos k Hk).
  subst c. split; [apply wf_normalize, u32_range|]. rewrite u32_small by (unfold is_u32; lia).
  rewrite V_mk, V_div by lia. rewrite Eb, Z.sgn_pos, Z.abs_eq by lia.
  assert (0 < 2 ^ k * 2 ^ m_k a) by (apply Z.mul_pos_pos; [done|apply pow2_pos; lia]).
  vq. rewrite Z2Pos.id, Z.pow_add_r by lia.
  destruct (Z.ltb_spec 0 (m_k b)) as [|Hb0]; [lia|].
  assert (m_k b = 0) as -> by lia. lia.
Qed.

Lemma exact_divides a b : wf a -> wf b -> m_num b <> 0 -> divides (m_num b) (m_num a) = true ->
  let num := Z.quot (m_num a) (m_num b) in
  let c := normalize (if m_k b <=? m_k a then Mpbq num (m_k a - m_k b)
                      else Mpbq (mpz_manager.mul2k num (m_k b - m_k a)) 0) in
  wf c /\ (V c == V a / V b)%Q.
Proof.
  intros Ha Hb Hn Hd num c. pose proof (wf_k a Ha). pose proof (wf_k b Hb).
  unfold divides in Hd. destruct (Z.eqb_spec (m_num b) 0); [done|].
  apply Z.eqb_eq in Hd. pose proof (Z.quot_rem' (m_num a) (m_num b)) as E. fold num in E. rewrite Hd in E.
  subst c. split; [apply wf_normalize; case_match; cbn; unfold is_u32; lia|].
  rewrite V_normalize by (zcases; cbn; lia). rewrite V_div by lia. clearbody num. clear Hd. unfold mpz_manager.mul2k.
  assert (m_num a = m_num b * num) as -> by lia.
  assert (Z.sgn (m_num b) * (m_num b * num) = Z.abs (m_num b) * num) as ->
    by (rewrite Z.mul_assoc, (Z.mul_comm (Z.sgn _)), <- Z.abs_sgn; lia).
  assert (0 < Z.abs (m_num b)) as HB by lia. set (B := Z.abs (m_num b)) in *. clearbody B.
  assert (0 < B * 2 ^ m_k a) by (apply Z.mul_pos_pos; [done|apply pow2_pos; lia]).
  destruct (Z.leb_spec (m_k b) (m_k a)); vq; rewrite Z2Pos.id by lia.
  - rewrite (pow2_sum (m_k b) (m_k a)) by lia. lia.
  - rewrite (pow2_sum (m_k a) (m_k b)) by lia. lia.
Qed.

Lemma approx_div_exact a b k plus : wf a -> wf b -> m_num b <> 0 ->
  m_k a + Z.log2 (Z.abs (m_num b)) < 4294967296 -> exact_div a b ->
  wf (approx_div a b k plus) /\ (V (approx_div a b k plus) == V a / V b)%Q.
Proof.
  intros Ha Hb Hn Hs He. unfold approx_div.
  destruct (is_power_of_two (m_num b)) as [kp|] eqn:E.
  - apply exact_pow2; try done. apply is_power_of_two_Some in E as [Hk Eb].
    rewrite Eb, Z.abs_eq, Z.log2_pow2 in Hs by (try apply Z.pow_nonneg; lia). done.
  - destruct He as [He|He]; [by rewrite E in He; destruct He as [? ?]|]. rewrite He. by apply exact_divides.
Qed.

Lemma approx_div_rounded a b k plus : wf a -> wf b -> m_num b <> 0 ->
  0 <= k -> k + m_k b < 4294967296 -> ~ exact_div a b ->
  let c := approx_div a b k plus in
  wf c /\ m_k c <= k /\
  (if plus then V a / V b <= V c /\ V c <= V a / V b + ulp k
   else V c <= V a / V b /\ V a / V b <= V c + ulp k)%Q.
Proof.
  intros Ha Hb Hn Hk Hs He. pose proof (wf_k a Ha). pose proof (wf_k b Hb). unfold approx_div.
  destruct (is_power_of_two (m_num b)) eqn:E; [by destruct He; left|].
  destruct (divides (m_num b) (m_num a)) eqn:E'; [by destruct He; right|]. clear E E' He.
  pose proof (scaled_quot (Z.abs (m_num a)) (Z.abs (m_num b)) (m_k a) (m_k b) k) as Hq.
  cbv zeta in Hq |- *. set (norm := if m_k b <? m_k a then _ else _) in *.
  set (d := Z.quot norm (Z.abs (m_num b))) in *. clearbody d. clear norm.
  destruct Hq as (Hd0 & Hd1 & Hd2); [lia..|].
  assert (0 < Z.abs (m_num b) * 2 ^ m_k a) by (apply Z.mul_pos_pos; [lia|apply pow2_pos; lia]).
  assert (forall x, wf (normalize (Mpbq x k)) /\ m_k (normalize (Mpbq x k)) <= k) as Hw.
  { intros x. split; [apply wf_normalize; unfold is_u32; cbn; lia|apply (normalize_le (Mpbq x k)); cbn; lia]. }
  split; [apply Hw|]. split; [apply Hw|]. unfold is_neg, ulp.
  pose proof (V_div a b ltac:(lia) ltac:(lia) Hn) as Eq.
  assert (Z.sgn (m_num b) * m_num a = (if xorb (m_num a <? 0) (m_num b <? 0) then -1 else 1) * Z.abs (m_num a))
    as Es by (zcases; cbn [xorb]; lia). rewrite Es in Eq. clear Es.
  destruct plus, (xorb (m_num a <? 0) (m_num b <? 0)); cbn [xorb]; rewrite V_mk, Eq by lia;
    vq; rewrite Z2Pos.id by lia; generalize dependent (Z.abs (m_num b) * 2 ^ m_k a);
    pose proof (pow2_pos k Hk); intros; split; nia.
Qed.

(** *** Conversion from a rational *)

Lemma to_mpbq_spec q : reduced q -> Z.log2 (Zpos (Qden q)) + 1 < 4294967296 ->
  let (x, exact) := to_mpbq q in
  wf x /\
  if exact then (V x == q)%Q
  else (forall y, wf y -> ~ (V y == q)%Q) /\
       (V x == Qmake (Qnum q) (Z.to_pos (2 ^ (Z.log2 (Zpos (Qden q)) + 1))))%Q.
Proof.
  intros Hr Hs. pose proof (Z.log2_nonneg (Zpos (Qden q))) as Hl. unfold to_mpbq.
  destruct (is_one (Zpos (Qden q))) eqn:E.
  { split; [apply wf_int|]. apply is_one_true in E. unfold V, Qeq. cbn. rewrite E. lia. }
  destruct (is_power_of_two (Zpos (Qden q))) as [k|] eqn:Ep.
  - apply is_power_of_two_Some in Ep as [Hk Ed]. rewrite Ed, Z.log2_pow2 in Hs by done.
    split; [apply wf_normalize; unfold is_u32; cbn; lia|]. unfold mk. rewrite V_mk by done.
    vq. by rewrite Ed.
  - split; [apply wf_normalize; unfold is_u32; cbn [m_k]; lia|].
    split; [intros y; by apply not_binary|]. unfold mk. rewrite V_mk by lia. reflexivity.
Qed.

(** *** Magnitude *)

Lemma inject_pow_nonzero k : 0 <= k -> ~ (inject_Z (2 ^ k) == 0)%Q.
Proof. intros H E. pose proof (scale_mult k H) as P. by rewrite E in P. Qed.

Lemma pow2_Q e k : 0 <= e -> 0 <= k -> (inject_Z 2 ^ (e - k) == V (Mpbq (2 ^ e) k))%Q.
Proof.
  intros He Hk. unfold Z.sub. rewrite Qpower_plus, Qpower_opp by done. rewrite <- !Zpower_Qpower by lia.
  pose proof (pow2_pos k Hk). apply Qmult_inj_r with (inject_Z (2 ^ k)); [by apply inject_pow_nonzero|].
  rewrite <- Qmult_assoc, (Qmult_comm (/ _)), Qmult_inv_r by (by apply inject_pow_nonzero).
  vq. lia.
Qed.

Lemma to_int_small x : -2147483648 <= x < 2147483648 -> to_int x = x.
Proof. intros H. unfold to_int, u32. zcases; dlia. Qed.

Definition small_magnitude (a : mpbq) : Prop :=
  m_k a < 2147483648 /\ Z.log2 (Z.abs (m_num a)) < 2147483647.

Lemma magnitude_pos a : wf a -> small_magnitude a -> 0 < m_num a ->
  (inject_Z 2 ^ magnitude_lb a <= V a /\ V a < inject_Z 2 ^ magnitude_ub a)%Q.
Proof.
  intros Ha [Hs1 Hs2] Hp. pose proof (wf_k a Ha). rewrite Z.abs_eq in Hs2 by lia.
  pose proof (Z.log2_nonneg (m_num a)). destruct (Z.log2_spec (m_num a) Hp) as [H1 H2].
  unfold magnitude_lb, magnitude_ub. destruct (Z.eqb_spec (m_num a) 0); [lia|].
  rewrite (proj2 (Z.ltb_lt _ _) Hp), !to_int_small by lia.
  replace (Z.log2 (m_num a) - m_k a + 1) with (Z.succ (Z.log2 (m_num a)) - m_k a) by lia.
  rewrite !pow2_Q by lia. pose proof (pow2_pos (m_k a) ltac:(lia)). vq. split; nia.
Qed.

Lemma magnitude_neg a : wf a -> small_magnitude a -> m_num a < 0 ->
  (- inject_Z 2 ^ magnitude_lb a < V a /\ V a <= - inject_Z 2 ^ magnitude_ub a)%Q.
Proof.
  intros Ha [Hs1 Hs2] Hp. pose proof (wf_k a Ha). rewrite Z.abs_neq in Hs2 by lia.
  pose proof (Z.log2_nonneg (- m_num a)). destruct (Z.log2_spec (- m_num a) ltac:(lia)) as [H1 H2].
  unfold magnitude_lb, magnitude_ub. destruct (Z.eqb_spec (m_num a) 0); [lia|].
  destruct (Z.ltb_spec 0 (m_num a)); [lia|]. rewrite !to_int_small by lia.
  replace (Z.log2 (- m_num a) - m_k a + 1) with (Z.succ (Z.log2 (- m_num a)) - m_k a) by lia.
  rewrite !pow2_Q by lia. pose proof (pow2_pos (m_k a) ltac:(lia)). vq. split; nia.
Qed.

End mpbq_division.

(** ** Integer and binary roots *)

Module Import mpz_root.
Import mpz_manager.

(** The bases on which [x ^ n] is monotone. *)
Definition dom (n x : Z) : Prop := Z.odd n = true \/ 0 <= x.

Lemma dom_le n x y : dom n x -> x <= y -> dom n y.
Proof. intros [H|H] Hxy; [by left|right; lia]. Qed.

Lemma pow_lt n x y : 0 < n -> dom n x -> x < y -> x ^ n < y ^ n.
Proof.
  intros Hn Hd Hxy. destruct (Z_lt_le_dec x 0) as [Hx|Hx].
  - destruct Hd as [Ho|]; [|lia].
    assert (forall z, (- z) ^ n = - z ^ n) as Hopp.
    { intros z. apply Z.pow_opp_odd. by apply Zodd_ex_iff, Zodd_bool_iff. }
    destruct (Z_lt_le_dec y 0) as [Hy|Hy].
    + pose proof (Z.pow_lt_mono_l (- y) (- x) n Hn ltac:(lia)) as H. rewrite !Hopp in H. lia.
    + pose proof (Z.pow_nonneg y n Hy). pose proof (Z.pow_pos_nonneg (- x) n ltac:(lia) ltac:(lia)) as H0.
      rewrite Hopp in H0. lia.
  - apply Z.pow_lt_mono_l; lia.
Qed.

Lemma pow_le n x y : 0 < n -> dom n x -> x <= y -> x ^ n <= y ^ n.
Proof.
  intros Hn Hd H. destruct (Z.eqb_spec x y) as [->|]; [lia|].
  pose proof (pow_lt n x y Hn Hd ltac:(lia)). lia.
Qed.

(** The bisection's invariant, away from 0. *)
Definition bracket (a n l u : Z) : Prop :=
  l < u /\ ((0 <= l /\ l ^ n <= a < u ^ n) \/ (u <= 0 /\ l ^ n < a <= u ^ n)).

(** The answer: the root, or its upper bound. *)
Definition is_root (a n : Z) (r : Z * bool) : Prop :=
  if snd r then fst r ^ n = a else (fst r - 1) ^ n < a < fst r ^ n.

Lemma mid_cases l u : l < u -> (0 <= l \/ u <= 0) ->
  l < Z.quot (u + l) 2 < u \/
  (u = l + 1 /\ (0 <= l /\ Z.quot (u + l) 2 = l \/ u <= 0 /\ Z.quot (u + l) 2 = u)).
Proof. intros. dlia. Qed.

Lemma mid_halves l u g : l < u -> u - l <= 2 * g ->
  Z.quot (u + l) 2 - l <= g /\ u - Z.quot (u + l) 2 <= g.
Proof. intros. dlia. Qed.

Lemma bracket_sign a n l u : bracket a n l u -> l < u /\ (0 <= l \/ u <= 0).
Proof. unfold bracket. lia. Qed.

Lemma bracket_left a n l u m : bracket a n l u -> l < m < u -> m ^ n < a -> bracket a n m u.
Proof. unfold bracket. intros. lia. Qed.

Lemma bracket_right a n l u m : bracket a n l u -> l < m < u -> a < m ^ n -> bracket a n l m.
Proof. unfold bracket. intros. lia. Qed.

(** The end of the bisection: the midpoint is one of the bounds. *)
Lemma bracket_end a n l m : bracket a n l (l + 1) ->
  (0 <= l /\ m = l \/ l + 1 <= 0 /\ m = l + 1) -> m ^ n <> a -> is_root a n (l + 1, false).
Proof.
  unfold bracket, is_root. cbn. replace (l + 1 - 1) with l by lia.
  intros Hb [[H ->]|[H ->]] Hm; lia.
Qed.

Lemma root_loop_S fuel a n l u :
  root_loop (S fuel) a n l u =
    let mid := Z.quot (u + l) 2 in
    if mid ^ n =? a then Some (mid, true)
    else if (mid =? l) || (mid =? u) then Some (u, false)
    else if mid ^ n <? a then root_loop fuel a n mid u else root_loop fuel a n l mid.
Proof. done. Qed.

Lemma root_loop_spec fuel : forall a n l u, bracket a n l u -> u - l <= 2 ^ Z.of_nat fuel ->
  exists r, root_loop (S fuel) a n l u = Some r /\ is_root a n r /\
    l <= fst r <= u /\ (snd r = false -> l < fst r).
Proof.
  induction fuel as [|fuel IH]; intros a n l u Hb Hf; rewrite root_loop_S; cbv zeta;
    destruct (bracket_sign _ _ _ _ Hb) as [Hlu Hs];
    destruct (mid_cases l u Hlu Hs) as [Hm|[-> Hm]]; try (change (2 ^ Z.of_nat 0) with 1 in Hf; lia).
  2: pose proof (mid_halves l u (2 ^ Z.of_nat fuel) Hlu) as Hh;
     rewrite Nat2Z.inj_succ, Z.pow_succ_r in Hf by lia.
  all: set (m := Z.quot _ 2) in *; clearbody m.
  all: destruct (Z.eqb_spec (m ^ n) a) as [Ea|Ea];
    [exists (m, true); split; [done|]; split; [done|]; cbn; lia|].
  2: destruct (Z.eqb_spec m l), (Z.eqb_spec m u); try lia; cbn [orb];
     destruct (Z.ltb_spec (m ^ n) a).
  2: destruct (IH a n m u) as (r & -> & Hr & H1 & H2);
     [by eapply bracket_left|lia|exists r; repeat split; [done|lia|lia|intros; specialize (H2 H0); lia]].
  2: destruct (IH a n l m) as (r & -> & Hr & H1 & H2);
     [eapply bracket_right; [done|done|lia]|lia|exists r; repeat split; [done|lia|lia|done]].
  all: replace ((m =? l) || (m =? l + 1)) with true by (destruct (Z.eqb_spec m l), (Z.eqb_spec m (l + 1)); lia);
    exists (l + 1, false); split; [done|]; split; [by eapply bracket_end|]; cbn; lia.
Qed.

Lemma div_l_le k n : 0 <= k -> 0 < n -> 0 <= div_l k n /\ div_l k n * n <= k.
Proof. intros. unfold div_l. pose proof (Z.div_pos k n). pose proof (Z.mul_div_le k n). lia. Qed.

Lemma div_u_ge k n : 0 <= k -> 0 < n -> 0 <= div_u k n <= k /\ k <= div_u k n * n.
Proof.
  intros. unfold div_u. pose proof (Z.div_pos k n ltac:(lia) ltac:(lia)).
  pose proof (Z.div_mod k n ltac:(lia)). pose proof (Z.mod_pos_bound k n ltac:(lia)).
  destruct (Z.eqb_spec (k mod n) 0); nia.
Qed.

(** The initial bounds, on the absolute value. *)
Lemma initial_bounds a n : 0 < a -> 0 < n ->
  let lo := 2 ^ div_l (Z.log2 a) n in let hi := 2 ^ div_u (Z.log2 a + 1) n in
  0 < lo /\ lo < hi /\ lo ^ n <= a < hi ^ n /\ hi <= 2 ^ (Z.log2 a + 1).
Proof.
  intros Ha Hn lo hi. pose proof (Z.log2_nonneg a) as Hl. pose proof (Z.log2_spec a Ha) as [H1 H2].
  destruct (div_l_le (Z.log2 a) n) as [Hd1 Hd2]; [lia..|].
  destruct (div_u_ge (Z.log2 a + 1) n) as [Hu1 Hu2]; [lia..|].
  assert (lo ^ n <= a < hi ^ n).
  { unfold lo, hi. rewrite <- !Z.pow_mul_r by lia. split.
    - etransitivity; [apply Z.pow_le_mono_r; [lia|apply Hd2]|done].
    - eapply Z.lt_le_trans; [apply H2|]. apply Z.pow_le_mono_r; lia. }
  split; [apply Z.pow_pos_nonneg; lia|]. split; [|split; [done|apply Z.pow_le_mono_r; lia]].
  apply Z.pow_lt_mono_r; [lia..|]. nia.
Qed.

Lemma root_spec a n fuel : 0 < n -> dom n a -> Z.log2 (Z.abs a) + 2 <= Z.of_nat fuel ->
  exists r, root fuel a n = Some r /\ is_root a n r /\ (0 <= a -> 0 <= fst r) /\
    (0 <= a -> snd r = false -> 0 < fst r).
Proof.
  intros Hn Hd Hf. unfold root. destruct (Z.eqb_spec a 0) as [->|Ha].
  { exists (0, true). split; [done|]. split; [by apply Z.pow_0_l|]. done. }
  destruct fuel as [|fuel]; [pose proof (Z.log2_nonneg (Z.abs a)); lia|].
  assert (forall l u, bracket a n l u -> u - l <= 2 ^ (Z.log2 (Z.abs a) + 1) -> (0 < a -> 0 <= l) ->
    exists r, (if l =? u then Some (l, true) else root_loop (S fuel) a n l u) = Some r /\
      is_root a n r /\ (0 <= a -> 0 <= fst r) /\ (0 <= a -> snd r = false -> 0 < fst r)) as Hgo.
  { intros l u Hb Hg Hl. destruct (bracket_sign _ _ _ _ Hb) as [Hlu _].
    destruct (Z.eqb_spec l u); [lia|].
    destruct (root_loop_spec fuel a n l u Hb) as (r & -> & Hr & H1 & H2).
    { etransitivity; [apply Hg|]. apply Z.pow_le_mono_r; lia. }
    exists r. split; [done|]. split; [done|]. split; [lia|]. intros ? E. specialize (H2 E). lia. }
  destruct (Z.ltb_spec 0 a).
  - rewrite Z.abs_eq in Hgo by lia. destruct (initial_bounds a n) as (H1 & H2 & H3 & H4); [lia..|].
    cbv zeta in *. apply Hgo; [|lia..]. split; [done|]. left. lia.
  - rewrite Z.abs_neq in Hgo by lia. destruct (initial_bounds (- a) n) as (H1 & H2 & H3 & H4); [lia..|].
    cbv zeta in *. destruct Hd as [Ho|]; [|lia].
    assert (forall z, (- z) ^ n = - z ^ n) as Hopp.
    { intros z. apply Z.pow_opp_odd. by apply Zodd_ex_iff, Zodd_bool_iff. }
    apply Hgo; [|lia..]. split; [lia|]. right. rewrite !Hopp. lia.
Qed.

End mpz_root.

Module Import mpbq_root.
Import mpz_manager mpbq_manager.

Lemma dom_sign n a x : dom n a -> (0 <= a -> 0 <= x) -> dom n x.
Proof. intros [H|H] Hx; [by left|right; auto]. Qed.

Lemma pow_sign n x : 0 < n -> dom n x -> (x < 0 -> x ^ n < 0) /\ (0 <= x -> 0 <= x ^ n).
Proof.
  intros Hn Hd. split; intros H; [|by apply Z.pow_nonneg].
  rewrite <- (Z.pow_0_l n Hn). by apply pow_lt.
Qed.

Lemma fields_le x y K k : 0 <= K -> 0 <= k -> x <= y -> (x < 0 -> K <= k) -> (0 < x -> k <= K) ->
  (V (Mpbq x K) <= V (Mpbq y k))%Q.
Proof.
  intros HK Hk Hxy H1 H2. vq. pose proof (pow2_pos K HK). pose proof (pow2_pos k Hk).
  destruct (Z.lt_trichotomy x 0) as [Hx|[->|Hx]]; [|nia|].
  - pose proof (Z.pow_le_mono_r 2 K k ltac:(lia) (H1 Hx)). nia.
  - pose proof (Z.pow_le_mono_r 2 k K ltac:(lia) (H2 Hx)). nia.
Qed.

Lemma fields_ge x y K k : 0 <= K -> 0 <= k -> y <= x -> (x < 0 -> k <= K) -> (0 < x -> K <= k) ->
  (V (Mpbq y k) <= V (Mpbq x K))%Q.
Proof.
  intros HK Hk Hxy H1 H2. vq. pose proof (pow2_pos K HK). pose proof (pow2_pos k Hk).
  destruct (Z.lt_trichotomy x 0) as [Hx|[->|Hx]]; [|nia|].
  - pose proof (Z.pow_le_mono_r 2 k K ltac:(lia) (H1 Hx)). nia.
  - pose proof (Z.pow_le_mono_r 2 K k ltac:(lia) (H2 Hx)). nia.
Qed.

Lemma V_normalize_pow num k n : 0 <= k -> 0 <= n ->
  (V (normalize (Mpbq num k)) ^ n == V (Mpbq (num ^ n) (k * n)))%Q.
Proof.
  intros Hk Hn. rewrite V_normalize by (cbn; lia). symmetry. by apply (power_fields (Mpbq num k)).
Qed.

Lemma V_nonneg x : (0 <= V x)%Q <-> 0 <= m_num x.
Proof. unfold V, Qle. cbn [Qnum Qden]. lia. Qed.

Lemma V_normalize_nonneg num k : 0 <= k -> 0 <= num -> (0 <= V (normalize (Mpbq num k)))%Q.
Proof. intros Hk Hn. rewrite V_normalize by (cbn; lia). by apply V_nonneg. Qed.

Section Root.
Context (a : mpbq) (n : Z) (fuel : nat).
Context (Ha : wf a) (Hn : 0 < n < 4294967296) (Hd : dom n (m_num a)).
Context (Hf : Z.log2 (Z.abs (m_num a)) + 2 <= Z.of_nat fuel).

(** The exponents [m_k / n] and [m_k / n + 1]. *)
Lemma quotient_exponent :
  is_u32 (m_k a / n) /\ m_k a / n * n <= m_k a < (m_k a / n + 1) * n /\
  (m_k a mod n = 0 -> m_k a / n * n = m_k a) /\ (m_k a mod n <> 0 -> is_u32 (m_k a / n + 1)).
Proof using Ha Hn.
  clear fuel Hf Hd. pose proof (wf_k a Ha). pose proof (Z.div_mod (m_k a) n ltac:(lia)).
  pose proof (Z.mod_pos_bound (m_k a) n ltac:(lia)). pose proof (Z.div_pos (m_k a) n ltac:(lia) ltac:(lia)).
  unfold is_u32. assert (m_k a / n <= m_k a) by nia.
  split; [lia|]. split; [nia|]. split; [nia|]. intros. split; [lia|]. nia.
Qed.

Lemma root_lower_spec :
  exists l e, root_lower fuel a n = Some (l, e) /\ wf l /\ (V l ^ n <= V a)%Q /\
    (e = true -> V l ^ n == V a)%Q /\ (0 <= V a -> 0 <= V l)%Q.
Proof using Ha Hn Hd Hf.
  destruct (root_spec (m_num a) n fuel) as ([num r] & E & Hr & Hpos & Hpos'); [lia|done|done|].
  unfold root_lower. rewrite E. cbn [mbind option_bind]. cbn [fst snd] in *.
  set (x := if r then num else num - 1).
  assert (0 <= m_num a -> 0 <= x) as Hx.
  { intros H. unfold x. specialize (Hpos H). specialize (Hpos' H).
    destruct r; [lia|]. specialize (Hpos' eq_refl). lia. }
  assert (x ^ n <= m_num a /\ (r = true -> x ^ n = m_num a)) as [Hle He].
  { unfold x, is_root in *. cbn [fst snd] in Hr. destruct r; [lia|]. split; [lia|done]. }
  destruct (pow_sign n x ltac:(lia) (dom_sign _ _ _ Hd Hx)) as [Hs1 Hs2].
  destruct quotient_exponent as (Hq0 & Hq1 & Hq2 & Hq3). pose proof (wf_k a Ha).
  destruct a as [na k] eqn:Ea. cbn [m_num m_k] in *. clearbody x.
  destruct (Z.eqb_spec (k mod n) 0) as [Em|Em]; [|destruct (Z.ltb_spec x 0)]; eexists _, _; split; try done.
  - split; [apply wf_normalize, Hq0|]. unfold is_u32 in Hq0. rewrite V_normalize_pow, Hq2 by lia.
    split; [apply fields_le; lia|]. split; [by intros ->%He|].
    rewrite V_nonneg. intros. apply V_normalize_nonneg; auto; lia.
  - split; [apply wf_normalize, Hq0|]. unfold is_u32 in Hq0. rewrite V_normalize_pow by lia.
    split; [apply fields_le; lia|]. split; [done|]. rewrite V_nonneg. cbn [m_num]. intros. lia.
  - specialize (Hq3 Em). split; [apply wf_normalize, Hq3|]. unfold is_u32 in *. rewrite V_normalize_pow by lia.
    split; [apply fields_le; lia|]. split; [done|].
    intros. apply V_normalize_nonneg; lia.
Qed.

Lemma root_upper_spec :
  exists u e, root_upper fuel a n = Some (u, e) /\ wf u /\ (V a <= V u ^ n)%Q /\
    (e = true -> V u ^ n == V a)%Q /\ (0 <= V a -> 0 <= V u)%Q.
Proof using Ha Hn Hd Hf.
  destruct (root_spec (m_num a) n fuel) as ([x r] & E & Hr & Hx & _); [lia|done|done|].
  unfold root_upper. rewrite E. cbn [mbind option_bind]. cbn [fst snd] in *.
  assert (m_num a <= x ^ n /\ (r = true -> x ^ n = m_num a)) as [Hle He].
  { unfold is_root in *. cbn [fst snd] in Hr. destruct r; [lia|]. split; [lia|done]. }
  destruct (pow_sign n x ltac:(lia) (dom_sign _ _ _ Hd Hx)) as [Hs1 Hs2].
  destruct quotient_exponent as (Hq0 & Hq1 & Hq2 & Hq3). pose proof (wf_k a Ha).
  destruct a as [na k] eqn:Ea. cbn [m_num m_k] in *.
  destruct (Z.eqb_spec (k mod n) 0) as [Em|Em]; [|destruct (Z.ltb_spec x 0)]; eexists _, _; split; try done.
  - split; [apply wf_normalize, Hq0|]. unfold is_u32 in Hq0. rewrite V_normalize_pow, Hq2 by lia.
    split; [apply fields_ge; lia|]. split; [by intros ->%He|].
    rewrite V_nonneg. intros. apply V_normalize_nonneg; auto; lia.
  - specialize (Hq3 Em). split; [apply wf_normalize, Hq3|]. unfold is_u32 in *. rewrite V_normalize_pow by lia.
    split; [apply fields_ge; lia|]. split; [done|]. rewrite V_nonneg. cbn [m_num]. intros. lia.
  - split; [apply wf_normalize, Hq0|]. unfold is_u32 in *. rewrite V_normalize_pow by lia.
    split; [apply fields_ge; lia|]. split; [done|].
    intros. apply V_normalize_nonneg; lia.
Qed.
End Root.

End mpbq_root.

(** ** Printing *)

Module Import mpbq_display.
Import mpz_manager mpbq_manager.

(** The number the tokens of a decimal expansion denote: digits after the point, then the end of
    the string or [?]. *)
Fixpoint digits (t : list token) : list Z :=
  match t with Num d :: t' => d :: digits t' | _ => [] end.
Fixpoint truncated (t : list token) : bool :=
  match t with [] => false | Num _ :: t' => truncated t' | Str _ :: _ => true end.
(** [Σ d_i * 10^(n-i)] over the [n] digits. *)
Fixpoint decimal (acc : Z) (ds : list Z) : Z :=
  match ds with [] => acc | d :: ds' => decimal (acc * 10 + d) ds' end.

Lemma decimal_loop_spec prec : forall acc n1 p, 0 < p -> 0 <= n1 < p ->
  let t := decimal_loop prec n1 p in
  let m := Z.of_nat (length (digits t)) in
  Forall (fun d => 0 <= d < 10) (digits t) /\ m <= Z.of_nat prec /\
  decimal acc (digits t) * p <= (acc * p + n1) * 10 ^ m < (decimal acc (digits t) + 1) * p /\
  (truncated t = false -> decimal acc (digits t) * p = (acc * p + n1) * 10 ^ m).
Proof.
  induction prec as [|prec IH]; intros acc n1 p Hp Hn.
  { cbn. rewrite Z.mul_1_r. split_and!; try constructor; lia. }
  cbn [decimal_loop]. rewrite Z.quot_div_nonneg, Z.rem_mod_nonneg by lia.
  pose proof (Z.div_mod (n1 * 10) p ltac:(lia)) as E.
  pose proof (Z.mod_pos_bound (n1 * 10) p Hp) as Hr.
  assert (0 <= n1 * 10 / p < 10) as Hd.
  { split; [apply Z.div_pos; lia|]. apply Z.div_lt_upper_bound; lia. }
  set (d := n1 * 10 / p) in *. set (r := (n1 * 10) mod p) in *. clearbody d r.
  destruct (Z.eqb_spec r 0) as [Er|Er]; cbn [digits truncated decimal length].
  { change (10 ^ Z.of_nat 1) with 10. split_and!; [by constructor|lia..]. }
  destruct (IH (acc * 10 + d) r p Hp Hr) as (H1 & H2 & H3 & H4).
  rewrite Nat2Z.inj_succ, Z.pow_succ_r by lia.
  replace ((acc * p + n1) * (10 * 10 ^ _)) with
    (((acc * 10 + d) * p + r) * 10 ^ Z.of_nat (length (digits (decimal_loop prec r p))))
    by (assert ((acc * 10 + d) * p + r = (acc * p + n1) * 10) as -> by lia; ring).
  split; [by constructor|]. split; [lia|]. done.
Qed.

(** The digits [common_loop] prints are digits of both numbers. *)
Lemma common_loop_spec prec : forall acc n1 n2 p1 p2, 0 < p1 -> 0 <= n1 < p1 -> 0 < p2 -> 0 <= n2 < p2 ->
  let ds := digits (common_loop prec n1 n2 p1 p2) in
  let m := Z.of_nat (length ds) in
  decimal acc ds * p1 <= (acc * p1 + n1) * 10 ^ m < (decimal acc ds + 1) * p1 /\
  decimal acc ds * p2 <= (acc * p2 + n2) * 10 ^ m < (decimal acc ds + 1) * p2.
Proof.
  induction prec as [|prec IH]; intros acc n1 n2 p1 p2 H1 N1 H2 N2.
  { cbn. rewrite !Z.mul_1_r. lia. }
  cbn [common_loop]. rewrite !Z.quot_div_nonneg, !Z.rem_mod_nonneg by lia.
  pose proof (Z.div_mod (n1 * 10) p1 ltac:(lia)) as E1. pose proof (Z.mod_pos_bound (n1 * 10) p1 H1) as R1.
  pose proof (Z.div_mod (n2 * 10) p2 ltac:(lia)) as E2. pose proof (Z.mod_pos_bound (n2 * 10) p2 H2) as R2.
  set (r1 := (n1 * 10) mod p1) in *. set (r2 := (n2 * 10) mod p2) in *. clearbody r1 r2.
  destruct (Z.eqb_spec (n1 * 10 / p1) (n2 * 10 / p2)) as [Ed|]; [|cbn; rewrite !Z.mul_1_r; lia].
  rewrite <- Ed in E2. set (d := n1 * 10 / p1) in *. clearbody d. clear Ed.
  destruct ((r1 =? 0) && (r2 =? 0)); cbn [digits decimal length].
  { change (10 ^ Z.of_nat 1) with 10. lia. }
  destruct (IH (acc * 10 + d) r1 r2 p1 p2) as [B1 B2]; [done..|].
  rewrite Nat2Z.inj_succ, Z.pow_succ_r by lia. set (w := 10 ^ _) in *. clearbody w.
  replace ((acc * p1 + n1) * (10 * w)) with (((acc * 10 + d) * p1 + r1) * w)
    by (assert ((acc * 10 + d) * p1 + r1 = (acc * p1 + n1) * 10) as -> by lia; ring).
  replace ((acc * p2 + n2) * (10 * w)) with (((acc * 10 + d) * p2 + r2) * w)
    by (assert ((acc * 10 + d) * p2 + r2 = (acc * p2 + n2) * 10) as -> by lia; ring).
  done.
Qed.

End mpbq_display.

(** ** Properties *)

Module mpbq_properties.
Import mpz_manager mpbq_manager.

(** C12: addition, subtraction, multiplication, the fused [addmul], negation, scaling by powers of
    two and powers are exact on the numbers denoted and keep numerals normalized, as long as the
    32 bit exponent does not overflow. *)
Theorem ring_exact (a b c : mpbq) (n k : Z) :
  wf a -> wf b -> wf c -> 0 <= k ->
  m_k a + m_k b < 4294967296 -> m_k b + m_k c < 4294967296 ->
  m_k a + k < 4294967296 -> m_k a * k < 4294967296 ->
  let exact x q := wf x /\ (V x == q)%Q in
  exact (add a b) (V a + V b)%Q /\ exact (sub a b) (V a - V b)%Q /\
  exact (mul false false a b) (V a * V b)%Q /\ exact (addmul a b c) (V a + V b * V c)%Q /\
  exact (neg a) (- V a)%Q /\
  exact (add_mpz a n) (V a + inject_Z n)%Q /\ exact (sub_mpz a n) (V a - inject_Z n)%Q /\
  exact (mul_mpz a n) (V a * inject_Z n)%Q /\
  exact (mul2 a) (V a * inject_Z 2)%Q /\ exact (mul2k a k) (V a * inject_Z (2 ^ k))%Q /\
  exact (div2k a k) (V a / inject_Z (2 ^ k))%Q /\ exact (power a k) (V a ^ k)%Q.
Proof.
  intros Ha Hb Hc Hk H1 H2 H3 H4 exact.
  repeat match goal with |- exact _ _ /\ _ => split end.
  all: unfold exact; eauto using bq_add_spec, bq_sub_spec, bq_mul_spec, addmul_spec, bq_neg_spec, add_mpz_spec, sub_mpz_spec,
    mul_mpz_spec, mul2_spec, mul2k_spec, bq_div2k_spec, bq_power_spec.
Qed.

(** C13: [select_small] on a closed interval of binary rationals: it fails exactly on the empty
    interval, and otherwise both its linear and its binary search end within
    [min (m_k lower) (m_k upper)] steps with the point of the interval whose exponent is least. *)
Theorem select_small_correct (fuel : nat) (lower upper : mpbq) :
  wf lower -> wf upper -> Z.min (m_k lower) (m_k upper) <= Z.of_nat fuel ->
  ((V upper < V lower)%Q -> select_small fuel lower upper = Some None) /\
  ((V lower <= V upper)%Q ->
   exists r, select_small fuel lower upper = Some (Some r) /\
             simplest (closed (V lower) (V upper)) r).
Proof.
  intros Hl Hu Hf. unfold select_small, gt. pose proof (wf_k _ Hl). pose proof (wf_k _ Hu).
  split; intros H1.
  - by rewrite (proj2 (bq_lt_spec upper lower ltac:(lia) ltac:(lia)) H1).
  - destruct (lt upper lower) eqn:E.
    { apply bq_lt_spec in E; [|lia..]. by apply Qle_not_lt in H1. }
    destruct (select_small_core_spec _ _ Hl Hu H1 fuel Hf) as (r & -> & Hr). by exists r.
Qed.

(** The searches in half open and open intervals with rational bounds in lowest terms end:
    within [m_k] of the binary rational bound, or within one plus the binary logarithm of the
    product of the denominators; they return the point of the interval whose exponent is least. *)
Theorem select_small_open_correct (fuel : nat) (p q : Q) (lower upper : mpbq) :
  wf lower -> wf upper -> reduced p -> reduced q ->
  let K := Z.log2 (Zpos (Qden p) * Zpos (Qden q)) + 1 in K < 4294967296 ->
  m_k lower <= Z.of_nat fuel -> m_k upper <= Z.of_nat fuel -> K <= Z.of_nat fuel ->
  ((p < V upper)%Q -> exists r, select_small_core_qb fuel p upper = Some r /\
                                simplest (open_closed p (V upper)) r) /\
  ((V lower < q)%Q -> exists r, select_small_core_bq fuel lower q = Some r /\
                                simplest (closed_open (V lower) q) r) /\
  ((p < q)%Q -> exists r, select_small_core_qq fuel p q = Some r /\ simplest (open p q) r).
Proof.
  intros Hl Hu Hp Hq K HK F1 F2 F3. pose proof (wf_k _ Hl). pose proof (wf_k _ Hu).
  split; [|split]; intros Hlt.
  - unfold select_small_core_qb.
    pose proof (hit_open_closed _ _ 0 ltac:(lia) _ _ Hlt (scaled_q_0 p Hp) (scaled_b_0 _ Hu)) as Hs.
    destruct (select_integer_qb p upper) eqn:E; [eexists; split; [done|]; by apply simplest_int|].
    eapply select_scaled_simplest with (R := fun k x y => scaled_q p k x /\ scaled_b (V upper) k y);
      [| |apply _|split; [by apply scaled_q_0|by apply scaled_b_0]|done| | |by apply open_closed_own]; [..|lia|lia].
    + intros k x y Hk [Hx Hy]. by apply hit_open_closed.
    + intros k x y Hk [Hx Hy]. split; [by apply scaled_q_double|by apply scaled_b_double].
  - unfold select_small_core_bq.
    pose proof (hit_closed_open _ _ 0 ltac:(lia) _ _ Hlt (scaled_b_0 _ Hl) (scaled_q_0 q Hq)) as Hs.
    destruct (select_integer_bq lower q) eqn:E; [eexists; split; [done|]; by apply simplest_int|].
    eapply select_scaled_simplest with (R := fun k x y => scaled_b (V lower) k x /\ scaled_q q k y);
      [| |apply _|split; [by apply scaled_b_0|by apply scaled_q_0]|done| | |by apply closed_open_own]; [..|lia|lia].
    + intros k x y Hk [Hx Hy]. by apply hit_closed_open.
    + intros k x y Hk [Hx Hy]. split; [by apply scaled_b_double|by apply scaled_q_double].
  - unfold select_small_core_qq.
    pose proof (hit_open p q 0 ltac:(lia) _ _ (scaled_q_0 p Hp) (scaled_q_0 q Hq)) as Hs.
    destruct (select_integer_qq p q) eqn:E; [eexists; split; [done|]; by apply simplest_int|].
    destruct (open_hit p q Hlt) as [m Hm]. pose proof (Z.log2_nonneg (Zpos (Qden p) * Zpos (Qden q))).
    eapply select_scaled_simplest with (R := fun k x y => scaled_q p k x /\ scaled_q q k y);
      [| |apply _|split; by apply scaled_q_0|done| | |apply Hm]; [..|lia|lia].
    + intros k x y Hk [Hx Hy]. by apply hit_open.
    + intros k x y Hk [Hx Hy]. split; by apply scaled_q_double.
Qed.

(** [eq], [lt], [le] decide equality and order of the numbers denoted, between numerals and
    against rationals and integers; [lt_1div2k] compares with [1/2^k]; [floor] and [ceil] are the
    integer parts.  Equality relies on normalization. *)
Theorem comparisons_correct (a b : mpbq) (q : Q) (z k : Z) : wf a -> wf b -> 0 <= k ->
  (eq a b = true <-> (V a == V b)%Q) /\ (lt a b = true <-> (V a < V b)%Q) /\
  (le a b = true <-> (V a <= V b)%Q) /\
  (eq_mpq a q = true <-> (V a == q)%Q) /\ (lt_mpq a q = true <-> (V a < q)%Q) /\
  (le_mpq a q = true <-> (V a <= q)%Q) /\
  (lt_mpz a z = true <-> (V a < inject_Z z)%Q) /\ (le_mpz a z = true <-> (V a <= inject_Z z)%Q) /\
  (lt_1div2k a k = true <-> (V a < V (Mpbq 1 k))%Q) /\
  floor a = Qfloor (V a) /\ ceil a = Qceiling (V a).
Proof.
  intros Ha Hb Hk. pose proof (wf_k _ Ha). pose proof (wf_k _ Hb).
  split; [by apply bq_eq_spec|]. split; [apply bq_lt_spec; lia|]. split; [apply le_spec; lia|].
  split; [apply eq_mpq_spec; lia|]. split; [apply lt_mpq_spec; lia|]. split; [apply le_mpq_spec; lia|].
  split; [apply lt_mpz_spec; lia|]. split; [apply le_mpz_spec; lia|].
  split; [apply lt_1div2k_spec; lia|]. split; [by apply floor_spec|by apply ceil_spec].
Qed.

(** C14: [root_lower] and [root_upper] end (the bisection of [mpz_manager::root] takes at most
    [log2 |num| + 2] steps), bound the [n]-th root from below and above, keep the sign of
    non-negative numbers, and report exactness only when the result is the root. *)
Theorem root_bounds (fuel : nat) (a : mpbq) (n : Z) :
  wf a -> 0 < n < 4294967296 -> (Z.odd n = true \/ 0 <= m_num a) ->
  Z.log2 (Z.abs (m_num a)) + 2 <= Z.of_nat fuel ->
  exists l u el eu, root_lower fuel a n = Some (l, el) /\ root_upper fuel a n = Some (u, eu) /\
    wf l /\ wf u /\ (V l ^ n <= V a)%Q /\ (V a <= V u ^ n)%Q /\
    (el = true -> V l ^ n == V a)%Q /\ (eu = true -> V u ^ n == V a)%Q /\
    (0 <= V a -> 0 <= V l /\ 0 <= V u)%Q.
Proof.
  intros Ha Hn Hd Hf.
  destruct (root_lower_spec a n fuel Ha Hn Hd Hf) as (l & el & ? & ? & ? & ? & ?).
  destruct (root_upper_spec a n fuel Ha Hn Hd Hf) as (u & eu & ? & ? & ? & ? & ?).
  exists l, u, el, eu. split_and!; auto.
Qed.

(** C15: rounding to [k] fractional bits: [approx] leaves short numerals alone and otherwise ends
    strictly on the requested side, less than one unit in the last place away; [approx_div] is exact
    when the divisor's numerator is a power of two or divides the dividend's, and otherwise on the
    requested side of the quotient, at most one unit away. *)
Theorem approximation_bounds (a b : mpbq) (k : Z) (to_plus_inf : bool) :
  wf a -> wf b -> m_num b <> 0 -> 0 <= k -> k + m_k b < 4294967296 ->
  m_k a + Z.log2 (Z.abs (m_num b)) < 4294967296 ->
  let r := approx a k to_plus_inf in
  let c := approx_div a b k to_plus_inf in
  (m_k a <= k -> r = a) /\
  (k < m_k a -> wf r /\ m_k r <= k /\
     if to_plus_inf then (V a < V r /\ V r < V a + ulp k)%Q else (V r < V a /\ V a < V r + ulp k)%Q) /\
  (exact_div a b -> wf c /\ (V c == V a / V b)%Q) /\
  (~ exact_div a b -> wf c /\ m_k c <= k /\
     if to_plus_inf then (V a / V b <= V c /\ V c <= V a / V b + ulp k)%Q
     else (V c <= V a / V b /\ V a / V b <= V c + ulp k)%Q).
Proof.
  intros Ha Hb Hn Hk H1 H2 r c. split_and!.
  - intros H. unfold r, approx. by rewrite (proj2 (Z.leb_le _ _) H).
  - intros H. apply approx_spec; [done|lia].
  - intros H. by apply approx_div_exact.
  - intros H. by apply approx_div_rounded.
Qed.

(** C16: for a rational [q] in lowest terms that is no binary rational and [l < q < u], the bisections of
    [refine_upper] and [refine_lower] end, within the [n] steps that divide the interval below the
    distance to be crossed, and return an interval around [q] whose refined bound moved. *)
Theorem refine_terminates (fuel n : nat) (q : Q) (l u : mpbq) :
  reduced q -> is_power_of_two (Zpos (Qden q)) = None -> wf l -> wf u -> (V l < q)%Q -> (q < V u)%Q ->
  Z.max (m_k l) (m_k u) + Z.of_nat n < 4294967296 -> (n <= fuel)%nat ->
  ((V u - V l < (V u - q) * inject_Z (2 ^ Z.of_nat n))%Q ->
   exists l' u', refine_upper fuel q l u = Some (l', u') /\ wf l' /\ wf u' /\
     (V l <= V l')%Q /\ (V l' < q)%Q /\ (q < V u')%Q /\ (V u' < V u)%Q) /\
  ((V u - V l < (q - V l) * inject_Z (2 ^ Z.of_nat n))%Q ->
   exists l' u', refine_lower fuel q l u = Some (l', u') /\ wf l' /\ wf u' /\
     (V l < V l')%Q /\ (V l' < q)%Q /\ (q < V u')%Q /\ (V u' <= V u)%Q).
Proof.
  intros Hr Hn Hl Hu H1 H2 H3 H4. split; intros H5.
  - eapply (refine_upper_spec q Hr Hn n fuel l u (Z.max (m_k l) (m_k u))); eauto; lia.
  - eapply (refine_lower_spec q Hr Hn n fuel l u (Z.max (m_k l) (m_k u))); eauto; lia.
Qed.

(** [to_mpbq] converts exactly when the rational is binary, says so, and otherwise returns the
    numerator over the least power of two above the denominator; [magnitude_lb] and [magnitude_ub]
    are the exponents of powers of two around the number. *)
Theorem conversion_magnitude (q : Q) (a : mpbq) :
  reduced q -> Z.log2 (Zpos (Qden q)) + 1 < 4294967296 -> wf a -> small_magnitude a ->
  (let (x, exact) := to_mpbq q in
   wf x /\
   if exact then (V x == q)%Q
   else (forall y, wf y -> ~ (V y == q)%Q) /\
        (V x == Qmake (Qnum q) (Z.to_pos (2 ^ (Z.log2 (Zpos (Qden q)) + 1))))%Q) /\
  (0 < m_num a -> (inject_Z 2 ^ magnitude_lb a <= V a /\ V a < inject_Z 2 ^ magnitude_ub a)%Q) /\
  (m_num a < 0 -> (- inject_Z 2 ^ magnitude_lb a < V a /\ V a <= - inject_Z 2 ^ magnitude_ub a)%Q).
Proof.
  intros Hr Hs Ha Hm. split; [by apply to_mpbq_spec|]. split; intros Hp.
  - by apply magnitude_pos.
  - by apply magnitude_neg.
Qed.

(** With the result in the place of an integer operand ([mul(a, b, a)]), the product of an
    integer and a fraction is left unnormalized, since the test reads the overwritten exponent:
    [2 * 1/2] becomes [2/2], which [eq] does not identify with 1 and whose [floor] is right but
    whose [ceil] is 2. *)
Lemma mul_alias_defect :
  let a := of_mpz 2 in let b := mk 1 1 in let one := of_mpz 1 in
  let r := mul true false a b in
  wf a /\ wf b /\ (V r == V one)%Q /\ ~ wf r /\ eq r one = false /\ floor r = 1 /\ ceil r = 2 /\
  mul false false a b = one.
Proof.
  cbv zeta. split; [apply wf_int|]. split; [split; [vm_compute; split; done|by right]|].
  split; [done|]. split; [|done]. intros [_ [H|H]]; done.
Qed.

(** [display_decimal] prints the integer part of the absolute value and at most [prec] further digits;
    they are the digits of the number rounded towards zero, and the expansion is exact when it is not ended by a question mark. *)
Theorem display_decimal_correct (a : mpbq) (prec : nat) : wf a -> 0 < m_k a ->
  let p := 2 ^ m_k a in
  exists v t, display_decimal a prec =
      (if m_num a <? 0 then [Str [45]] else []) ++ Num v :: Str [46] :: t /\
    Forall (fun d => 0 <= d < 10) (digits t) /\ (length (digits t) <= prec)%nat /\
    let m := Z.of_nat (length (digits t)) in
    decimal v (digits t) * p <= Z.abs (m_num a) * 10 ^ m < (decimal v (digits t) + 1) * p /\
    (truncated t = false -> decimal v (digits t) * p = Z.abs (m_num a) * 10 ^ m).
Proof.
  intros Ha Hk p. pose proof (wf_k a Ha). assert (0 < p) as Hp by (apply pow2_pos; lia).
  unfold display_decimal, is_int. destruct (Z.eqb_spec (m_k a) 0); [lia|]. fold p.
  exists (Z.quot (Z.abs (m_num a)) p), (decimal_loop prec (Z.rem (Z.abs (m_num a)) p) p).
  split; [done|]. rewrite Z.quot_div_nonneg, Z.rem_mod_nonneg by lia.
  destruct (decimal_loop_spec prec (Z.abs (m_num a) / p) (Z.abs (m_num a) mod p) p Hp) as (H1 & H2 & H3 & H4);
    [by apply Z.mod_pos_bound|].
  replace (Z.abs (m_num a) / p * p + Z.abs (m_num a) mod p) with (Z.abs (m_num a)) in *
    by (pose proof (Z.div_mod (Z.abs (m_num a)) p ltac:(lia)); lia).
  split; [done|]. split; [lia|]. done.
Qed.

(** *** The properties at concrete inputs *)

Definition wfb (x : mpbq) : bool :=
  (0 <=? m_k x) && (m_k x <? 4294967296) && ((m_k x =? 0) || Z.odd (m_num x)).

Lemma wfb_wf x : wfb x = true -> wf x.
Proof.
  unfold wfb, wf, is_u32. rewrite !andb_true_iff, orb_true_iff, Z.leb_le, Z.ltb_lt, Z.eqb_eq. done.
Qed.

Lemma ring_exact_witness :
  let a := Mpbq 1 1 in let b := Mpbq 3 2 in
  add a b = Mpbq 5 2 /\ wf (add a b) /\ (V (add a b) == V a + V b)%Q.
Proof.
  split; [reflexivity|].
  apply (ring_exact (Mpbq 1 1) (Mpbq 3 2) (Mpbq 5 0) 7 2); first [by apply wfb_wf | done].
Defined.

Lemma select_small_correct_witness :
  select_small 2 (Mpbq 9 5) (Mpbq 5 2) = Some (Some (of_mpz 1)) /\
  exists r, select_small 2 (Mpbq 9 5) (Mpbq 5 2) = Some (Some r) /\
            simplest (closed (V (Mpbq 9 5)) (V (Mpbq 5 2))) r.
Proof.
  split; [reflexivity|].
  apply (select_small_correct 2 (Mpbq 9 5) (Mpbq 5 2)); first [by apply wfb_wf | done].
Defined.

Lemma select_small_open_correct_witness :
  select_small_core_qq 10 (1 # 3) (2 # 3) = Some (Mpbq 1 1) /\
  exists r, select_small_core_qq 10 (1 # 3) (2 # 3) = Some r /\ simplest (open (1 # 3) (2 # 3)) r.
Proof.
  split; [reflexivity|].
  apply (select_small_open_correct 10 (1 # 3) (2 # 3) (Mpbq 1 1) (Mpbq 3 1));
    first [by apply wfb_wf | done].
Defined.

Lemma comparisons_correct_witness :
  lt (Mpbq 1 1) (Mpbq 3 2) = true /\ (V (Mpbq 1 1) < V (Mpbq 3 2))%Q.
Proof.
  split; [reflexivity|].
  apply (comparisons_correct (Mpbq 1 1) (Mpbq 3 2) (1 # 3) 1 1); first [by apply wfb_wf | done].
Defined.

Lemma root_bounds_witness :
  root_lower 5 (Mpbq 9 2) 2 = Some (Mpbq 3 1, true) /\
  exists l u el eu, root_lower 5 (Mpbq 9 2) 2 = Some (l, el) /\ root_upper 5 (Mpbq 9 2) 2 = Some (u, eu) /\
    wf l /\ wf u /\ (V l ^ 2 <= V (Mpbq 9 2))%Q /\ (V (Mpbq 9 2) <= V u ^ 2)%Q /\
    (el = true -> V l ^ 2 == V (Mpbq 9 2))%Q /\ (eu = true -> V u ^ 2 == V (Mpbq 9 2))%Q /\
    (0 <= V (Mpbq 9 2) -> 0 <= V l /\ 0 <= V u)%Q.
Proof.
  split; [reflexivity|].
  apply (root_bounds 5 (Mpbq 9 2) 2); first [by apply wfb_wf | by right | done].
Defined.

Lemma approximation_bounds_witness :
  approx (Mpbq 11 4) 1 true = Mpbq 1 0 /\
  wf (approx (Mpbq 11 4) 1 true) /\ m_k (approx (Mpbq 11 4) 1 true) <= 1 /\
  (V (Mpbq 11 4) < V (approx (Mpbq 11 4) 1 true))%Q /\
  (V (approx (Mpbq 11 4) 1 true) < V (Mpbq 11 4) + ulp 1)%Q.
Proof.
  split; [reflexivity|].
  apply (approximation_bounds (Mpbq 11 4) (Mpbq 3 0) 1 true); first [by apply wfb_wf | done].
Defined.

Lemma refine_terminates_witness :
  exists l u, refine_upper 3 (1 # 3) (Mpbq 0 0) (Mpbq 1 0) = Some (l, u) /\ wf l /\ wf u /\
    (V (Mpbq 0 0) <= V l)%Q /\ (V l < 1 # 3)%Q /\ (1 # 3 < V u)%Q /\ (V u < V (Mpbq 1 0))%Q.
Proof.
  apply (refine_terminates 3 2 (1 # 3) (Mpbq 0 0) (Mpbq 1 0)); first [by apply wfb_wf | done | simpl; lia].
Defined.

End mpbq_properties.
