(* ===== verification/Expr.v ===== *)
(** * Expr: the boolean fragment of the term language ([ast/ast.h])

    Terms of the basic family, with applications of other families and variables (and quantifiers)
    as leaves of the fragment.  Terms are hash-consed in the source, so pointer equality is equality
    of terms here.  The decision procedures of the other families ([decl_plugin]) are an interface:
    the rewriter is defined over any plugins, and its soundness is proved for the plugins that obey
    the laws [ast.h] documents. *)
From S2P Require Import Prelude.
From Stdlib Require Import ZArith Lia.
From stdpp Require Import base tactics option list numbers.
Open Scope Z_scope.

(** ** Sorts, declarations, terms *)

Inductive sort := Bool | Sort (n : Z).
#[export] Instance sort_eq_dec : EqDecision sort.
Proof. solve_decision. Defined.

Record func_decl := FuncDecl { fd_family : Z; fd_name : Z; fd_range : sort }.
#[export] Instance func_decl_eq_dec : EqDecision func_decl.
Proof. solve_decision. Defined.

Inductive expr :=
  | e_var (idx : Z) (s : sort)
  | e_app (f : func_decl) (args : list expr)
  | e_true
  | e_false
  | e_eq (a b : expr)
  | e_distinct (args : list expr)
  | e_ite (c t e : expr)
  | e_and (args : list expr)
  | e_or (args : list expr)
  | e_xor (args : list expr)
  | e_not (a : expr)
  | e_implies (a b : expr).

Fixpoint expr_eq_dec (x y : expr) {struct x} : {x = y} + {x <> y}.
Proof.
  decide equality; solve [apply (List.list_eq_dec expr_eq_dec) | apply Z.eq_dec
                         | apply sort_eq_dec | apply func_decl_eq_dec].
Defined.
#[export] Instance expr_eq_decision : EqDecision expr := expr_eq_dec.

Section Induction.
Context (P : expr -> Prop).
Context (Hvar : forall i s, P (e_var i s)) (Happ : forall f l, Forall P l -> P (e_app f l)).
Context (Htrue : P e_true) (Hfalse : P e_false) (Heq : forall a b, P a -> P b -> P (e_eq a b)).
Context (Hdistinct : forall l, Forall P l -> P (e_distinct l)).
Context (Hite : forall c t e, P c -> P t -> P e -> P (e_ite c t e)).
Context (Hand : forall l, Forall P l -> P (e_and l)) (Hor : forall l, Forall P l -> P (e_or l)).
Context (Hxor : forall l, Forall P l -> P (e_xor l)) (Hnot : forall a, P a -> P (e_not a)).
Context (Himp : forall a b, P a -> P b -> P (e_implies a b)).

Fixpoint expr_nested_ind (e : expr) : P e :=
  let go_list := fix go l : Forall P l :=
    match l with
    | [] => @List.Forall_nil _ P
    | x :: l' => @List.Forall_cons _ P x l' (expr_nested_ind x) (go l')
    end in
  match e with
  | e_var i s => Hvar i s
  | e_app f l => Happ f l (go_list l)
  | e_true => Htrue
  | e_false => Hfalse
  | e_eq a b => Heq a b (expr_nested_ind a) (expr_nested_ind b)
  | e_distinct l => Hdistinct l (go_list l)
  | e_ite c t e => Hite c t e (expr_nested_ind c) (expr_nested_ind t) (expr_nested_ind e)
  | e_and l => Hand l (go_list l)
  | e_or l => Hor l (go_list l)
  | e_xor l => Hxor l (go_list l)
  | e_not a => Hnot a (expr_nested_ind a)
  | e_implies a b => Himp a b (expr_nested_ind a) (expr_nested_ind b)
  end.
End Induction.

(** [get_sort] *)
Fixpoint get_sort (e : expr) : sort :=
  match e with
  | e_var _ s => s
  | e_app f _ => fd_range f
  | e_ite _ t _ => get_sort t
  | _ => Bool
  end.

Definition is_bool (e : expr) : bool := bool_decide (get_sort e = Bool).

(** Sort correctness of the basic family's applications. *)
Fixpoint well_sorted (e : expr) : bool :=
  match e with
  | e_var _ _ | e_true | e_false => true
  | e_app _ l => forallb well_sorted l
  | e_eq a b => well_sorted a && well_sorted b && bool_decide (get_sort a = get_sort b)
  | e_distinct l =>
      forallb well_sorted l && forallb (fun x => bool_decide (Some (get_sort x) = get_sort <$> head l)) l
  | e_ite c t e =>
      well_sorted c && well_sorted t && well_sorted e && is_bool c && bool_decide (get_sort t = get_sort e)
  | e_and l | e_or l | e_xor l => forallb (fun x => well_sorted x && is_bool x) l
  | e_not a => well_sorted a && is_bool a
  | e_implies a b => well_sorted a && is_bool a && well_sorted b && is_bool b
  end.

(** ** Recognizers *)

Definition is_true (e : expr) : bool := match e with e_true => true | _ => false end.
Definition is_false (e : expr) : bool := match e with e_false => true | _ => false end.
Definition is_not (e : expr) : bool := match e with e_not _ => true | _ => false end.
Definition is_and (e : expr) : bool := match e with e_and _ => true | _ => false end.
Definition is_or (e : expr) : bool := match e with e_or _ => true | _ => false end.
Definition is_ite (e : expr) : bool := match e with e_ite _ _ _ => true | _ => false end.

Definition is_complement_core (n1 n2 : expr) : bool :=
  (is_true n1 && is_false n2) || (match n1 with e_not a => bool_decide (a = n2) | _ => false end).
Definition is_complement (n1 n2 : expr) : bool :=
  is_complement_core n1 n2 || is_complement_core n2 n1.

(** ** Plugins *)

Record decl_plugin := {
  p_is_value : expr -> bool;
  p_is_unique_value : expr -> bool;
  p_are_equal : expr -> expr -> bool;
  p_are_distinct : expr -> expr -> bool }.

(** The plugin of the basic family: the values are [true] and [false], and equality and
    distinctness are the defaults of [decl_plugin]; [unique] is [is_unique_value] of the plugin. *)
Definition basic_is_value (a : expr) : bool := is_true a || is_false a.
Definition basic_decl_plugin : decl_plugin := {|
  p_is_value := basic_is_value;
  p_is_unique_value := basic_is_value;
  p_are_equal := fun a b => bool_decide (a = b);
  p_are_distinct := fun a b => bool_decide (a <> b) && basic_is_value a && basic_is_value b |}.

(** The plugins of the other families. *)
Class Theories := theory_plugin : Z -> option decl_plugin.

Section Manager.
Context `{Theories}.

Definition is_app (e : expr) : bool := match e with e_var _ _ => false | _ => true end.

Definition get_plugin (e : expr) : option decl_plugin :=
  match e with
  | e_var _ _ => None
  | e_app f _ => theory_plugin (fd_family f)
  | _ => Some basic_decl_plugin
  end.

Definition is_value (e : expr) : bool :=
  is_app e && match get_plugin e with Some p => p_is_value p e | None => false end.
Definition is_unique_value (e : expr) : bool :=
  is_app e && match get_plugin e with Some p => p_is_unique_value p e | None => false end.

Definition plugin_of (a b : expr) : option decl_plugin :=
  match get_plugin a with Some p => Some p | None => get_plugin b end.

Definition are_equal (a b : expr) : bool :=
  bool_decide (a = b) ||
  (is_app a && is_app b &&
   match plugin_of a b with Some p => p_are_equal p a b | None => false end).
Definition are_distinct (a b : expr) : bool :=
  is_app a && is_app b &&
  match plugin_of a b with Some p => p_are_distinct p a b | None => false end.
End Manager.

(** ** Meaning *)

Inductive value := VBool (b : bool) | VElem (s n : Z).
#[export] Instance value_eq_dec : EqDecision value.
Proof. solve_decision. Defined.

Definition sort_of_value (v : value) : sort :=
  match v with VBool _ => Bool | VElem s _ => Sort s end.

(** An interpretation of the declarations and variables, respecting their sorts. *)
Class Interp := {
  app_value : func_decl -> list value -> value;
  var_value : Z -> sort -> value;
  app_value_sort : forall f l, sort_of_value (app_value f l) = fd_range f;
  var_value_sort : forall i s, sort_of_value (var_value i s) = s }.

Definition truth (v : value) : bool := match v with VBool b => b | VElem _ _ => false end.

Section Meaning.
Context `{Interp}.

Fixpoint eval (e : expr) : value :=
  match e with
  | e_var i s => var_value i s
  | e_app f l => app_value f (map eval l)
  | e_true => VBool true
  | e_false => VBool false
  | e_eq a b => VBool (bool_decide (eval a = eval b))
  | e_distinct l => VBool (bool_decide (NoDup (map eval l)))
  | e_ite c t e => if truth (eval c) then eval t else eval e
  | e_and l => VBool (forallb (fun x => truth (eval x)) l)
  | e_or l => VBool (existsb (fun x => truth (eval x)) l)
  | e_xor l => VBool (foldr (fun x b => xorb (truth (eval x)) b) false l)
  | e_not a => VBool (negb (truth (eval a)))
  | e_implies a b => VBool (implb (truth (eval a)) (truth (eval b)))
  end.

Definition holds (e : expr) : bool := truth (eval e).
End Meaning.

(** The laws of the plugins in an interpretation: the documentation of [is_unique_value],
    [are_equal] and [are_distinct]. *)
Class TheoryLaws `{Theories} `{Interp} := {
  plugin_equal : forall fam p a b, theory_plugin fam = Some p ->
    p_are_equal p a b = true -> eval a = eval b;
  plugin_distinct : forall fam p a b, theory_plugin fam = Some p ->
    p_are_distinct p a b = true -> eval a <> eval b;
  unique_values : forall a b, is_unique_value a = true -> is_unique_value b = true ->
    eval a = eval b -> a = b }.

(** ** Lemmas *)

Module Import expr_facts.
Section Facts.
Context `{Interp}.

Lemma is_bool_true e : is_bool e = true <-> get_sort e = Bool.
Proof. unfold is_bool. by rewrite bool_decide_eq_true. Qed.

Lemma well_sorted_ite c t e : well_sorted (e_ite c t e) = true <->
  well_sorted c = true /\ well_sorted t = true /\ well_sorted e = true /\
  is_bool c = true /\ get_sort t = get_sort e.
Proof. cbn [well_sorted]. rewrite !andb_true_iff, bool_decide_eq_true. tauto. Qed.

Lemma well_sorted_eq a b : well_sorted (e_eq a b) = true <->
  well_sorted a = true /\ well_sorted b = true /\ get_sort a = get_sort b.
Proof. cbn [well_sorted]. rewrite !andb_true_iff, bool_decide_eq_true. tauto. Qed.

Lemma eval_sort e : well_sorted e = true -> sort_of_value (eval e) = get_sort e.
Proof.
  induction e using expr_nested_ind; intros Hw; try done.
  - apply var_value_sort.
  - apply app_value_sort.
  - apply well_sorted_ite in Hw as (_ & Ht & He & _ & Es). cbn [eval get_sort].
    destruct (truth _); [by apply IHe2|]. rewrite Es. by apply IHe3.
Qed.

(** A boolean term denotes its truth value. *)
Lemma eval_bool e : well_sorted e = true -> is_bool e = true -> eval e = VBool (holds e).
Proof.
  intros Hw Hb. apply is_bool_true in Hb. pose proof (eval_sort e Hw) as Hs. rewrite Hb in Hs.
  unfold holds. by destruct (eval e).
Qed.

Lemma holds_eq a b : well_sorted a = true -> well_sorted b = true -> is_bool a = true -> is_bool b = true ->
  holds (e_eq a b) = eqb (holds a) (holds b).
Proof.
  intros Ha Hb Ba Bb. unfold holds at 1. cbn [eval truth].
  rewrite (eval_bool a), (eval_bool b) by done.
  destruct (holds a), (holds b); done.
Qed.
End Facts.

Section Distinctness.
Context `{TheoryLaws}.

Lemma are_equal_sound a b : are_equal a b = true -> eval a = eval b.
Proof.
  unfold are_equal. rewrite orb_true_iff, bool_decide_eq_true. intros [->|E]; [done|].
  rewrite !andb_true_iff in E. destruct E as [_ E]. unfold plugin_of in E.
  assert (forall p, p_are_equal p a b = true -> (exists fam, theory_plugin fam = Some p) \/ p = basic_decl_plugin ->
    eval a = eval b) as Hp.
  { intros p Hp [[fam Hf]| ->]; [by eapply plugin_equal|].
    cbn in Hp. by apply bool_decide_eq_true in Hp as ->. }
  destruct (get_plugin a) as [p|] eqn:Ea.
  - apply (Hp p E). destruct a; simplify_eq/=; eauto.
  - destruct (get_plugin b) as [p|] eqn:Eb; [|done].
    apply (Hp p E). destruct b; simplify_eq/=; eauto.
Qed.

Lemma basic_distinct a b : p_are_distinct basic_decl_plugin a b = true -> eval a <> eval b.
Proof.
  cbn. rewrite !andb_true_iff, bool_decide_eq_true. intros [[Hn Ha] Hb].
  destruct a; try done; destruct b; done.
Qed.

Lemma are_distinct_sound a b : are_distinct a b = true -> eval a <> eval b.
Proof.
  unfold are_distinct, plugin_of. rewrite !andb_true_iff. intros [_ E].
  assert (forall p, p_are_distinct p a b = true -> (exists fam, theory_plugin fam = Some p) \/ p = basic_decl_plugin ->
    eval a <> eval b) as Hp.
  { intros p Hp [[fam Hf]| ->]; [by eapply plugin_distinct|by apply basic_distinct]. }
  destruct (get_plugin a) as [p|] eqn:Ea.
  - apply (Hp p E). destruct a; simplify_eq/=; eauto.
  - destruct (get_plugin b) as [p|] eqn:Eb; [|done].
    apply (Hp p E). destruct b; simplify_eq/=; eauto.
Qed.
End Distinctness.
End expr_facts.
