(* ===== verification/BoolRewriter.v ===== *)
(** * BoolRewriter: simplification of boolean terms ([ast/rewriter/bool_rewriter.cpp])

    One definition per member of [bool_rewriter].  A [_core] member fails ([BR_FAILED]) or returns a
    status and a term; the others fall back to building the application.  Marks on terms
    ([expr_fast_mark]) are lists of marked terms.  The recursion of [mk_not] through [mk_eq] takes
    fuel computed from the term, as does the loop of [local_ctx_simp]; [None] is running out of it.
    [m_local_ctx_cost], the only state, is threaded by the monad [M]. *)
From S2P Require Import Prelude.
From S2P Require Import Expr.
From Stdlib Require Import ZArith Lia.
From stdpp Require Import base tactics option list numbers.
Open Scope Z_scope.

Inductive br_status := BR_REWRITE1 | BR_REWRITE2 | BR_REWRITE3 | BR_DONE.
Inductive br := BR_FAILED | Res (s : br_status) (e : expr).

Record params := Params {
  m_flat : bool; m_elim_and : bool; m_elim_ite : bool; m_local_ctx : bool;
  m_local_ctx_limit : Z; m_blast_distinct : bool; m_blast_distinct_threshold : Z;
  m_ite_extra_rules : bool }.

(** The operators of the basic family. *)
Inductive basic_op_kind :=
  OP_TRUE | OP_FALSE | OP_EQ | OP_DISTINCT | OP_ITE | OP_AND | OP_OR | OP_XOR | OP_NOT | OP_IMPLIES.

Definition M (A : Type) : Type := Z -> option (A * Z).
#[export] Instance M_ret : MRet M := fun A x c => Some (x, c).
#[export] Instance M_bind : MBind M := fun A B f m c => '(x, c) ← m c; f x c.
Definition lift {A} (o : option A) : M A := fun c => x ← o; Some (x, c).
Definition get_cost : M Z := fun c => Some (c, c).
Definition add_cost (n : Z) : M unit := fun c => Some (tt, u32 (c + n)).

(** [std::sort] *)
Section Sort.
Context (lt : expr -> expr -> bool).
Fixpoint insert_sorted (x : expr) (l : list expr) : list expr :=
  match l with
  | [] => [x]
  | y :: l' => if lt x y then x :: l else y :: insert_sorted x l'
  end.
Fixpoint sort_exprs (l : list expr) : list expr :=
  match l with [] => [] | x :: l' => insert_sorted x (sort_exprs l') end.
End Sort.

Definition marked (x : expr) (marks : list expr) : bool := bool_decide (x ∈ marks).

Module bool_rewriter.
Section Rewriter.
Context `{Theories}.
(** The order of [ast_lt.cpp] on terms; nothing is assumed of it. *)
Context (ast_lt : expr -> expr -> bool).
Context (P : params).

(** ** Equality and negation *)

Fixpoint try_ite_value (ite val : expr) : br :=
  match ite with
  | e_ite cond t e =>
      if are_distinct val e then Res BR_REWRITE2 (e_and [e_eq t val; cond])
      else if are_distinct val t then Res BR_REWRITE2 (e_and [e_eq e val; e_not cond])
      else if are_equal val t then
        if are_equal val e then Res BR_DONE e_true
        else Res BR_REWRITE2 (e_or [e_eq e val; cond])
      else if are_equal val e then Res BR_REWRITE2 (e_or [e_eq t val; e_not cond])
      else
        match (match t with
               | e_ite _ t2 e2 => if is_value t2 && is_value e2 then try_ite_value t val else BR_FAILED
               | _ => BR_FAILED
               end) with
        | Res _ r => Res BR_REWRITE2 (e_ite cond r (e_eq e val))
        | BR_FAILED =>
            match (match e with
                   | e_ite _ t2 e2 => if is_value t2 && is_value e2 then try_ite_value e val else BR_FAILED
                   | _ => BR_FAILED
                   end) with
            | Res _ r => Res BR_REWRITE2 (e_ite cond (e_eq t val) r)
            | BR_FAILED => BR_FAILED
            end
        end
  | _ => BR_FAILED
  end.

(** [x = (not y)] *)
Definition is_not_of (x y : expr) : bool := bool_decide (x = e_not y).

(** [mk_eq_core] over the [mk_not] it calls. *)
Definition mk_eq_core_with (mk_not : expr -> option expr) (lhs rhs : expr) : option br :=
  if are_equal lhs rhs then Some (Res BR_DONE e_true)
  else if are_distinct lhs rhs then Some (Res BR_DONE e_false)
  else
    match (if m_ite_extra_rules P then
             if is_ite lhs && is_value rhs then try_ite_value lhs rhs
             else if is_ite rhs && is_value lhs then try_ite_value rhs lhs
             else BR_FAILED
           else BR_FAILED) with
    | Res s r => Some (Res s r)
    | BR_FAILED =>
        if is_bool lhs then
          let '(lhs, rhs, unfolded) :=
            match lhs, rhs with
            | e_not a, e_not b => (a, b, true)
            | _, _ => (lhs, rhs, false)
            end in
          if is_true lhs then Some (Res BR_DONE rhs)
          else if is_false lhs then r ← mk_not rhs; Some (Res BR_DONE r)
          else if is_true rhs then Some (Res BR_DONE lhs)
          else if is_false rhs then r ← mk_not lhs; Some (Res BR_DONE r)
          else if is_complement lhs rhs then Some (Res BR_DONE e_false)
          else
            let '(lhs, rhs) := if is_not rhs then (rhs, lhs) else (lhs, rhs) in
            match lhs with
            | e_not a => Some (Res BR_REWRITE2 (e_not (e_eq a rhs)))
            | _ =>
                if unfolded then Some (Res BR_REWRITE1 (e_eq lhs rhs))
                else
                  match lhs, rhs with
                  | e_eq la lb, e_eq ra rb =>
                      if (bool_decide (la = ra) && (is_not_of rb lb || is_not_of lb rb)) ||
                         (bool_decide (lb = rb) && (is_not_of ra la || is_not_of la ra))
                      then Some (Res BR_DONE e_false)
                      else Some BR_FAILED
                  | _, _ => Some BR_FAILED
                  end
            end
        else Some BR_FAILED
    end.

Definition mk_eq_with (mk_not : expr -> option expr) (lhs rhs : expr) : option expr :=
  c ← mk_eq_core_with mk_not lhs rhs;
  Some (match c with BR_FAILED => e_eq lhs rhs | Res _ r => r end).

Definition mk_not_core_with (mk_not : expr -> option expr) (t : expr) : option br :=
  match t with
  | e_not a => Some (Res BR_DONE a)
  | e_true => Some (Res BR_DONE e_false)
  | e_false => Some (Res BR_DONE e_true)
  | e_eq a b =>
      if is_bool a then
        tmp ← mk_not a;
        r ← mk_eq_with mk_not tmp b;
        Some (Res BR_DONE r)
      else Some BR_FAILED
  | _ => Some BR_FAILED
  end.

Fixpoint mk_not_fuel (fuel : nat) (t : expr) : option expr :=
  match fuel with
  | O => None
  | S fuel' =>
      c ← mk_not_core_with (mk_not_fuel fuel') t;
      Some (match c with BR_FAILED => e_not t | Res _ r => r end)
  end.

(** The equations [mk_not] can walk through. *)
Fixpoint eqs (e : expr) : nat :=
  match e with e_not a => eqs a | e_eq a b => S (eqs a + eqs b) | _ => O end.

Definition mk_not (t : expr) : option expr := mk_not_fuel (S (eqs t)) t.
Definition mk_not_core (t : expr) : option br := mk_not_core_with mk_not t.
Definition mk_eq_core (lhs rhs : expr) : option br := mk_eq_core_with mk_not lhs rhs.
Definition mk_eq (lhs rhs : expr) : option expr := mk_eq_with mk_not lhs rhs.
Definition mk_xor (lhs rhs : expr) : option expr := tmp ← mk_not lhs; mk_eq tmp rhs.

(** ** Conjunction *)

(** The loop over the arguments: [None] when the conjunction is [false], otherwise whether
    something was dropped and the arguments kept. *)
Fixpoint nflat_and_loop (args neg pos : list expr) (s : bool) (buffer : list expr)
    : option (bool * list expr) :=
  match args with
  | [] => Some (s, buffer)
  | arg :: args' =>
      if is_true arg then nflat_and_loop args' neg pos true buffer
      else if is_false arg then None
      else
        match arg with
        | e_not atom =>
            if marked atom neg then nflat_and_loop args' neg pos true buffer
            else if marked atom pos then None
            else nflat_and_loop args' (atom :: neg) pos s (buffer ++ [arg])
        | _ =>
            if marked arg pos then nflat_and_loop args' neg pos true buffer
            else if marked arg neg then None
            else nflat_and_loop args' neg (arg :: pos) s (buffer ++ [arg])
        end
  end.

Definition mk_nflat_and_core (args : list expr) : br :=
  match nflat_and_loop args [] [] false [] with
  | None => Res BR_DONE e_false
  | Some (s, buffer) =>
      match buffer with
      | [] => Res BR_DONE e_true
      | [x] => Res BR_DONE x
      | _ => if s then Res BR_DONE (e_and buffer) else BR_FAILED
      end
  end.

(** The arguments with those of the nested conjunctions in place. *)
Definition flatten_and (args : list expr) : list expr :=
  mjoin (map (fun arg => match arg with e_and l => l | _ => [arg] end) args).

Definition mk_flat_and_core (args : list expr) : br :=
  if existsb is_and args then
    let flat_args := flatten_and args in
    match mk_nflat_and_core flat_args with
    | BR_FAILED => Res BR_DONE (e_and flat_args)
    | Res _ r => Res BR_DONE r
    end
  else mk_nflat_and_core args.

(** ** Local context simplification of a disjunction *)

Definition mk_or_app (args : list expr) : expr :=
  match args with [] => e_false | [x] => x | _ => e_or args end.

(** The loop of [simp_nested_not_or]: [None] when an argument is [true] in the context. *)
Fixpoint nested_not_or_loop (args neg pos : list expr) (simp : bool) (new_args : list expr)
    : option (bool * list expr) :=
  match args with
  | [] => Some (simp, new_args)
  | arg :: args' =>
      if marked arg neg then None
      else if marked arg pos then nested_not_or_loop args' neg pos true new_args
      else
        match arg with
        | e_not atom =>
            if marked atom neg then nested_not_or_loop args' neg pos true new_args
            else if marked atom pos then None
            else nested_not_or_loop args' neg pos simp (new_args ++ [arg])
        | _ => nested_not_or_loop args' neg pos simp (new_args ++ [arg])
        end
  end.

Definition simp_nested_not_or (args neg pos : list expr) : M (option expr) :=
  _ ← add_cost (Z.of_nat (length args));
  match nested_not_or_loop args neg pos false [] with
  | None => mret (Some e_false)
  | Some (true, []) => mret (Some e_true)
  | Some (true, [x]) => r ← lift (mk_not x); mret (Some r)
  | Some (true, new_args) => mret (Some (e_not (e_or new_args)))
  | Some (false, _) => mret None
  end.

(** The new argument and whether it changed. *)
Definition simp_arg (neg pos : list expr) (arg : expr) : expr * bool :=
  match arg with
  | e_not atom =>
      if marked atom neg then (e_false, true)
      else if marked atom pos then (e_true, true)
      else (arg, false)
  | _ =>
      if marked arg neg then (e_true, true)
      else if marked arg pos then (e_false, true)
      else (arg, false)
  end.

Definition mk_nested_ite (c t e : expr) : option expr :=
  if is_true c then Some t
  else if is_false c then Some e
  else if bool_decide (t = e) then Some t
  else if is_bool t then
    if is_true t then
      if is_false e then Some c else Some (e_or [c; e])
    else if is_false t then
      if is_true e then mk_not c
      else tmp ← mk_not e; Some (e_not (e_or [c; tmp]))
    else if is_true e then tmp ← mk_not c; Some (e_or [tmp; t])
    else if is_false e || bool_decide (c = e) then
      tmp1 ← mk_not c; tmp2 ← mk_not t; Some (e_not (e_or [tmp1; tmp2]))
    else if bool_decide (c = t) then Some (e_or [c; e])
    else if is_complement_core t e then mk_eq c t
    else if is_complement_core e t then mk_eq c t
    else Some (e_ite c t e)
  else Some (e_ite c t e).

Definition simp_nested_eq_ite (t : expr) (neg pos : list expr) : M (option expr) :=
  _ ← add_cost 3;
  let '(ng, t) := match t with e_not a => (true, a) | _ => (false, t) end in
  let negate (r : expr) : M (option expr) :=
    if ng : bool then r' ← lift (mk_not r); mret (Some r') else mret (Some r) in
  match t with
  | e_eq a b =>
      let '(new_lhs, ml) := simp_arg neg pos a in
      let '(new_rhs, mr) := simp_arg neg pos b in
      if ml || mr then r ← lift (mk_eq new_lhs new_rhs); negate r else mret None
  | e_ite c a b =>
      let '(new_c, mc) := simp_arg neg pos c in
      let '(new_t, mt) := simp_arg neg pos a in
      let '(new_e, me) := simp_arg neg pos b in
      if mc || mt || me then r ← lift (mk_nested_ite new_c new_t new_e); negate r else mret None
  | _ => mret None
  end.

(** The variables of [local_ctx_simp] during a round. *)
Record lctx := Lctx {
  new_args : list expr; neg_lits : list expr; pos_lits : list expr; modified : bool; simp : bool }.

Definition push_new_arg (arg : expr) (st : lctx) : lctx :=
  match arg with
  | e_not narg =>
      if marked narg (neg_lits st) then st
      else Lctx (new_args st ++ [arg]) (narg :: neg_lits st) (pos_lits st) (modified st) (simp st)
  | _ =>
      if marked arg (pos_lits st) then st
      else Lctx (new_args st ++ [arg]) (neg_lits st) (arg :: pos_lits st) (modified st) (simp st)
  end.

Definition set_modified (st : lctx) : lctx :=
  Lctx (new_args st) (neg_lits st) (pos_lits st) true true.

(** [PROCESS_ARG]; [None] when the disjunction is [true]. *)
Definition process_arg (arg : expr) (st : lctx) : M (option lctx) :=
  r ← match arg with
      | e_not (e_or l) => simp_nested_not_or l (neg_lits st) (pos_lits st)
      | _ => mret None
      end;
  let '(arg, st) := match r with Some a => (a, set_modified st) | None => (arg, st) end in
  r ← simp_nested_eq_ite arg (neg_lits st) (pos_lits st);
  let '(arg, st) := match r with Some a => (a, set_modified st) | None => (arg, st) end in
  mret (if is_false arg then Some st
        else if is_true arg then None
        else
          match arg with
          | e_or l =>
              if m_flat P then Some (fold_left (fun st x => push_new_arg x st) l st)
              else Some (push_new_arg arg st)
          | _ => Some (push_new_arg arg st)
          end).

Fixpoint process_args (args : list expr) (st : lctx) : M (option lctx) :=
  match args with
  | [] => mret (Some st)
  | arg :: args' =>
      r ← process_arg arg st;
      match r with
      | Some st' => process_args args' st'
      | None => mret None
      end
  end.

(** The rounds, forward then backward.  The inner [option] is the [bool] result. *)
Fixpoint local_ctx_loop (fuel : nat) (args : list expr) (mod_ simp_ forward : bool)
    : M (option expr) :=
  match fuel with
  | O => lift None
  | S fuel' =>
      _ ← add_cost (2 * Z.of_nat (length args));
      r ← process_args (if forward then args else rev args) (Lctx [] [] [] mod_ simp_);
      match r with
      | None => mret (Some e_true)
      | Some st =>
          if forward then local_ctx_loop fuel' (new_args st) (modified st) (simp st) false
          else if modified st then local_ctx_loop fuel' (rev (new_args st)) false (simp st) true
          else if simp st then mret (Some (mk_or_app args))
          else mret None
      end
  end.

(** The fuel of the rounds: a weight each round that modifies something decreases. *)
Fixpoint weight (e : expr) : nat :=
  match e with
  | e_not a => weight a
  | e_eq a b => 1 + weight a + weight b
  | e_ite c t e => 3 + weight c + weight t + weight e
  | e_or l | e_and l => 1 + list_sum (map weight l)
  | _ => 1
  end%nat.

Definition local_ctx_simp (args : list expr) : M (option expr) :=
  local_ctx_loop (2 * list_sum (map weight args) + 2) args false false true.

(** ** Disjunction *)

Fixpoint nflat_or_loop (args neg pos : list expr) (s : bool) (prev : option expr) (buffer : list expr)
    : option (bool * list expr) :=
  match args with
  | [] => Some (s, buffer)
  | arg :: args' =>
      let keep neg pos :=
        nflat_or_loop args' neg pos
          (s || match prev with Some p => ast_lt arg p | None => false end) (Some arg) (buffer ++ [arg]) in
      if is_true arg then None
      else if is_false arg then nflat_or_loop args' neg pos true prev buffer
      else
        match arg with
        | e_not atom =>
            if marked atom neg then nflat_or_loop args' neg pos true prev buffer
            else if marked atom pos then None
            else keep (atom :: neg) pos
        | _ =>
            if marked arg pos then nflat_or_loop args' neg pos true prev buffer
            else if marked arg neg then None
            else keep neg (arg :: pos)
        end
  end.

Definition mk_nflat_or_core (args : list expr) : M br :=
  match nflat_or_loop args [] [] false None [] with
  | None => mret (Res BR_DONE e_true)
  | Some (s, buffer) =>
      match buffer with
      | [] => mret (Res BR_DONE e_false)
      | [x] => mret (Res BR_DONE x)
      | _ =>
          cost ← get_cost;
          r ← (if m_local_ctx P && (cost <=? m_local_ctx_limit P)
               then local_ctx_simp buffer else mret None);
          match r with
          | Some r => mret (Res BR_DONE r)
          | None => if s then mret (Res BR_DONE (e_or (sort_exprs ast_lt buffer))) else mret BR_FAILED
          end
      end
  end.

(** [ordered] after the loop, and the flattened arguments. *)
Fixpoint flat_or_loop (args : list expr) (prev : option expr) (ordered : bool) (flat_args : list expr)
    : bool * list expr :=
  match args with
  | [] => (ordered, flat_args)
  | arg :: args' =>
      match arg with
      | e_or l => flat_or_loop args' prev false (flat_args ++ l)
      | _ =>
          flat_or_loop args' (Some arg)
            (ordered && match prev with Some p => negb (ast_lt arg p) | None => true end)
            (flat_args ++ [arg])
      end
  end.

(** The arguments before the first nested disjunction, and the rest. *)
Fixpoint span_or (args : list expr) : list expr * list expr :=
  match args with
  | [] => ([], [])
  | arg :: args' =>
      if is_or arg then ([], args) else let '(l, r) := span_or args' in (arg :: l, r)
  end.

Definition mk_flat_or_core (args : list expr) : M br :=
  match span_or args with
  | (_, []) => mk_nflat_or_core args
  | (first, rest) =>
      let '(ordered, flat_args) := flat_or_loop rest None true first in
      c ← mk_nflat_or_core flat_args;
      mret (match c with
            | BR_FAILED =>
                Res BR_DONE (e_or (if ordered then flat_args else sort_exprs ast_lt flat_args))
            | Res _ r => Res BR_DONE r
            end)
  end.

Definition mk_or_core (args : list expr) : M br :=
  if m_flat P then mk_flat_or_core args else mk_nflat_or_core args.

Definition mk_or (args : list expr) : M expr :=
  c ← mk_or_core args;
  mret (match c with BR_FAILED => e_or args | Res _ r => r end).

Definition mk_and_as_or (args : list expr) : M expr :=
  new_args ← lift (mapM mk_not args);
  tmp ← mk_or new_args;
  lift (mk_not tmp).

Definition mk_and_core (args : list expr) : M br :=
  if m_elim_and P then r ← mk_and_as_or args; mret (Res BR_DONE r)
  else if m_flat P then mret (mk_flat_and_core args)
  else mret (mk_nflat_and_core args).

Definition mk_and (args : list expr) : M expr :=
  c ← mk_and_core args;
  mret (match c with BR_FAILED => e_and args | Res _ r => r end).

Definition mk_implies (lhs rhs : expr) : M expr := tmp ← lift (mk_not lhs); mk_or [tmp; rhs].
Definition mk_nand (args : list expr) : M expr := tmp ← mk_and args; lift (mk_not tmp).
Definition mk_nor (args : list expr) : M expr := tmp ← mk_or args; lift (mk_not tmp).

(** At least two of three. *)
Definition mk_ge2 (a b c : expr) : M expr :=
  if is_false a then mk_and [b; c]
  else if is_false b then mk_and [a; c]
  else if is_false c then mk_and [a; b]
  else if is_true a then mk_or [b; c]
  else if is_true b then mk_or [a; c]
  else if is_true c then mk_or [a; b]
  else
    i1 ← mk_and [a; b];
    i2 ← mk_and [a; c];
    i3 ← mk_and [b; c];
    mk_or [i1; i2; i3].

(** ** Distinct *)

(** [all_diff] after comparing [arg] with the earlier arguments; [None] when an equal one is found. *)
Fixpoint diff_loop (arg : expr) (earlier : list expr) : option bool :=
  match earlier with
  | [] => Some true
  | y :: ys =>
      if are_distinct arg y then diff_loop arg ys
      else if are_equal arg y then None
      else Some false
  end.

(** The loop over the arguments; [earlier] holds the visited ones in order.  [None] is [false]. *)
Fixpoint distinct_loop (args earlier : list expr) (all_value all_diff : bool) : option bool :=
  match args with
  | [] => Some all_diff
  | arg :: args' =>
      if marked arg earlier then None
      else
        let all_value := all_value && is_unique_value arg in
        if negb all_value && all_diff then
          match diff_loop arg earlier with
          | None => None
          | Some d => distinct_loop args' (earlier ++ [arg]) all_value d
          end
        else distinct_loop args' (earlier ++ [arg]) all_value all_diff
  end.

(** The disequalities of all pairs. *)
Fixpoint diseqs (args : list expr) : list expr :=
  match args with
  | [] => []
  | x :: args' => map (fun y => e_not (e_eq x y)) args' ++ diseqs args'
  end.

Definition mk_distinct_core (args : list expr) : br :=
  match args with
  | [] | [_] => Res BR_DONE e_true
  | [a; b] => Res BR_REWRITE2 (e_not (e_eq a b))
  | a :: _ =>
      match distinct_loop args [] true true with
      | None => Res BR_DONE e_false
      | Some true => Res BR_DONE e_true
      | Some false =>
          if is_bool a then Res BR_DONE e_false
          else if m_blast_distinct P && (Z.of_nat (length args) <? m_blast_distinct_threshold P) then
            Res BR_REWRITE3 (e_and (diseqs args))
          else BR_FAILED
      end
  end.

(** ** If-then-else *)

(** The cases on a boolean ite; [None] when none applies. *)
Definition bool_ite (c t e : expr) : M (option expr) :=
  let done (m : M expr) : M (option expr) := r ← m; mret (Some r) in
  let rest : M (option expr) :=
    if is_true e && m_elim_ite P then tmp ← lift (mk_not c); done (mk_or [tmp; t])
    else if is_false e && m_elim_ite P then done (mk_and [c; t])
    else if bool_decide (c = e) && m_elim_ite P then done (mk_and [c; t])
    else if bool_decide (c = t) && m_elim_ite P then done (mk_or [c; e])
    else if is_complement_core t e && m_elim_ite P then done (lift (mk_eq c t))
    else if is_complement_core e t && m_elim_ite P then done (lift (mk_eq c t))
    else mret None in
  if is_true t && is_false e then mret (Some c)
  else if is_true t && m_elim_ite P then done (mk_or [c; e])
  else if is_false t && is_true e then done (lift (mk_not c))
  else if is_false t && m_elim_ite P then tmp ← lift (mk_not c); done (mk_and [tmp; e])
  else rest.

(** [(ite c (ite c2 ..) ..)] under the extra rules. *)
Definition ite_then_rules (c t e : expr) : M (option expr) :=
  match t with
  | e_ite tc t1 t2 =>
      if bool_decide (e = t1) then
        not_c2 ← lift (mk_not tc);
        new_c ← mk_and [c; not_c2];
        mret (Some (e_ite new_c t2 e))
      else if bool_decide (e = t2) then
        new_c ← mk_and [c; tc];
        mret (Some (e_ite new_c t1 e))
      else
        match e with
        | e_ite ec e1 e2 =>
            if bool_decide (t1 = e1) && bool_decide (t2 = e2) then
              and1 ← mk_and [c; tc];
              notc ← lift (mk_not c);
              and2 ← mk_and [notc; ec];
              new_c ← mk_or [and1; and2];
              mret (Some (e_ite new_c t1 t2))
            else if bool_decide (t1 = e2) && bool_decide (t2 = e1) then
              and1 ← mk_and [c; tc];
              notc ← lift (mk_not c);
              notc3 ← lift (mk_not ec);
              and2 ← mk_and [notc; notc3];
              new_c ← mk_or [and1; and2];
              mret (Some (e_ite new_c t1 t2))
            else mret None
        | _ => mret None
        end
  | _ => mret None
  end.

(** [(ite c t (ite c2 ..))] under the extra rules. *)
Definition ite_else_rules (c t e : expr) : M (option expr) :=
  match e with
  | e_ite ec e1 e2 =>
      if bool_decide (t = e1) then
        new_c ← mk_or [c; ec];
        mret (Some (e_ite new_c t e2))
      else if bool_decide (t = e2) then
        not_c2 ← lift (mk_not ec);
        new_c ← mk_or [c; not_c2];
        mret (Some (e_ite new_c t e1))
      else mret None
  | _ => mret None
  end.

(** The condition's negation removed, and a then branch with the same condition replaced. *)
Definition ite_head (c t e : expr) : expr * expr * expr * bool :=
  let '(c, t, e, s) := match c with e_not a => (a, e, t, true) | _ => (c, t, e, false) end in
  match t with
  | e_ite tc t1 _ => if bool_decide (tc = c) then (c, t1, e, true) else (c, t, e, s)
  | _ => (c, t, e, s)
  end.

(** The rules after the else branch is settled. *)
Definition ite_tail (c t e : expr) (s : bool) : M br :=
  if is_true c then mret (Res BR_DONE t)
  else if is_false c then mret (Res BR_DONE e)
  else if bool_decide (t = e) then mret (Res BR_DONE t)
  else
    r ← (if is_bool t then bool_ite c t e else mret None);
    match r with
    | Some r => mret (Res BR_DONE r)
    | None =>
        r1 ← (if m_ite_extra_rules P && m_elim_ite P then ite_then_rules c t e else mret None);
        match r1 with
        | Some r => mret (Res BR_REWRITE1 r)
        | None =>
            r2 ← (if m_ite_extra_rules P && m_elim_ite P then ite_else_rules c t e else mret None);
            match r2 with
            | Some r => mret (Res BR_REWRITE1 r)
            | None => mret (if s then Res BR_DONE (e_ite c t e) else BR_FAILED)
            end
        end
    end.

Definition mk_ite_core (c t e : expr) : M br :=
  let '(c, t, e, s) := ite_head c t e in
  match e with
  | e_ite ec e1 e2 =>
      if bool_decide (e1 = t) then mret (Res BR_REWRITE3 (e_ite (e_or [c; ec]) t e2))
      else if bool_decide (ec = c) then ite_tail c t e2 true
      else ite_tail c t e s
  | _ => ite_tail c t e s
  end.

Definition mk_ite (c t e : expr) : M expr :=
  r ← mk_ite_core c t e;
  mret (match r with BR_FAILED => e_ite c t e | Res _ r => r end).

(** ** Dispatch; a call with another number of arguments is undefined behaviour. *)

Definition mk_app_core (f : basic_op_kind) (args : list expr) : M br :=
  match f, args with
  | OP_EQ, [a; b] => lift (mk_eq_core a b)
  | OP_DISTINCT, _ => mret (mk_distinct_core args)
  | OP_AND, _ => mk_and_core args
  | OP_OR, _ => mk_or_core args
  | OP_NOT, [a] => lift (mk_not_core a)
  | OP_ITE, [c; t; e] => mk_ite_core c t e
  | OP_IMPLIES, [a; b] => r ← mk_implies a b; mret (Res BR_DONE r)
  | OP_XOR, [] => mret (Res BR_DONE e_false)
  | OP_XOR, [a] => mret (Res BR_DONE a)
  | OP_XOR, [a; b] => r ← lift (mk_xor a b); mret (Res BR_DONE r)
  | OP_XOR, _ | OP_TRUE, _ | OP_FALSE, _ => mret BR_FAILED
  | _, _ => lift None
  end.

(** The application [f] makes of the arguments. *)
Definition mk_term (f : basic_op_kind) (args : list expr) : option expr :=
  match f, args with
  | OP_TRUE, [] => Some e_true
  | OP_FALSE, [] => Some e_false
  | OP_EQ, [a; b] => Some (e_eq a b)
  | OP_DISTINCT, _ => Some (e_distinct args)
  | OP_AND, _ => Some (e_and args)
  | OP_OR, _ => Some (e_or args)
  | OP_NOT, [a] => Some (e_not a)
  | OP_ITE, [c; t; e] => Some (e_ite c t e)
  | OP_IMPLIES, [a; b] => Some (e_implies a b)
  | OP_XOR, _ => Some (e_xor args)
  | _, _ => None
  end.

Definition mk_app (f : basic_op_kind) (args : list expr) : M expr :=
  r ← mk_app_core f args;
  match r with BR_FAILED => lift (mk_term f args) | Res _ r => mret r end.

End Rewriter.
End bool_rewriter.
