(* ===== verification/BoolRewriterProofs.v ===== *)
(** * BoolRewriterProofs: soundness, sort preservation and termination of [bool_rewriter] *)
From S2P Require Import Prelude.
From S2P Require Import Expr.
From S2P Require Import BoolRewriter.
From Stdlib Require Import ZArith Lia.
From stdpp Require Import base tactics option list numbers.
Import expr_facts bool_rewriter.
Open Scope Z_scope.

(** ** Meaning of terms, compositionally *)

Module Import term_meaning.
Section Meaning.
Context `{Interp}.

(** [e] is well sorted of sort [s] and denotes [v]. *)
Definition tsem (e : expr) (s : sort) (v : value) : Prop :=
  well_sorted e = true /\ get_sort e = s /\ eval e = v.
(** [e] is a formula with truth value [b]. *)
Definition bsem (e : expr) (b : bool) : Prop := tsem e Bool (VBool b).
(** [e] is a formula. *)
Definition formula (e : expr) : Prop := well_sorted e = true /\ get_sort e = Bool.

Lemma bsem_formula e b : bsem e b -> formula e.
Proof. intros (? & ? & _). done. Qed.

Lemma bsem_holds e b : bsem e b -> holds e = b.
Proof. intros (_ & _ & E). unfold holds. by rewrite E. Qed.

Lemma formula_bsem e : formula e -> bsem e (holds e).
Proof. intros [Hw Hs]. split; [done|]. split; [done|]. apply eval_bool; [done|]. by apply is_bool_true. Qed.

Lemma tsem_cast e s v v' : tsem e s v -> v = v' -> tsem e s v'.
Proof. by intros ? <-. Qed.

Lemma bsem_cast e b b' : bsem e b -> b = b' -> bsem e b'.
Proof. by intros ? <-. Qed.

Lemma bsem_true : bsem e_true true.
Proof. done. Qed.
Lemma bsem_false : bsem e_false false.
Proof. done. Qed.

Lemma bsem_not a b : bsem a b -> bsem (e_not a) (negb b).
Proof.
  intros (Hw & Hs & He). unfold bsem, tsem. cbn. unfold is_bool. rewrite Hw, Hs, He.
  by rewrite bool_decide_eq_true_2.
Qed.

Lemma bsem_not_inv a b : bsem (e_not a) b -> bsem a (negb b).
Proof.
  intros (Hw & _ & He). cbn in Hw, He. apply andb_true_iff in Hw as [Hw Hb].
  rewrite (eval_bool a Hw Hb) in He. cbn in He. injection He as <-. rewrite negb_involutive.
  split; [done|]. split; [by apply is_bool_true|by apply eval_bool].
Qed.

Lemma tsem_eq a b s x y : tsem a s x -> tsem b s y -> bsem (e_eq a b) (bool_decide (x = y)).
Proof.
  intros (Wa & Sa & Ea) (Wb & Sb & Eb). unfold bsem, tsem. cbn. rewrite Wa, Wb, Sa, Sb, Ea, Eb.
  by rewrite bool_decide_eq_true_2.
Qed.

Lemma bsem_eq a b x y : bsem a x -> bsem b y -> bsem (e_eq a b) (eqb x y).
Proof.
  intros Ha Hb. replace (eqb x y) with (bool_decide (VBool x = VBool y)) by (by destruct x, y).
  by eapply tsem_eq.
Qed.

Lemma tsem_ite c t e b s x y : bsem c b -> tsem t s x -> tsem e s y ->
  tsem (e_ite c t e) s (if b then x else y).
Proof.
  intros (Wc & Sc & Ec) (Wt & St & Et) (We & Se & Ee).
  split; [|split; [done|]].
  - apply well_sorted_ite. rewrite is_bool_true. split_and!; congruence.
  - cbn. rewrite Ec, Et, Ee. by destruct b.
Qed.

Lemma tsem_ite_inv c t e s v : tsem (e_ite c t e) s v ->
  exists b x y, bsem c b /\ tsem t s x /\ tsem e s y /\ v = if b then x else y.
Proof.
  intros (Hw & Hs & He). apply well_sorted_ite in Hw as (Wc & Wt & We & Bc & Es). cbn in Hs, He.
  exists (holds c), (eval t), (eval e). split_and!; [apply formula_bsem; by split; [|apply is_bool_true]|..].
  - done.
  - split; [done|]. by split; [congruence|].
  - unfold holds. by rewrite <- He.
Qed.

Lemma forall_formula l : Forall formula l <-> forallb (fun x => well_sorted x && is_bool x) l = true.
Proof.
  induction l as [|x l IH]; cbn; [by split; [|constructor]|].
  rewrite list.Forall_cons, IH, !andb_true_iff. unfold formula at 1. by rewrite is_bool_true.
Qed.

Lemma bsem_or l : Forall formula l -> bsem (e_or l) (existsb holds l).
Proof. intros Hl. split; [cbn; by apply forall_formula|done]. Qed.

Lemma bsem_and l : Forall formula l -> bsem (e_and l) (forallb holds l).
Proof. intros Hl. split; [cbn; by apply forall_formula|done]. Qed.

Lemma bsem_or_inv l b : bsem (e_or l) b -> Forall formula l /\ b = existsb holds l.
Proof. intros (Hw & _ & He). split; [by apply forall_formula|]. by injection He. Qed.

Lemma bsem_and_inv l b : bsem (e_and l) b -> Forall formula l /\ b = forallb holds l.
Proof. intros (Hw & _ & He). split; [by apply forall_formula|]. by injection He. Qed.

Lemma bsem_or2 a b x y : bsem a x -> bsem b y -> bsem (e_or [a; b]) (x || y).
Proof.
  intros Ha Hb. rewrite <- (bsem_holds a x Ha), <- (bsem_holds b y Hb).
  replace (holds a || holds b) with (existsb holds [a; b]) by (cbn; by rewrite orb_false_r).
  apply bsem_or. repeat constructor; try apply Ha; apply Hb.
Qed.

Lemma bsem_and2 a b x y : bsem a x -> bsem b y -> bsem (e_and [a; b]) (x && y).
Proof.
  intros Ha Hb. rewrite <- (bsem_holds a x Ha), <- (bsem_holds b y Hb).
  replace (holds a && holds b) with (forallb holds [a; b]) by (cbn; by rewrite andb_true_r).
  apply bsem_and. repeat constructor; try apply Ha; apply Hb.
Qed.

Lemma bsem_inj a x y : bsem a x -> bsem a y -> x = y.
Proof. intros Hx Hy. by rewrite <- (bsem_holds _ _ Hx), <- (bsem_holds _ _ Hy). Qed.

Lemma tsem_bool a b v : bsem a b -> tsem a Bool v -> v = VBool b.
Proof. intros (_ & _ & E) (_ & _ & <-). done. Qed.

Lemma tsem_formula a v : tsem a Bool v -> bsem a (holds a).
Proof. intros (Hw & Hs & _). by apply formula_bsem. Qed.

Lemma bsem_const a b : basic_is_value a = true -> bsem a b -> a = if b then e_true else e_false.
Proof. intros Hv (_ & _ & He). destruct a; try done; by injection He as <-. Qed.

End Meaning.
End term_meaning.

Create HintDb bsem.
#[export] Hint Resolve bsem_true bsem_false bsem_not bsem_eq bsem_or2 bsem_and2 tsem_eq tsem_ite : bsem.

(** A formula built from known ones, whose truth value is then compared by cases. *)
Ltac bcast := eapply bsem_cast; [eauto 8 with bsem|].
Ltac bcases :=
  repeat match goal with
  | |- context [bool_decide ?p] => destruct (bool_decide p)
  | b : bool |- _ => destruct b
  end; done.

(** ** Equality and negation *)

Module Import eq_not.
Section EqNot.
Context `{TheoryLaws} (P : params).

(** [e] simplifies to [r]: the same truth value, within the bounds on [eqs] and [weight]. *)
Definition simp_to (b : bool) (n w : nat) (r : expr) : Prop :=
  bsem r b /\ (eqs r <= n)%nat /\ (weight r <= w)%nat.

Lemma weight_pos e : (1 <= weight e)%nat.
Proof. induction e; cbn; lia. Qed.

Lemma is_value_small e : is_value e = true -> eqs e = O /\ weight e = 1%nat.
Proof. destruct e; done. Qed.

Lemma is_value_not_ite c t e : is_value (e_ite c t e) = false.
Proof. done. Qed.

Lemma bool_decide_eval_refl (x : value) : bool_decide (x = x) = true.
Proof. by apply bool_decide_eq_true. Qed.

(** The comparison of a conditional with a value, from those of its branches. *)
Lemma decide_if (b : bool) (x y v : value) :
  bool_decide ((if b then x else y) = v) = if b then bool_decide (x = v) else bool_decide (y = v).
Proof. by destruct b. Qed.

(** One level of [try_ite_value]; [rt] and [re] are the results for nested conditionals. *)
Definition ite_value_base (cond t e val : expr) : br :=
  if are_distinct val e then Res BR_REWRITE2 (e_and [e_eq t val; cond])
  else if are_distinct val t then Res BR_REWRITE2 (e_and [e_eq e val; e_not cond])
  else if are_equal val t then
    if are_equal val e then Res BR_DONE e_true
    else Res BR_REWRITE2 (e_or [e_eq e val; cond])
  else if are_equal val e then Res BR_REWRITE2 (e_or [e_eq t val; e_not cond])
  else BR_FAILED.

Lemma distinct_decide a b x y s : are_distinct a b = true -> tsem a s x -> tsem b s y ->
  bool_decide (y = x) = false.
Proof.
  intros Hd (_ & _ & <-) (_ & _ & <-). apply bool_decide_eq_false. intros E.
  by apply (are_distinct_sound a b Hd).
Qed.

Lemma equal_decide a b x y s : are_equal a b = true -> tsem a s x -> tsem b s y ->
  bool_decide (y = x) = true.
Proof.
  intros Hd (_ & _ & <-) (_ & _ & <-). apply bool_decide_eq_true. by rewrite (are_equal_sound a b Hd).
Qed.

Lemma ite_value_base_ok cond t e val s b x y v st r :
  bsem cond b -> tsem t s x -> tsem e s y -> tsem val s v ->
  ite_value_base cond t e val = Res st r ->
  bsem r (bool_decide ((if b then x else y) = v)) /\ eqs r = O /\
  (weight r <= 2 + Nat.max (weight t) (weight e) + weight val + weight cond)%nat.
Proof.
  intros Hc Ht He Hv. rewrite decide_if. unfold ite_value_base.
  pose proof (tsem_eq t val s x v Ht Hv) as Et. pose proof (tsem_eq e val s y v He Hv) as Ee.
  destruct (are_distinct val e) eqn:D1; [|destruct (are_distinct val t) eqn:D2;
    [|destruct (are_equal val t) eqn:D3; [destruct (are_equal val e) eqn:D4|destruct (are_equal val e) eqn:D4]]];
    intros [= <- <-]; cbn [eqs weight map list_sum]; (split; [|split; [done|]]); cbn; try lia.
  - rewrite (distinct_decide _ _ _ _ _ D1 Hv He). bcast; bcases.
  - rewrite (distinct_decide _ _ _ _ _ D2 Hv Ht). bcast; bcases.
  - rewrite (equal_decide _ _ _ _ _ D3 Hv Ht), (equal_decide _ _ _ _ _ D4 Hv He). by destruct b.
  - rewrite (equal_decide _ _ _ _ _ D3 Hv Ht). bcast; bcases.
  - rewrite (equal_decide _ _ _ _ _ D4 Hv He). bcast; bcases.
Qed.

(** Nested conditionals have values at their leaves, so one level suffices for them. *)
Definition nested_ite_value (t val : expr) : br :=
  match t with
  | e_ite c t2 e2 => if is_value t2 && is_value e2 then ite_value_base c t2 e2 val else BR_FAILED
  | _ => BR_FAILED
  end.

Lemma try_nested (t val : expr) :
  match t with
  | e_ite _ t2 e2 => if is_value t2 && is_value e2 then try_ite_value t val else BR_FAILED
  | _ => BR_FAILED
  end = nested_ite_value t val.
Proof.
  destruct t as [| | | | | |c t2 e2| | | | |]; try done. cbn [nested_ite_value].
  destruct (is_value t2 && is_value e2) eqn:E; [|done].
  apply andb_true_iff in E as [E1 E2]. unfold ite_value_base. cbn [try_ite_value].
  repeat case_match; try done; rewrite is_value_not_ite in *; done.
Qed.

Lemma try_ite_value_eq cond t e val :
  try_ite_value (e_ite cond t e) val =
    match ite_value_base cond t e val with
    | Res s r => Res s r
    | BR_FAILED =>
        match nested_ite_value t val with
        | Res _ r => Res BR_REWRITE2 (e_ite cond r (e_eq e val))
        | BR_FAILED =>
            match nested_ite_value e val with
            | Res _ r => Res BR_REWRITE2 (e_ite cond (e_eq t val) r)
            | BR_FAILED => BR_FAILED
            end
        end
    end.
Proof.
  rewrite <- !try_nested. unfold ite_value_base. cbn [try_ite_value].
  destruct (are_distinct val e), (are_distinct val t), (are_equal val t), (are_equal val e); done.
Qed.

Lemma nested_ite_value_ok t val s x v st r : tsem t s x -> tsem val s v -> is_value val = true ->
  nested_ite_value t val = Res st r ->
  bsem r (bool_decide (x = v)) /\ eqs r = O /\ (S (weight r) <= weight t)%nat.
Proof.
  intros Ht Hv Hval. destruct t as [| | | | | |c t2 e2| | | | |]; try done. cbn [nested_ite_value].
  destruct (is_value t2 && is_value e2) eqn:E; [|done]. apply andb_true_iff in E as [E1 E2].
  apply tsem_ite_inv in Ht as (b & x' & y' & Hc & Ht2 & He2 & ->). intros Hr.
  destruct (ite_value_base_ok c t2 e2 val s b x' y' v st r Hc Ht2 He2 Hv Hr) as (Q1 & Q2 & Q3).
  split; [done|]. split; [done|]. cbn [weight].
  destruct (is_value_small t2 E1) as [_ W1]. destruct (is_value_small e2 E2) as [_ W2].
  destruct (is_value_small val Hval) as [_ W3]. lia.
Qed.

Lemma try_ite_value_ok ite val s x v st r : tsem ite s x -> tsem val s v -> is_value val = true ->
  try_ite_value ite val = Res st r ->
  bsem r (bool_decide (x = v)) /\ eqs r = O /\ (weight r < 1 + weight ite + weight val)%nat.
Proof.
  intros Ht Hv Hval. destruct ite as [| | | | | |c t e| | | | |]; try done.
  rewrite try_ite_value_eq. apply tsem_ite_inv in Ht as (b & x' & y' & Hc & Ht & He & ->).
  pose proof (weight_pos t). pose proof (weight_pos e). pose proof (weight_pos c).
  destruct (ite_value_base c t e val) as [|st' r'] eqn:Eb.
  - destruct (is_value_small val Hval) as [_ W3]. rewrite decide_if.
    destruct (nested_ite_value t val) as [|st1 r1] eqn:E1.
    + destruct (nested_ite_value e val) as [|st2 r2] eqn:E2; [done|]. intros [= <- <-].
      destruct (nested_ite_value_ok e val s y' v st2 r2) as (Q1 & Q2 & Q3); [done..|].
      split; [|split; [done|cbn; lia]]. eapply tsem_cast; [eapply (tsem_ite c _ _ b Bool); [done|eapply tsem_eq; eassumption|apply Q1]|by destruct b].
    + intros [= <- <-].
      destruct (nested_ite_value_ok t val s x' v st1 r1) as (Q1 & Q2 & Q3); [done..|].
      split; [|split; [done|cbn; lia]]. eapply tsem_cast; [eapply (tsem_ite c _ _ b Bool); [done|apply Q1|eapply tsem_eq; eassumption]|by destruct b].
  - intros [= -> ->]. destruct (ite_value_base_ok c t e val s b x' y' v st r) as (Q1 & Q2 & Q3); [done..|].
    split; [done|]. split; [done|]. cbn [weight]. lia.
Qed.
End EqNot.
End eq_not.

Module Import eq_not_sound.
Section EqNot.
Context `{TheoryLaws} (P : params).

(** A negation that is right on the formulas with at most [n] equations. *)
Definition good_not (f : expr -> option expr) (n : nat) : Prop :=
  forall t b, bsem t b -> (eqs t <= n)%nat ->
  exists r, f t = Some r /\ bsem r (negb b) /\ (eqs r <= eqs t)%nat /\ (weight r <= weight t)%nat.

(** The answer of [mk_eq_core] on terms denoting [x] and [y]. *)
Definition eq_answer (lhs rhs : expr) (b : bool) (c : br) : Prop :=
  match c with
  | BR_FAILED => basic_is_value lhs = false /\ basic_is_value rhs = false
  | Res _ r => bsem r b /\ (eqs r <= S (eqs lhs + eqs rhs))%nat /\
               (weight r <= 1 + weight lhs + weight rhs)%nat /\
               (basic_is_value lhs || basic_is_value rhs = true -> (weight r < 1 + weight lhs + weight rhs)%nat)
  end.

Lemma eq_answer_const lhs rhs b c st : bsem c b -> eqs c = O -> weight c = 1%nat ->
  eq_answer lhs rhs b (Res st c).
Proof.
  intros Hc E W. pose proof (weight_pos lhs). pose proof (weight_pos rhs).
  split; [done|]. rewrite E, W. split_and!; lia.
Qed.

(** A result no bigger than one of the sides. *)
Lemma eq_answer_side lhs rhs b r st : bsem r b ->
  (eqs r <= eqs lhs /\ weight r <= weight lhs)%nat \/ (eqs r <= eqs rhs /\ weight r <= weight rhs)%nat ->
  eq_answer lhs rhs b (Res st r).
Proof.
  intros Hr Hb. pose proof (weight_pos lhs). pose proof (weight_pos rhs).
  split; [done|]. split_and!; lia.
Qed.

Lemma complement_decide a b x y : is_complement a b = true -> bsem a x -> bsem b y -> eqb x y = false.
Proof.
  assert (forall a b x y, is_complement_core a b = true -> bsem a x -> bsem b y -> eqb x y = false) as Hc.
  { clear. intros a b x y. unfold is_complement_core. rewrite orb_true_iff, andb_true_iff.
    intros [[Ha Hb]|Hn] Hx Hy.
    - destruct a; try done. destruct b; try done.
      rewrite (bsem_inj _ _ _ Hx bsem_true), (bsem_inj _ _ _ Hy bsem_false). done.
    - destruct a; try done. apply bool_decide_eq_true in Hn as ->.
      apply bsem_not_inv in Hx. rewrite (bsem_inj _ _ _ Hy Hx). by destruct x. }
  unfold is_complement. rewrite orb_true_iff. intros [E|E] Hx Hy; [by eapply Hc|].
  pose proof (Hc _ _ _ _ E Hy Hx). by destruct x, y.
Qed.

Lemma bsem_eq_inv a b z : bsem (e_eq a b) z -> exists s x y,
  tsem a s x /\ tsem b s y /\ z = bool_decide (x = y).
Proof.
  intros (Hw & _ & He). apply well_sorted_eq in Hw as (Wa & Wb & Es).
  exists (get_sort a), (eval a), (eval b). split; [done|]. split; [done|]. by injection He.
Qed.

(** [(a = b)] and [(a = not b)] up to order are complementary. *)
Lemma iff_complement la lb ra rb x y :
  (bool_decide (la = ra) && (is_not_of rb lb || is_not_of lb rb)) ||
  (bool_decide (lb = rb) && (is_not_of ra la || is_not_of la ra)) = true ->
  bsem (e_eq la lb) x -> bsem (e_eq ra rb) y -> eqb x y = false.
Proof.
  assert (forall a b c x y, is_not_of c b = true -> bsem (e_eq a b) x -> bsem (e_eq a c) y -> eqb x y = false) as Hr.
  { clear. intros a b c x y Hn Hx Hy. apply bool_decide_eq_true in Hn as ->.
    apply bsem_eq_inv in Hx as (s & u & v & Ha & Hb & ->). apply bsem_eq_inv in Hy as (s' & u' & v' & Ha' & Hb' & ->).
    assert (s' = Bool) as -> by (destruct Hb' as (_ & <- & _); done).
    destruct Ha as (Wa & Sa & Ea), Ha' as (_ & Sa' & Ea'). assert (s = Bool) as -> by congruence.
    pose proof (tsem_formula _ _ Hb) as Fb. pose proof (bsem_not _ _ Fb) as Fn.
    rewrite (tsem_bool _ _ _ Fb Hb), (tsem_bool _ _ _ Fn Hb'). rewrite Ea in Ea'. subst u'.
    destruct u as [u|]; [by destruct u, (holds b)|].
    pose proof (eval_sort a Wa) as Hs. by rewrite Ea, Sa in Hs. }
  assert (forall a b x, bsem (e_eq a b) x -> bsem (e_eq b a) x) as Hsym.
  { clear. intros a b x Hx. apply bsem_eq_inv in Hx as (s & u & v & Ha & Hb & ->).
    bcast. apply bool_decide_ext. by split. }
  assert (forall x y, eqb x y = eqb y x) as Heq by (by intros [] []).
  rewrite orb_true_iff, !andb_true_iff, !orb_true_iff, !bool_decide_eq_true.
  intros [[-> [E|E]]|[-> [E|E]]] Hx Hy.
  - by eapply Hr.
  - rewrite Heq. by eapply Hr.
  - eapply Hr; [done|by apply Hsym|by apply Hsym].
  - rewrite Heq. eapply Hr; [done|by apply Hsym|by apply Hsym].
Qed.

(** The cases of [mk_eq_core] on formulas, after the [not]s of both sides are stripped. *)
Definition eq_formulas (f : expr -> option expr) (lhs rhs : expr) (unfolded : bool) : option br :=
  if is_true lhs then Some (Res BR_DONE rhs)
  else if is_false lhs then r ← f rhs; Some (Res BR_DONE r)
  else if is_true rhs then Some (Res BR_DONE lhs)
  else if is_false rhs then r ← f lhs; Some (Res BR_DONE r)
  else if is_complement lhs rhs then Some (Res BR_DONE e_false)
  else
    let '(lhs, rhs) := if is_not rhs then (rhs, lhs) else (lhs, rhs) in
    match lhs with
    | e_not a => Some (Res BR_REWRITE2 (e_not (e_eq a rhs)))
    | _ =>
        if unfolded then Some (Res BR_REWRITE1 (e_eq lhs rhs))
        else
          match lhs, rhs with
          | e_eq la lb, e_eq ra rb =>
              if (bool_decide (la = ra) && (is_not_of rb lb || is_not_of lb rb)) ||
                 (bool_decide (lb = rb) && (is_not_of ra la || is_not_of la ra))
              then Some (Res BR_DONE e_false)
              else Some BR_FAILED
          | _, _ => Some BR_FAILED
          end
    end.

Lemma eq_formulas_ok f n lhs rhs unfolded x y : good_not f n ->
  bsem lhs x -> bsem rhs y -> (eqs lhs <= n)%nat -> (eqs rhs <= n)%nat ->
  exists c, eq_formulas f lhs rhs unfolded = Some c /\ eq_answer lhs rhs (eqb x y) c.
Proof.
  intros Hf Hl Hr Nl Nr. unfold eq_formulas.
  destruct (is_true lhs) eqn:T1.
  { eexists; split; [done|]. destruct lhs; try done. rewrite (bsem_inj _ _ _ Hl bsem_true).
    apply eq_answer_side; [by destruct y|lia]. }
  destruct (is_false lhs) eqn:T2.
  { destruct (Hf rhs y Hr Nr) as (r & -> & B & E & W). eexists; split; [done|]. destruct lhs; try done.
    rewrite (bsem_inj _ _ _ Hl bsem_false). apply eq_answer_side; [by destruct y|lia]. }
  destruct (is_true rhs) eqn:T3.
  { eexists; split; [done|]. destruct rhs; try done. rewrite (bsem_inj _ _ _ Hr bsem_true).
    apply eq_answer_side; [by destruct x|lia]. }
  destruct (is_false rhs) eqn:T4.
  { destruct (Hf lhs x Hl Nl) as (r & -> & B & E & W). eexists; split; [done|]. destruct rhs; try done.
    rewrite (bsem_inj _ _ _ Hr bsem_false). apply eq_answer_side; [by destruct x|lia]. }
  destruct (is_complement lhs rhs) eqn:T5.
  { eexists; split; [done|]. rewrite (complement_decide _ _ _ _ T5 Hl Hr). by apply eq_answer_const. }
  assert (basic_is_value lhs = false /\ basic_is_value rhs = false) as Hnc.
  { unfold basic_is_value. by rewrite T1, T2, T3, T4. }
  assert (forall a b z st, bsem (e_not a) z -> (eqs a + eqs b <= eqs lhs + eqs rhs)%nat ->
    (weight a + weight b <= weight lhs + weight rhs)%nat -> forall z', bsem b z' -> eqb z z' = eqb x y ->
    eq_answer lhs rhs (eqb x y) (Res st (e_not (e_eq a b)))) as Hnot.
  { intros a b z st Hz E W z' Hb <-. apply bsem_not_inv in Hz. split; [|cbn; split_and!; try lia].
    - bcast. bcases.
    - destruct Hnc as [-> ->]. done. }
  destruct (is_not rhs) eqn:T6.
  { destruct rhs; try done. eexists; split; [done|].
    eapply (Hnot _ _ y); [done|cbn; lia|cbn; lia|exact Hl|by destruct x, y]. }
  destruct (is_not lhs) eqn:T7.
  { destruct lhs; try done. eexists; split; [done|]. by eapply Hnot. }
  assert (eq_answer lhs rhs (eqb x y) (Res BR_REWRITE1 (e_eq lhs rhs))) as Hplain.
  { split; [by apply bsem_eq|]. cbn. destruct Hnc as [-> ->]. split_and!; [lia|lia|done]. }
  assert (exists c, (if unfolded then Some (Res BR_REWRITE1 (e_eq lhs rhs)) else
      match lhs, rhs with
      | e_eq la lb, e_eq ra rb =>
          if (bool_decide (la = ra) && (is_not_of rb lb || is_not_of lb rb)) ||
             (bool_decide (lb = rb) && (is_not_of ra la || is_not_of la ra))
          then Some (Res BR_DONE e_false) else Some BR_FAILED
      | _, _ => Some BR_FAILED
      end) = Some c /\ eq_answer lhs rhs (eqb x y) c) as (c & Ec & Hc); [|exists c; split; [|done]; by destruct lhs].
  destruct unfolded; [by eexists|].
  destruct lhs; try (by exists BR_FAILED). destruct rhs; try (by exists BR_FAILED).
  destruct (_ || _) eqn:Ei; [|by exists BR_FAILED].
  eexists; split; [done|]. rewrite (iff_complement _ _ _ _ _ _ Ei Hl Hr). by apply eq_answer_const.
Qed.

Lemma eq_formulas_not f a b x y n : good_not f n -> bsem (e_not a) x -> bsem (e_not b) y ->
  (eqs a <= n)%nat -> (eqs b <= n)%nat ->
  exists c, eq_formulas f a b true = Some c /\ eq_answer (e_not a) (e_not b) (eqb x y) c.
Proof.
  intros Hf Ha Hb Na Nb. apply bsem_not_inv in Ha, Hb.
  destruct (eq_formulas_ok f n a b true (negb x) (negb y) Hf Ha Hb Na Nb) as (c & E & Hc).
  exists c. split; [done|]. replace (eqb x y) with (eqb (negb x) (negb y)) by (by destruct x, y).
  destruct c as [|st r]; [done|]. destruct Hc as (H1' & H2' & H3' & H4'). by split_and!.
Qed.

Lemma mk_eq_core_ok f n lhs rhs s x y : good_not f n ->
  tsem lhs s x -> tsem rhs s y -> (eqs lhs <= n)%nat -> (eqs rhs <= n)%nat ->
  exists c, mk_eq_core_with P f lhs rhs = Some c /\ eq_answer lhs rhs (bool_decide (x = y)) c.
Proof.
  intros Hf Hl Hr Nl Nr. unfold mk_eq_core_with.
  destruct (are_equal lhs rhs) eqn:E1.
  { eexists; split; [done|]. rewrite (bool_decide_ext _ (y = x)) by (by split).
    rewrite (equal_decide _ _ _ _ _ E1 Hl Hr). by apply eq_answer_const. }
  destruct (are_distinct lhs rhs) eqn:E2.
  { eexists; split; [done|]. rewrite (bool_decide_ext _ (y = x)) by (by split).
    rewrite (distinct_decide _ _ _ _ _ E2 Hl Hr). by apply eq_answer_const. }
  assert (forall a b u v st r, tsem a s u -> tsem b s v -> is_value b = true -> try_ite_value a b = Res st r ->
    (eqs a + eqs b <= eqs lhs + eqs rhs)%nat -> (weight a + weight b <= weight lhs + weight rhs)%nat ->
    bool_decide (u = v) = bool_decide (x = y) -> eq_answer lhs rhs (bool_decide (x = y)) (Res st r)) as Hite.
  { intros a b u v st r Ha Hb Hv Er _ W <-.
    destruct (try_ite_value_ok a b s u v st r Ha Hb Hv Er) as (B & E & W').
    split; [done|]. rewrite E. split_and!; lia. }
  destruct (if m_ite_extra_rules P then _ else BR_FAILED) as [|st r] eqn:Er.
  2: { eexists; split; [done|]. destruct (m_ite_extra_rules P); [|done].
    destruct (is_ite lhs && is_value rhs) eqn:V1.
    - apply andb_true_iff in V1 as [_ V1]. by eapply (Hite lhs rhs).
    - destruct (is_ite rhs && is_value lhs) eqn:V2; [|done]. apply andb_true_iff in V2 as [_ V2].
      eapply (Hite rhs lhs); try done; [lia|lia|]. apply bool_decide_ext. by split. }
  clear Er Hite. destruct (is_bool lhs) eqn:Eb.
  - assert (s = Bool) as -> by (destruct Hl as (_ & <- & _); by apply is_bool_true).
    pose proof (tsem_formula _ _ Hl) as Bl. pose proof (tsem_formula _ _ Hr) as Br.
    rewrite (tsem_bool _ _ _ Bl Hl), (tsem_bool _ _ _ Br Hr).
    replace (bool_decide _) with (eqb (holds lhs) (holds rhs)) by (by destruct (holds lhs), (holds rhs)).
    destruct (is_not lhs && is_not rhs) eqn:En.
    + destruct lhs; try done. destruct rhs; try done. by eapply eq_formulas_not.
    + destruct (eq_formulas_ok f n lhs rhs false (holds lhs) (holds rhs)) as (c & Ec & Hc); [done..|].
      exists c. split; [|done]. rewrite <- Ec. by destruct lhs, rhs.
  - eexists; split; [done|]. split.
    + destruct lhs; done.
    + destruct Hl as (_ & Sl & _), Hr as (_ & Sr & _). apply bool_decide_eq_false in Eb.
      destruct rhs; try done; cbn in Sr; congruence.
Qed.

Lemma mk_eq_with_ok f n lhs rhs s x y : good_not f n ->
  tsem lhs s x -> tsem rhs s y -> (eqs lhs <= n)%nat -> (eqs rhs <= n)%nat ->
  exists r, mk_eq_with P f lhs rhs = Some r /\ bsem r (bool_decide (x = y)) /\
    (eqs r <= S (eqs lhs + eqs rhs))%nat /\ (weight r <= 1 + weight lhs + weight rhs)%nat /\
    (basic_is_value lhs || basic_is_value rhs = true -> (weight r < 1 + weight lhs + weight rhs)%nat).
Proof.
  intros Hf Hl Hr Nl Nr. destruct (mk_eq_core_ok f n lhs rhs s x y Hf Hl Hr Nl Nr) as (c & E & Hc).
  unfold mk_eq_with. rewrite E. cbn. eexists; split; [done|]. destruct c as [|st r]; [|done].
  destruct Hc as [-> ->]. split; [by eapply tsem_eq|]. by cbn.
Qed.

Lemma mk_not_core_ok f n t b : good_not f n -> bsem t b -> (eqs t <= S n)%nat ->
  exists c, mk_not_core_with P f t = Some c /\
    match c with
    | BR_FAILED => True
    | Res _ r => bsem r (negb b) /\ (eqs r <= eqs t)%nat /\ (weight r <= weight t)%nat
    end.
Proof.
  intros Hf Ht Hn. destruct t as [| | | |a1 a2| | | | | |a|]; try (eexists; split; [done|done]).
  - eexists; split; [done|]. by rewrite (bsem_inj _ _ _ Ht bsem_true).
  - eexists; split; [done|]. by rewrite (bsem_inj _ _ _ Ht bsem_false).
  - cbn [mk_not_core_with]. destruct (is_bool a1) eqn:Eb; [|by eexists]. cbn in Hn.
    apply bsem_eq_inv in Ht as (s & x & y & Ha & Hb & ->).
    assert (s = Bool) as -> by (destruct Ha as (_ & <- & _); by apply is_bool_true).
    pose proof (tsem_formula _ _ Ha) as Fa. pose proof (tsem_formula _ _ Hb) as Fb.
    destruct (Hf a1 _ Fa ltac:(lia)) as (tmp & -> & Bt & Et & Wt). cbn [mbind option_bind].
    destruct (mk_eq_with_ok f n tmp a2 Bool (VBool (negb (holds a1))) y) as (r & -> & Br & Er & Wr & _);
      [done|done|done|lia|lia|]. cbn.
    eexists; split; [done|]. split; [|cbn; lia]. eapply bsem_cast; [done|].
    rewrite (tsem_bool _ _ _ Fa Ha), (tsem_bool _ _ _ Fb Hb). by destruct (holds a1), (holds a2).
  - eexists; split; [done|]. split; [by apply bsem_not_inv|]. by cbn.
Qed.

Lemma mk_not_fuel_ok n : good_not (mk_not_fuel P (S n)) n.
Proof.
  induction n as [|n IH]; intros t b Ht Hn.
  - destruct t; try (eexists; split; [done|]; split; [by apply bsem_not|by cbn]).
    + eexists; split; [done|]. by rewrite (bsem_inj _ _ _ Ht bsem_true).
    + eexists; split; [done|]. by rewrite (bsem_inj _ _ _ Ht bsem_false).
    + cbn in Hn. lia.
    + eexists; split; [done|]. split; [by apply bsem_not_inv|]. by cbn.
  - destruct (mk_not_core_ok _ n t b IH Ht Hn) as (c & E & Hc).
    change (mk_not_fuel P (S (S n)) t) with (c ← mk_not_core_with P (mk_not_fuel P (S n)) t;
      Some (match c with BR_FAILED => e_not t | Res _ r => r end)).
    rewrite E. cbn. eexists; split; [done|]. destruct c as [|st r]; [|done].
    split; [by apply bsem_not|]. by cbn.
Qed.

Lemma mk_not_good n : good_not (mk_not P) n.
Proof. intros t b Ht _. by apply (mk_not_fuel_ok (eqs t)). Qed.

Lemma mk_not_ok t b : bsem t b ->
  exists r, mk_not P t = Some r /\ bsem r (negb b) /\ (weight r <= weight t)%nat.
Proof. intros Ht. destruct (mk_not_good (eqs t) t b Ht) as (r & ? & ? & ? & ?); [done|]. by exists r. Qed.

Lemma mk_eq_ok lhs rhs s x y : tsem lhs s x -> tsem rhs s y ->
  exists r, mk_eq P lhs rhs = Some r /\ bsem r (bool_decide (x = y)) /\
    (weight r <= 1 + weight lhs + weight rhs)%nat /\
    (basic_is_value lhs || basic_is_value rhs = true -> (weight r < 1 + weight lhs + weight rhs)%nat).
Proof.
  intros Hl Hr. destruct (mk_eq_with_ok (mk_not P) (eqs lhs + eqs rhs) lhs rhs s x y) as (r & ? & ? & ? & ? & ?);
    [apply mk_not_good|done|done|lia|lia|]. by exists r.
Qed.

End EqNot.
End eq_not_sound.

(** ** The context of a clause *)

Module Import contexts.
Section Contexts.
Context `{Interp}.

(** The marks of literals assumed false: [pos] holds false atoms, [neg] true ones. *)
Definition marks_ok (neg pos : list expr) : Prop := Forall formula neg /\ Forall formula pos.
Definition ctx (neg pos : list expr) : Prop :=
  Forall (fun x => holds x = true) neg /\ Forall (fun x => holds x = false) pos.

Lemma marked_true x l : marked x l = true -> x ∈ l.
Proof. unfold marked. by rewrite bool_decide_eq_true. Qed.

Lemma marked_false x l : marked x l = false -> x ∉ l.
Proof. unfold marked. by rewrite bool_decide_eq_false. Qed.

Lemma marked_formula x l : marked x l = true -> Forall formula l -> formula x.
Proof. intros Hm%marked_true Hl. rewrite list.Forall_forall in Hl. by apply Hl. Qed.

Lemma ctx_neg neg pos x : ctx neg pos -> marked x neg = true -> holds x = true.
Proof. intros [Hn _] Hm%marked_true. rewrite list.Forall_forall in Hn. by apply Hn. Qed.

Lemma ctx_pos neg pos x : ctx neg pos -> marked x pos = true -> holds x = false.
Proof. intros [_ Hp] Hm%marked_true. rewrite list.Forall_forall in Hp. by apply Hp. Qed.

Lemma formula_not a : formula (e_not a) <-> formula a.
Proof.
  split; intros Hf; apply formula_bsem in Hf.
  - eapply bsem_formula, bsem_not_inv, Hf.
  - eapply bsem_formula, bsem_not, Hf.
Qed.

Lemma holds_not a : holds (e_not a) = negb (holds a).
Proof. done. Qed.

Lemma formula_or l : formula (e_or l) <-> Forall formula l.
Proof. unfold formula at 1. cbn. rewrite <- forall_formula. tauto. Qed.

Lemma formula_and l : formula (e_and l) <-> Forall formula l.
Proof. unfold formula at 1. cbn. rewrite <- forall_formula. tauto. Qed.

Lemma existsb_app_holds l1 l2 : existsb holds (l1 ++ l2) = existsb holds l1 || existsb holds l2.
Proof. apply existsb_app. Qed.

Lemma existsb_false l : existsb holds l = false <-> Forall (fun x => holds x = false) l.
Proof.
  induction l as [|x l IH]; cbn; [by split; [constructor|]|].
  rewrite orb_false_iff, IH, list.Forall_cons. done.
Qed.

Lemma existsb_in x l : x ∈ l -> holds x = true -> existsb holds l = true.
Proof. intros Hx Hh. apply existsb_exists. exists x. split; [by apply list_elem_of_In|done]. Qed.

Lemma forallb_in x l : x ∈ l -> holds x = false -> forallb holds l = false.
Proof.
  intros Hx Hh. apply not_true_iff_false. rewrite forallb_forall. intros Ha.
  specialize (Ha x). rewrite Ha in Hh; [done|by apply list_elem_of_In].
Qed.
End Contexts.
End contexts.

(** ** Conjunctions and disjunctions without context *)

Module Import flat_cores.
Section Flat.
Context `{Interp} (ast_lt : expr -> expr -> bool) (P : params).

(** The marks of the loops: the literals of the buffer. *)
Definition lits_of (neg pos buffer : list expr) : Prop :=
  (forall x, x ∈ pos -> x ∈ buffer) /\ (forall x, x ∈ neg -> e_not x ∈ buffer) /\
  (forall x, x ∈ buffer -> match x with e_not a => a ∈ neg | _ => x ∈ pos end).

Lemma lits_nil : lits_of [] [] [].
Proof. split_and!; intros x Hx; by apply elem_of_nil in Hx. Qed.

Lemma lits_not neg pos buffer a : lits_of neg pos buffer -> lits_of (a :: neg) pos (buffer ++ [e_not a]).
Proof.
  intros (H1 & H2 & H3). split_and!; intros x Hx; rewrite ?elem_of_app, ?elem_of_cons in *.
  - left. by apply H1.
  - destruct Hx as [->|Hx]; [right; by left|left; by apply H2].
  - destruct Hx as [Hx| [->|Hx] ]; [apply H3 in Hx; destruct x; auto; by apply elem_of_cons; right| |by apply elem_of_nil in Hx].
    by apply elem_of_cons; left.
Qed.

Lemma lits_pos neg pos buffer x : lits_of neg pos buffer -> is_not x = false ->
  lits_of neg (x :: pos) (buffer ++ [x]).
Proof.
  intros (H1 & H2 & H3) Hn. split_and!; intros y Hy; rewrite ?elem_of_app, ?elem_of_cons in *.
  - destruct Hy as [->|Hy]; [right; by left|left; by apply H1].
  - left. by apply H2.
  - destruct Hy as [Hy| [->|Hy] ]; [apply H3 in Hy; destruct y; auto; by apply elem_of_cons; right| |by apply elem_of_nil in Hy].
    destruct x; try done; by apply elem_of_cons; left.
Qed.

(** No constants, no repetition, no literal with its complement. *)
Definition clean (l : list expr) : Prop :=
  NoDup l /\ Forall (fun x => basic_is_value x = false) l /\
  forall x, is_not x = false -> x ∈ l -> e_not x ∉ l.

Lemma clean_snoc_not neg pos buffer a : lits_of neg pos buffer -> clean buffer ->
  a ∉ neg -> a ∉ pos -> clean (buffer ++ [e_not a]).
Proof.
  intros (_ & _ & L) (C1 & C2 & C3) Hn Hp. split_and!.
  - apply list.NoDup_app. split_and!; [done| |apply NoDup_singleton].
    intros x Hx ->%list_elem_of_singleton. by apply L in Hx.
  - apply Forall_app. split; [done|by constructor].
  - intros x Hx. rewrite !elem_of_app, !list_elem_of_singleton.
    intros [Hi| ->]; [|done]. intros [Hi'| [= ->] ]; [by apply (C3 x)|].
    apply L in Hi. destruct a; done.
Qed.

Lemma clean_snoc neg pos buffer x : lits_of neg pos buffer -> clean buffer ->
  is_not x = false -> basic_is_value x = false -> x ∉ pos -> x ∉ neg -> clean (buffer ++ [x]).
Proof.
  intros (_ & _ & L) (C1 & C2 & C3) Hx Hv Hp Hn. split_and!.
  - apply list.NoDup_app. split_and!; [done| |apply NoDup_singleton].
    intros y Hy ->%list_elem_of_singleton. apply L in Hy. destruct x; done.
  - apply Forall_app. split; [done|by constructor].
  - intros y Hy. rewrite !elem_of_app, !list_elem_of_singleton.
    intros [Hi| ->] [Hi'|E].
    + by apply (C3 y).
    + by rewrite <- E in Hx.
    + by apply L in Hi'.
    + by rewrite <- E in Hx.
Qed.

Lemma clean_nil : clean [].
Proof. split_and!; [constructor|constructor|]. intros x _ Hx. by apply elem_of_nil in Hx. Qed.

(** *** Disjunction *)

Definition or_result (args : list expr) (r : option (bool * list expr)) (buffer : list expr) (s : bool) : Prop :=
  match r with
  | None => existsb holds (buffer ++ args) = true
  | Some (s', out) =>
      Forall formula out /\ clean out /\ existsb holds out = existsb holds (buffer ++ args) /\
      (forall x, x ∈ out -> x ∈ buffer ++ args) /\ (s' = false -> s = false /\ out = buffer ++ args)
  end.

Lemma holds_true x : is_true x = true -> holds x = true.
Proof. by destruct x. Qed.
Lemma holds_false x : is_false x = true -> holds x = false.
Proof. by destruct x. Qed.

Lemma or_skip args arg r buffer s s' : or_result args r buffer s' -> (s' = true \/ s' = s) -> s' = true ->
  existsb holds (buffer ++ args) = existsb holds (buffer ++ arg :: args) ->
  or_result (arg :: args) r buffer s.
Proof.
  intros Hr _ -> E. destruct r as [[s1 out]|]; cbn in *; [|by rewrite <- E].
  destruct Hr as (H1 & H2 & H3 & H4 & H5). split_and!; [done|done|by rewrite <- E| |].
  - intros x Hx. specialize (H4 x Hx). rewrite elem_of_app in *. rewrite elem_of_cons. tauto.
  - intros ->. by destruct H5.
Qed.

Lemma or_keep args arg r buffer s s' : or_result args r (buffer ++ [arg]) s' -> (s' = false -> s = false) ->
  or_result (arg :: args) r buffer s.
Proof.
  intros Hr Hs. unfold or_result in *. rewrite <- app_assoc in Hr. cbn [app] in Hr.
  destruct r as [[s1 out]|]; [|done]. destruct Hr as (H1 & H2 & H3 & H4 & H5).
  split_and!; try done. intros E. destruct (H5 E) as [E1 E2]. auto.
Qed.

Lemma existsb_drop buffer arg args : (holds arg = true -> existsb holds buffer = true) ->
  existsb holds (buffer ++ args) = existsb holds (buffer ++ arg :: args).
Proof.
  intros Hi. rewrite !existsb_app. cbn. destruct (holds arg) eqn:E; [|done]. rewrite Hi by done. done.
Qed.

Lemma nflat_or_loop_ok args : forall neg pos s prev buffer,
  Forall formula (buffer ++ args) -> lits_of neg pos buffer -> clean buffer ->
  or_result args (nflat_or_loop ast_lt args neg pos s prev buffer) buffer s.
Proof.
  induction args as [|arg args IH]; intros neg pos s prev buffer Hf L C.
  { cbn. rewrite app_nil_r in *. by split_and!. }
  assert (Forall formula (buffer ++ args)) as Hf'.
  { apply Forall_app in Hf as [Hb Ha]. apply Forall_app. split; [done|by inversion Ha]. }
  assert (Forall formula ((buffer ++ [arg]) ++ args)) as Hf'' by (by rewrite <- app_assoc).
  cbn [nflat_or_loop]. destruct (is_true arg) eqn:T.
  { cbn [or_result]. rewrite existsb_app. cbn [existsb]. rewrite (holds_true arg T). by rewrite orb_true_r. }
  destruct (is_false arg) eqn:F.
  { eapply or_skip; [by apply IH|by left|done|]. apply existsb_drop. by rewrite (holds_false arg F). }
  assert (basic_is_value arg = false) as V by (unfold basic_is_value; by rewrite T, F).
  set (s1 := s || _). assert (s1 = false -> s = false) as Hs1 by (unfold s1; by destruct s).
  destruct (is_not arg) eqn:N.
  - destruct arg as [| | | | | | | | | |a|]; try done.
    destruct (marked a neg) eqn:M1.
    { eapply or_skip; [by apply IH|by left|done|]. apply existsb_drop. intros Hh.
      apply existsb_in with (e_not a); [|done]. by apply L, marked_true. }
    destruct (marked a pos) eqn:M2.
    { cbn [or_result]. rewrite existsb_app. cbn [existsb]. destruct (holds a) eqn:Ha.
      - rewrite (existsb_in a buffer); [done|by apply L, marked_true|done].
      - rewrite holds_not, Ha. by rewrite orb_true_r. }
    eapply or_keep; [|exact Hs1]. apply IH; [done|by apply lits_not|].
    eapply clean_snoc_not; [exact L|done|by apply marked_false..].
  - assert (forall (A : Type) (x : expr -> A) y, match arg with e_not a => x a | _ => y end = y) as Hm by (by destruct arg).
    rewrite Hm. destruct (marked arg pos) eqn:M1.
    { eapply or_skip; [by apply IH|by left|done|]. apply existsb_drop. intros Hh.
      apply existsb_in with arg; [|done]. by apply L, marked_true. }
    destruct (marked arg neg) eqn:M2.
    { cbn [or_result]. rewrite existsb_app. cbn [existsb]. destruct (holds arg) eqn:Ha; [by rewrite orb_true_r|].
      rewrite (existsb_in (e_not arg) buffer); [done|by apply L, marked_true|by rewrite holds_not, Ha]. }
    eapply or_keep; [|exact Hs1]. apply IH; [done|by apply lits_pos|].
    eapply clean_snoc; [exact L|done|done|done|by apply marked_false..].
Qed.

End Flat.
End flat_cores.

Module Import and_core.
Section And.
Context `{Interp}.

Definition and_result (args : list expr) (r : option (bool * list expr)) (buffer : list expr) (s : bool) : Prop :=
  match r with
  | None => forallb holds (buffer ++ args) = false
  | Some (s', out) =>
      Forall formula out /\ clean out /\ forallb holds out = forallb holds (buffer ++ args) /\
      (s' = false -> s = false /\ out = buffer ++ args)
  end.

Lemma and_skip args arg r buffer s : and_result args r buffer true ->
  forallb holds (buffer ++ args) = forallb holds (buffer ++ arg :: args) ->
  and_result (arg :: args) r buffer s.
Proof.
  intros Hr E. destruct r as [[s1 out]|]; cbn in *; [|by rewrite <- E].
  destruct Hr as (Q1 & Q2 & Q3 & Q4). split_and!; [done|done|by rewrite <- E|].
  intros ->. by destruct Q4.
Qed.

Lemma and_keep args arg r buffer s : and_result args r (buffer ++ [arg]) s ->
  and_result (arg :: args) r buffer s.
Proof. intros Hr. unfold and_result in *. by rewrite <- app_assoc in Hr. Qed.

Lemma forallb_drop buffer arg args : (holds arg = false -> forallb holds buffer = false) ->
  forallb holds (buffer ++ args) = forallb holds (buffer ++ arg :: args).
Proof.
  intros Hi. rewrite !forallb_app. cbn [forallb]. destruct (holds arg) eqn:E; [done|]. by rewrite Hi.
Qed.

Lemma nflat_and_loop_ok args : forall neg pos s buffer,
  Forall formula (buffer ++ args) -> lits_of neg pos buffer -> clean buffer ->
  and_result args (nflat_and_loop args neg pos s buffer) buffer s.
Proof.
  induction args as [|arg args IH]; intros neg pos s buffer Hf L C.
  { cbn. rewrite app_nil_r in *. by split_and!. }
  assert (Forall formula (buffer ++ args)) as Hf'.
  { apply Forall_app in Hf as [Hb Ha]. apply Forall_app. split; [done|by inversion Ha]. }
  assert (Forall formula ((buffer ++ [arg]) ++ args)) as Hf'' by (by rewrite <- app_assoc).
  cbn [nflat_and_loop]. destruct (is_true arg) eqn:T.
  { apply and_skip; [by apply IH|]. apply forallb_drop. by rewrite (holds_true arg T). }
  destruct (is_false arg) eqn:F.
  { cbn [and_result]. rewrite forallb_app. cbn [forallb]. rewrite (holds_false arg F). by rewrite andb_false_r. }
  assert (basic_is_value arg = false) as V by (unfold basic_is_value; by rewrite T, F).
  destruct (is_not arg) eqn:N.
  - destruct arg as [| | | | | | | | | |a|]; try done.
    destruct (marked a neg) eqn:M1.
    { apply and_skip; [by apply IH|]. apply forallb_drop. intros Hh.
      apply forallb_in with (e_not a); [|done]. by apply L, marked_true. }
    destruct (marked a pos) eqn:M2.
    { cbn [and_result]. rewrite forallb_app. cbn [forallb]. destruct (holds a) eqn:Ha.
      - rewrite holds_not, Ha. by rewrite andb_false_r.
      - by rewrite (forallb_in a buffer); [|apply L, marked_true|]. }
    apply and_keep. apply IH; [done|by apply lits_not|].
    eapply clean_snoc_not; [exact L|done|by apply marked_false..].
  - assert (forall (A : Type) (x : expr -> A) y, match arg with e_not a => x a | _ => y end = y) as Hm by (by destruct arg).
    rewrite Hm. destruct (marked arg pos) eqn:M1.
    { apply and_skip; [by apply IH|]. apply forallb_drop. intros Hh.
      apply forallb_in with arg; [|done]. by apply L, marked_true. }
    destruct (marked arg neg) eqn:M2.
    { cbn [and_result]. rewrite forallb_app. cbn [forallb]. destruct (holds arg) eqn:Ha; [|by rewrite andb_false_r].
      by rewrite (forallb_in (e_not arg) buffer); [|apply L, marked_true|rewrite holds_not, Ha]. }
    apply and_keep. apply IH; [done|by apply lits_pos|].
    eapply clean_snoc; [exact L|done|done|done|by apply marked_false..].
Qed.

(** The answer of a core on arguments denoting the operation's value [b]. *)
Definition core_ok (b : bool) (c : br) : Prop :=
  match c with BR_FAILED => True | Res _ r => bsem r b end.

Lemma mk_nflat_and_core_ok args : Forall formula args -> core_ok (forallb holds args) (mk_nflat_and_core args).
Proof.
  intros Hf. pose proof (nflat_and_loop_ok args [] [] false [] Hf lits_nil clean_nil) as Hr.
  unfold mk_nflat_and_core. destruct (nflat_and_loop _ _ _ _ _) as [[s out]|]; cbn in Hr; [|by rewrite Hr].
  destruct Hr as (Q1 & _ & Q3 & _). rewrite <- Q3. destruct out as [|x [|y out]]; [done| |].
  - cbn. rewrite andb_true_r. apply formula_bsem. by inversion Q1.
  - destruct s; [|done]. by apply bsem_and.
Qed.

Lemma flatten_and_cons x l :
  flatten_and (x :: l) = match x with e_and l' => l' | _ => [x] end ++ flatten_and l.
Proof. done. Qed.

Lemma flatten_and_ok args : Forall formula args ->
  Forall formula (flatten_and args) /\ forallb holds (flatten_and args) = forallb holds args.
Proof.
  induction 1 as [|x l Hx Hl [IH1 IH2]]; [done|]. rewrite flatten_and_cons.
  rewrite forallb_app, IH2. cbn [forallb].
  assert (Forall formula (match x with e_and l' => l' | _ => [x] end) /\
    forallb holds (match x with e_and l' => l' | _ => [x] end) = holds x) as [E1 E2].
  { destruct x; try (split; [by constructor|cbn [forallb]; by rewrite andb_true_r]).
    split; [by apply formula_and|done]. }
  rewrite E2. split; [|done]. apply Forall_app. by split.
Qed.

Lemma mk_flat_and_core_ok args : Forall formula args -> core_ok (forallb holds args) (mk_flat_and_core args).
Proof.
  intros Hf. unfold mk_flat_and_core. destruct (existsb is_and args); [|by apply mk_nflat_and_core_ok].
  destruct (flatten_and_ok args Hf) as [Hf' E]. pose proof (mk_nflat_and_core_ok _ Hf') as Hr.
  rewrite E in Hr. destruct (mk_nflat_and_core _) as [|st r]; cbn in *; [|done].
  rewrite <- E. by apply bsem_and.
Qed.
End And.
End and_core.

(** ** Running in [M] *)

Module Import mok_calculus.

(** [m] returns, from any cost, a result with [Q]. *)
Definition mok {A} (m : M A) (Q : A -> Prop) : Prop := forall c, exists x c', m c = Some (x, c') /\ Q x.

Lemma mok_ret {A} (x : A) (Q : A -> Prop) : Q x -> mok (mret x) Q.
Proof. intros HQ c. by exists x, c. Qed.

Lemma mok_bind {A B} (m : M A) (f : A -> M B) (Q : A -> Prop) (R : B -> Prop) :
  mok m Q -> (forall x, Q x -> mok (f x) R) -> mok (x ← m; f x) R.
Proof.
  intros Hm Hf c. destruct (Hm c) as (x & c' & E & HQ). destruct (Hf x HQ c') as (y & c'' & E' & HR).
  exists y, c''. split; [|done]. unfold mbind, M_bind. by rewrite E.
Qed.

Lemma mok_lift {A} (o : option A) (Q : A -> Prop) : (exists x, o = Some x /\ Q x) -> mok (lift o) Q.
Proof. intros (x & -> & HQ) c. by exists x, c. Qed.

Lemma mok_cost n (Q : unit -> Prop) : Q tt -> mok (add_cost n) Q.
Proof. intros HQ c. eexists _, _. by split. Qed.

Lemma mok_get (Q : Z -> Prop) : (forall c, Q c) -> mok get_cost Q.
Proof. intros HQ c. by exists c, c. Qed.

Lemma mok_weaken {A} (m : M A) (Q R : A -> Prop) : mok m Q -> (forall x, Q x -> R x) -> mok m R.
Proof. intros Hm HR c. destruct (Hm c) as (x & c' & E & HQ). exists x, c'. auto. Qed.

End mok_calculus.

(** ** Local context simplification *)

Module Import local_context.
Section LocalCtx.
Context `{TheoryLaws} (P : params).

(** Equal weight or less, and less when [strict]. *)
Definition simplified (neg pos : list expr) (t : expr) (r : option expr) : Prop :=
  match r with
  | None => True
  | Some r => formula r /\ (ctx neg pos -> holds r = holds t) /\ (weight r < weight t)%nat
  end.

#[local] Arguments list_sum : simpl never.

Lemma list_sum_cons_w x l : list_sum (map weight (x :: l)) = (weight x + list_sum (map weight l))%nat.
Proof. done. Qed.

Lemma list_sum_app_w l1 l2 :
  list_sum (map weight (l1 ++ l2)) = (list_sum (map weight l1) + list_sum (map weight l2))%nat.
Proof. by rewrite map_app, list_sum_app. Qed.

Definition nested_result (args neg pos : list expr) (r : option (bool * list expr)) (acc : list expr) (s : bool) : Prop :=
  match r with
  | None => (ctx neg pos -> existsb holds (acc ++ args) = true) /\ args <> []
  | Some (s', out) =>
      Forall formula out /\ (ctx neg pos -> existsb holds out = existsb holds (acc ++ args)) /\
      (list_sum (map weight out) <= list_sum (map weight (acc ++ args)))%nat /\
      (s' = true -> s = true \/ (list_sum (map weight out) < list_sum (map weight (acc ++ args)))%nat)
  end.

Lemma nested_not_or_loop_ok args : forall neg pos s acc, Forall formula (acc ++ args) ->
  nested_result args neg pos (nested_not_or_loop args neg pos s acc) acc s.
Proof.
  induction args as [|arg args IH]; intros neg pos s acc Hf.
  { cbn. rewrite app_nil_r in *. split_and!; auto. }
  assert (Forall formula (acc ++ args)) as Hf'.
  { apply Forall_app in Hf as [Hb Ha]. apply Forall_app. split; [done|by inversion Ha]. }
  assert (Forall formula ((acc ++ [arg]) ++ args)) as Hf'' by (by rewrite <- app_assoc).
  assert (nested_result (arg :: args) neg pos (nested_not_or_loop args neg pos s (acc ++ [arg])) acc s) as Hkeep.
  { specialize (IH neg pos s _ Hf''). unfold nested_result in *. rewrite <- app_assoc in IH. cbn [app] in IH.
    destruct (nested_not_or_loop _ _ _ _ _) as [[s' out]|]; [done|]. by destruct IH. }
  assert ((ctx neg pos -> holds arg = false) ->
    nested_result (arg :: args) neg pos (nested_not_or_loop args neg pos true acc) acc s) as Hskip.
  { intros Hh. specialize (IH neg pos true acc Hf'). unfold nested_result in *. pose proof (weight_pos arg).
    assert (ctx neg pos -> existsb holds (acc ++ args) = existsb holds (acc ++ arg :: args)) as E.
    { intros Hc. apply existsb_drop. by rewrite Hh. }
    rewrite !list_sum_app_w, !list_sum_cons_w in *.
    destruct (nested_not_or_loop _ _ _ _ _) as [[s' out]|].
    - destruct IH as (Q1 & Q2 & Q3 & Q4). split_and!; [done|intros Hc; by rewrite Q2, E|lia|lia].
    - destruct IH as [Q1 _]. split; [intros Hc; by rewrite <- E, Q1|done]. }
  assert ((ctx neg pos -> holds arg = true) -> nested_result (arg :: args) neg pos None acc s) as Hnone.
  { intros Hh. split; [|done]. intros Hc. rewrite existsb_app. cbn [existsb]. rewrite Hh by done.
    by rewrite orb_true_r. }
  cbn [nested_not_or_loop].
  destruct (marked arg neg) eqn:M1; [apply Hnone; intros Hc; by eapply ctx_neg|].
  destruct (marked arg pos) eqn:M2; [apply Hskip; intros Hc; by eapply ctx_pos|].
  destruct arg as [| | | | | | | | | |a|]; try apply Hkeep.
  destruct (marked a neg) eqn:M3.
  { apply Hskip. intros Hc. rewrite holds_not. by rewrite (ctx_neg neg pos a). }
  destruct (marked a pos) eqn:M4; [|apply Hkeep].
  apply Hnone. intros Hc. rewrite holds_not. by rewrite (ctx_pos neg pos a).
Qed.

Lemma simp_nested_not_or_ok l neg pos : Forall formula l ->
  mok (simp_nested_not_or P l neg pos) (simplified neg pos (e_not (e_or l))).
Proof.
  intros Hf. unfold simp_nested_not_or. eapply (mok_bind _ _ (fun _ => True)); [by apply mok_cost|]. intros _ _.
  pose proof (nested_not_or_loop_ok l neg pos false [] Hf) as Hr.
  assert (holds (e_not (e_or l)) = negb (existsb holds l)) as El by done.
  unfold simplified. rewrite El. cbn [weight].
  destruct (nested_not_or_loop _ _ _ _ _) as [[s out]|]; cbn in Hr.
  - destruct Hr as (Q1 & Q2 & Q3 & Q4). destruct s; [|by apply mok_ret].
    destruct (Q4 eq_refl) as [|Q5]; [done|].
    destruct out as [|x [|y out]].
    + apply mok_ret. split; [done|]. split; [intros Hc; by rewrite <- Q2|].
      change (list_sum (map weight [])) with O in Q5. cbn. lia.
    + assert (formula x) as Fx by (by inversion Q1).
      destruct (mk_not_ok P x _ (formula_bsem x Fx)) as (r & E & B & W).
      eapply mok_bind; [apply mok_lift; exists r; split; [exact E|exact (eq_refl r)]|]. intros ? <-.
      apply mok_ret. split; [by eapply bsem_formula|]. rewrite list_sum_cons_w in Q5. split; [|lia].
      intros Hc. rewrite (bsem_holds _ _ B), <- Q2 by done. cbn. by rewrite orb_false_r.
    + apply mok_ret. split; [by apply formula_not, formula_or|]. split; [|cbn [weight]; lia].
      intros Hc. by rewrite holds_not, <- Q2.
  - destruct Hr as [Q1 Q2]. apply mok_ret. split; [done|]. split; [intros Hc; by rewrite Q1|].
    destruct l as [|x l]; [done|]. pose proof (weight_pos x). rewrite list_sum_cons_w. cbn. lia.
Qed.

End LocalCtx.
End local_context.

Module Import local_context_terms.
Section LocalCtx.
Context `{TheoryLaws} (P : params).
#[local] Arguments list_sum : simpl never.
Ltac weight_lia := cbn [weight map]; unfold list_sum; cbn [weight fold_right]; lia.

Lemma simp_arg_ok neg pos arg s v : marks_ok neg pos -> tsem arg s v ->
  let '(r, m) := simp_arg neg pos arg in
  exists v', tsem r s v' /\ (ctx neg pos -> v' = v) /\ (weight r <= weight arg)%nat /\
    (m = true -> basic_is_value r = true /\ s = Bool).
Proof.
  intros [Mn Mp] Ht. pose proof (weight_pos arg) as Hw.
  assert (exists v', tsem arg s v' /\ (ctx neg pos -> v' = v) /\ (weight arg <= weight arg)%nat /\
    (false = true -> basic_is_value arg = true /\ s = Bool)) as Hsame by (by exists v).
  assert (forall b, formula arg -> (ctx neg pos -> holds arg = b) ->
    exists v', tsem (if b then e_true else e_false) s v' /\ (ctx neg pos -> v' = v) /\
      (weight (if b then e_true else e_false) <= weight arg)%nat /\
      (true = true -> basic_is_value (if b then e_true else e_false) = true /\ s = Bool)) as Hconst.
  { intros b Hf Hh. pose proof (formula_bsem _ Hf) as Hb.
    assert (s = Bool) as -> by (destruct Hf as [_ <-], Ht as (_ & <- & _); done).
    exists (VBool b). split; [by destruct b|]. split; [intros Hc; by rewrite (tsem_bool _ _ _ Hb Ht), Hh|].
    split; [by destruct b|]. by destruct b. }
  destruct (is_not arg) eqn:N.
  - destruct arg as [| | | | | | | | | |a|]; try done. cbn [simp_arg].
    destruct (marked a neg) eqn:M1.
    { apply (Hconst false); [by apply formula_not, (marked_formula a neg)|].
      intros Hc. by rewrite holds_not, (ctx_neg neg pos a). }
    destruct (marked a pos) eqn:M2; [|done].
    apply (Hconst true); [by apply formula_not, (marked_formula a pos)|].
    intros Hc. by rewrite holds_not, (ctx_pos neg pos a).
  - assert (simp_arg neg pos arg = if marked arg neg then (e_true, true)
      else if marked arg pos then (e_false, true) else (arg, false)) as -> by (by destruct arg).
    destruct (marked arg neg) eqn:M1.
    { apply (Hconst true); [by apply (marked_formula arg neg)|]. intros Hc. by eapply ctx_neg. }
    destruct (marked arg pos) eqn:M2; [|done].
    apply (Hconst false); [by apply (marked_formula arg pos)|]. intros Hc. by eapply ctx_pos.
Qed.

Definition ite_answer (c t e : expr) (s : sort) (v : value) (r : option expr) : Prop :=
  exists r', r = Some r' /\ tsem r' s v /\
    (basic_is_value c || basic_is_value t || basic_is_value e = true ->
     (weight r' < 3 + weight c + weight t + weight e)%nat).

Lemma mk_nested_ite_ok c t e b s x y : bsem c b -> tsem t s x -> tsem e s y ->
  ite_answer c t e s (if b then x else y) (mk_nested_ite P c t e).
Proof.
  intros Hc Ht He. unfold mk_nested_ite.
  pose proof (weight_pos c) as W1. pose proof (weight_pos t) as W2. pose proof (weight_pos e) as W3.
  destruct (is_true c) eqn:C1.
  { destruct c; try done. rewrite (bsem_inj _ _ _ Hc bsem_true). eexists; split_and!; [done|done|lia]. }
  destruct (is_false c) eqn:C2.
  { destruct c; try done. rewrite (bsem_inj _ _ _ Hc bsem_false). eexists; split_and!; [done|done|lia]. }
  case_bool_decide as Ete.
  { subst e. destruct Ht as (? & ? & <-), He as (? & ? & <-). eexists; split_and!; [done|by destruct b|lia]. }
  destruct (is_bool t) eqn:Bt.
  2: { eexists; split_and!; [done|by apply tsem_ite|]. intros Hv. exfalso.
    assert (get_sort t = get_sort e) as Es by (destruct Ht as (_ & -> & _), He as (_ & -> & _); done).
    apply bool_decide_eq_false in Bt. unfold basic_is_value in Hv. rewrite C1, C2 in Hv.
    destruct t; try done; destruct e; done. }
  assert (s = Bool) as -> by (destruct Ht as (_ & <- & _); by apply is_bool_true).
  pose proof (tsem_formula _ _ Ht) as Ft. pose proof (tsem_formula _ _ He) as Fe.
  rewrite (tsem_bool _ _ _ Ft Ht), (tsem_bool _ _ _ Fe He). clear Ht He x y.
  replace (if b then VBool (holds t) else VBool (holds e)) with (VBool (if b then holds t else holds e)) by (by destruct b).
  assert (forall r z, bsem r z -> z = (if b then holds t else holds e) -> (weight r <= 2 + weight c + weight t + weight e)%nat ->
    ite_answer c t e Bool (VBool (if b then holds t else holds e)) (Some r)) as Hans.
  { intros r z Hz -> W. exists r. split_and!; [done|done|lia]. }
  destruct (is_true t) eqn:T1.
  { destruct t; try done. destruct (is_false e) eqn:E1.
    - destruct e; try done. apply (Hans c b); [done|by destruct b|weight_lia].
    - eapply Hans; [by eapply bsem_or2|by destruct b, (holds e)|weight_lia]. }
  destruct (is_false t) eqn:T2.
  { destruct t; try done. destruct (is_true e) eqn:E1.
    - destruct e; try done. destruct (mk_not_ok P c b Hc) as (r & -> & Br & Wr).
      eapply Hans; [done|by destruct b|weight_lia].
    - destruct (mk_not_ok P e _ Fe) as (r & -> & Br & Wr). cbn [mbind option_bind].
      eapply Hans; [eapply bsem_not, bsem_or2; done|by destruct b, (holds e)|weight_lia]. }
  destruct (is_true e) eqn:E1.
  { destruct e; try done. destruct (mk_not_ok P c b Hc) as (r & -> & Br & Wr). cbn [mbind option_bind].
    eapply Hans; [by eapply bsem_or2|by destruct b, (holds t)|weight_lia]. }
  destruct (is_false e || bool_decide (c = e)) eqn:E2.
  { destruct (mk_not_ok P c b Hc) as (r1 & -> & Br1 & Wr1). destruct (mk_not_ok P t _ Ft) as (r2 & -> & Br2 & Wr2).
    cbn [mbind option_bind]. eapply Hans; [by eapply bsem_not, bsem_or2| |weight_lia].
    apply orb_true_iff in E2 as [E2|E2].
    - destruct e; try done. by destruct b, (holds t).
    - apply bool_decide_eq_true in E2 as <-. rewrite (bsem_holds _ _ Hc). by destruct b, (holds t). }
  destruct (bool_decide (c = t)) eqn:Ect.
  { apply bool_decide_eq_true in Ect as <-. eapply Hans; [by eapply bsem_or2| |weight_lia]. rewrite (bsem_holds _ _ Hc). by destruct b. }
  assert (is_complement t e = true -> ite_answer c t e Bool (VBool (if b then holds t else holds e)) (mk_eq P c t)) as Hcomp.
  { intros Hx. pose proof (complement_decide _ _ _ _ Hx Ft Fe) as Hn.
    destruct (mk_eq_ok P c t Bool (VBool b) (VBool (holds t))) as (r & -> & Br & Wr & _); [done..|].
    eapply Hans; [done| |lia]. by destruct b, (holds t), (holds e). }
  unfold is_complement in Hcomp. destruct (is_complement_core t e); [by apply Hcomp|].
  destruct (is_complement_core e t); [by apply Hcomp|].
  eexists; split_and!; [done| |].
  - eapply tsem_cast; [by apply (tsem_ite c t e b Bool)|by destruct b].
  - unfold basic_is_value. rewrite C1, C2, T1, T2, E1. cbn. apply orb_false_iff in E2 as [-> _]. done.
Qed.

Lemma mok_some {A B} (o : option A) (f : A -> M B) (R : B -> Prop) (x : A) :
  o = Some x -> mok (f x) R -> mok (y ← lift o; f y) R.
Proof. intros -> Hf c. destruct (Hf c) as (z & c' & E & HR). by exists z, c'. Qed.

(** The sign of [simp_nested_eq_ite] put back. *)
Lemma negate_ok (ng : bool) neg pos t r : formula t -> formula r -> (ctx neg pos -> holds r = holds t) ->
  (weight r < weight t)%nat ->
  mok (if ng then r' ← lift (mk_not P r); mret (Some r') else mret (Some r))
      (simplified neg pos (if ng then e_not t else t)).
Proof.
  intros Ft Fr Hh Hw. destruct ng; [|by apply mok_ret].
  destruct (mk_not_ok P r _ (formula_bsem r Fr)) as (r' & E & B & W).
  eapply mok_some; [exact E|]. apply mok_ret. split; [by eapply bsem_formula|].
  split; [|cbn; lia]. intros Hc. by rewrite (bsem_holds _ _ B), holds_not, Hh.
Qed.

Lemma simp_nested_eq_ite_ok t neg pos : marks_ok neg pos -> formula t ->
  mok (simp_nested_eq_ite P t neg pos) (simplified neg pos t).
Proof.
  intros Hm Ft. unfold simp_nested_eq_ite. eapply (mok_bind _ _ (fun _ => True)); [by apply mok_cost|]. intros _ _.
  destruct (match t with e_not a => (true, a) | _ => (false, t) end) as [ng u] eqn:Eu.
  assert (t = (if ng then e_not u else u) /\ formula u) as [-> Fu].
  { destruct t; injection Eu as <- <-; split; try done. by apply formula_not. }
  clear Eu Ft. pose proof (formula_bsem u Fu) as Bu.
  destruct u as [| | | |a b| |c a b| | | | |]; try (by apply mok_ret).
  - apply bsem_eq_inv in Bu as (s & x & y & Ha & Hb & Eh).
    pose proof (simp_arg_ok neg pos a s x Hm Ha) as Sa. pose proof (simp_arg_ok neg pos b s y Hm Hb) as Sb.
    destruct (simp_arg neg pos a) as [a' ma], (simp_arg neg pos b) as [b' mb].
    destruct Sa as (x' & Ta & Ca & Wa & Va), Sb as (y' & Tb & Cb & Wb & Vb).
    destruct (ma || mb) eqn:Em; [|by apply mok_ret].
    destruct (mk_eq_ok P a' b' s x' y' Ta Tb) as (r & E & Br & _ & Wr).
    eapply mok_some; [exact E|]. apply negate_ok; [done|by eapply bsem_formula|..].
    + intros Hc. rewrite (bsem_holds _ _ Br), Eh, Ca, Cb by done. done.
    + cbn [weight]. assert (basic_is_value a' || basic_is_value b' = true) as Hv.
      { apply orb_true_iff in Em as [E1|E1]; [destruct (Va E1) as [-> _]|destruct (Vb E1) as [-> _]]; by rewrite ?orb_true_r. }
      specialize (Wr Hv). lia.
  - apply tsem_ite_inv in Bu as (bc & x & y & Hc & Ha & Hb & Eh).
    pose proof (simp_arg_ok neg pos c Bool _ Hm Hc) as Sc.
    pose proof (simp_arg_ok neg pos a Bool x Hm Ha) as Sa. pose proof (simp_arg_ok neg pos b Bool y Hm Hb) as Sb.
    destruct (simp_arg neg pos c) as [c' mc], (simp_arg neg pos a) as [a' ma], (simp_arg neg pos b) as [b' mb].
    destruct Sc as (z' & Tc & Cc & Wc & Vc), Sa as (x' & Ta & Ca & Wa & Va), Sb as (y' & Tb & Cb & Wb & Vb).
    destruct (mc || ma || mb) eqn:Em; [|by apply mok_ret].
    pose proof (tsem_formula _ _ Tc) as Fc. pose proof (tsem_bool _ _ _ Fc Tc) as Ez.
    destruct (mk_nested_ite_ok c' a' b' (holds c') Bool x' y' Fc Ta Tb) as (r & E & Br & Wr).
    eapply mok_some; [exact E|]. pose proof (tsem_formula _ _ Br) as Fr.
    apply negate_ok; [done|by eapply bsem_formula|..].
    + intros HC. pose proof (tsem_bool _ _ _ Fr Br) as Er. rewrite Ca, Cb in Er by done. rewrite Cc in Ez by done.
      injection Ez as ->. rewrite <- Eh in Er. by injection Er.
    + cbn [weight]. assert (basic_is_value c' || basic_is_value a' || basic_is_value b' = true) as Hv.
      { apply orb_true_iff in Em as [[E1|E1]%orb_true_iff|E1];
          [destruct (Vc E1) as [-> _]|destruct (Va E1) as [-> _]|destruct (Vb E1) as [-> _]]; by rewrite ?orb_true_r. }
      specialize (Wr Hv). lia.
Qed.

End LocalCtx.
End local_context_terms.

Module Import local_context_loop.
Section LocalCtx.
Context `{TheoryLaws} (P : params).
#[local] Arguments list_sum : simpl never.

Definition W (l : list expr) : nat := list_sum (map weight l).

Lemma W_app l1 l2 : W (l1 ++ l2) = (W l1 + W l2)%nat.
Proof. apply list_sum_app_w. Qed.

Lemma W_cons x l : W (x :: l) = (weight x + W l)%nat.
Proof. unfold W. by rewrite list_sum_cons_w. Qed.

Lemma W_rev l : W (rev l) = W l.
Proof.
  induction l as [|x l IH]; [done|]. cbn [rev]. rewrite W_app, !W_cons, IH. change (W []) with O. lia.
Qed.

(** The marks are the literals of the new arguments. *)
Definition linv (st : lctx) : Prop :=
  Forall formula (new_args st) /\ marks_ok (neg_lits st) (pos_lits st) /\
  (forall x, x ∈ pos_lits st -> x ∈ new_args st) /\ (forall x, x ∈ neg_lits st -> e_not x ∈ new_args st).

Lemma linv_ctx st : linv st -> existsb holds (new_args st) = false -> ctx (neg_lits st) (pos_lits st).
Proof.
  intros (_ & _ & Hp & Hn) He%existsb_false. rewrite list.Forall_forall in He.
  split; rewrite list.Forall_forall; intros x Hx.
  - apply Hn, He in Hx. rewrite holds_not in Hx. by apply negb_false_iff.
  - by apply He, Hp.
Qed.

Lemma linv_set_modified st : linv st -> linv (set_modified st).
Proof. done. Qed.

Lemma push_new_arg_ok arg st : linv st -> formula arg ->
  let st' := push_new_arg arg st in
  linv st' /\ existsb holds (new_args st') = existsb holds (new_args st) || holds arg /\
  (W (new_args st') <= W (new_args st) + weight arg)%nat /\
  modified st' = modified st /\ simp st' = simp st.
Proof.
  intros (L1 & [L2 L3] & L4 & L5) Hf. cbv zeta.
  assert (W (new_args st ++ [arg]) = W (new_args st) + weight arg)%nat as Ew.
  { rewrite W_app, W_cons. change (W []) with O. lia. }
  assert (existsb holds (new_args st ++ [arg]) = existsb holds (new_args st) || holds arg) as Ee.
  { rewrite existsb_app. cbn [existsb]. by rewrite orb_false_r. }
  assert (Forall formula (new_args st ++ [arg])) as Fe by (apply Forall_app; split; [done|by constructor]).
  assert (arg ∈ new_args st -> existsb holds (new_args st) = existsb holds (new_args st) || holds arg) as Hdup.
  { intros Hi. destruct (holds arg) eqn:E; [|by rewrite orb_false_r]. by rewrite (existsb_in arg). }
  destruct (is_not arg) eqn:N.
  - destruct arg as [| | | | | | | | | |a|]; try done. cbn [push_new_arg].
    destruct (marked a (neg_lits st)) eqn:M.
    { split; [done|]. split; [by apply Hdup, L5, marked_true|]. split; [lia|done]. }
    split; [|cbn [new_args modified simp]; rewrite Ew, Ee; by repeat split].
    split; [done|]. split; [split; [constructor; [by apply formula_not|done]|done]|]. cbn.
    split; intros x Hx; rewrite elem_of_app; [left; by apply L4|].
    apply elem_of_cons in Hx as [->|Hx]; [right; by apply list_elem_of_singleton|left; by apply L5].
  - assert (push_new_arg arg st = if marked arg (pos_lits st) then st
      else Lctx (new_args st ++ [arg]) (neg_lits st) (arg :: pos_lits st) (modified st) (simp st)) as -> by (by destruct arg).
    destruct (marked arg (pos_lits st)) eqn:M.
    { split; [done|]. split; [by apply Hdup, L4, marked_true|]. split; [lia|done]. }
    split; [|cbn [new_args modified simp]; rewrite Ew, Ee; by repeat split].
    split; [done|]. split; [split; [done|by constructor]|]. cbn.
    split; intros x Hx; rewrite elem_of_app; [|left; by apply L5].
    apply elem_of_cons in Hx as [->|Hx]; [right; by apply list_elem_of_singleton|left; by apply L4].
Qed.

(** What a step over arguments denoting [b] of weight [w] does. *)
Definition stepped (st : lctx) (b : bool) (w : nat) (st' : lctx) : Prop :=
  linv st' /\ existsb holds (new_args st') = existsb holds (new_args st) || b /\
  (W (new_args st') <= W (new_args st) + w)%nat /\
  ((modified st' = modified st /\ simp st' = simp st) \/
   (modified st' = true /\ simp st' = true /\ (W (new_args st') < W (new_args st) + w)%nat)).

Definition step_result (st : lctx) (b : bool) (w : nat) (r : option lctx) : Prop :=
  match r with
  | None => existsb holds (new_args st) || b = true
  | Some st' => stepped st b w st'
  end.

Lemma push_all_ok l : forall st, linv st -> Forall formula l ->
  stepped st (existsb holds l) (W l) (fold_left (fun st x => push_new_arg x st) l st).
Proof.
  induction l as [|x l IH]; intros st Hl Hf; cbn [fold_left existsb].
  { split; [done|]. rewrite orb_false_r. split; [done|]. split; [lia|by left]. }
  destruct (push_new_arg_ok x st Hl) as (L' & E' & W' & M' & S'); [by inversion Hf|].
  destruct (IH (push_new_arg x st) L') as (L'' & E'' & W'' & M''); [by inversion Hf|].
  rewrite W_cons. split; [done|]. split; [by rewrite E'', E', orb_assoc|].
  split; [lia|]. rewrite M', S' in M''. destruct M'' as [[-> ->]|(? & ? & ?)]; [by left|right]. split_and!; [done|done|lia].
Qed.

(** The end of [PROCESS_ARG], on the simplified argument. *)
Lemma push_arg_ok arg st : linv st -> formula arg ->
  step_result st (holds arg) (weight arg)
    (if is_false arg then Some st else if is_true arg then None
     else match arg with
          | e_or l => if m_flat P then Some (fold_left (fun st x => push_new_arg x st) l st)
                      else Some (push_new_arg arg st)
          | _ => Some (push_new_arg arg st)
          end).
Proof.
  intros Hl Hf. pose proof (weight_pos arg).
  destruct (is_false arg) eqn:E1.
  { rewrite (holds_false arg E1). split; [done|]. rewrite orb_false_r. split; [done|]. split; [lia|by left]. }
  destruct (is_true arg) eqn:E2; [cbn; rewrite (holds_true arg E2); by rewrite orb_true_r|].
  assert (step_result st (holds arg) (weight arg) (Some (push_new_arg arg st))) as Hp.
  { destruct (push_new_arg_ok arg st Hl Hf) as (Q1 & Q2 & Q3 & Q4 & Q5). split_and!; [apply Q1..|done|done|by left]. }
  destruct arg as [| | | | | | | |l| | |]; try done. destruct (m_flat P); [|done].
  destruct (push_all_ok l st Hl) as (Q1 & Q2 & Q3 & Q4); [by apply formula_or|].
  assert (weight (e_or l) = 1 + W l)%nat as Ew by done.
  split; [done|]. split; [done|]. split; [lia|].
  destruct Q4 as [|(? & ? & ?)]; [by left|right]. split_and!; [done|done|lia].
Qed.

(** A simplified argument in place of [arg]. *)
Lemma step_simplified st arg r : linv st -> simplified (neg_lits st) (pos_lits st) arg (Some r) ->
  forall res, step_result (set_modified st) (holds r) (weight r) res ->
  step_result st (holds arg) (weight arg) res.
Proof.
  intros Hl (Fr & Hh & Hw) res Hres.
  assert (existsb holds (new_args st) || holds r = existsb holds (new_args st) || holds arg) as E.
  { destruct (existsb holds (new_args st)) eqn:Ee; [done|]. cbn. apply Hh. by apply linv_ctx. }
  destruct res as [st'|]; cbn in *; [|by rewrite <- E].
  destruct Hres as (Q1 & Q2 & Q3 & Q4). cbn in *. split; [done|]. split; [by rewrite <- E|].
  split; [lia|]. right. destruct Q4 as [[? ?]|(? & ? & ?)]; split_and!; try done; lia.
Qed.

Lemma process_arg_ok arg st : linv st -> formula arg ->
  mok (process_arg P arg st) (step_result st (holds arg) (weight arg)).
Proof.
  intros Hl Hf. unfold process_arg.
  apply mok_bind with (Q := simplified (neg_lits st) (pos_lits st) arg).
  { destruct arg as [| | | | | | | | | |a|]; try (by apply mok_ret).
    destruct a as [| | | | | | | |l| | |]; try (by apply mok_ret).
    apply simp_nested_not_or_ok. by apply formula_or, formula_not. }
  intros r1 H1'. set (st1 := match r1 with Some _ => set_modified st | None => st end).
  set (arg1 := match r1 with Some a => a | None => arg end).
  assert (linv st1 /\ formula arg1 /\ neg_lits st1 = neg_lits st /\ pos_lits st1 = pos_lits st /\
    (forall res, step_result st1 (holds arg1) (weight arg1) res -> step_result st (holds arg) (weight arg) res))
    as (L1 & F1 & En & Ep & Hback).
  { destruct r1 as [a|]; [|done]. split_and!; [done|apply H1'|done|done|]. by apply step_simplified. }
  assert ((let '(arg0, st0) := match r1 with Some a => (a, set_modified st) | None => (arg, st) end in
    r ← simp_nested_eq_ite P arg0 (neg_lits st0) (pos_lits st0);
    let '(arg2, st2) := match r with Some a => (a, set_modified st0) | None => (arg0, st0) end in
    mret (if is_false arg2 then Some st2 else if is_true arg2 then None
     else match arg2 with
          | e_or l => if m_flat P then Some (fold_left (fun st x => push_new_arg x st) l st2)
                      else Some (push_new_arg arg2 st2)
          | _ => Some (push_new_arg arg2 st2)
          end)) = (r ← simp_nested_eq_ite P arg1 (neg_lits st1) (pos_lits st1);
    let '(arg2, st2) := match r with Some a => (a, set_modified st1) | None => (arg1, st1) end in
    mret (if is_false arg2 then Some st2 else if is_true arg2 then None
     else match arg2 with
          | e_or l => if m_flat P then Some (fold_left (fun st x => push_new_arg x st) l st2)
                      else Some (push_new_arg arg2 st2)
          | _ => Some (push_new_arg arg2 st2)
          end) : M (option lctx))) as -> by (by destruct r1).
  eapply mok_bind; [apply (simp_nested_eq_ite_ok P arg1 (neg_lits st1) (pos_lits st1)); [apply L1|done]|].
  intros r2 H2'. destruct r2 as [a|].
  - apply mok_ret, Hback. eapply step_simplified; [done|exact H2'|]. apply push_arg_ok; [by apply linv_set_modified|apply H2'].
  - by apply mok_ret, Hback, push_arg_ok.
Qed.

Lemma process_args_ok args : forall st, linv st -> Forall formula args ->
  mok (process_args P args st) (step_result st (existsb holds args) (W args)).
Proof.
  induction args as [|arg args IH]; intros st Hl Hf; cbn [process_args existsb].
  { apply mok_ret. split; [done|]. rewrite orb_false_r. split; [done|]. split; [lia|by left]. }
  eapply mok_bind; [apply (process_arg_ok arg st Hl); by inversion Hf|].
  intros [st1|] H1'; [|apply mok_ret; cbn in *; rewrite orb_assoc, H1'; done].
  destruct H1' as (L1 & E1 & W1 & M1).
  eapply mok_weaken; [apply (IH st1 L1); by inversion Hf|].
  rewrite W_cons.
  intros [st2|] H2'; cbn in *; [|by rewrite orb_assoc, <- E1].
  destruct H2' as (L2 & E2 & W2 & M2). split; [done|]. split; [by rewrite E2, E1, orb_assoc|].
  split; [lia|].
  destruct M1 as [[-> ->]|(Ma & Sa & Wa)] in M2; destruct M2 as [[Mb Sb]|(Mb & Sb & Wb)];
    [by left|right; split_and!; [done|done|lia]|right; split_and!; [congruence|congruence|lia]|right; split_and!; [done|done|lia]].
Qed.

(** *** The rounds *)

Definition loop_result (b : bool) (r : option expr) : Prop :=
  match r with Some r => bsem r b | None => True end.

Lemma linv_start m s : linv (Lctx [] [] [] m s).
Proof. split_and!; try (split; constructor); cbn; try constructor; intros x Hx; by apply elem_of_nil in Hx. Qed.

Lemma existsb_rev l : existsb holds (rev l) = existsb holds l.
Proof.
  induction l as [|x l IH]; [done|]. cbn [rev existsb]. rewrite existsb_app, IH. cbn. by rewrite orb_false_r, orb_comm.
Qed.

Lemma mk_or_app_ok l : Forall formula l -> bsem (mk_or_app l) (existsb holds l).
Proof.
  intros Hf. destruct l as [|x [|y l]]; [done| |by apply bsem_or].
  cbn [mk_or_app existsb]. rewrite orb_false_r. apply formula_bsem. by inversion Hf.
Qed.

(** A backward round uses one unit of fuel more than the next forward one. *)
Lemma local_ctx_loop_ok fuel : forall args (m s fwd : bool), Forall formula args ->
  (if fwd then 2 * W args + 2 <= fuel /\ m = false
   else if m then 2 * W args + 3 <= fuel else 2 * W args + 1 <= fuel)%nat ->
  mok (local_ctx_loop P fuel args m s fwd) (loop_result (existsb holds args)).
Proof.
  induction fuel as [|fuel IH]; intros args m s fwd Hf Hn; [destruct fwd, m; lia|].
  cbn [local_ctx_loop]. eapply mok_bind with (Q := fun _ : unit => True); [by apply mok_cost|]. intros _ _.
  set (l := if fwd then args else rev args).
  assert (Forall formula l /\ existsb holds l = existsb holds args /\ W l = W args) as (Fl & El & Wl).
  { unfold l. destruct fwd; [done|]. rewrite existsb_rev, W_rev. split; [|done].
    rewrite list.Forall_forall in *. intros x Hx. apply Hf. by apply list_elem_of_In, in_rev, list_elem_of_In. }
  eapply mok_bind; [apply (process_args_ok l (Lctx [] [] [] m s) (linv_start m s) Fl)|].
  intros [st|] Hs; cbn in Hs; [|apply mok_ret; cbn; by rewrite <- El, Hs].
  destruct Hs as ((F' & _) & E' & W' & M'). cbn in E', W', M'. rewrite El in E'. rewrite Wl in *.
  change (W []) with O in *. rewrite <- E'.
  destruct fwd.
  - apply IH; [done|]. destruct Hn as [Hn ->]. destruct M' as [[-> _]|(-> & _ & Hw)]; lia.
  - destruct (modified st) eqn:Em.
    + eapply mok_weaken; [apply IH; [|]|].
      * rewrite list.Forall_forall in *. intros x Hx. apply F'. by apply list_elem_of_In, in_rev, list_elem_of_In.
      * rewrite W_rev. split; [|done]. destruct M' as [[<- _]|(_ & _ & Hw)]; [lia|]. destruct m; lia.
      * cbn. by rewrite existsb_rev.
    + rewrite E'. destruct (simp st); apply mok_ret; [by apply mk_or_app_ok|done].
Qed.

Lemma local_ctx_simp_ok args : Forall formula args ->
  mok (local_ctx_simp P args) (loop_result (existsb holds args)).
Proof.
  intros Hf. unfold local_ctx_simp. change (list_sum (map weight args)) with (W args).
  apply local_ctx_loop_ok; [done|]. split; [lia|done].
Qed.

End LocalCtx.
End local_context_loop.
