(* ===== verification/BoolRewriterSound.v ===== *)
(** * BoolRewriterSound: the operators of [bool_rewriter] preserve meaning and sort, and return

    Disjunctions and conjunctions, [distinct], the conditionals and the dispatch of [mk_app], over
    the negations, equations and local contexts of [BoolRewriterProofs]; then the properties. *)
From S2P Require Import Prelude.
From S2P Require Import Expr.
From S2P Require Import BoolRewriter.
From S2P Require Import BoolRewriterProofs.
From Stdlib Require Import ZArith Lia.
From stdpp Require Import base tactics option list numbers.
Import expr_facts bool_rewriter term_meaning eq_not eq_not_sound contexts flat_cores and_core mok_calculus
  local_context local_context_terms local_context_loop.
Open Scope Z_scope.

Module Import junctions.

Section Sorting.
Context (lt : expr -> expr -> bool).

Lemma insert_sorted_perm x l : insert_sorted lt x l ≡ₚ x :: l.
Proof.
  induction l as [|y l IH]; [done|]. cbn. destruct (lt x y); [done|]. rewrite IH. apply perm_swap.
Qed.

Lemma sort_exprs_perm l : sort_exprs lt l ≡ₚ l.
Proof. induction l as [|x l IH]; [done|]. cbn. by rewrite insert_sorted_perm, IH. Qed.

End Sorting.

Section Junctions.
Context `{TheoryLaws} (ast_lt : expr -> expr -> bool) (P : params).

Lemma existsb_perm l1 l2 : l1 ≡ₚ l2 -> existsb holds l1 = existsb holds l2.
Proof. induction 1; cbn; try congruence. by destruct (holds x), (holds y). Qed.

Lemma bsem_or_sorted l : Forall formula l -> bsem (e_or (sort_exprs ast_lt l)) (existsb holds l).
Proof.
  intros Hf. rewrite <- (existsb_perm _ _ (sort_exprs_perm ast_lt l)). apply bsem_or.
  by rewrite (sort_exprs_perm ast_lt l).
Qed.

Lemma mk_nflat_or_core_ok args : Forall formula args ->
  mok (mk_nflat_or_core ast_lt P args) (core_ok (existsb holds args)).
Proof.
  intros Hf. pose proof (nflat_or_loop_ok ast_lt args [] [] false None [] Hf lits_nil clean_nil) as Hr.
  unfold mk_nflat_or_core. destruct (nflat_or_loop _ _ _ _ _ _ _) as [[s out]|]; cbn in Hr; [|apply mok_ret; cbn; by rewrite Hr].
  destruct Hr as (F & _ & E & _ & _). rewrite <- E. destruct out as [|x [|y out]].
  - by apply mok_ret.
  - apply mok_ret. cbn. rewrite orb_false_r. apply formula_bsem. by inversion F.
  - eapply mok_bind with (Q := fun _ : Z => True); [by apply mok_get|]. intros c _.
    eapply mok_bind with (Q := loop_result (existsb holds (x :: y :: out))).
    { destruct (m_local_ctx P && _); [by apply local_ctx_simp_ok|by apply mok_ret]. }
    intros [r|] Hr; [by apply mok_ret|]. destruct s; apply mok_ret; [by apply bsem_or_sorted|done].
Qed.

Lemma span_or_app args : forall l r, span_or args = (l, r) -> args = l ++ r.
Proof.
  induction args as [|x args IH]; intros l r; cbn; [by intros [= <- <-]|].
  destruct (is_or x); [by intros [= <- <-]|]. destruct (span_or args) as [l' r']. intros [= <- <-].
  cbn. f_equal. by apply IH.
Qed.

Lemma flat_or_loop_ok args : forall prev ordered flat o out, Forall formula (flat ++ args) ->
  flat_or_loop ast_lt args prev ordered flat = (o, out) ->
  Forall formula out /\ existsb holds out = existsb holds (flat ++ args).
Proof.
  induction args as [|x args IH]; intros prev ordered flat o out Hf E; cbn [flat_or_loop] in E.
  { injection E as _ <-. by rewrite app_nil_r in *. }
  assert (forall l, Forall formula l -> existsb holds l = holds x ->
    Forall formula ((flat ++ l) ++ args) /\ existsb holds ((flat ++ l) ++ args) = existsb holds (flat ++ x :: args)) as Hstep.
  { intros l Fl El. apply Forall_app in Hf as [Ff Fx]. inversion Fx. split; [by rewrite !Forall_app|].
    rewrite !existsb_app. cbn [existsb]. rewrite El. by rewrite orb_assoc. }
  apply Forall_app in Hf as [Ff [Fx Fa]%list.Forall_cons].
  destruct (is_or x) eqn:O.
  - destruct x as [| | | | | | | |l| | |]; try done. destruct (Hstep l) as [F' E']; [by apply formula_or|done|].
    rewrite <- E'. by eapply IH.
  - destruct (Hstep [x]) as [F' E']; [by constructor|cbn; by rewrite orb_false_r|].
    rewrite <- E'. eapply IH; [done|]. destruct x; try done; exact E.
Qed.

Lemma mk_flat_or_core_ok args : Forall formula args ->
  mok (mk_flat_or_core ast_lt P args) (core_ok (existsb holds args)).
Proof.
  intros Hf. unfold mk_flat_or_core. destruct (span_or args) as [first rest] eqn:Es.
  destruct rest as [|x rest]; [by apply mk_nflat_or_core_ok|].
  destruct (flat_or_loop _ _ _ _ _) as [ordered flat] eqn:Ef. apply span_or_app in Es as ->.
  destruct (flat_or_loop_ok _ _ _ _ _ _ Hf Ef) as [F E]. rewrite <- E.
  eapply mok_bind; [by apply mk_nflat_or_core_ok|]. intros c Hc. apply mok_ret.
  destruct c as [|s r]; [|done]. cbn. destruct ordered; [by apply bsem_or|by apply bsem_or_sorted].
Qed.

Lemma mk_or_core_ok args : Forall formula args -> mok (mk_or_core ast_lt P args) (core_ok (existsb holds args)).
Proof. intros Hf. unfold mk_or_core. destruct (m_flat P); [by apply mk_flat_or_core_ok|by apply mk_nflat_or_core_ok]. Qed.

Lemma mk_or_ok args : Forall formula args ->
  mok (mk_or ast_lt P args) (fun r => bsem r (existsb holds args)).
Proof.
  intros Hf. eapply mok_bind; [by apply mk_or_core_ok|]. intros c Hc. apply mok_ret.
  destruct c; [by apply bsem_or|done].
Qed.

Lemma mk_not_mok {B} t b (f : expr -> M B) (R : B -> Prop) : bsem t b ->
  (forall r, bsem r (negb b) -> mok (f r) R) -> mok (r ← lift (mk_not P t); f r) R.
Proof. intros Ht Hf. destruct (mk_not_ok P t b Ht) as (r & E & Hr & _). eapply mok_some; [done|by apply Hf]. Qed.

Lemma lift_mk_not_ok t b : bsem t b -> mok (lift (mk_not P t)) (fun r => bsem r (negb b)).
Proof. intros Ht. destruct (mk_not_ok P t b Ht) as (r & E & Hr & _). apply mok_lift. by exists r. Qed.

Lemma mapM_not_ok l : Forall formula l ->
  exists l', mapM (mk_not P) l = Some l' /\ Forall formula l' /\ existsb holds l' = negb (forallb holds l).
Proof.
  induction 1 as [|x l Hx Hl (l' & E & F & Eh)]; [by exists []|].
  destruct (mk_not_ok P x (holds x)) as (r & Er & Hr & _); [by apply formula_bsem|].
  exists (r :: l'). split_and!.
  - change (mapM (mk_not P) (x :: l)) with (y ← mk_not P x; k ← mapM (mk_not P) l; mret (y :: k)).
    by rewrite Er, E.
  - constructor; [by eapply bsem_formula|done].
  - cbn [existsb forallb]. rewrite Eh, (bsem_holds _ _ Hr). by rewrite negb_andb.
Qed.

Lemma mk_and_as_or_ok args : Forall formula args ->
  mok (mk_and_as_or ast_lt P args) (fun r => bsem r (forallb holds args)).
Proof.
  intros Hf. destruct (mapM_not_ok args Hf) as (l' & E & F & Eh). eapply mok_some; [exact E|].
  eapply mok_bind; [by apply mk_or_ok|]. intros t Ht. rewrite <- (negb_involutive (forallb holds args)), <- Eh.
  by apply lift_mk_not_ok.
Qed.

Lemma mk_and_core_ok args : Forall formula args -> mok (mk_and_core ast_lt P args) (core_ok (forallb holds args)).
Proof.
  intros Hf. unfold mk_and_core. destruct (m_elim_and P).
  - eapply mok_bind; [by apply mk_and_as_or_ok|]. intros r Hr. by apply mok_ret.
  - destruct (m_flat P); apply mok_ret; [by apply mk_flat_and_core_ok|by apply mk_nflat_and_core_ok].
Qed.

Lemma mk_and_ok args : Forall formula args ->
  mok (mk_and ast_lt P args) (fun r => bsem r (forallb holds args)).
Proof.
  intros Hf. eapply mok_bind; [by apply mk_and_core_ok|]. intros c Hc. apply mok_ret.
  destruct c; [by apply bsem_and|done].
Qed.

(** The binary cases, on formulas of known truth value. *)
Lemma formulas2 a b x y : bsem a x -> bsem b y ->
  Forall formula [a; b] /\ existsb holds [a; b] = x || y /\ forallb holds [a; b] = x && y.
Proof.
  intros Ha Hb. cbn. rewrite (bsem_holds _ _ Ha), (bsem_holds _ _ Hb), orb_false_r, andb_true_r.
  split; [|done]. constructor; [by eapply bsem_formula|]. constructor; [by eapply bsem_formula|constructor].
Qed.

Lemma mk_or2_ok a b x y : bsem a x -> bsem b y -> mok (mk_or ast_lt P [a; b]) (fun r => bsem r (x || y)).
Proof. intros Ha Hb. destruct (formulas2 a b x y Ha Hb) as (F & <- & _). by apply mk_or_ok. Qed.

Lemma mk_and2_ok a b x y : bsem a x -> bsem b y -> mok (mk_and ast_lt P [a; b]) (fun r => bsem r (x && y)).
Proof. intros Ha Hb. destruct (formulas2 a b x y Ha Hb) as (F & _ & <-). by apply mk_and_ok. Qed.

Lemma mk_implies_ok a b x y : bsem a x -> bsem b y -> mok (mk_implies ast_lt P a b) (fun r => bsem r (implb x y)).
Proof.
  intros Ha Hb. eapply mk_not_mok; [done|]. intros r Hr. eapply mok_weaken; [by apply mk_or2_ok|].
  intros t Ht. by destruct x.
Qed.

Lemma mk_nand_ok args : Forall formula args ->
  mok (mk_nand ast_lt P args) (fun r => bsem r (negb (forallb holds args))).
Proof. intros Hf. eapply mok_bind; [by apply mk_and_ok|]. intros t Ht. by apply lift_mk_not_ok. Qed.

Lemma mk_nor_ok args : Forall formula args ->
  mok (mk_nor ast_lt P args) (fun r => bsem r (negb (existsb holds args))).
Proof. intros Hf. eapply mok_bind; [by apply mk_or_ok|]. intros t Ht. by apply lift_mk_not_ok. Qed.

Lemma bsem_is_false a x : bsem a x -> is_false a = true -> x = false.
Proof. intros Ha Hf. rewrite <- (bsem_holds _ _ Ha). by apply holds_false. Qed.
Lemma bsem_is_true a x : bsem a x -> is_true a = true -> x = true.
Proof. intros Ha Hf. rewrite <- (bsem_holds _ _ Ha). by apply holds_true. Qed.

(** A result up to an equation between truth values. *)
Lemma mok_cast (m : M expr) b b' : mok m (fun r => bsem r b) -> b = b' -> mok m (fun r => bsem r b').
Proof. by intros ? <-. Qed.

Lemma mk_ge2_ok a b c x y z : bsem a x -> bsem b y -> bsem c z ->
  mok (mk_ge2 ast_lt P a b c) (fun r => bsem r ((x && y) || (x && z) || (y && z))).
Proof.
  intros Ha Hb Hc. unfold mk_ge2.
  destruct (is_false a) eqn:A0; [apply (bsem_is_false a x Ha) in A0 as ->; eapply mok_cast; [by apply mk_and2_ok|bcases]|].
  destruct (is_false b) eqn:B0; [apply (bsem_is_false b y Hb) in B0 as ->; eapply mok_cast; [by apply mk_and2_ok|bcases]|].
  destruct (is_false c) eqn:C0; [apply (bsem_is_false c z Hc) in C0 as ->; eapply mok_cast; [by apply mk_and2_ok|bcases]|].
  destruct (is_true a) eqn:A1; [apply (bsem_is_true a x Ha) in A1 as ->; eapply mok_cast; [by apply mk_or2_ok|bcases]|].
  destruct (is_true b) eqn:B1; [apply (bsem_is_true b y Hb) in B1 as ->; eapply mok_cast; [by apply mk_or2_ok|bcases]|].
  destruct (is_true c) eqn:C1; [apply (bsem_is_true c z Hc) in C1 as ->; eapply mok_cast; [by apply mk_or2_ok|bcases]|].
  eapply mok_bind; [by apply mk_and2_ok|]. intros i1 H1'. eapply mok_bind; [by apply mk_and2_ok|]. intros i2 H2'.
  eapply mok_bind; [by apply mk_and2_ok|]. intros i3 H3'. eapply mok_cast; [apply mk_or_ok|].
  - cbn in *. rewrite !list.Forall_cons. split_and!; [by eapply bsem_formula..|constructor].
  - cbn. rewrite (bsem_holds _ _ H1'), (bsem_holds _ _ H2'), (bsem_holds _ _ H3'). bcases.
Qed.

End Junctions.
End junctions.

(** ** Distinct *)

Module Import distinctness.
Section Distinct.
Context `{TheoryLaws} (P : params).

Lemma diff_loop_ok arg earlier :
  match diff_loop arg earlier with
  | None => eval arg ∈ map eval earlier
  | Some true => eval arg ∉ map eval earlier
  | Some false => True
  end.
Proof.
  induction earlier as [|y ys IH]; cbn; [apply not_elem_of_nil|].
  destruct (are_distinct arg y) eqn:D.
  - apply are_distinct_sound in D. destruct (diff_loop arg ys) as [[|]|]; [|done|].
    + by apply not_elem_of_cons.
    + by apply elem_of_cons; right.
  - destruct (are_equal arg y) eqn:E; [|done]. apply are_equal_sound in E. rewrite E. by left.
Qed.

Lemma NoDup_eval_mid earlier arg args : eval arg ∈ map eval earlier ->
  ~ NoDup (map eval (earlier ++ arg :: args)).
Proof.
  intros Hi. rewrite map_app. intros (_ & Hd & _)%list.NoDup_app. apply (Hd _ Hi). cbn. by left.
Qed.

Lemma NoDup_eval_snoc earlier arg : NoDup (map eval earlier) -> eval arg ∉ map eval earlier ->
  NoDup (map eval (earlier ++ [arg])).
Proof.
  intros Hn Hi. rewrite map_app. apply list.NoDup_app. split; [done|]. split; [|apply NoDup_singleton].
  intros x Hx ->%list_elem_of_singleton. done.
Qed.

Lemma unique_fresh arg earlier : is_unique_value arg = true -> Forall (fun y => is_unique_value y = true) earlier ->
  arg ∉ earlier -> eval arg ∉ map eval earlier.
Proof.
  intros Hu Hf Hn Hi. apply list_elem_of_In, in_map_iff in Hi as (y & E & Hy). apply list_elem_of_In in Hy.
  apply Hn. rewrite list.Forall_forall in Hf. rewrite <- (unique_values y arg (Hf y Hy) Hu E). done.
Qed.

Lemma distinct_loop_ok args : forall earlier av ad,
  (ad = true -> NoDup (map eval earlier) /\ (av = true -> Forall (fun y => is_unique_value y = true) earlier)) ->
  match distinct_loop args earlier av ad with
  | None => ~ NoDup (map eval (earlier ++ args))
  | Some true => NoDup (map eval (earlier ++ args))
  | Some false => True
  end.
Proof.
  induction args as [|arg args IH]; intros earlier av ad Hinv; cbn [distinct_loop].
  { rewrite app_nil_r. destruct ad; [by apply Hinv|done]. }
  destruct (marked arg earlier) eqn:M.
  { apply NoDup_eval_mid, list_elem_of_In, in_map, list_elem_of_In. by apply marked_true. }
  apply marked_false in M. set (av' := av && is_unique_value arg).
  assert (forall ad', (ad' = true -> (eval arg ∉ map eval earlier) /\ ad = true) ->
    match distinct_loop args (earlier ++ [arg]) av' ad' with
    | None => ~ NoDup (map eval (earlier ++ arg :: args))
    | Some true => NoDup (map eval (earlier ++ arg :: args))
    | Some false => True
    end) as Hgo.
  { intros ad' Had. replace (earlier ++ arg :: args) with ((earlier ++ [arg]) ++ args) by (by rewrite <- app_assoc).
    apply IH. intros E. destruct (Had E) as [Hi Ea]. destruct (Hinv Ea) as [Hn Hu].
    split; [by apply NoDup_eval_snoc|]. intros [Eav Eu]%andb_true_iff. apply Forall_app. split; [by apply Hu|by constructor]. }
  destruct (negb av' && ad) eqn:C.
  - apply andb_true_iff in C as [_ Ead]. pose proof (diff_loop_ok arg earlier) as Hd.
    destruct (diff_loop arg earlier) as [[|]|]; [by apply Hgo|by apply Hgo|by apply NoDup_eval_mid].
  - apply Hgo. intros ->. split; [|done]. rewrite andb_true_r in C. apply negb_false_iff, andb_true_iff in C as [Ca Cu].
    apply unique_fresh; [done|by apply Hinv|done].
Qed.

(** The arguments of a well sorted application: all of sort [s]. *)
Definition all_of_sort (s : sort) (l : list expr) : Prop := Forall (fun x => well_sorted x = true /\ get_sort x = s) l.

Lemma distinct_args l : well_sorted (e_distinct l) = true -> exists s, all_of_sort s l.
Proof.
  cbn [well_sorted]. rewrite andb_true_iff, !forallb_forall. intros [Hw Hs].
  destruct l as [|x l]; [exists Bool; constructor|]. exists (get_sort x). unfold all_of_sort. rewrite list.Forall_forall.
  intros y Hy%list_elem_of_In. split; [by apply Hw|]. specialize (Hs y Hy). apply bool_decide_eq_true in Hs. by injection Hs.
Qed.

Lemma tsem_self x s : well_sorted x = true /\ get_sort x = s -> tsem x s (eval x).
Proof. intros [? ?]. done. Qed.

Lemma diseq_row x l s : well_sorted x = true /\ get_sort x = s -> all_of_sort s l ->
  Forall formula (map (fun y => e_not (e_eq x y)) l) /\
  forallb holds (map (fun y => e_not (e_eq x y)) l) = bool_decide (eval x ∉ map eval l).
Proof.
  intros Hx. induction 1 as [|y l Hy Hl [IH1 IH2]]; cbn [map forallb].
  { split; [constructor|]. symmetry. apply bool_decide_eq_true. apply not_elem_of_nil. }
  pose proof (bsem_not _ _ (tsem_eq x y s _ _ (tsem_self x s Hx) (tsem_self y s Hy))) as Hb.
  split; [constructor; [by eapply bsem_formula|done]|]. rewrite IH2, (bsem_holds _ _ Hb).
  rewrite <- bool_decide_not, <- bool_decide_and. apply bool_decide_ext. by rewrite not_elem_of_cons.
Qed.

Lemma diseqs_ok l s : all_of_sort s l ->
  Forall formula (diseqs l) /\ forallb holds (diseqs l) = bool_decide (NoDup (map eval l)).
Proof.
  induction 1 as [|x l Hx Hl [IH1 IH2]]; cbn [diseqs].
  { split; [constructor|]. symmetry. apply bool_decide_eq_true. constructor. }
  destruct (diseq_row x l s Hx Hl) as [F E]. split; [by apply Forall_app|].
  rewrite forallb_app, E, IH2, <- bool_decide_and. apply bool_decide_ext. cbn [map]. by rewrite list.NoDup_cons.
Qed.

(** No three truth values differ. *)
Lemma bool_pigeonhole a b c l : all_of_sort Bool (a :: b :: c :: l) -> ~ NoDup (map eval (a :: b :: c :: l)).
Proof.
  unfold all_of_sort. rewrite !list.Forall_cons. intros ([Wa Sa] & [Wb Sb] & [Wc Sc] & _). cbn [map].
  rewrite (eval_bool a Wa), (eval_bool b Wb), (eval_bool c Wc) by (by apply is_bool_true).
  rewrite !list.NoDup_cons, !not_elem_of_cons. intros ((N1 & N2 & _) & (N3 & _) & _).
  destruct (holds a), (holds b), (holds c); congruence.
Qed.

Lemma mk_distinct_core_ok l : well_sorted (e_distinct l) = true ->
  core_ok (bool_decide (NoDup (map eval l))) (mk_distinct_core P l).
Proof.
  intros Hw. destruct (distinct_args l Hw) as [s Hs]. unfold mk_distinct_core.
  destruct l as [|a [|b [|c l]]].
  - rewrite bool_decide_eq_true_2; [done|constructor].
  - rewrite bool_decide_eq_true_2; [done|]. apply NoDup_singleton.
  - destruct (diseqs_ok [a; b] s Hs) as [F E]. rewrite <- E. cbn [diseqs map app forallb] in *.
    rewrite andb_true_r. apply formula_bsem. by inversion F.
  - set (args := a :: b :: c :: l) in *. pose proof (distinct_loop_ok args [] true true) as Hd.
    destruct (distinct_loop args [] true true) as [[|]|]; cbn [app] in Hd.
    + cbn [core_ok]. rewrite bool_decide_eq_true_2; [done|]. apply Hd. intros _. split; [constructor|by constructor].
    + destruct (is_bool a) eqn:Ba.
      { cbn [core_ok]. rewrite bool_decide_eq_false_2; [done|]. apply is_bool_true in Ba.
        assert (s = Bool) as -> by (inversion Hs as [|? ? [_ E]]; congruence). by apply bool_pigeonhole. }
      destruct (m_blast_distinct P && _); [|done]. destruct (diseqs_ok args s Hs) as [F E].
      cbn [core_ok]. rewrite <- E. by apply bsem_and.
    + cbn [core_ok]. rewrite bool_decide_eq_false_2; [done|]. apply Hd. intros _. split; [constructor|by constructor].
Qed.

End Distinct.
End distinctness.

(** ** Conditionals *)

Module Import conditionals.
Section Conditionals.
Context `{TheoryLaws} (ast_lt : expr -> expr -> bool) (P : params).

(** The answer of a member on a term of sort [s] and value [v]. *)
Definition core_sem (s : sort) (v : value) (c : br) : Prop :=
  match c with BR_FAILED => True | Res _ r => tsem r s v end.
Definition some_sem (s : sort) (v : value) (r : option expr) : Prop :=
  match r with None => True | Some r => tsem r s v end.

Lemma some_sem_bool (m : M expr) b v : mok m (fun r => bsem r b) -> v = VBool b ->
  mok (r ← m; mret (Some r)) (some_sem Bool v).
Proof. intros Hm ->. eapply mok_bind; [exact Hm|]. intros r Hr. by apply mok_ret. Qed.

Lemma lift_mk_eq_ok a b x y : bsem a x -> bsem b y -> mok (lift (mk_eq P a b)) (fun r => bsem r (eqb x y)).
Proof.
  intros Ha Hb. destruct (mk_eq_ok P a b Bool (VBool x) (VBool y) Ha Hb) as (r & E & Hr & _).
  apply mok_lift. exists r. split; [done|]. eapply bsem_cast; [exact Hr|]. by destruct x, y.
Qed.

Lemma complement_negb a b x y : is_complement_core a b = true -> bsem a x -> bsem b y -> x = negb y.
Proof.
  unfold is_complement_core. rewrite orb_true_iff, andb_true_iff. intros [[Ht Hf]|Hn] Ha Hb.
  - by rewrite (bsem_is_true a x Ha Ht), (bsem_is_false b y Hb Hf).
  - destruct a; try done. apply bool_decide_eq_true in Hn as ->.
    apply bsem_not_inv in Ha. rewrite <- (bsem_inj _ _ _ Ha Hb). by rewrite negb_involutive.
Qed.

(** A guard [test && m_elim_ite P] of a rule. *)
Ltac rule := match goal with |- context [if (?b && m_elim_ite P)%bool then _ else _] =>
  let G := fresh "G" in destruct (b && m_elim_ite P) eqn:G; [apply andb_true_iff in G as [G _]|clear G] end.

Lemma bool_ite_ok c t e b x y : bsem c b -> bsem t x -> bsem e y ->
  mok (bool_ite ast_lt P c t e) (some_sem Bool (VBool (if b then x else y))).
Proof.
  intros Hc Ht He. unfold bool_ite.
  destruct (is_true t && is_false e) eqn:G1.
  { apply andb_true_iff in G1 as [G1 G2]. rewrite (bsem_is_true t x Ht G1), (bsem_is_false e y He G2).
    apply mok_ret. cbn. by destruct b. }
  rule. { rewrite (bsem_is_true t x Ht G). eapply some_sem_bool; [by apply mk_or2_ok|bcases]. }
  destruct (is_false t && is_true e) eqn:G2.
  { apply andb_true_iff in G2 as [G2 G3]. rewrite (bsem_is_false t x Ht G2), (bsem_is_true e y He G3).
    eapply some_sem_bool; [by apply lift_mk_not_ok|bcases]. }
  rule. { rewrite (bsem_is_false t x Ht G). eapply mk_not_mok; [done|]. intros r Hr.
    eapply some_sem_bool; [by apply mk_and2_ok|bcases]. }
  rule. { rewrite (bsem_is_true e y He G). eapply mk_not_mok; [done|]. intros r Hr.
    eapply some_sem_bool; [by apply mk_or2_ok|bcases]. }
  rule. { rewrite (bsem_is_false e y He G). eapply some_sem_bool; [by apply mk_and2_ok|bcases]. }
  rule. { apply bool_decide_eq_true in G as ->. rewrite (bsem_inj _ _ _ Hc He) in *.
    eapply some_sem_bool; [by apply mk_and2_ok|bcases]. }
  rule. { apply bool_decide_eq_true in G as ->. rewrite (bsem_inj _ _ _ Hc Ht) in *.
    eapply some_sem_bool; [by apply mk_or2_ok|bcases]. }
  rule. { pose proof (complement_negb _ _ _ _ G Ht He) as ->. eapply some_sem_bool; [by apply lift_mk_eq_ok|bcases]. }
  rule. { pose proof (complement_negb _ _ _ _ G He Ht) as ->. eapply some_sem_bool; [by apply lift_mk_eq_ok|bcases]. }
  by apply mok_ret.
Qed.

(** The rules on nested conditionals build a conditional of a new condition. *)
Lemma some_ite c t e b s x y v : bsem c b -> tsem t s x -> tsem e s y -> v = (if b then x else y) ->
  mok (mret (Some (e_ite c t e))) (some_sem s v).
Proof. intros Hc Ht He ->. apply mok_ret. by apply tsem_ite. Qed.

Lemma tsem_inj e s v v' : tsem e s v -> tsem e s v' -> v = v'.
Proof. by intros (_ & _ & <-) (_ & _ & <-). Qed.

Ltac branches := repeat match goal with b : bool |- _ => destruct b end; cbn in *; congruence.

Lemma mok_bind_bsem {B} (m : M expr) b (f : expr -> M B) (R : B -> Prop) :
  mok m (fun r => bsem r b) -> (forall r, bsem r b -> mok (f r) R) -> mok (r ← m; f r) R.
Proof. apply mok_bind. Qed.

Ltac conditional := cbv beta in *; eapply some_ite; [eassumption..|branches].

Lemma ite_then_rules_ok c t e b s x y : bsem c b -> tsem t s x -> tsem e s y ->
  mok (ite_then_rules ast_lt P c t e) (some_sem s (if b then x else y)).
Proof.
  intros Hc Ht He. unfold ite_then_rules. destruct t as [| | | | | |tc t1 t2| | | | |]; try by apply mok_ret.
  apply tsem_ite_inv in Ht as (b2 & x1 & x2 & Hc2 & H1' & H2' & ->).
  destruct (bool_decide (e = t1)) eqn:D1.
  { apply bool_decide_eq_true in D1 as ->. pose proof (tsem_inj _ _ _ _ He H1').
    eapply mk_not_mok; [done|]. intros n Hn. eapply mok_bind_bsem; [by apply mk_and2_ok|]. intros nc Hnc.
    conditional. }
  destruct (bool_decide (e = t2)) eqn:D2.
  { apply bool_decide_eq_true in D2 as ->. pose proof (tsem_inj _ _ _ _ He H2').
    eapply mok_bind_bsem; [by apply mk_and2_ok|]. intros nc Hnc. conditional. }
  destruct e as [| | | | | |ec e1 e2| | | | |]; try by apply mok_ret.
  apply tsem_ite_inv in He as (b3 & y1 & y2 & Hc3 & H3' & H4' & ->).
  destruct (bool_decide (t1 = e1) && bool_decide (t2 = e2)) eqn:D3.
  { apply andb_true_iff in D3 as [->%bool_decide_eq_true ->%bool_decide_eq_true].
    pose proof (tsem_inj _ _ _ _ H1' H3'). pose proof (tsem_inj _ _ _ _ H2' H4').
    eapply mok_bind_bsem; [by apply mk_and2_ok|]. intros a1 Ha1. eapply mk_not_mok; [done|]. intros n Hn.
    eapply mok_bind_bsem; [by apply mk_and2_ok|]. intros a2 Ha2. eapply mok_bind_bsem; [by apply mk_or2_ok|]. intros nc Hnc.
    conditional. }
  destruct (bool_decide (t1 = e2) && bool_decide (t2 = e1)) eqn:D4; [|by apply mok_ret].
  apply andb_true_iff in D4 as [->%bool_decide_eq_true ->%bool_decide_eq_true].
  pose proof (tsem_inj _ _ _ _ H1' H4'). pose proof (tsem_inj _ _ _ _ H2' H3').
  eapply mok_bind_bsem; [by apply mk_and2_ok|]. intros a1 Ha1. eapply mk_not_mok; [done|]. intros n Hn.
  eapply mk_not_mok; [done|]. intros n3 Hn3.
  eapply mok_bind_bsem; [by apply mk_and2_ok|]. intros a2 Ha2. eapply mok_bind_bsem; [by apply mk_or2_ok|]. intros nc Hnc.
  conditional.
Qed.

Lemma ite_else_rules_ok c t e b s x y : bsem c b -> tsem t s x -> tsem e s y ->
  mok (ite_else_rules ast_lt P c t e) (some_sem s (if b then x else y)).
Proof.
  intros Hc Ht He. unfold ite_else_rules. destruct e as [| | | | | |ec e1 e2| | | | |]; try by apply mok_ret.
  apply tsem_ite_inv in He as (b3 & y1 & y2 & Hc3 & H3' & H4' & ->).
  destruct (bool_decide (t = e1)) eqn:D1.
  { apply bool_decide_eq_true in D1 as ->. pose proof (tsem_inj _ _ _ _ Ht H3').
    eapply mok_bind_bsem; [by apply mk_or2_ok|]. intros nc Hnc. conditional. }
  destruct (bool_decide (t = e2)) eqn:D2; [|by apply mok_ret].
  apply bool_decide_eq_true in D2 as ->. pose proof (tsem_inj _ _ _ _ Ht H4').
  eapply mk_not_mok; [done|]. intros n Hn.
  eapply mok_bind_bsem; [by apply mk_or2_ok|]. intros nc Hnc. conditional.
Qed.

(** The head of [mk_ite_core] keeps the meaning. *)
Lemma ite_head_ok c t e b s x y : bsem c b -> tsem t s x -> tsem e s y ->
  match ite_head c t e with
  | (c', t', e', _) => exists b' x' y', bsem c' b' /\ tsem t' s x' /\ tsem e' s y' /\
      (if b' then x' else y') = if b then x else y
  end.
Proof.
  intros Hc Ht He.
  assert (forall c t e b x y st, bsem c b -> tsem t s x -> tsem e s y ->
    match (match t with
           | e_ite tc t1 _ => if bool_decide (tc = c) then (c, t1, e, true) else (c, t, e, st)
           | _ => (c, t, e, st)
           end) with
    | (c', t', e', _) => exists b' x' y', bsem c' b' /\ tsem t' s x' /\ tsem e' s y' /\
        (if b' then x' else y') = if b then x else y
    end) as Hthen.
  { clear. intros c t e b x y st Hc Ht He.
    destruct t as [| | | | | |tc t1 t2| | | | |]; try by exists b, x, y.
    destruct (bool_decide (tc = c)) eqn:D; [|by exists b, x, y]. apply bool_decide_eq_true in D as ->.
    apply tsem_ite_inv in Ht as (b2 & x1 & x2 & Hc2 & H1' & _ & ->).
    pose proof (bsem_inj _ _ _ Hc Hc2) as ->. exists b2, x1, y. split_and!; [done..|]. by destruct b2. }
  unfold ite_head. destruct (is_not c) eqn:N.
  - destruct c as [| | | | | | | | | |a|]; try done. apply bsem_not_inv in Hc.
    pose proof (Hthen a e t (negb b) y x true Hc He Ht) as Hr.
    replace (if b then x else y) with (if negb b then y else x) by (by destruct b). exact Hr.
  - pose proof (Hthen c t e b x y false Hc Ht He) as Hr. destruct c; try done; exact Hr.
Qed.

Lemma ite_tail_ok c t e st b s x y : bsem c b -> tsem t s x -> tsem e s y ->
  mok (ite_tail ast_lt P c t e st) (core_sem s (if b then x else y)).
Proof.
  intros Hc Ht He. unfold ite_tail.
  destruct (is_true c) eqn:C1; [rewrite (bsem_is_true c b Hc C1); by apply mok_ret|].
  destruct (is_false c) eqn:C2; [rewrite (bsem_is_false c b Hc C2); by apply mok_ret|].
  destruct (bool_decide (t = e)) eqn:D.
  { apply bool_decide_eq_true in D as ->. rewrite (tsem_inj _ _ _ _ Ht He). apply mok_ret. by destruct b. }
  eapply mok_bind with (Q := some_sem s (if b then x else y)).
  { destruct (is_bool t) eqn:B; [|by apply mok_ret]. apply is_bool_true in B.
    assert (s = Bool) as -> by (destruct Ht as (_ & <- & _); done).
    pose proof (tsem_formula _ _ Ht) as Ht'. pose proof (tsem_formula _ _ He) as He'.
    rewrite (tsem_bool _ _ _ Ht' Ht), (tsem_bool _ _ _ He' He).
    replace (if b then VBool (holds t) else VBool (holds e)) with (VBool (if b then holds t else holds e)) by (by destruct b).
    by apply bool_ite_ok. }
  intros [r|] Hr; [by apply mok_ret|].
  eapply mok_bind with (Q := some_sem s (if b then x else y)).
  { destruct (m_ite_extra_rules P && m_elim_ite P); [by apply ite_then_rules_ok|by apply mok_ret]. }
  intros [r1|] Hr1; [by apply mok_ret|].
  eapply mok_bind with (Q := some_sem s (if b then x else y)).
  { destruct (m_ite_extra_rules P && m_elim_ite P); [by apply ite_else_rules_ok|by apply mok_ret]. }
  intros [r2|] Hr2; [by apply mok_ret|]. apply mok_ret. destruct st; [by apply tsem_ite|done].
Qed.

Lemma mk_ite_core_ok c t e b s x y : bsem c b -> tsem t s x -> tsem e s y ->
  mok (mk_ite_core ast_lt P c t e) (core_sem s (if b then x else y)).
Proof.
  intros Hc Ht He. unfold mk_ite_core. pose proof (ite_head_ok c t e b s x y Hc Ht He) as Hh.
  destruct (ite_head c t e) as [[[c' t'] e'] st]. destruct Hh as (b' & x' & y' & Hc' & Ht' & He' & <-).
  clear c t e b x y Hc Ht He.
  destruct e' as [| | | | | |ec e1 e2| | | | |]; try by apply ite_tail_ok.
  destruct (bool_decide (e1 = t')) eqn:D1.
  { apply bool_decide_eq_true in D1 as ->. apply tsem_ite_inv in He' as (b2 & y1 & y2 & Hc2 & H1' & H2' & ->).
    pose proof (tsem_inj _ _ _ _ H1' Ht') as ->. apply mok_ret. cbn.
    eapply tsem_cast; [apply tsem_ite; [by apply bsem_or2|done|done]|]. by destruct b', b2. }
  destruct (bool_decide (ec = c')) eqn:D2; [|by apply ite_tail_ok].
  apply bool_decide_eq_true in D2 as ->. apply tsem_ite_inv in He' as (b2 & y1 & y2 & Hc2 & H1' & H2' & ->).
  rewrite (bsem_inj _ _ _ Hc2 Hc'). replace (if b' then x' else if b' then y1 else y2) with (if b' then x' else y2) by (by destruct b').
  by apply ite_tail_ok.
Qed.

End Conditionals.
End conditionals.

(** ** Dispatch *)

Module Import dispatch.
Section Dispatch.
Context `{TheoryLaws} (ast_lt : expr -> expr -> bool) (P : params).

Definition sem_of (t : expr) : br -> Prop := core_sem (get_sort t) (eval t).

Lemma well_sorted_tsem a : well_sorted a = true -> tsem a (get_sort a) (eval a).
Proof. done. Qed.

Lemma well_sorted_bsem a : well_sorted a = true -> is_bool a = true -> bsem a (holds a).
Proof. intros Hw Hb. apply formula_bsem. split; [done|]. by apply is_bool_true. Qed.

Lemma core_ok_sem b c : core_ok b c -> core_sem Bool (VBool b) c.
Proof. by destruct c. Qed.

Lemma junction_formulas l : forallb (fun x => well_sorted x && is_bool x) l = true -> Forall formula l.
Proof. apply forall_formula. Qed.

Lemma mk_eq_core_sem a b : well_sorted (e_eq a b) = true -> mok (lift (mk_eq_core P a b)) (sem_of (e_eq a b)).
Proof.
  intros (Wa & Wb & Es)%well_sorted_eq.
  destruct (mk_eq_core_ok P (mk_not P) (eqs a + eqs b) a b (get_sort a) (eval a) (eval b)) as (c & E & Hc);
    [apply mk_not_good|done|by rewrite Es|lia|lia|].
  apply mok_lift. exists c. split; [done|]. destruct c; [done|]. apply Hc.
Qed.

Lemma mk_not_core_sem a : well_sorted (e_not a) = true -> mok (lift (mk_not_core P a)) (sem_of (e_not a)).
Proof.
  intros [Wa Ba]%andb_true_iff.
  destruct (mk_not_core_ok P (mk_not P) (eqs a) a (holds a)) as (c & E & Hc);
    [apply mk_not_good|by apply well_sorted_bsem|lia|].
  apply mok_lift. exists c. split; [done|]. destruct c; [done|]. apply Hc.
Qed.

Lemma mk_xor_sem a b : Forall formula [a; b] ->
  mok (r ← lift (mk_xor P a b); mret (Res BR_DONE r)) (sem_of (e_xor [a; b])).
Proof.
  intros [Ha%formula_bsem [Hb%formula_bsem _]%list.Forall_cons]%list.Forall_cons.
  destruct (mk_not_ok P a _ Ha) as (r & E & Hr & _).
  destruct (mk_eq_ok P r b Bool _ _ Hr Hb) as (q & Eq & Hq & _).
  eapply mok_some; [unfold mk_xor; rewrite E; cbn; exact Eq|]. apply mok_ret. cbn.
  change (truth (eval a)) with (holds a). change (truth (eval b)) with (holds b).
  eapply bsem_cast; [exact Hq|]. by destruct (holds a), (holds b).
Qed.

Lemma mk_app_core_ok f args t : mk_term f args = Some t -> well_sorted t = true ->
  mok (mk_app_core ast_lt P f args) (sem_of t).
Proof.
  intros Ht Hw. unfold mk_app_core. destruct f.
  - by apply mok_ret.
  - by apply mok_ret.
  - destruct args as [|a [|b [|]]]; try done. injection Ht as <-. by apply mk_eq_core_sem.
  - injection Ht as <-. apply mok_ret, core_ok_sem. by apply mk_distinct_core_ok.
  - destruct args as [|c [|a [|b [|]]]]; try done. injection Ht as <-.
    apply well_sorted_ite in Hw as (Wc & Wa & Wb & Bc & Es).
    change (sem_of (e_ite c a b)) with (core_sem (get_sort a) (if holds c then eval a else eval b)).
    apply mk_ite_core_ok; [by apply well_sorted_bsem|done|by rewrite Es].
  - injection Ht as <-. eapply mok_weaken; [by apply mk_and_core_ok, junction_formulas|]. intros c. apply core_ok_sem.
  - injection Ht as <-. eapply mok_weaken; [by apply mk_or_core_ok, junction_formulas|]. intros c. apply core_ok_sem.
  - injection Ht as <-. apply junction_formulas in Hw. destruct args as [|a [|b [|]]].
    + by apply mok_ret.
    + apply mok_ret. cbn. change (truth (eval a)) with (holds a). rewrite xorb_false_r. apply formula_bsem. by inversion Hw.
    + by apply mk_xor_sem.
    + by apply mok_ret.
  - destruct args as [|a [|]]; try done. injection Ht as <-. by apply mk_not_core_sem.
  - destruct args as [|a [|b [|]]]; try done. injection Ht as <-. cbn in Hw. rewrite !andb_true_iff in Hw.
    destruct Hw as [[[Wa Ba] Wb] Bb].
    eapply mok_bind; [by eapply mk_implies_ok; apply well_sorted_bsem|]. intros r Hr. by apply mok_ret.
Qed.

Lemma mk_app_ok f args t : mk_term f args = Some t -> well_sorted t = true ->
  mok (mk_app ast_lt P f args) (fun r => tsem r (get_sort t) (eval t)).
Proof.
  intros Ht Hw. unfold mk_app. eapply mok_bind; [by apply mk_app_core_ok|]. intros [|s r] Hr; [|by apply mok_ret].
  rewrite Ht. by apply mok_lift; exists t.
Qed.

Lemma mk_ite_ok c t e : well_sorted (e_ite c t e) = true ->
  mok (mk_ite ast_lt P c t e) (fun r => tsem r (get_sort t) (eval (e_ite c t e))).
Proof.
  intros Hw. pose proof Hw as Hw'. apply well_sorted_ite in Hw' as (Wc & Wa & Wb & Bc & Es).
  change (eval (e_ite c t e)) with (if holds c then eval t else eval e).
  eapply mok_bind; [eapply mk_ite_core_ok; [by apply well_sorted_bsem|by apply well_sorted_tsem|by rewrite Es]|].
  intros [|s r] Hr; [|by apply mok_ret]. apply mok_ret, tsem_ite; [by apply well_sorted_bsem|done|by rewrite Es].
Qed.

End Dispatch.

(** The answers of the flat connectives, with the loops' results. *)
Section NormalForm.
Context `{Theories} `{Interp} (ast_lt : expr -> expr -> bool) (P : params).

Lemma nflat_or_answer args c : Forall formula args -> m_local_ctx P = false ->
  exists a, mk_nflat_or_core ast_lt P args c = Some (a, c) /\
    match a with
    | BR_FAILED => clean args /\ (2 <= length args)%nat
    | Res _ r => r = e_true \/ exists out, clean out /\ (forall x, x ∈ out -> x ∈ args) /\
        r = match out with [] => e_false | [x] => x | _ => e_or (sort_exprs ast_lt out) end
    end.
Proof.
  intros Hf Hl. pose proof (nflat_or_loop_ok ast_lt args [] [] false None [] Hf lits_nil clean_nil) as Hr.
  unfold mk_nflat_or_core. destruct (nflat_or_loop _ _ _ _ _ _ _) as [[s out]|]; cbn [or_result app] in Hr.
  2: { exists (Res BR_DONE e_true). split; [done|by left]. }
  destruct Hr as (_ & C & _ & S & K). destruct out as [|x [|y out]].
  - eexists. split; [reflexivity|]. right. by exists [].
  - eexists. split; [reflexivity|]. right. by exists [x].
  - unfold mbind, M_bind, get_cost. cbn. rewrite Hl. cbn. destruct s.
    + eexists. split; [reflexivity|]. right. by exists (x :: y :: out).
    + eexists. split; [reflexivity|]. destruct (K eq_refl) as [_ <-]. split; [done|]. cbn. lia.
Qed.

Lemma nflat_and_keeps args : forall neg pos s buffer s' out,
  nflat_and_loop args neg pos s buffer = Some (s', out) -> forall x, x ∈ out -> x ∈ buffer ++ args.
Proof.
  induction args as [|arg args IH]; intros neg pos s buffer s' out E x Hx; cbn [nflat_and_loop] in E.
  { injection E as _ <-. by rewrite app_nil_r. }
  assert (forall neg pos s, nflat_and_loop args neg pos s buffer = Some (s', out) -> x ∈ buffer ++ arg :: args) as Hskip.
  { intros n p s1 E1. specialize (IH _ _ _ _ _ _ E1 x Hx). rewrite elem_of_app in *. rewrite elem_of_cons. tauto. }
  assert (forall neg pos s, nflat_and_loop args neg pos s (buffer ++ [arg]) = Some (s', out) -> x ∈ buffer ++ arg :: args) as Hkeep.
  { intros n p s1 E1. specialize (IH _ _ _ _ _ _ E1 x Hx). by rewrite <- app_assoc in IH. }
  repeat match type of E with
  | (if ?b then _ else _) = _ => destruct b; try discriminate
  | match ?a with _ => _ end = _ => destruct a; try discriminate
  end; eauto.
Qed.

Lemma nflat_and_answer args : Forall formula args ->
  match mk_nflat_and_core args with
  | BR_FAILED => clean args /\ (2 <= length args)%nat
  | Res _ r => r = e_false \/ exists out, clean out /\ (forall x, x ∈ out -> x ∈ args) /\
      r = match out with [] => e_true | [x] => x | _ => e_and out end
  end.
Proof.
  intros Hf. pose proof (nflat_and_loop_ok args [] [] false [] Hf lits_nil clean_nil) as Hr.
  pose proof (nflat_and_keeps args [] [] false []) as Hk.
  unfold mk_nflat_and_core. destruct (nflat_and_loop _ _ _ _ _) as [[s out]|]; cbn [and_result app] in Hr; [|by left].
  specialize (Hk s out eq_refl). destruct Hr as (_ & C & _ & K). destruct out as [|x [|y out]].
  - right. by exists [].
  - right. by exists [x].
  - destruct s; [right; by exists (x :: y :: out)|]. destruct (K eq_refl) as [_ <-]. split; [done|]. cbn. lia.
Qed.

End NormalForm.
End dispatch.

(** ** A theory: numerals of family 7 and sort 1, each a value of its own *)

Module Import numerals.

Definition is_numeral (e : expr) : bool :=
  match e with
  | e_app f [] => bool_decide (fd_family f = 7) && bool_decide (fd_range f = Sort 1)
  | _ => false
  end.

Definition numeral_plugin : decl_plugin := {|
  p_is_value := is_numeral;
  p_is_unique_value := is_numeral;
  p_are_equal := fun a b => bool_decide (a = b);
  p_are_distinct := fun a b => bool_decide (a <> b) && is_numeral a && is_numeral b |}.

#[export] Instance numeral_theories : Theories := fun fam => if bool_decide (fam = 7) then Some numeral_plugin else None.

Definition default_value (s : sort) (n : Z) : value :=
  match s with Bool => VBool (0 <? n) | Sort k => VElem k n end.

#[export] Program Instance numeral_interp : Interp := {|
  app_value := fun f _ => default_value (fd_range f) (fd_name f);
  var_value := fun i s => default_value s i |}.
Next Obligation. intros [? ? []] l; done. Qed.
Next Obligation. intros i []; done. Qed.

Lemma numeral_eval a b : is_numeral a = true -> is_numeral b = true -> eval a = eval b -> a = b.
Proof.
  intros Ha Hb. destruct a as [|[fa na sa] [|]| | | | | | | | | |]; try done. destruct b as [|[fb nb sb] [|]| | | | | | | | | |]; try done.
  cbn in *. rewrite !andb_true_iff, !bool_decide_eq_true in *. destruct Ha as [-> ->], Hb as [-> ->]. cbn. by intros [= ->].
Qed.

Lemma numeral_unique a : is_unique_value a = true -> is_numeral a = true \/ a = e_true \/ a = e_false.
Proof.
  intros Ha. destruct a; try discriminate Ha; auto. revert Ha. unfold is_unique_value. cbn.
  unfold theory_plugin, numeral_theories. destruct (bool_decide (fd_family f = 7)) eqn:D; [|done].
  intros Ha. left. cbn in Ha. by rewrite D in Ha.
Qed.

Lemma numeral_const a b : is_numeral a = true -> b = e_true \/ b = e_false -> eval a <> eval b.
Proof.
  intros Ha. destruct a as [|f [|]| | | | | | | | | |]; try done. cbn in Ha. rewrite andb_true_iff, !bool_decide_eq_true in Ha.
  destruct Ha as [_ Hr]. cbn. rewrite Hr. by intros [-> | ->].
Qed.

#[export] Instance numeral_laws : TheoryLaws.
Proof.
  split.
  - intros fam p a b Hp He. unfold theory_plugin, numeral_theories in Hp. destruct (bool_decide _); [|done].
    injection Hp as <-. cbn in He. apply bool_decide_eq_true in He. by rewrite He.
  - intros fam p a b Hp Hd. unfold theory_plugin, numeral_theories in Hp. destruct (bool_decide _); [|done].
    injection Hp as <-. cbn in Hd. rewrite !andb_true_iff, bool_decide_eq_true in Hd. destruct Hd as [[Hn Ha] Hb] . 
    intros E. by apply Hn, numeral_eval.
  - intros a b Ha%numeral_unique Hb%numeral_unique E.
    destruct Ha as [Ha|Ha], Hb as [Hb|Hb].
    + by apply numeral_eval.
    + by destruct (numeral_const a b Ha Hb).
    + by destruct (numeral_const b a Hb Ha).
    + destruct Ha as [-> | ->], Hb as [-> | ->]; done.
Qed.

End numerals.

(** ** Properties *)

Section Properties.
Context {T : Theories} {I : Interp} {L : TheoryLaws} (ast_lt : expr -> expr -> bool) (P : params).

(** C17: [mk_app] is an equivalence: from any cost, with any flags, any order on terms and any
    lawful theories, on arguments that make a well sorted application it returns (the recursion of
    [mk_not] through [mk_eq] and the rounds of [local_ctx_simp] end) and the term it returns has the
    value of the application in every interpretation. *)
Theorem mk_app_equivalent (f : basic_op_kind) (args : list expr) (t : expr) (c : Z) :
  mk_term f args = Some t -> well_sorted t = true ->
  exists r c', mk_app ast_lt P f args c = Some (r, c') /\ eval r = eval t.
Proof.
  intros Ht Hw. destruct (mk_app_ok ast_lt P f args t Ht Hw c) as (r & c' & E & Hr).
  exists r, c'. split; [done|]. apply Hr.
Qed.

(** C18: [mk_app] and [mk_app_core] preserve sorts: a successful answer is a well sorted term of
    the sort of the application, in each of the statuses that ask for another rewriting. *)
Theorem mk_app_well_sorted (f : basic_op_kind) (args : list expr) (t r : expr) (c c' : Z) :
  mk_term f args = Some t -> well_sorted t = true ->
  mk_app ast_lt P f args c = Some (r, c') \/
    (exists s, mk_app_core ast_lt P f args c = Some (Res s r, c')) ->
  well_sorted r = true /\ get_sort r = get_sort t.
Proof.
  intros Ht Hw [E|[s E]].
  - destruct (mk_app_ok ast_lt P f args t Ht Hw c) as (r' & c'' & E' & H1 & H2 & _). by simplify_eq.
  - destruct (mk_app_core_ok ast_lt P f args t Ht Hw c) as (a & c'' & E' & Ha). simplify_eq. by destruct Ha as (? & ? & _).
Qed.

(** C19: the connectives over formulas: [mk_and], [mk_or], [mk_nand], [mk_nor], [mk_implies], the
    majority [mk_ge2] and the simplification of a disjunction in its local context return formulas
    with the truth tables their names promise; [local_ctx_simp], when it answers, ends with
    a formula equivalent to the disjunction. *)
Theorem connectives_correct (args : list expr) (a b d : expr) (c : Z) :
  Forall formula args -> Forall formula [a; b; d] ->
  (exists r c', mk_and ast_lt P args c = Some (r, c') /\ bsem r (forallb holds args)) /\
  (exists r c', mk_or ast_lt P args c = Some (r, c') /\ bsem r (existsb holds args)) /\
  (exists r c', mk_nand ast_lt P args c = Some (r, c') /\ bsem r (negb (forallb holds args))) /\
  (exists r c', mk_nor ast_lt P args c = Some (r, c') /\ bsem r (negb (existsb holds args))) /\
  (exists r c', mk_implies ast_lt P a b c = Some (r, c') /\ bsem r (implb (holds a) (holds b))) /\
  (exists r c', mk_ge2 ast_lt P a b d c = Some (r, c') /\
     bsem r ((holds a && holds b) || (holds a && holds d) || (holds b && holds d))) /\
  (exists r c', local_ctx_simp P args c = Some (r, c') /\
     match r with Some r => bsem r (existsb holds args) | None => True end).
Proof.
  rewrite !list.Forall_cons. intros Hf (Ha%formula_bsem & Hb%formula_bsem & Hd%formula_bsem & _).
  split_and!; [by apply mk_and_ok|by apply mk_or_ok|by apply mk_nand_ok|by apply mk_nor_ok
    |by apply mk_implies_ok|by apply mk_ge2_ok|by apply local_ctx_simp_ok].
Qed.

(** The normal form of the flat connectives (without local context): [mk_nflat_or_core] and
    [mk_nflat_and_core] fail only on two or more arguments already clean (no constants, no
    duplicate, no atom next to its negation); otherwise they answer the absorbing constant, or the
    connective of a clean list of the arguments, the disjuncts sorted, where no argument gives the
    neutral constant and a single one stands alone. *)
Lemma nflat_normal_form (args : list expr) (c : Z) : Forall formula args ->
  (m_local_ctx P = false -> exists a, mk_nflat_or_core ast_lt P args c = Some (a, c) /\
    match a with
    | BR_FAILED => clean args /\ (2 <= length args)%nat
    | Res _ r => r = e_true \/ exists out, clean out /\ (forall x, x ∈ out -> x ∈ args) /\
        r = match out with [] => e_false | [x] => x | _ => e_or (sort_exprs ast_lt out) end
    end) /\
  match mk_nflat_and_core args with
  | BR_FAILED => clean args /\ (2 <= length args)%nat
  | Res _ r => r = e_false \/ exists out, clean out /\ (forall x, x ∈ out -> x ∈ args) /\
      r = match out with [] => e_true | [x] => x | _ => e_and out end
  end.
Proof. intros Hf. split; [by apply nflat_or_answer|by apply nflat_and_answer]. Qed.

End Properties.

(** ** Witnesses *)

Module example_terms.

(** Every flag on; terms compared by size. *)
Definition all_on : params := BoolRewriter.Params true true true true 1000 true 10 true.
Definition by_size (a b : expr) : bool := (weight a <? weight b)%nat.

Definition num (n : Z) : expr := e_app (FuncDecl 7 n (Sort 1)) [].
Definition p : expr := e_var 0 Bool.
Definition q : expr := e_var 1 Bool.
Definition choice : expr := e_ite p (num 1) (num 2).

End example_terms.
Import example_terms.

Lemma mk_app_equivalent_witness :
  mk_term OP_EQ [choice; num 1] = Some (e_eq choice (num 1)) /\
  exists r c', mk_app by_size all_on OP_EQ [choice; num 1] 0 = Some (r, c') /\ eval r = eval (e_eq choice (num 1)).
Proof. split; [reflexivity|]. apply (mk_app_equivalent by_size all_on); reflexivity. Defined.

Lemma mk_app_well_sorted_witness :
  mk_app by_size all_on OP_AND [p; e_or [q; p]] 0 = Some (p, 27) /\
  well_sorted p = true /\ get_sort p = Bool.
Proof.
  split; [vm_compute; reflexivity|].
  apply (mk_app_well_sorted by_size all_on OP_AND [p; e_or [q; p]] (e_and [p; e_or [q; p]]) p 0 27);
    [reflexivity|reflexivity|left; vm_compute; reflexivity].
Defined.

Lemma connectives_correct_witness : exists r c',
  mk_ge2 by_size all_on p q (e_not p) 0 = Some (r, c') /\
  bsem r ((holds p && holds q) || (holds p && holds (e_not p)) || (holds q && holds (e_not p))).
Proof.
  assert (Forall formula [p; q; e_not p]) as Hf by (repeat (constructor; [split; reflexivity|]); constructor).
  apply (connectives_correct by_size all_on [p; q; e_not p] p q (e_not p) 0 Hf Hf).
Defined.

Lemma nflat_normal_form_witness :
  mk_nflat_and_core [p; e_true; p; q] = Res BR_DONE (e_and [p; q]) /\
  exists out, clean out /\ (forall x, x ∈ out -> x ∈ [p; e_true; p; q]) /\
    e_and [p; q] = match out with [] => e_true | [x] => x | _ => e_and out end.
Proof.
  assert (Forall formula [p; e_true; p; q]) as Hf by (repeat (constructor; [split; reflexivity|]); constructor).
  destruct (nflat_normal_form by_size all_on [p; e_true; p; q] 0 Hf) as [_ Ha].
  split; [reflexivity|]. change (mk_nflat_and_core _) with (Res BR_DONE (e_and [p; q])) in Ha.
  destruct Ha as [E|Ha]; [discriminate E|exact Ha].
Defined.
