(* ===== verification/Bdd.v ===== *)
(** * Bdd: binary decision diagrams ([math/dd/dd_bdd.h], [math/dd/dd_bdd.cpp])

    One definition per member of [bdd_manager] and [bdd], up to reordering: an operation that runs out
    of nodes ([mem_out]), where the source starts to reorder the variables, ends in [MemOut].
    Nodes, levels and variables are [nat] indices; the stacks and the free list have their back at
    the head.  The node table is a finite map on (level, lo, hi); the operation cache is a list of
    entries compared as the source does, first by the 32 bit hash, then by [eq_entry].  Pointers to
    cache entries are numbers ([e_id]).  The collector's new table keeps every operation under way (the
    source would merge two of them with equal hashes that [eq_entry] identifies, which loses an entry
    no operation looks up again).  A read outside an array, a failed [VERIFY], or the end of
    the fuel of a recursion is [Fault]. *)
From S2P Require Import Prelude.
From Stdlib Require Import ZArith Lia.
From stdpp Require Import base tactics option list numbers gmap.

(** ** Hashing ([util/hash.h]) *)

Module Import hash.

Definition mix (a b c : Z) : Z * Z * Z :=
  let a := u32 (a - b) in let a := u32 (a - c) in let a := Z.lxor a (Z.shiftr c 13) in
  let b := u32 (b - c) in let b := u32 (b - a) in let b := Z.lxor b (u32 (Z.shiftl a 8)) in
  let c := u32 (c - a) in let c := u32 (c - b) in let c := Z.lxor c (Z.shiftr b 13) in
  let a := u32 (a - b) in let a := u32 (a - c) in let a := Z.lxor a (Z.shiftr c 12) in
  let b := u32 (b - c) in let b := u32 (b - a) in let b := Z.lxor b (u32 (Z.shiftl a 16)) in
  let c := u32 (c - a) in let c := u32 (c - b) in let c := Z.lxor c (Z.shiftr b 5) in
  let a := u32 (a - b) in let a := u32 (a - c) in let a := Z.lxor a (Z.shiftr c 3) in
  let b := u32 (b - c) in let b := u32 (b - a) in let b := Z.lxor b (u32 (Z.shiftl a 10)) in
  let c := u32 (c - a) in let c := u32 (c - b) in let c := Z.lxor c (Z.shiftr b 15) in
  (a, b, c).

Definition mk_mix (a b c : Z) : Z := let '(_, _, c) := mix a b c in c.

End hash.

(** ** Data *)

(** An index into [m_nodes]. *)
Abbreviation BDD := nat (only parsing).
Definition false_bdd : BDD := 0.
Definition true_bdd : BDD := 1.
Definition max_rc : nat := 1023.

Inductive bdd_op :=
  bdd_and_op | bdd_or_op | bdd_xor_op | bdd_not_op | bdd_and_proj_op | bdd_or_proj_op | bdd_no_op.

(** The values of the enumeration. *)
Definition op_code (op : bdd_op) : nat :=
  match op with
  | bdd_and_op => 2 | bdd_or_op => 3 | bdd_xor_op => 4 | bdd_not_op => 5
  | bdd_and_proj_op => 6 | bdd_or_proj_op => 7 | bdd_no_op => 8
  end.

Record bdd_node := Node {
  m_refcount : nat; m_level : nat; m_lo : BDD; m_hi : BDD; m_index : nat }.

(** The level is a field of 22 bits. *)
Definition mk_node (level lo hi : nat) : bdd_node :=
  Node 0 (N.to_nat (N.of_nat level mod 4194304)) lo hi 0.
Definition is_internal (n : bdd_node) : bool := (m_lo n =? 0) && (m_hi n =? 0).
Definition set_internal (n : bdd_node) : bdd_node := Node (m_refcount n) (m_level n) 0 0 (m_index n).
Definition set_refcount (rc : nat) (n : bdd_node) : bdd_node :=
  Node rc (m_level n) (m_lo n) (m_hi n) (m_index n).
Definition node_key (n : bdd_node) : nat * nat * nat := (m_level n, m_lo n, m_hi n).

(** [m_op] holds an operation's code, or the third argument of a conditional; [m_result] is [None]
    for [null_bdd]. *)
Record op_entry := Entry {
  e_id : nat; m_bdd1 : BDD; m_bdd2 : BDD; m_op : nat; m_result : option BDD }.

Definition hash_entry (e : op_entry) : Z :=
  mk_mix (Z.of_nat (m_bdd1 e)) (Z.of_nat (m_bdd2 e)) (Z.of_nat (m_op e)).
(** [a->m_bdd1 == b->m_bdd2], as in the source. *)
Definition eq_entry (a b : op_entry) : bool :=
  (m_bdd1 a =? m_bdd2 b) && (m_bdd2 a =? m_bdd2 b) && (m_op a =? m_op b).
(** The comparison of a stored entry with a new one. *)
Definition same_entry (a b : op_entry) : bool := (hash_entry a =? hash_entry b)%Z && eq_entry a b.

Record manager := Manager {
  m_nodes : list bdd_node;
  m_op_cache : list op_entry;
  m_next_entry : nat;
  m_node_table : gmap (nat * nat * nat) nat;
  m_apply_const : list BDD;
  m_bdd_stack : list BDD;
  m_var2bdd : list BDD;
  m_var2level : list nat;
  m_level2var : list nat;
  m_free_nodes : list nat;
  m_disable_gc : bool;
  m_is_new_node : bool;
  m_max_num_bdd_nodes : Z }.

Definition set_nodes (x : list bdd_node) (s : manager) : manager :=
  Manager x (m_op_cache s) (m_next_entry s) (m_node_table s) (m_apply_const s) (m_bdd_stack s)
    (m_var2bdd s) (m_var2level s) (m_level2var s) (m_free_nodes s) (m_disable_gc s) (m_is_new_node s) (m_max_num_bdd_nodes s).
Definition set_op_cache (x : list op_entry) (s : manager) : manager :=
  Manager (m_nodes s) x (m_next_entry s) (m_node_table s) (m_apply_const s) (m_bdd_stack s)
    (m_var2bdd s) (m_var2level s) (m_level2var s) (m_free_nodes s) (m_disable_gc s) (m_is_new_node s) (m_max_num_bdd_nodes s).
Definition set_next_entry (x : nat) (s : manager) : manager :=
  Manager (m_nodes s) (m_op_cache s) x (m_node_table s) (m_apply_const s) (m_bdd_stack s)
    (m_var2bdd s) (m_var2level s) (m_level2var s) (m_free_nodes s) (m_disable_gc s) (m_is_new_node s) (m_max_num_bdd_nodes s).
Definition set_node_table (x : gmap (nat * nat * nat) nat) (s : manager) : manager :=
  Manager (m_nodes s) (m_op_cache s) (m_next_entry s) x (m_apply_const s) (m_bdd_stack s)
    (m_var2bdd s) (m_var2level s) (m_level2var s) (m_free_nodes s) (m_disable_gc s) (m_is_new_node s) (m_max_num_bdd_nodes s).
Definition set_bdd_stack (x : list BDD) (s : manager) : manager :=
  Manager (m_nodes s) (m_op_cache s) (m_next_entry s) (m_node_table s) (m_apply_const s) x
    (m_var2bdd s) (m_var2level s) (m_level2var s) (m_free_nodes s) (m_disable_gc s) (m_is_new_node s) (m_max_num_bdd_nodes s).
Definition set_free_nodes (x : list nat) (s : manager) : manager :=
  Manager (m_nodes s) (m_op_cache s) (m_next_entry s) (m_node_table s) (m_apply_const s) (m_bdd_stack s)
    (m_var2bdd s) (m_var2level s) (m_level2var s) x (m_disable_gc s) (m_is_new_node s) (m_max_num_bdd_nodes s).
Definition set_is_new_node (x : bool) (s : manager) : manager :=
  Manager (m_nodes s) (m_op_cache s) (m_next_entry s) (m_node_table s) (m_apply_const s) (m_bdd_stack s)
    (m_var2bdd s) (m_var2level s) (m_level2var s) (m_free_nodes s) (m_disable_gc s) x (m_max_num_bdd_nodes s).
Definition set_vars (v2b : list BDD) (v2l l2v : list nat) (s : manager) : manager :=
  Manager (m_nodes s) (m_op_cache s) (m_next_entry s) (m_node_table s) (m_apply_const s) (m_bdd_stack s)
    v2b v2l l2v (m_free_nodes s) (m_disable_gc s) (m_is_new_node s) (m_max_num_bdd_nodes s).
Definition set_max_num_nodes (x : Z) (s : manager) : manager :=
  Manager (m_nodes s) (m_op_cache s) (m_next_entry s) (m_node_table s) (m_apply_const s) (m_bdd_stack s)
    (m_var2bdd s) (m_var2level s) (m_level2var s) (m_free_nodes s) (m_disable_gc s) (m_is_new_node s) x.

(** ** Running in a manager *)

Inductive outcome (A : Type) := Done (x : A) (s : manager) | MemOut (s : manager) | Fault.
Arguments Done {A} _ _.
Arguments MemOut {A} _.
Arguments Fault {A}.

Definition B (A : Type) : Type := manager -> outcome A.
#[export] Instance B_ret : MRet B := fun A x s => Done x s.
#[export] Instance B_bind : MBind B := fun A C f m s =>
  match m s with Done x s' => f x s' | MemOut s' => MemOut s' | Fault => Fault end.
Definition fault {A} : B A := fun _ => Fault.
Definition throw_mem_out {A} : B A := fun s => MemOut s.
Definition gets {A} (f : manager -> A) : B A := fun s => Done (f s) s.
Definition modify (f : manager -> manager) : B unit := fun s => Done tt (f s).
(** An element of a vector. *)
Definition at_ {A} (o : option A) : B A := fun s => match o with Some x => Done x s | None => Fault end.

(** ** The manager *)

Module bdd_manager.

Definition is_true (b : BDD) : bool := b =? true_bdd.
Definition is_false (b : BDD) : bool := b =? false_bdd.
Definition is_const (b : BDD) : bool := b <=? 1.

Definition node (b : BDD) : B bdd_node := n ← gets m_nodes; at_ (n !! b).
Definition level (b : BDD) : B nat := n ← node b; mret (m_level n).
Definition lo (b : BDD) : B BDD := n ← node b; mret (m_lo n).
Definition hi (b : BDD) : B BDD := n ← node b; mret (m_hi n).
Definition var (b : BDD) : B nat := l ← level b; v ← gets m_level2var; at_ (v !! l).
Definition level2bdd (l : nat) : B BDD :=
  l2v ← gets m_level2var; v ← at_ (l2v !! l); v2b ← gets m_var2bdd; at_ (v2b !! v).

(** *** Reference counts *)

Definition verify_used (b : BDD) : B unit :=
  f ← gets m_free_nodes; if bool_decide (b ∈ f) then fault else mret tt.
Definition set_rc (b : BDD) (rc : nat) : B unit := modify (fun s => set_nodes (alter (set_refcount rc) b (m_nodes s)) s).
Definition inc_ref (b : BDD) : B unit :=
  n ← node b;
  _ ← (if m_refcount n =? max_rc then mret tt else set_rc b (S (m_refcount n)));
  verify_used b.
(** The count has 10 bits. *)
Definition dec_ref (b : BDD) : B unit :=
  n ← node b;
  _ ← (if m_refcount n =? max_rc then mret tt
       else set_rc b (if m_refcount n =? 0 then max_rc else m_refcount n - 1));
  verify_used b.

(** *** The stack of intermediate results *)

Definition push (b : BDD) : B unit := modify (fun s => set_bdd_stack (b :: m_bdd_stack s) s).
Definition pop (n : nat) : B unit := modify (fun s => set_bdd_stack (drop n (m_bdd_stack s)) s).
Definition read (i : nat) : B BDD := st ← gets m_bdd_stack; at_ (st !! (i - 1)).
(** [~scoped_push] *)
Definition shrink (size : nat) : B unit :=
  modify (fun s => set_bdd_stack (drop (length (m_bdd_stack s) - size) (m_bdd_stack s)) s).

(** *** Nodes *)

Definition alloc_free_nodes (n : nat) : B unit :=
  modify (fun s =>
    let size := length (m_nodes s) in
    set_free_nodes (rev (m_free_nodes s) ++ seq size n)
      (set_nodes (m_nodes s ++ map (fun i => Node 0 0 0 0 i) (seq size n)) s)).

(** Marking from the stack of nodes to visit. *)
Fixpoint gc_loop (fuel : nat) (nodes : list bdd_node) (todo : list BDD) (reachable : gset nat)
    : option (gset nat) :=
  match fuel, todo with
  | O, _ => None
  | S _, [] => Some reachable
  | S fuel', b :: todo =>
      if is_const b then gc_loop fuel' nodes todo reachable
      else
        n ← nodes !! b;
        let visit c '(todo, reachable) :=
          if bool_decide (c ∈ reachable) then (todo, reachable) else (c :: todo, {[c]} ∪ reachable) in
        let '(todo, reachable) := visit (m_hi n) (visit (m_lo n) (todo, reachable)) in
        gc_loop fuel' nodes todo reachable
  end.

(** The nodes with references, in the order they are pushed. *)
Definition referenced (nodes : list bdd_node) : list nat :=
  filter (fun i => 0 < default 0 (m_refcount <$> nodes !! i))
    (rev (seq 2 (length nodes - 2))).

Definition gc_mark (s : manager) : option (gset nat) :=
  let roots := m_bdd_stack s ++ referenced (m_nodes s) in
  gc_loop (S (length (m_nodes s) + length roots)) (m_nodes s) (rev roots) (list_to_set roots).

(** The nodes after the sweep, the free nodes in order of use, the operations under way and the
    table of the nodes left. *)
Definition gc_sweep (reachable : gset nat) (s : manager) : manager :=
  let unreachable := filter (fun i => i ∉ reachable) (seq 2 (length (m_nodes s) - 2)) in
  let nodes := foldr (fun i ns => alter set_internal i ns) (m_nodes s) unreachable in
  let kept := filter (fun i => i ∈ reachable) (seq 2 (length (m_nodes s) - 2)) in
  set_node_table
    (foldr (fun i t => match nodes !! i with Some n => <[node_key n := m_index n]> t | None => t end) ∅ kept)
    (set_op_cache (filter (fun e => m_result e = None) (m_op_cache s))
      (set_free_nodes unreachable (set_nodes nodes s))).

Definition gc : B unit := fun s =>
  match gc_mark s with Some reachable => Done tt (gc_sweep reachable s) | None => Fault end.

(** [m_node_table.insert_if_not_there2] *)
Definition insert_node (n : bdd_node) : B nat := fun s =>
  match m_node_table s !! node_key n with
  | Some i => Done i s
  | None => Done (m_index n) (set_node_table (<[node_key n := m_index n]> (m_node_table s)) s)
  end.

(** When no node is free: the collector runs, which loses the entry of [n] in the table; when less
    than a third of the nodes is free after it, the store grows. *)
Definition make_room (n : bdd_node) : B unit :=
  free ← gets m_free_nodes;
  disable_gc ← gets m_disable_gc;
  let do_gc := bool_decide (free = []) in
  _ ← (if do_gc && negb disable_gc then _ ← gc; _ ← insert_node n; mret tt else mret tt);
  free ← gets m_free_nodes;
  nodes ← gets m_nodes;
  max ← gets m_max_num_bdd_nodes;
  if do_gc && (length free * 3 <? length nodes) then
    if (max <? Z.of_nat (length nodes))%Z then throw_mem_out
    else alloc_free_nodes (length nodes / 2)
  else mret tt.

Definition make_node (lvl : nat) (l h : BDD) : B BDD :=
  _ ← modify (set_is_new_node false);
  if l =? h then mret l
  else
    let n := mk_node lvl l h in
    index ← insert_node n;
    if negb (index =? 0) then mret index
    else
      _ ← make_room n;
      free ← gets m_free_nodes;
      match free with
      | [] => fault
      | result :: free =>
          _ ← modify (set_free_nodes free);
          _ ← modify (fun s => set_node_table (<[node_key n := result]> (m_node_table s)) s);
          _ ← modify (fun s => set_nodes (<[result := Node 0 (m_level n) l h result]> (m_nodes s)) s);
          _ ← modify (set_is_new_node true);
          mret result
      end.

(** *** The operation cache *)

Definition pop_entry (l r : BDD) (op : nat) : B op_entry :=
  id ← gets m_next_entry; _ ← modify (set_next_entry (S id)); mret (Entry id l r op None).

(** [m_op_cache.insert_if_not_there] *)
Definition insert_entry (e : op_entry) : B op_entry := fun s =>
  match list_find (fun x => same_entry x e = true) (m_op_cache s) with
  | Some (_, x) => Done x s
  | None => Done e (set_op_cache (e :: m_op_cache s) s)
  end.

Definition check_result (e1 e2 : op_entry) : bool := negb (e_id e1 =? e_id e2).
Definition set_result (e : op_entry) (r : BDD) : B unit :=
  modify (fun s => set_op_cache
    (map (fun x => if e_id x =? e_id e then Entry (e_id x) (m_bdd1 x) (m_bdd2 x) (m_op x) (Some r) else x)
      (m_op_cache s)) s).

(** The result of an operation from the cache, or from [compute] and stored in its entry. *)
Definition cached (a b : BDD) (op : nat) (compute : B BDD) : B BDD :=
  e1 ← pop_entry a b op;
  e2 ← insert_entry e1;
  if check_result e1 e2 then at_ (m_result e2)
  else r ← compute; _ ← set_result e1 r; mret r.

(** *** Binary operations *)

Definition apply_const (a b : BDD) (op : bdd_op) : BDD :=
  match op with
  | bdd_and_op => if is_true a && is_true b then true_bdd else false_bdd
  | bdd_or_op => if is_true a || is_true b then true_bdd else false_bdd
  | bdd_xor_op => if a =? b then false_bdd else true_bdd
  | _ => false_bdd
  end.

(** The cases without recursion. *)
Definition apply_cases (a b : BDD) (op : bdd_op) : B (option BDD) :=
  match op with
  | bdd_and_op => mret (
      if a =? b then Some a
      else if is_false a || is_false b then Some false_bdd
      else if is_true a then Some b
      else if is_true b then Some a
      else None)
  | bdd_or_op => mret (
      if a =? b then Some a
      else if is_false a then Some b
      else if is_false b then Some a
      else if is_true a || is_true b then Some true_bdd
      else None)
  | bdd_xor_op => mret (
      if a =? b then Some false_bdd
      else if is_false a then Some b
      else if is_false b then Some a
      else None)
  | _ => fault
  end.

(** [make_node(lvl, read(2), read(1))] after the two results are pushed, and [pop(2)]. *)
Definition node_of (lvl : nat) (m1 m2 : B BDD) : B BDD :=
  r1 ← m1; _ ← push r1;
  r2 ← m2; _ ← push r2;
  l ← read 2; h ← read 1;
  r ← make_node lvl l h;
  _ ← pop 2;
  mret r.

Fixpoint apply_rec (fuel : nat) (a b : BDD) (op : bdd_op) : B BDD :=
  match fuel with
  | O => fault
  | S fuel' =>
      c ← apply_cases a b op;
      match c with
      | Some r => mret r
      | None =>
          if is_const a && is_const b then
            t ← gets m_apply_const; at_ (t !! (a + 2 * b + 4 * op_code op))
          else
            cached a b (op_code op)
              (la ← level a; lb ← level b;
               if la =? lb then
                 node_of la (x ← lo a; y ← lo b; apply_rec fuel' x y op)
                            (x ← hi a; y ← hi b; apply_rec fuel' x y op)
               else if lb <? la then
                 node_of la (x ← lo a; apply_rec fuel' x b op) (x ← hi a; apply_rec fuel' x b op)
               else
                 node_of lb (y ← lo b; apply_rec fuel' a y op) (y ← hi b; apply_rec fuel' a y op))
      end
  end.

(** [f] with the stack restored ([scoped_push]). *)
Definition scoped {A} (f : B A) : B A :=
  st ← gets m_bdd_stack; r ← f; _ ← shrink (length st); mret r.

(** One level of the recursion per level of the operands. *)
Definition apply (a b : BDD) (op : bdd_op) : B BDD :=
  la ← level a; lb ← level b; scoped (apply_rec (la + lb + 2) a b op).

(** *** Negation, conditionals, quantifiers *)

Fixpoint mk_not_rec (fuel : nat) (b : BDD) : B BDD :=
  match fuel with
  | O => fault
  | S fuel' =>
      if is_true b then mret false_bdd
      else if is_false b then mret true_bdd
      else
        cached b b (op_code bdd_not_op)
          (lb ← level b;
           node_of lb (x ← lo b; mk_not_rec fuel' x) (x ← hi b; mk_not_rec fuel' x))
  end.
Definition mk_not_top (b : BDD) : B BDD := lb ← level b; mk_not_rec (lb + 2) b.

Fixpoint mk_ite_rec (fuel : nat) (a b c : BDD) : B BDD :=
  match fuel with
  | O => fault
  | S fuel' =>
      if is_true a then mret b
      else if is_false a then mret c
      else if b =? c then mret b
      else if is_true b then apply a c bdd_or_op
      else if is_false c then apply a b bdd_and_op
      else if is_false b then na ← mk_not_top a; apply na c bdd_and_op
      else if is_true c then na ← mk_not_top a; apply na b bdd_or_op
      else
        cached a b c
          (la ← level a; lb ← level b; lc ← level c;
           let top_a := (lb <=? la) && (lc <=? la) in
           let top_b := (la <=? lb) && (lc <=? lb) in
           let top_c := (la <=? lc) && (lb <=? lc) in
           let lvl := if top_c then lc else if top_b then lb else la in
           let child (top : bool) (side : BDD -> B BDD) (x : BDD) := if top then side x else mret x in
           a1 ← child top_a lo a; a2 ← child top_a hi a;
           b1 ← child top_b lo b; b2 ← child top_b hi b;
           c1 ← child top_c lo c; c2 ← child top_c hi c;
           node_of lvl (mk_ite_rec fuel' a1 b1 c1) (mk_ite_rec fuel' a2 b2 c2))
  end.

Fixpoint mk_quant_rec (fuel : nat) (l : nat) (b : BDD) (op : bdd_op) : B BDD :=
  match fuel with
  | O => fault
  | S fuel' =>
      lvl ← level b;
      if is_const b then mret b
      else if lvl =? l then x ← lo b; y ← hi b; apply x y op
      else if lvl <? l then mret b
      else
        a ← level2bdd l;
        let q_op := match op with bdd_and_op => bdd_and_proj_op | _ => bdd_or_proj_op end in
        cached a b (op_code q_op)
          (node_of lvl (x ← lo b; mk_quant_rec fuel' l x op) (x ← hi b; mk_quant_rec fuel' l x op))
  end.

Fixpoint mk_quant (vars : list nat) (b : BDD) (op : bdd_op) : B BDD :=
  match vars with
  | [] => mret b
  | v :: vars =>
      v2l ← gets m_var2level;
      l ← at_ (v2l !! v);
      lb ← level b;
      r ← mk_quant_rec (lb + 2) l b op;
      mk_quant vars r op
  end.

(** *** Variables *)

(** The variables from the next one up to [i]. *)
Fixpoint reserve_loop (n : nat) : B unit :=
  match n with
  | O => mret tt
  | S n' =>
      v2l ← gets m_var2level;
      let v := length v2l in
      p ← make_node v false_bdd true_bdd;
      _ ← modify (fun s => set_vars (m_var2bdd s ++ [p]) (m_var2level s) (m_level2var s) s);
      q ← make_node v true_bdd false_bdd;
      _ ← modify (fun s => set_vars (m_var2bdd s ++ [q]) (m_var2level s) (m_level2var s) s);
      v2b ← gets m_var2bdd;
      p ← at_ (v2b !! (2 * v)); q ← at_ (v2b !! (2 * v + 1));
      _ ← set_rc p max_rc; _ ← set_rc q max_rc;
      _ ← modify (fun s => set_vars (m_var2bdd s) (m_var2level s ++ [v]) (m_level2var s ++ [v]) s);
      reserve_loop n'
  end.
Definition reserve_var (i : nat) : B unit :=
  v2l ← gets m_var2level; reserve_loop (S i - length v2l).

(** *** Construction *)

(** The dummy nodes of the constants and operations. *)
Definition dummy_nodes : list bdd_node := map (fun i => Node max_rc 0 0 0 i) (seq 0 (op_code bdd_no_op + 3)).

Definition apply_const_table : list BDD :=
  foldl (fun t '(a, b, op) => <[a + 2 * b + 4 * op_code op := apply_const a b op]> t)
    (replicate (1 + 2 + 4 * op_code bdd_xor_op + 1) 0)
    (op ← [bdd_and_op; bdd_or_op; bdd_xor_op]; b ← [0; 1]; a ← [0; 1]; [(a, b, op)]).

Definition init_manager : manager :=
  Manager dummy_nodes [] 0 ∅ apply_const_table [] [] [] [] [] false false 16777216.

Definition mk_manager (num_vars : nat) : outcome unit :=
  (_ ← alloc_free_nodes (1024 + num_vars);
   if num_vars =? 0 then mret tt else reserve_var (num_vars - 1)) init_manager.

(** ** Handles: a [bdd] is its root, counted *)

Definition mk_bdd (root : BDD) : B BDD := _ ← inc_ref root; mret root.
Definition del_bdd (b : BDD) : B unit := dec_ref b.
(** [operator=] *)
Definition assign (b other : BDD) : B BDD := _ ← inc_ref other; _ ← dec_ref b; mret other.

Definition mk_true : B BDD := mk_bdd true_bdd.
Definition mk_false : B BDD := mk_bdd false_bdd.
Definition mk_and (a b : BDD) : B BDD := r ← apply a b bdd_and_op; mk_bdd r.
Definition mk_or (a b : BDD) : B BDD := r ← apply a b bdd_or_op; mk_bdd r.
Definition mk_xor (a b : BDD) : B BDD := r ← apply a b bdd_xor_op; mk_bdd r.
(** The argument is a copy. *)
Definition mk_not (b : BDD) : B BDD :=
  b ← mk_bdd b;
  r ← scoped (r ← mk_not_top b; mk_bdd r);
  _ ← del_bdd b;
  mret r.
Definition mk_ite (c t e : BDD) : B BDD :=
  lc ← level c; lt ← level t; le ← level e;
  scoped (r ← mk_ite_rec (lc + lt + le + 3) c t e; mk_bdd r).
Definition mk_exists (vars : list nat) (b : BDD) : B BDD := r ← mk_quant vars b bdd_or_op; mk_bdd r.
Definition mk_forall (vars : list nat) (b : BDD) : B BDD := r ← mk_quant vars b bdd_and_op; mk_bdd r.
Definition mk_var (i : nat) : B BDD :=
  _ ← reserve_var i; v2b ← gets m_var2bdd; r ← at_ (v2b !! (2 * i)); mk_bdd r.
Definition mk_nvar (i : nat) : B BDD :=
  _ ← reserve_var i; v2b ← gets m_var2bdd; r ← at_ (v2b !! (2 * i + 1)); mk_bdd r.

(** *** Sizes *)

(** [bdd_size]: the marks are the set of nodes counted. *)
Fixpoint size_loop (fuel : nat) (nodes : list bdd_node) (todo : list BDD) (marked : gset nat) (sz : nat)
    : option nat :=
  match fuel, todo with
  | O, _ => None
  | S _, [] => Some sz
  | S fuel', r :: todo =>
      if bool_decide (r ∈ marked) then size_loop fuel' nodes todo marked sz
      else
        n ← nodes !! r;
        let marked := {[r]} ∪ marked in
        let visit c todo := if bool_decide (c ∈ marked) then todo else c :: todo in
        size_loop fuel' nodes (visit (m_hi n) (visit (m_lo n) todo)) marked (S sz)
  end.
Definition bdd_size (b : BDD) : B nat :=
  nodes ← gets m_nodes; at_ (size_loop (2 * length nodes + 2) nodes [b] {[0; 1]} 0).

(** The debug check. *)
Definition well_formed (s : manager) : bool :=
  let internal b := match m_nodes s !! b with Some n => is_internal n | None => false end in
  let below b lvl := match m_nodes s !! b with Some n => m_level n <? lvl | None => false end in
  forallb (fun f => match m_nodes s !! f with
                    | Some n => is_internal n && (m_refcount n =? 0) | None => false end) (m_free_nodes s) &&
  forallb (fun n => is_internal n ||
    ((is_const (m_lo n) || below (m_lo n) (m_level n)) && (is_const (m_hi n) || below (m_hi n) (m_level n)) &&
     (is_const (m_lo n) || negb (internal (m_lo n))) && (is_const (m_hi n) || negb (internal (m_hi n)))))
    (m_nodes s).

End bdd_manager.
