(* ===== verification/BddProofs.v ===== *)
(** * BddProofs: the node store of [bdd_manager] and the functions its nodes denote *)
From S2P Require Import Prelude.
From S2P Require Import Bdd.
From Stdlib Require Import ZArith Lia.
From stdpp Require Import base tactics option list numbers gmap sets.
Import bdd_manager.

(** ** Diagrams and the boolean functions they denote *)

Module Import diagrams.

(** An assignment gives a truth value to each level. *)
Definition assignment := nat -> bool.
Definition set_level (l : nat) (v : bool) (ρ : assignment) : assignment :=
  fun k => if k =? l then v else ρ k.

Definition lvl (ns : list bdd_node) (b : BDD) : nat := default 0 (m_level <$> ns !! b).
Definition rc (ns : list bdd_node) (b : BDD) : nat := default 0 (m_refcount <$> ns !! b).

(** A node made by [make_node], and not freed; a diagram. *)
Definition used (ns : list bdd_node) (b : BDD) : Prop :=
  11 <= b /\ exists n, ns !! b = Some n /\ m_lo n <> m_hi n.
Definition valid (ns : list bdd_node) (b : BDD) : Prop := b <= 1 \/ used ns b.

(** The height of a diagram: constants are below every level. *)
Definition rank (ns : list bdd_node) (b : BDD) : nat := if b <=? 1 then 0 else S (lvl ns b).

(** A diagram that a node at level [l] may have as a child. *)
Definition child_ok (ns : list bdd_node) (l : nat) (c : BDD) : Prop := valid ns c /\ rank ns c <= l.

Definition level_ok (l : nat) : Prop := (N.of_nat l < 4194304)%N.

Record nodes_ok (ns : list bdd_node) : Prop := {
  nodes_dummy : forall i, i < 11 -> ns !! i = Some (Node max_rc 0 0 0 i);
  nodes_index : forall i n, ns !! i = Some n -> m_index n = i;
  nodes_node : forall i n, ns !! i = Some n -> 11 <= i ->
    (m_lo n = 0 /\ m_hi n = 0) \/
    (m_lo n <> m_hi n /\ level_ok (m_level n) /\
     child_ok ns (m_level n) (m_lo n) /\ child_ok ns (m_level n) (m_hi n)) }.

(** No two nodes for the same triple. *)
Definition nodes_unique (ns : list bdd_node) : Prop := forall i j n m,
  ns !! i = Some n -> ns !! j = Some m -> used ns i -> used ns j -> node_key n = node_key m -> i = j.

Fixpoint eval (ns : list bdd_node) (fuel : nat) (b : BDD) (ρ : assignment) : bool :=
  match fuel with
  | O => false
  | S fuel' =>
      if b =? 1 then true
      else if b =? 0 then false
      else match ns !! b with
           | Some n => eval ns fuel' (if ρ (m_level n) then m_hi n else m_lo n) ρ
           | None => false
           end
  end.

(** The function a diagram denotes. *)
Definition den (ns : list bdd_node) (b : BDD) (ρ : assignment) : bool := eval ns (S (rank ns b)) b ρ.

Lemma used_lookup ns b : used ns b -> exists n, ns !! b = Some n /\ m_lo n <> m_hi n /\
  lvl ns b = m_level n /\ rank ns b = S (m_level n).
Proof.
  intros (Hb & n & E & Hn). exists n. unfold rank, lvl. rewrite E. cbn.
  destruct (Nat.leb_spec b 1); [lia|done].
Qed.

Lemma rank_const ns b : b <= 1 -> rank ns b = 0.
Proof. intros Hb. unfold rank. by destruct (Nat.leb_spec b 1); [|lia]. Qed.

Lemma used_gt ns b : used ns b -> 1 < b.
Proof. intros [? _]. lia. Qed.

Lemma valid_bound ns b : nodes_ok ns -> valid ns b -> b < length ns.
Proof.
  intros Hok [Hb|(_ & n & E & _)]; [|by eapply lookup_lt_Some].
  eapply lookup_lt_Some, (nodes_dummy ns Hok). lia.
Qed.

Lemma used_children ns b n : nodes_ok ns -> used ns b -> ns !! b = Some n ->
  level_ok (m_level n) /\ child_ok ns (m_level n) (m_lo n) /\ child_ok ns (m_level n) (m_hi n).
Proof.
  intros Hok (Hb & m & E & Hn) E'. assert (m = n) as -> by congruence. destruct (nodes_node ns Hok b n E' Hb) as [[? ?]|(_ & ?)]; [congruence|done].
Qed.

Lemma eval_enough ns : nodes_ok ns -> forall f1 f2 b ρ, valid ns b -> rank ns b < f1 -> rank ns b < f2 ->
  eval ns f1 b ρ = eval ns f2 b ρ.
Proof.
  intros Hok. induction f1 as [|f1 IH]; intros [|f2] b ρ Hv H1 H2; try lia. cbn [eval].
  destruct (Nat.eqb_spec b 1) as [|N1]; [done|]. destruct (Nat.eqb_spec b 0) as [|N0]; [done|].
  destruct Hv as [?|Hu]; [lia|]. destruct (used_lookup ns b Hu) as (n & E & Hn & _ & Hr). rewrite E.
  destruct (used_children ns b n Hok Hu E) as (_ & [Vl Rl] & [Vh Rh]).
  destruct (ρ (m_level n)); apply IH; try done; lia.
Qed.

Lemma den_true ns ρ : den ns 1 ρ = true.
Proof. done. Qed.
Lemma den_false ns ρ : den ns 0 ρ = false.
Proof. done. Qed.

Lemma den_node ns b n ρ : nodes_ok ns -> used ns b -> ns !! b = Some n ->
  den ns b ρ = if ρ (m_level n) then den ns (m_hi n) ρ else den ns (m_lo n) ρ.
Proof.
  intros Hok Hu E. destruct (used_lookup ns b Hu) as (m & E' & _ & _ & Hr). assert (m = n) as -> by congruence.
  destruct (used_children ns b n Hok Hu E) as (_ & [Vl Rl] & [Vh Rh]). unfold den at 1. cbn [eval].
  apply used_gt in Hu. destruct (Nat.eqb_spec b 1); [lia|]. destruct (Nat.eqb_spec b 0); [lia|]. rewrite E.
  destruct (ρ (m_level n)); apply eval_enough; try done; lia.
Qed.

(** A diagram depends on the levels under its rank only. *)
Lemma eval_agree ns f : nodes_ok ns -> forall b ρ ρ', valid ns b ->
  (forall l, l < rank ns b -> ρ l = ρ' l) -> eval ns f b ρ = eval ns f b ρ'.
Proof.
  intros Hok. induction f as [|f IH]; intros b ρ ρ' Hv Hρ; [done|]. cbn [eval].
  destruct (Nat.eqb_spec b 1) as [|N1]; [done|]. destruct (Nat.eqb_spec b 0) as [|N0]; [done|].
  destruct Hv as [?|Hu]; [lia|]. destruct (used_lookup ns b Hu) as (n & E & Hn & _ & Hr). rewrite E.
  destruct (used_children ns b n Hok Hu E) as (_ & [Vl Rl] & [Vh Rh]).
  rewrite (Hρ (m_level n)) by lia.
  destruct (ρ' (m_level n)); apply IH; try done; intros l Hl; apply Hρ; lia.
Qed.

Lemma den_agree ns b ρ ρ' : nodes_ok ns -> valid ns b ->
  (forall l, l < rank ns b -> ρ l = ρ' l) -> den ns b ρ = den ns b ρ'.
Proof. intros Hok Hv Hρ. by apply eval_agree. Qed.

Lemma den_set_level ns b l v ρ : nodes_ok ns -> valid ns b -> rank ns b <= l ->
  den ns b (set_level l v ρ) = den ns b ρ.
Proof.
  intros Hok Hv Hl. apply den_agree; [done|done|]. intros k Hk. unfold set_level.
  destruct (Nat.eqb_spec k l); [lia|done].
Qed.

(** The cofactors of a node are its children. *)
Lemma den_cofactor ns b n v ρ : nodes_ok ns -> used ns b -> ns !! b = Some n ->
  den ns b (set_level (m_level n) v ρ) = den ns (if v then m_hi n else m_lo n) ρ.
Proof.
  intros Hok Hu E. rewrite (den_node ns b n _ Hok Hu E). unfold set_level at 1. rewrite Nat.eqb_refl.
  destruct (used_children ns b n Hok Hu E) as (_ & [Vl Rl] & [Vh Rh]). by destruct v; apply den_set_level.
Qed.

(** ** Canonicity *)

Lemma const_canonical ns a b : a <= 1 -> b <= 1 -> den ns a (fun _ => false) = den ns b (fun _ => false) -> a = b.
Proof.
  intros Ha Hb. assert (a = 0 \/ a = 1) as [-> | ->] by lia; assert (b = 0 \/ b = 1) as [-> | ->] by lia; done.
Qed.

(** A node above the rank of an equal diagram would have equal children. *)
Lemma node_depends ns n : nodes_ok ns ->
  (forall a b, valid ns a -> valid ns b -> rank ns a <= n -> rank ns b <= n ->
    (forall ρ, den ns a ρ = den ns b ρ) -> a = b) ->
  forall a b, used ns a -> valid ns b -> rank ns a <= S n -> rank ns b < rank ns a ->
  (forall ρ, den ns a ρ = den ns b ρ) -> False.
Proof.
  intros Hok IH a b Ha Hb Hn Hr Heq. destruct (used_lookup ns a Ha) as (x & E & Hx & _ & Hra).
  destruct (used_children ns a x Hok Ha E) as (_ & [Vl Rl] & [Vh Rh]).
  apply Hx, IH; [done|done|lia|lia|]. intros ρ.
  pose proof (den_cofactor ns a x false ρ Hok Ha E) as E0. pose proof (den_cofactor ns a x true ρ Hok Ha E) as E1.
  cbv iota in E0, E1. rewrite <- E0, <- E1, !Heq, !den_set_level; [done|done|done|lia|done|done|lia].
Qed.

Lemma canonical ns : nodes_ok ns -> nodes_unique ns -> forall a b, valid ns a -> valid ns b ->
  (forall ρ, den ns a ρ = den ns b ρ) -> a = b.
Proof.
  intros Hok Hun. assert (forall n a b, valid ns a -> valid ns b -> rank ns a <= n -> rank ns b <= n ->
    (forall ρ, den ns a ρ = den ns b ρ) -> a = b) as Hall; [|intros a b ? ? ?; by apply (Hall (max (rank ns a) (rank ns b))); try lia].
  induction n as [|n IH]; intros a b Va Vb Ra Rb Heq.
  - destruct Va as [Ha|Ha]; [|destruct (used_lookup ns a Ha) as (? & _ & _ & _ & ?); lia].
    destruct Vb as [Hb|Hb]; [|destruct (used_lookup ns b Hb) as (? & _ & _ & _ & ?); lia].
    by eapply const_canonical.
  - destruct Va as [Ha|Ha], Vb as [Hb|Hb].
    + by eapply const_canonical.
    + exfalso. eapply (node_depends ns n Hok IH b a); [done|by left|done| |done].
      destruct (used_lookup ns b Hb) as (? & _ & _ & _ & ->). rewrite rank_const by done. lia.
    + exfalso. eapply (node_depends ns n Hok IH a b); [done|by left|done| |done].
      destruct (used_lookup ns a Ha) as (? & _ & _ & _ & ->). rewrite rank_const by done. lia.
    + destruct (lt_eq_lt_dec (rank ns a) (rank ns b)) as [[Hlt|Hr]|Hlt].
      { exfalso. eapply (node_depends ns n Hok IH b a); [done|by right|done|done|done]. }
      2: { exfalso. eapply (node_depends ns n Hok IH a b); [done|by right|done|done|done]. }
      destruct (used_lookup ns a Ha) as (x & Ex & _ & _ & Rx). destruct (used_lookup ns b Hb) as (y & Ey & _ & _ & Ry).
      destruct (used_children ns a x Hok Ha Ex) as (_ & [Vxl Rxl] & [Vxh Rxh]).
      destruct (used_children ns b y Hok Hb Ey) as (_ & [Vyl Ryl] & [Vyh Ryh]).
      assert (m_level x = m_level y) as El by lia.
      apply (Hun a b x y); [done..|]. unfold node_key. rewrite El. f_equal; [f_equal|].
      * apply IH; [done|done|lia|lia|]. intros ρ. pose proof (den_cofactor ns a x false ρ Hok Ha Ex) as E1.
        pose proof (den_cofactor ns b y false ρ Hok Hb Ey) as E2. cbv iota in E1, E2. by rewrite <- E1, <- E2, El.
      * apply IH; [done|done|lia|lia|]. intros ρ. pose proof (den_cofactor ns a x true ρ Hok Ha Ex) as E1.
        pose proof (den_cofactor ns b y true ρ Hok Hb Ey) as E2. cbv iota in E1, E2. by rewrite <- E1, <- E2, El.
Qed.

End diagrams.

(** ** Reachability and the invariant *)

Module Import heap_inv.

Inductive reach (ns : list bdd_node) (R : nat -> Prop) : nat -> Prop :=
  | reach_root b : R b -> reach ns R b
  | reach_lo b n : reach ns R b -> 1 < b -> ns !! b = Some n -> reach ns R (m_lo n)
  | reach_hi b n : reach ns R b -> 1 < b -> ns !! b = Some n -> reach ns R (m_hi n).

(** The roots of the collector: the stack and the nodes with references. *)
Definition root (s : manager) (b : nat) : Prop :=
  b ∈ m_bdd_stack s \/ (2 <= b /\ 0 < rc (m_nodes s) b).
(** What the collector keeps. *)
Definition prot (s : manager) (b : nat) : Prop := b <= 1 \/ reach (m_nodes s) (root s) b.
Definition live (s : manager) (b : nat) : Prop := prot s b /\ valid (m_nodes s) b.

(** The operations under way. *)
Definition pending (s : manager) : list op_entry := filter (fun e => m_result e = None) (m_op_cache s).

Definition not_code : nat := op_code bdd_not_op.

Record cache_ok (s : manager) : Prop := {
  cache_ids : NoDup (map e_id (m_op_cache s));
  cache_next : forall e, e ∈ m_op_cache s -> e_id e < m_next_entry s;
  (** only negations have equal operands *)
  cache_shape : forall e, e ∈ m_op_cache s -> m_bdd1 e = m_bdd2 e -> m_op e = not_code;
  cache_not : forall e r, e ∈ m_op_cache s -> m_op e = not_code -> m_result e = Some r ->
    m_bdd1 e = m_bdd2 e /\ valid (m_nodes s) (m_bdd1 e) /\ valid (m_nodes s) r /\
    rank (m_nodes s) r <= rank (m_nodes s) (m_bdd1 e) /\
    forall ρ, den (m_nodes s) r ρ = negb (den (m_nodes s) (m_bdd1 e) ρ) }.

Record free_ok (s : manager) : Prop := {
  free_nodup : NoDup (m_free_nodes s);
  free_node : forall i, i ∈ m_free_nodes s -> 11 <= i /\ exists n, m_nodes s !! i = Some n /\
    m_lo n = 0 /\ m_hi n = 0 /\ m_refcount n = 0 }.

(** The literals of the variables, in their initial order. *)
Record vars_ok (s : manager) : Prop := {
  vars_level : m_var2level s = seq 0 (length (m_var2level s));
  vars_var : m_level2var s = m_var2level s;
  vars_length : 2 * length (m_var2level s) <= length (m_var2bdd s);
  vars_bdd : forall v b, v < length (m_var2level s) -> m_var2bdd s !! (2 * v) = Some b -> used (m_nodes s) b /\
    exists n, m_nodes s !! b = Some n /\ m_refcount n = max_rc /\ node_key n = (v, 0, 1);
  vars_nbdd : forall v b, v < length (m_var2level s) -> m_var2bdd s !! (2 * v + 1) = Some b -> used (m_nodes s) b /\
    exists n, m_nodes s !! b = Some n /\ m_refcount n = max_rc /\ node_key n = (v, 1, 0) }.

(** The invariant without the node table. *)
Record core_ok (s : manager) : Prop := {
  core_nodes : nodes_ok (m_nodes s);
  core_unique : nodes_unique (m_nodes s);
  core_free : free_ok s;
  core_cache : cache_ok s;
  core_vars : vars_ok s;
  core_stack : forall b, b ∈ m_bdd_stack s -> valid (m_nodes s) b;
  core_refs : forall b, 11 <= b -> 0 < rc (m_nodes s) b -> used (m_nodes s) b;
  core_gc : m_disable_gc s = false }.

(** The table finds the used nodes; [k] is a triple being inserted. *)
Record table_but (k : option (nat * nat * nat)) (s : manager) : Prop := {
  table_sound : forall l a b i, a <> b -> Some (l, a, b) <> k -> m_node_table s !! (l, a, b) = Some i ->
    used (m_nodes s) i /\ exists n, m_nodes s !! i = Some n /\ node_key n = (l, a, b);
  table_complete : forall i n, used (m_nodes s) i -> m_nodes s !! i = Some n ->
    Some (node_key n) <> k /\ m_node_table s !! node_key n = Some i }.

Record wf (s : manager) : Prop := { wf_core : core_ok s; wf_table : table_but None s }.

(** ** What an operation leaves alone *)

(** Everything but the nodes, the table, the cache, the free list and flags. *)
Record same_rest (s s' : manager) : Prop := {
  same_stack : m_bdd_stack s' = m_bdd_stack s;
  same_v2b : m_var2bdd s' = m_var2bdd s;
  same_v2l : m_var2level s' = m_var2level s;
  same_l2v : m_level2var s' = m_level2var s;
  same_const : m_apply_const s' = m_apply_const s;
  same_max : m_max_num_bdd_nodes s' = m_max_num_bdd_nodes s;
  same_gc : m_disable_gc s' = m_disable_gc s }.

(** The protected nodes, and all reference counts, stay. *)
Record frame (s s' : manager) : Prop := {
  frame_rest : same_rest s s';
  frame_prot : forall b, prot s b -> m_nodes s' !! b = m_nodes s !! b;
  frame_rc : forall b, rc (m_nodes s') b = rc (m_nodes s) b }.

Lemma same_rest_refl s : same_rest s s.
Proof. done. Qed.
Lemma same_rest_trans s1 s2 s3 : same_rest s1 s2 -> same_rest s2 s3 -> same_rest s1 s3.
Proof. intros [] []. split; congruence. Qed.

Lemma frame_refl s : frame s s.
Proof. by split. Qed.

Lemma root_frame s s' b : frame s s' -> root s b <-> root s' b.
Proof. intros F. unfold root. by rewrite (same_stack _ _ (frame_rest _ _ F)), (frame_rc _ _ F). Qed.

Lemma reach_frame s s' b : frame s s' -> reach (m_nodes s) (root s) b -> reach (m_nodes s') (root s') b.
Proof.
  intros F. induction 1 as [b Hb|b n Hb IH H1 E|b n Hb IH H1 E].
  - apply reach_root. by apply (root_frame s s').
  - apply reach_lo with b; [done|done|]. by rewrite (frame_prot s s' F) by by right.
  - apply reach_hi with b; [done|done|]. by rewrite (frame_prot s s' F) by by right.
Qed.

Lemma prot_frame s s' b : frame s s' -> prot s b -> prot s' b.
Proof. intros F [Hb|Hb]; [by left|right; by eapply reach_frame]. Qed.

Lemma frame_trans s1 s2 s3 : frame s1 s2 -> frame s2 s3 -> frame s1 s3.
Proof.
  intros F1 F2. split.
  - eapply same_rest_trans; [apply F1|apply F2].
  - intros b Hb. rewrite (frame_prot _ _ F2) by by eapply prot_frame. by apply F1.
  - intros b. by rewrite (frame_rc _ _ F2), (frame_rc _ _ F1).
Qed.

Lemma prot_const s b : b <= 1 -> prot s b.
Proof. by left. Qed.

Lemma prot_child s b n : prot s b -> used (m_nodes s) b -> m_nodes s !! b = Some n ->
  prot s (m_lo n) /\ prot s (m_hi n).
Proof.
  intros [Hb|Hb] Hu E; apply used_gt in Hu as Hu'; [lia|]. split; right; [by eapply reach_lo|by eapply reach_hi].
Qed.

(** Agreement of two stores on what is reachable from [b]. *)
Lemma valid_agree ns ns' b : ns' !! b = ns !! b -> valid ns b -> valid ns' b.
Proof. intros E [Hb|(Hb & n & E' & Hn)]; [by left|right]. split; [done|]. exists n. by rewrite E. Qed.

Lemma rank_agree ns ns' b : ns' !! b = ns !! b -> rank ns' b = rank ns b.
Proof. intros E. unfold rank, lvl. by rewrite E. Qed.

Lemma eval_closed ns ns' (P : nat -> Prop) : (forall b, P b -> ns' !! b = ns !! b) ->
  (forall b n, P b -> 1 < b -> ns !! b = Some n -> P (m_lo n) /\ P (m_hi n)) ->
  forall f b ρ, P b -> eval ns' f b ρ = eval ns f b ρ.
Proof.
  intros Hs Hc. induction f as [|f IH]; intros b ρ Hb; [done|]. cbn [eval].
  destruct (Nat.eqb_spec b 1) as [|N1]; [done|]. destruct (Nat.eqb_spec b 0) as [|N0]; [done|].
  rewrite (Hs b Hb). destruct (ns !! b) as [n|] eqn:E; [|done].
  destruct (Hc b n Hb) as [Hl Hh]; [lia|done|]. by destruct (ρ (m_level n)); apply IH.
Qed.

Lemma den_closed ns ns' (P : nat -> Prop) b ρ : (forall b, P b -> ns' !! b = ns !! b) ->
  (forall b n, P b -> 1 < b -> ns !! b = Some n -> P (m_lo n) /\ P (m_hi n)) -> P b ->
  den ns' b ρ = den ns b ρ.
Proof. intros Hs Hc Hb. unfold den. rewrite (rank_agree ns ns') by auto. by eapply eval_closed. Qed.

(** Later states: what was protected still is, and is unchanged; the variables are the same. *)
Record later (s s' : manager) : Prop := {
  later_prot : forall b, prot s b -> prot s' b;
  later_node : forall b, prot s b -> m_nodes s' !! b = m_nodes s !! b;
  later_v2b : m_var2bdd s' = m_var2bdd s;
  later_v2l : m_var2level s' = m_var2level s;
  later_l2v : m_level2var s' = m_level2var s;
  later_rc : forall b, rc (m_nodes s') b = rc (m_nodes s) b }.

Lemma frame_later s s' : frame s s' -> later s s'.
Proof.
  intros F. pose proof (frame_rest _ _ F) as []. split; try done; [|apply F|apply F].
  intros b. by apply prot_frame.
Qed.

Lemma later_refl s : later s s.
Proof. by split. Qed.

Lemma later_trans s1 s2 s3 : later s1 s2 -> later s2 s3 -> later s1 s3.
Proof.
  intros [A1 A2 A3 A4 A5 A6] [B1 B2 B3 B4 B5 B6]. split; try congruence; [by auto|].
  intros b Hb. rewrite B2, A2; auto.
Qed.

Section Frames.
Context (s s' : manager) (F : later s s').

Lemma live_later b : live s b -> live s' b.
Proof. intros [Hp Hv]. split; [by apply F|]. eapply valid_agree; [|done]. by apply F. Qed.

Lemma rank_later b : prot s b -> rank (m_nodes s') b = rank (m_nodes s) b.
Proof. intros Hp. by apply rank_agree, F. Qed.

Lemma den_later b ρ : prot s b -> den (m_nodes s') b ρ = den (m_nodes s) b ρ.
Proof.
  eapply (den_closed _ _ (prot s)); [apply F|]. intros c n [Hc|Hc] H1 E; [lia|].
  split; right; [by eapply reach_lo|by eapply reach_hi].
Qed.

Lemma child_later l b : prot s b -> child_ok (m_nodes s) l b -> child_ok (m_nodes s') l b.
Proof. intros Hp [Hv Hr]. split; [by eapply valid_agree; [apply F|]|]. by rewrite rank_later. Qed.

End Frames.

(** ** Extension of the store: all diagrams stay *)

Definition grows (ns ns' : list bdd_node) : Prop :=
  forall b, b < 11 \/ used ns b -> ns' !! b = ns !! b.

Lemma grows_valid ns ns' b : grows ns ns' -> valid ns b -> valid ns' b.
Proof. intros G Hv. eapply valid_agree; [|done]. apply G. destruct Hv; [left; lia|by right]. Qed.

Lemma grows_rank ns ns' b : grows ns ns' -> valid ns b -> rank ns' b = rank ns b.
Proof. intros G Hv. apply rank_agree, G. destruct Hv; [left; lia|by right]. Qed.

Lemma grows_den ns ns' b ρ : nodes_ok ns -> grows ns ns' -> valid ns b -> den ns' b ρ = den ns b ρ.
Proof.
  intros Hok G. apply (den_closed ns ns' (valid ns)).
  - intros c [Hc|Hc]; apply G; [left; lia|by right].
  - intros c n [Hc|Hc] H1 E; [lia|]. by destruct (used_children ns c n Hok Hc E) as (_ & [? _] & [? _]).
Qed.

Lemma grows_child ns ns' l b : grows ns ns' -> child_ok ns l b -> child_ok ns' l b.
Proof. intros G [Hv Hr]. split; [by eapply grows_valid|]. by rewrite (grows_rank ns). Qed.

(** The protected nodes are used, or below the first node. *)
Lemma prot_used s b : core_ok s -> prot s b -> b < 11 \/ used (m_nodes s) b.
Proof.
  intros C [Hb|Hb]; [left; lia|]. assert (forall c, valid (m_nodes s) c -> c < 11 \/ used (m_nodes s) c) as Hv.
  { intros c [?|?]; [left; lia|by right]. }
  assert (forall c n, (c < 11 \/ used (m_nodes s) c) -> m_nodes s !! c = Some n ->
    (m_lo n < 11 \/ used (m_nodes s) (m_lo n)) /\ (m_hi n < 11 \/ used (m_nodes s) (m_hi n))) as Hc.
  { intros c n [Hc|Hc] E.
    - rewrite (nodes_dummy _ (core_nodes _ C) c Hc) in E. injection E as <-. cbn. split; left; lia.
    - destruct (used_children _ c n (core_nodes _ C) Hc E) as (_ & [? _] & [? _]). auto. }
  induction Hb as [b Hb|b n Hb IH H1 E|b n Hb IH H1 E]; [|by apply (Hc b n)|by apply (Hc b n)].
  destruct Hb as [Hb|[Hb Hr]]; [by apply Hv, (core_stack s C)|].
  destruct (decide (b < 11)); [by left|right]. apply (core_refs s C); [lia|done].
Qed.

Lemma grows_frame s s' : core_ok s -> same_rest s s' -> grows (m_nodes s) (m_nodes s') ->
  (forall b, rc (m_nodes s') b = rc (m_nodes s) b) -> frame s s'.
Proof. intros C Hs G Hr. split; [done| |done]. intros b Hb. by apply G, prot_used. Qed.

End heap_inv.

(** ** Garbage collection *)

Module Import collection.

(** Every index in the store. *)
Definition bounded (ns : list bdd_node) : Prop :=
  forall i n, ns !! i = Some n -> m_lo n < length ns /\ m_hi n < length ns.

Lemma nodes_bounded ns : nodes_ok ns -> bounded ns.
Proof.
  intros Hok i n E. assert (0 < length ns) as H0.
  { eapply lookup_lt_Some, (nodes_dummy ns Hok 0). lia. }
  destruct (decide (i < 11)) as [Hi|Hi].
  - rewrite (nodes_dummy ns Hok i Hi) in E. by injection E as <-.
  - destruct (nodes_node ns Hok i n E) as [[-> ->]|(_ & _ & [Vl _] & [Vh _])]; [lia|done|].
    split; by apply valid_bound.
Qed.

Section Mark.
Context (ns : list bdd_node) (R0 : nat -> Prop) (Hb : bounded ns).

Definition closed_but (todo : list nat) (R : gset nat) : Prop :=
  forall x n, x ∈ R -> x ∉ todo -> 1 < x -> ns !! x = Some n -> m_lo n ∈ R /\ m_hi n ∈ R.

(** The invariant of marking. *)
Record mark_inv (todo : list nat) (R : gset nat) : Prop := {
  mark_reach : forall x, x ∈ R -> reach ns R0 x;
  mark_todo : forall x, x ∈ todo -> x ∈ R;
  mark_closed : closed_but todo R;
  mark_range : forall x, x ∈ R -> x < length ns }.

Lemma range_size (R : gset nat) : (forall x, x ∈ R -> x < length ns) -> size R <= length ns.
Proof.
  intros Hr. rewrite <- (size_set_seq (C := gset nat) 0 (length ns)). apply subseteq_size.
  intros x Hx. apply elem_of_set_seq. specialize (Hr x Hx). lia.
Qed.

Definition visit (c : nat) (st : list nat * gset nat) : list nat * gset nat :=
  let '(todo, R) := st in if bool_decide (c ∈ R) then (todo, R) else (c :: todo, {[c]} ∪ R).

(** Visiting a child marks it, for one more node to visit and to count. *)
Lemma visit_spec c todo (R : gset nat) :
  let '(todo', R') := visit c (todo, R) in
  (forall x, x ∈ R' <-> x ∈ R \/ x = c) /\ (forall x, x ∈ todo' <-> x ∈ todo \/ (x = c /\ c ∉ R)) /\
  length todo' + size R = length todo + size R'.
Proof.
  unfold visit. destruct (bool_decide (c ∈ R)) eqn:E.
  - apply bool_decide_eq_true in E. split_and!; [|intros x|done].
    + intros x. split; [by left|]. by intros [?| ->].
    + split; [by left|]. by intros [?|[_ ?]].
  - apply bool_decide_eq_false in E. split_and!.
    + intros x. rewrite elem_of_union, elem_of_singleton. tauto.
    + intros x. rewrite elem_of_cons. split; [intros [->|?]; auto|]. intros [?|[-> _]]; auto.
    + rewrite size_union by set_solver. rewrite size_singleton. cbn. lia.
Qed.

Lemma mark_pop_const b todo R : b <= 1 -> mark_inv (b :: todo) R -> mark_inv todo R.
Proof.
  intros H1 []. split; try done; [intros x Hx; apply mark_todo0; by right|].
  intros x n Hx Hn Hlt E. apply (mark_closed0 x n Hx); [|done|done]. rewrite elem_of_cons. intros [->|?]; [lia|done].
Qed.

Lemma mark_pop b n todo R : ns !! b = Some n -> 1 < b -> mark_inv (b :: todo) R ->
  let '(todo', R') := visit (m_hi n) (visit (m_lo n) (todo, R)) in
  mark_inv todo' R' /\ (forall x, x ∈ R -> x ∈ R') /\ length todo' + size R = length todo + size R'.
Proof.
  intros E H1 []. pose proof (visit_spec (m_lo n) todo R) as S1.
  destruct (visit (m_lo n) (todo, R)) as [t1 R1]. destruct S1 as (A1 & A2 & A3).
  pose proof (visit_spec (m_hi n) t1 R1) as S2.
  destruct (visit (m_hi n) (t1, R1)) as [t2 R2]. destruct S2 as (B1 & B2 & B3).
  assert (b ∈ R) as Hbin by (apply mark_todo0; by left).
  split; [|split; [|lia]].
  2: { intros x Hx. apply B1. left. apply A1. by left. }
  split.
  - intros x [[Hx| ->]%A1| ->]%B1; [by apply mark_reach0|eapply reach_lo; eauto|eapply reach_hi; eauto].
  - intros x [[Hx|[-> _]]%A2|[-> _]]%B2; apply B1; [left; apply A1; left; apply mark_todo0; by right|left; apply A1; by right|by right].
  - intros x m Hx Hn Hlt Em. assert (m_lo n ∈ R2 /\ m_hi n ∈ R2) as Hch.
    { split; apply B1; [left; apply A1|]; by right. }
    destruct (decide (x = b)) as [->|Hne]; [by simplify_eq|].
    assert (x ∈ R -> m_lo m ∈ R2 /\ m_hi m ∈ R2) as Hold.
    { intros HxR. destruct (mark_closed0 x m HxR) as [? ?]; [|done|done|split; apply B1; left; apply A1; by left].
      rewrite elem_of_cons. intros [?|Ht]; [done|]. apply Hn, B2. left. apply A2. by left. }
    apply B1 in Hx as [[Hx| ->]%A1| ->]; [by apply Hold| |].
    + destruct (decide (m_lo n ∈ R)) as [|Hnew]; [by apply Hold|]. destruct Hn. apply B2. left. apply A2. by right.
    + destruct (decide (m_hi n ∈ R1)) as [Hin|Hnew]; [|by destruct Hn; apply B2; right].
      apply A1 in Hin as [?|Heq]; [by apply Hold|]. rewrite Heq in *.
      destruct (decide (m_lo n ∈ R)) as [|Hnew]; [by apply Hold|]. destruct Hn. apply B2. left. apply A2. by right.
  - destruct (Hb b n E) as [Hl Hh]. intros x [[Hx| ->]%A1| ->]%B1; [by apply mark_range0|done|done].
Qed.

Lemma gc_loop_ok fuel : forall todo R, mark_inv todo R -> 1 + length todo + (length ns - size R) <= fuel ->
  exists R', gc_loop fuel ns todo R = Some R' /\ mark_inv [] R' /\ forall x, x ∈ R -> x ∈ R'.
Proof.
  induction fuel as [|fuel IH]; intros todo R HI Hf; [lia|]. destruct todo as [|b todo]; [by exists R|].
  cbn [gc_loop]. cbn [length] in Hf. destruct (is_const b) eqn:C.
  { apply Nat.leb_le in C. apply (mark_pop_const b) in HI; [|done]. apply IH; [done|lia]. }
  apply Nat.leb_gt in C. destruct (lookup_lt_is_Some_2 ns b) as [n E].
  { apply (mark_range _ _ HI), (mark_todo _ _ HI). by left. }
  rewrite E. cbn. pose proof (mark_pop b n todo R E C HI) as Hp. change (visit (m_hi n) (visit (m_lo n) (todo, R))) with
    ((fun c '(todo, reachable) => if bool_decide (c ∈ reachable) then (todo, reachable) else (c :: todo, {[c]} ∪ reachable))
      (m_hi n) ((fun c '(todo, reachable) => if bool_decide (c ∈ reachable) then (todo, reachable) else (c :: todo, {[c]} ∪ reachable)) (m_lo n) (todo, R))) in Hp.
  cbn in Hp. destruct (let '(todo0, reachable) := if bool_decide (m_lo n ∈ R) then (todo, R) else _ in _) as [t2 R2].
  destruct Hp as (HI' & Hsub & Hlen). pose proof (range_size R2 (mark_range _ _ HI')).
  pose proof (range_size R (mark_range _ _ HI)).
  destruct (IH t2 R2 HI') as (R' & E' & HR' & Hs); [lia|]. exists R'. split; [done|]. split; [done|]. auto.
Qed.

End Mark.

(** *** Marking from the roots *)

Lemma elem_of_rev {A} (x : A) l : x ∈ rev l <-> x ∈ l.
Proof. by rewrite !list_elem_of_In, <- in_rev. Qed.

Lemma elem_referenced ns i : i ∈ referenced ns <-> 2 <= i < length ns /\ 0 < rc ns i.
Proof.
  unfold referenced, rc. rewrite list_elem_of_filter, elem_of_rev, elem_of_seq. split; [|intros [? ?]; split; [done|lia]].
  intros [? ?]. split; [lia|done].
Qed.

Lemma gc_mark_ok s : core_ok s -> exists R, gc_mark s = Some R /\
  (forall x, x ∈ R -> reach (m_nodes s) (root s) x) /\ (forall b, prot s b -> b <= 1 \/ b ∈ R).
Proof.
  intros C. pose proof (nodes_bounded _ (core_nodes s C)) as Hb. unfold gc_mark.
  set (roots := m_bdd_stack s ++ referenced (m_nodes s)).
  assert (forall x, x ∈ roots <-> root s x) as Hroots.
  { intros x. unfold roots, root. rewrite elem_of_app, elem_referenced. split; [tauto|]. intros [?|[? Hr]]; [by left|right].
    split; [|done]. split; [done|]. unfold rc in Hr. destruct (m_nodes s !! x) eqn:E; [by eapply lookup_lt_Some|cbn in Hr; lia]. }
  assert (forall x, x ∈ roots -> x < length (m_nodes s)) as Hlt.
  { intros x [Hx|Hx]%elem_of_app; [apply valid_bound; [apply C|by apply C]|]. by apply elem_referenced in Hx as [[_ ?] _]. }
  destruct (gc_loop_ok (m_nodes s) (root s) Hb (S (length (m_nodes s) + length roots)) (rev roots) (list_to_set roots))
    as (R & E & HR & Hs).
  - split.
    + intros x Hx%elem_of_list_to_set. by apply reach_root, Hroots.
    + intros x Hx. apply elem_of_list_to_set. by apply elem_of_rev.
    + intros x n Hx Hn. destruct Hn. apply elem_of_rev. by apply elem_of_list_to_set in Hx.
    + intros x Hx%elem_of_list_to_set. by apply Hlt.
  - rewrite length_rev. lia.
  - exists R. split; [done|]. split; [apply HR|]. intros b [Hb1|Hr]; [by left|].
    induction Hr as [b Hr|b n Hr IH H1 En|b n Hr IH H1 En].
    + right. apply Hs, elem_of_list_to_set. by apply Hroots.
    + destruct IH as [?|IH]; [lia|]. right. by eapply (mark_closed _ _ _ _ HR b n); [|apply not_elem_of_nil|..].
    + destruct IH as [?|IH]; [lia|]. right. by eapply (mark_closed _ _ _ _ HR b n); [|apply not_elem_of_nil|..].
Qed.

(** *** Sweeping *)

Lemma lookup_sweep (l : list nat) (ns : list bdd_node) i :
  foldr (fun i ns => alter set_internal i ns) ns l !! i =
  if bool_decide (i ∈ l) then set_internal <$> ns !! i else ns !! i.
Proof.
  induction l as [|j l IH]; cbn [foldr]; [done|]. rewrite list_lookup_alter.
  destruct (decide (j = i)) as [->|Hne]; rewrite IH.
  - rewrite (bool_decide_eq_true_2 (i ∈ i :: l)) by left. destruct (bool_decide (i ∈ l)), (ns !! i); done.
  - assert (bool_decide (i ∈ j :: l) = bool_decide (i ∈ l)) as ->; [|done]. apply bool_decide_ext. rewrite elem_of_cons.
    split; [|by right]. intros [?|?]; [congruence|done].
Qed.

Lemma length_sweep (l : list nat) (ns : list bdd_node) : length (foldr (fun i ns => alter set_internal i ns) ns l) = length ns.
Proof. induction l as [|j l IH]; cbn; [done|]. by rewrite length_alter. Qed.

Definition rebuild (ns : list bdd_node) (l : list nat) : gmap (nat * nat * nat) nat :=
  foldr (fun i t => match ns !! i with Some n => <[node_key n := m_index n]> t | None => t end) ∅ l.

Lemma rebuild_sound ns l : nodes_ok ns -> forall k i, rebuild ns l !! k = Some i ->
  i ∈ l /\ exists n, ns !! i = Some n /\ node_key n = k.
Proof.
  intros Hok. induction l as [|j l IH]; intros k i; cbn; [by rewrite lookup_empty|].
  destruct (ns !! j) as [n|] eqn:E; [|intros Hi; destruct (IH _ _ Hi); split; [by right|done]].
  destruct (decide (node_key n = k)) as [<-|Hne].
  - rewrite lookup_insert_eq. intros [= <-]. rewrite (nodes_index ns Hok j n E). split; [by left|]. by exists n.
  - rewrite lookup_insert_ne by done. intros Hi. destruct (IH _ _ Hi). split; [by right|done].
Qed.

Lemma rebuild_complete ns l i n : i ∈ l -> ns !! i = Some n -> exists j, rebuild ns l !! node_key n = Some j.
Proof.
  induction l as [|j l IH]; intros Hi E; [by apply elem_of_nil in Hi|]. cbn.
  destruct (ns !! j) as [m|] eqn:Ej.
  - destruct (decide (node_key m = node_key n)) as [->|Hne]; [rewrite lookup_insert_eq; eauto|].
    rewrite lookup_insert_ne by done. apply elem_of_cons in Hi as [->|Hi]; [congruence|auto].
  - apply elem_of_cons in Hi as [->|Hi]; [congruence|auto].
Qed.

Section Sweep.
Context (s : manager) (C : core_ok s) (R : gset nat).
Context (Hreach : forall x, x ∈ R -> reach (m_nodes s) (root s) x).
Context (Hprot : forall b, prot s b -> b <= 1 \/ b ∈ R).

Lemma sweep_lookup i :
  m_nodes (gc_sweep R s) !! i =
  if bool_decide (2 <= i /\ i ∉ R) then set_internal <$> m_nodes s !! i else m_nodes s !! i.
Proof.
  unfold gc_sweep. cbn. rewrite lookup_sweep. destruct (m_nodes s !! i) as [n|] eqn:E.
  - erewrite bool_decide_ext; [done|]. rewrite list_elem_of_filter, elem_of_seq.
    apply lookup_lt_Some in E. split; [intros [? ?]; split; [lia|done]|]. intros [? ?]. split; [done|lia].
  - by do 2 case_bool_decide.
Qed.

Lemma sweep_prot b : prot s b -> m_nodes (gc_sweep R s) !! b = m_nodes s !! b.
Proof.
  intros Hp. rewrite sweep_lookup. rewrite bool_decide_eq_false_2; [done|]. intros [? Hn].
  destruct (Hprot b Hp); [lia|done].
Qed.

Lemma sweep_rc b : rc (m_nodes (gc_sweep R s)) b = rc (m_nodes s) b.
Proof. unfold rc. rewrite sweep_lookup. case_bool_decide; [|done]. by destruct (m_nodes s !! b). Qed.

Lemma sweep_frame : frame s (gc_sweep R s).
Proof. split; [done|exact sweep_prot|exact sweep_rc]. Qed.

(** What is used after the sweep was marked. *)
Lemma sweep_used b : used (m_nodes (gc_sweep R s)) b <-> used (m_nodes s) b /\ b ∈ R.
Proof.
  unfold used. rewrite sweep_lookup. split.
  - intros (Hb & n & E & Hn). case_bool_decide as D.
    + destruct (m_nodes s !! b); [|done]. injection E as <-. done.
    + split; [split; [done|by exists n]|]. destruct (decide (b ∈ R)); [done|]. destruct D. split; [lia|done].
  - intros [(Hb & n & E & Hn) Hr]. split; [done|]. exists n. rewrite bool_decide_eq_false_2; [done|]. by intros [_ ?].
Qed.

Lemma sweep_old b n : used (m_nodes (gc_sweep R s)) b -> m_nodes (gc_sweep R s) !! b = Some n ->
  used (m_nodes s) b /\ m_nodes s !! b = Some n /\ prot s b.
Proof.
  intros [Hu Hr]%sweep_used E. assert (prot s b) by (right; by apply Hreach).
  split; [done|]. split; [|done]. by rewrite <- sweep_prot.
Qed.

Lemma sweep_child l b : prot s b -> child_ok (m_nodes s) l b -> child_ok (m_nodes (gc_sweep R s)) l b.
Proof. intros Hp Hc. by apply (child_later s (gc_sweep R s) (frame_later _ _ sweep_frame)). Qed.

Lemma sweep_nodes : nodes_ok (m_nodes (gc_sweep R s)).
Proof.
  pose proof (core_nodes s C) as Hok. split.
  - intros i Hi. rewrite <- (nodes_dummy _ Hok i Hi). apply sweep_prot. destruct (decide (i <= 1)); [by left|].
    right. apply reach_root. right. split; [lia|]. unfold rc. rewrite (nodes_dummy _ Hok i Hi). cbn. unfold max_rc. lia.
  - intros i n. rewrite sweep_lookup. case_bool_decide; [|apply (nodes_index _ Hok)].
    intros (m & E & ->)%fmap_Some. cbn. by apply (nodes_index _ Hok) in E.
  - intros i n E Hi. destruct (decide (m_lo n = m_hi n)) as [Heq|Hne].
    + left. revert E. rewrite sweep_lookup. case_bool_decide.
      { intros (m & _ & ->)%fmap_Some. done. }
      intros E. by destruct (nodes_node _ Hok i n E Hi) as [?|(? & _)].
    + right. destruct (sweep_old i n) as (Hu & E' & Hp); [by split; [|exists n]|done|].
      destruct (used_children _ i n Hok Hu E') as (Hl & Hcl & Hch).
      destruct (prot_child s i n Hp Hu E') as [Pl Ph]. split_and!; [done|done|by apply sweep_child|by apply sweep_child].
Qed.

Lemma sweep_unique : nodes_unique (m_nodes (gc_sweep R s)).
Proof.
  intros i j n m Ei Ej Hi Hj Hk. destruct (sweep_old i n Hi Ei) as (Ui & Ei' & _).
  destruct (sweep_old j m Hj Ej) as (Uj & Ej' & _). by apply (core_unique s C i j n m).
Qed.

Lemma sweep_free : free_ok (gc_sweep R s).
Proof.
  split; cbn.
  - apply NoDup_filter, NoDup_seq.
  - intros i [Hn [Hi Hlt]%elem_of_seq]%list_elem_of_filter. destruct (lookup_lt_is_Some_2 (m_nodes s) i) as [n E]; [lia|].
    assert (~ 0 < rc (m_nodes s) i) as Hrc.
    { intros Hrc. destruct (Hprot i); [|lia|done]. right. apply reach_root. right. split; [lia|done]. }
    assert (11 <= i) as Hge.
    { destruct (decide (i < 11)) as [Hi'|]; [|lia]. destruct Hrc. unfold rc. rewrite (nodes_dummy _ (core_nodes s C) i Hi').
      cbn. unfold max_rc. lia. }
    split; [done|]. exists (set_internal n). split.
    { pose proof (sweep_lookup i) as El. unfold gc_sweep in El. cbn in El. rewrite El.
      rewrite bool_decide_eq_true_2 by (split; [lia|done]). by rewrite E. }
    split; [done|]. split; [done|]. unfold rc in Hrc. rewrite E in Hrc. cbn in *. lia.
Qed.

Lemma sweep_cache : cache_ok (gc_sweep R s).
Proof.
  destruct (core_cache s C) as [I1 I2 I3 I4]. split; cbn.
  - assert (forall l, NoDup (map e_id l) -> NoDup (map e_id (filter (fun e => m_result e = None) l))) as Hf; [|by apply Hf].
    induction l as [|e l IH]; [done|]. cbn [map]. intros [Hn Hd]%list.NoDup_cons. rewrite filter_cons.
    case_decide; [|by apply IH]. cbn [map]. apply list.NoDup_cons. split; [|by apply IH].
    intros Hi. apply Hn. apply list_elem_of_In, in_map_iff in Hi as (x & Ex & Hx). apply list_elem_of_In, list_elem_of_filter in Hx.
    apply list_elem_of_In, in_map_iff. exists x. split; [done|]. by apply list_elem_of_In, Hx.
  - intros e [_ He]%list_elem_of_filter. by apply I2.
  - intros e [_ He]%list_elem_of_filter. by apply I3.
  - intros e r [Hr _]%list_elem_of_filter _ Hr'. congruence.
Qed.

Lemma sweep_fixed b n : used (m_nodes s) b -> m_nodes s !! b = Some n -> m_refcount n = max_rc ->
  used (m_nodes (gc_sweep R s)) b /\ m_nodes (gc_sweep R s) !! b = Some n.
Proof.
  intros Hu E Hr. apply used_gt in Hu as H1. assert (prot s b) as Hp.
  { right. apply reach_root. right. split; [lia|]. unfold rc. rewrite E. cbn. rewrite Hr. unfold max_rc. lia. }
  split; [|by rewrite sweep_prot]. apply sweep_used. split; [done|]. by destruct (Hprot b Hp); [lia|].
Qed.

Lemma sweep_vars : vars_ok (gc_sweep R s).
Proof.
  destruct (core_vars s C) as [V1 V2 V3 V4 V5]. split; [done|done|done| |].
  - intros v b Hv Hb. apply V4 in Hb as (Hu & n & E & Hr & Hk); [|done]. destruct (sweep_fixed b n Hu E Hr). split; [done|by exists n].
  - intros v b Hv Hb. apply V5 in Hb as (Hu & n & E & Hr & Hk); [|done]. destruct (sweep_fixed b n Hu E Hr). split; [done|by exists n].
Qed.

Lemma sweep_core : core_ok (gc_sweep R s).
Proof.
  split; [exact sweep_nodes|exact sweep_unique|exact sweep_free|exact sweep_cache|exact sweep_vars| | |apply C].
  - intros b Hb. eapply valid_agree; [|by apply (core_stack s C)]. apply sweep_prot. right. apply reach_root. by left.
  - intros b Hb. rewrite sweep_rc. intros Hr. apply sweep_used. split; [by apply (core_refs s C)|].
    destruct (Hprot b); [|lia|done]. right. apply reach_root. right. split; [lia|done].
Qed.

Lemma sweep_table : table_but None (gc_sweep R s).
Proof.
  pose proof sweep_nodes as Hok.
  change (m_node_table (gc_sweep R s)) with
    (rebuild (m_nodes (gc_sweep R s)) (filter (fun i => i ∈ R) (seq 2 (length (m_nodes s) - 2)))).
  split.
  - intros l a b i Hab _ Hi. apply (rebuild_sound _ _ Hok) in Hi as (Hi & n & E & Hk).
    assert (used (m_nodes (gc_sweep R s)) i) as Hu.
    { destruct (decide (i < 11)) as [H11|H11].
      - rewrite (nodes_dummy _ Hok i H11) in E. injection E as <-. unfold node_key in Hk. cbn in Hk. congruence.
      - split; [lia|]. exists n. split; [done|]. unfold node_key in Hk. congruence. }
    split; [done|]. by exists n.
  - intros i n Hu E. split; [done|].
    destruct (rebuild_complete (m_nodes (gc_sweep R s)) (filter (fun i => i ∈ R) (seq 2 (length (m_nodes s) - 2))) i n) as [j Ej];
      [|exact E|].
    { destruct (sweep_old i n Hu E) as (Hu' & E' & Hp). apply list_elem_of_filter. split.
      - apply sweep_used in Hu. apply Hu.
      - apply elem_of_seq. apply lookup_lt_Some in E'. apply used_gt in Hu'. lia. }
    cbn. etrans; [exact Ej|]. f_equal. apply (rebuild_sound _ _ Hok) in Ej as (_ & m & Em & Hk).
    assert (used (m_nodes (gc_sweep R s)) j) as Huj.
    { destruct Hu as (_ & n' & En & Hn). assert (n' = n) as -> by congruence. unfold node_key in Hk. injection Hk as K1 K2 K3. split; [|exists m; split; [done|congruence]].
      destruct (decide (j < 11)) as [H11|]; [|lia]. rewrite (nodes_dummy _ Hok j H11) in Em. injection Em as <-. cbn in *. congruence. }
    by apply (sweep_unique j i m n).
Qed.

End Sweep.

(** The collector ends, keeps what is reachable, frees the rest, and refills the table. *)
Lemma gc_ok s : core_ok s -> exists s', gc s = Done tt s' /\ wf s' /\ frame s s' /\ pending s' = pending s /\
  (forall b, used (m_nodes s') b <-> used (m_nodes s) b /\ prot s b) /\
  (forall b, b ∈ m_free_nodes s' <-> 2 <= b < length (m_nodes s) /\ ~ prot s b) /\
  length (m_nodes s') = length (m_nodes s).
Proof.
  intros C. destruct (gc_mark_ok s C) as (R & E & H1 & H2). exists (gc_sweep R s). unfold gc. rewrite E.
  assert (forall b, 2 <= b -> b ∈ R <-> prot s b) as HR.
  { intros b Hb. split; [intros ?; right; by apply H1|]. intros Hp. by destruct (H2 b Hp); [lia|]. }
  split; [done|]. split; [split; [by apply sweep_core|by apply sweep_table]|]. split; [by apply sweep_frame|].
  split; [|split; [|split]].
  - unfold pending, gc_sweep. cbn. rewrite list_filter_filter. apply list_filter_iff. tauto.
  - intros b. rewrite sweep_used by done. split; intros [Hu Hr]; (split; [done|]); apply HR; try done; apply used_gt in Hu; lia.
  - intros b. cbn. rewrite list_elem_of_filter, elem_of_seq. split.
    + intros [Hn Hb]. split; [lia|]. by rewrite <- HR by lia.
    + intros [Hb Hn]. split; [|lia]. by rewrite HR by lia.
  - unfold gc_sweep. cbn. apply length_sweep.
Qed.

End collection.

(** ** Running operations *)

Module Import running.

(** [m] ends in [Q], or runs out of nodes; it does not go wrong. *)
Definition wp {A} (m : B A) (Q : A -> manager -> Prop) (s : manager) : Prop :=
  match m s with
  | Done x s' => Q x s'
  | MemOut s' => (m_max_num_bdd_nodes s' < Z.of_nat (length (m_nodes s')))%Z
  | Fault => False
  end.

Lemma wp_ret {A} (x : A) (Q : A -> manager -> Prop) s : Q x s -> wp (mret x) Q s.
Proof. done. Qed.
Lemma wp_then {A C} (m : B A) (f : A -> B C) Q s : wp m (fun x s' => wp (f x) Q s') s -> wp (x ← m; f x) Q s.
Proof. unfold wp, mbind, B_bind. by destruct (m s). Qed.
Lemma wp_weaken {A} (m : B A) (Q R : A -> manager -> Prop) s :
  wp m Q s -> (forall x s', Q x s' -> R x s') -> wp m R s.
Proof. unfold wp. intros Hm HR. destruct (m s); auto. Qed.
Lemma wp_at {A} (o : option A) x (Q : A -> manager -> Prop) s : o = Some x -> Q x s -> wp (at_ o) Q s.
Proof. by intros ->. Qed.

Lemma wp_gets {A} (f : manager -> A) (Q : A -> manager -> Prop) s : Q (f s) s -> wp (gets f) Q s.
Proof. done. Qed.
Lemma wp_modify f (Q : unit -> manager -> Prop) s : Q tt (f s) -> wp (modify f) Q s.
Proof. done. Qed.

(** A step of a sequence. *)
Ltac wp_seq := repeat (cbv beta; lazymatch goal with
  | |- wp (mbind _ _) _ _ => apply wp_then
  | |- wp (gets _) _ _ => apply wp_gets
  | |- wp (modify _) _ _ => apply wp_modify
  | |- wp (mret _) _ _ => apply wp_ret
  end); cbv beta.

Lemma wp_node b n (Q : bdd_node -> manager -> Prop) s : m_nodes s !! b = Some n -> Q n s -> wp (node b) Q s.
Proof. intros E HQ. unfold wp, node, mbind, B_bind. cbn. by rewrite E. Qed.
Lemma wp_level b n (Q : nat -> manager -> Prop) s : m_nodes s !! b = Some n -> Q (m_level n) s -> wp (level b) Q s.
Proof. intros E HQ. by eapply wp_then, wp_node. Qed.
Lemma wp_lo b n (Q : nat -> manager -> Prop) s : m_nodes s !! b = Some n -> Q (m_lo n) s -> wp (lo b) Q s.
Proof. intros E HQ. by eapply wp_then, wp_node. Qed.
Lemma wp_hi b n (Q : nat -> manager -> Prop) s : m_nodes s !! b = Some n -> Q (m_hi n) s -> wp (hi b) Q s.
Proof. intros E HQ. by eapply wp_then, wp_node. Qed.

(** The invariant does not depend on the table, the constants or the flag. *)
Lemma core_ok_ext s s' : m_nodes s' = m_nodes s -> m_op_cache s' = m_op_cache s -> m_next_entry s' = m_next_entry s ->
  m_free_nodes s' = m_free_nodes s -> same_rest s s' -> core_ok s -> core_ok s'.
Proof.
  intros En Ec Ei Ef [] [C1 C2 [C3 C3'] [C4 C4' C4'' C4'''] [V1 V2 V3 V4 V5] C6 C7 C8].
  split; [| |split|split|split| | |]; rewrite ?En, ?Ec, ?Ei, ?Ef, ?same_v2b0, ?same_v2l0, ?same_stack0; auto; congruence.
Qed.

Lemma table_but_ext k s s' : m_nodes s' = m_nodes s -> m_node_table s' = m_node_table s -> table_but k s -> table_but k s'.
Proof. intros En Et []. split; rewrite ?En, ?Et; auto. Qed.

End running.

(** ** Making nodes *)

Module Import building.

Lemma level_ok_small l : level_ok l -> N.to_nat (N.of_nat l mod 4194304) = l.
Proof. intros Hl. rewrite N.mod_small by done. apply Nat2N.id. Qed.

Section NewNode.
Context (s : manager) (lv l h r : nat) (free : list nat).
Context (C : core_ok s) (T : table_but (Some (lv, l, h)) s) (Hfree : m_free_nodes s = r :: free).
Context (Hne : l <> h) (Hlv : level_ok lv).
Context (Hl : child_ok (m_nodes s) lv l) (Hh : child_ok (m_nodes s) lv h).

Definition the_node : bdd_node := Node 0 lv l h r.
Definition new_nodes : list bdd_node := <[r := the_node]> (m_nodes s).
Definition new_state : manager :=
  set_is_new_node true (set_nodes new_nodes
    (set_node_table (<[(lv, l, h) := r]> (m_node_table s)) (set_free_nodes free s))).

Lemma r_free : 11 <= r /\ exists n, m_nodes s !! r = Some n /\ m_lo n = 0 /\ m_hi n = 0 /\ m_refcount n = 0.
Proof. apply (free_node s (core_free s C)). rewrite Hfree. by left. Qed.

Lemma r_lookup : new_nodes !! r = Some the_node.
Proof. apply list_lookup_insert_eq. destruct r_free as (_ & n & E & _). by eapply lookup_lt_Some. Qed.

Lemma other_lookup i : i <> r -> new_nodes !! i = m_nodes s !! i.
Proof. intros Hi. apply list_lookup_insert_ne. congruence. Qed.

Lemma r_not_used : ~ used (m_nodes s) r.
Proof. destruct r_free as (_ & n & E & E1 & E2 & _). intros (_ & m & Em & Hm). congruence. Qed.

Lemma new_grows : grows (m_nodes s) new_nodes.
Proof.
  intros b Hb. apply other_lookup. intros ->. destruct Hb as [Hb|Hb]; [|by apply r_not_used].
  destruct r_free. lia.
Qed.

Lemma new_used i : used new_nodes i <-> i = r \/ used (m_nodes s) i.
Proof.
  destruct (decide (i = r)) as [->|Hi].
  - split; [by left|]. intros _. split; [apply r_free|]. exists the_node. split; [apply r_lookup|done].
  - unfold used. rewrite other_lookup by done. split; [by right|]. by intros [|?].
Qed.

Lemma new_rc b : rc new_nodes b = rc (m_nodes s) b.
Proof.
  unfold rc. destruct (decide (b = r)) as [->|Hb]; [|by rewrite other_lookup].
  rewrite r_lookup. destruct r_free as (_ & n & -> & _ & _ & E). cbn. by rewrite E.
Qed.

Lemma new_nodes_ok : nodes_ok new_nodes.
Proof.
  pose proof (core_nodes s C) as Hok. pose proof r_free as [Hr _]. split.
  - intros i Hi. rewrite other_lookup by lia. by apply nodes_dummy.
  - intros i n. destruct (decide (i = r)) as [->|Hi]; [rewrite r_lookup; by intros [= <-]|].
    rewrite other_lookup by done. by apply nodes_index.
  - intros i n E Hi. destruct (decide (i = r)) as [->|Hne'].
    + rewrite r_lookup in E. injection E as <-. right. cbn.
      split_and!; [done|done|by eapply grows_child; [apply new_grows|]|by eapply grows_child; [apply new_grows|]].
    + rewrite other_lookup in E by done. destruct (nodes_node _ Hok i n E Hi) as [?|(? & ? & ? & ?)]; [by left|right].
      split_and!; [done|done|by eapply grows_child; [apply new_grows|]|by eapply grows_child; [apply new_grows|]].
Qed.

Lemma new_unique : nodes_unique new_nodes.
Proof.
  assert (forall i n, used (m_nodes s) i -> m_nodes s !! i = Some n -> node_key n <> (lv, l, h)) as Hk.
  { intros i n Hu E Ek. destruct (table_complete _ _ T i n Hu E) as [Hn _]. congruence. }
  assert (forall i n, i <> r -> used new_nodes i -> new_nodes !! i = Some n -> used (m_nodes s) i /\ m_nodes s !! i = Some n) as Hold.
  { intros i n Hi Hu E. rewrite other_lookup in E by done. apply new_used in Hu as [?|?]; done. }
  intros i j n m Ei Ej Ui Uj Ek. destruct (decide (i = r)) as [->|Hi], (decide (j = r)) as [->|Hj].
  - done.
  - destruct (Hold j m Hj Uj Ej) as [Uj' Ej']. rewrite r_lookup in Ei. injection Ei as <-. by destruct (Hk j m Uj' Ej').
  - destruct (Hold i n Hi Ui Ei) as [Ui' Ei']. rewrite r_lookup in Ej. injection Ej as <-. by destruct (Hk i n Ui' Ei').
  - destruct (Hold i n Hi Ui Ei), (Hold j m Hj Uj Ej). by apply (core_unique s C i j n m).
Qed.

Lemma grows_cache s' : m_op_cache s' = m_op_cache s -> m_next_entry s' = m_next_entry s ->
  grows (m_nodes s) (m_nodes s') -> cache_ok s'.
Proof.
  intros Ec Ei G. pose proof (core_nodes s C) as Hok. destruct (core_cache s C) as [I1 I2 I3 I4].
  split; rewrite ?Ec, ?Ei; [done|done|done|].
  intros e x He Hop Hx. destruct (I4 e x He Hop Hx) as (J1 & J2 & J3 & J4 & J5).
  split_and!; [done|by eapply grows_valid|by eapply grows_valid| |].
  - by rewrite !(grows_rank (m_nodes s) (m_nodes s')).
  - intros ρ. by rewrite !(grows_den (m_nodes s) (m_nodes s')).
Qed.

Lemma grows_vars s' : m_var2bdd s' = m_var2bdd s -> m_var2level s' = m_var2level s -> m_level2var s' = m_level2var s ->
  grows (m_nodes s) (m_nodes s') -> vars_ok s'.
Proof.
  intros E1 E2 E3 G. destruct (core_vars s C) as [V1 V2 V3 V4 V5].
  assert (forall b k, (used (m_nodes s) b /\ exists n, m_nodes s !! b = Some n /\ m_refcount n = max_rc /\ node_key n = k) ->
    used (m_nodes s') b /\ exists n, m_nodes s' !! b = Some n /\ m_refcount n = max_rc /\ node_key n = k) as Hg.
  { intros b k [Hu Hn]. rewrite (G b) by by right. split; [|done]. destruct Hu as (? & n & ? & ?).
    split; [done|]. exists n. rewrite (G b); [done|]. right. split; [done|by exists n]. }
  split; rewrite ?E1, ?E2, ?E3; try done; intros v b Hv Hb; apply Hg; auto.
Qed.

Lemma new_core : core_ok new_state.
Proof.
  destruct (core_free s C) as [F1 F2]. rewrite Hfree in F1, F2. apply list.NoDup_cons in F1 as [Hr F1].
  split; [apply new_nodes_ok|apply new_unique| |by apply grows_cache, new_grows|by apply grows_vars, new_grows| | |apply C].
  - split; [done|]. intros i Hi. cbn in Hi. destruct (F2 i) as (H1 & n & E & Hn); [by right|]. split; [done|].
    exists n. cbn. rewrite other_lookup; [done|]. intros ->. done.
  - intros b Hb. eapply grows_valid; [apply new_grows|]. by apply (core_stack s C).
  - intros b Hb. cbn. rewrite new_rc. intros Hr'. apply new_used. right. by apply (core_refs s C).
Qed.

Lemma new_table : table_but None new_state.
Proof.
  split; cbn.
  - intros l' a b i Hab _ Hi. destruct (decide ((l', a, b) = (lv, l, h))) as [[= -> -> ->]|Hk].
    + rewrite lookup_insert_eq in Hi. injection Hi as <-. split; [by apply new_used; left|]. exists the_node.
      by rewrite r_lookup.
    + rewrite lookup_insert_ne in Hi by congruence.
      destruct (table_sound _ _ T l' a b i Hab) as (Hu & n & E & Hn); [congruence|done|].
      split; [by apply new_used; right|]. exists n. rewrite other_lookup; [done|]. intros ->. by apply r_not_used.
  - intros i n Hu E. split; [done|]. destruct (decide (i = r)) as [->|Hi].
    + rewrite r_lookup in E. injection E as <-. apply lookup_insert_eq.
    + apply new_used in Hu as [?|Hu]; [done|]. rewrite other_lookup in E by done.
      destruct (table_complete _ _ T i n Hu E) as [Hk E']. rewrite lookup_insert_ne by congruence. done.
Qed.

Lemma new_frame : frame s new_state.
Proof. apply grows_frame; [done|done|exact new_grows|exact new_rc]. Qed.

End NewNode.

(** *** Making room *)

Section Alloc.
Context (s : manager) (n : nat).

Definition alloc_state : manager :=
  set_free_nodes (rev (m_free_nodes s) ++ seq (length (m_nodes s)) n)
    (set_nodes (m_nodes s ++ map (fun i => Node 0 0 0 0 i) (seq (length (m_nodes s)) n)) s).

Lemma alloc_lookup i x : m_nodes alloc_state !! i = Some x ->
  m_nodes s !! i = Some x \/ (length (m_nodes s) <= i < length (m_nodes s) + n /\ x = Node 0 0 0 0 i).
Proof.
  cbn. rewrite lookup_app. destruct (m_nodes s !! i) eqn:E; [by left|]. apply lookup_ge_None in E.
  rewrite list_lookup_fmap. intros (j & Ej & ->)%fmap_Some. apply lookup_seq in Ej. right. lia || (split; [lia|]; f_equal; lia).
Qed.

Lemma alloc_fresh i : length (m_nodes s) <= i < length (m_nodes s) + n ->
  m_nodes alloc_state !! i = Some (Node 0 0 0 0 i).
Proof.
  intros Hi. cbn. rewrite lookup_app_r by lia. rewrite list_lookup_fmap, lookup_seq_lt by lia. cbn. do 2 f_equal. lia.
Qed.

Lemma alloc_old i : i < length (m_nodes s) -> m_nodes alloc_state !! i = m_nodes s !! i.
Proof. intros Hi. cbn. by rewrite lookup_app_l. Qed.

Context (C : core_ok s).

Lemma alloc_grows : grows (m_nodes s) (m_nodes alloc_state).
Proof.
  intros b Hb. apply alloc_old. destruct Hb as [Hb|Hb]; [|by apply valid_bound; [apply C|right]].
  eapply lookup_lt_Some, (nodes_dummy _ (core_nodes s C)). lia.
Qed.

Lemma alloc_used i : used (m_nodes alloc_state) i <-> used (m_nodes s) i.
Proof.
  split.
  - intros (Hi & x & E & Hx). split; [done|]. apply alloc_lookup in E as [E|[_ ->]]; [by exists x|done].
  - intros Hu. destruct Hu as (Hi & x & E & Hx). split; [done|]. exists x. rewrite alloc_grows; [done|].
    right. split; [done|by exists x].
Qed.

Lemma alloc_rc b : rc (m_nodes alloc_state) b = rc (m_nodes s) b.
Proof.
  unfold rc. destruct (m_nodes s !! b) as [x|] eqn:E.
  - rewrite alloc_old by (by eapply lookup_lt_Some). by rewrite E.
  - destruct (m_nodes alloc_state !! b) as [x|] eqn:E'; [|done]. apply alloc_lookup in E' as [?|[_ ->]]; [congruence|done].
Qed.

Lemma alloc_nodes_ok : nodes_ok (m_nodes alloc_state).
Proof.
  pose proof (core_nodes s C) as Hok. pose proof alloc_grows as G. split.
  - intros i Hi. rewrite G by by left. by apply nodes_dummy.
  - intros i x [E|[_ ->]]%alloc_lookup; [by apply (nodes_index _ Hok)|done].
  - intros i x E Hi. apply alloc_lookup in E as [E|[_ ->]]; [|by left].
    destruct (nodes_node _ Hok i x E Hi) as [?|(? & ? & ? & ?)]; [by left|right].
    split_and!; [done|done|by eapply grows_child|by eapply grows_child].
Qed.

Lemma alloc_core : core_ok alloc_state.
Proof.
  pose proof alloc_grows as G. destruct (core_free s C) as [F1 F2].
  split; [exact alloc_nodes_ok| | |by apply (grows_cache s)|by apply (grows_vars s)| | |apply C].
  - intros i j x y Ei Ej Ui Uj. apply alloc_used in Ui, Uj.
    rewrite G in Ei by by right. rewrite G in Ej by by right. by apply (core_unique s C).
  - split; cbn.
    + apply list.NoDup_app. split; [|split; [|apply NoDup_seq]].
      * by apply NoDup_ListNoDup, List.NoDup_rev, NoDup_ListNoDup.
      * intros i Hi Hs. rewrite elem_of_rev in Hi. apply elem_of_seq in Hs. destruct (F2 i Hi) as (_ & x & E & _).
        apply lookup_lt_Some in E. lia.
    + intros i [Hi|Hi]%elem_of_app.
      * rewrite elem_of_rev in Hi. destruct (F2 i Hi) as (H1 & x & E & Hx). split; [done|]. exists x.
        split; [|done]. change (m_nodes alloc_state !! i = Some x). rewrite alloc_old; [done|]. by eapply lookup_lt_Some.
      * apply elem_of_seq in Hi. split.
        { enough (11 <= length (m_nodes s)) by lia. assert (m_nodes s !! 10 = Some (Node max_rc 0 0 0 10)) as E10.
          { apply (nodes_dummy _ (core_nodes s C)). lia. } apply lookup_lt_Some in E10. lia. }
        exists (Node 0 0 0 0 i). split; [by apply alloc_fresh|done].
  - intros b Hb. eapply grows_valid; [done|]. by apply (core_stack s C).
  - intros b Hb. rewrite alloc_rc. intros Hr. apply alloc_used. by apply (core_refs s C).
Qed.

Lemma alloc_table k : table_but k s -> table_but k alloc_state.
Proof.
  intros [T1 T2]. pose proof alloc_grows as G. split.
  - intros l a b i Hab Hk Hi. destruct (T1 l a b i Hab Hk Hi) as [Hu Hn]. split; [by apply alloc_used|]. by rewrite G by by right.
  - intros i x Hu E. apply alloc_used in Hu. rewrite G in E by by right. by apply T2.
Qed.

End Alloc.

(** The state with an empty entry for a triple that is not in the table. *)
Definition reserved (k : nat * nat * nat) (s : manager) : manager := set_node_table (<[k := 0]> (m_node_table s)) s.

Lemma reserved_core k s : core_ok s -> core_ok (reserved k s).
Proof. by apply core_ok_ext. Qed.

Lemma reserved_table lv l h s : l <> h -> table_but None s -> m_node_table s !! (lv, l, h) = None ->
  table_but (Some (lv, l, h)) (reserved (lv, l, h) s).
Proof.
  intros Hne [T1 T2] Hnone. split.
  - intros l' a b i Hab Hk Hi. cbn in Hi. rewrite lookup_insert_ne in Hi by congruence. by apply T1.
  - intros i n Hu E. destruct (T2 i n Hu E) as [_ E']. split; [congruence|]. cbn. rewrite lookup_insert_ne; congruence.
Qed.

(** The table has no index 0 for a triple of different children. *)
Lemma table_index k s l a b i : a <> b -> Some (l, a, b) <> k -> table_but k s -> m_node_table s !! (l, a, b) = Some i -> i <> 0.
Proof. intros Hab Hk T Hi. destruct (table_sound _ _ T l a b i Hab Hk Hi) as ((? & _) & _). lia. Qed.

Definition room (lv l h : nat) (s s' : manager) : Prop :=
  core_ok s' /\ table_but (Some (lv, l, h)) s' /\ frame s s' /\ pending s' = pending s /\
  m_free_nodes s' <> [] /\ (m_free_nodes s <> [] -> s' = s).

Lemma length_nodes s : core_ok s -> 11 <= length (m_nodes s).
Proof.
  intros C. assert (m_nodes s !! 10 = Some (Node max_rc 0 0 0 10)) as E10.
  { apply (nodes_dummy _ (core_nodes s C)). lia. } apply lookup_lt_Some in E10. lia.
Qed.

Lemma make_room_ok n lv l h s : node_key n = (lv, l, h) -> m_index n = 0 -> l <> h ->
  core_ok s -> table_but (Some (lv, l, h)) s -> wp (make_room n) (fun _ s' => room lv l h s s') s.
Proof.
  intros Hk Hi Hne C T. unfold make_room. wp_seq. wp_seq. rewrite (core_gc s C).
  destruct (decide (m_free_nodes s = [])) as [Hf|Hf].
  2: { rewrite bool_decide_eq_false_2 by done. cbn. split_and!; done. }
  rewrite bool_decide_eq_true_2 by done. cbn [andb negb].
  destruct (gc_ok s C) as (s1 & E1 & [C1 T1] & F1 & P1 & Hu1 & _ & _).
  assert (m_node_table s1 !! (lv, l, h) = None) as Hnone.
  { destruct (m_node_table s1 !! (lv, l, h)) as [i|] eqn:E; [|done]. exfalso.
    destruct (table_sound _ _ T1 lv l h i Hne) as (Hu & x & Ex & Hx); [done|done|]. apply Hu1 in Hu as [Hu Hp].
    rewrite (frame_prot _ _ F1 i Hp) in Ex. destruct (table_complete _ _ T i x Hu Ex) as [? _]. congruence. }
  wp_seq. unfold wp at 1. rewrite E1. wp_seq. unfold wp at 1, insert_node. rewrite Hk, Hnone, Hi.
  wp_seq. fold (reserved (lv, l, h) s1). set (s2 := reserved (lv, l, h) s1).
  assert (core_ok s2) as C2 by by apply reserved_core. assert (table_but (Some (lv, l, h)) s2) as T2 by by apply reserved_table.
  assert (frame s s2) as F2 by (eapply frame_trans; [exact F1|by split]).
  wp_seq. wp_seq. wp_seq. wp_seq. fold s2.
  destruct (Nat.ltb_spec (length (m_free_nodes s2) * 3) (length (m_nodes s2))) as [Hlt|Hge].
  - destruct (Z.ltb_spec (m_max_num_bdd_nodes s2) (Z.of_nat (length (m_nodes s2)))) as [Hmax|Hmax]; [done|].
    set (n2 := length (m_nodes s2) / 2). apply wp_modify. change (room lv l h s (alloc_state s2 n2)).
    split_and!; [by apply alloc_core|by apply alloc_table| |done| |done].
    + eapply frame_trans; [exact F2|]. apply grows_frame; [done|done|by apply alloc_grows|by apply alloc_rc].
    + pose proof (length_nodes s2 C2) as Hl. assert (0 < n2) as Hn by (apply Nat.div_str_pos; lia).
      clearbody n2. destruct n2; [lia|]. cbn. by intros [_ ?]%app_eq_nil.
  - split_and!; [done|done|done|done| |done]. pose proof (length_nodes s2 C2). intros E. rewrite E in Hge. cbn in Hge. cbn in *. lia.
Qed.

(** What [make_node] returns. *)
Record node_post (s : manager) (lv l h r : nat) (s' : manager) : Prop := {
  np_wf : wf s';
  np_frame : frame s s';
  np_pending : pending s' = pending s;
  np_valid : valid (m_nodes s') r;
  np_rank : rank (m_nodes s') r <= S lv;
  np_den : forall ρ, den (m_nodes s') r ρ = if ρ lv then den (m_nodes s) h ρ else den (m_nodes s) l ρ;
  np_key : l <> h -> used (m_nodes s') r /\ exists n, m_nodes s' !! r = Some n /\ node_key n = (lv, l, h);
  np_free : m_free_nodes s <> [] -> grows (m_nodes s) (m_nodes s') /\
    length (m_free_nodes s) <= S (length (m_free_nodes s')) }.

Lemma set_flag_wf x s : wf s -> wf (set_is_new_node x s).
Proof. intros [C T]. split; [by eapply core_ok_ext, C|by eapply table_but_ext, T]. Qed.

(** A node found, or made from the first free one. *)
Lemma found_post s lv l h i : wf s -> level_ok lv -> l <> h -> child_ok (m_nodes s) lv l -> child_ok (m_nodes s) lv h ->
  m_node_table s !! (lv, l, h) = Some i -> node_post s lv l h i s.
Proof.
  intros W Hlv Hne Hl Hh Hi. destruct (table_sound _ _ (wf_table s W) lv l h i Hne) as (Hu & n & E & Hk); [done|done|].
  destruct (used_lookup _ i Hu) as (m & Em & _ & _ & Hr). assert (m = n) as -> by congruence.
  injection Hk as K1 K2 K3. split; [done|apply frame_refl|done|by right|by rewrite Hr, K1| | |].
  - intros ρ. rewrite (den_node _ i n ρ (core_nodes s (wf_core s W)) Hu E). by rewrite K1, K2, K3.
  - intros _. split; [done|]. exists n. split; [done|]. unfold node_key. congruence.
  - intros _. split; [done|lia].
Qed.

Lemma new_post s s1 lv l h r free : wf s -> prot s l -> prot s h -> l <> h -> level_ok lv ->
  child_ok (m_nodes s) lv l -> child_ok (m_nodes s) lv h ->
  room lv l h (reserved (lv, l, h) s) s1 -> m_free_nodes s1 = r :: free ->
  node_post s lv l h r (new_state s1 lv l h r free).
Proof.
  intros W Pl Ph Hne Hlv Hl Hh (C1 & T1 & F1 & P1 & _ & Hsame) Hf.
  assert (frame s s1) as F by (eapply frame_trans; [|exact F1]; by split). pose proof (frame_later _ _ F) as La.
  assert (child_ok (m_nodes s1) lv l) as Hl1 by by apply (child_later s).
  assert (child_ok (m_nodes s1) lv h) as Hh1 by by apply (child_later s).
  pose proof (new_nodes_ok s1 lv l h r free C1 Hf Hne Hlv Hl1 Hh1) as Hok.
  pose proof (new_grows s1 lv l h r free C1 Hf Hne) as G.
  assert (used (new_nodes s1 lv l h r) r) as Hu by (apply (new_used s1 lv l h r free); auto).
  assert (new_nodes s1 lv l h r !! r = Some (the_node lv l h r)) as E by by eapply r_lookup.
  split.
  - split; [by eapply new_core|by eapply new_table].
  - eapply frame_trans; [exact F|]. by apply new_frame.
  - exact P1.
  - by right.
  - destruct (used_lookup _ r Hu) as (m & Em & _ & _ & Hr). cbn. rewrite Hr. rewrite E in Em. by injection Em as <-.
  - intros ρ. change (m_nodes (new_state s1 lv l h r free)) with (new_nodes s1 lv l h r).
    rewrite (den_node _ r _ ρ Hok Hu E). cbn [the_node m_level m_lo m_hi].
    pose proof (core_nodes s1 C1) as Hok1. destruct Hl1 as [Vl _], Hh1 as [Vh _].
    rewrite !(grows_den (m_nodes s1) (new_nodes s1 lv l h r)) by done.
    by rewrite !(den_later s s1).
  - intros _. split; [done|]. by exists (the_node lv l h r).
  - intros Hfree. rewrite (Hsame Hfree) in *. split; [exact G|]. cbn in Hf. rewrite Hf. cbn. lia.
Qed.

Lemma node_post_flag x s lv l h r s' : node_post (set_is_new_node x s) lv l h r s' -> node_post s lv l h r s'.
Proof.
  intros []. split; try assumption. eapply frame_trans; [|eassumption]. by split.
Qed.

Lemma make_node_ok s lv l h : wf s -> prot s l -> prot s h -> level_ok lv ->
  child_ok (m_nodes s) lv l -> child_ok (m_nodes s) lv h ->
  wp (make_node lv l h) (node_post s lv l h) s.
Proof.
  intros W Pl Ph Hlv Hl Hh. unfold make_node. wp_seq.
  pose proof (set_flag_wf false s W) as W'. set (s0 := set_is_new_node false s) in *.
  eapply wp_weaken; [|intros r s'; apply node_post_flag]. fold s0.
  destruct (Nat.eqb_spec l h) as [->|Hne].
  { apply wp_ret. split; [done|apply frame_refl|done|apply Hh|etrans; [apply Hh|lia]|intros ρ; by destruct (ρ lv)|done|].
    intros _. split; [done|apply Nat.le_succ_diag_r]. }
  wp_seq. unfold wp at 1, insert_node, node_key, mk_node. cbn [m_level m_lo m_hi m_index]. rewrite level_ok_small by done.
  destruct (m_node_table s0 !! (lv, l, h)) as [i|] eqn:Ei.
  { assert (i <> 0) as Hi by (by eapply (table_index None); [exact Hne| |apply (wf_table _ W')|exact Ei]).
    destruct (Nat.eqb_spec i 0); [done|]. cbn [negb]. apply wp_ret. by apply found_post. }
  cbn [negb Nat.eqb]. fold (reserved (lv, l, h) s0). apply wp_then.
  eapply wp_weaken; [apply (make_room_ok _ lv l h)|].
  - done.
  - done.
  - done.
  - apply reserved_core, W'.
  - by apply reserved_table; [|apply W'|].
  - intros u s1 Hroom. cbv beta in Hroom. wp_seq. destruct (m_free_nodes s1) as [|r free] eqn:Ef.
    { by destruct Hroom as (_ & _ & _ & _ & ? & _). }
    wp_seq. by apply (new_post s0 s1).
Qed.

End building.
