(* ===== verification/BddSound.v ===== *)
(** * BddSound: the operations of [bdd_manager] compute boolean functions on shared diagrams *)
From S2P Require Import Prelude.
From S2P Require Import Bdd.
From S2P Require Import BddProofs.
From Stdlib Require Import ZArith Lia.
From stdpp Require Import base tactics option list numbers gmap sets.
Import bdd_manager diagrams heap_inv collection running building.

(** ** The recursion scheme *)

Module Import recursion.
#[local] Arguments den : simpl never.
#[local] Arguments rank : simpl never.

(** [r] denotes [f], of rank at most [k], in a later state with the same work under way. *)
Record res_post (s : manager) (f : assignment -> bool) (k : nat) (r : BDD) (s' : manager) : Prop := {
  rp_wf : wf s';
  rp_frame : frame s s';
  rp_pending : pending s' = pending s;
  rp_valid : valid (m_nodes s') r;
  rp_rank : rank (m_nodes s') r <= k;
  rp_den : forall ρ, den (m_nodes s') r ρ = f ρ }.

Lemma res_post_weaken s f g k k' r s' : (forall ρ, f ρ = g ρ) -> k <= k' -> res_post s f k r s' -> res_post s g k' r s'.
Proof. intros Hfg Hk []. split; try done; [lia|]. intros ρ. by rewrite <- Hfg. Qed.

Lemma wp_cast {s f g k k'} (m : B BDD) : wp m (res_post s f k) s -> (forall ρ, f ρ = g ρ) -> k <= k' ->
  wp m (res_post s g k') s.
Proof. intros Hm Hfg Hk. eapply wp_weaken; [exact Hm|]. intros r s'. by apply res_post_weaken. Qed.

(** A diagram that is already there. *)
Lemma wp_here s f k b : wf s -> valid (m_nodes s) b -> rank (m_nodes s) b <= k ->
  (forall ρ, den (m_nodes s) b ρ = f ρ) -> wp (mret b : B BDD) (res_post s f k) s.
Proof. intros W Hv Hr Hd. by split; [|apply frame_refl|..]. Qed.

(** *** The stack *)

Lemma set_stack_wf st s : wf s -> (forall b, b ∈ st -> valid (m_nodes s) b) -> wf (set_bdd_stack st s).
Proof.
  intros [[C1 C2 [C3 C3'] [C4 C4' C4'' C4'''] [V1 V2 V3 V4 V5] C6 C7 C8] [T1 T2]] Hst.
  split; split; try done; split; done.
Qed.

Lemma reach_mono ns (R R' : nat -> Prop) b : (forall x, R x -> R' x) -> reach ns R b -> reach ns R' b.
Proof.
  intros HR. induction 1 as [b Hb|b n Hb IH H1 E|b n Hb IH H1 E]; [by apply reach_root, HR|by eapply reach_lo|by eapply reach_hi].
Qed.

Lemma push_later r s : later s (set_bdd_stack (r :: m_bdd_stack s) s).
Proof.
  split; try done. intros b [Hb|Hb]; [by left|right]. eapply reach_mono; [|exact Hb].
  intros x [Hx|Hx]; [left; by right|by right].
Qed.

Lemma push_prot r s : prot (set_bdd_stack (r :: m_bdd_stack s) s) r.
Proof. right. apply reach_root. left. by left. Qed.

Lemma push_wf r s : wf s -> valid (m_nodes s) r -> wf (set_bdd_stack (r :: m_bdd_stack s) s).
Proof.
  intros W Hr. apply set_stack_wf; [done|]. intros b [->|Hb]%elem_of_cons; [done|]. by apply (core_stack s (wf_core s W)).
Qed.

(** The rest of the state after two pushes and pops. *)
Lemma popped_rest s s1 s2 s3 r1 r2 : same_rest s s1 -> same_rest (set_bdd_stack (r1 :: m_bdd_stack s1) s1) s2 ->
  same_rest (set_bdd_stack (r2 :: m_bdd_stack s2) s2) s3 -> same_rest s (set_bdd_stack (m_bdd_stack s) s3).
Proof.
  intros [A1 A2 A3 A4 A5 A6 A7] [B1 B2 B3 B4 B5 B6 B7] [D1 D2 D3 D4 D5 D6 D7]. cbn in *.
  split; cbn; congruence.
Qed.

(** The node over two computed results, protected by the stack while they are computed. *)
Lemma node_of_ok s lv m1 m2 f0 f1 : wf s -> level_ok lv ->
  wp m1 (res_post s f0 lv) s ->
  (forall s', wf s' -> later s s' -> pending s' = pending s -> wp m2 (res_post s' f1 lv) s') ->
  wp (node_of lv m1 m2) (res_post s (fun ρ => if ρ lv then f1 ρ else f0 ρ) (S lv)) s.
Proof.
  intros W Hlv H1 H2. unfold node_of, push, read, pop. apply wp_then. eapply wp_weaken; [exact H1|].
  intros r1 s1 [W1 F1 P1 V1 K1 D1]. wp_seq. set (s1p := set_bdd_stack (r1 :: m_bdd_stack s1) s1).
  assert (wf s1p) as W1p by by apply push_wf. assert (later s s1p) as L1.
  { eapply later_trans; [by apply frame_later|apply push_later]. }
  eapply wp_weaken; [by apply H2|]. intros r2 s2 [W2 F2 P2 V2 K2 D2]. wp_seq.
  set (s2p := set_bdd_stack (r2 :: m_bdd_stack s2) s2).
  assert (wf s2p) as W2p by by apply push_wf. assert (later s1p s2p) as L2.
  { eapply later_trans; [by apply frame_later|apply push_later]. }
  assert (m_bdd_stack s2p = r2 :: r1 :: m_bdd_stack s) as Est.
  { cbn. f_equal. rewrite (same_stack _ _ (frame_rest _ _ F2)). cbn. f_equal. apply (same_stack _ _ (frame_rest _ _ F1)). }
  assert (prot s1p r1) as Pr1 by apply push_prot. assert (prot s2p r2) as Pr2 by apply push_prot.
  assert (child_ok (m_nodes s2p) lv r1) as Hc1 by by apply (child_later s1p s2p L2).
  rewrite Est. eapply wp_at; [reflexivity|]. wp_seq. rewrite Est. eapply wp_at; [reflexivity|]. wp_seq. eapply wp_weaken.
  { apply make_node_ok; [done|by apply (later_prot _ _ L2)|done|done|exact Hc1|by split]. }
  intros r s3 [W3 F3 P3 V3 K3 D3 _ _]. wp_seq.
  assert (m_bdd_stack s3 = r2 :: r1 :: m_bdd_stack s) as Est3 by by rewrite (same_stack _ _ (frame_rest _ _ F3)).
  rewrite Est3. cbn [drop].
  assert (later s s3) as L3 by (eapply later_trans; [exact L1|]; eapply later_trans; [exact L2|by apply frame_later]).
  split; [|split| | | |].
  - apply set_stack_wf; [done|]. intros b Hb. apply (core_stack s3 (wf_core s3 W3)). rewrite Est3. by do 2 right.
  - by eapply popped_rest; [apply F1|apply F2|apply F3].
  - by apply (later_node _ _ L3).
  - by apply (later_rc _ _ L3).
  - change (pending s3 = pending s). rewrite P3. change (pending s2 = pending s). rewrite P2. exact P1.
  - done.
  - done.
  - intros ρ. change (den (m_nodes s3) r ρ = if ρ lv then f1 ρ else f0 ρ). rewrite D3.
    change (den (m_nodes s2p) r2 ρ) with (den (m_nodes s2) r2 ρ). rewrite D2.
    rewrite (den_later s1p s2p L2 r1 ρ Pr1). change (den (m_nodes s1p) r1 ρ) with (den (m_nodes s1) r1 ρ). by rewrite D1.
Qed.

(** *** The cache *)

Definition fresh_entry (s : manager) (a b op : nat) : op_entry := Entry (m_next_entry s) a b op None.
Definition entry_state (s : manager) (e : op_entry) : manager :=
  set_op_cache (e :: m_op_cache s) (set_next_entry (S (m_next_entry s)) s).

(** A new operation under way. *)
Lemma entry_wf s a b op : wf s -> (a = b -> op = not_code) -> wf (entry_state s (fresh_entry s a b op)).
Proof.
  intros [[C1 C2 [C3 C3'] [C4 C4' C4'' C4'''] [V1 V2 V3 V4 V5] C6 C7 C8] [T1 T2]] Hab.
  split; split; try done; try (split; done). split; cbn.
  - apply list.NoDup_cons. split; [|done]. intros (e & Ee & He)%list_elem_of_In%in_map_iff.
    apply list_elem_of_In, C4' in He. lia.
  - intros e [->|He]%elem_of_cons; [cbn; lia|]. apply C4' in He. lia.
  - intros e [->|He]%elem_of_cons; [done|by apply C4''].
  - intros e r [->|He]%elem_of_cons; [done|by apply C4'''].
Qed.

Lemma entry_frame s e : frame s (entry_state s e).
Proof. by split. Qed.

Definition finish (e : op_entry) (r : BDD) (s : manager) : manager :=
  set_op_cache (map (fun x => if e_id x =? e_id e then Entry (e_id x) (m_bdd1 x) (m_bdd2 x) (m_op x) (Some r) else x)
    (m_op_cache s)) s.

Lemma unique_id l (x e : op_entry) : NoDup (map e_id l) -> x ∈ l -> e ∈ l -> e_id x = e_id e -> x = e.
Proof.
  intros Hd Hx He Hi. apply list_elem_of_lookup in Hx as [i Ei], He as [j Ej].
  assert (i = j) as <-; [|congruence]. change (map e_id l) with (e_id <$> l) in Hd.
  eapply (NoDup_lookup _ i j (e_id e) Hd); rewrite list_lookup_fmap; [by rewrite Ei, <- Hi|by rewrite Ej].
Qed.

Lemma filter_keep {A} (P : A -> Prop) `{forall x, Decision (P x)} (l : list A) : (forall x, x ∈ l -> P x) -> filter P l = l.
Proof.
  induction l as [|x l IH]; intros Hl; [done|]. rewrite filter_cons_True by (apply Hl; by left).
  f_equal. apply IH. intros y Hy. apply Hl. by right.
Qed.

Lemma set_cache_wf c s : wf s -> cache_ok (set_op_cache c s) -> wf (set_op_cache c s).
Proof.
  intros [[C1 C2 [C3 C3'] _ [V1 V2 V3 V4 V5] C6 C7 C8] [T1 T2]] Hc. split; split; try done; split; done.
Qed.

Lemma finish_frame e r s : frame s (finish e r s).
Proof. by split. Qed.

Lemma finish_pending e r l : (forall x, x ∈ l -> m_result x = None -> e_id x = e_id e -> x = e) ->
  filter (fun x => m_result x = None)
    (map (fun x => if e_id x =? e_id e then Entry (e_id x) (m_bdd1 x) (m_bdd2 x) (m_op x) (Some r) else x) l) =
  filter (fun x => e_id x <> e_id e) (filter (fun x => m_result x = None) l).
Proof.
  intros Hl. induction l as [|x l IH]; [done|]. cbn [map].
  assert (forall y, y ∈ l -> m_result y = None -> e_id y = e_id e -> y = e) as Hl' by (intros y Hy; apply Hl; by right).
  rewrite (filter_cons _ x l). destruct (Nat.eqb_spec (e_id x) (e_id e)) as [Hi|Hi].
  - rewrite filter_cons_False by done. rewrite IH by done. case_decide; [|done]. by rewrite filter_cons_False by auto.
  - rewrite filter_cons. rewrite IH by done. case_decide; [|done]. by rewrite filter_cons_True.
Qed.

(** Storing the result of the operation [e], the last one under way. *)
Lemma finish_post s e r s2 f k : wf s -> e_id e = m_next_entry s -> m_result e = None ->
  frame s s2 -> wf s2 -> pending s2 = e :: pending s -> valid (m_nodes s2) r -> rank (m_nodes s2) r <= k ->
  (forall ρ, den (m_nodes s2) r ρ = f ρ) ->
  (m_op e = not_code -> m_bdd1 e = m_bdd2 e /\ live s (m_bdd1 e) /\ k = rank (m_nodes s) (m_bdd1 e) /\
     forall ρ, f ρ = negb (den (m_nodes s) (m_bdd1 e) ρ)) ->
  res_post s f k r (finish e r s2).
Proof.
  intros W Hi Hnone F W2 P2 Vr Kr Dr Hnot.
  assert (e ∈ m_op_cache s2) as He.
  { assert (e ∈ pending s2) as Hp by (rewrite P2; by left). by apply list_elem_of_filter in Hp as [_ ?]. }
  pose proof (core_cache s2 (wf_core s2 W2)) as [I1 I2 I3 I4].
  assert (forall x, x ∈ m_op_cache (finish e r s2) -> x ∈ m_op_cache s2 \/ x = Entry (e_id e) (m_bdd1 e) (m_bdd2 e) (m_op e) (Some r)) as Hin.
  { intros x (y & <- & Hy)%list_elem_of_In%in_map_iff. apply list_elem_of_In in Hy.
    destruct (Nat.eqb_spec (e_id y) (e_id e)) as [Hid|]; [right|by left].
    by rewrite (unique_id _ y e I1 Hy He Hid). }
  split; [|eapply frame_trans; [exact F|apply finish_frame]| |done|done|done].
  - apply set_cache_wf; [done|]. split; cbn.
    + rewrite map_map. erewrite map_ext; [exact I1|]. intros x. by destruct (_ =? _).
    + intros x Hx. change (x ∈ m_op_cache (finish e r s2)) in Hx.
      apply Hin in Hx as [Hx| ->]; [by apply I2|]. exact (I2 e He).
    + intros x Hx. change (x ∈ m_op_cache (finish e r s2)) in Hx.
      apply Hin in Hx as [Hx| ->]; [by apply I3|]. exact (I3 e He).
    + intros x y Hx Hop Hy. change (x ∈ m_op_cache (finish e r s2)) in Hx. apply Hin in Hx as [Hx| ->]; [by apply I4|].
      cbn in Hop, Hy. cbn [m_bdd1 m_bdd2]. injection Hy as <-. destruct (Hnot Hop) as (Eab & [Pa Va] & -> & Hf). pose proof (frame_later _ _ F) as La.
      split_and!; [done|by apply (live_later s s2 La)|done|by rewrite (rank_later s s2 La (m_bdd1 e))|].
      intros ρ. by rewrite Dr, Hf, (den_later s s2 La).
  - unfold pending. cbn. rewrite finish_pending.
    + change (filter (fun x => m_result x = None) (m_op_cache s2)) with (pending s2). rewrite P2, filter_cons_False by auto.
      apply filter_keep. intros x [_ Hx]%list_elem_of_filter.
      apply (cache_next s (core_cache s (wf_core s W))) in Hx. lia.
    + intros x Hx _. by apply (unique_id (m_op_cache s2)).
Qed.

(** A query no stored entry matches: the result is computed, and stored. *)
Lemma cached_ok s a b op compute f k : wf s -> (a = b -> op = not_code) ->
  (forall e, e ∈ m_op_cache s -> same_entry e (fresh_entry s a b op) = false) ->
  (op = not_code -> a = b /\ live s a /\ k = rank (m_nodes s) a /\ forall ρ, f ρ = negb (den (m_nodes s) a ρ)) ->
  (forall s1, wf s1 -> frame s s1 -> pending s1 = fresh_entry s a b op :: pending s -> wp compute (res_post s1 f k) s1) ->
  wp (cached a b op compute) (res_post s f k) s.
Proof.
  intros W Hab Hmiss Hnot Hc. unfold cached, pop_entry. wp_seq. fold (fresh_entry s a b op).
  set (e := fresh_entry s a b op) in *. unfold wp at 1, insert_entry. cbn [set_next_entry m_op_cache].
  destruct (list_find _ (m_op_cache s)) as [[i x]|] eqn:Ef.
  { apply list_find_Some in Ef as (Ex & Hx & _). by rewrite Hmiss in Hx by (by eapply list_elem_of_lookup_2). }
  unfold check_result. rewrite Nat.eqb_refl. cbn [negb]. apply wp_then. fold (entry_state s e).
  assert (wf (entry_state s e)) as W1 by by apply entry_wf.
  assert (pending (entry_state s e) = e :: pending s) as P1 by done.
  eapply wp_weaken; [by apply Hc; [|apply entry_frame|]|]. intros r s2 [W2 F2 P2 V2 K2 D2].
  unfold set_result. wp_seq. fold (finish e r s2).
  apply finish_post; try done.
  eapply frame_trans; [apply entry_frame|exact F2].
Qed.

End recursion.

(** ** Binary operations *)

Module Import binary.
#[local] Arguments den : simpl never.
#[local] Arguments rank : simpl never.

Definition bool_op (op : bdd_op) (x y : bool) : bool :=
  match op with
  | bdd_and_op => x && y
  | bdd_or_op => x || y
  | bdd_xor_op => xorb x y
  | _ => false
  end.

Definition binary_op (op : bdd_op) : Prop := op = bdd_and_op \/ op = bdd_or_op \/ op = bdd_xor_op.

(** No node of level 0 in the diagram. *)
Inductive above0 (ns : list bdd_node) : nat -> Prop :=
  | above0_const b : b <= 1 -> above0 ns b
  | above0_node b n : used ns b -> ns !! b = Some n -> 0 < m_level n ->
      above0 ns (m_lo n) -> above0 ns (m_hi n) -> above0 ns b.

Lemma above0_later s s' b : later s s' -> prot s b -> above0 (m_nodes s) b -> above0 (m_nodes s') b.
Proof.
  intros La Hp Ha. induction Ha as [b Hb|b n Hu E H0 Hl IHl Hh IHh]; [by apply above0_const|].
  destruct (prot_child s b n Hp Hu E) as [Pl Ph].
  apply above0_node with n; [|by rewrite (later_node _ _ La)|done|by apply IHl|by apply IHh].
  destruct (valid_agree (m_nodes s) (m_nodes s') b (later_node _ _ La b Hp)) as [Hb|]; [by right| |done].
  apply used_gt in Hu. lia.
Qed.

(** The cases without recursion answer; the others have different operands, constant only in [xor]. *)
Lemma apply_cases_ok a b op : binary_op op -> exists c, apply_cases a b op = mret c /\
  match c with
  | Some r => (r = a \/ r = b \/ r <= 1) /\
      forall ns ρ, den ns r ρ = bool_op op (den ns a ρ) (den ns b ρ)
  | None => a <> b /\ (1 < a \/ 1 < b) /\ a <> 0 /\ b <> 0 /\ (op <> bdd_xor_op -> 1 < a /\ 1 < b)
  end.
Proof.
  intros [-> |[-> | ->]]; cbn [apply_cases]; eexists; (split; [reflexivity|]); unfold is_true, is_false, true_bdd, false_bdd;
    destruct (Nat.eqb_spec a b) as [->|Hab].
  all: try (split; [auto|]; intros ns ρ; cbn [bool_op]; rewrite ?andb_diag, ?orb_diag, ?xorb_nilpotent; done).
  all: destruct (Nat.eqb_spec a 0) as [->|A0]; cbn [orb];
    try (split; [auto|]; intros ns ρ; cbn [bool_op]; rewrite !den_false; by destruct (den ns b ρ)).
  all: destruct (Nat.eqb_spec b 0) as [->|B0]; cbn [orb];
    try (split; [auto|]; intros ns ρ; cbn [bool_op]; rewrite !den_false; by destruct (den ns a ρ)).
  all: try (split_and!; [done|lia|done|done|]; intros Hx; by destruct Hx).
  all: destruct (Nat.eqb_spec a 1) as [->|A1]; cbn [orb];
    try (split; [auto|]; intros ns ρ; cbn [bool_op]; rewrite !den_true; by destruct (den ns b ρ)).
  all: destruct (Nat.eqb_spec b 1) as [->|B1]; cbn [orb];
    try (split; [auto|]; intros ns ρ; cbn [bool_op]; rewrite !den_true; by destruct (den ns a ρ)).
  all: split_and!; lia.
Qed.

(** No stored entry matches a query other than a negation: its operands would be equal. *)
Lemma no_match s a b op : wf s -> op <> not_code -> a <> b \/ a = b ->
  forall e, e ∈ m_op_cache s -> same_entry e (fresh_entry s a b op) = false.
Proof.
  intros W Hop _ e He. unfold same_entry, eq_entry. cbn.
  destruct (Nat.eqb_spec (m_bdd1 e) b) as [E1|]; [|by rewrite andb_false_r].
  destruct (Nat.eqb_spec (m_bdd2 e) b) as [E2|]; [|by rewrite andb_false_r].
  destruct (Nat.eqb_spec (m_op e) op) as [E3|]; [|by rewrite andb_false_r].
  destruct Hop. rewrite <- E3. apply (cache_shape s (core_cache s (wf_core s W)) e He). congruence.
Qed.

Lemma live_lookup s b : wf s -> live s b -> exists n, m_nodes s !! b = Some n.
Proof. intros W [_ Hv]. by apply lookup_lt_is_Some_2, valid_bound; [apply W|]. Qed.

(** The level of a diagram as the code reads it. *)
Lemma read_level s b n : wf s -> valid (m_nodes s) b -> m_nodes s !! b = Some n ->
  (b <= 1 /\ m_level n = 0 /\ m_lo n = 0 /\ m_hi n = 0 /\ rank (m_nodes s) b = 0) \/
  (used (m_nodes s) b /\ rank (m_nodes s) b = S (m_level n)).
Proof.
  intros W [Hb|Hu] E.
  - left. rewrite (nodes_dummy _ (core_nodes s (wf_core s W)) b) in E by lia. injection E as <-.
    by rewrite rank_const.
  - right. destruct (used_lookup _ b Hu) as (m & Em & _ & _ & Hr). split; [done|]. congruence.
Qed.

(** The children of a live node. *)
Lemma live_child s b n : wf s -> live s b -> used (m_nodes s) b -> m_nodes s !! b = Some n ->
  level_ok (m_level n) /\ live s (m_lo n) /\ live s (m_hi n) /\
  rank (m_nodes s) (m_lo n) <= m_level n /\ rank (m_nodes s) (m_hi n) <= m_level n.
Proof.
  intros W [Hp _] Hu E. destruct (used_children _ b n (core_nodes s (wf_core s W)) Hu E) as (Hl & [? ?] & [? ?]).
  destruct (prot_child s b n Hp Hu E). split_and!; done.
Qed.

Lemma above0_child ns b n : used ns b -> ns !! b = Some n -> above0 ns b ->
  0 < m_level n /\ above0 ns (m_lo n) /\ above0 ns (m_hi n).
Proof.
  intros Hu E Ha. destruct Ha as [b Hb|b m Hu' E' H0 Hl Hh]; [apply used_gt in Hu; lia|].
  assert (m = n) as -> by congruence. done.
Qed.

Definition op_cond (op : bdd_op) (s : manager) (a b : BDD) : Prop :=
  op = bdd_xor_op -> above0 (m_nodes s) a /\ above0 (m_nodes s) b.

Lemma op_cond_later op s s' a b : later s s' -> prot s a -> prot s b -> op_cond op s a b -> op_cond op s' a b.
Proof. intros La Pa Pb Hc Hx. destruct (Hc Hx). split; by eapply above0_later. Qed.

Definition apply_spec (fuel : nat) (op : bdd_op) : Prop := forall s a b, wf s -> live s a -> live s b -> op_cond op s a b ->
  1 <= fuel -> rank (m_nodes s) a + rank (m_nodes s) b <= fuel ->
  wp (apply_rec fuel a b op)
    (res_post s (fun ρ => bool_op op (den (m_nodes s) a ρ) (den (m_nodes s) b ρ)) (max (rank (m_nodes s) a) (rank (m_nodes s) b))) s.

(** A recursive call on operands of a former state [s]. *)
Lemma apply_call fuel op s s' x y lv : apply_spec fuel op -> wf s' -> later s s' -> live s x -> live s y -> op_cond op s x y ->
  1 <= fuel -> rank (m_nodes s) x + rank (m_nodes s) y <= fuel -> rank (m_nodes s) x <= lv -> rank (m_nodes s) y <= lv ->
  wp (apply_rec fuel x y op) (res_post s' (fun ρ => bool_op op (den (m_nodes s) x ρ) (den (m_nodes s) y ρ)) lv) s'.
Proof.
  intros Hs W La Lx Ly Hc H1 Hf Hx Hy. pose proof (proj1 Lx) as Px. pose proof (proj1 Ly) as Py.
  eapply wp_cast; [apply Hs| |].
  - done.
  - by eapply live_later.
  - by eapply live_later.
  - by eapply op_cond_later.
  - done.
  - by rewrite !(rank_later s s' La).
  - intros ρ. cbv beta. by rewrite !(den_later s s' La).
  - rewrite !(rank_later s s' La) by done. lia.
Qed.

(** The node at level [lv] over the operation on the cofactors of the operands. *)
Lemma apply_node fuel op s s1 a b a0 a1 b0 b1 lv k m1 m2 : apply_spec fuel op -> wf s1 -> later s s1 ->
  (live s a0 /\ live s b0 /\ op_cond op s a0 b0 /\ rank (m_nodes s) a0 + rank (m_nodes s) b0 <= fuel) ->
  (live s a1 /\ live s b1 /\ op_cond op s a1 b1 /\ rank (m_nodes s) a1 + rank (m_nodes s) b1 <= fuel) ->
  rank (m_nodes s) a0 <= lv /\ rank (m_nodes s) a1 <= lv /\ rank (m_nodes s) b0 <= lv /\ rank (m_nodes s) b1 <= lv ->
  level_ok lv -> 1 <= fuel -> S lv <= k ->
  (forall s' Q, later s s' -> wp (apply_rec fuel a0 b0 op) Q s' -> wp m1 Q s') ->
  (forall s' Q, later s s' -> wp (apply_rec fuel a1 b1 op) Q s' -> wp m2 Q s') ->
  (forall ρ, den (m_nodes s) a ρ = if ρ lv then den (m_nodes s) a1 ρ else den (m_nodes s) a0 ρ) ->
  (forall ρ, den (m_nodes s) b ρ = if ρ lv then den (m_nodes s) b1 ρ else den (m_nodes s) b0 ρ) ->
  wp (node_of lv m1 m2) (res_post s1 (fun ρ => bool_op op (den (m_nodes s) a ρ) (den (m_nodes s) b ρ)) k) s1.
Proof.
  intros Hs W1 La (A1 & A2 & A3 & A4) (B1 & B2 & B3 & B4) (R1 & R2 & R3 & R4) Hlv Hf Hk H1 H2 Da Db.
  eapply wp_cast; [apply (node_of_ok s1 lv m1 m2)|..].
  - done.
  - done.
  - apply H1; [done|]. by apply (apply_call fuel op s s1).
  - intros s' W' L' _. assert (later s s') as Ls by by eapply later_trans.
    apply H2; [done|]. by apply (apply_call fuel op s s').
  - intros ρ. cbv beta. rewrite Da, Db. by destruct (ρ lv).
  - done.
Qed.

Lemma wp_lo_later s s' b n (Q : nat -> manager -> Prop) : later s s' -> live s b -> m_nodes s !! b = Some n ->
  Q (m_lo n) s' -> wp (lo b) Q s'.
Proof. intros La [Hp _] E. apply wp_lo. by rewrite (later_node _ _ La). Qed.
Lemma wp_hi_later s s' b n (Q : nat -> manager -> Prop) : later s s' -> live s b -> m_nodes s !! b = Some n ->
  Q (m_hi n) s' -> wp (hi b) Q s'.
Proof. intros La [Hp _] E. apply wp_hi. by rewrite (later_node _ _ La). Qed.
Lemma wp_level_later s s' b n (Q : nat -> manager -> Prop) : later s s' -> live s b -> m_nodes s !! b = Some n ->
  Q (m_level n) s' -> wp (level b) Q s'.
Proof. intros La [Hp _] E. apply wp_level. by rewrite (later_node _ _ La). Qed.

Lemma den_same (ns : list bdd_node) b lv (ρ : assignment) : den ns b ρ = if ρ lv then den ns b ρ else den ns b ρ.
Proof. by destruct (ρ lv). Qed.

(** The operands of a call that is not a case: at least one is a node, and an operand at the level of
    the other is a node too. *)
Lemma operands s a b na nb op : wf s -> live s a -> live s b -> op_cond op s a b -> binary_op op ->
  m_nodes s !! a = Some na -> m_nodes s !! b = Some nb ->
  1 < a \/ 1 < b -> (op <> bdd_xor_op -> 1 < a /\ 1 < b) ->
  (m_level na = m_level nb /\ used (m_nodes s) a /\ used (m_nodes s) b) \/
  (m_level nb < m_level na /\ used (m_nodes s) a /\ rank (m_nodes s) b <= m_level na) \/
  (m_level na < m_level nb /\ used (m_nodes s) b /\ rank (m_nodes s) a <= m_level nb).
Proof.
  intros W La Lb Hc Hop Ea Eb H1 Hx.
  assert (forall x n, op_cond op s x x -> op = bdd_xor_op -> used (m_nodes s) x -> m_nodes s !! x = Some n -> 0 < m_level n) as Hpos.
  { intros x n Hcx Eop Hu E. destruct (Hcx Eop) as [Ha _]. by apply (above0_child _ x n Hu E). }
  assert (op_cond op s a a /\ op_cond op s b b) as [Ca Cb] by (split; intros Eop; destruct (Hc Eop); done).
  destruct (read_level s a na W (proj2 La) Ea) as [(A1 & A2 & _ & _ & A3)|[Ua Ra]];
    destruct (read_level s b nb W (proj2 Lb) Eb) as [(B1 & B2 & _ & _ & B3)|[Ub Rb]]; [lia|..].
  - right. right. assert (op = bdd_xor_op) as Eop by (destruct Hop as [-> |[-> | ->]]; [destruct Hx; [done|lia]|destruct Hx; [done|lia]|done]).
    pose proof (Hpos b nb Cb Eop Ub Eb). split_and!; [lia|done|lia].
  - right. left. assert (op = bdd_xor_op) as Eop by (destruct Hop as [-> |[-> | ->]]; [destruct Hx; [done|lia]|destruct Hx; [done|lia]|done]).
    pose proof (Hpos a na Ca Eop Ua Ea). split_and!; [lia|done|lia].
  - destruct (lt_eq_lt_dec (m_level na) (m_level nb)) as [[Hlt|Heq]|Hlt]; [right; right|left|right; left]; split_and!; try done; lia.
Qed.

Lemma apply_rec_ok op : binary_op op -> forall fuel, apply_spec fuel op.
Proof.
  intros Hop. induction fuel as [|fuel IH]; intros s a b W La Lb Hc H1 Hf; [lia|]. cbn [apply_rec].
  destruct (apply_cases_ok a b op Hop) as (c & -> & Hcase). wp_seq. destruct c as [r|].
  { destruct Hcase as [Hr Hd]. apply wp_here; [done| | |done].
    - destruct Hr as [-> |[-> |Hr]]; [apply La|apply Lb|by left].
    - destruct Hr as [-> |[-> |Hr]]; [lia|lia|]. rewrite rank_const by done. lia. }
  destruct Hcase as (Hab & Hbig & _ & _ & Hx).
  assert (is_const a && is_const b = false) as ->.
  { unfold is_const. destruct (Nat.leb_spec a 1), (Nat.leb_spec b 1); try done. lia. }
  assert (op_code op <> not_code) as Hcode by (by destruct Hop as [-> |[-> | ->]]).
  apply cached_ok; [done|done|apply no_match; auto|done|]. intros s1 W1 F1 _. pose proof (frame_later _ _ F1) as L1.
  destruct (live_lookup s a W La) as [na Ea]. destruct (live_lookup s b W Lb) as [nb Eb].
  wp_seq. eapply wp_level_later; [done|exact La|done|]. wp_seq. eapply wp_level_later; [done|exact Lb|done|].
  assert (forall x n, live s x -> used (m_nodes s) x -> m_nodes s !! x = Some n -> forall ρ,
    den (m_nodes s) x ρ = if ρ (m_level n) then den (m_nodes s) (m_hi n) ρ else den (m_nodes s) (m_lo n) ρ) as Hd.
  { intros x n _ Hu E ρ. by apply den_node; [apply W|..]. }
  destruct (operands s a b na nb op W La Lb Hc Hop Ea Eb Hbig Hx) as [(El & Ua & Ub)|[(El & Ua & Rb)|(El & Ub & Ra)]].
  - destruct (Nat.eqb_spec (m_level na) (m_level nb)) as [_|]; [|done].
    destruct (live_child s a na W La Ua Ea) as (Hlv & La0 & La1 & Ra0 & Ra1).
    destruct (live_child s b nb W Lb Ub Eb) as (_ & Lb0 & Lb1 & Rb0 & Rb1).
    destruct (used_lookup _ a Ua) as (? & ? & _ & _ & RA), (used_lookup _ b Ub) as (? & ? & _ & _ & RB). simplify_eq.
    apply (apply_node fuel op s s1 a b (m_lo na) (m_hi na) (m_lo nb) (m_hi nb)); try done; try lia.
    + split_and!; [done|done| |lia]. intros Eop. destruct (Hc Eop) as [Za Zb].
      split; [by apply (above0_child _ a na)|by apply (above0_child _ b nb)].
    + split_and!; [done|done| |lia]. intros Eop. destruct (Hc Eop) as [Za Zb].
      split; [by apply (above0_child _ a na)|by apply (above0_child _ b nb)].
    + intros s' Q L' HQ. wp_seq. eapply wp_lo_later; [done|exact La|done|]. wp_seq. by eapply wp_lo_later; [|exact Lb|..].
    + intros s' Q L' HQ. wp_seq. eapply wp_hi_later; [done|exact La|done|]. wp_seq. by eapply wp_hi_later; [|exact Lb|..].
    + by apply Hd.
    + rewrite El. by apply Hd.
  - destruct (Nat.eqb_spec (m_level na) (m_level nb)) as [|_]; [lia|]. destruct (Nat.ltb_spec (m_level nb) (m_level na)); [|lia].
    destruct (live_child s a na W La Ua Ea) as (Hlv & La0 & La1 & Ra0 & Ra1).
    destruct (used_lookup _ a Ua) as (? & ? & _ & _ & RA). simplify_eq.
    apply (apply_node fuel op s s1 a b (m_lo na) (m_hi na) b b); try done; try lia.
    + split_and!; [done|done| |lia]. intros Eop. destruct (Hc Eop) as [Za Zb]. split; [by apply (above0_child _ a na)|done].
    + split_and!; [done|done| |lia]. intros Eop. destruct (Hc Eop) as [Za Zb]. split; [by apply (above0_child _ a na)|done].
    + intros s' Q L' HQ. wp_seq. by eapply wp_lo_later; [|exact La|..].
    + intros s' Q L' HQ. wp_seq. by eapply wp_hi_later; [|exact La|..].
    + by apply Hd.
    + intros ρ. apply den_same.
  - destruct (Nat.eqb_spec (m_level na) (m_level nb)) as [|_]; [lia|]. destruct (Nat.ltb_spec (m_level nb) (m_level na)); [lia|].
    destruct (live_child s b nb W Lb Ub Eb) as (Hlv & Lb0 & Lb1 & Rb0 & Rb1).
    destruct (used_lookup _ b Ub) as (? & ? & _ & _ & RB). simplify_eq.
    apply (apply_node fuel op s s1 a b a a (m_lo nb) (m_hi nb)); try done; try lia.
    + split_and!; [done|done| |lia]. intros Eop. destruct (Hc Eop) as [Za Zb]. split; [done|by apply (above0_child _ b nb)].
    + split_and!; [done|done| |lia]. intros Eop. destruct (Hc Eop) as [Za Zb]. split; [done|by apply (above0_child _ b nb)].
    + intros s' Q L' HQ. wp_seq. by eapply wp_lo_later; [|exact Lb|..].
    + intros s' Q L' HQ. wp_seq. by eapply wp_hi_later; [|exact Lb|..].
    + intros ρ. apply den_same.
    + by apply Hd.
Qed.

End binary.

(** ** Negation and quantification *)

Module Import unary.
#[local] Arguments den : simpl never.
#[local] Arguments rank : simpl never.

Lemma scoped_ok s f k m : wp m (res_post s f k) s -> wp (scoped m) (res_post s f k) s.
Proof.
  intros Hm. unfold scoped, shrink. wp_seq. eapply wp_weaken; [exact Hm|]. intros r s' Hr. wp_seq.
  rewrite (same_stack _ _ (frame_rest _ _ (rp_frame _ _ _ _ _ Hr))), Nat.sub_diag. cbn [drop].
  rewrite <- (same_stack _ _ (frame_rest _ _ (rp_frame _ _ _ _ _ Hr))). by destruct s'.
Qed.

Lemma apply_ok op s a b : binary_op op -> wf s -> live s a -> live s b -> op_cond op s a b ->
  wp (apply a b op)
    (res_post s (fun ρ => bool_op op (den (m_nodes s) a ρ) (den (m_nodes s) b ρ)) (max (rank (m_nodes s) a) (rank (m_nodes s) b))) s.
Proof.
  intros Hop W La Lb Hc. unfold apply. destruct (live_lookup s a W La) as [na Ea]. destruct (live_lookup s b W Lb) as [nb Eb].
  wp_seq. eapply wp_level; [done|]. wp_seq. eapply wp_level; [done|]. apply scoped_ok, apply_rec_ok; try done; [lia|].
  destruct (read_level s a na W (proj2 La) Ea) as [(_ & _ & _ & _ & ->)|[_ ->]];
    destruct (read_level s b nb W (proj2 Lb) Eb) as [(_ & _ & _ & _ & ->)|[_ ->]]; lia.
Qed.

(** The negations under way are of higher diagrams. *)
Definition not_pending (s : manager) (b : BDD) : Prop := forall e, e ∈ pending s -> m_op e = not_code ->
  live s (m_bdd1 e) /\ rank (m_nodes s) b < rank (m_nodes s) (m_bdd1 e).

Lemma not_pending_later s s' b c : later s s' -> pending s' = pending s -> live s b -> live s c ->
  rank (m_nodes s) c <= rank (m_nodes s) b -> not_pending s b -> not_pending s' c.
Proof.
  intros La Ep Lb Lc Hr Hn e He Hop. rewrite Ep in He. destruct (Hn e He Hop) as [Le Hlt].
  split; [by eapply live_later|]. rewrite !(rank_later s s' La) by (apply Le || apply Lc). lia.
Qed.

(** A stored negation that matches a query is complete, and of the same operand. *)
Lemma not_hit s b x : wf s -> live s b -> not_pending s b -> x ∈ m_op_cache s ->
  same_entry x (fresh_entry s b b not_code) = true -> exists r, m_result x = Some r /\ m_bdd1 x = b /\ m_op x = not_code.
Proof.
  intros W Lb Hn Hx Hs. unfold same_entry, eq_entry in Hs. cbn [fresh_entry m_bdd1 m_bdd2 m_op] in Hs.
  rewrite !andb_true_iff, !Nat.eqb_eq in Hs. destruct Hs as [_ [[E1 E2] E3]].
  destruct (m_result x) as [r|] eqn:Er; [by exists r|]. exfalso.
  assert (x ∈ pending s) as Hp by by apply list_elem_of_filter. destruct (Hn x Hp E3) as [_ Hr]. rewrite E1 in Hr. lia.
Qed.

Lemma next_wf s : wf s -> wf (set_next_entry (S (m_next_entry s)) s).
Proof.
  intros [[C1 C2 [C3 C3'] [C4 C4' C4'' C4'''] [V1 V2 V3 V4 V5] C6 C7 C8] [T1 T2]].
  split; split; try done; try (split; done). split; try done. intros e He. cbn. apply C4' in He. lia.
Qed.

(** The query of a negation, answered from the cache. *)
Lemma cached_not_hit s b x compute : wf s -> live s b -> not_pending s b ->
  snd <$> list_find (fun x => same_entry x (fresh_entry s b b not_code) = true) (m_op_cache s) = Some x ->
  wp (cached b b not_code compute) (res_post s (fun ρ => negb (den (m_nodes s) b ρ)) (rank (m_nodes s) b)) s.
Proof.
  intros W Lb Hn Hf. unfold cached, pop_entry. wp_seq. fold (fresh_entry s b b not_code).
  unfold wp at 1, insert_entry. cbn [set_next_entry m_op_cache].
  destruct (list_find _ (m_op_cache s)) as [[i y]|] eqn:Ef; [|done]. injection Hf as ->.
  apply list_find_Some in Ef as (Ex & Hx & _). apply list_elem_of_lookup_2 in Ex.
  pose proof (core_cache s (wf_core s W)) as [_ I2 _ I4]. pose proof (I2 x Ex) as Hid.
  destruct (not_hit s b x W Lb Hn Ex Hx) as (r & Er & <- & Eop).
  unfold check_result. cbn [e_id fresh_entry]. destruct (Nat.eqb_spec (m_next_entry s) (e_id x)); [lia|]. cbn [negb].
  rewrite Er. eapply wp_at; [done|]. destruct (I4 x r Ex Eop Er) as (_ & _ & Vr & Rr & Dr).
  split; [by apply next_wf|by split|done|done|done|done].
Qed.

Lemma cached_not s b compute : wf s -> live s b -> not_pending s b ->
  (forall s1, wf s1 -> frame s s1 -> (forall c, live s c -> rank (m_nodes s) c < rank (m_nodes s) b -> not_pending s1 c) ->
    wp compute (res_post s1 (fun ρ => negb (den (m_nodes s) b ρ)) (rank (m_nodes s) b)) s1) ->
  wp (cached b b not_code compute) (res_post s (fun ρ => negb (den (m_nodes s) b ρ)) (rank (m_nodes s) b)) s.
Proof.
  intros W Lb Hn Hc.
  destruct (snd <$> list_find (fun x => same_entry x (fresh_entry s b b not_code) = true) (m_op_cache s)) as [x|] eqn:Ef.
  { by eapply cached_not_hit. }
  apply fmap_None, list_find_None in Ef. rewrite list.Forall_forall in Ef.
  apply cached_ok; [done|done| |done|].
  - intros e He. specialize (Ef e He). by destruct (same_entry e _).
  - intros s1 W1 F1 P1. apply Hc; [done|done|]. intros c Lc Hr e He Hop. rewrite P1 in He.
    pose proof (frame_later _ _ F1) as L1. apply elem_of_cons in He as [->|He].
    + cbn. split; [by eapply live_later|]. rewrite !(rank_later s s1 L1); [done|apply Lb|apply Lc].
    + destruct (Hn e He Hop) as [Le Hlt]. split; [by eapply live_later|].
      rewrite !(rank_later s s1 L1) by (apply Le || apply Lc). lia.
Qed.

Definition not_spec (fuel : nat) : Prop := forall s b, wf s -> live s b -> not_pending s b ->
  rank (m_nodes s) b < fuel ->
  wp (mk_not_rec fuel b) (res_post s (fun ρ => negb (den (m_nodes s) b ρ)) (rank (m_nodes s) b)) s.

Lemma not_call fuel s s' x lv : not_spec fuel -> wf s' -> later s s' -> live s x -> not_pending s' x ->
  rank (m_nodes s) x < fuel -> rank (m_nodes s) x <= lv ->
  wp (mk_not_rec fuel x) (res_post s' (fun ρ => negb (den (m_nodes s) x ρ)) lv) s'.
Proof.
  intros Hs W La Lx Hn Hf Hx. pose proof (proj1 Lx) as Px. eapply wp_cast; [apply Hs|..].
  - done.
  - by eapply live_later.
  - done.
  - by rewrite (rank_later s s' La).
  - intros ρ. cbv beta. by rewrite (den_later s s' La).
  - by rewrite (rank_later s s' La).
Qed.

Lemma mk_not_rec_ok fuel : not_spec fuel.
Proof.
  induction fuel as [|fuel IH]; intros s b W Lb Hn Hf; [lia|]. cbn [mk_not_rec]. unfold is_true, is_false, true_bdd, false_bdd.
  destruct (Nat.eqb_spec b 1) as [->|B1]; [apply wp_here; [done|by left; lia|done|done]|].
  destruct (Nat.eqb_spec b 0) as [->|B0]; [apply wp_here; [done|by left; lia|done|done]|].
  apply cached_not; [done|done|done|]. intros s1 W1 F1 Hp. pose proof (frame_later _ _ F1) as L1.
  destruct (live_lookup s b W Lb) as [n E]. assert (used (m_nodes s) b) as Hu by (destruct Lb as [_ [?|?]]; [lia|done]).
  destruct (live_child s b n W Lb Hu E) as (Hlv & Ll & Lh & Rl & Rh).
  destruct (used_lookup _ b Hu) as (m & Em & _ & _ & Rb). assert (m = n) as -> by congruence.
  wp_seq. eapply wp_level_later; [done|exact Lb|done|]. eapply wp_cast; [apply node_of_ok|..].
  - done.
  - done.
  - wp_seq. eapply wp_lo_later; [done|exact Lb|done|]. apply (not_call fuel s s1); try done; [apply Hp; [done|lia]|lia].
  - intros s' W' L' P'. assert (later s s') as Ls by by eapply later_trans.
    wp_seq. eapply wp_hi_later; [done|exact Lb|done|]. apply (not_call fuel s s'); try done; [|lia].
    eapply (not_pending_later s1 s' (m_hi n) (m_hi n)); [done|done|by eapply live_later..|done|apply Hp; [done|lia]].
  - intros ρ. cbv beta. rewrite (den_node _ b n ρ (core_nodes s (wf_core s W)) Hu E). by destruct (ρ (m_level n)).
  - lia.
Qed.

Lemma mk_not_top_ok s b : wf s -> live s b -> not_pending s b ->
  wp (mk_not_top b) (res_post s (fun ρ => negb (den (m_nodes s) b ρ)) (rank (m_nodes s) b)) s.
Proof.
  intros W Lb Hn. unfold mk_not_top. destruct (live_lookup s b W Lb) as [n E].
  wp_seq. eapply wp_level; [done|]. apply mk_not_rec_ok; try done.
  destruct (read_level s b n W (proj2 Lb) E) as [(_ & _ & _ & _ & ->)|[_ ->]]; lia.
Qed.

(** *** Quantifiers *)

Definition quant_op (op : bdd_op) : Prop := op = bdd_and_op \/ op = bdd_or_op.

(** The combination of the two cofactors at level [l]. *)
Definition quantify (op : bdd_op) (l : nat) (f : assignment -> bool) : assignment -> bool :=
  fun ρ => bool_op op (f (set_level l false ρ)) (f (set_level l true ρ)).

Lemma bool_op_idem op x : quant_op op -> bool_op op x x = x.
Proof. intros [-> | ->]; by destruct x. Qed.

(** The literal that names a level in the cache is of that level or lower. *)
Lemma level_literal s l : wf s -> l < length (m_var2level s) ->
  exists p, m_level2var s !! l = Some l /\ m_var2bdd s !! l = Some p /\ used (m_nodes s) p /\ rank (m_nodes s) p <= S l.
Proof.
  intros W Hl. destruct (core_vars s (wf_core s W)) as [V1 V2 V3 V4 V5].
  destruct (lookup_lt_is_Some_2 (m_var2bdd s) l) as [p Ep]; [lia|]. exists p.
  split; [rewrite V2, V1; by rewrite lookup_seq_lt|]. split; [done|].
  assert (used (m_nodes s) p /\ exists n v c d, m_nodes s !! p = Some n /\ node_key n = (v, c, d) /\ v <= l) as [Hu (n & v & c & d & En & Ek & Hv)].
  { destruct (Nat.Even_or_Odd l) as [[v Hv]|[v Hv]]; subst l.
    - destruct (V4 v p ltac:(lia) Ep) as (Hu & n & En & _ & Ek). split; [done|]. exists n, v, 0, 1. split_and!; [done|done|lia].
    - destruct (V5 v p ltac:(lia) Ep) as (Hu & n & En & _ & Ek). split; [done|]. exists n, v, 1, 0. split_and!; [done|done|lia]. }
  split; [done|]. destruct (used_lookup _ p Hu) as (m & Em & _ & _ & ->). assert (m = n) as -> by congruence.
  injection Ek as <- _ _. lia.
Qed.

Definition quant_spec (fuel : nat) (op : bdd_op) : Prop := forall s l b, wf s -> live s b -> l < length (m_var2level s) ->
  rank (m_nodes s) b < fuel ->
  wp (mk_quant_rec fuel l b op) (res_post s (quantify op l (den (m_nodes s) b)) (rank (m_nodes s) b)) s.

Lemma quant_call fuel op s s' l x lv : quant_spec fuel op -> wf s' -> later s s' -> live s x -> l < length (m_var2level s) ->
  rank (m_nodes s) x < fuel -> rank (m_nodes s) x <= lv ->
  wp (mk_quant_rec fuel l x op) (res_post s' (quantify op l (den (m_nodes s) x)) lv) s'.
Proof.
  intros Hs W La Lx Hl Hf Hx. pose proof (proj1 Lx) as Px. eapply wp_cast; [apply Hs|..].
  - done.
  - by eapply live_later.
  - by rewrite (later_v2l _ _ La).
  - by rewrite (rank_later s s' La).
  - intros ρ. unfold quantify. by rewrite !(den_later s s' La).
  - by rewrite (rank_later s s' La).
Qed.

Lemma mk_quant_rec_ok op : quant_op op -> forall fuel, quant_spec fuel op.
Proof.
  intros Hop. induction fuel as [|fuel IH]; intros s l b W Lb Hl Hf; [lia|]. cbn [mk_quant_rec].
  destruct (live_lookup s b W Lb) as [n E]. wp_seq. eapply wp_level; [done|]. unfold is_const.
  pose proof (core_nodes s (wf_core s W)) as Hok. pose proof (proj2 Lb) as Vb.
  destruct (Nat.leb_spec b 1) as [Hb|Hb].
  { apply wp_here; [done|done|done|]. intros ρ. unfold quantify.
    rewrite !den_set_level by (done || rewrite rank_const by done; lia). by rewrite bool_op_idem. }
  assert (used (m_nodes s) b) as Hu by (destruct Vb; [lia|done]).
  destruct (live_child s b n W Lb Hu E) as (Hlv & Ll & Lh & Rl & Rh).
  destruct (used_lookup _ b Hu) as (m & Em & _ & _ & Rb). assert (m = n) as -> by congruence.
  destruct (Nat.eqb_spec (m_level n) l) as [<-|Hne].
  { wp_seq. eapply wp_lo; [done|]. wp_seq. eapply wp_hi; [done|]. eapply wp_cast; [apply apply_ok|..]; try done.
    - destruct Hop as [-> | ->]; [by left|by right; left].
    - intros ->. by destruct Hop.
    - intros ρ. unfold quantify. by rewrite !(den_cofactor _ b n _ ρ Hok Hu E).
    - lia. }
  destruct (Nat.ltb_spec (m_level n) l) as [Hlt|Hge].
  { apply wp_here; [done|done|done|]. intros ρ. unfold quantify.
    rewrite !den_set_level by (done || rewrite Rb; lia). by rewrite bool_op_idem. }
  destruct (level_literal s l W Hl) as (p & E1 & E2 & Hup & Rp). unfold level2bdd.
  wp_seq. rewrite E1. eapply wp_at; [done|]. wp_seq. rewrite E2. eapply wp_at; [done|].
  set (q := match op with bdd_and_op => bdd_and_proj_op | _ => bdd_or_proj_op end).
  assert (op_code q <> not_code) as Hcode by (by destruct Hop as [-> | ->]).
  assert (p <> b) as Hpb by (intros ->; lia).
  apply cached_ok; [done|done|apply no_match; auto|done|]. intros s1 W1 F1 _. pose proof (frame_later _ _ F1) as L1.
  eapply wp_cast; [apply node_of_ok|..].
  - done.
  - exact Hlv.
  - wp_seq. eapply wp_lo_later; [done|exact Lb|done|]. apply (quant_call fuel op s s1); try done. lia.
  - intros s' W' L' P'. assert (later s s') as Ls by by eapply later_trans.
    wp_seq. eapply wp_hi_later; [done|exact Lb|done|]. apply (quant_call fuel op s s'); try done. lia.
  - intros ρ. unfold quantify. rewrite !(den_node _ b n _ Hok Hu E).
    assert (forall v, set_level l v ρ (m_level n) = ρ (m_level n)) as Hs.
    { intros v. unfold set_level. by destruct (Nat.eqb_spec (m_level n) l). }
    rewrite !Hs. by destruct (ρ (m_level n)).
  - lia.
Qed.

End unary.

(** ** Reference counts *)

Module Import references.
#[local] Arguments den : simpl never.
#[local] Arguments rank : simpl never.

Definition count (b : BDD) (hs : list BDD) : nat := length (filter (fun h => h = b) hs).

(** Every count is exact, or saturated for ever. *)
Definition counted (s : manager) (hs : list BDD) : Prop :=
  forall b, rc (m_nodes s) b = max_rc \/ (rc (m_nodes s) b = count b hs /\ rc (m_nodes s) b < max_rc).

(** [s] with another count at [b]. *)
Definition recount (b k : nat) (s : manager) : manager := set_nodes (alter (set_refcount k) b (m_nodes s)) s.

Section Recount.
Context (s : manager) (b k : nat).

Lemma recount_lookup i : m_nodes (recount b k s) !! i =
  if decide (b = i) then set_refcount k <$> m_nodes s !! i else m_nodes s !! i.
Proof. unfold recount. cbn. rewrite list_lookup_alter. by case_decide; subst. Qed.

(** The triples are the same. *)
Lemma recount_node i n' : m_nodes (recount b k s) !! i = Some n' -> exists n, m_nodes s !! i = Some n /\
  m_level n' = m_level n /\ m_lo n' = m_lo n /\ m_hi n' = m_hi n /\ m_index n' = m_index n /\
  m_refcount n' = if decide (b = i) then k else m_refcount n.
Proof.
  rewrite recount_lookup. destruct (decide (b = i)) as [->|Hb]; [|by exists n'].
  intros (n & E & ->)%fmap_Some. by exists n.
Qed.

Lemma recount_back i n : m_nodes s !! i = Some n -> exists n', m_nodes (recount b k s) !! i = Some n' /\
  m_level n' = m_level n /\ m_lo n' = m_lo n /\ m_hi n' = m_hi n /\
  m_refcount n' = if decide (b = i) then k else m_refcount n.
Proof.
  rewrite recount_lookup. intros ->. destruct (decide (b = i)) as [->|Hb]; [|by exists n]. by exists (set_refcount k n).
Qed.

Lemma recount_used i : used (m_nodes (recount b k s)) i <-> used (m_nodes s) i.
Proof.
  split; intros (Hi & n & E & Hn); (split; [done|]).
  - apply recount_node in E as (m & Em & _ & El & Eh & _). exists m. split; [done|congruence].
  - apply recount_back in E as (m & Em & _ & El & Eh & _). exists m. split; [done|congruence].
Qed.

Lemma recount_valid i : valid (m_nodes (recount b k s)) i <-> valid (m_nodes s) i.
Proof. unfold valid. by rewrite recount_used. Qed.

Lemma recount_rank i : rank (m_nodes (recount b k s)) i = rank (m_nodes s) i.
Proof.
  unfold rank, lvl. destruct (m_nodes s !! i) as [n|] eqn:E.
  - apply recount_back in E as (m & -> & El & _). cbn. by rewrite El.
  - by rewrite recount_lookup, E; case_decide.
Qed.

Lemma recount_den i ρ : den (m_nodes (recount b k s)) i ρ = den (m_nodes s) i ρ.
Proof.
  unfold den. rewrite recount_rank. generalize (S (rank (m_nodes s) i)) as f. intros f. revert i.
  induction f as [|f IH]; intros i; [done|]. cbn [eval]. destruct (i =? 1); [done|]. destruct (i =? 0); [done|].
  destruct (m_nodes s !! i) as [n|] eqn:E.
  - apply recount_back in E as (m & -> & El & Elo & Ehi & _). rewrite El, Elo, Ehi. by destruct (ρ (m_level n)).
  - by rewrite recount_lookup, E; case_decide.
Qed.

Lemma recount_rc i : i < length (m_nodes s) -> rc (m_nodes (recount b k s)) i = if decide (b = i) then k else rc (m_nodes s) i.
Proof.
  intros Hi. unfold rc. destruct (lookup_lt_is_Some_2 (m_nodes s) i Hi) as [n E].
  destruct (recount_back i n E) as (m & -> & _ & _ & _ & Er). rewrite E. cbn. rewrite Er. by case_decide.
Qed.

Lemma recount_child l i : child_ok (m_nodes (recount b k s)) l i <-> child_ok (m_nodes s) l i.
Proof. unfold child_ok. by rewrite recount_valid, recount_rank. Qed.

(** A new count of a used node; a saturated one is not lowered. *)
Lemma recount_wf : wf s -> used (m_nodes s) b -> rc (m_nodes s) b < max_rc \/ k = max_rc -> wf (recount b k s).
Proof.
  intros [[C1 C2 [C3 C3'] [C4 C4' C4'' C4'''] [V1 V2 V3 V4 V5] C6 C7 C8] [T1 T2]] Hu Hk.
  assert (11 <= b) as Hb by apply Hu.
  assert (forall i c, (used (m_nodes s) i /\ exists n, m_nodes s !! i = Some n /\ m_refcount n = max_rc /\ node_key n = c) ->
    used (m_nodes (recount b k s)) i /\ exists n, m_nodes (recount b k s) !! i = Some n /\ m_refcount n = max_rc /\ node_key n = c) as Hlit.
  { intros i c (Hui & n & E & Er & Ek). split; [by apply recount_used|].
    destruct (recount_back i n E) as (m & Em & E1 & E2 & E3 & E4). exists m. split; [done|]. unfold node_key in *.
    split; [|congruence]. rewrite E4. case_decide as D; [|done]. subst i. destruct Hk as [Hk|Hk]; [|done].
    unfold rc in Hk. rewrite E in Hk. cbn in Hk. lia. }
  split; split.
  - split.
    + intros i Hi. rewrite recount_lookup. case_decide; [lia|by apply nodes_dummy].
    + intros i n (m & Em & _ & _ & _ & -> & _)%recount_node. by apply (nodes_index _ C1 i m).
    + intros i n (m & Em & El & Elo & Ehi & _)%recount_node Hi. rewrite El, Elo, Ehi, !recount_child. by apply (nodes_node _ C1 i m Em).
  - intros i j n m Ei Ej Ui Uj Ek. apply recount_used in Ui, Uj.
    apply recount_node in Ei as (n0 & Ei & A1 & A2 & A3 & _). apply recount_node in Ej as (m0 & Ej & B1 & B2 & B3 & _).
    apply (C2 i j n0 m0); try done. unfold node_key in *. congruence.
  - split; [done|]. intros i Hi. destruct (C3' i Hi) as (H1 & n & E & E1 & E2 & E3). split; [done|].
    destruct (recount_back i n E) as (m & Em & _ & M1 & M2 & M3). exists m. split_and!; [done|congruence|congruence|].
    rewrite M3. case_decide; [|done]. subst i. destruct Hu as (_ & n' & ? & ?). congruence.
  - split; [done|done|done|]. intros e r He Hop Hr. destruct (C4''' e r He Hop Hr) as (J1 & J2 & J3 & J4 & J5).
    split_and!; [done|by apply recount_valid|by apply recount_valid| |].
    + fold (recount b k s). by rewrite !recount_rank.
    + intros ρ. fold (recount b k s). by rewrite !recount_den.
  - split; try done; intros v p Hv Hp; apply Hlit; auto.
  - intros i Hi. apply recount_valid. by apply C6.
  - intros i Hi Hr. apply recount_used. destruct (decide (b = i)) as [<-|Hne]; [done|]. apply C7; [done|].
    unfold rc in *. rewrite recount_lookup in Hr. by case_decide.
  - done.
  - intros l a c i Hac Hk' Hi. destruct (T1 l a c i Hac Hk' Hi) as (Hui & n & E & Ek). split; [by apply recount_used|].
    destruct (recount_back i n E) as (m & Em & E1 & E2 & E3 & _). exists m. split; [done|]. unfold node_key in *. congruence.
  - intros i n Hui E. apply recount_used in Hui. apply recount_node in E as (m & Em & E1 & E2 & E3 & _).
    destruct (T2 i m Hui Em) as [_ E']. split; [done|]. unfold node_key in *. by rewrite E1, E2, E3.
Qed.

End Recount.

Lemma count_snoc b c hs : count b (hs ++ [c]) = count b hs + if decide (c = b) then 1 else 0.
Proof.
  unfold count. rewrite filter_app, length_app.
  destruct (decide (c = b)); [rewrite filter_singleton_True by done|rewrite filter_singleton_False by done]; done.
Qed.

Lemma count_pos b hs : b ∈ hs -> 0 < count b hs.
Proof.
  intros Hb. unfold count. destruct (filter _ hs) eqn:E; [|cbn; lia].
  exfalso. by apply (filter_nil_not_elem_of _ _ _ E eq_refl Hb).
Qed.

Lemma count_delete b k h hs : hs !! k = Some h -> count b hs = count b (delete k hs) + if decide (h = b) then 1 else 0.
Proof.
  intros Hk. rewrite <- (take_drop_middle hs k h Hk) at 1. rewrite (delete_take_drop hs k).
  unfold count. rewrite !filter_app, !length_app, filter_cons. case_decide; cbn; lia.
Qed.

End references.

(** ** Handles *)

Module Import handles.
#[local] Arguments den : simpl never.
#[local] Arguments rank : simpl never.

(** Between operations, with handles [hs] in the program. *)
Record client (s : manager) (hs : list BDD) : Prop := {
  cl_wf : wf s;
  cl_pending : pending s = [];
  cl_stack : m_bdd_stack s = [];
  cl_valid : forall b, b ∈ hs -> valid (m_nodes s) b;
  cl_counted : counted s hs }.

(** [b] denotes what it did, and the variables are the same. *)
Definition keeps (s s' : manager) (b : BDD) : Prop :=
  valid (m_nodes s') b /\ forall ρ, den (m_nodes s') b ρ = den (m_nodes s) b ρ.
Definition same_vars (s s' : manager) : Prop :=
  m_var2bdd s' = m_var2bdd s /\ m_var2level s' = m_var2level s /\ m_level2var s' = m_level2var s.

Lemma keeps_trans s1 s2 s3 b : keeps s1 s2 b -> keeps s2 s3 b -> keeps s1 s3 b.
Proof. intros [_ H1] [H2 H3]. split; [done|]. intros ρ. by rewrite H3. Qed.

Lemma same_vars_trans s1 s2 s3 : same_vars s1 s2 -> same_vars s2 s3 -> same_vars s1 s3.
Proof. intros (? & ? & ?) (? & ? & ?). split_and!; congruence. Qed.

Lemma handle_live s hs b : client s hs -> b ∈ hs -> live s b.
Proof.
  intros Cl Hb. pose proof (cl_valid s hs Cl b Hb) as Hv. split; [|done].
  destruct (decide (b <= 1)) as [|H1]; [by left|right]. apply reach_root. right. split; [lia|].
  pose proof (count_pos b hs Hb). destruct (cl_counted s hs Cl b) as [->|[-> _]]; [unfold max_rc|]; lia.
Qed.

(** After an operation: the handles keep their meaning. *)
Lemma res_client s hs f k r s' : client s hs -> res_post s f k r s' ->
  client s' hs /\ (forall b, b ∈ hs -> keeps s s' b) /\ same_vars s s' /\ valid (m_nodes s') r /\
  forall ρ, den (m_nodes s') r ρ = f ρ.
Proof.
  intros Cl [W F P V R D]. pose proof (frame_later _ _ F) as La.
  assert (forall b, b ∈ hs -> keeps s s' b) as Hk.
  { intros b Hb. pose proof (handle_live s hs b Cl Hb) as Lb. split; [by apply (live_later s s' La)|].
    intros ρ. apply (den_later s s' La), Lb. }
  split; [|split; [exact Hk|split; [by split_and!; apply La|done]]].
  split; [done|by rewrite P, (cl_pending s hs Cl)|by rewrite (same_stack _ _ (frame_rest _ _ F)), (cl_stack s hs Cl)| |].
  - intros b Hb. by apply Hk.
  - intros b. rewrite (frame_rc _ _ F). apply (cl_counted s hs Cl).
Qed.

Lemma not_free s b : wf s -> valid (m_nodes s) b -> b ∉ m_free_nodes s.
Proof.
  intros W Hv Hf. destruct (free_node s (core_free s (wf_core s W)) b Hf) as (H1 & n & E & E1 & E2 & _).
  destruct Hv as [Hv|(_ & m & Em & Hm)]; [lia|congruence].
Qed.

Lemma verify_ok s b (Q : unit -> manager -> Prop) : wf s -> valid (m_nodes s) b -> Q tt s -> wp (verify_used b) Q s.
Proof.
  intros W Hv HQ. unfold verify_used. wp_seq. rewrite bool_decide_eq_false_2; [done|]. by apply not_free.
Qed.

(** The count of the constants never changes. *)
Lemma rc_used s b : wf s -> valid (m_nodes s) b -> rc (m_nodes s) b <> max_rc -> used (m_nodes s) b.
Proof.
  intros W [Hb|Hu] Hr; [|done]. destruct Hr. unfold rc.
  by rewrite (nodes_dummy _ (core_nodes s (wf_core s W)) b) by lia.
Qed.

Lemma rc_lookup s b n : m_nodes s !! b = Some n -> rc (m_nodes s) b = m_refcount n.
Proof. unfold rc. by intros ->. Qed.

Lemma recount_client s hs hs' b k : client s hs -> used (m_nodes s) b -> rc (m_nodes s) b < max_rc -> k <= max_rc ->
  (forall c, c ∈ hs' -> valid (m_nodes s) c) -> (k = max_rc \/ (k = count b hs' /\ k < max_rc)) ->
  (forall c, c <> b -> count c hs' = count c hs) -> client (recount b k s) hs'.
Proof.
  intros [W P St V Co] Hu Hr Hk Hv Hb Hc. split; [by apply recount_wf; auto|done|done| |].
  - intros c Hin. by apply recount_valid, Hv.
  - intros c. assert (valid (m_nodes s) b) as Vb by by right.
    destruct (decide (b = c)) as [<-|Hne].
    + rewrite recount_rc by (apply valid_bound; [apply W|done]). by rewrite decide_True.
    + destruct (decide (c < length (m_nodes s))) as [Hlt|Hge].
      * rewrite recount_rc, decide_False by done. rewrite Hc by congruence. apply Co.
      * specialize (Co c). rewrite <- Hc in Co by congruence. unfold rc in *. rewrite recount_lookup, decide_False by done. exact Co.
Qed.

(** Constructing a handle: the count goes up. *)
Lemma mk_bdd_ok s hs r : client s hs -> valid (m_nodes s) r -> wp (mk_bdd r) (fun x s' => x = r /\
  client s' (hs ++ [r]) /\ same_vars s s' /\ forall b, valid (m_nodes s) b -> keeps s s' b) s.
Proof.
  intros Cl Hv. pose proof (cl_wf s hs Cl) as W. unfold mk_bdd, inc_ref, set_rc. wp_seq.
  destruct (lookup_lt_is_Some_2 (m_nodes s) r) as [n E]; [by apply valid_bound; [apply W|]|].
  eapply wp_node; [done|]. wp_seq. pose proof (rc_lookup s r n E) as Er.
  assert (forall c, c ∈ hs ++ [r] -> valid (m_nodes s) c) as Hvs.
  { intros c [Hc| ->%list_elem_of_singleton]%elem_of_app; [by apply (cl_valid s hs Cl)|done]. }
  destruct (Nat.eqb_spec (m_refcount n) max_rc) as [Em|Em]; wp_seq.
  - apply verify_ok; [done|done|]. wp_seq. split; [done|]. split; [|split; [done|by split]].
    destruct Cl as [_ P St V Co]. split; [done|done|done|done|]. intros c. rewrite count_snoc.
    destruct (decide (r = c)) as [<-|]; [left; congruence|]. rewrite Nat.add_0_r. apply Co.
  - fold (recount r (S (m_refcount n)) s). assert (used (m_nodes s) r) as Hu by (apply rc_used; [done|done|congruence]).
    assert (rc (m_nodes s) r = count r hs) as Ec by (destruct (cl_counted s hs Cl r) as [|[? _]]; congruence).
    assert (m_refcount n < max_rc) as Hlt by (destruct (cl_counted s hs Cl r) as [|[_ ?]]; [congruence|lia]).
    assert (client (recount r (S (m_refcount n)) s) (hs ++ [r])) as Cl'.
    { apply (recount_client s hs); try done; [lia| |].
      - rewrite count_snoc, decide_True by done. lia.
      - intros c Hc. rewrite count_snoc, decide_False by congruence. lia. }
    apply verify_ok; [apply Cl'|by apply recount_valid|]. wp_seq. split; [done|]. split; [done|]. split; [done|].
    intros b Hb. split; [by apply recount_valid|]. intros ρ. apply recount_den.
Qed.

(** Destroying the [k]-th handle: the count goes down, and stays above zero for the others. *)
Lemma del_bdd_ok s hs k b : client s hs -> hs !! k = Some b -> wp (del_bdd b) (fun _ s' =>
  client s' (delete k hs) /\ same_vars s s' /\ forall c, valid (m_nodes s) c -> keeps s s' c) s.
Proof.
  intros Cl Ek. pose proof (cl_wf s hs Cl) as W. unfold del_bdd, dec_ref, set_rc. wp_seq.
  assert (b ∈ hs) as Hin by by eapply list_elem_of_lookup_2. pose proof (cl_valid s hs Cl b Hin) as Hv.
  destruct (lookup_lt_is_Some_2 (m_nodes s) b) as [n E]; [by apply valid_bound; [apply W|]|].
  eapply wp_node; [done|]. wp_seq. pose proof (rc_lookup s b n E) as Er. pose proof (count_pos b hs Hin) as Hpos.
  assert (forall c, c ∈ delete k hs -> valid (m_nodes s) c) as Hvs.
  { intros c Hc. apply (cl_valid s hs Cl). apply list_elem_of_In. apply list_elem_of_In in Hc.
    rewrite delete_take_drop in Hc. rewrite <- (take_drop_middle hs k b Ek). rewrite in_app_iff in *. cbn. tauto. }
  assert (forall c, c <> b -> count c (delete k hs) = count c hs) as Hne.
  { intros c Hc. rewrite (count_delete c k b hs Ek), decide_False by congruence. lia. }
  pose proof (count_delete b k b hs Ek) as Hb. rewrite decide_True in Hb by done.
  destruct (Nat.eqb_spec (m_refcount n) max_rc) as [Em|Em]; wp_seq.
  - apply verify_ok; [done|done|]. split; [|split; [done|by split]].
    destruct Cl as [_ P St V Co]. split; [done|done|done|done|]. intros c.
    destruct (decide (c = b)) as [->|Hcb]; [left; congruence|]. rewrite Hne by done. apply Co.
  - assert (used (m_nodes s) b) as Hu by (apply rc_used; [done|done|congruence]).
    assert (rc (m_nodes s) b = count b hs /\ m_refcount n < max_rc) as [Ec Hlt] by (destruct (cl_counted s hs Cl b) as [|[? ?]]; [congruence|split; [done|lia]]).
    destruct (Nat.eqb_spec (m_refcount n) 0) as [E0|E0]; [lia|]. fold (recount b (m_refcount n - 1) s).
    assert (client (recount b (m_refcount n - 1) s) (delete k hs)) as Cl'.
    { apply (recount_client s hs); try done; lia. }
    apply verify_ok; [apply Cl'|by apply recount_valid|]. split; [done|]. split; [done|].
    intros c Hc. split; [by apply recount_valid|]. intros ρ. apply recount_den.
Qed.

(** An operation followed by the construction of the handle of its result. *)
Lemma wp_handle s hs f k m : client s hs -> wp m (res_post s f k) s ->
  wp (r ← m; mk_bdd r) (fun r s' => client s' (hs ++ [r]) /\ same_vars s s' /\
    (forall b, b ∈ hs -> keeps s s' b) /\ forall ρ, den (m_nodes s') r ρ = f ρ) s.
Proof.
  intros Cl Hm. apply wp_then. eapply wp_weaken; [exact Hm|]. intros r s1 Hr.
  destruct (res_client s hs f k r s1 Cl Hr) as (Cl1 & K1 & V1 & Vr & Dr).
  eapply wp_weaken; [by apply (mk_bdd_ok s1 hs)|]. intros x s2 (-> & Cl2 & V2 & K2).
  split; [done|]. split; [by eapply same_vars_trans|]. split.
  - intros b Hb. eapply keeps_trans; [by apply K1|]. apply K2, K1, Hb.
  - intros ρ. rewrite <- Dr. by apply K2.
Qed.

End handles.

(** ** A client of the manager and its abstract machine *)

(** What a program does with handles, named by their position in its list. *)
Inductive cmd :=
  | c_true | c_false | c_var (i : nat) | c_nvar (i : nat)
  | c_not (j : nat) | c_and (j k : nat) | c_or (j k : nat) | c_xor (j k : nat)
  | c_exists (v j : nat) | c_forall (v j : nat) | c_copy (j : nat) | c_drop (j : nat) | c_gc.

Module Import machine.
#[local] Arguments den : simpl never.
#[local] Arguments rank : simpl never.

(** A new handle at the end of the list. *)
Definition add_handle (hs : list BDD) (m : B BDD) : B (list BDD) := r ← m; mret (hs ++ [r]).
Definition handle (hs : list BDD) (j : nat) : B BDD := at_ (hs !! j).

Definition exec (c : cmd) (hs : list BDD) : B (list BDD) :=
  match c with
  | c_true => add_handle hs mk_true
  | c_false => add_handle hs mk_false
  | c_var i => add_handle hs (mk_var i)
  | c_nvar i => add_handle hs (mk_nvar i)
  | c_not j => a ← handle hs j; add_handle hs (mk_not a)
  | c_and j k => a ← handle hs j; b ← handle hs k; add_handle hs (mk_and a b)
  | c_or j k => a ← handle hs j; b ← handle hs k; add_handle hs (mk_or a b)
  | c_xor j k => a ← handle hs j; b ← handle hs k; add_handle hs (mk_xor a b)
  | c_exists v j => a ← handle hs j; add_handle hs (mk_exists [v] a)
  | c_forall v j => a ← handle hs j; add_handle hs (mk_forall [v] a)
  | c_copy j => a ← handle hs j; add_handle hs (mk_bdd a)
  | c_drop j => a ← handle hs j; _ ← del_bdd a; mret (delete j hs)
  | c_gc => _ ← gc; mret hs
  end.

Fixpoint exec_all (cs : list cmd) (hs : list BDD) : B (list BDD) :=
  match cs with [] => mret hs | c :: cs => hs ← exec c hs; exec_all cs hs end.

Abbreviation fn := (assignment -> bool).

(** Boolean functions that do not look at the first variable. *)
Definition ignores0 (f : fn) : Prop := forall ρ v, f (set_level 0 v ρ) = f ρ.

(** The abstract machine: a list of boolean functions of [n] variables. *)
Inductive step (n : nat) : cmd -> list fn -> list fn -> Prop :=
  | step_true fs : step n c_true fs (fs ++ [fun _ => true])
  | step_false fs : step n c_false fs (fs ++ [fun _ => false])
  | step_var i fs : i < n -> step n (c_var i) fs (fs ++ [fun ρ => ρ i])
  | step_nvar i fs : i < n -> step n (c_nvar i) fs (fs ++ [fun ρ => negb (ρ i)])
  | step_not j f fs : fs !! j = Some f -> step n (c_not j) fs (fs ++ [fun ρ => negb (f ρ)])
  | step_and j k f g fs : fs !! j = Some f -> fs !! k = Some g ->
      step n (c_and j k) fs (fs ++ [fun ρ => f ρ && g ρ])
  | step_or j k f g fs : fs !! j = Some f -> fs !! k = Some g ->
      step n (c_or j k) fs (fs ++ [fun ρ => f ρ || g ρ])
  | step_xor j k f g fs : fs !! j = Some f -> fs !! k = Some g -> ignores0 f -> ignores0 g ->
      step n (c_xor j k) fs (fs ++ [fun ρ => xorb (f ρ) (g ρ)])
  | step_exists v j f fs : fs !! j = Some f -> v < n ->
      step n (c_exists v j) fs (fs ++ [fun ρ => f (set_level v false ρ) || f (set_level v true ρ)])
  | step_forall v j f fs : fs !! j = Some f -> v < n ->
      step n (c_forall v j) fs (fs ++ [fun ρ => f (set_level v false ρ) && f (set_level v true ρ)])
  | step_copy j f fs : fs !! j = Some f -> step n (c_copy j) fs (fs ++ [f])
  | step_drop j f fs : fs !! j = Some f -> step n (c_drop j) fs (delete j fs)
  | step_gc fs : step n c_gc fs fs.

Inductive steps (n : nat) : list cmd -> list fn -> list fn -> Prop :=
  | steps_nil fs : steps n [] fs fs
  | steps_cons c cs fs fs1 fs2 : step n c fs fs1 -> steps n cs fs1 fs2 -> steps n (c :: cs) fs fs2.

(** The manager and the handles represent the functions [fs] of [n] variables. *)
Record represents (n : nat) (s : manager) (hs : list BDD) (fs : list fn) : Prop := {
  rep_client : client s hs;
  rep_vars : length (m_var2level s) = n;
  rep_den : Forall2 (fun b f => forall ρ, den (m_nodes s) b ρ = f ρ) hs fs }.

Section Machine.
Context (n : nat).

Lemma rep_handle s hs fs j f : represents n s hs fs -> fs !! j = Some f ->
  exists b, hs !! j = Some b /\ b ∈ hs /\ live s b /\ forall ρ, den (m_nodes s) b ρ = f ρ.
Proof.
  intros [Cl _ D] Ef. destruct (Forall2_lookup_r _ _ _ _ _ D Ef) as (b & Eb & Db). exists b.
  assert (b ∈ hs) as Hin by by eapply list_elem_of_lookup_2. split_and!; try done. by eapply handle_live.
Qed.

(** Handles that keep their meaning. *)
Lemma den_kept s s' hs fs : (forall b, b ∈ hs -> keeps s s' b) ->
  Forall2 (fun b (f : fn) => forall ρ, den (m_nodes s) b ρ = f ρ) hs fs ->
  Forall2 (fun b (f : fn) => forall ρ, den (m_nodes s') b ρ = f ρ) hs fs.
Proof.
  intros Hk D. induction D as [|b f hs fs Hb D IH]; constructor.
  - intros ρ. rewrite <- Hb. apply Hk. by left.
  - apply IH. intros c Hc. apply Hk. by right.
Qed.

Lemma rep_add s s' hs fs r (f : fn) : represents n s hs fs -> client s' (hs ++ [r]) -> same_vars s s' ->
  (forall b, b ∈ hs -> keeps s s' b) -> (forall ρ, den (m_nodes s') r ρ = f ρ) -> represents n s' (hs ++ [r]) (fs ++ [f]).
Proof.
  intros [Cl V D] Cl' (_ & E & _) Hk Hr. split; [done|by rewrite E|]. apply Forall2_app; [|by repeat constructor].
  by eapply den_kept.
Qed.

(** [m] makes the handle of a function [f]. *)
Definition makes (s : manager) (hs : list BDD) (fs : list fn) (f : fn) (m : B BDD) : Prop :=
  wp m (fun r s' => represents n s' (hs ++ [r]) (fs ++ [f])) s.

Lemma makes_add s hs fs f m : makes s hs fs f m -> wp (add_handle hs m) (fun hs' s' => represents n s' hs' (fs ++ [f])) s.
Proof. intros Hm. unfold add_handle. apply wp_then. eapply wp_weaken; [exact Hm|]. intros r s' R. by wp_seq. Qed.

Lemma makes_here s hs fs b (f : fn) : represents n s hs fs -> valid (m_nodes s) b -> (forall ρ, den (m_nodes s) b ρ = f ρ) ->
  makes s hs fs f (mk_bdd b).
Proof.
  intros R Hv Hd. eapply wp_weaken; [apply (mk_bdd_ok s hs b); [apply R|done]|].
  intros r s' (-> & Cl' & V' & K'). eapply rep_add; try done.
  - intros c Hc. by apply K', (cl_valid s hs (rep_client _ _ _ _ R)).
  - intros ρ. rewrite <- Hd. by apply K'.
Qed.

Lemma makes_result s hs fs (m : B BDD) (f g : fn) k : represents n s hs fs -> wp m (res_post s g k) s -> (forall ρ, g ρ = f ρ) ->
  makes s hs fs f (r ← m; mk_bdd r).
Proof.
  intros R Hm Hg. eapply wp_weaken; [eapply wp_handle; [apply R|exact Hm]|].
  intros r s' (Cl' & V' & K' & D'). eapply rep_add; try done. intros ρ. by rewrite D'.
Qed.

Lemma wp_get_handle s hs j b (Q : BDD -> manager -> Prop) : hs !! j = Some b -> Q b s -> wp (handle hs j) Q s.
Proof. intros E HQ. by eapply wp_at. Qed.

(** A diagram of a function that ignores the first variable has no node of level 0. *)
Lemma ignores_above0 ns : nodes_ok ns -> forall k b, rank ns b <= k -> valid ns b -> ignores0 (den ns b) -> above0 ns b.
Proof.
  intros Hok. induction k as [|k IH]; intros b Hr Hv Hi.
  { destruct Hv as [Hb|Hu]; [by apply above0_const|]. destruct (used_lookup ns b Hu) as (? & _ & _ & _ & ?). lia. }
  destruct Hv as [Hb|Hu]; [by apply above0_const|]. destruct (used_lookup ns b Hu) as (n' & E & Hne & _ & Rb).
  destruct (used_children ns b n' Hok Hu E) as (_ & [Vl Rl] & [Vh Rh]).
  assert (forall v, ignores0 (den ns (if v : bool then m_hi n' else m_lo n')) \/ m_level n' = 0) as Hch.
  { intros v. destruct (decide (m_level n' = 0)) as [|Hl]; [by right|left]. intros ρ w.
    rewrite <- !(den_cofactor ns b n' v _ Hok Hu E), <- (Hi (set_level (m_level n') v ρ) w).
    apply den_agree; [done|by right|]. intros l _. unfold set_level. by destruct (Nat.eqb_spec l 0), (Nat.eqb_spec l (m_level n')); subst. }
  destruct (decide (m_level n' = 0)) as [Hl|Hl].
  - exfalso. apply Hne. rewrite Hl in *.
    assert (m_lo n' <= 1 /\ m_hi n' <= 1) as [H1 H2].
    { split; [destruct Vl as [|Hx]|destruct Vh as [|Hx]]; try done; destruct (used_lookup ns _ Hx) as (? & _ & _ & _ & ?); lia. }
    apply (const_canonical ns); [done|done|].
    pose proof (den_cofactor ns b n' false (fun _ => false) Hok Hu E) as E0.
    pose proof (den_cofactor ns b n' true (fun _ => false) Hok Hu E) as E1. cbv iota in E0, E1.
    rewrite <- E0, <- E1, Hl, !Hi. done.
  - apply above0_node with n'; [done|done|lia| |].
    + apply IH; [lia|done|]. by destruct (Hch false).
    + apply IH; [lia|done|]. by destruct (Hch true).
Qed.

Lemma ignores_ext (f g : fn) : (forall ρ, f ρ = g ρ) -> ignores0 g -> ignores0 f.
Proof. intros Hfg Hi ρ v. by rewrite !Hfg. Qed.

(** The literals of the reserved variables. *)
Lemma var_literal s hs fs i : represents n s hs fs -> i < n ->
  exists p q, m_var2bdd s !! (2 * i) = Some p /\ m_var2bdd s !! (2 * i + 1) = Some q /\
    valid (m_nodes s) p /\ valid (m_nodes s) q /\
    (forall ρ, den (m_nodes s) p ρ = ρ i) /\ (forall ρ, den (m_nodes s) q ρ = negb (ρ i)).
Proof.
  intros [Cl V _] Hi. destruct (core_vars s (wf_core s (cl_wf s hs Cl))) as [V1 V2 V3 V4 V5].
  pose proof (core_nodes s (wf_core s (cl_wf s hs Cl))) as Hok.
  destruct (lookup_lt_is_Some_2 (m_var2bdd s) (2 * i)) as [p Ep]; [lia|].
  destruct (lookup_lt_is_Some_2 (m_var2bdd s) (2 * i + 1)) as [q Eq]; [lia|].
  destruct (V4 i p) as (Up & np & Enp & _ & Kp); [lia|done|]. destruct (V5 i q) as (Uq & nq & Enq & _ & Kq); [lia|done|].
  injection Kp as P1 P2 P3. injection Kq as Q1 Q2 Q3.
  exists p, q. split_and!; [done|done|by right|by right| |]; intros ρ.
  - rewrite (den_node _ p np ρ Hok Up Enp), P1, P2, P3, den_true, den_false. by destruct (ρ i).
  - rewrite (den_node _ q nq ρ Hok Uq Enq), Q1, Q2, Q3, den_true, den_false. by destruct (ρ i).
Qed.

Lemma reserved_var s hs fs i (Q : unit -> manager -> Prop) : represents n s hs fs -> i < n -> Q tt s -> wp (reserve_var i) Q s.
Proof.
  intros [_ V _] Hi HQ. unfold reserve_var. wp_seq. rewrite V. replace (S i - n) with 0 by lia. done.
Qed.

Lemma scoped_empty {A} (m : B A) (Q : A -> manager -> Prop) s : m_bdd_stack s = [] ->
  wp m (fun x s' => m_bdd_stack s' = [] /\ Q x s') s -> wp (scoped m) Q s.
Proof.
  intros E Hm. unfold scoped, shrink. wp_seq. rewrite E. eapply wp_weaken; [exact Hm|]. intros x s' [E' HQ]. wp_seq.
  rewrite E'. cbn. rewrite <- E'. by destruct s'.
Qed.

Lemma makes_not s hs fs b (f : fn) : represents n s hs fs -> live s b -> (forall ρ, den (m_nodes s) b ρ = f ρ) ->
  makes s hs fs (fun ρ => negb (f ρ)) (mk_not b).
Proof.
  intros R Lb Hd. unfold makes, mk_not. apply wp_then.
  eapply wp_weaken; [apply (mk_bdd_ok s hs b); [apply R|apply Lb]|]. intros b1 s1 (-> & Cl1 & V1 & K1).
  assert (b ∈ hs ++ [b]) as Hin by (apply elem_of_app; right; by left).
  apply wp_then, scoped_empty; [apply Cl1|]. eapply wp_weaken.
  { eapply (wp_handle s1 (hs ++ [b])); [done|]. apply mk_not_top_ok; [apply Cl1|by eapply handle_live|].
    intros e He. rewrite (cl_pending _ _ Cl1) in He. by apply elem_of_nil in He. }
  intros r s2 (Cl2 & V2 & K2 & D2). split; [apply Cl2|]. apply wp_then. eapply wp_weaken.
  { apply (del_bdd_ok s2 ((hs ++ [b]) ++ [r]) (length hs) b Cl2). rewrite <- app_assoc. by apply list_lookup_middle. }
  intros u s3 (Cl3 & V3 & K3). wp_seq. rewrite <- app_assoc in Cl3. cbn [app] in Cl3. rewrite delete_middle in Cl3.
  assert (forall c, c ∈ hs -> keeps s s3 c) as K.
  { intros c Hc. pose proof (cl_valid s hs (rep_client _ _ _ _ R) c Hc) as Hv. assert (c ∈ hs ++ [b]) as Hc1 by (apply elem_of_app; by left).
    eapply keeps_trans; [by apply K1|]. eapply keeps_trans; [by apply K2|]. apply K3. by apply K2. }
  eapply rep_add; try done.
  - eapply same_vars_trans; [exact V1|]. by eapply same_vars_trans.
  - intros ρ. assert (valid (m_nodes s2) r) as Vr by (apply (cl_valid _ _ Cl2), elem_of_app; right; by left).
    destruct (K3 r Vr) as [_ ->]. rewrite D2. f_equal. rewrite <- Hd. apply K1, Lb.
Qed.

Lemma makes_apply s hs fs a b (f g : fn) op : represents n s hs fs -> live s a -> live s b ->
  (forall ρ, den (m_nodes s) a ρ = f ρ) -> (forall ρ, den (m_nodes s) b ρ = g ρ) ->
  binary_op op -> (op = bdd_xor_op -> ignores0 f /\ ignores0 g) ->
  makes s hs fs (fun ρ => bool_op op (f ρ) (g ρ)) (r ← apply a b op; mk_bdd r).
Proof.
  intros R La Lb Ha Hb Hop Hi. pose proof (cl_wf _ _ (rep_client _ _ _ _ R)) as W.
  eapply makes_result; [done|apply apply_ok; try done|].
  - intros E. destruct (Hi E) as [If Ig]. pose proof (core_nodes s (wf_core s W)) as Hok.
    split; (eapply ignores_above0; [done|reflexivity|apply La || apply Lb|by eapply ignores_ext]).
  - intros ρ. cbv beta. by rewrite Ha, Hb.
Qed.

Lemma makes_quant s hs fs b (f : fn) op v : represents n s hs fs -> live s b -> (forall ρ, den (m_nodes s) b ρ = f ρ) ->
  quant_op op -> v < n ->
  makes s hs fs (fun ρ => bool_op op (f (set_level v false ρ)) (f (set_level v true ρ))) (r ← mk_quant [v] b op; mk_bdd r).
Proof.
  intros R Lb Hb Hop Hv. pose proof (cl_wf _ _ (rep_client _ _ _ _ R)) as W. pose proof (rep_vars _ _ _ _ R) as En.
  eapply (makes_result s hs fs _ _ (quantify op v (den (m_nodes s) b))); [done| |intros ρ; unfold quantify; by rewrite !Hb].
  cbn [mk_quant]. destruct (live_lookup s b W Lb) as [nd E]. wp_seq. eapply wp_at.
  { rewrite (vars_level s (core_vars s (wf_core s W))). by apply lookup_seq_lt; lia. }
  wp_seq. eapply wp_level; [done|]. wp_seq. eapply wp_weaken; [apply mk_quant_rec_ok; try done; [cbn; lia|]|].
  - destruct (read_level s b nd W (proj2 Lb) E) as [(_ & _ & _ & _ & ->)|[_ ->]]; lia.
  - intros r s' Hr. exact Hr.
Qed.

(** The literal [2 * i + d] of a reserved variable. *)
Lemma makes_literal s hs fs i (d : nat) (f : fn) : represents n s hs fs -> i < n ->
  (forall p, m_var2bdd s !! (2 * i + d) = Some p -> valid (m_nodes s) p /\ forall ρ, den (m_nodes s) p ρ = f ρ) -> d <= 1 ->
  makes s hs fs f (_ ← reserve_var i; v2b ← gets m_var2bdd; r ← at_ (v2b !! (2 * i + d)); mk_bdd r).
Proof.
  intros R Hi Hp Hd. unfold makes. apply wp_then. eapply reserved_var; [done|done|]. wp_seq.
  destruct (lookup_lt_is_Some_2 (m_var2bdd s) (2 * i + d)) as [p E].
  { pose proof (vars_length s (core_vars s (wf_core s (cl_wf _ _ (rep_client _ _ _ _ R))))). rewrite (rep_vars _ _ _ _ R) in *. lia. }
  rewrite E. eapply wp_at; [done|]. destruct (Hp p E). by apply makes_here.
Qed.

Lemma makes_var s hs fs i : represents n s hs fs -> i < n -> makes s hs fs (fun ρ => ρ i) (mk_var i).
Proof.
  intros R Hi. destruct (var_literal s hs fs i R Hi) as (p & q & Ep & _ & Vp & _ & Dp & _).
  pose proof (makes_literal s hs fs i 0 (fun ρ => ρ i) R Hi) as H. rewrite !Nat.add_0_r in H.
  apply H; [|lia]. intros p' E'. assert (p' = p) as -> by congruence. done.
Qed.

Lemma makes_nvar s hs fs i : represents n s hs fs -> i < n -> makes s hs fs (fun ρ => negb (ρ i)) (mk_nvar i).
Proof.
  intros R Hi. destruct (var_literal s hs fs i R Hi) as (p & q & _ & Eq & _ & Vq & _ & Dq).
  apply (makes_literal s hs fs i 1); [done|done| |lia]. intros q' E'. assert (q' = q) as -> by congruence. done.
Qed.

Lemma rep_drop s hs fs j b (f : fn) : represents n s hs fs -> hs !! j = Some b -> fs !! j = Some f ->
  wp (del_bdd b) (fun _ s' => represents n s' (delete j hs) (delete j fs)) s.
Proof.
  intros R Eb Ef. pose proof (rep_client _ _ _ _ R) as Cl. eapply wp_weaken; [by apply (del_bdd_ok s hs j b)|].
  intros u s' (Cl' & (_ & E & _) & K). split; [done|by rewrite E; apply R|]. apply Forall2_delete.
  apply (den_kept s s'); [|apply R]. intros c Hc. apply K. by apply (cl_valid s hs Cl).
Qed.

Lemma rep_gc s hs fs : represents n s hs fs -> wp gc (fun _ s' => represents n s' hs fs) s.
Proof.
  intros R. pose proof (rep_client _ _ _ _ R) as Cl. destruct (gc_ok s (wf_core s (cl_wf s hs Cl))) as (s' & E & W & F & P & _).
  unfold wp. rewrite E. assert (res_post s (fun _ => false) 0 0 s') as Hr by (split; try done; by left; lia).
  destruct (res_client s hs _ _ _ _ Cl Hr) as (Cl' & K & (_ & Ev & _) & _). split; [done|by rewrite Ev; apply R|].
  apply (den_kept s s'); [done|apply R].
Qed.

(** One command. *)
Lemma exec_ok c s hs fs fs' : represents n s hs fs -> step n c fs fs' ->
  wp (exec c hs) (fun hs' s' => represents n s' hs' fs') s.
Proof.
  intros R Hst. pose proof R as [Cl _ _].
  destruct Hst as [| | | |j f ? Ef|j k f g ? Ef Eg|j k f g ? Ef Eg|j k f g ? Ef Eg If Ig|v j f ? Ef Hv|v j f ? Ef Hv|j f ? Ef|j f ? Ef|];
    cbn [exec]; try destruct (rep_handle s hs _ _ _ R Ef) as (a & Ea & Ha & La & Da);
    try destruct (rep_handle s hs _ _ _ R Eg) as (b & Eb & Hb & Lb & Db);
    try (apply wp_then; eapply wp_get_handle; [exact Ea|]); try (apply wp_then; eapply wp_get_handle; [exact Eb|]);
    try apply makes_add.
  - apply makes_here; [done|by left|done].
  - apply makes_here; [done|by left; unfold false_bdd; lia|done].
  - by apply makes_var.
  - by apply makes_nvar.
  - by apply makes_not.
  - apply (makes_apply s hs _ a b f g bdd_and_op); try done. by left.
  - apply (makes_apply s hs _ a b f g bdd_or_op); try done. by right; left.
  - apply (makes_apply s hs _ a b f g bdd_xor_op); try done. by right; right.
  - apply (makes_quant s hs _ a f bdd_or_op); try done. by right.
  - apply (makes_quant s hs _ a f bdd_and_op); try done. by left.
  - apply makes_here; [done|apply La|done].
  - apply wp_then. eapply wp_weaken; [by eapply rep_drop|]. intros u s' R'. by wp_seq.
  - apply wp_then. eapply wp_weaken; [by apply rep_gc|]. intros u s' R'. by wp_seq.
Qed.

Lemma exec_all_ok cs fs fs' : steps n cs fs fs' -> forall s hs, represents n s hs fs ->
  wp (exec_all cs hs) (fun hs' s' => represents n s' hs' fs') s.
Proof.
  induction 1 as [|c cs fs fs1 fs2 Hc _ IH]; intros s hs R; cbn [exec_all]; [by wp_seq|].
  apply wp_then. eapply wp_weaken; [by eapply exec_ok|]. intros hs1 s1 R1. by apply IH.
Qed.

End Machine.
End machine.

(** ** The initial manager *)

Module Import initial.
#[local] Arguments den : simpl never.
#[local] Arguments rank : simpl never.

Lemma bind_done {A C} (m : B A) (f : A -> B C) s x s1 : m s = Done x s1 -> (x ← m; f x) s = f x s1.
Proof. intros E. unfold mbind, B_bind. by rewrite E. Qed.

(** A node is made when one is free. *)
Lemma make_node_done s lv l h (Q : BDD -> manager -> Prop) : m_free_nodes s <> [] -> wp (make_node lv l h) Q s ->
  exists r s', make_node lv l h s = Done r s' /\ Q r s'.
Proof.
  intros Hf. unfold wp. assert (forall s', make_node lv l h s <> MemOut s') as Hm.
  { unfold make_node. erewrite bind_done by reflexivity. destruct (l =? h); [done|].
    unfold mbind, B_bind, insert_node. set (s0 := set_is_new_node false s).
    assert (forall s1 n, m_free_nodes s1 = m_free_nodes s -> make_room n s1 = Done tt s1) as Hroom.
    { intros s1 n E. unfold make_room. do 2 erewrite bind_done by reflexivity.
      rewrite bool_decide_eq_false_2 by congruence. done. }
    destruct (m_node_table s0 !! _) as [i|] eqn:Ei; cbv beta iota.
    - destruct (negb (i =? 0)); [done|]. rewrite Hroom by done. unfold gets. by destruct (m_free_nodes s0).
    - cbn [negb Nat.eqb mk_node m_index]. rewrite Hroom by done. unfold gets. by destruct (m_free_nodes _). }
  intros HQ. destruct (make_node lv l h s) as [r s'|s'|] eqn:E; [by exists r, s'|by destruct (Hm s')|done].
Qed.

(** The variables may change as long as the literals of the reserved ones are there. *)
Lemma set_vars_wf v2b v2l l2v s : wf s -> vars_ok (set_vars v2b v2l l2v s) -> wf (set_vars v2b v2l l2v s).
Proof.
  intros [[C1 C2 [C3 C3'] [C4 C4' C4'' C4'''] _ C6 C7 C8] [T1 T2]] V. split; split; try done; split; done.
Qed.

Lemma set_vars_client v2b v2l l2v s : client s [] -> vars_ok (set_vars v2b v2l l2v s) -> client (set_vars v2b v2l l2v s) [].
Proof. intros [W P St V Co] Hv. split; try done. by apply set_vars_wf. Qed.

(** A manager under construction: [v] variables, the [x] already pushed, and room for [k] nodes. *)
Record making (v : nat) (x : list BDD) (k : nat) (s : manager) : Prop := {
  mk_client : client s [];
  mk_v2l : length (m_var2level s) = v;
  mk_v2b : exists y, m_var2bdd s = y ++ x /\ length y = 2 * v;
  mk_free : k <= length (m_free_nodes s) }.

Lemma push_literal v x k s p : making v x k s ->
  making v (x ++ [p]) k (set_vars (m_var2bdd s ++ [p]) (m_var2level s) (m_level2var s) s).
Proof.
  intros [Cl E (y & Ey & Ly) F]. split; try done.
  - apply set_vars_client; [done|]. destruct (core_vars s (wf_core s (cl_wf _ _ Cl))) as [V1 V2 V3 V4 V5].
    split; cbn [set_vars m_var2level m_level2var m_var2bdd m_nodes]; [done|done|rewrite length_app; lia| |];
      intros u b Hu; rewrite lookup_app_l by lia; auto.
  - exists y. cbn. by rewrite Ey, <- app_assoc.
Qed.

(** A literal is made. *)
Lemma make_literal v x k s l h : making v x (S k) s -> level_ok v -> l <= 1 -> h <= 1 -> l <> h ->
  exists r s', make_node v l h s = Done r s' /\ making v x k s' /\ grows (m_nodes s) (m_nodes s') /\
    m_var2bdd s' = m_var2bdd s /\ m_var2level s' = m_var2level s /\
    used (m_nodes s') r /\ exists n, m_nodes s' !! r = Some n /\ node_key n = (v, l, h).
Proof.
  intros [Cl E Hy F] Hv Hl Hh Hne. pose proof (cl_wf _ _ Cl) as W.
  assert (forall c, c <= 1 -> child_ok (m_nodes s) v c) as Hc by (intros c Hc; split; [by left|rewrite rank_const by done; lia]).
  destruct (make_node_done s v l h (node_post s v l h)) as (r & s' & Er & [W' F' P V R D K Fr]); [by intros E0; rewrite E0 in F; cbn in F; lia|apply make_node_ok; auto using prot_const|].
  exists r, s'. destruct Fr as [G Hfree]; [by intros E0; rewrite E0 in F; cbn in F; lia|].
  destruct (frame_rest _ _ F') as [R1 R2 R3 R4 R5 R6 R7].
  split; [done|]. split; [|split; [done|split_and!; try done; by apply K]].
  split; [|congruence|by rewrite R2|lia].
  split; [done|by rewrite P; apply Cl|by rewrite R1; apply Cl|by intros b Hb%elem_of_nil|].
  intros b. rewrite (frame_rc _ _ F'). apply Cl.
Qed.

(** The count of a literal is saturated. *)
Lemma saturate v x k s r : making v x k s -> used (m_nodes s) r -> making v x k (recount r max_rc s).
Proof.
  intros [[W P St V Co] E Hy F] Hu. split; try done. split; try done.
  - apply recount_wf; auto.
  - by intros b Hb%elem_of_nil.
  - intros b. destruct (decide (r = b)) as [<-|Hne].
    + left. rewrite recount_rc by (apply valid_bound; [apply W|by right]). by rewrite decide_True.
    + specialize (Co b). unfold rc in *. rewrite recount_lookup, decide_False by done. exact Co.
Qed.

Lemma saturated r k s : used (m_nodes s) r -> exists n n', m_nodes s !! r = Some n /\
  m_nodes (recount r k s) !! r = Some n' /\ m_refcount n' = k /\ node_key n' = node_key n.
Proof.
  intros (_ & n & E & _). destruct (recount_back s r k r n E) as (n' & E' & E1 & E2 & E3 & E4).
  exists n, n'. rewrite decide_True in E4 by done. split_and!; try done. unfold node_key. congruence.
Qed.


(** A counted literal. *)
Definition literal (s : manager) (b v l h : nat) : Prop :=
  used (m_nodes s) b /\ exists n, m_nodes s !! b = Some n /\ m_refcount n = max_rc /\ node_key n = (v, l, h).

(** The next variable, when its literals are pushed and counted. *)
Lemma reserve_vars v k s p q : making v [p; q] k s -> literal s p v 0 1 -> literal s q v 1 0 ->
  making (S v) [] k (set_vars (m_var2bdd s) (m_var2level s ++ [v]) (m_level2var s ++ [v]) s).
Proof.
  intros [Cl E (y & Ey & Ly) F] Lp Lq. destruct (core_vars s (wf_core s (cl_wf _ _ Cl))) as [V1 V2 V3 V4 V5].
  split; [|cbn; rewrite length_app; cbn; lia| |done].
  2: { exists (m_var2bdd s). cbn. rewrite app_nil_r, Ey, length_app, Ly. cbn. split; [done|lia]. }
  apply set_vars_client; [done|]. split; cbn [set_vars m_var2level m_level2var m_var2bdd m_nodes]; rewrite ?length_app, ?E; cbn [length].
  - rewrite seq_app. rewrite V1 at 1. by rewrite E.
  - by rewrite V2.
  - rewrite Ey, length_app. cbn. lia.
  - intros u b Hu Hb. destruct (decide (u = v)) as [->|Hne]; [|apply V4; [lia|done]].
    rewrite Ey, <- Ly in Hb. rewrite list_lookup_middle in Hb by done. by injection Hb as <-.
  - intros u b Hu Hb. destruct (decide (u = v)) as [->|Hne]; [|apply V5; [lia|done]].
    replace (2 * v + 1) with (length (y ++ [p])) in Hb by (rewrite length_app; cbn; lia).
    rewrite Ey in Hb. change [p; q] with ([p] ++ [q]) in Hb. rewrite app_assoc, list_lookup_middle in Hb by done. by injection Hb as <-.
Qed.

Lemma literal_saturated s b c v l h : used (m_nodes s) c -> literal s b v l h -> literal (recount c max_rc s) b v l h.
Proof.
  intros Hc (Hu & n & E & Er & Ek). split; [by apply recount_used|]. destruct (recount_back s c max_rc b n E) as (n' & E' & E1 & E2 & E3 & E4).
  exists n'. unfold node_key in *. rewrite E1, E2, E3. split; [done|]. split; [|done]. rewrite E4. by case_decide.
Qed.

Lemma saturated_literal s b v l h n : used (m_nodes s) b -> m_nodes s !! b = Some n -> node_key n = (v, l, h) ->
  literal (recount b max_rc s) b v l h.
Proof.
  intros Hu E Ek. destruct (saturated b max_rc s Hu) as (m & n' & E1 & E2 & E3 & E4). assert (m = n) as -> by congruence.
  split; [by apply recount_used|]. exists n'. split_and!; [done|done|congruence].
Qed.

(** The variables are reserved while two nodes are free for each. *)
Lemma reserve_loop_ok k : forall v s, making v [] (2 * k) s -> level_ok (v + k) ->
  exists s', reserve_loop k s = Done tt s' /\ making (v + k) [] 0 s'.
Proof.
  induction k as [|k IH]; intros v s M Hk; [exists s; by rewrite Nat.add_0_r|].
  assert (level_ok v) as Hv by (unfold level_ok in *; lia).
  replace (2 * S k) with (S (S (2 * k))) in M by lia. cbn [reserve_loop].
  erewrite bind_done by reflexivity. cbv beta zeta. rewrite (mk_v2l _ _ _ _ M).
  destruct (make_literal v [] _ s 0 1 M Hv) as (p & s1 & E1 & M1 & G1 & B1 & L1 & Up & np & Ep & Kp); [lia..|].
  rewrite (bind_done _ _ _ _ _ E1). erewrite bind_done by reflexivity. cbv beta.
  apply (push_literal _ _ _ _ p) in M1. set (s1' := set_vars _ _ _ s1) in *.
  destruct (make_literal v [p] _ s1' 1 0 M1 Hv) as (q & s2 & E2 & M2 & G2 & B2 & L2 & Uq & nq & Eq & Kq); [lia..|].
  rewrite (bind_done _ _ _ _ _ E2). erewrite bind_done by reflexivity. cbv beta.
  apply (push_literal _ _ _ _ q) in M2. set (s2' := set_vars _ _ _ s2) in *. cbn [app] in M2.
  destruct (mk_v2b _ _ _ _ M2) as (y & Ey & Ly).
  assert (m_var2bdd s2' !! (2 * v) = Some p) as Lp by (rewrite Ey, <- Ly; by apply list_lookup_middle).
  assert (m_var2bdd s2' !! (2 * v + 1) = Some q) as Lq.
  { rewrite Ey. change [p; q] with ([p] ++ [q]). rewrite app_assoc. apply list_lookup_middle. rewrite length_app. cbn. lia. }
  erewrite bind_done by reflexivity. cbv beta. rewrite Lp. erewrite bind_done by reflexivity. cbv beta. rewrite Lq.
  erewrite bind_done by reflexivity. cbv beta. erewrite bind_done by reflexivity. fold (recount p max_rc s2').
  erewrite bind_done by reflexivity. fold (recount q max_rc (recount p max_rc s2')). erewrite bind_done by reflexivity.
  assert (used (m_nodes s2') p /\ m_nodes s2' !! p = Some np) as [Up' Ep'].
  { change (m_nodes s2') with (m_nodes s2). change (m_nodes s1') with (m_nodes s1) in G2. rewrite G2 by by right.
    split; [|done]. destruct (grows_valid _ _ p G2) as [Hx|]; [by right|apply used_gt in Up; lia|done]. }
  replace (v + S k) with (S v + k) by lia. apply IH; [|by replace (S v + k) with (v + S k) by lia].
  apply (saturate _ _ _ _ p) in M2; [|done]. apply (saturate _ _ _ _ q) in M2; [|by apply recount_used].
  apply reserve_vars with p q; [exact M2| |].
  - apply literal_saturated; [by apply recount_used|by eapply saturated_literal].
  - destruct (recount_back s2' p max_rc q nq Eq) as (m & Em & F1 & F2 & F3 & _).
    eapply saturated_literal; [by apply recount_used|exact Em|]. unfold node_key in *. congruence.
Qed.

Lemma init_client : client init_manager [].
Proof.
  assert (forall b n, m_nodes init_manager !! b = Some n -> b < 11 /\ n = Node max_rc 0 0 0 b) as Hn.
  { intros b n E. pose proof (lookup_lt_Some _ _ _ E) as Hb. change (length (m_nodes init_manager)) with 11 in Hb. split; [done|].
    do 11 (destruct b as [|b]; [by injection E as <-|]). lia. }
  assert (forall b, ~ used (m_nodes init_manager) b) as Hu.
  { intros b (Hb & n & E & _). destruct (Hn b n E). lia. }
  split; [split| | | |]; try done.
  - split; try done.
    + split; [|by intros i n [_ ->]%Hn|intros i n [? ->]%Hn; lia].
      intros i Hi. do 11 (destruct i as [|i]; [done|]). lia.
    + intros i j n m _ _ Ui. by apply Hu in Ui.
    + split; [constructor|]. intros i Hi. by apply elem_of_nil in Hi.
    + split; try (by intros ? He%elem_of_nil); [constructor|by intros ? ? He%elem_of_nil].
    + intros b Hb. by apply elem_of_nil in Hb.
    + intros b Hb. unfold rc. destruct (m_nodes init_manager !! b) as [n|] eqn:E; cbn; [|lia]. destruct (Hn b n E). lia.
  - split; [|intros i n Ui; by apply Hu in Ui]. intros l a b i _ _. cbn. by rewrite lookup_empty.
  - by intros b Hb%elem_of_nil.
  - intros b. unfold rc. destruct (m_nodes init_manager !! b) as [n|] eqn:E; cbn; [|by right; unfold max_rc; split; [|lia]].
    destruct (Hn b n E) as [_ ->]. by left.
Qed.

Lemma alloc_client s n : client s [] -> client (alloc_state s n) [].
Proof.
  intros [W P St V Co]. split; [split|exact P|exact St| |].
  - apply alloc_core, W.
  - apply alloc_table; apply W.
  - by intros b Hb%elem_of_nil.
  - intros b. rewrite alloc_rc. apply Co.
Qed.

(** A manager of up to 1024 variables. *)
Lemma mk_manager_ok n : n <= 1024 -> exists s, mk_manager n = Done tt s /\ represents n s [] [].
Proof.
  intros Hn. unfold mk_manager. erewrite bind_done by reflexivity. fold (alloc_state init_manager (1024 + n)).
  assert (making 0 [] (2 * n) (alloc_state init_manager (1024 + n))) as M.
  { split; [apply alloc_client, init_client|done|by exists []|].
    change (m_free_nodes (alloc_state init_manager (1024 + n))) with (seq (length (m_nodes init_manager)) (1024 + n)).
    rewrite length_seq. lia. }
  assert (exists s', reserve_loop n (alloc_state init_manager (1024 + n)) = Done tt s' /\ making n [] 0 s') as (s & E & [Cl Ev _ _]).
  { apply (reserve_loop_ok n 0 _ M). unfold level_ok. lia. }
  exists s. split; [|split; [done|done|constructor]]. destruct (Nat.eqb_spec n 0) as [->|Hn0]; [exact E|].
  unfold reserve_var. erewrite bind_done by reflexivity. cbn [set_free_nodes set_nodes m_var2level init_manager length].
  replace (S (n - 1) - 0) with n by lia. exact E.
Qed.

End initial.
