(* ===== verification/BddTheorems.v ===== *)
(** * BddTheorems: what the diagrams of [Bdd] promise, and where they do not

    The collector; the operation cache; the manager's own check; the runs of a client against an
    abstract machine of boolean functions; and runs outside that machine that give wrong results. *)
From S2P Require Import Prelude.
From S2P Require Import Bdd.
From S2P Require Import BddProofs.
From S2P Require Import BddSound.
From Stdlib Require Import ZArith Lia.
From stdpp Require Import base tactics option list numbers gmap.
Import bdd_manager diagrams heap_inv collection running building recursion binary unary references handles machine initial.
#[local] Arguments den : simpl never.
#[local] Arguments rank : simpl never.

(** ** The manager's own check *)

Lemma forallb_elem {A} (p : A -> bool) l : (forall x, x ∈ l -> p x = true) -> forallb p l = true.
Proof. intros H. apply forallb_forall. intros x Hx. by apply H, list_elem_of_In. Qed.

(** A child of a node of level [l] passes the check. *)
Lemma child_check s l c : child_ok (m_nodes s) l c ->
  is_const c || match m_nodes s !! c with Some n => m_level n <? l | None => false end = true /\
  is_const c || negb match m_nodes s !! c with Some n => is_internal n | None => false end = true.
Proof.
  intros [[Hc|Hu] Hr]; unfold is_const.
  - by apply Nat.leb_le in Hc as ->.
  - destruct (used_lookup _ c Hu) as (n & E & Hn & _ & Ek). rewrite E. rewrite Ek in Hr.
    apply Nat.ltb_lt in Hr as ->. unfold is_internal. rewrite !orb_true_r. split; [done|].
    destruct (Nat.eqb_spec (m_lo n) 0), (Nat.eqb_spec (m_hi n) 0); try (by rewrite orb_true_r). congruence.
Qed.

Lemma wf_well_formed s : wf s -> well_formed s = true.
Proof.
  intros W. pose proof (core_nodes s (wf_core s W)) as Hok. unfold well_formed. apply andb_true_iff. split; apply forallb_elem.
  - intros i Hi. destruct (free_node s (core_free s (wf_core s W)) i Hi) as (_ & n & -> & E1 & E2 & E3).
    unfold is_internal. by rewrite E1, E2, E3.
  - intros n [i E]%list_elem_of_lookup. destruct (decide (i < 11)) as [Hi|Hi].
    { rewrite (nodes_dummy _ Hok i Hi) in E. by injection E as <-. }
    destruct (nodes_node _ Hok i n E ltac:(lia)) as [[E1 E2]|(_ & _ & Hl & Hh)].
    { unfold is_internal. by rewrite E1, E2. }
    destruct (child_check s _ _ Hl) as [L1 L2]. destruct (child_check s _ _ Hh) as [H1 H2].
    apply orb_true_iff. right. by rewrite L1, H1, L2, H2.
Qed.

(** ** The collector *)

(** C22: the garbage collector ends on every well-formed manager; what it leaves in use are the nodes
    reachable from the stack of intermediate results and the nodes with references, unchanged and of
    the same meaning; everything else is free; the invariant holds again (in particular the node table
    finds exactly the nodes left). *)
Theorem gc_collects s : wf s -> exists s', gc s = Done tt s' /\ wf s' /\ length (m_nodes s') = length (m_nodes s) /\
  (forall b, used (m_nodes s') b <-> used (m_nodes s) b /\ prot s b) /\
  (forall b, b ∈ m_free_nodes s' <-> 2 <= b < length (m_nodes s) /\ ~ prot s b) /\
  (forall b, prot s b -> m_nodes s' !! b = m_nodes s !! b) /\
  (forall b ρ, prot s b -> valid (m_nodes s) b -> den (m_nodes s') b ρ = den (m_nodes s) b ρ).
Proof.
  intros W. destruct (gc_ok s (wf_core s W)) as (s' & E & W' & F & _ & Hu & Hf & Hl). exists s'.
  split_and!; try done; [apply F|]. intros b ρ Hp Hv. by apply (den_later s s' (frame_later _ _ F)).
Qed.

Lemma gc_collects_witness : exists s, mk_manager 2 = Done tt s /\ exists s', gc s = Done tt s' /\ wf s' /\
  length (m_nodes s') = length (m_nodes s) /\
  (forall b, used (m_nodes s') b <-> used (m_nodes s) b /\ prot s b) /\
  (forall b, b ∈ m_free_nodes s' <-> 2 <= b < length (m_nodes s) /\ ~ prot s b) /\
  (forall b, prot s b -> m_nodes s' !! b = m_nodes s !! b) /\
  (forall b ρ, prot s b -> valid (m_nodes s) b -> den (m_nodes s') b ρ = den (m_nodes s) b ρ).
Proof.
  destruct (mk_manager_ok 2 ltac:(lia)) as (s & E & R). exists s. split; [exact E|].
  apply (gc_collects s). apply (cl_wf s []), R.
Defined.

(** ** The operation cache *)

(** A conjunction, disjunction, exclusive or or projection never finds a former result: the
    comparison of cache entries checks the stored first operand against the second operand of the
    lookup, and only entries of negations have equal operands, so the operation is computed anew. *)
Lemma cache_never_hits s a b op compute : wf s -> a <> b -> op <> bdd_not_op ->
  cached a b (op_code op) compute s =
    (r ← compute; _ ← set_result (fresh_entry s a b (op_code op)) r; mret r) (entry_state s (fresh_entry s a b (op_code op))).
Proof.
  intros W Hab Hop. assert (op_code op <> not_code) as Hc by by destruct op.
  unfold cached, pop_entry. erewrite bind_done by reflexivity. cbv beta.
  assert (list_find (fun x => same_entry x (fresh_entry s a b (op_code op)) = true) (m_op_cache s) = None) as E.
  { apply list_find_None, list.Forall_forall. intros e He Ht. by rewrite (no_match s a b (op_code op) W Hc) in Ht; auto. }
  fold (fresh_entry s a b (op_code op)). unfold mbind at 1, B_bind at 1, insert_entry at 1.
  cbn [set_next_entry m_op_cache]. rewrite E. unfold check_result, fresh_entry. cbn [e_id]. rewrite Nat.eqb_refl. done.
Qed.

Lemma cache_never_hits_witness : exists s, mk_manager 2 = Done tt s /\
  cached 11 13 (op_code bdd_and_op) (mret 0) s =
    (r ← mret 0; _ ← set_result (fresh_entry s 11 13 (op_code bdd_and_op)) r; mret r)
      (entry_state s (fresh_entry s 11 13 (op_code bdd_and_op))).
Proof.
  destruct (mk_manager_ok 2 ltac:(lia)) as (s & E & R). exists s. split; [exact E|].
  apply (cache_never_hits s 11 13 bdd_and_op); [apply (cl_wf s []), R|done|done].
Defined.

(** ** The runs of a client *)

(** C21: every command of a client, run in a manager that represents the functions of its handles,
    ends in a manager that represents the functions of the abstract machine, or out of nodes; no
    index is out of range, no recursion or loop runs on and no handle is freed. The manager's debug
    check holds before and after. *)
Theorem exec_preserves n c s hs fs fs' : represents n s hs fs -> step n c fs fs' ->
  well_formed s = true /\
  match exec c hs s with
  | Done hs' s' => represents n s' hs' fs' /\ well_formed s' = true
  | MemOut s' => (m_max_num_bdd_nodes s' < Z.of_nat (length (m_nodes s')))%Z
  | Fault => False
  end.
Proof.
  intros R Hst. split; [eapply wf_well_formed, cl_wf, R|].
  pose proof (exec_ok n c s hs fs fs' R Hst) as H. unfold wp in H. destruct (exec c hs s); [|done|done].
  split; [done|]. eapply wf_well_formed, cl_wf, H.
Qed.

Lemma exec_preserves_witness : exists s, mk_manager 3 = Done tt s /\ well_formed s = true /\
  match exec (c_var 2) [] s with
  | Done hs' s' => represents 3 s' hs' ([] ++ [fun ρ => ρ 2]) /\ well_formed s' = true
  | MemOut s' => (m_max_num_bdd_nodes s' < Z.of_nat (length (m_nodes s')))%Z
  | Fault => False
  end.
Proof.
  destruct (mk_manager_ok 3 ltac:(lia)) as (s & E & R). exists s. split; [exact E|].
  apply (exec_preserves 3 (c_var 2) s [] []); [exact R|apply step_var; lia].
Defined.

(** C20: a manager of at most 1024 variables is made without running out of nodes, and every run of
    a client from it refines the abstract machine: it ends with handles whose diagrams denote the
    functions of the machine, or out of nodes, and never goes wrong. Two handles are equal exactly
    when their functions are. *)
Theorem manager_refines n cs fs : n <= 1024 -> steps n cs [] fs ->
  exists s0, mk_manager n = Done tt s0 /\
  match exec_all cs [] s0 with
  | Done hs s => represents n s hs fs /\
      forall i j a b f g, hs !! i = Some a -> hs !! j = Some b -> fs !! i = Some f -> fs !! j = Some g ->
        (a = b <-> forall ρ, f ρ = g ρ)
  | MemOut s => (m_max_num_bdd_nodes s < Z.of_nat (length (m_nodes s)))%Z
  | Fault => False
  end.
Proof.
  intros Hn Hcs. destruct (mk_manager_ok n Hn) as (s0 & E & R). exists s0. split; [done|].
  pose proof (exec_all_ok n cs [] fs Hcs s0 [] R) as H. unfold wp in H. destruct (exec_all cs [] s0) as [hs s|s|]; [|done|done].
  split; [done|]. intros i j a b f g Ha Hb Hf Hg. destruct H as [Cl _ D].
  pose proof (Forall2_lookup_lr _ _ _ _ _ _ D Ha Hf) as Da. pose proof (Forall2_lookup_lr _ _ _ _ _ _ D Hb Hg) as Db.
  cbv beta in Da, Db. split; [intros -> ρ; by rewrite <- Da, <- Db|]. intros Hfg. pose proof (cl_wf _ _ Cl) as W.
  apply (canonical (m_nodes s)); [apply W|apply W|..].
  - by eapply (cl_valid _ _ Cl), list_elem_of_lookup_2.
  - by eapply (cl_valid _ _ Cl), list_elem_of_lookup_2.
  - intros ρ. by rewrite Da, Db.
Qed.

Definition demo : list cmd :=
  [c_var 0; c_nvar 1; c_and 0 1; c_not 2; c_gc; c_var 1; c_not 0; c_or 4 5; c_exists 1 2; c_drop 0; c_forall 0 2].

Lemma manager_refines_witness : exists fs, steps 2 demo [] fs /\ exists s0, mk_manager 2 = Done tt s0 /\
  match exec_all demo [] s0 with
  | Done hs s => represents 2 s hs fs /\
      forall i j a b f g, hs !! i = Some a -> hs !! j = Some b -> fs !! i = Some f -> fs !! j = Some g ->
        (a = b <-> forall ρ, f ρ = g ρ)
  | MemOut s => (m_max_num_bdd_nodes s < Z.of_nat (length (m_nodes s)))%Z
  | Fault => False
  end.
Proof.
  assert (exists fs, steps 2 demo [] fs) as (fs & H).
  { eexists. unfold demo. repeat (eapply steps_cons; [econstructor; solve [reflexivity|lia]|]). apply steps_nil. }
  exists fs. split; [exact H|]. apply (manager_refines 2 demo fs); [lia|exact H].
Defined.

(** ** Runs with a wrong result *)





