(* ===== verification/Heap.v ===== *)
(** * Heap: the binary heap of integers with an index ([util/heap.h])

    One definition per member of [heap<LT>].  Values are integers and positions natural numbers (a
    position is an [int] in the source, so the model is exact up to 2^30 values).  [lt] is the functor
    [LT], an argument of every operation since clients change what it compares between calls.  An
    access outside a vector is [None]. *)
From S2P Require Import Prelude.
From Stdlib Require Import ZArith Lia.
From stdpp Require Import base tactics option list numbers gmap sorting.
Open Scope nat_scope.

(** Vectors indexed by a value. *)
Definition rdz {A} (a : list A) (v : Z) : option A := if (v <? 0)%Z then None else rd a (Z.to_nat v).
Definition wrz {A} (a : list A) (v : Z) (x : A) : option (list A) := if (v <? 0)%Z then None else wr a (Z.to_nat v) x.

Record heap := Heap { m_values : list Z; m_value2indices : list nat }.

Module heap_ops.

Definition left (i : nat) : nat := 2 * i.
Definition right (i : nat) : nat := 2 * i + 1.
Definition parent (i : nat) : nat := i / 2.

(** [m_values[idx] = val; m_value2indices[val] = idx] *)
Definition put (idx : nat) (val : Z) (h : heap) : option heap :=
  vals ← wr (m_values h) idx val; ind ← wrz (m_value2indices h) val idx; Some (Heap vals ind).

Section Ops.
Context (lt : Z -> Z -> bool).

Fixpoint up_loop (fuel : nat) (val : Z) (idx : nat) (h : heap) : option (nat * heap) :=
  match fuel with
  | O => None
  | S fuel' =>
      let parent_idx := parent idx in
      if parent_idx =? 0 then Some (idx, h)
      else
        pv ← rd (m_values h) parent_idx;
        if negb (lt val pv) then Some (idx, h)
        else h ← put idx pv h; up_loop fuel' val parent_idx h
  end.
Definition move_up (idx : nat) (h : heap) : option heap :=
  val ← rd (m_values h) idx;
  '(idx, h) ← up_loop (S idx) val idx h;
  put idx val h.

Fixpoint down_loop (fuel : nat) (sz : nat) (val : Z) (idx : nat) (h : heap) : option (nat * heap) :=
  match fuel with
  | O => None
  | S fuel' =>
      let left_idx := left idx in
      if sz <=? left_idx then Some (idx, h)
      else
        let right_idx := right idx in
        min_idx ← (if right_idx <? sz then
                     r ← rd (m_values h) right_idx; l ← rd (m_values h) left_idx;
                     Some (if lt r l then right_idx else left_idx)
                   else Some left_idx);
        min_value ← rd (m_values h) min_idx;
        if negb (lt min_value val) then Some (idx, h)
        else h ← put idx min_value h; down_loop fuel' sz val min_idx h
  end.
Definition move_down (idx : nat) (h : heap) : option heap :=
  val ← rd (m_values h) idx;
  let sz := length (m_values h) in
  '(idx, h) ← down_loop (S sz) sz val idx h;
  put idx val h.

(** [m_value2indices.resize(s, 0)] *)
Definition set_bounds (s : nat) (h : heap) : heap :=
  let ind := m_value2indices h in
  Heap (m_values h) (take s ind ++ replicate (s - length ind) 0).
Definition mk_heap (s : nat) : heap := set_bounds s (Heap [(-1)%Z] []).
Definition empty (h : heap) : bool := length (m_values h) =? 1.
Definition contains (h : heap) (val : Z) : option bool :=
  if (val <? Z.of_nat (length (m_value2indices h)))%Z then
    i ← rdz (m_value2indices h) val; Some (negb (i =? 0))
  else Some false.
Definition reset (h : heap) : heap :=
  if empty h then h else Heap [(-1)%Z] (replicate (length (m_value2indices h)) 0).
Definition clear (h : heap) : heap := reset h.
Definition get_bounds (h : heap) : nat := length (m_value2indices h).
(** The number of indices, not of values. *)
Definition size (h : heap) : nat := length (m_value2indices h).
Definition reserve (s : nat) (h : heap) : heap := if length (m_value2indices h) <? s then set_bounds s h else h.
Definition min_value (h : heap) : option Z := rd (m_values h) 1.

(** [m_value2indices[val] = 0; m_values.pop_back()] *)
Definition drop_last (val : Z) (h : heap) : option heap :=
  ind ← wrz (m_value2indices h) val 0; Some (Heap (take (length (m_values h) - 1) (m_values h)) ind).

Definition erase_min (h : heap) : option (Z * heap) :=
  result ← rd (m_values h) 1;
  if length (m_values h) =? 2 then h ← drop_last result h; Some (result, h)
  else
    last_val ← rd (m_values h) (length (m_values h) - 1);
    h ← put 1 last_val h;
    h ← drop_last result h;
    h ← move_down 1 h;
    Some (result, h).

Definition erase (val : Z) (h : heap) : option heap :=
  idx ← rdz (m_value2indices h) val;
  if idx =? length (m_values h) - 1 then drop_last val h
  else
    last_val ← rd (m_values h) (length (m_values h) - 1);
    h ← put idx last_val h;
    h ← drop_last val h;
    let parent_idx := parent idx in
    up ← (if negb (parent_idx =? 0) then pv ← rd (m_values h) parent_idx; Some (lt last_val pv) else Some false);
    if up : bool then move_up idx h else move_down idx h.

Definition decreased (val : Z) (h : heap) : option heap := i ← rdz (m_value2indices h) val; move_up i h.
Definition increased (val : Z) (h : heap) : option heap := i ← rdz (m_value2indices h) val; move_down i h.

Definition insert (val : Z) (h : heap) : option heap :=
  let idx := length (m_values h) in
  ind ← wrz (m_value2indices h) val idx;
  move_up idx (Heap (m_values h ++ [val]) ind).

(** The values from [begin()] to [end()]. *)
Definition values (h : heap) : list Z := drop 1 (m_values h).

Definition swap (h other : heap) : heap * heap := (other, h).

(** [todo] has its back at the head. *)
Fixpoint find_le_loop (fuel : nat) (val : Z) (h : heap) (todo : list nat) (result : list Z) : option (list Z) :=
  match fuel, todo with
  | O, _ => None
  | S _, [] => Some result
  | S fuel', index :: todo =>
      match m_values h !! index with
      | Some v =>
          if negb (lt val v) then find_le_loop fuel' val h (right index :: left index :: todo) (result ++ [v])
          else find_le_loop fuel' val h todo result
      | None => find_le_loop fuel' val h todo result
      end
  end.
Definition find_le (val : Z) (h : heap) (result : list Z) : option (list Z) :=
  find_le_loop (2 * length (m_values h) + 2) val h [1] result.

End Ops.
End heap_ops.
