(* ===== verification/HeapProofs.v ===== *)
(** * HeapProofs: the invariant of the heap, and that every operation keeps it *)
From S2P Require Import Prelude.
From S2P Require Import Heap.
From Stdlib Require Import ZArith Lia Permutation.
From stdpp Require Import base tactics option list numbers gmap sorting.
Import heap_ops.
Open Scope nat_scope.

(** ** Positions *)

Lemma parent_cases i : i = 2 * parent i \/ i = 2 * parent i + 1.
Proof. unfold parent. pose proof (Nat.div_mod_eq i 2). pose proof (Nat.mod_upper_bound i 2). lia. Qed.
Lemma parent_left i : parent (left i) = i.
Proof. pose proof (parent_cases (left i)). unfold left in *. lia. Qed.
Lemma parent_right i : parent (right i) = i.
Proof. pose proof (parent_cases (right i)). unfold right in *. lia. Qed.
Lemma children i j : parent j = i -> j = left i \/ j = right i.
Proof. intros <-. unfold left, right. apply parent_cases. Qed.
#[global] Opaque parent.

(** Arithmetic on positions, with the equation of each parent. *)
Ltac plia :=
  repeat match goal with
  | H : context [parent ?i] |- _ => lazymatch goal with _ : i = 2 * parent i \/ _ |- _ => fail | _ => pose proof (parent_cases i) end
  | |- context [parent ?i] => lazymatch goal with _ : i = 2 * parent i \/ _ |- _ => fail | _ => pose proof (parent_cases i) end
  end; unfold left, right in *; lia.

(** ** Vectors *)

Lemma rdz_nat {A} (a : list A) (v : Z) : (0 <= v)%Z -> rdz a v = a !! Z.to_nat v.
Proof. intros Hv. unfold rdz, rd. by destruct (Z.ltb_spec v 0); [lia|]. Qed.

Lemma rdz_Some {A} (a : list A) v x : rdz a v = Some x -> (0 <= v < Z.of_nat (length a))%Z.
Proof.
  unfold rdz, rd. destruct (Z.ltb_spec v 0); [done|]. intros E%lookup_lt_Some. lia.
Qed.

Lemma rdz_is_Some {A} (a : list A) v : (0 <= v < Z.of_nat (length a))%Z -> is_Some (rdz a v).
Proof. intros Hv. rewrite rdz_nat by lia. apply lookup_lt_is_Some_2. lia. Qed.

Lemma wrz_ok {A} (a : list A) v x : (0 <= v < Z.of_nat (length a))%Z -> exists b, wrz a v x = Some b /\
  length b = length a /\ forall w, rdz b w = if decide (w = v) then Some x else rdz a w.
Proof.
  intros Hv. unfold wrz. destruct (Z.ltb_spec v 0); [lia|]. rewrite wr_ok by lia. eexists. split; [done|].
  rewrite length_insert. split; [done|]. intros w. unfold rdz, rd. destruct (Z.ltb_spec w 0) as [Hw|Hw].
  - rewrite decide_False by lia. done.
  - case_decide as E; [subst; apply list_lookup_insert_eq; lia|]. apply list_lookup_insert_ne. lia.
Qed.

(** ** The invariant *)

Record wf (h : heap) : Prop := {
  wf_dummy : m_values h !! 0 = Some (-1)%Z;
  wf_at : forall i v, m_values h !! S i = Some v -> rdz (m_value2indices h) v = Some (S i);
  wf_index : forall v i, rdz (m_value2indices h) v = Some (S i) -> m_values h !! S i = Some v }.

Definition member (h : heap) (v : Z) : Prop := exists i, m_values h !! S i = Some v.

Lemma wf_inj h i j v : wf h -> m_values h !! S i = Some v -> m_values h !! S j = Some v -> i = j.
Proof. intros W Hi Hj. apply (wf_at h W) in Hi, Hj. congruence. Qed.

Lemma member_values h v : member h v <-> v ∈ values h.
Proof.
  unfold member, values. rewrite list_elem_of_lookup. by setoid_rewrite lookup_drop.
Qed.

Lemma values_nodup h : wf h -> NoDup (values h).
Proof.
  intros W. apply NoDup_alt. intros i j v. unfold values. rewrite !lookup_drop. intros Hi Hj.
  by apply (wf_inj h i j v).
Qed.

Lemma member_bound h v : wf h -> member h v -> (0 <= v < Z.of_nat (get_bounds h))%Z.
Proof. intros W [i Hi]. eapply rdz_Some, (wf_at h W), Hi. Qed.

Lemma contains_ok h v : wf h -> (0 <= v)%Z -> exists b, contains h v = Some b /\ (b = true <-> member h v).
Proof.
  intros W Hv. unfold contains. destruct (Z.ltb_spec v (Z.of_nat (length (m_value2indices h)))) as [Hb|Hb].
  - destruct (rdz_is_Some (m_value2indices h) v) as [i E]; [lia|]. rewrite E. cbn [mbind option_bind]. eexists. split; [done|].
    destruct i as [|i]; cbn; (split; [intros; try done|intros [j Hj]]).
    + apply (wf_at h W) in Hj. congruence.
    + exists i. by apply (wf_index h W).
    + done.
  - eexists. split; [done|]. split; [done|]. intros Hm%(member_bound h v W). unfold get_bounds in Hm. lia.
Qed.

(** The position of a value. *)
Lemma index_of h v : wf h -> member h v -> exists i, rdz (m_value2indices h) v = Some (S i) /\ m_values h !! S i = Some v.
Proof. intros W [i Hi]. exists i. split; [by apply (wf_at h W)|done]. Qed.

(** [put] at a position, in range. *)
Lemma put_ok h idx v : idx < length (m_values h) -> (0 <= v < Z.of_nat (get_bounds h))%Z ->
  exists g, put idx v h = Some g /\ length (m_values g) = length (m_values h) /\ get_bounds g = get_bounds h /\
  (forall k, m_values g !! k = if decide (k = idx) then Some v else m_values h !! k) /\
  (forall w, rdz (m_value2indices g) w = if decide (w = v) then Some idx else rdz (m_value2indices h) w).
Proof.
  intros Hi Hv. unfold put. rewrite wr_ok by done. cbn [mbind option_bind].
  destruct (wrz_ok (m_value2indices h) v idx) as (ind & -> & El & Hind); [done|]. eexists. split; [done|].
  cbn [m_values m_value2indices get_bounds]. rewrite length_insert. split_and!; [done|done| |done].
  intros k. case_decide as E; [subst; by apply list_lookup_insert_eq|]. by apply list_lookup_insert_ne.
Qed.

(** Two positions exchanged. *)
Record swapped (g g' : heap) (i j : nat) (a b : Z) : Prop := {
  sw_i : m_values g !! i = Some a;
  sw_j : m_values g !! j = Some b;
  sw_length : length (m_values g') = length (m_values g);
  sw_bounds : get_bounds g' = get_bounds g;
  sw_values : forall k, m_values g' !! k = if decide (k = j) then Some a else if decide (k = i) then Some b else m_values g !! k;
  sw_index : forall w, rdz (m_value2indices g') w =
    if decide (w = a) then Some j else if decide (w = b) then Some i else rdz (m_value2indices g) w }.

Lemma swapped_wf g g' i j a b : swapped g g' i j a b -> 1 <= i -> 1 <= j -> i <> j -> wf g ->
  wf g' /\ forall v, member g' v <-> member g v.
Proof.
  intros [Ei Ej _ _ Hv Hx] Hi Hj Hne W. destruct i as [|i]; [lia|]. destruct j as [|j]; [lia|].
  assert (a <> b) as Hab by (intros ->; by destruct Hne; f_equal; eapply wf_inj).
  split; [split|].
  - rewrite Hv, !decide_False by lia. apply W.
  - intros k v. rewrite Hv. intros Hk. rewrite Hx. destruct (decide (S k = S j)) as [Ekj|Nkj].
    { injection Hk as <-. rewrite decide_True by done. congruence. }
    destruct (decide (S k = S i)) as [Eki|Nki].
    { injection Hk as <-. rewrite decide_False, decide_True by congruence. congruence. }
    assert (v <> a) by (intros ->; destruct Nki; f_equal; by eapply wf_inj).
    assert (v <> b) by (intros ->; destruct Nkj; f_equal; by eapply wf_inj).
    rewrite !decide_False by done. by apply (wf_at g W).
  - intros v k. rewrite Hx. intros Hk. rewrite Hv. destruct (decide (v = a)) as [->|Na].
    { injection Hk as <-. rewrite decide_True by done. congruence. }
    destruct (decide (v = b)) as [->|Nb].
    { injection Hk as <-. rewrite decide_False, decide_True by congruence. congruence. }
    apply (wf_index g W) in Hk. rewrite !decide_False by congruence. done.
  - intros v. split; intros [k Hk].
    + rewrite Hv in Hk. repeat case_decide; [exists i|exists j|exists k]; congruence.
    + destruct (decide (k = i)) as [->|]; [exists j; rewrite Hv, decide_True by done; congruence|].
      destruct (decide (k = j)) as [->|]; [exists i; rewrite Hv, decide_False, decide_True by congruence; congruence|].
      exists k. by rewrite Hv, !decide_False by congruence.
Qed.

(** One step of a loop: [a] floats at position [i]; moving [b] there and [a] to [j] is an exchange. *)
Lemma put_step h g i j a b : put i a h = Some g -> i < length (m_values h) -> (0 <= a < Z.of_nat (get_bounds h))%Z ->
  m_values g !! j = Some b -> i <> j -> 1 <= i -> 1 <= j -> wf g ->
  exists h1 g1, put i b h = Some h1 /\ put j a h1 = Some g1 /\ swapped g g1 i j a b /\
    length (m_values h1) = length (m_values h) /\ get_bounds h1 = get_bounds h.
Proof.
  intros Eg Hi Ha Ej Hne H1 H2 W. destruct (put_ok h i a Hi Ha) as (g0 & E0 & Lg & Bg & Vg & Xg). assert (g0 = g) as -> by congruence.
  assert (0 <= b < Z.of_nat (get_bounds h))%Z as Hb.
  { rewrite <- Bg. apply (member_bound g b W). destruct j as [|j]; [lia|]. by exists j. }
  destruct (put_ok h i b Hi Hb) as (h1 & E1 & L1 & B1 & V1 & X1).
  destruct (put_ok h1 j a) as (g1 & E2 & L2 & B2 & V2 & X2); [rewrite L1, <- Lg; by eapply lookup_lt_Some|by rewrite B1|].
  exists h1, g1. split_and!; try done. split; [by rewrite Vg, decide_True|done|congruence|congruence| |].
  - intros k. rewrite V2, V1, Vg. repeat case_decide; congruence.
  - intros w. rewrite X2, X1, Xg. repeat case_decide; congruence.
Qed.

(** ** The order *)

(** [lt] is a strict weak order: of two values at most one precedes the other, and not to be preceded
    is transitive. *)
Class StrictWeak (lt : Z -> Z -> bool) : Prop := {
  lt_asym : forall a b, lt a b = true -> lt b a = false;
  le_trans : forall a b c, lt b a = false -> lt c b = false -> lt c a = false }.

Section Order.
Context (lt : Z -> Z -> bool) `{SW : !StrictWeak lt}.

(** [a] may be above [b]. *)
Definition ord_le (a b : Z) : Prop := lt b a = false.

Lemma le_refl a : ord_le a a.
Proof. unfold ord_le. destruct (lt a a) eqn:E; [|done]. by rewrite (lt_asym a a E) in E. Qed.
Lemma lt_le a b : lt a b = true -> ord_le a b.
Proof. apply lt_asym. Qed.
Lemma le_le a b c : ord_le a b -> ord_le b c -> ord_le a c.
Proof. apply le_trans. Qed.

(** The value at [i] is not below the one at [j]. *)
Definition above (h : heap) (i j : nat) : Prop :=
  forall a b, m_values h !! i = Some a -> m_values h !! j = Some b -> ord_le a b.
Definition ordered_at (h : heap) (i : nat) : Prop := 2 <= i -> above h (parent i) i.
Definition ordered (h : heap) : Prop := forall i, ordered_at h i.

(** Ordered but for the value at [i], which may be too small, or too large. *)
Definition bypass (h : heap) (i : nat) : Prop := 2 <= i -> forall k, parent k = i -> above h (parent i) k.
Definition up_hole (h : heap) (i : nat) : Prop := (forall k, k <> i -> ordered_at h k) /\ bypass h i.
Definition down_hole (h : heap) (i : nat) : Prop := (forall k, parent k <> i -> ordered_at h k) /\ bypass h i.

Lemma ordered_bypass h i : ordered h -> bypass h i.
Proof.
  intros Ho Hi k <- a b Ha Hb. destruct (m_values h !! parent k) as [c|] eqn:Ec.
  - apply (le_le a c b); [by apply (Ho (parent k))|]. apply (Ho k); [plia|done|done].
  - apply lookup_ge_None in Ec. apply lookup_lt_Some in Hb. plia.
Qed.

Section Swap.
Context (g g' : heap) (i j : nat) (a b : Z) (Hs : swapped g g' i j a b).

Lemma swap_other k : k <> i -> k <> j -> m_values g' !! k = m_values g !! k.
Proof. intros. by rewrite (sw_values _ _ _ _ _ _ Hs), !decide_False. Qed.
Lemma swap_at_j : m_values g' !! j = Some a.
Proof. by rewrite (sw_values _ _ _ _ _ _ Hs), decide_True. Qed.
Lemma swap_at_i : i <> j -> m_values g' !! i = Some b.
Proof. intros. by rewrite (sw_values _ _ _ _ _ _ Hs), decide_False, decide_True by done. Qed.

End Swap.

(** The floating value [a] goes up to its parent. *)
Lemma up_step g g' i j a b : swapped g g' i j a b -> j = parent i -> 1 <= j -> lt a b = true -> up_hole g i -> up_hole g' j.
Proof.
  intros Hs -> Hj Hlt [Ho Hb]. pose proof (sw_i _ _ _ _ _ _ Hs) as Ei. pose proof (sw_j _ _ _ _ _ _ Hs) as Ej.
  assert (forall k v, k <> i -> parent k = parent i -> m_values g !! k = Some v -> ord_le b v) as Hsib.
  { intros k v Hk Ep Ev. apply (Ho k Hk); [plia|by rewrite Ep|done]. }
  split.
  - intros k Hk Hk2 x y Hx Hy. destruct (decide (k = i)) as [->|Hki].
    { rewrite (swap_at_j _ _ _ _ _ _ Hs) in Hx. rewrite (swap_at_i _ _ _ _ _ _ Hs) in Hy by plia. injection Hx as <-. injection Hy as <-. by apply lt_le. }
    rewrite (swap_other _ _ _ _ _ _ Hs) in Hy by done. destruct (decide (parent k = i)) as [Ep|Np].
    { rewrite Ep, (swap_at_i _ _ _ _ _ _ Hs) in Hx by plia. injection Hx as <-. apply (Hb ltac:(plia) k Ep); done. }
    destruct (decide (parent k = parent i)) as [Ep|Np'].
    { rewrite Ep, (swap_at_j _ _ _ _ _ _ Hs) in Hx. injection Hx as <-. apply (le_le a b y); [by apply lt_le|by apply (Hsib k)]. }
    rewrite (swap_other _ _ _ _ _ _ Hs) in Hx by done. by apply (Ho k Hki Hk2).
  - intros H2 k Ek x y Hx Hy. rewrite (swap_other _ _ _ _ _ _ Hs) in Hx by plia.
    assert (ord_le x b) as Hxb by (apply (Ho (parent i)); [plia|done|done|done]).
    destruct (decide (k = i)) as [->|Hki].
    { rewrite (swap_at_i _ _ _ _ _ _ Hs) in Hy by plia. by injection Hy as <-. }
    rewrite (swap_other _ _ _ _ _ _ Hs) in Hy by plia. apply (le_le x b y); [done|by apply (Hsib k)].
Qed.

(** The floating value [a] goes down to the smaller child. *)
Lemma down_step g g' i j a b : swapped g g' i j a b -> parent j = i -> 1 <= i -> lt b a = true ->
  (forall k v, parent k = i -> m_values g !! k = Some v -> ord_le b v) -> down_hole g i -> down_hole g' j.
Proof.
  intros Hs Ep Hi Hlt Hmin [Ho Hb]. pose proof (sw_i _ _ _ _ _ _ Hs) as Ei. pose proof (sw_j _ _ _ _ _ _ Hs) as Ej.
  split.
  - intros k Hk Hk2 x y Hx Hy. destruct (decide (parent k = i)) as [Eki|Nki].
    { rewrite Eki, (swap_at_i _ _ _ _ _ _ Hs) in Hx by plia. injection Hx as <-. destruct (decide (k = j)) as [->|Hkj].
      - rewrite (swap_at_j _ _ _ _ _ _ Hs) in Hy. injection Hy as <-. by apply lt_le.
      - rewrite (swap_other _ _ _ _ _ _ Hs) in Hy by plia. by eapply Hmin. }
    rewrite (swap_other _ _ _ _ _ _ Hs) in Hx by done. destruct (decide (k = i)) as [->|Hki].
    { rewrite (swap_at_i _ _ _ _ _ _ Hs) in Hy by plia. injection Hy as <-. by apply (Hb Hk2 j Ep). }
    rewrite (swap_other _ _ _ _ _ _ Hs) in Hy by (try done; intros ->; done). by apply (Ho k Nki Hk2).
  - intros H2 k Ek x y Hx Hy. rewrite Ep, (swap_at_i _ _ _ _ _ _ Hs) in Hx by plia. injection Hx as <-.
    rewrite (swap_other _ _ _ _ _ _ Hs) in Hy by plia. apply (Ho k); [plia|plia|by rewrite Ek|done].
Qed.


(** What a move does: it keeps the values and restores the order. *)
Definition moved (h h' : heap) : Prop :=
  wf h' /\ ordered h' /\ get_bounds h' = get_bounds h /\ length (m_values h') = length (m_values h) /\
  forall v, member h' v <-> member h v.

Lemma up_loop_ok fuel : forall idx val h g, idx < fuel -> 1 <= idx -> idx < length (m_values h) ->
  (0 <= val < Z.of_nat (get_bounds h))%Z -> put idx val h = Some g -> wf g -> up_hole g idx ->
  exists idx' h' g', up_loop lt fuel val idx h = Some (idx', h') /\ put idx' val h' = Some g' /\ moved g g'.
Proof.
  induction fuel as [|fuel IH]; intros idx val h g Hf H1 Hl Hv Hp W Hh; [lia|]. cbn [up_loop].
  destruct (put_ok h idx val Hl Hv) as (g0 & E0 & Lg & Bg & Vg & Xg). assert (g0 = g) as -> by congruence.
  assert (m_values g !! idx = Some val) as Ev by by rewrite Vg, decide_True.
  assert (ordered_at g idx -> exists idx' h' g', Some (idx, h) = Some (idx', h') /\ put idx' val h' = Some g' /\ moved g g') as Hstop.
  { intros Ho. exists idx, h, g. split_and!; [done|done|]. split_and!; try done. intros k.
    destruct (decide (k = idx)) as [->|]; [done|by apply Hh]. }
  destruct (Nat.eqb_spec (parent idx) 0) as [Hp0|Hp0]; [apply Hstop; intros ?; plia|].
  destruct (lookup_lt_is_Some_2 (m_values h) (parent idx)) as [pv Epv]; [plia|].
  unfold rd. rewrite Epv. cbn [mbind option_bind].
  assert (m_values g !! parent idx = Some pv) as Epg by (rewrite Vg, decide_False by plia; done).
  destruct (lt val pv) eqn:Elt; cbn [negb].
  - destruct (put_step h g idx (parent idx) val pv) as (h1 & g1 & E1 & E2 & Hs & L1 & B1); try done; try plia.
    rewrite E1. cbn [mbind option_bind].
    destruct (swapped_wf _ _ _ _ _ _ Hs) as [W1 M1]; [done|plia|plia|done|].
    destruct (IH (parent idx) val h1 g1) as (idx' & h' & g' & El & Eg & (W' & O' & B' & L' & M')); try done; try (rewrite ?L1, ?B1; plia || done).
    { by eapply up_step; [exact Hs| |plia| |]. }
    exists idx', h', g'. split_and!; [done|done|]. split_and!; [done|done| | |].
    + by rewrite B', (sw_bounds _ _ _ _ _ _ Hs).
    + by rewrite L', (sw_length _ _ _ _ _ _ Hs).
    + intros v. by rewrite M', M1.
  - apply Hstop. intros _ x y Hx Hy. congruence.
Qed.

(** A move whose value floats from a position inside the heap. *)
Lemma move_start h idx : wf h -> 1 <= idx < length (m_values h) -> exists val,
  m_values h !! idx = Some val /\ (0 <= val < Z.of_nat (get_bounds h))%Z /\ exists g, put idx val h = Some g /\
  wf g /\ get_bounds g = get_bounds h /\ length (m_values g) = length (m_values h) /\
  forall k, m_values g !! k = m_values h !! k.
Proof.
  intros W [H1 Hl]. destruct (lookup_lt_is_Some_2 _ _ Hl) as [val E]. exists val. destruct idx as [|idx]; [lia|].
  assert (0 <= val < Z.of_nat (get_bounds h))%Z as Hv by (apply (member_bound h val W); by exists idx).
  split_and!; try lia; [done|]. destruct (put_ok h (S idx) val Hl Hv) as (g & Eg & Lg & Bg & Vg & Xg). exists g.
  assert (forall k, m_values g !! k = m_values h !! k) as V by (intros k; rewrite Vg; case_decide; congruence).
  assert (forall w, rdz (m_value2indices g) w = rdz (m_value2indices h) w) as X.
  { intros w. rewrite Xg. case_decide; [|done]. subst. by rewrite (wf_at h W idx val). }
  split_and!; try done. split; [by rewrite V; apply W| |].
  - intros k v. rewrite V, X. apply W.
  - intros v k. rewrite V, X. apply W.
Qed.

Lemma member_ext g h : (forall k, m_values g !! k = m_values h !! k) -> forall v, member g v <-> member h v.
Proof. intros V v. unfold member. by setoid_rewrite V. Qed.

Lemma move_up_ok h idx : wf h -> 1 <= idx < length (m_values h) -> up_hole h idx ->
  exists h', move_up lt idx h = Some h' /\ moved h h'.
Proof.
  intros W Hi [Ho Hb]. destruct (move_start h idx W Hi) as (val & Ev & Hv & g & Eg & Wg & Bg & Lg & V).
  unfold move_up, rd. rewrite Ev. cbn [mbind option_bind].
  destruct (up_loop_ok (S idx) idx val h g) as (i' & h' & g' & El & Ep & W' & O' & B' & L' & M'); try done; try lia.
  { split; [intros k Hk|]; intros H2; [|intros k Hk]; intros a b; rewrite !V; [by apply Ho|by apply (Hb H2 k)]. }
  rewrite El. cbn [mbind option_bind]. exists g'. split; [done|]. split_and!; [done|done|congruence|congruence|].
  intros v. by rewrite M', (member_ext g h V).
Qed.

(** The smaller child of [idx]. *)
Definition min_child (h : heap) (idx : nat) : option nat :=
  if right idx <? length (m_values h) then
    r ← rd (m_values h) (right idx); l ← rd (m_values h) (left idx); Some (if lt r l then right idx else left idx)
  else Some (left idx).

Lemma min_child_ok h idx : 1 <= idx -> left idx < length (m_values h) -> exists j b, min_child h idx = Some j /\
  parent j = idx /\ m_values h !! j = Some b /\ forall k v, parent k = idx -> m_values h !! k = Some v -> ord_le b v.
Proof.
  intros H1 Hl. destruct (lookup_lt_is_Some_2 _ _ Hl) as [l El]. unfold min_child, rd. rewrite El.
  destruct (Nat.ltb_spec (right idx) (length (m_values h))) as [Hr|Hr].
  - destruct (lookup_lt_is_Some_2 _ _ Hr) as [r Er]. rewrite Er. cbn [mbind option_bind]. destruct (lt r l) eqn:E.
    + exists (right idx), r. split_and!; [done|apply parent_right|done|]. intros k v [-> | ->]%children Ev.
      * assert (v = l) as -> by congruence. by apply lt_le.
      * assert (v = r) as -> by congruence. apply le_refl.
    + exists (left idx), l. split_and!; [done|apply parent_left|done|]. intros k v [-> | ->]%children Ev.
      * assert (v = l) as -> by congruence. apply le_refl.
      * by assert (v = r) as -> by congruence.
  - exists (left idx), l. split_and!; [done|apply parent_left|done|]. intros k v [-> | ->]%children Ev.
    + assert (v = l) as -> by congruence. apply le_refl.
    + apply lookup_lt_Some in Ev. lia.
Qed.

Lemma down_stop g idx val : down_hole g idx -> m_values g !! idx = Some val ->
  (forall k v, parent k = idx -> m_values g !! k = Some v -> ord_le val v) -> ordered g.
Proof.
  intros [Ho _] Ev Hc k. destruct (decide (parent k = idx)) as [Ek|]; [|by apply Ho].
  intros H2 a b Ha Hb. rewrite Ek in Ha. assert (a = val) as -> by congruence. by eapply Hc.
Qed.

Lemma down_loop_ok fuel : forall idx val h g, length (m_values h) < idx + fuel -> 1 <= idx < length (m_values h) ->
  (0 <= val < Z.of_nat (get_bounds h))%Z -> put idx val h = Some g -> wf g -> down_hole g idx ->
  exists idx' h' g', down_loop lt fuel (length (m_values h)) val idx h = Some (idx', h') /\ put idx' val h' = Some g' /\ moved g g'.
Proof.
  induction fuel as [|fuel IH]; intros idx val h g Hf [H1 Hl] Hv Hp W Hh; [lia|]. cbn [down_loop].
  destruct (put_ok h idx val Hl Hv) as (g0 & E0 & Lg & Bg & Vg & Xg). assert (g0 = g) as -> by congruence.
  assert (m_values g !! idx = Some val) as Ev by by rewrite Vg, decide_True.
  assert (forall k v, parent k = idx -> m_values g !! k = Some v -> m_values h !! k = Some v) as Hgh.
  { intros k v Hk. rewrite Vg, decide_False by plia. done. }
  assert ((forall k v, parent k = idx -> m_values h !! k = Some v -> ord_le val v) ->
    exists idx' h' g', Some (idx, h) = Some (idx', h') /\ put idx' val h' = Some g' /\ moved g g') as Hstop.
  { intros Hc. exists idx, h, g. split_and!; [done|done|]. split_and!; try done.
    apply (down_stop g idx val); [done|done|]. intros k v Hk Hkv. by apply (Hc k v Hk), Hgh. }
  destruct (Nat.leb_spec (length (m_values h)) (left idx)) as [Hge|Hlt].
  { apply Hstop. intros k v Hk Ek%lookup_lt_Some. plia. }
  fold (min_child h idx). destruct (min_child_ok h idx H1 Hlt) as (j & b & -> & Ej & Eb & Hmin).
  cbn [mbind option_bind]. unfold rd. rewrite Eb. cbn [mbind option_bind].
  destruct (lt b val) eqn:Elt; cbn [negb].
  - assert (m_values g !! j = Some b) as Egb by (rewrite Vg, decide_False by plia; done).
    destruct (put_step h g idx j val b) as (h1 & g1 & E1 & E2 & Hs & L1 & B1); try done; try plia.
    rewrite E1. cbn [mbind option_bind].
    destruct (swapped_wf _ _ _ _ _ _ Hs) as [W1 M1]; [done|plia|plia|done|]. rewrite <- L1.
    pose proof (lookup_lt_Some _ _ _ Eb) as Hj.
    destruct (IH j val h1 g1) as (idx' & h' & g' & El & Eg & (W' & O' & B' & L' & M')); try done; try (rewrite ?L1, ?B1; plia || done).
    { eapply down_step; [exact Hs|done|done|done| |done]. intros k v Hk Ek. apply (Hmin k v Hk), Hgh; done. }
    exists idx', h', g'. split_and!; [done|done|]. split_and!; [done|done| | |].
    + by rewrite B', (sw_bounds _ _ _ _ _ _ Hs).
    + by rewrite L', (sw_length _ _ _ _ _ _ Hs).
    + intros v. by rewrite M', M1.
  - apply Hstop. intros k v Hk Ek. apply (le_le val b v); [done|by apply (Hmin k)].
Qed.

Lemma move_down_ok h idx : wf h -> 1 <= idx < length (m_values h) -> down_hole h idx ->
  exists h', move_down lt idx h = Some h' /\ moved h h'.
Proof.
  intros W Hi [Ho Hb]. destruct (move_start h idx W Hi) as (val & Ev & Hv & g & Eg & Wg & Bg & Lg & V).
  unfold move_down, rd. rewrite Ev. cbn [mbind option_bind].
  destruct (down_loop_ok (S (length (m_values h))) idx val h g) as (i' & h' & g' & El & Ep & W' & O' & B' & L' & M'); try done; try lia.
  { split; [intros k Hk|]; intros H2; [|intros k Hk]; intros a b; rewrite !V; [by apply Ho|by apply (Hb H2 k)]. }
  rewrite El. cbn [mbind option_bind]. exists g'. split; [done|]. split_and!; [done|done|congruence|congruence|].
  intros v. by rewrite M', (member_ext g h V).
Qed.

(** ** Removal *)

(** The value at the last position is dropped. *)
Lemma drop_last_ok h n v : wf h -> length (m_values h) = S (S n) -> m_values h !! S n = Some v ->
  exists h', drop_last v h = Some h' /\ wf h' /\ get_bounds h' = get_bounds h /\ length (m_values h') = S n /\
  (forall k, k <= n -> m_values h' !! k = m_values h !! k) /\ forall w, member h' w <-> member h w /\ w <> v.
Proof.
  intros W Hl Ev. unfold drop_last. rewrite Hl.
  destruct (wrz_ok (m_value2indices h) v 0) as (ind & -> & Li & X); [apply (member_bound h v W); by exists n|].
  cbn [mbind option_bind]. eexists. split; [done|]. replace (S (S n) - 1) with (S n) by lia.
  assert (forall k x, take (S n) (m_values h) !! k = Some x <-> k <= n /\ m_values h !! k = Some x) as V.
  { intros k x. rewrite lookup_take_Some. split; [intros [? ?]; split; [lia|done]|intros [? ?]; split; [done|lia]]. }
  split; [split|]; cbn [m_values m_value2indices get_bounds].
  - apply V. split; [lia|apply W].
  - intros k x [Hk Ex]%V. rewrite X. case_decide as E; [|by apply W]. subst. pose proof (wf_inj h k n v W Ex Ev). lia.
  - intros x k. rewrite X. case_decide as E; [done|]. intros Hx%(wf_index h W). apply V. split; [|done].
    apply lookup_lt_Some in Hx as Hlt. destruct (decide (S k = S n)) as [Ek|]; [|lia]. exfalso. congruence.
  - split_and!; [done|rewrite length_take; lia| |].
    + intros k Hk. by rewrite lookup_take_lt by lia.
    + intros w. split.
      * intros [k [Hk Ek]%V]. split; [by exists k|]. intros ->. pose proof (wf_inj h k n v W Ek Ev). lia.
      * intros [[k Ek] Hw]. exists k. apply V. split; [|done]. apply lookup_lt_Some in Ek as Hlt.
        destruct (decide (S k = S n)) as [E|]; [|lia]. exfalso. congruence.
Qed.

(** A value and its index overwritten twice. *)
Lemma drop_last_put h h1 g val n : put (S n) val h1 = Some g -> length (m_values h1) = S (S n) -> h = h1 ->
  (0 <= val < Z.of_nat (get_bounds h1))%Z -> drop_last val h = drop_last val g.
Proof.
  intros Eg Hl -> Hv. unfold put in Eg. rewrite wr_ok in Eg by lia. cbn [mbind option_bind] in Eg. unfold drop_last.
  unfold wrz in *. destruct (Z.ltb_spec val 0); [lia|]. unfold get_bounds in Hv. rewrite wr_ok in Eg |- * by lia.
  cbn [mbind option_bind] in Eg. injection Eg as <-. cbn [m_values m_value2indices].
  rewrite wr_ok by (rewrite length_insert; lia). rewrite list_insert_insert_eq, length_insert, take_insert_ge by lia. done.
Qed.

(** The value at [idx] is replaced by the last one. *)
Lemma replace_last_ok h n idx val last : wf h -> length (m_values h) = S (S n) -> 1 <= idx <= n ->
  m_values h !! idx = Some val -> m_values h !! S n = Some last ->
  exists h1 h2, put idx last h = Some h1 /\ drop_last val h1 = Some h2 /\ wf h2 /\ get_bounds h2 = get_bounds h /\
  length (m_values h2) = S n /\ (forall k, k <= n -> m_values h2 !! k = if decide (k = idx) then Some last else m_values h !! k) /\
  forall w, member h2 w <-> member h w /\ w <> val.
Proof.
  intros W Hl Hi Ev El. destruct (move_start h idx W) as (v & Ev' & Hv & g & Eg & Wg & Bg & Lg & V); [lia|].
  assert (v = val) as -> by congruence.
  destruct (put_step h g idx (S n) val last) as (h1 & g1 & E1 & E2 & Hs & L1 & B1); try done; try lia; [by rewrite V|].
  destruct (swapped_wf _ _ _ _ _ _ Hs) as [W1 M1]; [lia|lia|lia|done|].
  destruct (drop_last_ok g1 n val) as (h2 & E & W2 & B2 & L2 & V2 & M2); [done|by rewrite (sw_length _ _ _ _ _ _ Hs), Lg|by apply (swap_at_j _ _ _ _ _ _ Hs)|].
  exists h1, h2. split; [done|]. split; [rewrite (drop_last_put h1 h1 g1 val n); [done|done|by rewrite L1|done|by rewrite B1]|].
  split_and!; [done|by rewrite B2, (sw_bounds _ _ _ _ _ _ Hs)|done| |].
  - intros k Hk. rewrite V2 by done. rewrite (sw_values _ _ _ _ _ _ Hs), decide_False by lia. case_decide; [done|]. by rewrite V.
  - intros w. by rewrite M2, M1, (member_ext g h V).
Qed.

(** The hole left by the replacement. *)
Section Replaced.
Context (h h2 : heap) (n idx : nat) (last : Z).
Context (Ho : ordered h) (Hl : length (m_values h) = S (S n)) (Hl2 : length (m_values h2) = S n) (Hi : 1 <= idx <= n).
Context (V : forall k, k <= n -> m_values h2 !! k = if decide (k = idx) then Some last else m_values h !! k).

Lemma replaced_other k x : k <> idx -> m_values h2 !! k = Some x -> m_values h !! k = Some x.
Proof.
  intros Hk Ex. pose proof (lookup_lt_Some _ _ _ Ex). rewrite V in Ex by lia. by rewrite decide_False in Ex.
Qed.

Lemma replaced_at : m_values h2 !! idx = Some last.
Proof. by rewrite V, decide_True by lia. Qed.

Lemma replaced_ordered k : k <> idx -> parent k <> idx -> ordered_at h2 k.
Proof. intros Hk Hp H2 a b Ha Hb. apply replaced_other in Ha, Hb; [|done..]. by apply (Ho k H2). Qed.

Lemma replaced_bypass : bypass h2 idx.
Proof.
  intros H2 k Hk a b Ha Hb. apply replaced_other in Ha; [|plia]. apply replaced_other in Hb; [|plia].
  by apply (ordered_bypass h idx Ho H2 k Hk).
Qed.

Lemma replaced_up pv : m_values h2 !! parent idx = Some pv -> 1 <= parent idx -> lt last pv = true -> up_hole h2 idx.
Proof.
  intros Ep Hp Hlt. split; [|exact replaced_bypass]. intros k Hk. destruct (decide (parent k = idx)) as [Ek|]; [|by apply replaced_ordered].
  intros H2 a b Ha Hb. rewrite Ek, replaced_at in Ha. injection Ha as <-. apply replaced_other in Ep; [|plia]. apply replaced_other in Hb; [|done].
  apply (le_le last pv b); [by apply lt_le|]. by apply (ordered_bypass h idx Ho ltac:(plia) k Ek).
Qed.

Lemma replaced_down : (1 <= parent idx -> forall pv, m_values h2 !! parent idx = Some pv -> lt last pv = false) -> down_hole h2 idx.
Proof.
  intros Hle. split; [|exact replaced_bypass]. intros k Hk. destruct (decide (k = idx)) as [->|]; [|by apply replaced_ordered].
  intros H2 a b Ha Hb. rewrite replaced_at in Hb. injection Hb as <-. apply Hle; [plia|done].
Qed.
End Replaced.

(** The least value is at the top. *)
Lemma top_least h v : ordered h -> m_values h !! 1 = Some v -> forall w, member h w -> ord_le v w.
Proof.
  intros Ho Ev w [i Hi]. remember (S i) as k eqn:Ek. assert (1 <= k) as Hk by lia. clear i Ek. revert w Hi.
  induction k as [k IH] using (well_founded_induction lt_wf). intros w Hw.
  destruct (decide (k = 1)) as [->|Hk1]; [assert (w = v) as -> by congruence; apply le_refl|].
  destruct (lookup_lt_is_Some_2 (m_values h) (parent k)) as [p Ep]; [apply lookup_lt_Some in Hw; plia|].
  apply (le_le v p w); [by apply (IH (parent k)); [plia|plia|]|]. by apply (Ho k); [lia| |].
Qed.

(** What an operation on a heap returns. *)
Record heap_post (h h' : heap) (P : Z -> Prop) : Prop := {
  hp_wf : wf h';
  hp_ordered : ordered h';
  hp_bounds : get_bounds h' = get_bounds h;
  hp_member : forall v, member h' v <-> P v }.

Lemma moved_post h h' P : moved h h' -> (forall v, member h v <-> P v) -> heap_post h h' P.
Proof. intros (W & O & B & _ & M) HP. split; try done. intros v. by rewrite M. Qed.

Lemma drop_post h n v : wf h -> ordered h -> length (m_values h) = S (S n) -> m_values h !! S n = Some v ->
  exists h', drop_last v h = Some h' /\ heap_post h h' (fun w => member h w /\ w <> v).
Proof.
  intros W Ho Hl Ev. destruct (drop_last_ok h n v W Hl Ev) as (h' & E & W' & B & L & V & M). exists h'. split; [done|].
  split; [done| |done|done]. intros k H2 a b Ha Hb. pose proof (lookup_lt_Some _ _ _ Ha). pose proof (lookup_lt_Some _ _ _ Hb).
  rewrite V in Ha by lia. rewrite V in Hb by lia. by apply (Ho k H2).
Qed.

Lemma last_value h n : length (m_values h) = S (S n) -> exists v, m_values h !! S n = Some v.
Proof. intros Hl. apply lookup_lt_is_Some_2. lia. Qed.

Lemma erase_min_ok h v0 : wf h -> ordered h -> member h v0 -> exists v h', erase_min lt h = Some (v, h') /\
  member h v /\ (forall w, member h w -> ord_le v w) /\ heap_post h h' (fun w => member h w /\ w <> v).
Proof.
  intros W Ho [i0 Hi0]. apply lookup_lt_Some in Hi0. destruct (length (m_values h)) as [|[|n]] eqn:Hl; [lia|lia|].
  destruct (lookup_lt_is_Some_2 (m_values h) 1) as [v Ev]; [lia|]. exists v. unfold erase_min, rd. rewrite Ev, Hl. cbn [mbind option_bind].
  pose proof (top_least h v Ho Ev) as Hmin. assert (member h v) as Hv by by exists 0.
  destruct (Nat.eqb_spec (S (S n)) 2) as [E2|N2].
  - injection E2 as ->. destruct (drop_post h 0 v W Ho Hl Ev) as (h' & E & P). rewrite E. cbn [mbind option_bind]. exists h'. by split_and!.
  - destruct (last_value h n Hl) as [last El]. replace (S (S n) - 1) with (S n) by lia. rewrite El. cbn [mbind option_bind].
    destruct (replace_last_ok h n 1 v last W Hl) as (h1 & h2 & E1 & E2 & W2 & B2 & L2 & V2 & M2); [lia|done|done|].
    rewrite E1. cbn [mbind option_bind]. rewrite E2. cbn [mbind option_bind].
    destruct (move_down_ok h2 1) as (h' & E3 & Mv); [done|lia| |].
    { apply (replaced_down h h2 n 1 last); try done; [lia|plia]. }
    rewrite E3. cbn [mbind option_bind]. exists h'. split_and!; [done|done|done|].
    destruct (moved_post h2 h' _ Mv M2) as [A1 A2 A3 A4]. split; [done|done|congruence|done].
Qed.

Lemma erase_ok h v : wf h -> ordered h -> member h v -> exists h', erase lt v h = Some h' /\
  heap_post h h' (fun w => member h w /\ w <> v).
Proof.
  intros W Ho Hv. destruct (index_of h v W Hv) as (i & Ei & Ev). unfold erase. rewrite Ei. cbn [mbind option_bind].
  pose proof (lookup_lt_Some _ _ _ Ev) as Hi. destruct (length (m_values h)) as [|[|n]] eqn:Hl; [lia|lia|].
  replace (S (S n) - 1) with (S n) by lia. destruct (Nat.eqb_spec (S i) (S n)) as [E|N].
  { injection E as ->. by apply (drop_post h n v). }
  destruct (last_value h n Hl) as [last El]. unfold rd. rewrite El. cbn [mbind option_bind].
  destruct (replace_last_ok h n (S i) v last W Hl) as (h1 & h2 & E1 & E2 & W2 & B2 & L2 & V2 & M2); [lia|done|done|].
  rewrite E1. cbn [mbind option_bind]. rewrite E2. cbn [mbind option_bind].
  assert (exists up h', (if negb (parent (S i) =? 0) then pv ← m_values h2 !! parent (S i); Some (lt last pv) else Some false) = Some up /\
    (if up : bool then move_up lt (S i) h2 else move_down lt (S i) h2) = Some h' /\ moved h2 h') as (up & h' & Eu & Em & Mv).
  { destruct (Nat.eqb_spec (parent (S i)) 0) as [E0|N0]; cbn [negb].
    - destruct (move_down_ok h2 (S i)) as (h' & Em & Mv); [done|lia| |by exists false, h'].
      apply (replaced_down h h2 n (S i) last); try done; [lia|lia].
    - destruct (lookup_lt_is_Some_2 (m_values h2) (parent (S i))) as [pv Ep]; [plia|]. rewrite Ep. cbn [mbind option_bind].
      exists (lt last pv). destruct (lt last pv) eqn:Elt.
      + destruct (move_up_ok h2 (S i)) as (h' & Em & Mv); [done|lia| |by exists h'].
        apply (replaced_up h h2 n (S i) last) with pv; done || lia.
      + destruct (move_down_ok h2 (S i)) as (h' & Em & Mv); [done|lia| |by exists h'].
        apply (replaced_down h h2 n (S i) last); try done; [lia|]. intros _ pv' Ep'. congruence. }
  rewrite Eu. cbn [mbind option_bind]. rewrite Em. exists h'. split; [done|].
  destruct (moved_post h2 h' _ Mv M2) as [A1 A2 A3 A4]. split; [done|done|congruence|done].
Qed.

(** ** Insertion and changes of order *)

Lemma length_pos h : wf h -> 1 <= length (m_values h).
Proof. intros W. pose proof (lookup_lt_Some _ _ _ (wf_dummy h W)). lia. Qed.

(** The value is appended, with its position. *)
Lemma append_ok h v ind : wf h -> ~ member h v -> (0 <= v)%Z -> wrz (m_value2indices h) v (length (m_values h)) = Some ind ->
  length ind = get_bounds h ->
  (forall w, rdz ind w = if decide (w = v) then Some (length (m_values h)) else rdz (m_value2indices h) w) ->
  wf (Heap (m_values h ++ [v]) ind) /\ forall w, member (Heap (m_values h ++ [v]) ind) w <-> member h w \/ w = v.
Proof.
  intros W Hv H0 _ _ X. pose proof (length_pos h W) as Hl.
  assert (forall k x, (m_values h ++ [v]) !! k = Some x <-> m_values h !! k = Some x \/ (k = length (m_values h) /\ x = v)) as V.
  { intros k x. rewrite lookup_app_Some, list_lookup_singleton_Some. split.
    - intros [?|(? & ? & ->)]; [by left|right]. split; [lia|done].
    - intros [?|[-> ->]]; [by left|right]. split_and!; [lia|lia|done]. }
  split; [split|]; cbn [m_values m_value2indices].
  - apply V. left. apply W.
  - intros k x [Hk|[-> ->]]%V; rewrite X; [|by rewrite decide_True].
    rewrite decide_False by (intros ->; destruct Hv; by exists k). by apply W.
  - intros x k. rewrite X. intros Hx. apply V. case_decide as E; [right; subst; split; [congruence|done]|left; by apply W].
  - intros w. split.
    + intros [k [Hk|[_ ->]]%V]; [left; by exists k|by right].
    + intros [[k Hk]| ->]; [exists k; apply V; by left|]. exists (length (m_values h) - 1). apply V. right. split; [lia|done].
Qed.

Lemma insert_ok h v : wf h -> ordered h -> ~ member h v -> (0 <= v < Z.of_nat (get_bounds h))%Z ->
  exists h', insert lt v h = Some h' /\ heap_post h h' (fun w => member h w \/ w = v).
Proof.
  intros W Ho Hv Hb. pose proof (length_pos h W) as Hl. unfold insert.
  destruct (wrz_ok (m_value2indices h) v (length (m_values h))) as (ind & E & Li & X); [exact Hb|]. rewrite E. cbn [mbind option_bind].
  destruct (append_ok h v ind W Hv) as [W' M']; [lia|done|done|done|]. set (g := Heap _ _) in *.
  assert (forall k x, m_values g !! k = Some x -> k <> length (m_values h) -> m_values h !! k = Some x) as V.
  { intros k x Ek Hk. pose proof (lookup_lt_Some _ _ _ Ek) as Hlt. unfold g in *. cbn in *. rewrite length_app in Hlt. cbn in Hlt.
    rewrite lookup_app_l in Ek by lia. done. }
  assert (length (m_values g) = S (length (m_values h))) as Lg by (unfold g; cbn; rewrite length_app; cbn; lia).
  destruct (move_up_ok g (length (m_values h))) as (h' & Em & Mv); [done|lia| |].
  { split.
    - intros k Hk H2 a b Ha Hbb. pose proof (lookup_lt_Some _ _ _ Hbb). apply V in Ha; [|plia]. apply V in Hbb; [|done]. by apply (Ho k).
    - intros H2 k Hk a b Ha Hbb. apply lookup_lt_Some in Hbb. plia. }
  exists h'. split; [done|]. destruct (moved_post g h' _ Mv M') as [A1 A2 A3 A4]. split; [done|done| |done].
  rewrite A3. exact Li.
Qed.

Lemma decreased_ok h v i : wf h -> m_values h !! S i = Some v -> up_hole h (S i) ->
  exists h', decreased lt v h = Some h' /\ heap_post h h' (member h).
Proof.
  intros W Ev Hh. unfold decreased. rewrite (wf_at h W i v Ev). cbn [mbind option_bind].
  destruct (move_up_ok h (S i) W) as (h' & E & Mv); [apply lookup_lt_Some in Ev; lia|done|].
  exists h'. split; [done|]. by apply (moved_post h).
Qed.

Lemma increased_ok h v i : wf h -> m_values h !! S i = Some v -> down_hole h (S i) ->
  exists h', increased lt v h = Some h' /\ heap_post h h' (member h).
Proof.
  intros W Ev Hh. unfold increased. rewrite (wf_at h W i v Ev). cbn [mbind option_bind].
  destruct (move_down_ok h (S i) W) as (h' & E & Mv); [apply lookup_lt_Some in Ev; lia|done|].
  exists h'. split; [done|]. by apply (moved_post h).
Qed.

(** ** The empty heap and the bounds *)

Lemma ordered_short h : length (m_values h) <= 1 -> ordered h.
Proof. intros Hl k H2 a b Ha Hb. apply lookup_lt_Some in Hb. lia. Qed.

Lemma rdz_replicate n v i : rdz (replicate n 0) v = Some (S i) -> False.
Proof. unfold rdz, rd. destruct (v <? 0)%Z; [done|]. by intros [? _]%lookup_replicate. Qed.

Lemma reset_ok h : wf h -> heap_post h (reset h) (fun _ => False).
Proof.
  intros W. unfold reset, empty. destruct (Nat.eqb_spec (length (m_values h)) 1) as [E|_].
  - split; [done|by apply ordered_short; rewrite E|done|]. intros v. split; [|done]. intros [i Hi%lookup_lt_Some]. lia.
  - split; [|by apply ordered_short; cbn|by cbn; rewrite length_replicate|intros v; by split; [intros [i Hi]|]].
    split; [done|done|]. intros v i Hv. by apply rdz_replicate in Hv.
Qed.

Lemma set_bounds_ok s h : wf h -> (forall v, member h v -> (v < Z.of_nat s)%Z) ->
  wf (set_bounds s h) /\ get_bounds (set_bounds s h) = s /\ m_values (set_bounds s h) = m_values h.
Proof.
  intros W Hs. set (ind := take s (m_value2indices h) ++ replicate (s - length (m_value2indices h)) 0).
  assert (forall v i, rdz ind v = Some (S i) <-> rdz (m_value2indices h) v = Some (S i) /\ (v < Z.of_nat s)%Z) as X.
  { intros v i. unfold ind, rdz, rd. destruct (Z.ltb_spec v 0); [by split; [|intros [? ?]]|].
    rewrite lookup_app_Some, lookup_take_Some, lookup_replicate. split.
    - intros [[? ?]|(? & ? & _)]; [split; [done|lia]|done].
    - intros [? ?]. left. split; [done|lia]. }
  split_and!; [|unfold set_bounds, get_bounds; cbn; rewrite length_app, length_take, length_replicate; lia|done].
  split; cbn [set_bounds m_values m_value2indices]; fold ind; [apply W| |].
  - intros i v Hv. apply X. split; [by apply W|]. apply Hs. by exists i.
  - intros v i [Hv _]%X. by apply W.
Qed.

Lemma mk_heap_ok s : wf (mk_heap s) /\ get_bounds (mk_heap s) = s /\ m_values (mk_heap s) = [(-1)%Z].
Proof.
  apply (set_bounds_ok s (Heap [(-1)%Z] [])); [|by intros v [i Hi]].
  split; [done|done|]. intros v i. unfold rdz. destruct (v <? 0)%Z; done.
Qed.

(** ** The values not above a bound *)

(** [i] is an ancestor of [j], or [j]. *)
Inductive desc : nat -> nat -> Prop :=
  | desc_refl i : desc i i
  | desc_parent i j : desc i (parent j) -> desc i j.

Lemma desc_le i j : desc i j -> i <= j.
Proof. induction 1 as [|i j _ IH]; [done|plia]. Qed.

Lemma desc_trans i j k : desc i j -> desc j k -> desc i k.
Proof. intros Hij. induction 1; [done|by apply desc_parent; auto]. Qed.

(** The ancestors of a position form a chain. *)
Lemma desc_chain i j k : desc i k -> desc j k -> desc i j \/ desc j i.
Proof.
  intros Hi. revert j. induction Hi as [i|i k Hi IH]; intros j Hj; [by right|].
  inversion Hj; subst; [left; by apply desc_parent|by apply IH].
Qed.

Lemma desc_inv i j : desc i j -> 1 <= i -> i = j \/ desc (left i) j \/ desc (right i) j.
Proof.
  induction 1 as [i|i j Hd IH]; intros Hi; [by left|]. destruct (IH Hi) as [Ei|[Hl|Hr]].
  - destruct (children i j (eq_sym Ei)) as [-> | ->]; right; [left|right]; apply desc_refl.
  - right. left. by apply desc_parent.
  - right. right. by apply desc_parent.
Qed.

Lemma desc_disjoint i j : 1 <= i -> desc (left i) j -> desc (right i) j -> False.
Proof.
  intros Hi Hl Hr. destruct (desc_chain _ _ _ Hl Hr) as [H|H]; apply desc_le in H as Hle; [|plia].
  inversion H; subst; [plia|]. match goal with H : desc _ (parent _) |- _ => rewrite parent_right in H; apply desc_le in H end. plia.
Qed.

Lemma desc_root j : 1 <= j -> desc 1 j.
Proof.
  induction j as [j IH] using (well_founded_induction lt_wf). intros Hj.
  destruct (decide (j = 1)) as [->|]; [apply desc_refl|]. apply desc_parent, IH; plia.
Qed.

Lemma desc_ordered h i j : ordered h -> desc i j -> 1 <= i -> above h i j.
Proof.
  intros Ho. induction 1 as [i|i j Hd IH]; intros Hi a b Ha Hb.
  - assert (a = b) as -> by congruence. apply le_refl.
  - pose proof (desc_le _ _ Hd). destruct (lookup_lt_is_Some_2 (m_values h) (parent j)) as [p Ep]; [apply lookup_lt_Some in Hb; plia|].
    apply (le_le a p b); [by apply IH|]. apply (Ho j); [plia|done|done].
Qed.

(** The positions the search visits and accepts below [i]. *)
Fixpoint visit (fuel : nat) (h : heap) (val : Z) (i : nat) : list nat :=
  match fuel with
  | O => []
  | S fuel' =>
      match m_values h !! i with
      | Some v => if negb (lt val v) then i :: visit fuel' h val (right i) ++ visit fuel' h val (left i) else []
      | None => []
      end
  end.

Lemma visit_enough h val f1 : forall f2 i, 1 <= i -> length (m_values h) <= i + f1 -> length (m_values h) <= i + f2 ->
  visit f1 h val i = visit f2 h val i.
Proof.
  assert (forall f i, length (m_values h) <= i -> visit f h val i = []) as H0.
  { intros [|f] i Hl; [done|]. cbn. by rewrite lookup_ge_None_2. }
  induction f1 as [|f1 IH]; intros [|f2] i Hi H1 H2; try done.
  - by rewrite !H0 by lia.
  - by rewrite !H0 by lia.
  - cbn [visit]. destruct (m_values h !! i); [|done]. by rewrite (IH f2 (right i)), (IH f2 (left i)) by plia.
Qed.

Lemma visit_in h val f : ordered h -> forall i, 1 <= i -> length (m_values h) <= i + f -> forall j,
  j ∈ visit f h val i <-> desc i j /\ exists v, m_values h !! j = Some v /\ ord_le v val.
Proof.
  intros Ho. induction f as [|f IH]; intros i Hi Hl j; cbn [visit].
  { split; [by intros ?%elem_of_nil|]. intros [Hd%desc_le (v & Hv%lookup_lt_Some & _)]. lia. }
  destruct (m_values h !! i) as [v|] eqn:Ev.
  - destruct (lt val v) eqn:Elt; cbn [negb].
    + split; [by intros ?%elem_of_nil|]. intros [Hd (w & Ew & Hw)]. pose proof (desc_ordered h i j Ho Hd Hi v w Ev Ew) as Hvw.
      pose proof (le_le v w val Hvw Hw) as Hc. unfold ord_le in Hc. congruence.
    + rewrite elem_of_cons, elem_of_app, !IH by plia. split.
      * intros [-> |[[Hd Hw]|[Hd Hw]]]; [split; [|by exists v]|split; [|done]|split; [|done]].
        -- apply desc_refl.
        -- eapply desc_trans; [|exact Hd]. apply desc_parent. rewrite parent_right. apply desc_refl.
        -- eapply desc_trans; [|exact Hd]. apply desc_parent. rewrite parent_left. apply desc_refl.
      * intros [Hd Hw]. destruct (desc_inv i j Hd Hi) as [->|[?|?]]; auto.
  - split; [by intros ?%elem_of_nil|]. intros [Hd%desc_le (v & Hv%lookup_lt_Some & _)]. apply lookup_ge_None in Ev. lia.
Qed.

Lemma visit_nodup h val f : ordered h -> forall i, 1 <= i -> length (m_values h) <= i + f -> NoDup (visit f h val i).
Proof.
  intros Ho. induction f as [|f IH]; intros i Hi Hl; cbn [visit]; [constructor|].
  destruct (m_values h !! i) as [v|]; [|constructor]. destruct (negb (lt val v)); [|constructor].
  apply list.NoDup_cons. rewrite elem_of_app, !(visit_in h val f Ho) by plia. split.
  - intros [[Hd%desc_le _]|[Hd%desc_le _]]; plia.
  - apply list.NoDup_app. split_and!; [apply IH; plia| |apply IH; plia].
    intros j Hr Hl'. apply (visit_in h val f Ho) in Hr as [Hr _], Hl' as [Hl' _]; [|plia..]. by apply (desc_disjoint i j Hi).
Qed.

(** The steps of the loop, and its result. *)
Definition visits (h : heap) (val : Z) (todo : list nat) : list nat := concat (map (visit (length (m_values h)) h val) todo).
Definition value_at (h : heap) (i : nat) : Z := default 0%Z (m_values h !! i).

Lemma find_le_loop_ok h val fuel : forall todo result, Forall (fun i => 1 <= i) todo ->
  length todo + 2 * length (visits h val todo) < fuel ->
  find_le_loop lt fuel val h todo result = Some (result ++ map (value_at h) (visits h val todo)).
Proof.
  induction fuel as [|fuel IH]; intros todo result Ht Hf; [lia|]. cbn [find_le_loop].
  destruct todo as [|i todo]; [by rewrite app_nil_r|]. apply list.Forall_cons in Ht as [Hi Ht].
  unfold visits in *. cbn [map concat] in *.
  assert (visit (length (m_values h)) h val i = visit (S (length (m_values h))) h val i) as E by (apply visit_enough; lia).
  rewrite E in *. cbn [visit] in *. destruct (m_values h !! i) as [v|] eqn:Ev; [|by apply IH; cbn in *; [|lia]].
  destruct (negb (lt val v)); [|by apply IH; cbn in *; [|lia]].
  rewrite IH; cbn [map concat] in *.
  - f_equal. rewrite <- app_assoc. f_equal. cbn [map app]. unfold value_at at 2. rewrite Ev. cbn. f_equal. by rewrite <- app_assoc.
  - constructor; [plia|]. constructor; [plia|done].
  - cbn in Hf |- *. rewrite !length_app in *. lia.
Qed.

Lemma find_le_ok h val result : wf h -> ordered h -> exists r, find_le lt val h result = Some (result ++ r) /\ NoDup r /\
  forall v, v ∈ r <-> member h v /\ ord_le v val.
Proof.
  intros W Ho. pose proof (length_pos h W) as Hl. set (l := visits h val [1]).
  assert (l = visit (length (m_values h)) h val 1) as El by (unfold l, visits; cbn; by rewrite app_nil_r).
  assert (forall j, j ∈ l <-> 1 <= j /\ exists v, m_values h !! j = Some v /\ ord_le v val) as Hin.
  { intros j. rewrite El, visit_in by (done || lia). split; intros [Hd Hv]; (split; [|done]); [by apply desc_le|by apply desc_root]. }
  assert (NoDup l) as Hnd by (rewrite El; apply visit_nodup; (done || lia)).
  exists (map (value_at h) l). split_and!.
  - unfold find_le. apply find_le_loop_ok; [by repeat constructor|]. fold l. cbn [length].
    assert (length l <= length (seq 1 (length (m_values h) - 1))) as Hle; [|rewrite length_seq in Hle; lia].
    apply submseteq_length, NoDup_submseteq; [done|]. intros j [Hj (v & Hv%lookup_lt_Some & _)]%Hin. apply elem_of_seq. lia.
  - apply (NoDup_fmap_2_strong (value_at h) l); [|done]. intros i j [Hi (v & Ev & _)]%Hin [Hj (w & Ew & _)]%Hin.
    unfold value_at. rewrite Ev, Ew. cbn. intros ->. destruct i as [|i]; [lia|]. destruct j as [|j]; [lia|]. f_equal. by apply (wf_inj h i j w).
  - intros v. split.
    + intros (j & -> & [Hj (w & Ew & Hw)]%Hin)%list_elem_of_fmap. unfold value_at. rewrite Ew. cbn. split; [|done].
      destruct j as [|j]; [lia|]. by exists j.
    + intros [[j Ej] Hv]. apply list_elem_of_fmap. exists (S j). unfold value_at. rewrite Ej. split; [done|]. apply Hin. split; [lia|]. by exists v.
Qed.

End Order.
