(* ===== verification/HeapTheorems.v ===== *)
(** * HeapTheorems: the heap is a priority queue

    An abstract priority queue: an order, a bound and a set of values, with a step relation; the heap
    simulates it.  Inserting values and taking them out again sorts them. *)
From S2P Require Import Prelude.
From S2P Require Import Heap.
From S2P Require Import HeapProofs.
From Stdlib Require Import ZArith Lia Permutation.
From stdpp Require Import base tactics option list numbers gmap sorting.
Import heap_ops.
Open Scope nat_scope.

(** ** The abstract priority queue *)

Record pq := PQ { pq_lt : Z -> Z -> bool; pq_bound : nat; pq_set : gset Z }.

(** What a client does; in the last two it has changed the order for the value [v]. *)
Inductive op :=
  | op_insert (v : Z) | op_erase (v : Z) | op_erase_min | op_min_value | op_contains (v : Z)
  | op_find_le (v : Z) | op_reset | op_set_bounds (s : nat) | op_reserve (s : nat)
  | op_decreased (v : Z) (lt : Z -> Z -> bool) | op_increased (v : Z) (lt : Z -> Z -> bool).

(** The order is the same but for [v], which went down, or up. *)
Definition same_but (v : Z) (lt lt' : Z -> Z -> bool) : Prop :=
  StrictWeak lt' /\ forall a b, a <> v -> b <> v -> lt' a b = lt a b.
Definition lowered (v : Z) (lt lt' : Z -> Z -> bool) : Prop := same_but v lt lt' /\ forall w, ord_le lt v w -> ord_le lt' v w.
Definition raised (v : Z) (lt lt' : Z -> Z -> bool) : Prop := same_but v lt lt' /\ forall w, ord_le lt w v -> ord_le lt' w v.

Definition enabled (q : pq) (o : op) : Prop :=
  match o with
  | op_insert v => (0 <= v < Z.of_nat (pq_bound q))%Z /\ v ∉ pq_set q
  | op_erase v => v ∈ pq_set q
  | op_erase_min | op_min_value => pq_set q <> ∅
  | op_contains v => (0 <= v)%Z
  | op_find_le _ | op_reset | op_reserve _ => True
  | op_set_bounds s => forall v, v ∈ pq_set q -> (v < Z.of_nat s)%Z
  | op_decreased v lt' => v ∈ pq_set q /\ lowered v (pq_lt q) lt'
  | op_increased v lt' => v ∈ pq_set q /\ raised v (pq_lt q) lt'
  end.

(** A least value; any of them. *)
Definition least (q : pq) (v : Z) : Prop := v ∈ pq_set q /\ forall w, w ∈ pq_set q -> ord_le (pq_lt q) v w.

Inductive pq_step (q : pq) : op -> list Z -> pq -> Prop :=
  | s_insert v : pq_step q (op_insert v) [] (PQ (pq_lt q) (pq_bound q) ({[v]} ∪ pq_set q))
  | s_erase v : pq_step q (op_erase v) [] (PQ (pq_lt q) (pq_bound q) (pq_set q ∖ {[v]}))
  | s_erase_min v : least q v -> pq_step q op_erase_min [v] (PQ (pq_lt q) (pq_bound q) (pq_set q ∖ {[v]}))
  | s_min_value v : least q v -> pq_step q op_min_value [v] q
  | s_contains v : pq_step q (op_contains v) (if bool_decide (v ∈ pq_set q) then [v] else []) q
  | s_find_le v r : NoDup r -> (forall w, w ∈ r <-> w ∈ pq_set q /\ ord_le (pq_lt q) w v) -> pq_step q (op_find_le v) r q
  | s_reset : pq_step q op_reset [] (PQ (pq_lt q) (pq_bound q) ∅)
  | s_set_bounds s : pq_step q (op_set_bounds s) [] (PQ (pq_lt q) s (pq_set q))
  | s_reserve s : pq_step q (op_reserve s) [] (PQ (pq_lt q) (max s (pq_bound q)) (pq_set q))
  | s_decreased v lt' : pq_step q (op_decreased v lt') [] (PQ lt' (pq_bound q) (pq_set q))
  | s_increased v lt' : pq_step q (op_increased v lt') [] (PQ lt' (pq_bound q) (pq_set q)).

(** ** The heap as an implementation *)

Definition quiet (h : option heap) : option (list Z * heap) := h ← h; Some ([], h).

Definition exec_op (lt : Z -> Z -> bool) (o : op) (h : heap) : option (list Z * heap) :=
  match o with
  | op_insert v => quiet (insert lt v h)
  | op_erase v => quiet (erase lt v h)
  | op_erase_min => '(v, h) ← erase_min lt h; Some ([v], h)
  | op_min_value => v ← min_value h; Some ([v], h)
  | op_contains v => b ← contains h v; Some (if b : bool then [v] else [], h)
  | op_find_le v => r ← find_le lt v h []; Some (r, h)
  | op_reset => Some ([], reset h)
  | op_set_bounds s => Some ([], set_bounds s h)
  | op_reserve s => Some ([], reserve s h)
  | op_decreased v lt' => quiet (decreased lt' v h)
  | op_increased v lt' => quiet (increased lt' v h)
  end.

Record represents (q : pq) (h : heap) : Prop := {
  rep_order : StrictWeak (pq_lt q);
  rep_wf : wf h;
  rep_ordered : ordered (pq_lt q) h;
  rep_bound : get_bounds h = pq_bound q;
  rep_set : forall v, member h v <-> v ∈ pq_set q }.

Lemma post_represents q h h' lt' P (S : gset Z) : represents q h -> StrictWeak lt' -> heap_post lt' h h' P ->
  (forall v, P v <-> v ∈ S) -> represents (PQ lt' (pq_bound q) S) h'.
Proof. intros R SW [W O B M] HP. split; cbn; [done|done|done|by rewrite B; apply R|]. intros v. by rewrite M. Qed.

Lemma rep_bounds q h s : represents q h -> (forall v, v ∈ pq_set q -> (v < Z.of_nat s)%Z) ->
  represents (PQ (pq_lt q) s (pq_set q)) (set_bounds s h).
Proof.
  intros [SW W O B M] Hs. destruct (set_bounds_ok s h W) as (W' & B' & V); [intros v Hv; by apply Hs, M|].
  split; cbn; [done|done| |done|].
  - intros k H2 a b. rewrite V. by apply O.
  - intros v. rewrite <- M. unfold member. by rewrite V.
Qed.

(** A lowered value may be too small, a raised one too large. *)
Lemma lowered_hole lt lt' h i v : wf h -> StrictWeak lt -> ordered lt h -> m_values h !! S i = Some v -> lowered v lt lt' -> up_hole lt' h (S i).
Proof.
  intros W SW Ho Ev [[SW' Hs] Hl]. assert (forall k x, k <> S i -> 1 <= k -> m_values h !! k = Some x -> x <> v) as Hne.
  { intros [|k] x Hk H1 Ex ->; [lia|]. destruct Hk. f_equal. by eapply wf_inj. }
  split.
  - intros k Hk H2 a b Ha Hb. pose proof (Ho k H2 a b Ha Hb) as Hab. destruct (decide (parent k = S i)) as [Ep|Np].
    + rewrite Ep in Ha. assert (a = v) as -> by congruence. by apply Hl.
    + unfold ord_le in *. rewrite Hs; [done|apply (Hne k); [done|lia|done]|apply (Hne (parent k)); [done|plia|done]].
  - intros H2 k Hk a b Ha Hb. pose proof (ordered_bypass lt h (S i) Ho H2 k Hk a b Ha Hb) as Hab.
    unfold ord_le in *. rewrite Hs; [done|apply (Hne k); [plia|plia|done]|apply (Hne (parent (S i))); [plia|plia|done]].
Qed.

Lemma raised_hole lt lt' h i v : wf h -> StrictWeak lt -> ordered lt h -> m_values h !! S i = Some v -> raised v lt lt' -> down_hole lt' h (S i).
Proof.
  intros W SW Ho Ev [[SW' Hs] Hl]. assert (forall k x, k <> S i -> 1 <= k -> m_values h !! k = Some x -> x <> v) as Hne.
  { intros [|k] x Hk H1 Ex ->; [lia|]. destruct Hk. f_equal. by eapply wf_inj. }
  split.
  - intros k Hk H2 a b Ha Hb. pose proof (Ho k H2 a b Ha Hb) as Hab. destruct (decide (k = S i)) as [->|Nk].
    + assert (b = v) as -> by congruence. by apply Hl.
    + unfold ord_le in *. rewrite Hs; [done|apply (Hne k); [done|lia|done]|apply (Hne (parent k)); [done|plia|done]].
  - intros H2 k Hk a b Ha Hb. pose proof (ordered_bypass lt h (S i) Ho H2 k Hk a b Ha Hb) as Hab.
    unfold ord_le in *. rewrite Hs; [done|apply (Hne k); [plia|plia|done]|apply (Hne (parent (S i))); [plia|plia|done]].
Qed.

Lemma set_member q h : represents q h -> pq_set q <> ∅ -> exists v, member h v.
Proof. intros R [v Hv]%set_choose_L. exists v. by apply R. Qed.

(** One operation. *)
Lemma exec_op_ok q h o : represents q h -> enabled q o -> exists out h' q',
  exec_op (pq_lt q) o h = Some (out, h') /\ pq_step q o out q' /\ represents q' h'.
Proof.
  intros R En. pose proof R as [SW W O B M]. destruct o as [v|v| | |v|v| |s|s|v lt'|v lt']; cbn [enabled exec_op] in *.
  - destruct En as [Hb Hv]. rewrite <- M in Hv. rewrite <- B in Hb. destruct (insert_ok (pq_lt q) h v W O Hv Hb) as (h' & -> & P).
    do 3 eexists. split; [done|]. split; [apply s_insert|]. eapply post_represents; [done|done|exact P|]. intros w. cbv beta. rewrite M. clear. set_solver.
  - rewrite <- M in En. destruct (erase_ok (pq_lt q) h v W O En) as (h' & -> & P).
    do 3 eexists. split; [done|]. split; [apply s_erase|]. eapply post_represents; [done|done|exact P|]. intros w. cbv beta. rewrite M. clear. set_solver.
  - destruct (set_member q h R En) as [v0 Hv0]. destruct (erase_min_ok (pq_lt q) h v0 W O Hv0) as (v & h' & -> & Hv & Hmin & P).
    do 3 eexists. split; [done|]. split; [apply s_erase_min; split; [by apply M|intros w Hw; by apply Hmin, M]|].
    eapply post_represents; [done|done|exact P|]. intros w. cbv beta. rewrite M. clear. set_solver.
  - destruct (set_member q h R En) as [v0 [i Hi]]. destruct (lookup_lt_is_Some_2 (m_values h) 1) as [v Ev]; [apply lookup_lt_Some in Hi; lia|].
    unfold min_value, rd. rewrite Ev. do 3 eexists. split; [done|]. split; [|done]. apply s_min_value. split; [apply M; by exists 0|].
    intros w Hw. apply (top_least (pq_lt q) h v O Ev). by apply M.
  - destruct (contains_ok h v W En) as (b & -> & Hb). rewrite M in Hb. do 3 eexists. split; [done|]. split; [|done].
    replace (if b then [v] else []) with (if bool_decide (v ∈ pq_set q) then [v] else []); [apply s_contains|].
    destruct b; [by rewrite bool_decide_eq_true_2 by by apply Hb|]. rewrite bool_decide_eq_false_2; [done|]. by intros ?%Hb.
  - destruct (find_le_ok (pq_lt q) h v [] W O) as (r & -> & Hnd & Hr). do 3 eexists. split; [done|]. split; [|done].
    apply s_find_le; [done|]. intros w. by rewrite Hr, M.
  - do 3 eexists. split; [done|]. split; [apply s_reset|]. eapply post_represents; [done|done|by apply reset_ok|]. set_solver.
  - do 3 eexists. split; [done|]. split; [apply s_set_bounds|]. by apply rep_bounds.
  - do 3 eexists. split; [done|]. split; [apply s_reserve|]. unfold reserve.
    destruct (Nat.ltb_spec (length (m_value2indices h)) s) as [Hs|Hs]; unfold get_bounds in B.
    + rewrite Nat.max_l by lia. apply rep_bounds; [done|]. intros v Hv%M. apply (member_bound h v W) in Hv. unfold get_bounds in Hv. lia.
    + rewrite Nat.max_r by lia. by destruct q.
  - destruct En as [Hv Hl]. rewrite <- M in Hv. destruct Hv as [i Ev]. pose proof Hl as [[SW' _] _].
    destruct (decreased_ok lt' h v i W Ev) as (h' & -> & P); [by apply (lowered_hole (pq_lt q) lt' h i v)|].
    do 3 eexists. split; [done|]. split; [apply s_decreased|]. by eapply post_represents.
  - destruct En as [Hv Hl]. rewrite <- M in Hv. destruct Hv as [i Ev]. pose proof Hl as [[SW' _] _].
    destruct (increased_ok lt' h v i W Ev) as (h' & -> & P); [by apply (raised_hole (pq_lt q) lt' h i v)|].
    do 3 eexists. split; [done|]. split; [apply s_increased|]. by eapply post_represents.
Qed.

(** ** Runs *)

(** The order after an operation. *)
Definition next_lt (lt : Z -> Z -> bool) (o : op) : Z -> Z -> bool :=
  match o with op_decreased _ lt' | op_increased _ lt' => lt' | _ => lt end.

Fixpoint exec_ops (lt : Z -> Z -> bool) (os : list op) (h : heap) : option (list (list Z) * heap) :=
  match os with
  | [] => Some ([], h)
  | o :: os => '(out, h) ← exec_op lt o h; '(outs, h) ← exec_ops (next_lt lt o) os h; Some (out :: outs, h)
  end.

Inductive pq_steps : pq -> list op -> list (list Z) -> pq -> Prop :=
  | steps_nil q : pq_steps q [] [] q
  | steps_cons q o out q1 os outs q2 : pq_step q o out q1 -> pq_steps q1 os outs q2 -> pq_steps q (o :: os) (out :: outs) q2.

(** Every run of the queue can go on. *)
Fixpoint safe (q : pq) (os : list op) : Prop :=
  match os with
  | [] => True
  | o :: os => enabled q o /\ forall out q', pq_step q o out q' -> safe q' os
  end.

Lemma step_lt q o out q' : pq_step q o out q' -> pq_lt q' = next_lt (pq_lt q) o.
Proof. by destruct 1. Qed.

Definition new_pq (lt : Z -> Z -> bool) (n : nat) : pq := PQ lt n ∅.

Lemma new_represents lt n : StrictWeak lt -> represents (new_pq lt n) (mk_heap n).
Proof.
  intros SW. destruct (mk_heap_ok n) as (W & B & V). split; [done|done| |done|].
  - apply ordered_short. by rewrite V.
  - intros v. split; [intros [i Hi]; by rewrite V in Hi|]. cbn. set_solver.
Qed.

(** C24: the heap refines a priority queue. From a new heap, any run of operations whose preconditions
    the queue guarantees returns: no access is outside a vector and every loop ends; its answers are
    answers of the queue, a least value from [erase_min] and [min_value], exactly the values not above
    the bound from [find_le]; and the final heap holds the queue's set, in heap order. *)
Theorem heap_refines lt n os : StrictWeak lt -> safe (new_pq lt n) os ->
  exists outs h' q', exec_ops lt os (mk_heap n) = Some (outs, h') /\ pq_steps (new_pq lt n) os outs q' /\ represents q' h'.
Proof.
  intros SW. pose proof (new_represents lt n SW) as R. revert R. change lt with (pq_lt (new_pq lt n)) at 3.
  generalize (new_pq lt n) as q, (mk_heap n) as h. induction os as [|o os IH]; intros q h R Hs.
  - exists [], h, q. split_and!; [done|constructor|done].
  - destruct Hs as [En Hs]. destruct (exec_op_ok q h o R En) as (out & h1 & q1 & E & St & R1).
    destruct (IH q1 h1 R1 (Hs out q1 St)) as (outs & h' & q' & Es & Sts & R'). rewrite (step_lt q o out q1 St) in Es.
    exists (out :: outs), h', q'. cbn [exec_ops]. rewrite E. cbn [mbind option_bind]. rewrite Es. split_and!; [done|by econstructor|done].
Qed.

Instance Zlt_weak : StrictWeak Z.ltb.
Proof. split; intros; lia. Qed.

Lemma heap_refines_witness : safe (new_pq Z.ltb 4) [op_insert 3%Z; op_insert 1%Z; op_find_le 2%Z; op_erase_min; op_contains 1%Z] /\
  exists outs h' q', exec_ops Z.ltb [op_insert 3%Z; op_insert 1%Z; op_find_le 2%Z; op_erase_min; op_contains 1%Z] (mk_heap 4) = Some (outs, h') /\
    pq_steps (new_pq Z.ltb 4) [op_insert 3%Z; op_insert 1%Z; op_find_le 2%Z; op_erase_min; op_contains 1%Z] outs q' /\ represents q' h'.
Proof.
  assert (safe (new_pq Z.ltb 4) [op_insert 3%Z; op_insert 1%Z; op_find_le 2%Z; op_erase_min; op_contains 1%Z]) as H.
  { cbn [safe]. split; [cbn; split; [lia|set_solver]|]. intros ? ? S1. inversion_clear S1.
    split; [cbn; split; [lia|set_solver]|]. intros ? ? S2. inversion_clear S2. split; [done|]. intros ? ? S3.
    inversion_clear S3. split; [cbn; set_solver|]. intros ? ? S4. by split; [cbn; lia|]. }
  split; [exact H|]. apply (heap_refines Z.ltb 4); [exact Zlt_weak|exact H].
Defined.

(** ** Sorting *)

Fixpoint insert_all (lt : Z -> Z -> bool) (l : list Z) (h : heap) : option heap :=
  match l with [] => Some h | v :: l => h ← insert lt v h; insert_all lt l h end.

(** [while (!empty()) result.push_back(erase_min())] *)
Fixpoint drain (fuel : nat) (lt : Z -> Z -> bool) (h : heap) : option (list Z) :=
  if empty h then Some []
  else match fuel with O => None | S fuel' => '(v, h) ← erase_min lt h; l ← drain fuel' lt h; Some (v :: l) end.

Lemma insert_all_ok lt `{StrictWeak lt} n l : forall h, wf h -> ordered lt h -> get_bounds h = n -> NoDup l ->
  (forall v, v ∈ l -> (0 <= v < Z.of_nat n)%Z /\ ~ member h v) ->
  exists h', insert_all lt l h = Some h' /\ wf h' /\ ordered lt h' /\ forall v, member h' v <-> member h v \/ v ∈ l.
Proof.
  induction l as [|v l IH]; intros h W O B Hnd Hl; cbn [insert_all].
  { exists h. split_and!; try done. intros v. rewrite elem_of_nil. tauto. }
  apply list.NoDup_cons in Hnd as [Hv Hnd]. destruct (Hl v ltac:(by left)) as [Hb Hm].
  destruct (insert_ok lt h v W O Hm) as (h1 & E & [W1 O1 B1 M1]); [by rewrite B|]. rewrite E. cbn [mbind option_bind].
  destruct (IH h1 W1 O1) as (h' & E' & W' & O' & M'); [by rewrite B1|done| |].
  { intros w Hw. destruct (Hl w ltac:(by right)) as [Hbw Hmw]. split; [done|]. rewrite M1. intros [?| ->]; done. }
  exists h'. split_and!; try done. intros w. rewrite M', M1, elem_of_cons. tauto.
Qed.

Lemma empty_ok h : wf h -> if empty h then forall v, ~ member h v else exists v, member h v.
Proof.
  intros W. unfold empty. destruct (Nat.eqb_spec (length (m_values h)) 1) as [E|E].
  - intros v [i Hi%lookup_lt_Some]. lia.
  - pose proof (length_pos h W). destruct (lookup_lt_is_Some_2 (m_values h) 1) as [v Ev]; [lia|]. by exists v, 0.
Qed.

Lemma drain_ok lt `{StrictWeak lt} fuel : forall h l, wf h -> ordered lt h -> NoDup l -> length l <= fuel ->
  (forall v, member h v <-> v ∈ l) -> exists l', drain fuel lt h = Some l' /\ Permutation l l' /\ StronglySorted (ord_le lt) l'.
Proof.
  induction fuel as [|fuel IH]; intros h l W O Hnd Hf Hm; cbn [drain]; pose proof (empty_ok h W) as He; destruct (empty h).
  - exists []. split_and!; [done| |constructor]. destruct l; [done|cbn in Hf; lia].
  - destruct He as [v Hv%Hm]. destruct l; [by apply elem_of_nil in Hv|cbn in Hf; lia].
  - exists []. split_and!; [done| |constructor]. destruct l as [|v l]; [done|]. destruct (He v). apply Hm. by left.
  - destruct He as [v0 Hv0]. destruct (erase_min_ok lt h v0 W O Hv0) as (v & h' & -> & Hv & Hmin & [W' O' _ M']). cbn [mbind option_bind].
    apply Hm in Hv as Hin. apply elem_of_Permutation in Hin as [l1 Hp]. rewrite Hp in Hnd. apply list.NoDup_cons in Hnd as [Hv1 Hnd].
    assert (length l = S (length l1)) as Hl by (by rewrite Hp).
    assert (forall w, member h' w <-> w ∈ l1) as Hm'.
    { intros w. rewrite M', Hm, Hp, elem_of_cons. split; [intros [[->|] ?]; done|]. intros Hw. split; [by right|]. by intros ->. }
    destruct (IH h' l1 W' O' Hnd ltac:(lia) Hm') as (l' & -> & Hpl & Hs). exists (v :: l'). split; [done|].
    split; [by rewrite Hp, Hpl|]. constructor; [done|]. apply list.Forall_forall. intros w Hw. apply Hmin, Hm. rewrite Hp. right. by rewrite Hpl.
Qed.

(** Distinct values in the bounds, inserted in any order and taken out with [erase_min] until the
    heap is empty, come out sorted, for every strict weak order. *)
Lemma heap_sorts lt n l : StrictWeak lt -> NoDup l -> (forall v, v ∈ l -> (0 <= v < Z.of_nat n)%Z) ->
  exists h l', insert_all lt l (mk_heap n) = Some h /\ drain (length l) lt h = Some l' /\ Permutation l l' /\ StronglySorted (ord_le lt) l'.
Proof.
  intros SW Hnd Hl. destruct (new_represents lt n SW) as [_ W O B M].
  destruct (insert_all_ok lt n l (mk_heap n) W O B Hnd) as (h & E & W' & O' & M').
  { intros v Hv. split; [by apply Hl|]. rewrite M. cbn. set_solver. }
  destruct (drain_ok lt (length l) h l W' O' Hnd) as (l' & Ed & Hp & Hs); [done| |by exists h, l'].
  intros v. rewrite M', M. cbn. clear. set_solver.
Qed.

Lemma heap_sorts_witness : exists h l', insert_all Z.ltb [4; 1; 3; 0]%Z (mk_heap 5) = Some h /\
  drain 4 Z.ltb h = Some l' /\ Permutation [4; 1; 3; 0]%Z l' /\ StronglySorted (ord_le Z.ltb) l'.
Proof.
  apply (heap_sorts Z.ltb 5 [4; 1; 3; 0]%Z); [exact Zlt_weak| |].
  - apply (bool_decide_unpack _). vm_compute. exact I.
  - intros v Hv. apply list_elem_of_In in Hv. cbn in Hv. lia.
Defined.
