(* ===== verification/UnionFind.v ===== *)
(** * UnionFind: equivalence classes with backtracking ([util/union_find.h], [util/trail.h])

    One definition per member of [union_find], [basic_union_find] and [trail_stack].  The variables
    are positions in three vectors; an access outside them is [None].  The context [Ctx] is code of the
    client: its callbacks are recorded in the state, the last first.  The trail has its top at the
    head; it holds the two trail objects of this class.  Sizes are natural numbers: a sum is at most the
    number of variables, so it does not wrap. *)
From S2P Require Import Prelude.
From Stdlib Require Import ZArith Lia.
From stdpp Require Import base tactics option list numbers.
Open Scope nat_scope.

(** The vectors of [union_find] and of [basic_union_find]. *)
Record uf := Uf { m_find : list nat; m_size : list nat; m_next : list nat }.

Definition uf_empty : uf := Uf [] [] [].
Definition num_vars (u : uf) : nat := length (m_find u).

(** The new variable is the number of variables. *)
Definition add_var (u : uf) : uf :=
  let r := num_vars u in Uf (m_find u ++ [r]) (m_size u ++ [1]) (m_next u ++ [r]).

Fixpoint find_loop (fuel : nat) (f : list nat) (v : nat) : option nat :=
  match fuel with
  | O => None
  | S fuel' => new_v ← rd f v; if new_v =? v then Some v else find_loop fuel' f new_v
  end.
(** No path is longer than the number of variables. *)
Definition find_root (u : uf) (v : nat) : option nat := find_loop (S (num_vars u)) (m_find u) v.

Definition swap_next (i j : nat) (l : list nat) : option (list nat) :=
  a ← rd l i; b ← rd l j; l ← wr l i b; wr l j a.

(** [m_find[r1] = r2; m_size[r2] += m_size[r1]; std::swap(m_next[r1], m_next[r2])] *)
Definition link (r1 r2 : nat) (u : uf) : option uf :=
  find ← wr (m_find u) r1 r2;
  s1 ← rd (m_size u) r1; s2 ← rd (m_size u) r2;
  size ← wr (m_size u) r2 (s2 + s1);
  next ← swap_next r1 r2 (m_next u);
  Some (Uf find size next).

(** The two roots in order of size, with their variables. *)
Definition by_size (u : uf) (r1 r2 v1 v2 : nat) : option (nat * nat * nat * nat) :=
  s1 ← rd (m_size u) r1; s2 ← rd (m_size u) r2;
  Some (if s2 <? s1 then (r2, r1, v2, v1) else (r1, r2, v1, v2)).

Inductive trail_obj := mk_var_trail | merge_trail (r1 : nat).
Inductive event :=
  | unmerge_eh (r2 r1 : nat)
  | merge_eh (r2 r1 v2 v1 : nat)
  | after_merge_eh (r2 r1 v2 v1 : nat).

Record state := State {
  vars : uf;
  m_trail_stack : list trail_obj;
  m_scopes : list nat;
  events : list event }.

Definition set_vars (u : uf) (s : state) : state := State u (m_trail_stack s) (m_scopes s) (events s).
Definition push_trail (t : trail_obj) (s : state) : state := State (vars s) (t :: m_trail_stack s) (m_scopes s) (events s).
Definition emit (e : event) (s : state) : state := State (vars s) (m_trail_stack s) (m_scopes s) (e :: events s).

Module union_find.

Definition init : state := State uf_empty [] [] [].

Definition mk_var (s : state) : nat * state :=
  (num_vars (vars s), push_trail mk_var_trail (set_vars (add_var (vars s)) s)).
Definition get_num_vars (s : state) : nat := num_vars (vars s).
Definition find (s : state) (v : nat) : option nat := find_root (vars s) v.
Definition next (s : state) (v : nat) : option nat := rd (m_next (vars s)) v.
Definition size (s : state) (v : nat) : option nat := r ← find s v; rd (m_size (vars s)) r.
Definition is_root (s : state) (v : nat) : option bool := r ← rd (m_find (vars s)) v; Some (r =? v).

Definition merge (v1 v2 : nat) (s : state) : option state :=
  r1 ← find s v1;
  r2 ← find s v2;
  if r1 =? r2 then Some s
  else
    '(r1, r2, v1, v2) ← by_size (vars s) r1 r2 v1 v2;
    let s := emit (merge_eh r2 r1 v2 v1) s in
    u ← link r1 r2 (vars s);
    Some (emit (after_merge_eh r2 r1 v2 v1) (push_trail (merge_trail r1) (set_vars u s))).

Definition unmerge (r1 : nat) (s : state) : option state :=
  let u := vars s in
  r2 ← rd (m_find u) r1;
  s1 ← rd (m_size u) r1; s2 ← rd (m_size u) r2;
  size ← wr (m_size u) r2 (s2 - s1);
  find ← wr (m_find u) r1 r1;
  next ← swap_next r1 r2 (m_next u);
  Some (emit (unmerge_eh r2 r1) (set_vars (Uf find size next) s)).

Definition set_root (v root : nat) (s : state) : option state := u ← link v root (vars s); Some (set_vars u s).

(** [v] stays the same in the loop. *)
Fixpoint dissolve_loop (fuel : nat) (v : nat) (u : uf) : option uf :=
  match fuel with
  | O => None
  | S fuel' =>
      w ← rd (m_next u) v;
      size ← wr (m_size u) v 1; find ← wr (m_find u) v v; next ← wr (m_next u) v v;
      let u := Uf find size next in
      if w =? v then Some u else dissolve_loop fuel' v u
  end.
Definition dissolve (v : nat) (s : state) : option state :=
  u ← dissolve_loop (S (num_vars (vars s))) v (vars s); Some (set_vars u s).

(** *** The trail *)

Definition undo (t : trail_obj) (s : state) : option state :=
  match t with
  | mk_var_trail =>
      let pop (l : list nat) := take (length l - 1) l in
      let u := vars s in Some (set_vars (Uf (pop (m_find u)) (pop (m_size u)) (pop (m_next u))) s)
  | merge_trail r1 => unmerge r1 s
  end.

Fixpoint undo_loop (n : nat) (s : state) : option state :=
  match n with
  | O => Some s
  | S n' =>
      match m_trail_stack s with
      | [] => None
      | t :: ts => s ← undo t (State (vars s) ts (m_scopes s) (events s)); undo_loop n' s
      end
  end.
Definition undo_trail_stack (old_size : nat) (s : state) : option state :=
  undo_loop (length (m_trail_stack s) - old_size) s.

Definition push_scope (s : state) : state :=
  State (vars s) (m_trail_stack s) (length (m_trail_stack s) :: m_scopes s) (events s).

Definition pop_scope (num_scopes : nat) (s : state) : option state :=
  if num_scopes =? 0 then Some s
  else
    old_size ← rd (m_scopes s) (num_scopes - 1);
    s ← undo_trail_stack old_size s;
    Some (State (vars s) (m_trail_stack s) (drop num_scopes (m_scopes s)) (events s)).

Definition get_num_scopes (s : state) : nat := length (m_scopes s).
Definition reset (s : state) : option state := s ← pop_scope (get_num_scopes s) s; undo_trail_stack 0 s.

(** *** The debug check *)

(** The walk along [m_next] from [curr] back to [v]: the variables passed. *)
Fixpoint ring_loop (fuel : nat) (u : uf) (v curr : nat) : option (list nat) :=
  match fuel with
  | O => None
  | S fuel' => w ← rd (m_next u) curr; if w =? v then Some [curr] else l ← ring_loop fuel' u v w; Some (curr :: l)
  end.
Definition ring (u : uf) (v : nat) : option (list nat) := ring_loop (num_vars u) u v v.

Definition check_invariant (s : state) : bool :=
  forallb (fun v =>
    match rd (m_find (vars s)) v with
    | Some r =>
        if r =? v then
          match ring (vars s) v, rd (m_size (vars s)) v with
          | Some l, Some sz => forallb (fun c => match find s c with Some r => r =? v | None => false end) l && (sz =? length l)
          | _, _ => false
          end
        else true
    | None => false
    end) (seq 0 (get_num_vars s)).

End union_find.

Module basic_union_find.

Definition mk_var (u : uf) : nat * uf := (num_vars u, add_var u).
Definition get_num_vars (u : uf) : nat := num_vars u.
Definition ensure_size (v : nat) (u : uf) : uf := Nat.iter (S v - num_vars u) add_var u.

Definition find (u : uf) (v : nat) : option nat := if num_vars u <=? v then Some v else find_root u v.
Definition next (u : uf) (v : nat) : option nat := if num_vars u <=? v then Some v else rd (m_next u) v.
Definition is_root (u : uf) (v : nat) : option bool :=
  if num_vars u <=? v then Some true else r ← rd (m_find u) v; Some (r =? v).

Definition merge (v1 v2 : nat) (u : uf) : option uf :=
  r1 ← find u v1;
  r2 ← find u v2;
  if r1 =? r2 then Some u
  else
    let u := ensure_size v2 (ensure_size v1 u) in
    '(r1, r2, _, _) ← by_size u r1 r2 v1 v2;
    link r1 r2 u.

Definition reset (u : uf) : uf := uf_empty.

End basic_union_find.
