(* ===== verification/UnionFindProofs.v ===== *)
(** * UnionFindProofs: forests of bounded depth, rings, and the history behind the trail *)
From S2P Require Import Prelude.
From S2P Require Import UnionFind.
From Stdlib Require Import ZArith Lia.
From stdpp Require Import base tactics option list numbers.
Import union_find.
Open Scope nat_scope.

(** ** Paths to the root *)

(** The root of [v] is [r], after [d] steps. *)
Inductive path (f : list nat) : nat -> nat -> nat -> Prop :=
  | path_root v : f !! v = Some v -> path f v v 0
  | path_step v w r d : f !! v = Some w -> v <> w -> path f w r d -> path f v r (S d).

Definition has_root (f : list nat) (v r : nat) : Prop := exists d, path f v r d.

Lemma path_end f v r d : path f v r d -> f !! r = Some r.
Proof. by induction 1. Qed.

Lemma path_fun f v r d r' d' : path f v r d -> path f v r' d' -> r = r' /\ d = d'.
Proof.
  intros H. revert r' d'. induction H as [v E|v w r d E Hne H IH]; intros r' d' H'; inversion H'; subst; try congruence.
  - done.
  - assert (w0 = w) as -> by congruence. match goal with H : path f w r' _ |- _ => destruct (IH _ _ H) end. subst. done.
Qed.

Lemma has_root_fun f v r r' : has_root f v r -> has_root f v r' -> r = r'.
Proof. intros [d H] [d' H']. by destruct (path_fun f v r d r' d' H H'). Qed.

Lemma has_root_refl f r : f !! r = Some r -> has_root f r r.
Proof. exists 0. by constructor. Qed.

Lemma path_bound f v r d : path f v r d -> v < length f /\ r < length f.
Proof. intros H. split; [inversion H; by eapply lookup_lt_Some|eapply lookup_lt_Some, path_end, H]. Qed.

Lemma find_loop_path f v r d fuel : path f v r d -> d < fuel -> find_loop fuel f v = Some r.
Proof.
  intros H. revert fuel. induction H as [v E|v w r d E Hne H IH]; intros [|fuel] Hf; try lia; cbn [find_loop]; unfold rd; rewrite E; cbn [mbind option_bind].
  - by rewrite Nat.eqb_refl.
  - destruct (Nat.eqb_spec w v); [congruence|]. apply IH. lia.
Qed.

(** Vectors that agree below and keep the roots. *)
Lemma path_app f v r d x : path f v r d -> path (f ++ x) v r d.
Proof.
  induction 1 as [v E|v w r d E Hne H IH]; [apply path_root|eapply path_step; [|done|done]]; by apply lookup_app_l_Some.
Qed.

(** A root [r1] pointed at another root [r2]. *)
Lemma path_link f r1 r2 v r d : f !! r1 = Some r1 -> f !! r2 = Some r2 -> r1 <> r2 -> path f v r d ->
  path (<[r1:=r2]> f) v (if decide (r = r1) then r2 else r) (if decide (r = r1) then S d else d).
Proof.
  intros E1 E2 Hne H. assert (r1 < length f) by by eapply lookup_lt_Some. induction H as [v E|v w r d E Hvw H IH].
  - case_decide as D.
    + subst. eapply path_step; [by apply list_lookup_insert_eq|done|]. apply path_root. by rewrite list_lookup_insert_ne.
    + apply path_root. by rewrite list_lookup_insert_ne by congruence.
  - assert (v <> r1) by congruence. repeat case_decide; (eapply path_step; [by rewrite list_lookup_insert_ne by congruence|done|done]).
Qed.

(** ** Rings *)

(** From [v], [nx] visits [l] and then [z]. *)
Fixpoint walk (nx : list nat) (v : nat) (l : list nat) (z : nat) : Prop :=
  match l with
  | [] => nx !! v = Some z
  | x :: l => nx !! v = Some x /\ walk nx x l z
  end.

Lemma walk_app nx l1 w l2 : forall v z, walk nx v (l1 ++ w :: l2) z <-> walk nx v l1 w /\ walk nx w l2 z.
Proof.
  induction l1 as [|x l1 IH]; intros v z; cbn; [done|]. rewrite IH. tauto.
Qed.

(** Another vector that agrees on the way, from a position with the same first step. *)
Lemma walk_ext nx nx' l : forall a b z, nx' !! a = nx !! b -> (forall x, x ∈ l -> nx' !! x = nx !! x) ->
  walk nx b l z -> walk nx' a l z.
Proof.
  induction l as [|x l IH]; intros a b z Ha Hl; cbn; [by rewrite Ha|]. intros [E Hw]. split; [by rewrite Ha|].
  apply (IH x x); [apply Hl; by left|intros y Hy; apply Hl; by right|done].
Qed.

(** [v] and the others of its class, in the order of the ring. *)
Definition is_ring (nx : list nat) (v : nat) (l : list nat) : Prop := walk nx v l v /\ NoDup (v :: l).

Lemma ring_rotate nx v l1 w l2 : is_ring nx v (l1 ++ w :: l2) -> is_ring nx w (l2 ++ v :: l1).
Proof.
  intros [Hw Hn]. split.
  - apply walk_app. apply walk_app in Hw. tauto.
  - assert (w :: l2 ++ v :: l1 ≡ₚ v :: l1 ++ w :: l2) as ->; [|done]. clear. solve_Permutation.
Qed.

(** Two rings joined at [r1] and [r2]. *)
Lemma ring_join nx nx' r1 l1 r2 l2 : is_ring nx r1 l1 -> is_ring nx r2 l2 ->
  (forall x, x ∈ r1 :: l1 -> x ∉ r2 :: l2) -> nx' !! r1 = nx !! r2 -> nx' !! r2 = nx !! r1 ->
  (forall x, x <> r1 -> x <> r2 -> nx' !! x = nx !! x) -> is_ring nx' r2 (l1 ++ r1 :: l2).
Proof.
  intros [W1 N1] [W2 N2] Hd E1 E2 Ho. apply list.NoDup_cons in N1 as [A1 N1], N2 as [A2 N2]. split.
  - apply walk_app. split.
    + apply (walk_ext nx nx' l1 r2 r1); [done| |done]. intros x Hx. apply Ho; [by intros ->|].
      intros ->. apply (Hd r2); [by right|by left].
    + apply (walk_ext nx nx' l2 r1 r2); [done| |done]. intros x Hx. apply Ho; [|by intros ->].
      intros ->. apply (Hd r1); [by left|by right].
  - assert (NoDup ((r2 :: l2) ++ (r1 :: l1))) as Hn.
    { apply list.NoDup_app. split_and!; [by apply list.NoDup_cons| |by apply list.NoDup_cons]. intros x H2 H1. by apply (Hd x). }
    assert (r2 :: l1 ++ r1 :: l2 ≡ₚ (r2 :: l2) ++ (r1 :: l1)) as ->; [|done]. clear. solve_Permutation.
Qed.

Lemma ring_loop_ok u v l : forall curr fuel, walk (m_next u) curr l v -> v ∉ l -> length l < fuel ->
  ring_loop fuel u v curr = Some (curr :: l).
Proof.
  induction l as [|x l IH]; intros curr [|fuel] Hw Hv Hf; cbn in Hf; try lia; cbn [ring_loop walk] in *; unfold rd.
  - rewrite Hw. cbn. by rewrite Nat.eqb_refl.
  - destruct Hw as [-> Hw]. cbn [mbind option_bind]. apply not_elem_of_cons in Hv as [Hx Hv].
    destruct (Nat.eqb_spec x v); [congruence|]. by rewrite (IH x fuel) by (done || lia).
Qed.

(** ** The invariant *)

Record uf_ok (u : uf) : Prop := {
  ok_size : length (m_size u) = num_vars u;
  ok_next : length (m_next u) = num_vars u;
  ok_root : forall v, v < num_vars u -> exists r, has_root (m_find u) v r;
  ok_depth : forall v r d s, path (m_find u) v r d -> m_size u !! r = Some s -> 2 ^ d <= s;
  ok_ring : forall r, m_find u !! r = Some r -> exists l, is_ring (m_next u) r l /\
    (forall w, w ∈ r :: l <-> has_root (m_find u) w r) /\ m_size u !! r = Some (S (length l)) }.

Definition same (u : uf) (v w : nat) : Prop := exists r, has_root (m_find u) v r /\ has_root (m_find u) w r.

Lemma ring_length u r l : uf_ok u -> is_ring (m_next u) r l -> (forall w, w ∈ r :: l <-> has_root (m_find u) w r) ->
  S (length l) <= num_vars u.
Proof.
  intros U [_ Hn] Hl. change (length (r :: l) <= num_vars u). rewrite <- (length_seq (num_vars u) 0).
  apply submseteq_length, NoDup_submseteq; [done|]. intros w [d Hw%path_bound]%Hl. apply elem_of_seq. unfold num_vars. lia.
Qed.

(** Paths are short: at most the binary logarithm of the number of variables. *)
Lemma path_short u v r d : uf_ok u -> path (m_find u) v r d -> 2 ^ d <= num_vars u.
Proof.
  intros U H. destruct (ok_ring u U r) as (l & Hr & Hl & Hs); [by eapply path_end|].
  pose proof (ok_depth u U v r d _ H Hs). pose proof (ring_length u r l U Hr Hl). lia.
Qed.

Lemma find_log u v : uf_ok u -> v < num_vars u -> exists r, has_root (m_find u) v r /\
  forall fuel, Nat.log2 (num_vars u) < fuel -> find_loop fuel (m_find u) v = Some r.
Proof.
  intros U Hv. destruct (ok_root u U v Hv) as [r [d H]]. exists r. split; [by exists d|]. intros fuel Hf.
  apply (find_loop_path _ v r d); [done|]. pose proof (path_short u v r d U H) as Hs. apply Nat.log2_le_mono in Hs.
  rewrite Nat.log2_pow2 in Hs by lia. lia.
Qed.

Lemma find_root_ok u v : uf_ok u -> v < num_vars u -> exists r, find_root u v = Some r /\ has_root (m_find u) v r.
Proof.
  intros U Hv. destruct (find_log u v U Hv) as (r & Hr & Hf). exists r. split; [|done]. apply Hf.
  pose proof (Nat.log2_lt_lin (num_vars u)). lia.
Qed.

Lemma same_sym u v w : same u v w -> same u w v.
Proof. intros (r & ? & ?). by exists r. Qed.

(** The ring of any variable lists its class. *)
Lemma class_ring u v r : uf_ok u -> has_root (m_find u) v r -> exists l, is_ring (m_next u) v l /\
  (forall w, w ∈ v :: l <-> same u v w) /\ m_size u !! r = Some (S (length l)) /\ length l < num_vars u.
Proof.
  intros U Hv. assert (m_find u !! r = Some r) as Er by (destruct Hv as [d Hd]; by eapply path_end).
  destruct (ok_ring u U r Er) as (l & Hr & Hl & Hs). pose proof (ring_length u r l U Hr Hl) as Hlen.
  assert (forall w, has_root (m_find u) w r <-> same u v w) as Hsame.
  { intros w. split; [intros Hw; by exists r|]. intros (r' & Hv' & Hw). by rewrite (has_root_fun _ v r r' Hv Hv'). }
  pose proof Hv as Hin. apply Hl in Hin. apply elem_of_cons in Hin as [->|Hin].
  - exists l. split_and!; [done| |done|lia]. intros w. by rewrite Hl.
  - apply list_elem_of_split in Hin as (l1 & l2 & ->). exists (l2 ++ r :: l1). split_and!.
    + by apply ring_rotate.
    + intros w. rewrite <- Hsame, <- Hl. rewrite !elem_of_cons, !elem_of_app, !elem_of_cons. tauto.
    + rewrite Hs. f_equal. rewrite !length_app. cbn. lia.
    + rewrite length_app in *. cbn in *. lia.
Qed.

(** ** A new variable *)

Lemma closed_find u v w : uf_ok u -> m_find u !! v = Some w -> w < num_vars u.
Proof.
  intros U E. destruct (ok_root u U v) as [r [d H]]; [by eapply lookup_lt_Some|].
  inversion H; subst; [assert (w = r) as -> by congruence; by eapply lookup_lt_Some|].
  match goal with H : path _ ?x r _, E' : m_find u !! v = Some ?x |- _ => assert (x = w) as -> by congruence; by apply path_bound in H as [? _] end.
Qed.

Lemma path_new u v r d : uf_ok u -> path (m_find (add_var u)) v r d ->
  path (m_find u) v r d \/ (v = num_vars u /\ r = num_vars u /\ d = 0).
Proof.
  intros U. cbn [add_var m_find]. induction 1 as [v E|v w r d E Hne H IH].
  - apply lookup_app_Some in E as [E|[_ [_ <-]%list_lookup_singleton_Some]]; [left; by apply path_root|by right].
  - apply lookup_app_Some in E as [E|[Hl [H0 <-]%list_lookup_singleton_Some]].
    + destruct IH as [IH|(-> & _)]; [left; by eapply path_step|]. apply closed_find in E; [lia|done].
    + unfold num_vars in *. lia.
Qed.

Lemma path_new_self u : path (m_find (add_var u)) (num_vars u) (num_vars u) 0.
Proof. apply path_root. cbn. by apply list_lookup_middle. Qed.

Lemma add_var_num u : num_vars (add_var u) = S (num_vars u).
Proof. unfold num_vars, add_var. cbn. rewrite length_app. cbn. lia. Qed.

Lemma add_var_ok u : uf_ok u -> uf_ok (add_var u).
Proof.
  intros U. pose proof (ok_size u U) as Ls. pose proof (ok_next u U) as Ln.
  assert (forall v r, has_root (m_find u) v r -> has_root (m_find (add_var u)) v r) as Hold by (intros v r [d H]; exists d; by apply path_app).
  split; rewrite ?add_var_num.
  - cbn. rewrite length_app, Ls. cbn. lia.
  - cbn. rewrite length_app, Ln. cbn. lia.
  - intros v Hv. destruct (decide (v = num_vars u)) as [->|]; [exists (num_vars u), 0; apply path_new_self|].
    destruct (ok_root u U v) as [r Hr]; [lia|]. exists r. by apply Hold.
  - intros v r d s H Es. cbn [add_var m_size] in Es. apply path_new in H as [H|(-> & -> & ->)]; [| |done].
    + apply (ok_depth u U v r d); [done|]. apply path_bound in H as [_ Hr]. rewrite lookup_app_l in Es by (unfold num_vars in *; lia). done.
    + rewrite <- Ls, list_lookup_middle in Es by done. by injection Es as <-.
  - intros r Er. destruct (path_new u r r 0 U) as [H|(-> & _)]; [by apply path_root| |].
    + pose proof (path_end _ _ _ _ H) as Er'. pose proof (path_bound _ _ _ _ H) as [Hb _]. change (r < num_vars u) in Hb.
      destruct (ok_ring u U r Er') as (l & [Hw Hn] & Hl & Hs). exists l. split_and!.
      * split; [|done]. eapply walk_ext; [| |exact Hw].
        -- cbn. apply lookup_app_l. lia.
        -- intros x Hx. cbn. apply lookup_app_l. assert (x ∈ r :: l) as [d Hd%path_bound]%Hl by (by right). unfold num_vars in *. lia.
      * intros w. rewrite Hl. split; [apply Hold|]. intros [d [Hd|(_ & -> & _)]%path_new]; [by exists d|lia|done].
      * cbn. rewrite lookup_app_l by lia. done.
    + exists []. split_and!.
      * split; [|apply NoDup_singleton]. cbn. rewrite <- Ln at 1. by apply list_lookup_middle.
      * intros w. rewrite list_elem_of_singleton. split; [intros ->; exists 0; apply path_new_self|].
        intros [d [Hd|(-> & _)]%path_new]; [|done|done]. apply path_bound in Hd as [_ Hd]. unfold num_vars in Hd. lia.
      * cbn. rewrite <- Ls. by apply list_lookup_middle.
Qed.

Lemma add_var_same u v w : uf_ok u -> v < S (num_vars u) -> w < S (num_vars u) ->
  same (add_var u) v w <-> v = w \/ (v < num_vars u /\ w < num_vars u /\ same u v w).
Proof.
  intros U Hv Hw. split.
  - intros (r & [d [Hd|(-> & -> & _)]%path_new] & [d' [Hd'|(-> & Er & _)]%path_new]); try done.
    + right. split_and!; [by apply path_bound in Hd as [? _]|by apply path_bound in Hd' as [? _]|]. exists r. split; by eexists.
    + subst. apply path_bound in Hd as [_ Hd]. unfold num_vars in Hd. lia.
    + apply path_bound in Hd' as [_ Hd']. unfold num_vars in Hd'. lia.
    + by left.
  - assert (forall v r, has_root (m_find u) v r -> has_root (m_find (add_var u)) v r) as Hold by (intros x r [d H]; exists d; by apply path_app).
    intros [->|(Hv' & Hw' & r & H1 & H2)]; [|exists r; split; by apply Hold].
    destruct (ok_root (add_var u) (add_var_ok u U) w) as [r Hr]; [by rewrite add_var_num|]. by exists r.
Qed.

Lemma uf_empty_ok : uf_ok uf_empty.
Proof. split; try done. intros v Hv. cbn in Hv. lia. Qed.

(** ** Two classes linked *)

Lemma swap_next_ok i j l : i < length l -> j < length l -> i <> j -> exists l', swap_next i j l = Some l' /\
  length l' = length l /\ l' !! i = l !! j /\ l' !! j = l !! i /\ (forall k, k <> i -> k <> j -> l' !! k = l !! k) /\
  swap_next i j l' = Some l.
Proof.
  intros Hi Hj Hne. destruct (lookup_lt_is_Some_2 l i Hi) as [a Ea]. destruct (lookup_lt_is_Some_2 l j Hj) as [b Eb].
  assert (forall l a b, l !! i = Some a -> l !! j = Some b -> i < length l -> j < length l ->
    swap_next i j l = Some (<[j:=a]> (<[i:=b]> l))) as Hsw.
  { intros m x y Ex Ey Hx Hy. unfold swap_next, rd. rewrite Ex, Ey. cbn [mbind option_bind].
    rewrite wr_ok by done. cbn [mbind option_bind]. by rewrite wr_ok by (by rewrite length_insert). }
  eexists. split; [by apply Hsw|]. rewrite !length_insert. split; [done|].
  assert (<[j:=a]> (<[i:=b]> l) !! i = Some b) as E1 by (rewrite list_lookup_insert_ne by done; by apply list_lookup_insert_eq).
  assert (<[j:=a]> (<[i:=b]> l) !! j = Some a) as E2 by (apply list_lookup_insert_eq; by rewrite length_insert).
  split_and!; [congruence|congruence|intros k H1 H2; by rewrite !list_lookup_insert_ne by congruence|].
  rewrite (Hsw _ b a) by (rewrite ?length_insert; done). f_equal. apply list_eq. intros k.
  destruct (decide (k = j)) as [->|Hkj]; [rewrite list_lookup_insert_eq; [done|by rewrite !length_insert]|].
  rewrite list_lookup_insert_ne by congruence. destruct (decide (k = i)) as [->|Hki]; [rewrite list_lookup_insert_eq; [done|by rewrite !length_insert]|].
  by rewrite !list_lookup_insert_ne by congruence.
Qed.

(** Taking a link back ([unmerge] without its callback). *)
Definition unlink (r1 : nat) (u : uf) : option uf :=
  r2 ← rd (m_find u) r1; s1 ← rd (m_size u) r1; s2 ← rd (m_size u) r2;
  size ← wr (m_size u) r2 (s2 - s1); find ← wr (m_find u) r1 r1; next ← swap_next r1 r2 (m_next u);
  Some (Uf find size next).

Lemma unmerge_unlink r1 s u : unlink r1 (vars s) = Some u -> exists r2, unmerge r1 s = Some (emit (unmerge_eh r2 r1) (set_vars u s)).
Proof.
  unfold unlink, unmerge. destruct (rd (m_find (vars s)) r1) as [r2|]; [|done]. cbn [mbind option_bind].
  destruct (rd (m_size (vars s)) r1); [|done]. cbn [mbind option_bind]. destruct (rd (m_size (vars s)) r2); [|done]. cbn [mbind option_bind].
  destruct (wr (m_size (vars s)) r2 _); [|done]. cbn [mbind option_bind]. destruct (wr (m_find (vars s)) r1 r1); [|done]. cbn [mbind option_bind].
  destruct (swap_next r1 r2 _); [|done]. cbn [mbind option_bind]. intros [= <-]. by exists r2.
Qed.

Section Link.
Context (u : uf) (r1 r2 s1 s2 : nat) (U : uf_ok u).
Context (E1 : m_find u !! r1 = Some r1) (E2 : m_find u !! r2 = Some r2) (Hne : r1 <> r2).
Context (S1 : m_size u !! r1 = Some s1) (S2 : m_size u !! r2 = Some s2).

Lemma link_run : exists nx, swap_next r1 r2 (m_next u) = Some nx /\
  link r1 r2 u = Some (Uf (<[r1:=r2]> (m_find u)) (<[r2:=s2 + s1]> (m_size u)) nx) /\
  length nx = num_vars u /\ nx !! r1 = m_next u !! r2 /\ nx !! r2 = m_next u !! r1 /\
  (forall k, k <> r1 -> k <> r2 -> nx !! k = m_next u !! k) /\
  unlink r1 (Uf (<[r1:=r2]> (m_find u)) (<[r2:=s2 + s1]> (m_size u)) nx) = Some u.
Proof.
  pose proof (lookup_lt_Some _ _ _ E1) as B1. pose proof (lookup_lt_Some _ _ _ E2) as B2.
  pose proof (lookup_lt_Some _ _ _ S1) as C1. pose proof (lookup_lt_Some _ _ _ S2) as C2. pose proof (ok_next u U) as Ln. unfold num_vars in *.
  destruct (swap_next_ok r1 r2 (m_next u)) as (nx & Es & L & N1 & N2 & N3 & Back); [lia|lia|done|]. exists nx.
  split; [done|]. split; [|split_and!; try done; [lia|]].
  - unfold link, rd. rewrite wr_ok by done. cbn [mbind option_bind]. rewrite S1, S2. cbn [mbind option_bind].
    rewrite wr_ok by done. cbn [mbind option_bind]. by rewrite Es.
  - unfold unlink, rd. cbn [m_find m_size m_next]. rewrite list_lookup_insert_eq by done. cbn [mbind option_bind].
    rewrite (list_lookup_insert_ne (m_size u) r2 r1) by congruence. rewrite S1. cbn [mbind option_bind]. rewrite list_lookup_insert_eq by done. cbn [mbind option_bind].
    rewrite wr_ok by (by rewrite length_insert). cbn [mbind option_bind]. rewrite wr_ok by (by rewrite length_insert). cbn [mbind option_bind].
    rewrite Back. cbn [mbind option_bind]. rewrite !list_insert_insert_eq. replace (s2 + s1 - s1) with s2 by lia.
    rewrite !list_insert_id by done. by destruct u.
Qed.

Context (nx : list nat) (N0 : length nx = num_vars u) (N1 : nx !! r1 = m_next u !! r2) (N2 : nx !! r2 = m_next u !! r1).
Context (N3 : forall k, k <> r1 -> k <> r2 -> nx !! k = m_next u !! k).
Definition linked : uf := Uf (<[r1:=r2]> (m_find u)) (<[r2:=s2 + s1]> (m_size u)) nx.
Definition new_root (r : nat) : nat := if decide (r = r1) then r2 else r.

Lemma linked_num : num_vars linked = num_vars u.
Proof. unfold num_vars, linked. cbn. apply length_insert. Qed.

Lemma linked_path v r' d' : path (m_find linked) v r' d' -> exists r d, path (m_find u) v r d /\
  r' = new_root r /\ d' = if decide (r = r1) then S d else d.
Proof.
  intros H. destruct (ok_root u U v) as [r [d Hd]].
  { apply path_bound in H as [Hv _]. change (v < num_vars linked) in Hv. by rewrite linked_num in Hv. }
  exists r, d. split; [done|]. pose proof (path_link _ r1 r2 v r d E1 E2 Hne Hd) as H'. by apply (path_fun _ v r' d' _ _ H).
Qed.

Lemma linked_root v r : has_root (m_find u) v r -> has_root (m_find linked) v (new_root r).
Proof. intros [d Hd]. eexists. by apply (path_link _ r1 r2 v r d). Qed.

Lemma linked_root_inv v r' : has_root (m_find linked) v r' -> exists r, has_root (m_find u) v r /\ r' = new_root r.
Proof. intros [d' H]. destruct (linked_path v r' d' H) as (r & d & Hd & -> & _). exists r. split; [by exists d|done]. Qed.

Lemma linked_ring r : m_find linked !! r = Some r -> exists l, is_ring nx r l /\
  (forall w, w ∈ r :: l <-> has_root (m_find linked) w r) /\ m_size linked !! r = Some (S (length l)).
Proof.
  intros Er. assert (r1 < length (m_find u)) as B1 by by eapply lookup_lt_Some.
  assert (r <> r1) as Hr1 by (intros ->; cbn in Er; rewrite list_lookup_insert_eq in Er by done; congruence).
  assert (m_find u !! r = Some r) as Er' by (cbn in Er; by rewrite list_lookup_insert_ne in Er by congruence).
  destruct (ok_ring u U r Er') as (l & Hr & Hl & Hs). destruct (decide (r = r2)) as [->|Hr2].
  - destruct (ok_ring u U r1 E1) as (l1 & Hring1 & Hl1 & Hs1). exists (l1 ++ r1 :: l). split_and!.
    + apply (ring_join (m_next u) nx r1 l1 r2 l); try done. intros x Hx%Hl1 Hy%Hl. destruct Hne. by eapply has_root_fun.
    + intros w. assert (w ∈ r2 :: l1 ++ r1 :: l <-> w ∈ r1 :: l1 \/ w ∈ r2 :: l) as -> by (rewrite !elem_of_cons, elem_of_app, elem_of_cons; tauto).
      rewrite Hl1, Hl. split.
      * intros [Hw|Hw]; apply linked_root in Hw; unfold new_root in Hw; [by rewrite decide_True in Hw|by rewrite decide_False in Hw].
      * intros (r & Hw & E)%linked_root_inv. unfold new_root in E. case_decide; subst; auto.
    + cbn. rewrite list_lookup_insert_eq by (by eapply lookup_lt_Some). f_equal. rewrite length_app. cbn.
      assert (s1 = S (length l1)) as -> by congruence. assert (s2 = S (length l)) as -> by congruence. lia.
  - assert (forall x, x ∈ r :: l -> x <> r1 /\ x <> r2) as Hx.
    { intros x Hx%Hl. split; intros ->; [destruct Hr1|destruct Hr2]; (eapply has_root_fun; [exact Hx|by apply has_root_refl]). }
    exists l. split_and!.
    + destruct Hr as [Hw Hn]. split; [|done]. eapply walk_ext; [| |exact Hw].
      * apply N3; [by apply Hx; left|by apply Hx; left].
      * intros x Hin. apply N3; by apply Hx; right.
    + intros w. rewrite Hl. split.
      * intros Hw%linked_root. unfold new_root in Hw. by rewrite decide_False in Hw.
      * intros (r0 & Hw & E)%linked_root_inv. unfold new_root in E. case_decide; subst; done.
    + cbn. by rewrite list_lookup_insert_ne by congruence.
Qed.

Lemma linked_ok : s1 <= s2 -> uf_ok linked.
Proof.
  intros Hs. split; rewrite ?linked_num; [|done| | |apply linked_ring].
  - cbn. rewrite length_insert. apply U.
  - intros v Hv. destruct (ok_root u U v Hv) as [r Hr]. eexists. by apply linked_root.
  - intros v r' d' s (r & d & Hd & -> & ->)%linked_path Es. cbn [linked m_size] in Es. unfold new_root in Es. repeat case_decide; subst.
    + rewrite list_lookup_insert_eq in Es by (by eapply lookup_lt_Some). injection Es as <-.
      pose proof (ok_depth u U v r1 d s1 Hd S1). cbn [Nat.pow]. lia.
    + destruct (decide (r = r2)) as [->|].
      * rewrite list_lookup_insert_eq in Es by (by eapply lookup_lt_Some). injection Es as <-. pose proof (ok_depth u U v r2 d s2 Hd S2). lia.
      * rewrite list_lookup_insert_ne in Es by congruence. by apply (ok_depth u U v r d).
Qed.

Lemma linked_same v w : v < num_vars u -> w < num_vars u -> same linked v w <->
  same u v w \/ (same u v r1 /\ same u r2 w) \/ (same u v r2 /\ same u r1 w).
Proof.
  intros Hv Hw. pose proof (has_root_refl _ _ E1) as H1. pose proof (has_root_refl _ _ E2) as H2.
  split.
  - intros (r' & (a & Ha & ->)%linked_root_inv & (b & Hb & E)%linked_root_inv). unfold new_root in E. repeat case_decide; subst.
    + left. by exists r1.
    + right. left. split; [by exists r1|by exists b].
    + right. right. split; [by exists r2|by exists r1].
    + left. by exists b.
  - assert (forall x y, same u x r1 -> same u r2 y -> has_root (m_find linked) x r2 /\ has_root (m_find linked) y r2) as Hj.
    { intros x y (a & Hx & Ha) (b & Hb & Hy). rewrite (has_root_fun _ r1 a r1) in Hx by done. rewrite (has_root_fun _ r2 b r2) in Hy by done.
      apply linked_root in Hx, Hy. unfold new_root in Hx, Hy. rewrite decide_True in Hx by done. rewrite decide_False in Hy by congruence. done. }
    intros [(r & Hv' & Hw')|[[Ha Hb]|[Ha Hb]]].
    + exists (new_root r). split; by apply linked_root.
    + exists r2. by apply Hj.
    + apply same_sym in Ha, Hb. exists r2. destruct (Hj w v Hb Ha). done.
Qed.

End Link.

(** ** The operations *)

Lemma mk_var_run s : mk_var s = (num_vars (vars s), State (add_var (vars s)) (mk_var_trail :: m_trail_stack s) (m_scopes s) (events s)).
Proof. done. Qed.

Lemma same_trans u a b c : same u a b -> same u b c -> same u a c.
Proof.
  intros (r & Ha & Hb) (r' & Hb' & Hc). exists r. split; [done|]. by rewrite (has_root_fun _ b r r' Hb Hb').
Qed.

(** The classes after [v1] and [v2] are merged. *)
Definition merged (R : nat -> nat -> Prop) (v1 v2 a b : nat) : Prop := R a b \/ (R a v1 /\ R v2 b) \/ (R a v2 /\ R v1 b).

(** What [link] does to two roots in order of size. *)
Lemma link_ok u v1 v2 r1 r2 s1 s2 : uf_ok u -> has_root (m_find u) v1 r1 -> has_root (m_find u) v2 r2 -> r1 <> r2 ->
  m_size u !! r1 = Some s1 -> m_size u !! r2 = Some s2 -> s1 <= s2 ->
  exists u', link r1 r2 u = Some u' /\ uf_ok u' /\ num_vars u' = num_vars u /\ unlink r1 u' = Some u /\
    forall a b, a < num_vars u -> b < num_vars u -> same u' a b <-> merged (same u) v1 v2 a b.
Proof.
  intros U [d1 H1] [d2 H2] Hne S1 S2 Hs. pose proof (path_end _ _ _ _ H1) as E1. pose proof (path_end _ _ _ _ H2) as E2.
  destruct (link_run u r1 r2 s1 s2 U E1 E2 Hne S1 S2) as (nx & _ & El & N0 & N1 & N2 & N3 & Back).
  exists (linked u r1 r2 s1 s2 nx). split; [done|]. split; [by apply linked_ok|]. split; [apply linked_num|]. split; [done|].
  intros a b Ha Hb. rewrite linked_same by done. unfold merged.
  assert (same u v1 r1) as R1 by (exists r1; split; [by exists d1|by apply has_root_refl]).
  assert (same u v2 r2) as R2 by (exists r2; split; [by exists d2|by apply has_root_refl]).
  pose proof (same_sym _ _ _ R1) as R1'. pose proof (same_sym _ _ _ R2) as R2'.
  split; (intros [?|[[? ?]|[? ?]]]; [by left|right; left|right; right]); eauto using same_trans.
Qed.

Lemma merged_sym u v1 v2 a b : merged (same u) v1 v2 a b <-> merged (same u) v2 v1 a b.
Proof. unfold merged. tauto. Qed.

Record merge_post (u : uf) (v1 v2 : nat) (u' : uf) : Prop := {
  mp_ok : uf_ok u';
  mp_num : num_vars u' = num_vars u;
  mp_same : forall a b, a < num_vars u -> b < num_vars u -> same u' a b <-> merged (same u) v1 v2 a b }.

(** Merging two classes: the vectors. *)
Lemma merge_roots u v1 v2 r1 r2 : uf_ok u -> has_root (m_find u) v1 r1 -> has_root (m_find u) v2 r2 -> r1 <> r2 ->
  exists q1 q2 w1 w2 u', by_size u r1 r2 v1 v2 = Some (q1, q2, w1, w2) /\ link q1 q2 u = Some u' /\
    merge_post u v1 v2 u' /\ unlink q1 u' = Some u.
Proof.
  intros U H1 H2 Hne. assert (forall v r, has_root (m_find u) v r -> exists s, m_size u !! r = Some s) as Hsz.
  { intros v r [d Hd]. apply path_bound in Hd as [_ Hd]. apply lookup_lt_is_Some_2. by rewrite (ok_size u U). }
  destruct (Hsz v1 r1 H1) as [s1 S1]. destruct (Hsz v2 r2 H2) as [s2 S2]. unfold by_size, rd. rewrite S1, S2. cbn [mbind option_bind].
  destruct (Nat.ltb_spec s2 s1) as [Hlt|Hle].
  - destruct (link_ok u v2 v1 r2 r1 s2 s1) as (u' & El & U' & N & Back & Hs); try done; [lia|].
    exists r2, r1, v2, v1, u'. split_and!; try done. split; [done|done|]. intros a b Ha Hb. by rewrite merged_sym, Hs.
  - destruct (link_ok u v1 v2 r1 r2 s1 s2) as (u' & El & U' & N & Back & Hs); try done.
    exists r1, r2, v1, v2, u'. by split_and!.
Qed.

Lemma merge_same u v1 v2 : uf_ok u -> same u v1 v2 -> merge_post u v1 v2 u.
Proof.
  intros U Hs. split; [done|done|]. intros a b _ _. unfold merged. pose proof (same_sym _ _ _ Hs).
  split; [by left|]. intros [?|[[? ?]|[? ?]]]; eauto using same_trans.
Qed.

Lemma merge_ok s v1 v2 : uf_ok (vars s) -> v1 < num_vars (vars s) -> v2 < num_vars (vars s) ->
  exists s', merge v1 v2 s = Some s' /\ merge_post (vars s) v1 v2 (vars s') /\ m_scopes s' = m_scopes s /\
    (s' = s \/ exists r1, m_trail_stack s' = merge_trail r1 :: m_trail_stack s /\ unlink r1 (vars s') = Some (vars s)).
Proof.
  intros U Hv1 Hv2. destruct (find_root_ok _ v1 U Hv1) as (r1 & F1 & H1). destruct (find_root_ok _ v2 U Hv2) as (r2 & F2 & H2).
  unfold merge, find. rewrite F1, F2. cbn [mbind option_bind]. destruct (Nat.eqb_spec r1 r2) as [<-|Hne].
  - exists s. split_and!; [done| |done|by left]. apply merge_same; [done|]. by exists r1.
  - destruct (merge_roots _ v1 v2 r1 r2 U H1 H2 Hne) as (q1 & q2 & w1 & w2 & u' & -> & El & P & Back).
    cbn [mbind option_bind emit vars]. rewrite El. cbn [mbind option_bind]. eexists. split; [done|].
    split; [exact P|]. split; [done|]. right. exists q1. done.
Qed.

(** [basic_union_find] computes the same, after making the variables it is asked about. *)
Lemma ensure_ok k u : uf_ok u -> uf_ok (Nat.iter k add_var u) /\ num_vars (Nat.iter k add_var u) = k + num_vars u /\
  (forall v r, has_root (m_find u) v r -> has_root (m_find (Nat.iter k add_var u)) v r) /\
  forall v w, v < k + num_vars u -> w < k + num_vars u -> same (Nat.iter k add_var u) v w <-> v = w \/ (v < num_vars u /\ w < num_vars u /\ same u v w).
Proof.
  intros U. induction k as [|k (U' & N & Hr & Hs)].
  - split_and!; try done. intros v w Hv Hw. cbn. split; [by right|]. intros [->|(_ & _ & ?)]; [|done].
    destruct (ok_root u U w Hw) as [r Hr]. by exists r.
  - cbn [Nat.iter nat_rect]. fold (Nat.iter k add_var u). set (u' := Nat.iter k add_var u) in *.
    split_and!; [by apply add_var_ok|by rewrite add_var_num, N|..].
    + intros v r Hv. destruct (Hr v r Hv) as [d Hd]. exists d. by apply path_app.
    + intros v w Hv Hw. rewrite add_var_same by (done || rewrite N; lia). split.
      * intros [->|(Hv' & Hw' & Hs')]; [by left|]. apply Hs in Hs'; lia || done.
      * intros [->|(Hv' & Hw' & Hs')]; [by left|]. right. split_and!; [lia|lia|]. apply Hs; [lia|lia|]. by right.
Qed.

(** ** The history *)

(** [us] are the vectors before each entry of the trail. *)
Inductive hist : uf -> list trail_obj -> list uf -> Prop :=
  | hist_nil : hist uf_empty [] []
  | hist_var u t us : uf_ok u -> hist u t us -> hist (add_var u) (mk_var_trail :: t) (u :: us)
  | hist_merge u u' r1 t us : uf_ok u' -> unlink r1 u' = Some u -> hist u t us -> hist u' (merge_trail r1 :: t) (u :: us).

Lemma hist_length u t us : hist u t us -> length us = length t.
Proof. induction 1; cbn; congruence. Qed.

Lemma hist_ok u t us : hist u t us -> uf_ok u.
Proof. destruct 1; [apply uf_empty_ok|by apply add_var_ok|done]. Qed.

Lemma take_snoc {A} (l : list A) x : take (length (l ++ [x]) - 1) (l ++ [x]) = l.
Proof. rewrite length_app. cbn. replace (length l + 1 - 1) with (length l) by lia. apply take_app_length. Qed.

Lemma undo_ok u t ts us s : hist u (t :: ts) us -> vars s = u -> exists s' u' us', undo t s = Some s' /\ us = u' :: us' /\
  hist u' ts us' /\ vars s' = u' /\ m_trail_stack s' = m_trail_stack s /\ m_scopes s' = m_scopes s.
Proof.
  intros H Es. inversion H; subst; cbn [undo].
  - do 3 eexists. split; [done|]. split; [done|]. split; [done|]. split_and!; [|done|done].
    match goal with H : _ = vars s |- _ => rewrite <- H end. cbn. rewrite !take_snoc. by destruct u0.
  - match goal with H : unlink _ _ = Some _ |- _ => destruct (unmerge_unlink _ _ _ H) as (r2 & E) end.
    rewrite E. do 3 eexists. split; [done|]. split; [done|]. by split_and!.
Qed.

Lemma undo_loop_ok n : forall s us, hist (vars s) (m_trail_stack s) us -> n <= length (m_trail_stack s) ->
  exists s' us', undo_loop n s = Some s' /\ hist (vars s') (m_trail_stack s') us' /\ vars s' :: us' = drop n (vars s :: us) /\
    m_trail_stack s' = drop n (m_trail_stack s) /\ m_scopes s' = m_scopes s.
Proof.
  induction n as [|n IH]; intros s us H Hn; [by exists s, us|]. cbn [undo_loop].
  destruct (m_trail_stack s) as [|t ts] eqn:Et; [cbn in Hn; lia|].
  destruct (undo_ok (vars s) t ts us (State (vars s) ts (m_scopes s) (events s)) H eq_refl) as (s1 & u1 & us1 & E & -> & H1 & V1 & T1 & S1).
  rewrite E. cbn [mbind option_bind]. cbn in T1, S1. destruct (IH s1 us1) as (s' & us' & E' & H' & V' & T' & S'); [by rewrite V1, T1|by rewrite T1; cbn in Hn; lia|].
  exists s', us'. split_and!; [done|done|by rewrite V', V1|by rewrite T', T1|congruence].
Qed.

(** ** Scopes *)

(** The part of a state that [pop_scope] restores. *)
Definition snap : Type := uf * list trail_obj * list nat.
Definition snapshot (s : state) : snap := (vars s, m_trail_stack s, m_scopes s).

(** Popping the scope [i] gives a state of which [P] holds, for the [i]-th [P]. *)
Record saved_ok (s : state) (us : list uf) (Ps : list (snap -> Prop)) : Prop := {
  sv_hist : hist (vars s) (m_trail_stack s) us;
  sv_length : length Ps = length (m_scopes s);
  sv_sorted : forall i j k l, i <= j -> m_scopes s !! i = Some k -> m_scopes s !! j = Some l -> l <= k;
  sv_top : forall i k, m_scopes s !! i = Some k -> k <= length (m_trail_stack s);
  sv_saved : forall i k P, m_scopes s !! i = Some k -> Ps !! i = Some P -> exists u,
    (vars s :: us) !! (length (m_trail_stack s) - k) = Some u /\
    P (u, drop (length (m_trail_stack s) - k) (m_trail_stack s), drop (S i) (m_scopes s)) }.

(** A new entry of the trail. *)
Lemma saved_trail s us Ps s' t : saved_ok s us Ps -> hist (vars s') (m_trail_stack s') (vars s :: us) ->
  m_trail_stack s' = t :: m_trail_stack s -> m_scopes s' = m_scopes s -> saved_ok s' (vars s :: us) Ps.
Proof.
  intros [H L So To Sv] H' Et Es. split; rewrite ?Es; [done|done|done| |].
  - intros i k E. rewrite Et. cbn. pose proof (To i k E). lia.
  - intros i k P E EP. destruct (Sv i k P E EP) as (u & Eu & Hu). pose proof (To i k E) as Hk. exists u. rewrite Et. cbn [length].
    replace (S (length (m_trail_stack s)) - k) with (S (length (m_trail_stack s) - k)) by lia. done.
Qed.

Lemma saved_push s us Ps : saved_ok s us Ps -> saved_ok (push_scope s) us ((fun x => x = snapshot s) :: Ps).
Proof.
  intros [H L So To Sv]. split; cbn [push_scope vars m_trail_stack m_scopes]; [done|cbn; lia| | |].
  - intros [|i] [|j] k l Hij; cbn; [intros [= <-] [= <-]; lia|intros [= <-]; apply To|lia|]. intros. by apply (So i j k l); [lia|..].
  - intros [|i] k; cbn; [intros [= <-]; lia|apply To].
  - intros [|i] k P; cbn; [|apply Sv]. intros [= <-] [= <-]. rewrite Nat.sub_diag. by exists (vars s).
Qed.

Lemma saved_weaken s us Ps Qs : saved_ok s us Ps -> Forall2 (fun P Q : snap -> Prop => forall x, P x -> Q x) Ps Qs -> saved_ok s us Qs.
Proof.
  intros [H L So To Sv] HPQ. split; [done|by apply Forall2_length in HPQ; rewrite <- HPQ|done|done|].
  intros i k Q E EQ. destruct (Forall2_lookup_r _ _ _ _ _ HPQ EQ) as (P & EP & HP). destruct (Sv i k P E EP) as (u & Eu & Hu).
  exists u. split; [done|by apply HP].
Qed.

Lemma saved_pop m s us Ps P : saved_ok s us Ps -> 0 < m -> Ps !! (m - 1) = Some P ->
  exists s' us', pop_scope m s = Some s' /\ P (snapshot s') /\ saved_ok s' us' (drop m Ps).
Proof.
  intros [H L So To Sv] Hm EP. assert (m - 1 < length (m_scopes s)) as Hlt by (rewrite <- L; by eapply lookup_lt_Some).
  destruct (lookup_lt_is_Some_2 _ _ Hlt) as [k Ek]. pose proof (To _ _ Ek) as Hk. set (n := length (m_trail_stack s) - k).
  destruct (undo_loop_ok n s us H) as (s1 & us1 & E1 & H1 & V1 & T1 & S1); [unfold n; lia|].
  unfold pop_scope, rd, undo_trail_stack. destruct (Nat.eqb_spec m 0); [lia|]. rewrite Ek. cbn [mbind option_bind]. fold n. rewrite E1. cbn [mbind option_bind].
  eexists _, us1. split; [done|]. unfold snapshot. cbn [vars m_trail_stack m_scopes].
  assert (length (m_trail_stack s1) = k) as Lk by (rewrite T1, length_drop; unfold n; lia).
  assert (forall j, (vars s1 :: us1) !! j = (vars s :: us) !! (n + j)) as Hj by (intros j; by rewrite V1, lookup_drop).
  split.
  - destruct (Sv _ _ _ Ek EP) as (u & Eu & Hu). specialize (Hj 0). rewrite Nat.add_0_r in Hj. fold n in Eu, Hu.
    replace (S (m - 1)) with m in Hu by lia. rewrite T1, S1. cbn in Hj. congruence.
  - split; cbn [vars m_trail_stack m_scopes]; rewrite ?S1; [done|rewrite !length_drop; lia| | |].
    + intros i j x y Hij. rewrite !lookup_drop. intros. by apply (So (m + i) (m + j) x y); [lia|..].
    + intros i x. rewrite lookup_drop, Lk. intros Ex. by apply (So (m - 1) (m + i) k x); [lia|..].
    + intros i x Q. rewrite !lookup_drop. intros Ex EQ. destruct (Sv _ _ _ Ex EQ) as (u & Eu & Hu). exists u.
      assert (x <= k) as Hx by (apply (So (m - 1) (m + i) k x); [lia|done|done]).
      rewrite Hj, Lk, T1, !drop_drop. replace (n + (k - x)) with (length (m_trail_stack s) - x) by (unfold n; lia).
      replace (m + S i) with (S (m + i)) by lia. done.
Qed.

(** ** The class without a trail *)

(** Equivalence of any two numbers: those that are not variables yet are alone. *)
Definition bsame (u : uf) (a b : nat) : Prop := a = b \/ (a < num_vars u /\ b < num_vars u /\ same u a b).

Lemma bsame_iter k u a b : uf_ok u -> bsame (Nat.iter k add_var u) a b <-> bsame u a b.
Proof.
  intros U. destruct (ensure_ok k u U) as (_ & N & _ & Hs). unfold bsame. rewrite N. split.
  - intros [?|(Ha & Hb & Hab)]; [by left|]. by apply Hs.
  - intros [?|(Ha & Hb & Hab)]; [by left|right]. split_and!; [lia|lia|]. apply Hs; [lia|lia|]. by right.
Qed.

(** What [find] answers is the root when all numbers in question are variables. *)
Lemma basic_find_ok u u' v : uf_ok u -> uf_ok u' -> (forall a b, bsame u' a b <-> bsame u a b) ->
  (forall a r, has_root (m_find u) a r -> has_root (m_find u') a r) -> v < num_vars u' ->
  exists r, basic_union_find.find u v = Some r /\ has_root (m_find u') v r.
Proof.
  intros U U' Hs Hr Hv. unfold basic_union_find.find. destruct (Nat.leb_spec (num_vars u) v) as [Hge|Hlt].
  - exists v. split; [done|]. destruct (ok_root u' U' v Hv) as [r Hvr]. pose proof Hvr as [d Hd].
    pose proof (path_end _ _ _ _ Hd) as Er. apply path_bound in Hd as [_ Hrb].
    assert (bsame u' v r) as [<-|(Hlt & _)]%Hs; [|done|lia]. right. split_and!; [done|done|]. exists r. split; [done|by apply has_root_refl].
  - destruct (find_root_ok u v U Hlt) as (r & E & H). exists r. split; [done|by apply Hr].
Qed.

(** Merging in [basic_union_find]: the variables asked about are made first. *)
Lemma basic_merge_ok u v1 v2 : uf_ok u -> exists u', basic_union_find.merge v1 v2 u = Some u' /\ uf_ok u' /\
  forall a b, bsame u' a b <-> merged (bsame u) v1 v2 a b.
Proof.
  intros U. unfold basic_union_find.merge, basic_union_find.ensure_size.
  set (u1 := Nat.iter (S v1 - num_vars u) add_var u). set (u2 := Nat.iter (S v2 - num_vars u1) add_var u1).
  destruct (ensure_ok (S v1 - num_vars u) u U) as (U1 & N1 & R1 & _). fold u1 in U1, N1, R1.
  destruct (ensure_ok (S v2 - num_vars u1) u1 U1) as (U2 & N2 & R2 & _). fold u2 in U2, N2, R2.
  assert (forall a b, bsame u2 a b <-> bsame u a b) as Hs by (intros a b; unfold u2; rewrite bsame_iter by done; by apply bsame_iter).
  assert (forall a r, has_root (m_find u) a r -> has_root (m_find u2) a r) as Hr by auto.
  destruct (basic_find_ok u u2 v1 U U2 Hs Hr) as (r1 & -> & H1); [lia|]. destruct (basic_find_ok u u2 v2 U U2 Hs Hr) as (r2 & -> & H2); [lia|].
  cbn [mbind option_bind]. destruct (Nat.eqb_spec r1 r2) as [<-|Hne].
  - exists u. split; [done|]. split; [done|]. intros a b. assert (bsame u v1 v2) as Hv.
    { apply Hs. right. split_and!; [lia|lia|]. by exists r1. }
    unfold merged, bsame in *. split; [by left|]. intros [?|[[Ha Hb]|[Ha Hb]]]; [done|..];
      destruct Ha as [->|(? & ? & ?)], Hb as [<-|(? & ? & ?)], Hv as [?|(? & ? & ?)]; subst; auto; right; split_and!; eauto using same_trans, same_sym.
  - destruct (merge_roots u2 v1 v2 r1 r2 U2 H1 H2 Hne) as (q1 & q2 & w1 & w2 & u' & Eb & El & [U' N' S'] & _).
    rewrite Eb. cbn [mbind option_bind]. rewrite El. exists u'. split; [done|]. split; [done|]. intros a b. unfold bsame at 1. rewrite N'. unfold merged. rewrite <- !Hs. unfold bsame.
    split.
    + intros [?|(Ha & Hb & Hab%S')]; [by left; left| |done|done]. destruct Hab as [?|[[? ?]|[? ?]]]; [left; right; by split_and!|right; left|right; right];
        (split; right; split_and!; (done || lia)).
    + intros [[?|(? & ? & ?)]|[[Ha Hb]|[Ha Hb]]]; [by left|right; split_and!; try done; apply S'; [done|done|by left]|..];
        (assert (a < num_vars u2) by (destruct Ha as [->|(? & _)]; [lia|done]); assert (b < num_vars u2) by (destruct Hb as [<-|(_ & ? & _)]; [lia|done]);
         right; split_and!; [done|done|]; apply S'; [done|done|]; unfold merged).
      * right. left. split; [destruct Ha as [->|(_ & _ & ?)]|destruct Hb as [<-|(_ & _ & ?)]]; try done; [exists r1|exists r2]; done.
      * right. right. split; [destruct Ha as [->|(_ & _ & ?)]|destruct Hb as [<-|(_ & _ & ?)]]; try done; [exists r2|exists r1]; done.
Qed.
