(* ===== verification/UnionFindTheorems.v ===== *)
(** * UnionFindTheorems: classes, rings and backtracking

    An abstract machine whose states are equivalences of variables with a stack of saved ones;
    [union_find] simulates it.  Popping a scope restores the vectors exactly.  [dissolve] leaves a
    broken ring. *)
From S2P Require Import Prelude.
From S2P Require Import UnionFind.
From S2P Require Import UnionFindProofs.
From Stdlib Require Import ZArith Lia.
From stdpp Require Import base tactics option list numbers.
Import union_find.
Open Scope nat_scope.

(** ** The abstract machine *)

(** An equivalence of the first [p_num] numbers. *)
Record part := Part { p_num : nat; p_eq : nat -> nat -> Prop }.
Definition part_empty : part := Part 0 (fun _ _ => False).
Definition part_new (p : part) : part := Part (S (p_num p)) (fun v w => v = w \/ (v < p_num p /\ w < p_num p /\ p_eq p v w)).
Definition part_merge (v1 v2 : nat) (p : part) : part := Part (p_num p) (merged (p_eq p) v1 v2).

Inductive cmd := u_mk_var | u_merge (v1 v2 : nat) | u_push | u_pop (k : nat).

(** The current equivalence and the saved ones, the last first. *)
Definition abs : Type := part * list part.

Definition astep (c : cmd) (a : abs) : option abs :=
  let '(p, saved) := a in
  match c with
  | u_mk_var => Some (part_new p, saved)
  | u_merge v1 v2 => if (v1 <? p_num p) && (v2 <? p_num p) then Some (part_merge v1 v2 p, saved) else None
  | u_push => Some (p, p :: saved)
  | u_pop k => if k =? 0 then Some a else p ← saved !! (k - 1); Some (p, drop k saved)
  end.

Fixpoint asteps (cs : list cmd) (a : abs) : option abs :=
  match cs with [] => Some a | c :: cs => a ← astep c a; asteps cs a end.

(** ** The code as an implementation *)

Definition exec (c : cmd) (s : state) : option state :=
  match c with
  | u_mk_var => Some (mk_var s).2
  | u_merge v1 v2 => merge v1 v2 s
  | u_push => Some (push_scope s)
  | u_pop k => pop_scope k s
  end.

Fixpoint exec_all (cs : list cmd) (s : state) : option state :=
  match cs with [] => Some s | c :: cs => s ← exec c s; exec_all cs s end.

Record represents (p : part) (u : uf) : Prop := {
  rep_ok : uf_ok u;
  rep_num : num_vars u = p_num p;
  rep_eq : forall v w, v < p_num p -> w < p_num p -> p_eq p v w <-> same u v w }.

Lemma represents_new p u : represents p u -> represents (part_new p) (add_var u).
Proof.
  intros [U N E]. split; [by apply add_var_ok|by rewrite add_var_num, N|]. cbn. intros v w Hv Hw.
  rewrite add_var_same by (done || lia). rewrite N. split; (intros [->|(? & ? & ?)]; [by left|right; split_and!; try done; by apply E]).
Qed.

Lemma represents_merge p u v1 v2 u' : represents p u -> v1 < p_num p -> v2 < p_num p -> merge_post u v1 v2 u' ->
  represents (part_merge v1 v2 p) u'.
Proof.
  intros [U N E] H1 H2 [U' N' S']. split; [done|by rewrite N', N|]. cbn. intros a b Ha Hb. rewrite S' by lia.
  unfold merged. rewrite !E by done. done.
Qed.

Definition saved_part (p : part) (x : snap) : Prop := represents p x.1.1.

(** The state represents the current equivalence and the saved ones; [Ps] speak about older scopes. *)
Definition rel (Ps : list (snap -> Prop)) (a : abs) (s : state) : Prop :=
  represents a.1 (vars s) /\ exists us, saved_ok s us (map saved_part a.2 ++ Ps).

Lemma saved_top p s s' us Ps : represents p (vars s) -> saved_ok s' us ((fun x => x = snapshot s) :: Ps) ->
  saved_ok s' us (saved_part p :: Ps).
Proof.
  intros R H. eapply saved_weaken; [exact H|]. constructor; [by intros x ->|]. clear. induction Ps; by constructor.
Qed.

Lemma uf_exec_ok Ps c a a' s : rel Ps a s -> astep c a = Some a' -> exists s', exec c s = Some s' /\ rel Ps a' s'.
Proof.
  destruct a as [p saved]. intros [R [us H]]. cbn [fst snd] in *. pose proof R as [U N _].
  destruct c as [|v1 v2| |k]; cbn [astep exec].
  - intros [= <-]. eexists. split; [done|]. split; cbn [fst snd]; [by apply represents_new|].
    exists (vars s :: us). eapply saved_trail; [exact H| |done|done]. apply hist_var; [done|apply H].
  - destruct (Nat.ltb_spec v1 (p_num p)) as [H1|]; [|done]. destruct (Nat.ltb_spec v2 (p_num p)) as [H2|]; [|done].
    intros [= <-]. destruct (merge_ok s v1 v2 U) as (s' & E & P & Es & Hs); [lia|lia|]. exists s'. split; [done|].
    split; cbn [fst snd]; [by eapply represents_merge|]. destruct Hs as [->|(r1 & Et & Back)]; [by exists us|].
    exists (vars s :: us). eapply saved_trail; [exact H| |exact Et|exact Es]. rewrite Et. apply hist_merge; [apply P|done|apply H].
  - intros [= <-]. eexists. split; [done|]. split; [done|]. exists us. apply (saved_top p s); [done|]. by apply saved_push.
  - destruct (Nat.eqb_spec k 0) as [->|Hk]; [intros [= <-]; exists s; split; [done|]; split; [done|by exists us]|].
    destruct (saved !! (k - 1)) as [q|] eqn:Eq; [|done]. cbn [mbind option_bind]. intros [= <-].
    destruct (saved_pop k s us _ (saved_part q) H) as (s' & us' & E & Hq & H'); [lia| |].
    { rewrite lookup_app_l by (rewrite length_map; by eapply lookup_lt_Some). rewrite list_lookup_fmap. by rewrite Eq. }
    exists s'. split; [done|]. split; [exact Hq|]. exists us'. cbn [fst snd].
    rewrite drop_app_le in H' by (rewrite length_map; apply lookup_lt_Some in Eq; lia).
    rewrite skipn_map in H'. exact H'.
Qed.

Lemma uf_exec_all_ok Ps cs : forall a a' s, rel Ps a s -> asteps cs a = Some a' -> exists s', exec_all cs s = Some s' /\ rel Ps a' s'.
Proof.
  induction cs as [|c cs IH]; intros a a' s R E; cbn [asteps exec_all] in *; [injection E as <-; by exists s|].
  destruct (astep c a) as [a1|] eqn:E1; [|done]. cbn [mbind option_bind] in E.
  destruct (uf_exec_ok Ps c a a1 s R E1) as (s1 & -> & R1). cbn [mbind option_bind]. by eapply IH.
Qed.

Lemma init_rel : rel [] (part_empty, []) init.
Proof.
  split; [split; [exact uf_empty_ok|done|cbn; intros; lia]|]. exists []. split; try done. apply hist_nil.
Qed.

(** ** What a state shows *)

Lemma find_has_root u v r : uf_ok u -> v < num_vars u -> find_root u v = Some r <-> has_root (m_find u) v r.
Proof.
  intros U Hv. destruct (find_root_ok u v U Hv) as (r' & E & H). split; intros Hr; [congruence|].
  by rewrite (has_root_fun _ v r r' Hr H).
Qed.

Lemma find_same u v w r : uf_ok u -> v < num_vars u -> w < num_vars u -> find_root u v = Some r ->
  same u v w <-> find_root u w = Some r.
Proof.
  intros U Hv Hw Hr. apply find_has_root in Hr; [|done|done]. rewrite (find_has_root u w r U Hw). split; [|intros; by exists r].
  intros (r' & H1 & H2). by rewrite (has_root_fun _ v r r' Hr H1).
Qed.

Lemma ring_ok u v : uf_ok u -> v < num_vars u -> exists l, ring u v = Some l /\ NoDup l /\
  (forall w, w ∈ l <-> w < num_vars u /\ same u v w) /\ forall r, find_root u v = Some r -> m_size u !! r = Some (length l).
Proof.
  intros U Hv. destruct (find_root_ok u v U Hv) as (r & E & H). destruct (class_ring u v r U H) as (l & [Hw Hn] & Hl & Hs & Hlt).
  exists (v :: l). split; [apply ring_loop_ok; [done|by apply list.NoDup_cons in Hn as [? _]|done]|]. split; [done|]. split.
  - intros w. rewrite Hl. split; [|by intros [_ ?]]. intros Hs'. split; [|done]. destruct Hs' as (r' & _ & [d Hd]). by apply path_bound in Hd as [? _].
  - intros r' E'. assert (r' = r) as -> by congruence. done.
Qed.

Lemma check_invariant_ok s : uf_ok (vars s) -> check_invariant s = true.
Proof.
  intros U. unfold check_invariant, get_num_vars. apply forallb_forall. intros v Hv%list_elem_of_In%elem_of_seq.
  destruct (lookup_lt_is_Some_2 (m_find (vars s)) v) as [r E]; [unfold num_vars in Hv; lia|]. unfold rd. rewrite E.
  destruct (Nat.eqb_spec r v) as [->|]; [|done]. destruct (ring_ok (vars s) v U) as (l & -> & _ & Hl & Hs); [lia|].
  assert (find_root (vars s) v = Some v) as Ev by (apply find_has_root; [done|lia|by apply has_root_refl]).
  rewrite (Hs v Ev), Nat.eqb_refl, andb_true_r. apply forallb_forall. intros w Hw%list_elem_of_In. apply Hl in Hw as [Hw Hsame].
  unfold find. apply (find_same _ v w v U) in Hsame; [|lia|lia|done]. by rewrite Hsame, Nat.eqb_refl.
Qed.

(** C25: any run of [mk_var], [merge], [push_scope] and [pop_scope] that the machine of equivalences
    allows succeeds, and the state shows the equivalence: [find] ends, within a number of steps
    logarithmic in the number of variables, and gives equal roots exactly to equivalent variables; the
    ring of [next] lists the class of a variable once; [size] is its cardinality; the debug check holds. *)
Theorem union_find_refines cs p saved : asteps cs (part_empty, []) = Some (p, saved) ->
  exists s, exec_all cs init = Some s /\ get_num_vars s = p_num p /\ get_num_scopes s = length saved /\ check_invariant s = true /\
  forall v, v < p_num p -> exists r l, find s v = Some r /\
    find_loop (S (Nat.log2 (p_num p))) (m_find (vars s)) v = Some r /\
    (forall w, w < p_num p -> p_eq p v w <-> find s w = Some r) /\
    ring (vars s) v = Some l /\ NoDup l /\ (forall w, w ∈ l <-> w < p_num p /\ p_eq p v w) /\ size s v = Some (length l).
Proof.
  intros E. destruct (uf_exec_all_ok [] cs _ _ init init_rel E) as (s & Es & [[U N Eq] [us H]]). cbn [fst snd] in *.
  exists s. split; [done|]. split; [done|]. split; [|split; [by apply check_invariant_ok|]].
  { unfold get_num_scopes. rewrite <- (sv_length _ _ _ H), length_app, length_map. cbn. lia. }
  intros v Hv. rewrite <- N in Hv. destruct (find_log (vars s) v U Hv) as (r & Hr & Hlog). destruct (ring_ok (vars s) v U Hv) as (l & El & Hn & Hl & Hs).
  assert (find s v = Some r) as Ev by by apply find_has_root. exists r, l. split_and!; [done|apply Hlog; rewrite N; lia| |done|done| |].
  - intros w Hw. rewrite Eq by lia. apply find_same; [done|lia|lia|done].
  - intros w. rewrite Hl, N. split; (intros [Hw Hsame]; split; [done|]); apply Eq; (lia || done).
  - unfold size. rewrite Ev. by apply Hs.
Qed.

Definition demo : list cmd := [u_mk_var; u_mk_var; u_mk_var; u_merge 0 1; u_push; u_mk_var; u_merge 3 2; u_merge 2 0; u_pop 1; u_merge 2 1].

Lemma union_find_refines_witness : exists p, asteps demo (part_empty, []) = Some (p, []) /\
  exists s, exec_all demo init = Some s /\ get_num_vars s = p_num p /\ get_num_scopes s = 0 /\ check_invariant s = true /\
  forall v, v < p_num p -> exists r l, find s v = Some r /\
    find_loop (S (Nat.log2 (p_num p))) (m_find (vars s)) v = Some r /\
    (forall w, w < p_num p -> p_eq p v w <-> find s w = Some r) /\
    ring (vars s) v = Some l /\ NoDup l /\ (forall w, w ∈ l <-> w < p_num p /\ p_eq p v w) /\ size s v = Some (length l).
Proof.
  eexists. split; [reflexivity|]. apply (union_find_refines demo _ []). reflexivity.
Defined.

(** ** Backtracking *)

Lemma exec_all_app cs1 cs2 s : exec_all (cs1 ++ cs2) s = s ← exec_all cs1 s; exec_all cs2 s.
Proof.
  revert s. induction cs1 as [|c cs1 IH]; intros s; [done|]. cbn [app exec_all]. destruct (exec c s); [|done]. cbn [mbind option_bind]. apply IH.
Qed.

(** C26: from any state of a run, opening a scope, running commands [cs] that close only scopes they
    opened, and closing the scope with those still open restores the vectors, the trail and the scopes
    exactly: undoing the trail is the inverse of making variables and merging classes. *)
Theorem pop_scope_restores cs0 p saved0 cs q saved : asteps cs0 (part_empty, []) = Some (p, saved0) -> asteps cs (p, []) = Some (q, saved) ->
  exists s s', exec_all cs0 init = Some s /\ exec_all (u_push :: cs ++ [u_pop (S (length saved))]) s = Some s' /\
    vars s' = vars s /\ m_trail_stack s' = m_trail_stack s /\ m_scopes s' = m_scopes s.
Proof.
  intros E0 E. destruct (uf_exec_all_ok [] cs0 _ _ init init_rel E0) as (s & Es & [R [us H]]). exists s. cbn [fst snd] in *.
  apply saved_push in H. set (Ps := (fun x => x = snapshot s) :: _) in H.
  destruct (uf_exec_all_ok Ps cs (p, []) (q, saved) (push_scope s)) as (s1 & E1 & [_ [us1 H1]]); [by split; [|exists us]|done|]. cbn [fst snd] in H1.
  destruct (saved_pop (S (length saved)) s1 us1 _ (fun x => x = snapshot s) H1) as (s' & us' & E2 & Hs & _); [lia| |].
  { rewrite lookup_app_r by (rewrite length_map; lia). rewrite length_map. by replace (S (length saved) - 1 - length saved) with 0 by lia. }
  exists s'. cbn [exec_all exec mbind option_bind]. rewrite exec_all_app, E1. cbn [mbind option_bind exec_all exec]. rewrite E2.
  injection Hs as -> -> ->. by split_and!.
Qed.

Lemma pop_scope_restores_witness : exists s s', exec_all [u_mk_var; u_mk_var; u_merge 0 1] init = Some s /\
  exec_all (u_push :: [u_mk_var; u_merge 2 0; u_push; u_mk_var] ++ [u_pop 2]) s = Some s' /\
  vars s' = vars s /\ m_trail_stack s' = m_trail_stack s /\ m_scopes s' = m_scopes s.
Proof.
  eapply (pop_scope_restores [u_mk_var; u_mk_var; u_merge 0 1] _ [] [u_mk_var; u_merge 2 0; u_push; u_mk_var] _ [_]); reflexivity.
Defined.

(** ** Dissolving a class *)

Lemma dissolve_run s v : uf_ok (vars s) -> v < num_vars (vars s) ->
  dissolve v s = Some (set_vars (Uf (<[v:=v]> (m_find (vars s))) (<[v:=1]> (m_size (vars s))) (<[v:=v]> (m_next (vars s)))) s).
Proof.
  intros U Hv. pose proof (ok_size _ U) as Ls. pose proof (ok_next _ U) as Ln. unfold dissolve.
  destruct (num_vars (vars s)) as [|n] eqn:En; [lia|]. unfold num_vars in En.
  destruct (lookup_lt_is_Some_2 (m_next (vars s)) v) as [w Ew]; [lia|]. cbn [dissolve_loop]. unfold rd. rewrite Ew. cbn [mbind option_bind].
  rewrite !wr_ok by lia. cbn [mbind option_bind]. destruct (Nat.eqb_spec w v) as [->|Hne]; [done|].
  cbn [m_find m_size m_next]. rewrite list_lookup_insert_eq by lia. cbn [mbind option_bind].
  rewrite !wr_ok by (rewrite length_insert; lia). cbn [mbind option_bind]. by rewrite Nat.eqb_refl, !list_insert_insert_eq.
Qed.

(** The walk from [x] into a loop at [v]. *)
Lemma ring_stuck u x v fuel : x <> v -> m_next u !! v = Some v -> ring_loop fuel u x v = None.
Proof.
  intros Hx Hv. induction fuel as [|fuel IH]; [done|]. cbn [ring_loop]. unfold rd. rewrite Hv. cbn [mbind option_bind].
  destruct (Nat.eqb_spec v x); [congruence|]. by rewrite IH.
Qed.

(** C27: [dissolve] resets only the variable it is given, since its loop never advances to the next one.
    If the class has another variable, some [x] of it is left whose ring runs into a loop at [v]: the
    walk along [next] from [x] never comes back to [x]. *)
Theorem dissolve_breaks s v w : uf_ok (vars s) -> same (vars s) v w -> v <> w -> exists s', dissolve v s = Some s' /\
  (forall k, k <> v -> m_find (vars s') !! k = m_find (vars s) !! k /\ m_size (vars s') !! k = m_size (vars s) !! k /\
     next s' k = next s k) /\
  exists x, x <> v /\ same (vars s) v x /\ next s' x = Some v /\ forall fuel, ring_loop fuel (vars s') x x = None.
Proof.
  intros U Hs Hne. destruct Hs as (r & Hr & Hw). assert (v < num_vars (vars s)) as Hv by (destruct Hr as [d Hd]; by apply path_bound in Hd as [? _]).
  eexists. split; [by apply dissolve_run|]. cbn [set_vars vars m_find m_size m_next]. unfold next, rd. cbn [set_vars vars m_next].
  split; [intros k Hk; by rewrite !list_lookup_insert_ne by congruence|].
  destruct (class_ring (vars s) v r U Hr) as (l & [Hwalk Hn] & Hl & _ & _). destruct l as [|y l _] using rev_ind.
  { assert (w ∈ [v]) as ->%list_elem_of_singleton; [|done]. apply Hl. by exists r. }
  apply (walk_app _ l y []) in Hwalk as [_ Hy]. cbn in Hy. apply list.NoDup_cons in Hn as [Hn _]. rewrite elem_of_app, list_elem_of_singleton in Hn.
  assert (y <> v) as Hyv by (intros ->; auto). exists y. split; [done|]. split; [apply Hl; right; apply elem_of_app; right; by left|].
  assert (<[v:=v]> (m_next (vars s)) !! y = Some v) as Ey by by rewrite list_lookup_insert_ne by congruence. split; [done|].
  intros [|fuel]; [done|]. cbn [ring_loop]. unfold rd. cbn [m_next]. rewrite Ey. cbn [mbind option_bind].
  destruct (Nat.eqb_spec v y); [congruence|]. rewrite ring_stuck; [done|done|]. cbn. apply list_lookup_insert_eq. rewrite (ok_next _ U). done.
Qed.

Lemma dissolve_breaks_witness : exists s, exec_all [u_mk_var; u_mk_var; u_merge 0 1] init = Some s /\ exists s', dissolve 0 s = Some s' /\
  (forall k, k <> 0 -> m_find (vars s') !! k = m_find (vars s) !! k /\ m_size (vars s') !! k = m_size (vars s) !! k /\
     next s' k = next s k) /\
  exists x, x <> 0 /\ same (vars s) 0 x /\ next s' x = Some 0 /\ forall fuel, ring_loop fuel (vars s') x x = None.
Proof.
  destruct (uf_exec_all_ok [] [u_mk_var; u_mk_var; u_merge 0 1] _ _ init init_rel eq_refl) as (s & E & [R _]). exists s. split; [exact E|].
  apply (dissolve_breaks s 0 1); [apply R| |discriminate]. apply (rep_eq _ _ R 0 1); cbn; [lia|lia|]. right. left. cbn. unfold part_new. cbn. lia.
Defined.
