(* ===== verification/ExtNumeral.v ===== *)
(** * ExtNumeral: numeral managers and extended numerals ([util/ext_numeral.h])

    [NumManager] is what the templates of [util/ext_numeral.h] and [math/interval] require of the
    numeral manager they are instantiated with; operations that round take the rounding mode of the
    manager as their first argument ([true] is towards +oo).  [NumLaws] states what a manager promises:
    each numeral denotes a real number, comparisons are exact, and an operation is rounded in the
    requested direction, exactly when the manager is precise.  [QNum] (rationals) is a precise instance and
    [GridNum] (multiples of 1/4 with directed rounding) an imprecise one.

    Module [ext_numeral] has the functions of [util/ext_numeral.h], on pairs of a numeral and a kind; [elb]
    and [eub] say that such a pair bounds a real number, and the last section shows that the products and
    quotients of bounds are bounds. *)
From S2P Require Import Prelude.
From Stdlib Require Import ZArith Lia Reals Lra Psatz QArith Qreals Qpower Qround Qreduction.
From stdpp Require Import base tactics option list numbers.
Close Scope word_scope.
Close Scope Q_scope.
Open Scope Z_scope.

(** ** The interface *)

Class NumManager (num : Type) : Type := {
  m_precise : bool;
  m_zero : num;
  m_of_int : bool -> Z -> num;
  m_of_frac : bool -> Z -> Z -> num;
  m_is_zero : num -> bool;
  m_is_pos : num -> bool;
  m_is_neg : num -> bool;
  m_is_one : num -> bool;
  m_is_minus_one : num -> bool;
  m_eq : num -> num -> bool;
  m_lt : num -> num -> bool;
  m_neg : num -> num;
  m_abs : num -> num;
  m_dec : bool -> num -> num;
  m_add : bool -> num -> num -> num;
  m_sub : bool -> num -> num -> num;
  m_mul : bool -> num -> num -> num;
  m_div : bool -> num -> num -> num;
  m_inv : bool -> num -> num;
  m_power : bool -> num -> nat -> num;
  m_prev_power_of_two : num -> nat }.

(** [gt] and [le] of a manager are [lt] with the arguments exchanged. *)
Definition m_gt {num} `{NumManager num} (a b : num) : bool := m_lt b a.
Definition m_le {num} `{NumManager num} (a b : num) : bool := negb (m_lt b a).

(** [v] is [r] rounded towards +oo ([up]) or -oo. *)
Definition rounds {num} `{NumManager num} (up : bool) (r v : R) : Prop :=
  (m_precise = true -> v = r) /\ (if up then r <= v else v <= r)%R.

Class NumLaws {num} `{NumManager num} (val : num -> R) : Prop := {
  val_zero : val m_zero = 0%R;
  val_of_int up z : rounds up (IZR z) (val (m_of_int up z));
  val_of_frac up n d : (0 < d)%Z -> rounds up (IZR n / IZR d) (val (m_of_frac up n d));
  val_is_zero a : m_is_zero a = true <-> val a = 0%R;
  val_is_pos a : m_is_pos a = true <-> (0 < val a)%R;
  val_is_neg a : m_is_neg a = true <-> (val a < 0)%R;
  val_is_one a : m_is_one a = true <-> val a = 1%R;
  val_is_minus_one a : m_is_minus_one a = true <-> val a = (-1)%R;
  val_eq a b : m_eq a b = true <-> val a = val b;
  val_lt a b : m_lt a b = true <-> (val a < val b)%R;
  val_neg a : val (m_neg a) = (- val a)%R;
  val_abs a : val (m_abs a) = Rabs (val a);
  val_dec up a : rounds up (val a - 1) (val (m_dec up a));
  val_add up a b : rounds up (val a + val b) (val (m_add up a b));
  val_sub up a b : rounds up (val a - val b) (val (m_sub up a b));
  val_mul up a b : rounds up (val a * val b) (val (m_mul up a b));
  val_div up a b : val b <> 0%R -> rounds up (val a / val b) (val (m_div up a b));
  val_inv up a : val a <> 0%R -> rounds up (/ val a) (val (m_inv up a));
  (* repeated multiplication rounds in one direction only when no factor is negative *)
  val_power up a n : val a <> 0%R \/ n <> 0%nat ->
    m_precise = true \/ (0 <= val a)%R \/ (n <= 2)%nat ->
    rounds up (val a ^ n) (val (m_power up a n)) }.

(** ** A precise instance: rational numbers *)

Section QNum.
Local Open Scope Q_scope.
Definition Qlt_bool (a b : Q) : bool := negb (Qle_bool b a).
#[export] Instance QNum : NumManager Q := {
  m_precise := true;
  m_zero := 0;
  m_of_int _ z := inject_Z z;
  m_of_frac _ n d := Qred (inject_Z n / inject_Z d);
  m_is_zero a := Qeq_bool a 0;
  m_is_pos a := Qlt_bool 0 a;
  m_is_neg a := Qlt_bool a 0;
  m_is_one a := Qeq_bool a 1;
  m_is_minus_one a := Qeq_bool a (-1);
  m_eq := Qeq_bool;
  m_lt := Qlt_bool;
  m_neg := Qopp;
  m_abs a := if Qlt_bool a 0 then - a else a;
  m_dec _ a := Qred (a - 1);
  m_add _ a b := Qred (a + b);
  m_sub _ a b := Qred (a - b);
  m_mul _ a b := Qred (a * b);
  m_div _ a b := Qred (a / b);
  m_inv _ a := Qred (/ a);
  m_power _ a n := Qred (Qpower a (Z.of_nat n));
  m_prev_power_of_two a := Z.to_nat (Z.log2 (Qfloor a)) }.
End QNum.

(** ** An imprecise instance: multiples of a quarter *)

Section GridNum.
Record grid := Grid { quarters : Z }.
Definition gdiv (up : bool) (a b : Z) : Z := if up then - ((- a) / b) else a / b.
Definition gmul (up : bool) (a b : grid) : grid := Grid (gdiv up (quarters a * quarters b) 4).
(** Repeated multiplication, as in the floating and fixed point managers. *)
Fixpoint gpow (up : bool) (a : grid) (n : nat) : grid :=
  match n with
  | O => Grid 4
  | S O => a
  | S n' => gmul up a (gpow up a n')
  end.
#[export] Instance GridNum : NumManager grid := {
  m_precise := false;
  m_zero := Grid 0;
  m_of_int _ z := Grid (4 * z);
  m_of_frac up n d := Grid (gdiv up (4 * n) d);
  m_is_zero a := quarters a =? 0;
  m_is_pos a := 0 <? quarters a;
  m_is_neg a := quarters a <? 0;
  m_is_one a := quarters a =? 4;
  m_is_minus_one a := quarters a =? -4;
  m_eq a b := quarters a =? quarters b;
  m_lt a b := quarters a <? quarters b;
  m_neg a := Grid (- quarters a);
  m_abs a := Grid (Z.abs (quarters a));
  m_dec _ a := Grid (quarters a - 4);
  m_add _ a b := Grid (quarters a + quarters b);
  m_sub _ a b := Grid (quarters a - quarters b);
  m_mul := gmul;
  m_div up a b := Grid (if quarters b <? 0 then gdiv up (4 * - quarters a) (- quarters b)
                        else gdiv up (4 * quarters a) (quarters b));
  m_inv up a := Grid (if quarters a <? 0 then gdiv up (-16) (- quarters a) else gdiv up 16 (quarters a));
  m_power := gpow;
  m_prev_power_of_two a := Z.to_nat (Z.log2 (quarters a / 4)) }.
End GridNum.

(** ** Extended numerals *)

Inductive ext_numeral_kind : Type := EN_MINUS_INFINITY | EN_NUMERAL | EN_PLUS_INFINITY.

#[export] Instance ext_numeral_kind_eq_dec : EqDecision ext_numeral_kind.
Proof. solve_decision. Defined.

Module ext_numeral.
Section ExtNumeral.
Context {num : Type} `{NumManager num}.

Definition is_numeral (k : ext_numeral_kind) : bool := bool_decide (k = EN_NUMERAL).
Definition is_zero (a : num) (ak : ext_numeral_kind) : bool := is_numeral ak && m_is_zero a.
Definition is_pos (a : num) (ak : ext_numeral_kind) : bool :=
  bool_decide (ak = EN_PLUS_INFINITY) || (is_numeral ak && m_is_pos a).
Definition is_neg (a : num) (ak : ext_numeral_kind) : bool :=
  bool_decide (ak = EN_MINUS_INFINITY) || (is_numeral ak && m_is_neg a).
Definition is_infinite (ak : ext_numeral_kind) : bool := negb (is_numeral ak).

Definition neg (a : num) (ak : ext_numeral_kind) : num * ext_numeral_kind :=
  match ak with
  | EN_MINUS_INFINITY => (a, EN_PLUS_INFINITY)
  | EN_NUMERAL => (m_neg a, EN_NUMERAL)
  | EN_PLUS_INFINITY => (a, EN_MINUS_INFINITY)
  end.

Definition inv (up : bool) (a : num) (ak : ext_numeral_kind) : num * ext_numeral_kind :=
  match ak with
  | EN_MINUS_INFINITY => (m_zero, EN_NUMERAL)
  | EN_NUMERAL => (m_inv up a, EN_NUMERAL)
  | EN_PLUS_INFINITY => (m_zero, EN_NUMERAL)
  end.

Definition add (up : bool) (a : num) (ak : ext_numeral_kind) (b : num) (bk : ext_numeral_kind)
    : num * ext_numeral_kind :=
  if negb (is_numeral ak) then (m_zero, ak)
  else if negb (is_numeral bk) then (m_zero, bk)
  else (m_add up a b, EN_NUMERAL).

Definition sub (up : bool) (a : num) (ak : ext_numeral_kind) (b : num) (bk : ext_numeral_kind)
    : num * ext_numeral_kind :=
  if negb (is_numeral ak) then (m_zero, ak)
  else match bk with
       | EN_MINUS_INFINITY => (m_zero, EN_PLUS_INFINITY)
       | EN_NUMERAL => (m_sub up a b, EN_NUMERAL)
       | EN_PLUS_INFINITY => (m_zero, EN_MINUS_INFINITY)
       end.

Definition mul (up : bool) (a : num) (ak : ext_numeral_kind) (b : num) (bk : ext_numeral_kind)
    : num * ext_numeral_kind :=
  if is_zero a ak || is_zero b bk then (m_zero, EN_NUMERAL)
  else if is_infinite ak || is_infinite bk then
    (m_zero, if eqb (is_pos a ak) (is_pos b bk) then EN_PLUS_INFINITY else EN_MINUS_INFINITY)
  else (m_mul up a b, EN_NUMERAL).

Definition div (up : bool) (a : num) (ak : ext_numeral_kind) (b : num) (bk : ext_numeral_kind)
    : num * ext_numeral_kind :=
  if is_zero a ak then (m_zero, EN_NUMERAL)
  else if is_infinite ak then
    (m_zero, if eqb (is_pos a ak) (is_pos b bk) then EN_PLUS_INFINITY else EN_MINUS_INFINITY)
  else if is_infinite bk then (m_zero, EN_NUMERAL)
  else (m_div up a b, EN_NUMERAL).

Definition power (up : bool) (a : num) (ak : ext_numeral_kind) (n : nat) : num * ext_numeral_kind :=
  match ak with
  | EN_MINUS_INFINITY => (a, if Nat.even n then EN_PLUS_INFINITY else EN_MINUS_INFINITY)
  | EN_NUMERAL => (m_power up a n, EN_NUMERAL)
  | EN_PLUS_INFINITY => (a, EN_PLUS_INFINITY)
  end.

Definition eq (a : num) (ak : ext_numeral_kind) (b : num) (bk : ext_numeral_kind) : bool :=
  if is_numeral ak then is_numeral bk && m_eq a b else bool_decide (ak = bk).
Definition neq (a : num) (ak : ext_numeral_kind) (b : num) (bk : ext_numeral_kind) : bool :=
  negb (eq a ak b bk).

Definition lt (a : num) (ak : ext_numeral_kind) (b : num) (bk : ext_numeral_kind) : bool :=
  match ak with
  | EN_MINUS_INFINITY => negb (bool_decide (bk = EN_MINUS_INFINITY))
  | EN_NUMERAL =>
      match bk with
      | EN_MINUS_INFINITY => false
      | EN_NUMERAL => m_lt a b
      | EN_PLUS_INFINITY => true
      end
  | EN_PLUS_INFINITY => false
  end.
Definition gt (a : num) (ak : ext_numeral_kind) (b : num) (bk : ext_numeral_kind) : bool := lt b bk a ak.
Definition le (a : num) (ak : ext_numeral_kind) (b : num) (bk : ext_numeral_kind) : bool :=
  negb (gt a ak b bk).
Definition ge (a : num) (ak : ext_numeral_kind) (b : num) (bk : ext_numeral_kind) : bool :=
  negb (lt a ak b bk).

End ExtNumeral.
End ext_numeral.

(** ** The instances satisfy the laws *)

Definition gval (a : grid) : R := (IZR (quarters a) / 4)%R.

Lemma Qlt_bool_iff a b : Qlt_bool a b = true <-> (Q2R a < Q2R b)%R.
Proof.
  unfold Qlt_bool. rewrite negb_true_iff, <- not_true_iff_false, Qle_bool_iff. split.
  - intros E. apply Qlt_Rlt. by apply Qnot_le_lt.
  - intros E F. apply Qle_Rle in F. lra.
Qed.

Lemma Qeq_bool_R a b : Qeq_bool a b = true <-> Q2R a = Q2R b.
Proof. rewrite Qeq_bool_iff. split; [apply Qeq_eqR | apply eqR_Qeq]. Qed.

Lemma Q2R_red a : Q2R (Qred a) = Q2R a.
Proof. apply Qeq_eqR, Qred_correct. Qed.

Lemma Q2R_inject z : Q2R (inject_Z z) = IZR z.
Proof. unfold Q2R, inject_Z; simpl. field. Qed.

Lemma Q2R_nonzero a : Q2R a <> 0%R -> ~ (a == 0)%Q.
Proof. intros Ha E. apply Ha. rewrite (Qeq_eqR _ _ E). unfold Q2R; simpl; lra. Qed.

Lemma Q2R_power a n : Q2R (Qpower a (Z.of_nat n)) = (Q2R a ^ n)%R.
Proof.
  induction n as [|n IH]; [unfold Q2R; simpl; lra|].
  rewrite Nat2Z.inj_succ. unfold Z.succ.
  rewrite (Qeq_eqR (a ^ (Z.of_nat n + 1)) (a ^ Z.of_nat n * a)).
  - rewrite Q2R_mult, IH. simpl. ring.
  - rewrite Qpower_plus'; [|lia]. reflexivity.
Qed.

Lemma rounds_exact {num} `{NumManager num} up r v : v = r -> rounds up r v.
Proof. intros ->. split; [done|]. destruct up; lra. Qed.

Lemma Q2R_abs a : Q2R (if Qlt_bool a 0 then (- a)%Q else a) = Rabs (Q2R a).
Proof.
  assert (E0 : Q2R 0 = 0%R) by (unfold Q2R; simpl; lra).
  destruct (Qlt_bool a 0) eqn:E.
  - apply Qlt_bool_iff in E. rewrite Q2R_opp, Rabs_left; lra.
  - apply not_true_iff_false in E. rewrite Qlt_bool_iff in E. rewrite Rabs_pos_eq; lra.
Qed.

#[export] Instance QNum_laws : NumLaws (num := Q) Q2R.
Proof.
  assert (E0 : Q2R 0 = 0%R) by (unfold Q2R; simpl; lra).
  assert (E1 : Q2R 1 = 1%R) by (unfold Q2R; simpl; lra).
  assert (Em : Q2R (-1) = (-1)%R) by (unfold Q2R; simpl; lra).
  constructor; intros; cbn; try (match goal with |- rounds _ _ _ => apply rounds_exact end); rewrite ?Q2R_red.
  - exact E0.
  - apply Q2R_inject.
  - rewrite Q2R_div, !Q2R_inject; [done|]. intros E. apply Qeq_eqR in E. rewrite Q2R_inject, E0 in E.
    apply eq_IZR in E. lia.
  - by rewrite Qeq_bool_R, E0.
  - by rewrite Qlt_bool_iff, E0.
  - by rewrite Qlt_bool_iff, E0.
  - by rewrite Qeq_bool_R, E1.
  - by rewrite Qeq_bool_R, Em.
  - apply Qeq_bool_R.
  - apply Qlt_bool_iff.
  - apply Q2R_opp.
  - apply Q2R_abs.
  - by rewrite Q2R_minus, E1.
  - apply Q2R_plus.
  - apply Q2R_minus.
  - apply Q2R_mult.
  - apply Q2R_div. by apply Q2R_nonzero.
  - apply Q2R_inv. by apply Q2R_nonzero.
  - apply Q2R_power.
Qed.

Lemma gdiv_spec (up : bool) a b : (0 < b)%Z -> if up then (a <= b * gdiv up a b)%Z else (b * gdiv up a b <= a)%Z.
Proof.
  intros Hb. unfold gdiv. destruct up.
  - pose proof (Z.mul_div_le (- a) b Hb). lia.
  - by apply Z.mul_div_le.
Qed.

Lemma rounds_grid up (r : R) a b :
  (0 < b)%Z -> (r * 4 = IZR a / IZR b)%R -> rounds up r (gval (Grid (gdiv up a b))).
Proof.
  intros Hb E. split; [done|]. pose proof (gdiv_spec up a b Hb) as D.
  assert (Hb' : (0 < IZR b)%R) by (by apply IZR_lt).
  assert (E2 : (r * 4 * IZR b = IZR a)%R) by (rewrite E; field; lra).
  unfold gval; simpl. destruct up; apply IZR_le in D; rewrite mult_IZR in D; nra.
Qed.

Lemma gmul_rounds up a b : rounds up (gval a * gval b) (gval (gmul up a b)).
Proof. apply rounds_grid; [lia|]. unfold gval. rewrite mult_IZR. field. Qed.

Lemma gpow_rounds up a n : (0 <= gval a)%R -> rounds up (gval a ^ n) (gval (gpow up a n)).
Proof.
  intros Ha. split; [done|]. induction n as [|[|n] IH].
  - unfold gval; simpl. destruct up; lra.
  - simpl. destruct up; lra.
  - change (gpow up a (S (S n))) with (gmul up a (gpow up a (S n))).
    destruct (gmul_rounds up a (gpow up a (S n))) as [_ M].
    change (gval a ^ S (S n))%R with (gval a * gval a ^ S n)%R.
    destruct up; nra.
Qed.

#[export] Instance GridNum_laws : NumLaws gval.
Proof.
  constructor; intros; cbn.
  - unfold gval; simpl; lra.
  - apply rounds_exact. unfold gval; simpl quarters. rewrite mult_IZR. field.
  - apply rounds_grid; [done|]. rewrite mult_IZR. field. apply not_0_IZR. lia.
  - unfold gval. rewrite Z.eqb_eq. split; [intros ->; lra|]. intros E. apply eq_IZR. lra.
  - unfold gval. rewrite Z.ltb_lt. split; intros E; [apply IZR_lt in E; lra | apply lt_IZR; lra].
  - unfold gval. rewrite Z.ltb_lt. split; intros E; [apply IZR_lt in E; lra | apply lt_IZR; lra].
  - unfold gval. rewrite Z.eqb_eq. split; [intros ->; lra|]. intros E. apply eq_IZR. lra.
  - unfold gval. rewrite Z.eqb_eq. split; [intros ->; lra|]. intros E. apply eq_IZR. lra.
  - unfold gval. rewrite Z.eqb_eq. split; [intros ->; lra|]. intros E. apply eq_IZR. lra.
  - unfold gval. rewrite Z.ltb_lt. split; intros E; [apply IZR_lt in E; lra | apply lt_IZR; lra].
  - unfold gval; simpl quarters. rewrite opp_IZR. field.
  - unfold gval; simpl quarters. unfold Rdiv. rewrite abs_IZR, Rabs_mult, Rabs_inv, (Rabs_pos_eq 4) by lra. done.
  - apply rounds_exact. unfold gval; simpl quarters. rewrite minus_IZR. field.
  - apply rounds_exact. unfold gval; simpl quarters. rewrite plus_IZR. field.
  - apply rounds_exact. unfold gval; simpl quarters. rewrite minus_IZR. field.
  - apply gmul_rounds.
  - assert (Hb : quarters b <> 0) by (intros E; apply H; unfold gval; rewrite E; lra).
    assert (Hb' : IZR (quarters b) <> 0%R) by (by apply not_0_IZR).
    destruct (Z.ltb_spec (quarters b) 0); apply rounds_grid; try lia;
      unfold gval; rewrite ?mult_IZR, ?opp_IZR; field; lra.
  - assert (Ha : quarters a <> 0) by (intros E; apply H; unfold gval; rewrite E; lra).
    assert (Ha' : IZR (quarters a) <> 0%R) by (by apply not_0_IZR).
    destruct (Z.ltb_spec (quarters a) 0); apply rounds_grid; try lia;
      unfold gval; rewrite ?opp_IZR; field; lra.
  - destruct H0 as [H0|[H0|H0]]; [done | by apply gpow_rounds |].
    destruct n as [|[|[|n]]]; [| | |lia].
    + apply rounds_exact. unfold gval; simpl; lra.
    + apply rounds_exact. simpl. lra.
    + cbn [gpow]. replace (gval a ^ 2)%R with (gval a * gval a)%R by (simpl; ring). apply gmul_rounds.
Qed.
