(* ===== verification/Interval.v ===== *)
(** * Interval: the interval manager ([math/interval/interval.h], [interval_def.h])

    One definition per member of [interval_manager<C>], over a numeral manager ([NumManager]).  Intervals
    are objects addressed by reference and the same reference may be passed twice, so operations act on a
    store: one function from references to values for each field of an interval, as the getters and
    setters of the configuration [C] see it.  The value of an infinite bound is whatever was there.  The
    state also has the rounding mode of the configuration and the resource limit of [util/rlimit.h].
    The scratch numerals of the manager ([m_result_lower], ...) are written before they are read and are
    local names here; a [swap] with one of them is an assignment. *)
From S2P Require Import Prelude.
From S2P Require Import ExtNumeral.
From Stdlib Require Import ZArith Lia.
From stdpp Require Import base tactics option list numbers functions.
Close Scope word_scope.
Open Scope Z_scope.

(** ** The resource limit *)

Record reslimit := Reslimit {
  m_cancel : Z; m_suspend : bool; m_count : Z; m_limit : Z; m_limits : list Z }.

Module rlimit.
Definition not_canceled (r : reslimit) : bool :=
  ((m_cancel r =? 0) && (m_count r <=? m_limit r)) || m_suspend r.
Definition is_canceled (r : reslimit) : bool := negb (not_canceled r).
Definition inc (r : reslimit) : bool * reslimit :=
  let r := Reslimit (m_cancel r) (m_suspend r) (u64 (m_count r + 1)) (m_limit r) (m_limits r) in
  (not_canceled r, r).
End rlimit.

(** ** Intervals *)

Definition loc := nat.
Bind Scope nat_scope with loc.

Record imstate (num : Type) := IMState {
  im_up : bool;
  im_limit : reslimit;
  im_lower : loc -> num;
  im_upper : loc -> num;
  im_lower_open : loc -> bool;
  im_upper_open : loc -> bool;
  im_lower_inf : loc -> bool;
  im_upper_inf : loc -> bool }.
Arguments IMState {num}.
Arguments im_up {num}.
Arguments im_limit {num}.
Arguments im_lower {num}.
Arguments im_upper {num}.
Arguments im_lower_open {num}.
Arguments im_upper_open {num}.
Arguments im_lower_inf {num}.
Arguments im_upper_inf {num}.

(** [deps_combine_rule] is a set of four flags. *)
Record deps_combine_rule := Deps {
  dep_in_lower1 : bool; dep_in_upper1 : bool; dep_in_lower2 : bool; dep_in_upper2 : bool }.
Definition no_deps : deps_combine_rule := Deps false false false false.
Definition DEP_IN_LOWER1 : deps_combine_rule := Deps true false false false.
Definition DEP_IN_UPPER1 : deps_combine_rule := Deps false true false false.
Definition DEP_IN_LOWER2 : deps_combine_rule := Deps false false true false.
Definition DEP_IN_UPPER2 : deps_combine_rule := Deps false false false true.
Definition deps_or (d e : deps_combine_rule) : deps_combine_rule :=
  Deps (dep_in_lower1 d || dep_in_lower1 e) (dep_in_upper1 d || dep_in_upper1 e)
       (dep_in_lower2 d || dep_in_lower2 e) (dep_in_upper2 d || dep_in_upper2 e).
Declare Scope deps_scope.
Delimit Scope deps_scope with deps.
Notation "d ∣∣ e" := (deps_or d e) (at level 50, left associativity) : deps_scope.

Record interval_deps_combine_rule := IntervalDeps {
  m_lower_combine : deps_combine_rule; m_upper_combine : deps_combine_rule }.

Module interval_manager.
Section Manager.
Context {num : Type} `{NumManager num}.
Abbreviation state := (imstate num).


(** *** The configuration *)

Definition round_to_minus_inf (s : state) : state :=
  IMState false (im_limit s) (im_lower s) (im_upper s) (im_lower_open s) (im_upper_open s)
          (im_lower_inf s) (im_upper_inf s).
Definition round_to_plus_inf (s : state) : state :=
  IMState true (im_limit s) (im_lower s) (im_upper s) (im_lower_open s) (im_upper_open s)
          (im_lower_inf s) (im_upper_inf s).
Definition set_rounding (to_plus_inf : bool) (s : state) : state :=
  if to_plus_inf then round_to_plus_inf s else round_to_minus_inf s.

Definition lower (s : state) (a : loc) : num := im_lower s a.
Definition upper (s : state) (a : loc) : num := im_upper s a.
Definition lower_is_open (s : state) (a : loc) : bool := im_lower_open s a.
Definition upper_is_open (s : state) (a : loc) : bool := im_upper_open s a.
Definition lower_is_inf (s : state) (a : loc) : bool := im_lower_inf s a.
Definition upper_is_inf (s : state) (a : loc) : bool := im_upper_inf s a.

Definition set_lower (a : loc) (n : num) (s : state) : state :=
  IMState (im_up s) (im_limit s) (<[a:=n]> (im_lower s)) (im_upper s) (im_lower_open s) (im_upper_open s)
          (im_lower_inf s) (im_upper_inf s).
Definition set_upper (a : loc) (n : num) (s : state) : state :=
  IMState (im_up s) (im_limit s) (im_lower s) (<[a:=n]> (im_upper s)) (im_lower_open s) (im_upper_open s)
          (im_lower_inf s) (im_upper_inf s).
Definition set_lower_is_open (a : loc) (v : bool) (s : state) : state :=
  IMState (im_up s) (im_limit s) (im_lower s) (im_upper s) (<[a:=v]> (im_lower_open s)) (im_upper_open s)
          (im_lower_inf s) (im_upper_inf s).
Definition set_upper_is_open (a : loc) (v : bool) (s : state) : state :=
  IMState (im_up s) (im_limit s) (im_lower s) (im_upper s) (im_lower_open s) (<[a:=v]> (im_upper_open s))
          (im_lower_inf s) (im_upper_inf s).
Definition set_lower_is_inf (a : loc) (v : bool) (s : state) : state :=
  IMState (im_up s) (im_limit s) (im_lower s) (im_upper s) (im_lower_open s) (im_upper_open s)
          (<[a:=v]> (im_lower_inf s)) (im_upper_inf s).
Definition set_upper_is_inf (a : loc) (v : bool) (s : state) : state :=
  IMState (im_up s) (im_limit s) (im_lower s) (im_upper s) (im_lower_open s) (im_upper_open s)
          (im_lower_inf s) (<[a:=v]> (im_upper_inf s)).
Definition set_limit (l : reslimit) (s : state) : state :=
  IMState (im_up s) l (im_lower s) (im_upper s) (im_lower_open s) (im_upper_open s)
          (im_lower_inf s) (im_upper_inf s).

(** *** Tests *)

Definition lower_kind (s : state) (a : loc) : ext_numeral_kind :=
  if lower_is_inf s a then EN_MINUS_INFINITY else EN_NUMERAL.
Definition upper_kind (s : state) (a : loc) : ext_numeral_kind :=
  if upper_is_inf s a then EN_PLUS_INFINITY else EN_NUMERAL.

Definition lower_is_neg (s : state) (a : loc) : bool := ext_numeral.is_neg (lower s a) (lower_kind s a).
Definition lower_is_pos (s : state) (a : loc) : bool := ext_numeral.is_pos (lower s a) (lower_kind s a).
Definition lower_is_zero (s : state) (a : loc) : bool := ext_numeral.is_zero (lower s a) (lower_kind s a).
Definition upper_is_neg (s : state) (a : loc) : bool := ext_numeral.is_neg (upper s a) (upper_kind s a).
Definition upper_is_pos (s : state) (a : loc) : bool := ext_numeral.is_pos (upper s a) (upper_kind s a).
Definition upper_is_zero (s : state) (a : loc) : bool := ext_numeral.is_zero (upper s a) (upper_kind s a).

Definition is_P (s : state) (n : loc) : bool := lower_is_pos s n || lower_is_zero s n.
Definition is_P0 (s : state) (n : loc) : bool := lower_is_zero s n && negb (lower_is_open s n).
Definition is_P1 (s : state) (n : loc) : bool :=
  lower_is_pos s n || (lower_is_zero s n && lower_is_open s n).
Definition is_N (s : state) (n : loc) : bool := upper_is_neg s n || upper_is_zero s n.
Definition is_N0 (s : state) (n : loc) : bool := upper_is_zero s n && negb (upper_is_open s n).
Definition is_N1 (s : state) (n : loc) : bool :=
  upper_is_neg s n || (upper_is_zero s n && upper_is_open s n).
Definition is_M (s : state) (n : loc) : bool := lower_is_neg s n && upper_is_pos s n.
Definition is_zero (s : state) (n : loc) : bool := lower_is_zero s n && upper_is_zero s n.

Definition contains_zero (s : state) (n : loc) : bool :=
  (lower_is_neg s n || (lower_is_zero s n && negb (lower_is_open s n))) &&
  (upper_is_pos s n || (upper_is_zero s n && negb (upper_is_open s n))).

Definition contains (s : state) (n : loc) (v : num) : bool :=
  if negb (lower_is_inf s n) && m_lt v (lower s n) then false
  else if negb (lower_is_inf s n) && (m_eq v (lower s n) && lower_is_open s n) then false
  else if negb (upper_is_inf s n) && m_gt v (upper s n) then false
  else if negb (upper_is_inf s n) && (m_eq v (upper s n) && upper_is_open s n) then false
  else true.

(** The assertions of [check_invariant]: [true] when none of them fails. *)
Definition check_invariant (s : state) (n : loc) : bool :=
  if ext_numeral.eq (lower s n) (lower_kind s n) (upper s n) (upper_kind s n)
  then negb (lower_is_open s n) && negb (upper_is_open s n)
  else ext_numeral.lt (lower s n) (lower_kind s n) (upper s n) (upper_kind s n).

Definition eq (s : state) (a b : loc) : bool :=
  ext_numeral.eq (lower s a) (lower_kind s a) (lower s b) (lower_kind s b) &&
  ext_numeral.eq (upper s a) (upper_kind s a) (upper s b) (upper_kind s b) &&
  eqb (lower_is_open s a) (lower_is_open s b) &&
  eqb (upper_is_open s a) (upper_is_open s b).

Definition before (s : state) (a b : loc) : bool :=
  if upper_is_inf s a || lower_is_inf s b then false
  else m_lt (upper s a) (lower s b) || (upper_is_open s a && m_eq (upper s a) (lower s b)).

(** *** Assignments *)

Definition reset_lower (a : loc) (s : state) : state :=
  let s := set_lower a m_zero s in
  let s := set_lower_is_open a true s in
  set_lower_is_inf a true s.
Definition reset_upper (a : loc) (s : state) : state :=
  let s := set_upper a m_zero s in
  let s := set_upper_is_open a true s in
  set_upper_is_inf a true s.
Definition reset (a : loc) (s : state) : state := reset_upper a (reset_lower a s).

Definition set (t s0 : loc) (s : state) : state :=
  if bool_decide (t = s0) then s
  else
    let s := if lower_is_inf s s0 then set_lower_is_inf t true s
             else set_lower_is_inf t false (set_lower t (lower s s0) s) in
    let s := if upper_is_inf s s0 then set_upper_is_inf t true s
             else set_upper_is_inf t false (set_upper t (upper s s0) s) in
    let s := set_lower_is_open t (lower_is_open s s0) s in
    set_upper_is_open t (upper_is_open s s0) s.

Definition set_value (t : loc) (n : num) (s : state) : state :=
  let s := set_lower t n s in
  let s := set_lower_is_inf t false s in
  let s := set_upper t n s in
  let s := set_upper_is_inf t false s in
  let s := set_lower_is_open t false s in
  set_upper_is_open t false s.

(** *** Negation *)

Definition neg_jst (s : state) (a : loc) : interval_deps_combine_rule :=
  if lower_is_inf s a then
    if upper_is_inf s a then IntervalDeps no_deps no_deps
    else IntervalDeps DEP_IN_UPPER1 no_deps
  else
    if upper_is_inf s a then IntervalDeps no_deps DEP_IN_LOWER1
    else IntervalDeps DEP_IN_UPPER1 DEP_IN_LOWER1.

Definition neg (a b : loc) (s : state) : state :=
  if lower_is_inf s a then
    if upper_is_inf s a then reset b s
    else
      let s := set_lower b (upper s a) s in
      let s := set_lower b (m_neg (lower s b)) s in
      let s := set_lower_is_inf b false s in
      let s := set_lower_is_open b (upper_is_open s a) s in
      let s := set_upper b m_zero s in
      let s := set_upper_is_inf b true s in
      set_upper_is_open b true s
  else
    if upper_is_inf s a then
      let s := set_upper b (lower s a) s in
      let s := set_upper b (m_neg (upper s b)) s in
      let s := set_upper_is_inf b false s in
      let s := set_upper_is_open b (lower_is_open s a) s in
      let s := set_lower b m_zero s in
      let s := set_lower_is_inf b true s in
      set_lower_is_open b true s
    else
      let s :=
        if bool_decide (a = b) then
          let l := lower s b in set_upper b l (set_lower b (upper s b) s)
        else set_upper b (lower s a) (set_lower b (upper s a) s) in
      let s := set_lower b (m_neg (lower s b)) s in
      let s := set_upper b (m_neg (upper s b)) s in
      let s := set_lower_is_inf b false s in
      let s := set_upper_is_inf b false s in
      let l_o := lower_is_open s a in
      let u_o := upper_is_open s a in
      let s := set_lower_is_open b u_o s in
      set_upper_is_open b l_o s.

(** *** Sums and differences *)

Definition is_minus_inf (k : ext_numeral_kind) : bool := bool_decide (k = EN_MINUS_INFINITY).
Definition is_plus_inf (k : ext_numeral_kind) : bool := bool_decide (k = EN_PLUS_INFINITY).

Definition add_jst (s : state) (a b : loc) : interval_deps_combine_rule :=
  IntervalDeps (DEP_IN_LOWER1 ∣∣ DEP_IN_LOWER2)%deps (DEP_IN_UPPER1 ∣∣ DEP_IN_UPPER2)%deps.

Definition add (a b c : loc) (s : state) : state :=
  let s := round_to_minus_inf s in
  let '(l, new_l_kind) :=
    ext_numeral.add (im_up s) (lower s a) (lower_kind s a) (lower s b) (lower_kind s b) in
  let s := set_lower c l s in
  let s := round_to_plus_inf s in
  let '(u, new_u_kind) :=
    ext_numeral.add (im_up s) (upper s a) (upper_kind s a) (upper s b) (upper_kind s b) in
  let s := set_upper c u s in
  let s := set_lower_is_inf c (is_minus_inf new_l_kind) s in
  let s := set_upper_is_inf c (is_plus_inf new_u_kind) s in
  let s := set_lower_is_open c (lower_is_open s a || lower_is_open s b) s in
  set_upper_is_open c (upper_is_open s a || upper_is_open s b) s.

Definition sub_jst (s : state) (a b : loc) : interval_deps_combine_rule :=
  IntervalDeps (DEP_IN_LOWER1 ∣∣ DEP_IN_UPPER2)%deps (DEP_IN_UPPER1 ∣∣ DEP_IN_LOWER2)%deps.

Definition sub (a b c : loc) (s : state) : state :=
  let s := round_to_minus_inf s in
  let '(l, new_l_kind) :=
    ext_numeral.sub (im_up s) (lower s a) (lower_kind s a) (upper s b) (upper_kind s b) in
  let s := set_lower c l s in
  let s := round_to_plus_inf s in
  let '(u, new_u_kind) :=
    ext_numeral.sub (im_up s) (upper s a) (upper_kind s a) (lower s b) (lower_kind s b) in
  let s := set_upper c u s in
  let s := set_lower_is_inf c (is_minus_inf new_l_kind) s in
  let s := set_upper_is_inf c (is_plus_inf new_u_kind) s in
  let s := set_lower_is_open c (lower_is_open s a || upper_is_open s b) s in
  set_upper_is_open c (upper_is_open s a || lower_is_open s b) s.

(** The last steps shared by the operations: the new bounds into the result. *)
Definition set_bounds (r : loc) (l : num * ext_numeral_kind) (u : num * ext_numeral_kind) (s : state)
    : state :=
  let s := set_lower r (fst l) s in
  let s := set_upper r (fst u) s in
  let s := set_lower_is_inf r (is_minus_inf (snd l)) s in
  set_upper_is_inf r (is_plus_inf (snd u)) s.

(** *** Products and quotients by a number *)

Definition mul_k_jst (s : state) (k : num) (a : loc) : interval_deps_combine_rule :=
  if m_is_zero k then IntervalDeps no_deps no_deps
  else if m_is_neg k then IntervalDeps DEP_IN_UPPER1 DEP_IN_LOWER1
  else IntervalDeps DEP_IN_LOWER1 DEP_IN_UPPER1.

Definition div_mul (k : num) (a b : loc) (inv_k : bool) (s : state) : state :=
  if m_is_zero k then reset b s
  else
    let l := lower s a in let l_k := lower_kind s a in
    let u := upper s a in let u_k := upper_kind s a in
    let l_o := lower_is_open s a in
    let u_o := upper_is_open s a in
    let '(s, new_l, new_u) :=
      if m_is_pos k then
        let s := set_lower_is_open b l_o s in
        let s := set_upper_is_open b u_o s in
        if inv_k then
          let s := round_to_minus_inf s in
          let m_inv_k := m_inv (im_up s) k in
          let new_l := ext_numeral.mul (im_up s) l l_k m_inv_k EN_NUMERAL in
          let s := round_to_plus_inf s in
          let m_inv_k := m_inv (im_up s) k in
          let new_u := ext_numeral.mul (im_up s) u u_k m_inv_k EN_NUMERAL in
          (s, new_l, new_u)
        else
          let s := round_to_minus_inf s in
          let new_l := ext_numeral.mul (im_up s) l l_k k EN_NUMERAL in
          let s := round_to_plus_inf s in
          let new_u := ext_numeral.mul (im_up s) u u_k k EN_NUMERAL in
          (s, new_l, new_u)
      else
        let s := set_lower_is_open b u_o s in
        let s := set_upper_is_open b l_o s in
        if inv_k then
          let s := round_to_minus_inf s in
          let m_inv_k := m_inv (im_up s) k in
          let new_l := ext_numeral.mul (im_up s) u u_k m_inv_k EN_NUMERAL in
          let s := round_to_plus_inf s in
          let m_inv_k := m_inv (im_up s) k in
          let new_u := ext_numeral.mul (im_up s) l l_k m_inv_k EN_NUMERAL in
          (s, new_l, new_u)
        else
          let s := round_to_minus_inf s in
          let new_l := ext_numeral.mul (im_up s) u u_k k EN_NUMERAL in
          let s := round_to_plus_inf s in
          let new_u := ext_numeral.mul (im_up s) l l_k k EN_NUMERAL in
          (s, new_l, new_u) in
    set_bounds b new_l new_u s.

Definition mul_k (k : num) (a b : loc) (s : state) : state := div_mul k a b false s.
Definition mul_frac (n d : Z) (a b : loc) (s : state) : state := mul_k (m_of_frac (im_up s) n d) a b s.
Definition div_k (a : loc) (k : num) (b : loc) (s : state) : state := div_mul k a b true s.
Definition div_k_jst (s : state) (a : loc) (k : num) : interval_deps_combine_rule := mul_k_jst s k a.

(** *** Products *)

Definition mul_jst (s : state) (i1 i2 : loc) : interval_deps_combine_rule :=
  let l1 := DEP_IN_LOWER1 in let u1 := DEP_IN_UPPER1 in
  let l2 := DEP_IN_LOWER2 in let u2 := DEP_IN_UPPER2 in
  if is_zero s i1 then IntervalDeps (l1 ∣∣ u1)%deps (l1 ∣∣ u1)%deps
  else if is_zero s i2 then IntervalDeps (l2 ∣∣ u2)%deps (l2 ∣∣ u2)%deps
  else if is_N s i1 then
    if is_N s i2 then IntervalDeps (u1 ∣∣ u2)%deps (l1 ∣∣ l2 ∣∣ u1)%deps
    else if is_M s i2 then IntervalDeps (l1 ∣∣ u2 ∣∣ u1)%deps (l1 ∣∣ l2 ∣∣ u1)%deps
    else IntervalDeps (l1 ∣∣ u2 ∣∣ u1)%deps (u1 ∣∣ l2)%deps
  else if is_M s i1 then
    if is_N s i2 then IntervalDeps (u1 ∣∣ l2 ∣∣ u2)%deps (l1 ∣∣ l2 ∣∣ u2)%deps
    else if is_M s i2 then IntervalDeps (l1 ∣∣ u1 ∣∣ l2 ∣∣ u2)%deps (l1 ∣∣ u1 ∣∣ l2 ∣∣ u2)%deps
    else IntervalDeps (l1 ∣∣ u2 ∣∣ l2)%deps (u1 ∣∣ u2 ∣∣ l2)%deps
  else
    if is_N s i2 then IntervalDeps (u1 ∣∣ l2 ∣∣ l1)%deps (l1 ∣∣ u2)%deps
    else if is_M s i2 then IntervalDeps (u1 ∣∣ l2 ∣∣ l1)%deps (u1 ∣∣ u2 ∣∣ l1)%deps
    else IntervalDeps (l1 ∣∣ l2)%deps (u1 ∣∣ u2 ∣∣ l1)%deps.

Definition mul (i1 i2 r : loc) (s : state) : state :=
  if is_zero s i1 then set r i1 s
  else if is_zero s i2 then set r i2 s
  else
    let a := lower s i1 in let a_k := lower_kind s i1 in
    let b := upper s i1 in let b_k := upper_kind s i1 in
    let c := lower s i2 in let c_k := lower_kind s i2 in
    let d := upper s i2 in let d_k := upper_kind s i2 in
    let a_o := lower_is_open s i1 in
    let b_o := upper_is_open s i1 in
    let c_o := lower_is_open s i2 in
    let d_o := upper_is_open s i2 in
    let '(s, new_l, new_u) :=
      if is_N s i1 then
        if is_N s i2 then
          let s := set_lower_is_open r (if is_N0 s i1 || is_N0 s i2 then false else b_o || d_o) s in
          let s := set_upper_is_open r (a_o || c_o) s in
          let s := round_to_minus_inf s in
          let new_l := ext_numeral.mul (im_up s) b b_k d d_k in
          let s := round_to_plus_inf s in
          let new_u := ext_numeral.mul (im_up s) a a_k c c_k in
          (s, new_l, new_u)
        else if is_M s i2 then
          let s := set_lower_is_open r (a_o || d_o) s in
          let s := set_upper_is_open r (a_o || c_o) s in
          let s := round_to_minus_inf s in
          let new_l := ext_numeral.mul (im_up s) a a_k d d_k in
          let s := round_to_plus_inf s in
          let new_u := ext_numeral.mul (im_up s) a a_k c c_k in
          (s, new_l, new_u)
        else
          let s := set_upper_is_open r (if is_N0 s i1 || is_P0 s i2 then false else b_o || c_o) s in
          let s := set_lower_is_open r (a_o || d_o) s in
          let s := round_to_minus_inf s in
          let new_l := ext_numeral.mul (im_up s) a a_k d d_k in
          let s := round_to_plus_inf s in
          let new_u := ext_numeral.mul (im_up s) b b_k c c_k in
          (s, new_l, new_u)
      else if is_M s i1 then
        if is_N s i2 then
          let s := set_lower_is_open r (b_o || c_o) s in
          let s := set_upper_is_open r (a_o || c_o) s in
          let s := round_to_minus_inf s in
          let new_l := ext_numeral.mul (im_up s) b b_k c c_k in
          let s := round_to_plus_inf s in
          let new_u := ext_numeral.mul (im_up s) a a_k c c_k in
          (s, new_l, new_u)
        else if is_M s i2 then
          let ad_o := a_o || d_o in
          let bc_o := b_o || c_o in
          let ac_o := a_o || c_o in
          let bd_o := b_o || d_o in
          let s := round_to_minus_inf s in
          let '(ad, ad_k) := ext_numeral.mul (im_up s) a a_k d d_k in
          let '(bc, bc_k) := ext_numeral.mul (im_up s) b b_k c c_k in
          let s := round_to_plus_inf s in
          let '(ac, ac_k) := ext_numeral.mul (im_up s) a a_k c c_k in
          let '(bd, bd_k) := ext_numeral.mul (im_up s) b b_k d d_k in
          let '(s, new_l) :=
            if ext_numeral.lt ad ad_k bc bc_k
               || (ext_numeral.eq ad ad_k bc bc_k && negb ad_o && bc_o)
            then (set_lower_is_open r ad_o s, (ad, ad_k))
            else (set_lower_is_open r bc_o s, (bc, bc_k)) in
          let '(s, new_u) :=
            if ext_numeral.gt ac ac_k bd bd_k
               || (ext_numeral.eq ac ac_k bd bd_k && negb ac_o && bd_o)
            then (set_upper_is_open r ac_o s, (ac, ac_k))
            else (set_upper_is_open r bd_o s, (bd, bd_k)) in
          (s, new_l, new_u)
        else
          let s := set_lower_is_open r (a_o || d_o) s in
          let s := set_upper_is_open r (b_o || d_o) s in
          let s := round_to_minus_inf s in
          let new_l := ext_numeral.mul (im_up s) a a_k d d_k in
          let s := round_to_plus_inf s in
          let new_u := ext_numeral.mul (im_up s) b b_k d d_k in
          (s, new_l, new_u)
      else
        if is_N s i2 then
          let s := set_upper_is_open r (if is_P0 s i1 || is_N0 s i2 then false else a_o || d_o) s in
          let s := set_lower_is_open r (b_o || c_o) s in
          let s := round_to_minus_inf s in
          let new_l := ext_numeral.mul (im_up s) b b_k c c_k in
          let s := round_to_plus_inf s in
          let new_u := ext_numeral.mul (im_up s) a a_k d d_k in
          (s, new_l, new_u)
        else if is_M s i2 then
          let s := set_lower_is_open r (b_o || c_o) s in
          let s := set_upper_is_open r (b_o || d_o) s in
          let s := round_to_minus_inf s in
          let new_l := ext_numeral.mul (im_up s) b b_k c c_k in
          let s := round_to_plus_inf s in
          let new_u := ext_numeral.mul (im_up s) b b_k d d_k in
          (s, new_l, new_u)
        else
          let s := set_lower_is_open r (if is_P0 s i1 || is_P0 s i2 then false else a_o || c_o) s in
          let s := set_upper_is_open r (b_o || d_o) s in
          let s := round_to_minus_inf s in
          let new_l := ext_numeral.mul (im_up s) a a_k c c_k in
          let s := round_to_plus_inf s in
          let new_u := ext_numeral.mul (im_up s) b b_k d d_k in
          (s, new_l, new_u) in
    set_bounds r new_l new_u s.

(** *** Powers *)

Definition power_jst (s : state) (a : loc) (n : nat) : interval_deps_combine_rule :=
  if (n =? 1)%nat then IntervalDeps DEP_IN_LOWER1 DEP_IN_UPPER1
  else if Nat.even n then
    if lower_is_pos s a then
      IntervalDeps DEP_IN_LOWER1
        (if upper_is_inf s a then no_deps else (DEP_IN_LOWER1 ∣∣ DEP_IN_UPPER1)%deps)
    else if upper_is_neg s a then
      IntervalDeps DEP_IN_UPPER1
        (if lower_is_inf s a then no_deps else (DEP_IN_LOWER1 ∣∣ DEP_IN_UPPER1)%deps)
    else IntervalDeps no_deps (DEP_IN_LOWER1 ∣∣ DEP_IN_UPPER1)%deps
  else
    IntervalDeps (if lower_is_inf s a then no_deps else DEP_IN_LOWER1)
                 (if upper_is_inf s a then no_deps else DEP_IN_UPPER1).

Definition power (a : loc) (n : nat) (b : loc) (s : state) : state :=
  if (n =? 1)%nat then set b a s
  else if Nat.even n then
    if lower_is_pos s a then
      let s := round_to_minus_inf s in
      let s := set_lower b (m_power (im_up s) (lower s a) n) s in
      let s := set_lower_is_inf b false s in
      let s := set_lower_is_open b (lower_is_open s a) s in
      if upper_is_inf s a then reset_upper b s
      else
        let s := round_to_plus_inf s in
        let s := set_upper b (m_power (im_up s) (upper s a) n) s in
        let s := set_upper_is_inf b false s in
        set_upper_is_open b (upper_is_open s a) s
    else if upper_is_neg s a then
      let lower_a_open := lower_is_open s a in
      let upper_a_open := upper_is_open s a in
      let lower_a_inf := lower_is_inf s a in
      let s := set_lower b (lower s a) s in
      let s := set_upper b (upper s a) s in
      let l := lower s b in
      let s := set_upper b l (set_lower b (upper s b) s) in
      let s := round_to_minus_inf s in
      let s := set_lower b (m_power (im_up s) (lower s b) n) s in
      let s := set_lower_is_open b upper_a_open s in
      let s := set_lower_is_inf b false s in
      if lower_a_inf then reset_upper b s
      else
        let s := round_to_plus_inf s in
        let s := set_upper b (m_power (im_up s) (upper s b) n) s in
        let s := set_upper_is_inf b false s in
        set_upper_is_open b lower_a_open s
    else
      let un1_kind := lower_kind s a in let un2_kind := upper_kind s a in
      let un1 := lower s a in let un2 := upper s a in
      let s := round_to_plus_inf s in
      let '(un1, un1_kind) := ext_numeral.power (im_up s) un1 un1_kind n in
      let '(un2, un2_kind) := ext_numeral.power (im_up s) un2 un2_kind n in
      let s :=
        if ext_numeral.gt un1 un1_kind un2 un2_kind
           || (ext_numeral.eq un1 un1_kind un2 un2_kind
               && negb (lower_is_open s a) && upper_is_open s a)
        then
          let s := set_upper b un1 s in
          let s := set_upper_is_inf b (is_plus_inf un1_kind) s in
          set_upper_is_open b (lower_is_open s a) s
        else
          let s := set_upper b un2 s in
          let s := set_upper_is_inf b (is_plus_inf un2_kind) s in
          set_upper_is_open b (upper_is_open s a) s in
      let s := set_lower b m_zero s in
      let s := set_lower_is_inf b false s in
      set_lower_is_open b false s
  else
    let s :=
      if lower_is_inf s a then reset_lower b s
      else
        let s := set_lower b (m_power (im_up s) (lower s a) n) s in
        let s := set_lower_is_inf b false s in
        set_lower_is_open b (lower_is_open s a) s in
    if upper_is_inf s a then reset_upper b s
    else
      let s := set_upper b (m_power (im_up s) (upper s a) n) s in
      let s := set_upper_is_inf b false s in
      set_upper_is_open b (upper_is_open s a) s.

(** *** Inverse and quotients *)

Definition inv_jst (s : state) (a : loc) : option interval_deps_combine_rule :=
  if is_P1 s a then Some (IntervalDeps (DEP_IN_LOWER1 ∣∣ DEP_IN_UPPER1)%deps DEP_IN_LOWER1)
  else if is_N1 s a then Some (IntervalDeps DEP_IN_UPPER1 (DEP_IN_LOWER1 ∣∣ DEP_IN_UPPER1)%deps)
  else None.

(** [None] is the branch the source asserts to be unreachable. *)
Definition inv (a b : loc) (s : state) : option state :=
  if is_P1 s a then
    let s := round_to_minus_inf s in
    let '(new_l_val, new_l_kind) := ext_numeral.inv (im_up s) (upper s a) (upper_kind s a) in
    let new_l_open := upper_is_open s a in
    let s :=
      if lower_is_zero s a then
        let s := set_upper b m_zero s in
        let s := set_upper_is_inf b true s in
        set_upper_is_open b true s
      else
        let s := round_to_plus_inf s in
        let new_u_val := m_inv (im_up s) (lower s a) in
        let s := set_upper b new_u_val s in
        let s := set_upper_is_inf b false s in
        set_upper_is_open b (lower_is_open s a) s in
    let s := set_lower b new_l_val s in
    let s := set_lower_is_inf b false s in
    Some (set_lower_is_open b new_l_open s)
  else if is_N1 s a then
    let s := round_to_plus_inf s in
    let '(new_u_val, new_u_kind) := ext_numeral.inv (im_up s) (lower s a) (lower_kind s a) in
    let new_u_open := lower_is_open s a in
    let s :=
      if upper_is_zero s a then
        let s := set_lower b m_zero s in
        let s := set_lower_is_open b true s in
        set_lower_is_inf b true s
      else
        let s := round_to_minus_inf s in
        let new_l_val := m_inv (im_up s) (upper s a) in
        let s := set_lower b new_l_val s in
        let s := set_lower_is_inf b false s in
        set_lower_is_open b (upper_is_open s a) s in
    let s := set_upper b new_u_val s in
    let s := set_upper_is_inf b false s in
    Some (set_upper_is_open b new_u_open s)
  else None.

Definition div_jst (s : state) (i1 i2 : loc) : interval_deps_combine_rule :=
  let l1 := DEP_IN_LOWER1 in let u1 := DEP_IN_UPPER1 in
  let l2 := DEP_IN_LOWER2 in let u2 := DEP_IN_UPPER2 in
  if is_zero s i1 then
    if is_P1 s i2 then IntervalDeps (l1 ∣∣ l2)%deps (u1 ∣∣ l2)%deps
    else IntervalDeps (u1 ∣∣ u2)%deps (l1 ∣∣ u2)%deps
  else if is_N s i1 then
    if is_N1 s i2 then IntervalDeps (u1 ∣∣ l2 ∣∣ u2)%deps (l1 ∣∣ u2)%deps
    else IntervalDeps (l1 ∣∣ l2)%deps (u1 ∣∣ l2 ∣∣ u2)%deps
  else if is_M s i1 then
    if is_N1 s i2 then IntervalDeps (u1 ∣∣ u2)%deps (l1 ∣∣ u2)%deps
    else IntervalDeps (l1 ∣∣ l2)%deps (u1 ∣∣ l2)%deps
  else
    if is_N1 s i2 then IntervalDeps (u1 ∣∣ u2)%deps (l1 ∣∣ l2 ∣∣ u2)%deps
    else IntervalDeps (l1 ∣∣ l2 ∣∣ u2)%deps (u1 ∣∣ l2)%deps.

Definition div (i1 i2 r : loc) (s : state) : state :=
  if is_zero s i1 then
    let s := set_lower r m_zero s in
    let s := set_upper r m_zero s in
    let s := set_lower_is_inf r false s in
    let s := set_upper_is_inf r false s in
    let s := set_lower_is_open r false s in
    set_upper_is_open r false s
  else
    let a := lower s i1 in let a_k := lower_kind s i1 in
    let b := upper s i1 in let b_k := upper_kind s i1 in
    let c := lower s i2 in let c_k := lower_kind s i2 in
    let d := upper s i2 in let d_k := upper_kind s i2 in
    let a_o := lower_is_open s i1 in
    let b_o := upper_is_open s i1 in
    let c_o := lower_is_open s i2 in
    let d_o := upper_is_open s i2 in
    let '(s, new_l, new_u) :=
      if is_N s i1 then
        if is_N1 s i2 then
          let s := set_lower_is_open r (if is_N0 s i1 then false else b_o || c_o) s in
          let s := set_upper_is_open r (a_o || d_o) s in
          let s := round_to_minus_inf s in
          let new_l := ext_numeral.div (im_up s) b b_k c c_k in
          if m_is_zero d then (s, new_l, (m_zero, EN_PLUS_INFINITY))
          else
            let s := round_to_plus_inf s in
            let new_u := ext_numeral.div (im_up s) a a_k d d_k in
            (s, new_l, new_u)
        else
          let s := set_upper_is_open r (if is_N0 s i1 then false else b_o || d_o) s in
          let s := set_lower_is_open r (a_o || c_o) s in
          let '(s, new_l) :=
            if m_is_zero c then (s, (m_zero, EN_MINUS_INFINITY))
            else
              let s := round_to_minus_inf s in
              (s, ext_numeral.div (im_up s) a a_k c c_k) in
          let s := round_to_plus_inf s in
          let new_u := ext_numeral.div (im_up s) b b_k d d_k in
          (s, new_l, new_u)
      else if is_M s i1 then
        if is_N1 s i2 then
          let s := set_lower_is_open r (b_o || d_o) s in
          let s := set_upper_is_open r (a_o || d_o) s in
          if m_is_zero d then (s, (m_zero, EN_MINUS_INFINITY), (m_zero, EN_PLUS_INFINITY))
          else
            let s := round_to_minus_inf s in
            let new_l := ext_numeral.div (im_up s) b b_k d d_k in
            let s := round_to_plus_inf s in
            let new_u := ext_numeral.div (im_up s) a a_k d d_k in
            (s, new_l, new_u)
        else
          let s := set_lower_is_open r (a_o || c_o) s in
          let s := set_upper_is_open r (b_o || c_o) s in
          if m_is_zero c then (s, (m_zero, EN_MINUS_INFINITY), (m_zero, EN_PLUS_INFINITY))
          else
            let s := round_to_minus_inf s in
            let new_l := ext_numeral.div (im_up s) a a_k c c_k in
            let s := round_to_plus_inf s in
            let new_u := ext_numeral.div (im_up s) b b_k c c_k in
            (s, new_l, new_u)
      else
        if is_N1 s i2 then
          let s := set_upper_is_open r (if is_P0 s i1 then false else a_o || c_o) s in
          let s := set_lower_is_open r (b_o || d_o) s in
          let '(s, new_l) :=
            if m_is_zero d then (s, (m_zero, EN_MINUS_INFINITY))
            else
              let s := round_to_minus_inf s in
              (s, ext_numeral.div (im_up s) b b_k d d_k) in
          let s := round_to_plus_inf s in
          let new_u := ext_numeral.div (im_up s) a a_k c c_k in
          (s, new_l, new_u)
        else
          let s := set_lower_is_open r (if is_P0 s i1 then false else a_o || d_o) s in
          let s := set_upper_is_open r (b_o || c_o) s in
          let s := round_to_minus_inf s in
          let new_l := ext_numeral.div (im_up s) a a_k d d_k in
          if m_is_zero c then (s, new_l, (m_zero, EN_PLUS_INFINITY))
          else
            let s := round_to_plus_inf s in
            let new_u := ext_numeral.div (im_up s) b b_k c c_k in
            (s, new_l, new_u) in
    set_bounds r new_l new_u s.

End Manager.
End interval_manager.
