(* ===== verification/IntervalBounds.v ===== *)
(** * IntervalBounds: extended numerals as bounds of real numbers

    [elb o a ak x] says that the extended numeral [(a, ak)] is a lower bound of [x], strict when [o]; [eub]
    is the dual.  The lemmas show which products, quotients and powers of bounds are bounds, whatever
    the direction of rounding; the interval operations are proved from them. *)
From S2P Require Import Prelude.
From S2P Require Import ExtNumeral.
From Stdlib Require Import ZArith Lia Reals Lra Psatz.
From stdpp Require Import base tactics option list numbers.
Close Scope word_scope.
Open Scope R_scope.

(** ** Real inequalities *)

Definition le_o (o : bool) (x y : R) : Prop := if o then x < y else x <= y.

Lemma le_o_le o x y : le_o o x y -> x <= y.
Proof. destruct o; simpl; lra. Qed.
Lemma le_o_weaken o x y : x < y -> le_o o x y.
Proof. destruct o; simpl; lra. Qed.
Lemma le_o_trans_r o x y z : le_o o x y -> y <= z -> le_o o x z.
Proof. destruct o; simpl; lra. Qed.
Lemma le_o_trans_l o x y z : x <= y -> le_o o y z -> le_o o x z.
Proof. destruct o; simpl; lra. Qed.
Lemma le_o_opp o x y : le_o o x y -> le_o o (- y) (- x).
Proof. destruct o; simpl; lra. Qed.
Lemma le_o_plus o1 o2 x y x' y' : le_o o1 x y -> le_o o2 x' y' -> le_o (o1 || o2) (x + x') (y + y').
Proof. destruct o1, o2; simpl; lra. Qed.

(** A product is at most the product of two positive upper bounds when a factor is not negative. *)
Lemma outer_R o1 o2 x y p q :
  0 <= x \/ 0 <= y -> le_o o1 x p -> le_o o2 y q -> 0 < p -> 0 < q -> le_o (o1 || o2) (x * y) (p * q).
Proof.
  intros Hs Hx Hy Hp Hq. assert (0 < p * q) by nra.
  destruct (Rle_lt_dec 0 x), (Rle_lt_dec 0 y); try (apply le_o_weaken; nra).
  destruct o1, o2; simpl in *; nra.
Qed.

(** The product of two lower bounds that are not negative is a lower bound of the product; it is
    attained only where a bound that is 0 is attained, or both are. *)
Lemma inner_R o1 o2 c x y p q :
  le_o o1 p x -> le_o o2 q y -> 0 <= p -> 0 <= q ->
  (c = true -> (p = 0 -> o1 = true) /\ (q = 0 -> o2 = true) /\ (o1 || o2 = true)) ->
  le_o c (p * q) (x * y).
Proof.
  intros Hx Hy Hp Hq Hc. apply le_o_le in Hx as Hx'. apply le_o_le in Hy as Hy'.
  destruct c; [|simpl; nra]. destruct (Hc eq_refl) as (H1 & H2 & H3). simpl.
  destruct (Req_dec p 0) as [Ep|Ep], (Req_dec q 0) as [Eq|Eq];
    [rewrite (H1 Ep) in Hx; rewrite (H2 Eq) in Hy | rewrite (H1 Ep) in Hx | rewrite (H2 Eq) in Hy |];
    simpl in *; try nra.
  apply orb_true_iff in H3 as [->| ->]; simpl in *; nra.
Qed.

Lemma inv_le_o o x y : 0 < x -> le_o o x y -> le_o o (/ y) (/ x).
Proof.
  intros Hx Hy. destruct o; simpl in *.
  - apply Rinv_lt_contravar; nra.
  - apply Rinv_le_contravar; lra.
Qed.

Lemma inv_le_o_neg o x y : y < 0 -> le_o o x y -> le_o o (/ y) (/ x).
Proof.
  intros Hy Hx. replace (/ y) with (- / (- y)) by (field; lra).
  replace (/ x) with (- / (- x)); [|apply le_o_le in Hx; field; lra].
  apply le_o_opp, inv_le_o; [lra | by apply le_o_opp].
Qed.

(** *** Powers *)

Lemma pow_le_o o x y n : 0 <= x -> (0 < n)%nat -> le_o o x y -> le_o o (x ^ n) (y ^ n).
Proof.
  intros Hx Hn Hy. destruct n as [|n]; [lia|]. clear Hn. apply le_o_le in Hy as Hy'.
  induction n as [|n IH]; [by rewrite !pow_1|].
  change (x ^ S (S n)) with (x * x ^ S n). change (y ^ S (S n)) with (y * y ^ S n).
  assert (0 <= x ^ S n) by (apply pow_le; lra).
  destruct o; unfold le_o in *; [|by apply Rmult_le_compat].
  apply Rmult_le_0_lt_compat; lra.
Qed.

Lemma pow_opp_even x n : Nat.even n = true -> (- x) ^ n = x ^ n.
Proof.
  intros E. apply Nat.even_spec in E as [m ->]. rewrite !pow_mult. f_equal. ring.
Qed.
Lemma pow_opp_odd x n : Nat.even n = false -> (- x) ^ n = - x ^ n.
Proof.
  intros E. destruct n as [|n]; [done|]. rewrite <- !tech_pow_Rmult, pow_opp_even; [ring|].
  rewrite Nat.even_succ in E. by rewrite <- Nat.negb_odd, E.
Qed.

Lemma pow_even_nonneg x n : Nat.even n = true -> 0 <= x ^ n.
Proof.
  intros E. destruct (Rle_lt_dec 0 x); [by apply pow_le|].
  rewrite <- pow_opp_even by done. apply pow_le. lra.
Qed.

Lemma pow_odd_le_o o x y n : Nat.even n = false -> le_o o x y -> le_o o (x ^ n) (y ^ n).
Proof.
  intros E Hy. assert (Hn : (0 < n)%nat) by (destruct n; [done|lia]).
  destruct (Rle_lt_dec 0 x) as [Hx|Hx]; [by apply pow_le_o|].
  assert (E1 : x ^ n = - (- x) ^ n) by (rewrite pow_opp_odd by done; ring).
  destruct (Rle_lt_dec y 0) as [Hy0|Hy0].
  - assert (E2 : y ^ n = - (- y) ^ n) by (rewrite pow_opp_odd by done; ring).
    rewrite E1, E2. apply le_o_opp, pow_le_o; [lra | done | by apply le_o_opp].
  - apply le_o_weaken. assert (0 < (- x) ^ n) by (apply pow_lt; lra).
    assert (0 < y ^ n) by (by apply pow_lt). lra.
Qed.

(** ** Extended numerals as bounds *)

Section Bounds.
Context {num : Type} {M : NumManager num} {val : num -> R} {L : NumLaws val}.
Implicit Types (a b : num) (ak bk : ext_numeral_kind).

Definition elb (o : bool) (a : num) (ak : ext_numeral_kind) (x : R) : Prop :=
  match ak with
  | EN_MINUS_INFINITY => True
  | EN_NUMERAL => le_o o (val a) x
  | EN_PLUS_INFINITY => False
  end.
Definition eub (o : bool) (a : num) (ak : ext_numeral_kind) (x : R) : Prop :=
  match ak with
  | EN_MINUS_INFINITY => False
  | EN_NUMERAL => le_o o x (val a)
  | EN_PLUS_INFINITY => True
  end.

(** The sign of an extended numeral. *)
Definition epos a ak : Prop :=
  match ak with EN_MINUS_INFINITY => False | EN_NUMERAL => 0 < val a | EN_PLUS_INFINITY => True end.
Definition eneg a ak : Prop :=
  match ak with EN_MINUS_INFINITY => True | EN_NUMERAL => val a < 0 | EN_PLUS_INFINITY => False end.
Definition ezero a ak : Prop := ak = EN_NUMERAL /\ val a = 0.

Lemma is_pos_spec a ak : ext_numeral.is_pos a ak = true <-> epos a ak.
Proof. destruct ak; simpl; [done | apply val_is_pos | done]. Qed.
Lemma is_neg_spec a ak : ext_numeral.is_neg a ak = true <-> eneg a ak.
Proof. destruct ak; simpl; [done | apply val_is_neg | done]. Qed.
Lemma ezero_iff a ak : ext_numeral.is_zero a ak = true <-> ezero a ak.
Proof.
  unfold ext_numeral.is_zero, ext_numeral.is_numeral, ezero.
  rewrite andb_true_iff, bool_decide_eq_true, val_is_zero. done.
Qed.

Lemma m_is_zero_false a : val a <> 0 -> m_is_zero a = false.
Proof. intros E. apply not_true_iff_false. by rewrite val_is_zero. Qed.

Lemma rounds_dn r v : rounds false r v -> v <= r.
Proof. by intros [_ ?]. Qed.
Lemma rounds_up r v : rounds true r v -> r <= v.
Proof. by intros [_ ?]. Qed.

(** *** Multiplication *)

Lemma mul_num up a b : exists v,
  ext_numeral.mul up a EN_NUMERAL b EN_NUMERAL = (v, EN_NUMERAL) /\ rounds up (val a * val b) (val v).
Proof.
  unfold ext_numeral.mul, ext_numeral.is_zero; simpl.
  destruct (m_is_zero a) eqn:Ea; [|destruct (m_is_zero b) eqn:Eb]; simpl.
  - apply val_is_zero in Ea. exists m_zero. split; [done|].
    apply rounds_exact. rewrite val_zero, Ea. ring.
  - apply val_is_zero in Eb. exists m_zero. split; [done|].
    apply rounds_exact. rewrite val_zero, Eb. ring.
  - eexists. split; [done | apply val_mul].
Qed.

(** The product of non zero extended numerals of which one is infinite. *)
Lemma mul_inf up a ak b bk (same : bool) :
  ak <> EN_NUMERAL \/ bk <> EN_NUMERAL ->
  (if same then (epos a ak /\ epos b bk) \/ (eneg a ak /\ eneg b bk)
   else (epos a ak /\ eneg b bk) \/ (eneg a ak /\ epos b bk)) ->
  ext_numeral.mul up a ak b bk = (m_zero, if same then EN_PLUS_INFINITY else EN_MINUS_INFINITY).
Proof.
  intros Hi Hs. unfold ext_numeral.mul.
  assert (Z1 : ext_numeral.is_zero a ak = false).
  { apply not_true_iff_false. rewrite ezero_iff. intros [-> E].
    destruct same; simpl in Hs; rewrite E in Hs; lra. }
  assert (Z2 : ext_numeral.is_zero b bk = false).
  { apply not_true_iff_false. rewrite ezero_iff. intros [-> E].
    destruct same; simpl in Hs; rewrite E in Hs; lra. }
  rewrite Z1, Z2. simpl.
  assert (Hinf : ext_numeral.is_infinite ak || ext_numeral.is_infinite bk = true).
  { destruct ak, bk; done || by destruct Hi. }
  rewrite Hinf. f_equal.
  assert (Hn : forall c ck, eneg c ck -> ext_numeral.is_pos c ck = false).
  { intros c ck Hc. apply not_true_iff_false. rewrite is_pos_spec. destruct ck; simpl in *; lra || done. }
  destruct same, Hs as [[H1 H2]|[H1 H2]];
    rewrite ?(proj2 (is_pos_spec _ _) H1), ?(proj2 (is_pos_spec _ _) H2), ?(Hn _ _ H1), ?(Hn _ _ H2); done.
Qed.

Definition xmul_lb up o a ak b bk (z : R) : Prop :=
  elb o (fst (ext_numeral.mul up a ak b bk)) (snd (ext_numeral.mul up a ak b bk)) z.
Definition xmul_ub up o a ak b bk (z : R) : Prop :=
  eub o (fst (ext_numeral.mul up a ak b bk)) (snd (ext_numeral.mul up a ak b bk)) z.

Lemma xmul_lb_num o a b z :
  le_o o (val a * val b) z -> xmul_lb false o a EN_NUMERAL b EN_NUMERAL z.
Proof.
  intros Hz. unfold xmul_lb. destruct (mul_num false a b) as (v & -> & Hv). simpl.
  eapply le_o_trans_l; [by apply rounds_dn | done].
Qed.
Lemma xmul_ub_num o a b z :
  le_o o z (val a * val b) -> xmul_ub true o a EN_NUMERAL b EN_NUMERAL z.
Proof.
  intros Hz. unfold xmul_ub. destruct (mul_num true a b) as (v & -> & Hv). simpl.
  eapply le_o_trans_r; [done | by apply rounds_up].
Qed.
Lemma xmul_lb_inf up o a ak b bk z :
  ak <> EN_NUMERAL \/ bk <> EN_NUMERAL ->
  (epos a ak /\ eneg b bk) \/ (eneg a ak /\ epos b bk) -> xmul_lb up o a ak b bk z.
Proof. intros Hi Hs. unfold xmul_lb. by rewrite (mul_inf up a ak b bk false). Qed.
Lemma xmul_ub_inf up o a ak b bk z :
  ak <> EN_NUMERAL \/ bk <> EN_NUMERAL ->
  (epos a ak /\ epos b bk) \/ (eneg a ak /\ eneg b bk) -> xmul_ub up o a ak b bk z.
Proof. intros Hi Hs. unfold xmul_ub. by rewrite (mul_inf up a ak b bk true). Qed.

(** *** Products of bounds away from zero *)

Lemma outer_pp o1 o2 a ak b bk x y :
  0 <= x \/ 0 <= y -> eub o1 a ak x -> eub o2 b bk y -> epos a ak -> epos b bk ->
  xmul_ub true (o1 || o2) a ak b bk (x * y).
Proof.
  intros Hs Hx Hy Ha Hb. destruct ak, bk; try done; try (apply xmul_ub_inf; [by auto | by left]).
  apply xmul_ub_num. by apply outer_R.
Qed.

Lemma outer_nn o1 o2 a ak b bk x y :
  x <= 0 \/ y <= 0 -> elb o1 a ak x -> elb o2 b bk y -> eneg a ak -> eneg b bk ->
  xmul_ub true (o1 || o2) a ak b bk (x * y).
Proof.
  intros Hs Hx Hy Ha Hb. destruct ak, bk; try done; try (apply xmul_ub_inf; [by auto | by right]).
  apply xmul_ub_num. simpl in *.
  replace (x * y) with (- x * - y) by ring. replace (val a * val b) with (- val a * - val b) by ring.
  apply outer_R; [lra | by apply le_o_opp | by apply le_o_opp | lra | lra].
Qed.

Lemma outer_np o1 o2 a ak b bk x y :
  x <= 0 \/ 0 <= y -> elb o1 a ak x -> eub o2 b bk y -> eneg a ak -> epos b bk ->
  xmul_lb false (o1 || o2) a ak b bk (x * y).
Proof.
  intros Hs Hx Hy Ha Hb. destruct ak, bk; try done; try (apply xmul_lb_inf; [by auto | by right]).
  apply xmul_lb_num. simpl in *.
  replace (x * y) with (- (- x * y)) by ring. replace (val a * val b) with (- (- val a * val b)) by ring.
  apply le_o_opp, outer_R; [lra | by apply le_o_opp | done | lra | lra].
Qed.

Lemma outer_pn o1 o2 a ak b bk x y :
  0 <= x \/ y <= 0 -> eub o1 a ak x -> elb o2 b bk y -> epos a ak -> eneg b bk ->
  xmul_lb false (o1 || o2) a ak b bk (x * y).
Proof.
  intros Hs Hx Hy Ha Hb. destruct ak, bk; try done; try (apply xmul_lb_inf; [by auto | by left]).
  apply xmul_lb_num. simpl in *.
  replace (x * y) with (- (x * - y)) by ring. replace (val a * val b) with (- (val a * - val b)) by ring.
  apply le_o_opp, outer_R; [lra | done | by apply le_o_opp | lra | lra].
Qed.

(** *** Products of bounds towards zero *)

(** The result is closed where a factor is 0 and attained, or both factors are attained. *)
Definition zopen (o1 : bool) a (o2 : bool) b (c : bool) : Prop :=
  c = true -> (val a = 0 -> o1 = true) /\ (val b = 0 -> o2 = true) /\ (o1 || o2 = true).

Lemma zopen_if o1 a ak o2 b bk z1 z2 :
  (z1 = true <-> ezero a ak /\ o1 = false) -> (z2 = true <-> ezero b bk /\ o2 = false) ->
  ak = EN_NUMERAL -> bk = EN_NUMERAL -> zopen o1 a o2 b (if z1 || z2 then false else o1 || o2).
Proof.
  intros H1 H2 -> -> E. destruct z1; [done|]. destruct z2; [done|]. simpl in E.
  assert (N1 : ~ (val a = 0 /\ o1 = false)) by (intros [? ?]; by assert (false = true) by (apply H1; done)).
  assert (N2 : ~ (val b = 0 /\ o2 = false)) by (intros [? ?]; by assert (false = true) by (apply H2; done)).
  split_and!; [intros Z; destruct o1; [done|]; by destruct N1
              | intros Z; destruct o2; [done|]; by destruct N2 | done].
Qed.

Lemma inner_pp o1 o2 c a b x y :
  le_o o1 (val a) x -> le_o o2 (val b) y -> 0 <= val a -> 0 <= val b -> zopen o1 a o2 b c ->
  xmul_lb false c a EN_NUMERAL b EN_NUMERAL (x * y).
Proof. intros Hx Hy Ha Hb Hc. apply xmul_lb_num. by apply (inner_R o1 o2). Qed.

Lemma inner_nn o1 o2 c a b x y :
  le_o o1 x (val a) -> le_o o2 y (val b) -> val a <= 0 -> val b <= 0 -> zopen o1 a o2 b c ->
  xmul_lb false c a EN_NUMERAL b EN_NUMERAL (x * y).
Proof.
  intros Hx Hy Ha Hb Hc. apply xmul_lb_num.
  replace (x * y) with (- x * - y) by ring. replace (val a * val b) with (- val a * - val b) by ring.
  apply (inner_R o1 o2); [by apply le_o_opp | by apply le_o_opp | lra | lra |].
  intros E. destruct (Hc E) as (? & ? & ?). split_and!; [intros; apply H; lra | intros; apply H0; lra | done].
Qed.

Lemma inner_np o1 o2 c a b x y :
  le_o o1 x (val a) -> le_o o2 (val b) y -> val a <= 0 -> 0 <= val b -> zopen o1 a o2 b c ->
  xmul_ub true c a EN_NUMERAL b EN_NUMERAL (x * y).
Proof.
  intros Hx Hy Ha Hb Hc. apply xmul_ub_num.
  replace (x * y) with (- (- x * y)) by ring. replace (val a * val b) with (- (- val a * val b)) by ring.
  apply le_o_opp, (inner_R o1 o2); [by apply le_o_opp | done | lra | lra |].
  intros E. destruct (Hc E) as (? & ? & ?). split_and!; [intros; apply H; lra | done | done].
Qed.

Lemma inner_pn o1 o2 c a b x y :
  le_o o1 (val a) x -> le_o o2 y (val b) -> 0 <= val a -> val b <= 0 -> zopen o1 a o2 b c ->
  xmul_ub true c a EN_NUMERAL b EN_NUMERAL (x * y).
Proof.
  intros Hx Hy Ha Hb Hc. apply xmul_ub_num.
  replace (x * y) with (- (x * - y)) by ring. replace (val a * val b) with (- (val a * - val b)) by ring.
  apply le_o_opp, (inner_R o1 o2); [done | by apply le_o_opp | lra | lra |].
  intros E. destruct (Hc E) as (? & ? & ?). split_and!; [done | intros; apply H0; lra | done].
Qed.

(** *** Division *)

Lemma div_num up a b : val b <> 0 -> exists v,
  ext_numeral.div up a EN_NUMERAL b EN_NUMERAL = (v, EN_NUMERAL) /\ rounds up (val a / val b) (val v).
Proof.
  intros Hb. unfold ext_numeral.div, ext_numeral.is_zero; simpl.
  destruct (m_is_zero a) eqn:Ea; simpl.
  - apply val_is_zero in Ea. exists m_zero. split; [done|].
    apply rounds_exact. rewrite val_zero, Ea. unfold Rdiv. ring.
  - eexists. split; [done | by apply val_div].
Qed.

Lemma div_den_inf up a b bk : bk <> EN_NUMERAL -> ext_numeral.div up a EN_NUMERAL b bk = (m_zero, EN_NUMERAL).
Proof.
  intros Hb. unfold ext_numeral.div, ext_numeral.is_zero; simpl.
  destruct (m_is_zero a); simpl; [done|]. by destruct bk.
Qed.

Lemma div_num_inf up a ak b (same : bool) : ak <> EN_NUMERAL ->
  (if same then (epos a ak /\ 0 < val b) \/ (eneg a ak /\ val b < 0)
   else (epos a ak /\ val b < 0) \/ (eneg a ak /\ 0 < val b)) ->
  ext_numeral.div up a ak b EN_NUMERAL = (m_zero, if same then EN_PLUS_INFINITY else EN_MINUS_INFINITY).
Proof.
  intros Hk Hs. unfold ext_numeral.div.
  assert (Z1 : ext_numeral.is_zero a ak = false) by (by destruct ak).
  assert (I1 : ext_numeral.is_infinite ak = true) by (by destruct ak).
  rewrite Z1, I1. f_equal.
  assert (P : 0 < val b -> ext_numeral.is_pos b EN_NUMERAL = true) by (by rewrite is_pos_spec).
  assert (N : val b < 0 -> ext_numeral.is_pos b EN_NUMERAL = false).
  { intros Hb. apply not_true_iff_false. rewrite is_pos_spec. simpl. lra. }
  destruct same, Hs as [[H1 H2]|[H1 H2]]; rewrite ?(P H2), ?(N H2); by destruct ak.
Qed.

Definition xdiv_lb up o a ak b bk (z : R) : Prop :=
  elb o (fst (ext_numeral.div up a ak b bk)) (snd (ext_numeral.div up a ak b bk)) z.
Definition xdiv_ub up o a ak b bk (z : R) : Prop :=
  eub o (fst (ext_numeral.div up a ak b bk)) (snd (ext_numeral.div up a ak b bk)) z.

Lemma xdiv_lb_num o a b z :
  val b <> 0 -> le_o o (val a * / val b) z -> xdiv_lb false o a EN_NUMERAL b EN_NUMERAL z.
Proof.
  intros Hb Hz. unfold xdiv_lb. destruct (div_num false a b Hb) as (v & -> & Hv). simpl.
  eapply le_o_trans_l; [by apply rounds_dn | done].
Qed.
Lemma xdiv_ub_num o a b z :
  val b <> 0 -> le_o o z (val a * / val b) -> xdiv_ub true o a EN_NUMERAL b EN_NUMERAL z.
Proof.
  intros Hb Hz. unfold xdiv_ub. destruct (div_num true a b Hb) as (v & -> & Hv). simpl.
  eapply le_o_trans_r; [done | by apply rounds_up].
Qed.
Lemma xdiv_lb_inf up o a ak b z : ak <> EN_NUMERAL ->
  (epos a ak /\ val b < 0) \/ (eneg a ak /\ 0 < val b) -> xdiv_lb up o a ak b EN_NUMERAL z.
Proof. intros Hi Hs. unfold xdiv_lb. by rewrite (div_num_inf up a ak b false). Qed.
Lemma xdiv_ub_inf up o a ak b z : ak <> EN_NUMERAL ->
  (epos a ak /\ 0 < val b) \/ (eneg a ak /\ val b < 0) -> xdiv_ub up o a ak b EN_NUMERAL z.
Proof. intros Hi Hs. unfold xdiv_ub. by rewrite (div_num_inf up a ak b true). Qed.

(** Quotients by the bound of the divisor nearest to zero. *)

Lemma div_outer_np o1 o2 a ak b x y :
  elb o1 a ak x -> le_o o2 (val b) y -> eneg a ak -> 0 < val b ->
  xdiv_lb false (o1 || o2) a ak b EN_NUMERAL (x / y).
Proof.
  intros Hx Hy Ha Hb. destruct ak; try done; [by apply xdiv_lb_inf; [|right]|].
  apply xdiv_lb_num; [lra|]. simpl in *. apply le_o_le in Hy as Hy'.
  replace (x / y) with (- (- x * / y)) by (field; lra).
  replace (val a * / val b) with (- (- val a * / val b)) by (field; lra).
  assert (0 < / y) by (apply Rinv_0_lt_compat; lra). assert (0 < / val b) by (by apply Rinv_0_lt_compat).
  apply le_o_opp, outer_R; [lra | by apply le_o_opp | by apply inv_le_o | lra | done].
Qed.

Lemma div_outer_pp o1 o2 a ak b x y :
  eub o1 a ak x -> le_o o2 (val b) y -> epos a ak -> 0 < val b ->
  xdiv_ub true (o1 || o2) a ak b EN_NUMERAL (x / y).
Proof.
  intros Hx Hy Ha Hb. destruct ak; try done; [|by apply xdiv_ub_inf; [|left]].
  apply xdiv_ub_num; [lra|]. simpl in *. apply le_o_le in Hy as Hy'.
  assert (0 < / y) by (apply Rinv_0_lt_compat; lra). assert (0 < / val b) by (by apply Rinv_0_lt_compat).
  apply outer_R; [lra | done | by apply inv_le_o | done | done].
Qed.

Lemma div_outer_nn o1 o2 a ak b x y :
  elb o1 a ak x -> le_o o2 y (val b) -> eneg a ak -> val b < 0 ->
  xdiv_ub true (o1 || o2) a ak b EN_NUMERAL (x / y).
Proof.
  intros Hx Hy Ha Hb. destruct ak; try done; [by apply xdiv_ub_inf; [|right]|].
  apply xdiv_ub_num; [lra|]. simpl in *. apply le_o_le in Hy as Hy'.
  replace (x / y) with (- x * - / y) by (field; lra).
  replace (val a * / val b) with (- val a * - / val b) by (field; lra).
  assert (/ y < 0) by (apply Rinv_lt_0_compat; lra). assert (/ val b < 0) by (by apply Rinv_lt_0_compat).
  apply outer_R; [lra | by apply le_o_opp | by apply le_o_opp, inv_le_o_neg | lra | lra].
Qed.

Lemma div_outer_pn o1 o2 a ak b x y :
  eub o1 a ak x -> le_o o2 y (val b) -> epos a ak -> val b < 0 ->
  xdiv_lb false (o1 || o2) a ak b EN_NUMERAL (x / y).
Proof.
  intros Hx Hy Ha Hb. destruct ak; try done; [|by apply xdiv_lb_inf; [|left]].
  apply xdiv_lb_num; [lra|]. simpl in *. apply le_o_le in Hy as Hy'.
  replace (x / y) with (- (x * - / y)) by (field; lra).
  replace (val a * / val b) with (- (val a * - / val b)) by (field; lra).
  assert (/ y < 0) by (apply Rinv_lt_0_compat; lra). assert (/ val b < 0) by (by apply Rinv_lt_0_compat).
  apply le_o_opp, outer_R; [lra | done | by apply le_o_opp, inv_le_o_neg | lra | lra].
Qed.

(** Quotients by the bound of the divisor farthest from zero; dividing by an infinity is
    multiplying by 0, which is not attained. *)
Definition dopen (o1 : bool) a (o2 : bool) (c : bool) : Prop :=
  c = true -> (val a = 0 -> o1 = true) /\ (o1 || o2 = true).

Lemma dopen_if o1 a ak o2 z :
  (z = true <-> ezero a ak /\ o1 = false) -> ak = EN_NUMERAL ->
  dopen o1 a o2 (if z then false else o1 || o2).
Proof.
  intros Hz -> E. destruct z; [done|]. split; [|done].
  intros Ea. destruct o1; [done|]. by assert (false = true) by (apply Hz; done).
Qed.

Lemma xdiv_lb_den o a b bk z : bk <> EN_NUMERAL -> le_o o 0 z -> xdiv_lb false o a EN_NUMERAL b bk z.
Proof. intros Hb Hz. unfold xdiv_lb. rewrite div_den_inf by done. simpl. by rewrite val_zero. Qed.
Lemma xdiv_ub_den o a b bk z : bk <> EN_NUMERAL -> le_o o z 0 -> xdiv_ub true o a EN_NUMERAL b bk z.
Proof. intros Hb Hz. unfold xdiv_ub. rewrite div_den_inf by done. simpl. by rewrite val_zero. Qed.

Lemma div_inner_R o1 o2 c x v p q (inf : bool) :
  le_o o1 p x -> (if inf then 0 < v /\ q = 0 else le_o o2 q v /\ 0 < q) -> 0 <= p ->
  (c = true -> (p = 0 -> o1 = true) /\ (o1 || o2 = true)) -> le_o c (p * q) (x * v).
Proof.
  intros Hx Hv Hp Hc. destruct inf, Hv as [Hv Hq].
  - apply (inner_R o1 true); [done | simpl; lra | done | lra |].
    intros E. destruct (Hc E). split_and!; [done | done | by rewrite orb_true_r].
  - apply (inner_R o1 o2); [done | done | done | lra |].
    intros E. destruct (Hc E). split_and!; [done | lra | done].
Qed.

Lemma div_inner_pp o1 o2 c a b bk x y :
  le_o o1 (val a) x -> 0 < y -> eub o2 b bk y -> 0 <= val a -> dopen o1 a o2 c ->
  xdiv_lb false c a EN_NUMERAL b bk (x / y).
Proof.
  intros Hx Hy Hb Ha Hc. destruct bk; [done | |].
  - simpl in Hb. apply le_o_le in Hb as Hb'. apply xdiv_lb_num; [lra|].
    apply (div_inner_R o1 o2 c x (/ y) _ _ false); [done | | done | done].
    split; [by apply inv_le_o | apply Rinv_0_lt_compat; lra].
  - apply xdiv_lb_den; [done|]. replace 0 with (val a * 0) by ring.
    apply (div_inner_R o1 o2 c x (/ y) _ _ true); [done | | done | done].
    split; [by apply Rinv_0_lt_compat | done].
Qed.

Lemma div_inner_np o1 o2 c a b bk x y :
  le_o o1 x (val a) -> 0 < y -> eub o2 b bk y -> val a <= 0 -> dopen o1 a o2 c ->
  xdiv_ub true c a EN_NUMERAL b bk (x / y).
Proof.
  intros Hx Hy Hb Ha Hc. apply le_o_opp in Hx.
  assert (Hc' : c = true -> (- val a = 0 -> o1 = true) /\ o1 || o2 = true).
  { intros E. destruct (Hc E) as [H1 H2]. split; [intros; apply H1; lra | done]. }
  replace (x / y) with (- (- x * / y)) by (field; lra). destruct bk; [done | |].
  - simpl in Hb. apply le_o_le in Hb as Hb'. apply xdiv_ub_num; [lra|].
    replace (val a * / val b) with (- (- val a * / val b)) by (field; lra). apply le_o_opp.
    apply (div_inner_R o1 o2 c _ (/ y) _ _ false); [done | | lra | done].
    split; [by apply inv_le_o | apply Rinv_0_lt_compat; lra].
  - apply xdiv_ub_den; [done|]. replace 0 with (- (- val a * 0)) by ring. apply le_o_opp.
    apply (div_inner_R o1 o2 c _ (/ y) _ _ true); [done | | lra | done].
    split; [by apply Rinv_0_lt_compat | done].
Qed.

Lemma div_inner_nn o1 o2 c a b bk x y :
  le_o o1 x (val a) -> y < 0 -> elb o2 b bk y -> val a <= 0 -> dopen o1 a o2 c ->
  xdiv_lb false c a EN_NUMERAL b bk (x / y).
Proof.
  intros Hx Hy Hb Ha Hc. apply le_o_opp in Hx.
  assert (Hc' : c = true -> (- val a = 0 -> o1 = true) /\ o1 || o2 = true).
  { intros E. destruct (Hc E) as [H1 H2]. split; [intros; apply H1; lra | done]. }
  assert (/ y < 0) by (by apply Rinv_lt_0_compat).
  replace (x / y) with (- x * - / y) by (field; lra). destruct bk; [| |done].
  - apply xdiv_lb_den; [done|]. replace 0 with (- val a * 0) by ring.
    apply (div_inner_R o1 o2 c _ (- / y) _ _ true); [done | | lra | done]. split; [lra | done].
  - simpl in Hb. apply le_o_le in Hb as Hb'. apply xdiv_lb_num; [lra|].
    replace (val a * / val b) with (- val a * - / val b) by (field; lra).
    apply (div_inner_R o1 o2 c _ (- / y) _ _ false); [done | | lra | done].
    split; [by apply le_o_opp, inv_le_o_neg |]. assert (/ val b < 0) by (apply Rinv_lt_0_compat; lra). lra.
Qed.

Lemma div_inner_pn o1 o2 c a b bk x y :
  le_o o1 (val a) x -> y < 0 -> elb o2 b bk y -> 0 <= val a -> dopen o1 a o2 c ->
  xdiv_ub true c a EN_NUMERAL b bk (x / y).
Proof.
  intros Hx Hy Hb Ha Hc. assert (/ y < 0) by (by apply Rinv_lt_0_compat).
  replace (x / y) with (- (x * - / y)) by (field; lra). destruct bk; [| |done].
  - apply xdiv_ub_den; [done|]. replace 0 with (- (val a * 0)) by ring. apply le_o_opp.
    apply (div_inner_R o1 o2 c _ (- / y) _ _ true); [done | | lra | done]. split; [lra | done].
  - simpl in Hb. apply le_o_le in Hb as Hb'. apply xdiv_ub_num; [lra|].
    replace (val a * / val b) with (- (val a * - / val b)) by (field; lra). apply le_o_opp.
    apply (div_inner_R o1 o2 c _ (- / y) _ _ false); [done | | lra | done].
    split; [by apply le_o_opp, inv_le_o_neg |]. assert (/ val b < 0) by (apply Rinv_lt_0_compat; lra). lra.
Qed.

(** *** Comparisons of bounds *)

Lemma ext_lt_lb o a ak b bk x : ext_numeral.lt a ak b bk = true -> elb false b bk x -> elb o a ak x.
Proof.
  destruct ak, bk; simpl; try done. rewrite val_lt. intros. apply le_o_weaken. lra.
Qed.
Lemma ext_lt_ub o a ak b bk x : ext_numeral.lt a ak b bk = true -> eub false a ak x -> eub o b bk x.
Proof.
  destruct ak, bk; simpl; try done. rewrite val_lt. intros. apply le_o_weaken. lra.
Qed.
Lemma ext_nlt_lb o a ak b bk x : ext_numeral.lt a ak b bk = false -> elb o a ak x -> elb o b bk x.
Proof.
  destruct ak, bk; simpl; try done. rewrite <- not_true_iff_false, val_lt. intros.
  eapply le_o_trans_l; [|done]. lra.
Qed.
Lemma ext_nlt_ub o a ak b bk x : ext_numeral.lt a ak b bk = false -> eub o b bk x -> eub o a ak x.
Proof.
  destruct ak, bk; simpl; try done. rewrite <- not_true_iff_false, val_lt. intros.
  eapply le_o_trans_r; [done|]. lra.
Qed.
Lemma ext_eq_lb o a ak b bk x : ext_numeral.eq a ak b bk = true -> elb o b bk x <-> elb o a ak x.
Proof. destruct ak, bk; try done. intros E%val_eq. simpl. by rewrite E. Qed.
Lemma ext_eq_ub o a ak b bk x : ext_numeral.eq a ak b bk = true -> eub o b bk x <-> eub o a ak x.
Proof. destruct ak, bk; try done. intros E%val_eq. simpl. by rewrite E. Qed.
Lemma elb_weaken o a ak x : elb o a ak x -> elb false a ak x.
Proof. destruct ak; simpl; try done. apply le_o_le. Qed.
Lemma eub_weaken o a ak x : eub o a ak x -> eub false a ak x.
Proof. destruct ak; simpl; try done. apply le_o_le. Qed.

(** *** Sums and differences *)

Definition both (P : num -> ext_numeral_kind -> Prop) (p : num * ext_numeral_kind) : Prop := P (fst p) (snd p).

Lemma add_lb o1 o2 a ak b bk x y :
  elb o1 a ak x -> elb o2 b bk y ->
  both (fun v k => elb (o1 || o2) v k (x + y)) (ext_numeral.add false a ak b bk).
Proof.
  intros Hx Hy. destruct ak, bk; try done. unfold both; simpl in *.
  eapply le_o_trans_l; [apply rounds_dn, val_add | by apply le_o_plus].
Qed.
Lemma add_ub o1 o2 a ak b bk x y :
  eub o1 a ak x -> eub o2 b bk y ->
  both (fun v k => eub (o1 || o2) v k (x + y)) (ext_numeral.add true a ak b bk).
Proof.
  intros Hx Hy. destruct ak, bk; try done. unfold both; simpl in *.
  eapply le_o_trans_r; [by apply le_o_plus | apply rounds_up, val_add].
Qed.
Lemma sub_lb o1 o2 a ak b bk x y :
  elb o1 a ak x -> eub o2 b bk y ->
  both (fun v k => elb (o1 || o2) v k (x - y)) (ext_numeral.sub false a ak b bk).
Proof.
  intros Hx Hy. destruct ak, bk; try done. unfold both; simpl in *.
  eapply le_o_trans_l; [apply rounds_dn, val_sub | apply le_o_plus; [done | by apply le_o_opp]].
Qed.
Lemma sub_ub o1 o2 a ak b bk x y :
  eub o1 a ak x -> elb o2 b bk y ->
  both (fun v k => eub (o1 || o2) v k (x - y)) (ext_numeral.sub true a ak b bk).
Proof.
  intros Hx Hy. destruct ak, bk; try done. unfold both; simpl in *.
  eapply le_o_trans_r; [apply le_o_plus; [done | by apply le_o_opp] | apply rounds_up, val_sub].
Qed.

(** *** Products by a number *)

Lemma le_o_mul_pos o x y k : 0 < k -> le_o o x y -> le_o o (x * k) (y * k).
Proof. destruct o; simpl; nra. Qed.
Lemma le_o_mul_neg o x y k : k < 0 -> le_o o x y -> le_o o (y * k) (x * k).
Proof. destruct o; simpl; nra. Qed.

Lemma mulk_pos_lb o a ak k x :
  elb o a ak x -> 0 < val k -> xmul_lb false o a ak k EN_NUMERAL (x * val k).
Proof.
  intros Hx Hk. destruct ak; try done; [apply xmul_lb_inf; [by left | by right]|].
  by apply xmul_lb_num, le_o_mul_pos.
Qed.
Lemma mulk_pos_ub o a ak k x :
  eub o a ak x -> 0 < val k -> xmul_ub true o a ak k EN_NUMERAL (x * val k).
Proof.
  intros Hx Hk. destruct ak; try done; [|apply xmul_ub_inf; [by left | by left]].
  by apply xmul_ub_num, le_o_mul_pos.
Qed.
Lemma mulk_neg_lb o a ak k x :
  eub o a ak x -> val k < 0 -> xmul_lb false o a ak k EN_NUMERAL (x * val k).
Proof.
  intros Hx Hk. destruct ak; try done; [|apply xmul_lb_inf; [by left | by left]].
  by apply xmul_lb_num, le_o_mul_neg.
Qed.
Lemma mulk_neg_ub o a ak k x :
  elb o a ak x -> val k < 0 -> xmul_ub true o a ak k EN_NUMERAL (x * val k).
Proof.
  intros Hx Hk. destruct ak; try done; [apply xmul_ub_inf; [by left | by right]|].
  by apply xmul_ub_num, le_o_mul_neg.
Qed.

(** *** The smaller of two lower bounds, the larger of two upper bounds *)

Lemma ext_trichotomy a ak b bk :
  ext_numeral.lt a ak b bk = false -> ext_numeral.eq a ak b bk = false -> ext_numeral.lt b bk a ak = true.
Proof.
  destruct ak, bk; try done. intros E1%not_true_iff_false E2%not_true_iff_false.
  apply val_lt. assert (val a <> val b) by (intros F; apply E2; by apply val_eq).
  assert (~ val a < val b) by (intros F; apply E1; by apply val_lt). lra.
Qed.

Definition pick_lt (a : num) ak (ao : bool) (b : num) bk (bo : bool) : bool :=
  ext_numeral.lt a ak b bk || (ext_numeral.eq a ak b bk && negb ao && bo).
Definition pick_gt (a : num) ak (ao : bool) (b : num) bk (bo : bool) : bool :=
  ext_numeral.gt a ak b bk || (ext_numeral.eq a ak b bk && negb ao && bo).

Lemma elb_strict o a ak x : elb true a ak x -> elb o a ak x.
Proof. destruct ak; simpl; try done. apply le_o_weaken. Qed.
Lemma eub_strict o a ak x : eub true a ak x -> eub o a ak x.
Proof. destruct ak; simpl; try done. apply le_o_weaken. Qed.

Lemma pick_lt_lb a ak ao b bk bo x : elb ao a ak x \/ elb bo b bk x ->
  if pick_lt a ak ao b bk bo then elb ao a ak x else elb bo b bk x.
Proof.
  intros H. destruct (pick_lt a ak ao b bk bo) eqn:P; unfold pick_lt in P.
  - destruct H as [H|H]; [done|]. apply orb_true_iff in P as [P|P].
    + by apply (ext_lt_lb _ _ _ _ _ _ P), (elb_weaken bo).
    + apply andb_true_iff in P as [[P ->%negb_true_iff]%andb_true_iff _].
      apply (ext_eq_lb false _ _ _ _ x P). by apply (elb_weaken bo).
  - apply orb_false_iff in P as [P1 P2]. destruct H as [H|H]; [|done].
    destruct (ext_numeral.eq a ak b bk) eqn:E.
    + apply (ext_nlt_lb _ _ _ _ _ _ P1) in H. destruct ao; [by apply elb_strict|].
      destruct bo; [done | by apply (elb_weaken false)].
    + apply (ext_lt_lb _ _ _ _ _ _ (ext_trichotomy _ _ _ _ P1 E)). by apply (elb_weaken ao).
Qed.

Lemma pick_gt_ub a ak ao b bk bo x : eub ao a ak x \/ eub bo b bk x ->
  if pick_gt a ak ao b bk bo then eub ao a ak x else eub bo b bk x.
Proof.
  intros H. destruct (pick_gt a ak ao b bk bo) eqn:P; unfold pick_gt, ext_numeral.gt in P.
  - destruct H as [H|H]; [done|]. apply orb_true_iff in P as [P|P].
    + by apply (ext_lt_ub _ _ _ _ _ _ P), (eub_weaken bo).
    + apply andb_true_iff in P as [[P ->%negb_true_iff]%andb_true_iff _].
      apply (ext_eq_ub false _ _ _ _ x P). by apply (eub_weaken bo).
  - apply orb_false_iff in P as [P1 P2]. destruct H as [H|H]; [|done].
    destruct (ext_numeral.lt a ak b bk) eqn:E.
    + apply (ext_lt_ub _ _ _ _ _ _ E). by apply (eub_weaken ao).
    + apply (ext_nlt_ub _ _ _ _ _ _ P1) in H. destruct ao; [by apply eub_strict|].
      destruct bo; [|by apply (eub_weaken false)].
      destruct (ext_numeral.eq a ak b bk) eqn:E2; [done|].
      by rewrite (ext_trichotomy _ _ _ _ E E2) in P1.
Qed.

End Bounds.
