(* ===== verification/IntervalProofs.v ===== *)
(** * IntervalProofs: interval operations contain the results of real arithmetic

    [lower_ok s i x] and [upper_ok s i x] say that [x] satisfies a bound of interval [i] in state [s].  An
    operation is [justified] when each bound of its result holds for the real result as soon as the
    operands satisfy the bounds its dependency rule names; containment follows, since the members of the
    operands satisfy all their bounds.  Every lemma is for arbitrary references: the result may be one
    of the operands. *)
From S2P Require Import Prelude.
From S2P Require Import ExtNumeral.
From S2P Require Import Interval.
From S2P Require Import IntervalBounds.
From Stdlib Require Import ZArith Lia Reals Lra Psatz.
From stdpp Require Import base tactics option list numbers functions.
Close Scope word_scope.
Open Scope R_scope.
Import interval_manager.

Section Proofs.
Context {num : Type} {M : NumManager num} {val : num -> R} {L : NumLaws val}.
Abbreviation state := (imstate num).

Definition lower_ok (s : state) (i : loc) (x : R) : Prop :=
  elb (val := val) (lower_is_open s i) (lower s i) (lower_kind s i) x.
Definition upper_ok (s : state) (i : loc) (x : R) : Prop :=
  eub (val := val) (upper_is_open s i) (upper s i) (upper_kind s i) x.
Definition member (s : state) (i : loc) (x : R) : Prop := lower_ok s i x /\ upper_ok s i x.

(** The bounds named by a rule hold of [x] in [i1] and [y] in [i2]. *)
Definition deps_sat (s : state) (d : deps_combine_rule) (i1 i2 : loc) (x y : R) : Prop :=
  (dep_in_lower1 d = true -> lower_ok s i1 x) /\ (dep_in_upper1 d = true -> upper_ok s i1 x) /\
  (dep_in_lower2 d = true -> lower_ok s i2 y) /\ (dep_in_upper2 d = true -> upper_ok s i2 y).
Definition justified (s s' : state) (j : interval_deps_combine_rule) (i1 i2 r : loc) (x y z : R) : Prop :=
  (deps_sat s (m_lower_combine j) i1 i2 x y -> lower_ok s' r z) /\
  (deps_sat s (m_upper_combine j) i1 i2 x y -> upper_ok s' r z).

Lemma member_deps s d i1 i2 x y : member s i1 x -> member s i2 y -> deps_sat s d i1 i2 x y.
Proof. intros [] []. split_and!; auto. Qed.
Lemma justified_member s s' j i1 i2 r x y z :
  justified s s' j i1 i2 r x y z -> member s i1 x -> member s i2 y -> member s' r z.
Proof. intros [Hl Hu] Hx Hy. split; [apply Hl | apply Hu]; by apply member_deps. Qed.

(** *** Bounds of the results *)

Lemma is_minus_inf_kind (k : ext_numeral_kind) :
  k <> EN_PLUS_INFINITY -> (if is_minus_inf k then EN_MINUS_INFINITY else EN_NUMERAL) = k.
Proof. by destruct k. Qed.
Lemma is_plus_inf_kind (k : ext_numeral_kind) :
  k <> EN_MINUS_INFINITY -> (if is_plus_inf k then EN_PLUS_INFINITY else EN_NUMERAL) = k.
Proof. by destruct k. Qed.

(** Reads of the state after writes: fields are separate functions, so only the last write to a
    field at the same reference matters. *)
Ltac ist :=
  unfold lower_ok, upper_ok, lower_kind, upper_kind, lower, upper, lower_is_open, upper_is_open,
    lower_is_inf, upper_is_inf;
  cbn -[elb eub is_minus_inf is_plus_inf ext_numeral.mul ext_numeral.div ext_numeral.add ext_numeral.sub];
  rewrite ?fn_lookup_insert.

Lemma set_bounds_lower (s : state) r l u z :
  elb (val := val) (lower_is_open s r) (fst l) (snd l) z -> lower_ok (set_bounds r l u s) r z.
Proof.
  intros Hz. ist. rewrite is_minus_inf_kind; [done|]. intros E. by rewrite E in Hz.
Qed.
Lemma set_bounds_upper (s : state) r l u z :
  eub (val := val) (upper_is_open s r) (fst u) (snd u) z -> upper_ok (set_bounds r l u s) r z.
Proof.
  intros Hz. ist. rewrite is_plus_inf_kind; [done|]. intros E. by rewrite E in Hz.
Qed.

(** *** The invariant *)

Lemma member_invariant (s : state) i x : member s i x -> check_invariant s i = true.
Proof.
  intros [Hl Hu]. unfold check_invariant, lower_ok, upper_ok in *.
  destruct (lower_kind s i) eqn:El, (upper_kind s i) eqn:Eu; try done.
  cbn in Hl, Hu. destruct (ext_numeral.eq _ _ _ _) eqn:E.
  - apply val_eq in E. destruct (lower_is_open s i), (upper_is_open s i); simpl in *; lra || done.
  - apply not_true_iff_false in E. apply val_lt.
    assert (N : val (lower s i) <> val (upper s i)) by (intros F; apply E; by apply val_eq).
    apply le_o_le in Hl, Hu. lra.
Qed.

Lemma invariant_member (s : state) i : check_invariant s i = true -> exists x, member s i x.
Proof.
  unfold check_invariant, member, lower_ok, upper_ok.
  assert (Lk : lower_kind s i <> EN_PLUS_INFINITY) by (unfold lower_kind; by destruct (lower_is_inf s i)).
  assert (Uk : upper_kind s i <> EN_MINUS_INFINITY) by (unfold upper_kind; by destruct (upper_is_inf s i)).
  destruct (lower_kind s i), (upper_kind s i); try done; intros I.
  - exists (val (upper s i) - 1). split; [done|]. simpl. apply le_o_weaken. lra.
  - by exists 0.
  - destruct (ext_numeral.eq _ _ _ _) eqn:E.
    + apply val_eq in E. apply andb_true_iff in I as [I1%negb_true_iff I2%negb_true_iff].
      exists (val (lower s i)). rewrite I1, I2. simpl. lra.
    + apply val_lt in I. exists ((val (lower s i) + val (upper s i)) / 2).
      simpl. split; apply le_o_weaken; lra.
  - exists (val (lower s i) + 1). split; [|done]. simpl. apply le_o_weaken. lra.
Qed.

(** *** Signs of intervals *)

Lemma lower_kind_not_plus (s : state) i : lower_kind s i <> EN_PLUS_INFINITY.
Proof. unfold lower_kind. by destruct (lower_is_inf s i). Qed.
Lemma upper_kind_not_minus (s : state) i : upper_kind s i <> EN_MINUS_INFINITY.
Proof. unfold upper_kind. by destruct (upper_is_inf s i). Qed.

Lemma is_zero_iff (s : state) i : is_zero s i = true <->
  ezero (val := val) (lower s i) (lower_kind s i) /\ ezero (val := val) (upper s i) (upper_kind s i).
Proof. unfold is_zero, lower_is_zero, upper_is_zero. by rewrite andb_true_iff, !ezero_iff. Qed.

Lemma le_or_eq (v w : R) : v < w \/ EN_NUMERAL = EN_NUMERAL /\ v = w <-> EN_NUMERAL = EN_NUMERAL /\ v <= w.
Proof.
  split; [intros [?|[_ ?]]; split; lra || done | intros [_ ?]].
  destruct (Rlt_le_dec v w); [by left | right; split; lra || done].
Qed.

Lemma is_N_iff (s : state) i :
  is_N s i = true <-> upper_kind s i = EN_NUMERAL /\ val (upper s i) <= 0.
Proof.
  unfold is_N, upper_is_neg, upper_is_zero. rewrite orb_true_iff, is_neg_spec, ezero_iff.
  pose proof (upper_kind_not_minus s i) as U. unfold ezero.
  destruct (upper_kind s i); simpl; [done | | by split; [intros [[]|[? _]] | intros [? _]]].
  by rewrite <- le_or_eq.
Qed.
Lemma is_P_iff (s : state) i :
  is_P s i = true <-> lower_kind s i = EN_NUMERAL /\ 0 <= val (lower s i).
Proof.
  unfold is_P, lower_is_pos, lower_is_zero. rewrite orb_true_iff, is_pos_spec, ezero_iff.
  pose proof (lower_kind_not_plus s i) as U. unfold ezero.
  destruct (lower_kind s i); simpl; [by split; [intros [[]|[? _]] | intros [? _]] | | done].
  rewrite <- le_or_eq. split; intros [?|[? ?]]; auto.
Qed.
Lemma is_M_iff (s : state) i : is_M s i = true <->
  eneg (val := val) (lower s i) (lower_kind s i) /\ epos (val := val) (upper s i) (upper_kind s i).
Proof. unfold is_M, lower_is_neg, upper_is_pos. by rewrite andb_true_iff, is_neg_spec, is_pos_spec. Qed.

Lemma is_N0_iff (s : state) i : is_N0 s i = true <->
  ezero (val := val) (upper s i) (upper_kind s i) /\ upper_is_open s i = false.
Proof. unfold is_N0, upper_is_zero. by rewrite andb_true_iff, ezero_iff, negb_true_iff. Qed.
Lemma is_P0_iff (s : state) i : is_P0 s i = true <->
  ezero (val := val) (lower s i) (lower_kind s i) /\ lower_is_open s i = false.
Proof. unfold is_P0, lower_is_zero. by rewrite andb_true_iff, ezero_iff, negb_true_iff. Qed.

(** The three cases of the operations, for an interval that is not empty and not zero. *)
Inductive sign_case (s : state) (i : loc) : Prop :=
  | SignN : is_N s i = true -> upper_kind s i = EN_NUMERAL -> val (upper s i) <= 0 ->
      eneg (val := val) (lower s i) (lower_kind s i) -> sign_case s i
  | SignM : is_N s i = false -> is_M s i = true ->
      eneg (val := val) (lower s i) (lower_kind s i) ->
      epos (val := val) (upper s i) (upper_kind s i) -> sign_case s i
  | SignP : is_N s i = false -> is_M s i = false -> lower_kind s i = EN_NUMERAL ->
      0 <= val (lower s i) -> epos (val := val) (upper s i) (upper_kind s i) -> sign_case s i.

Lemma sign_cases s i : check_invariant s i = true -> is_zero s i = false -> sign_case s i.
Proof.
  intros (x & Hl & Hu)%invariant_member Hz. apply not_true_iff_false in Hz. rewrite is_zero_iff in Hz.
  pose proof (is_N_iff s i) as EN. pose proof (is_M_iff s i) as EM.
  pose proof (lower_kind_not_plus s i). pose proof (upper_kind_not_minus s i).
  unfold lower_ok, upper_ok, ezero in *.
  destruct (is_N s i) eqn:N.
  - destruct (proj1 EN eq_refl) as [Eu Hu']. apply SignN; try done.
    destruct (lower_kind s i) eqn:El; try done. rewrite Eu in *. simpl in *. apply le_o_le in Hl, Hu.
    destruct (Rlt_le_dec (val (lower s i)) 0); [done|]. exfalso. apply Hz. split; split; done || lra.
  - assert (Hp : epos (val := val) (upper s i) (upper_kind s i)).
    { destruct (upper_kind s i); try done. simpl. destruct (Rlt_le_dec 0 (val (upper s i))); [done|].
      by assert (false = true) by (apply EN; split; done || lra). }
    destruct (is_M s i) eqn:ME.
    + apply SignM; try done. by apply EM.
    + assert (Hm : ~ eneg (val := val) (lower s i) (lower_kind s i)).
      { intros Hn. by assert (false = true) by (by apply EM). }
      apply SignP; try done; destruct (lower_kind s i); simpl in *; done || lra.
Qed.

End Proofs.

Ltac ist :=
  unfold lower_ok, upper_ok, lower_kind, upper_kind, lower, upper, lower_is_open, upper_is_open,
    lower_is_inf, upper_is_inf;
  cbn -[elb eub is_minus_inf is_plus_inf ext_numeral.mul ext_numeral.div ext_numeral.add ext_numeral.sub];
  rewrite ?fn_lookup_insert.
