(* ===== verification/IntervalSound.v ===== *)
(** * IntervalSound: each operation of the interval manager is justified *)
From S2P Require Import Prelude.
From S2P Require Import ExtNumeral.
From S2P Require Import Interval.
From S2P Require Import IntervalBounds.
From S2P Require Import IntervalProofs.
From Stdlib Require Import ZArith Lia Reals Lra Psatz.
From stdpp Require Import base tactics option list numbers functions.
Close Scope word_scope.
Open Scope R_scope.
Import interval_manager.

Section Sound.
Context {num : Type} {M : NumManager num} {val : num -> R} {L : NumLaws val}.
Abbreviation state := (imstate num).
Abbreviation justified := (justified (val := val)).
Abbreviation lower_ok := (lower_ok (val := val)).
Abbreviation upper_ok := (upper_ok (val := val)).
Abbreviation member := (member (val := val)).

(** *** What an operation leaves unchanged *)

Definition same_at (s s' : state) (j : loc) : Prop :=
  lower s' j = lower s j /\ upper s' j = upper s j /\
  lower_is_open s' j = lower_is_open s j /\ upper_is_open s' j = upper_is_open s j /\
  lower_is_inf s' j = lower_is_inf s j /\ upper_is_inf s' j = upper_is_inf s j.

Lemma same_at_member s s' j x : same_at s s' j -> member s' j x <-> member s j x.
Proof.
  intros (E1 & E2 & E3 & E4 & E5 & E6). unfold IntervalProofs.member, IntervalProofs.lower_ok,
    IntervalProofs.upper_ok, lower_kind, upper_kind. by rewrite E1, E2, E3, E4, E5, E6.
Qed.

Ltac frame :=
  intros Hj; unfold same_at, lower, upper, lower_is_open, upper_is_open, lower_is_inf, upper_is_inf;
  cbv zeta;
  repeat match goal with
  | |- context [if ?c then _ else _] => destruct c
  | |- context [let '(_, _) := ext_numeral.mul ?u ?a ?ak ?b ?bk in _] =>
      destruct (ext_numeral.mul u a ak b bk)
  | |- context [let '(_, _) := ?e in _] => destruct e
  end;
  cbn; rewrite ?fn_lookup_insert_ne by done; done.

Lemma set_frame t i (s : state) j : j <> t -> same_at s (set t i s) j.
Proof. unfold set. frame. Qed.
Lemma neg_frame a b (s : state) j : j <> b -> same_at s (neg a b s) j.
Proof. unfold neg. frame. Qed.
Lemma add_frame a b c (s : state) j : j <> c -> same_at s (add a b c s) j.
Proof. unfold add. frame. Qed.
Lemma sub_frame a b c (s : state) j : j <> c -> same_at s (sub a b c s) j.
Proof. unfold sub. frame. Qed.
Lemma div_mul_frame k a b ik (s : state) j : j <> b -> same_at s (div_mul k a b ik s) j.
Proof. unfold div_mul. frame. Qed.
Lemma mul_frame a b c (s : state) j : j <> c -> same_at s (mul a b c s) j.
Proof. unfold mul, set. frame. Qed.
Lemma power_frame a n b (s : state) j : j <> b -> same_at s (power a n b s) j.
Proof. unfold power, set. frame. Qed.
Lemma div_frame a b c (s : state) j : j <> c -> same_at s (div a b c s) j.
Proof. unfold div. frame. Qed.

(** *** Copies and negations *)

Lemma set_lower_ok t i (s : state) x : lower_ok (set t i s) t x <-> lower_ok s i x.
Proof.
  unfold set. case_bool_decide as E; [by subst|]. ist.
  destruct (im_lower_inf s i) eqn:E1, (im_upper_inf s i) eqn:E2; cbn -[elb eub];
    rewrite ?fn_lookup_insert, ?E1, ?E2; cbn -[elb eub]; rewrite ?fn_lookup_insert, ?E1; done.
Qed.
Lemma set_upper_ok t i (s : state) x : upper_ok (set t i s) t x <-> upper_ok s i x.
Proof.
  unfold set. case_bool_decide as E; [by subst|]. ist.
  destruct (im_lower_inf s i) eqn:E1, (im_upper_inf s i) eqn:E2; cbn -[elb eub];
    rewrite ?fn_lookup_insert, ?E1, ?E2; cbn -[elb eub]; rewrite ?fn_lookup_insert, ?E1, ?E2; done.
Qed.

Lemma reset_lower_ok (s : state) b x : lower_ok (reset b s) b x.
Proof. unfold reset, reset_lower, reset_upper. ist. done. Qed.
Lemma reset_upper_ok (s : state) b x : upper_ok (reset b s) b x.
Proof. unfold reset, reset_lower, reset_upper. ist. done. Qed.

Lemma neg_justified (s : state) a b x : justified s (neg a b s) (neg_jst s a) a a b x x (- x).
Proof.
  unfold neg, neg_jst, IntervalProofs.justified, deps_sat. unfold lower_is_inf, upper_is_inf.
  destruct (im_lower_inf s a) eqn:E1, (im_upper_inf s a) eqn:E2; cbn.
  - split; intros _; [apply reset_lower_ok | apply reset_upper_ok].
  - split; intros (_ & Hu & _); [specialize (Hu eq_refl); revert Hu | clear Hu]; ist; rewrite ?E2.
    + simpl. rewrite val_neg. apply le_o_opp.
    + done.
  - split; intros (Hl & _); [clear Hl | specialize (Hl eq_refl); revert Hl]; ist; rewrite ?E1; [done|].
    simpl. rewrite val_neg. apply le_o_opp.
  - case_bool_decide as E; [subst b|]; (split; intros (Hl & Hu & _);
      [specialize (Hu eq_refl); revert Hu; clear Hl | specialize (Hl eq_refl); revert Hl; clear Hu]);
      ist; rewrite ?E1, ?E2; simpl; rewrite val_neg; apply le_o_opp.
Qed.

(** *** Sums and differences *)

Lemma add_justified (s : state) a b c x y :
  justified s (add a b c s) (add_jst s a b) a b c x y (x + y).
Proof.
  split; cbn [add_jst m_lower_combine m_upper_combine]; intros (D1 & D2 & D3 & D4); cbn in D1, D2, D3, D4.
  - specialize (D1 eq_refl). specialize (D3 eq_refl). pose proof (add_lb _ _ _ _ _ _ _ _ D1 D3) as E.
    unfold add. cbv zeta. revert E. ist.
    destruct (ext_numeral.add false _ _ _ _) as [v k], (ext_numeral.add true _ _ _ _) as [w kw].
    unfold both. cbn -[elb]. rewrite !fn_lookup_insert. intros E.
    rewrite is_minus_inf_kind; [done|]. intros ->. done.
  - specialize (D2 eq_refl). specialize (D4 eq_refl). pose proof (add_ub _ _ _ _ _ _ _ _ D2 D4) as E.
    unfold add. cbv zeta. revert E. ist.
    destruct (ext_numeral.add false _ _ _ _) as [v k], (ext_numeral.add true _ _ _ _) as [w kw] eqn:Ew.
    unfold both. revert Ew. cbn -[eub ext_numeral.add]. rewrite !fn_lookup_insert. intros Ew E.
    rewrite is_plus_inf_kind; [done|]. intros ->. done.
Qed.

(** The upper bound reads the subtrahend after the lower bound of the result was written. *)
Lemma sub_justified (s : state) a b c x y : b <> c ->
  justified s (sub a b c s) (sub_jst s a b) a b c x y (x - y).
Proof.
  intros Hbc. split; cbn [sub_jst m_lower_combine m_upper_combine]; intros (D1 & D2 & D3 & D4); cbn in D1, D2, D3, D4.
  - specialize (D1 eq_refl). specialize (D4 eq_refl). pose proof (sub_lb _ _ _ _ _ _ _ _ D1 D4) as E.
    unfold sub. cbv zeta. revert E. ist.
    destruct (ext_numeral.sub false _ _ _ _) as [v k], (ext_numeral.sub true _ _ _ _) as [w kw].
    unfold both. cbn -[elb]. rewrite !fn_lookup_insert. intros E.
    rewrite is_minus_inf_kind; [done|]. intros ->. done.
  - specialize (D2 eq_refl). specialize (D3 eq_refl). pose proof (sub_ub _ _ _ _ _ _ _ _ D2 D3) as E.
    unfold sub. cbv zeta. revert E. ist. rewrite ?fn_lookup_insert_ne by done.
    destruct (ext_numeral.sub false _ _ _ _) as [v k]. cbn -[eub ext_numeral.sub].
    rewrite !fn_lookup_insert_ne by done.
    destruct (ext_numeral.sub true _ _ _ _) as [w kw] eqn:Ew.
    unfold both. cbn -[eub ext_numeral.sub]. rewrite !fn_lookup_insert, ?fn_lookup_insert_ne by done. intros E.
    rewrite is_plus_inf_kind; [done|]. intros ->. done.
Qed.

(** *** Products by a number *)

Lemma div_mul_justified (s : state) (k : num) a b (ik : bool) x K :
  (forall up, val (if ik then m_inv up k else k) = K) ->
  (0 < val k -> 0 < K) -> (val k < 0 -> K < 0) ->
  justified s (div_mul k a b ik s) (mul_k_jst s k a) a a b x x (x * K).
Proof.
  intros HK Kp Kn. unfold div_mul, mul_k_jst.
  destruct (m_is_zero k) eqn:Z.
  { split; intros _; [apply reset_lower_ok | apply reset_upper_ok]. }
  apply not_true_iff_false in Z. rewrite val_is_zero in Z. destruct (m_is_pos k) eqn:P.
  - apply val_is_pos in P. replace (m_is_neg k) with false
      by (symmetry; apply not_true_iff_false; rewrite val_is_neg; lra).
    cbv zeta. split; cbn [m_lower_combine m_upper_combine]; intros (D1 & D2 & _); cbn in D1, D2.
    + rewrite <- (HK false) in *. destruct ik; apply set_bounds_lower; ist;
        apply (mulk_pos_lb _ _ _ _ _ (D1 eq_refl)); auto.
    + rewrite <- (HK true) in *. destruct ik; apply set_bounds_upper; ist;
        apply (mulk_pos_ub _ _ _ _ _ (D2 eq_refl)); auto.
  - apply not_true_iff_false in P. rewrite val_is_pos in P. assert (N : val k < 0) by lra.
    rewrite (proj2 (val_is_neg k) N).
    cbv zeta. split; cbn [m_lower_combine m_upper_combine]; intros (D1 & D2 & _); cbn in D1, D2.
    + rewrite <- (HK false) in *. destruct ik; apply set_bounds_lower; ist;
        apply (mulk_neg_lb _ _ _ _ _ (D2 eq_refl)); auto.
    + rewrite <- (HK true) in *. destruct ik; apply set_bounds_upper; ist;
        apply (mulk_neg_ub _ _ _ _ _ (D1 eq_refl)); auto.
Qed.

Lemma mul_k_justified (s : state) k a b x :
  justified s (mul_k k a b s) (mul_k_jst s k a) a a b x x (x * val k).
Proof. by apply div_mul_justified. Qed.

Lemma inv_exact up k : m_precise = true -> val k <> 0 -> val (m_inv up k) = / val k.
Proof. intros Hp Hk. by apply (val_inv up k Hk). Qed.

(** Exact for a precise manager only: the rounded inverse is not on the right side for every sign. *)
Lemma div_k_justified (s : state) k a b x : m_precise = true ->
  justified s (div_k a k b s) (div_k_jst s a k) a a b x x (x / val k).
Proof.
  intros Hp. destruct (Req_dec (val k) 0) as [E|E].
  - unfold div_k, div_mul. rewrite (proj2 (val_is_zero k) E).
    split; intros _; [apply reset_lower_ok | apply reset_upper_ok].
  - apply div_mul_justified; [intros up; by apply inv_exact | apply Rinv_0_lt_compat | apply Rinv_lt_0_compat].
Qed.

(** *** Products *)

Lemma zero_member (s : state) i x : is_zero s i = true -> lower_ok s i x -> upper_ok s i x -> x = 0.
Proof.
  intros [[El Zl] [Eu Zu]]%(is_zero_iff (val := val)). unfold IntervalProofs.lower_ok, IntervalProofs.upper_ok.
  rewrite El, Eu. intros Hl%le_o_le Hu%le_o_le. lra.
Qed.

Lemma mul_zero_justified (s : state) i1 i2 r x y :
  is_zero s i1 = true \/ (is_zero s i1 = false /\ is_zero s i2 = true) ->
  justified s (mul i1 i2 r s) (mul_jst s i1 i2) i1 i2 r x y (x * y).
Proof.
  unfold mul, mul_jst. intros [Z|[Z1 Z2]].
  - rewrite Z. split; cbn; intros (D1 & D2 & _); specialize (D1 eq_refl); specialize (D2 eq_refl);
      pose proof (zero_member _ _ _ Z D1 D2) as ->; rewrite Rmult_0_l;
      [by apply set_lower_ok | by apply set_upper_ok].
  - rewrite Z1, Z2. split; cbn; intros (_ & _ & D1 & D2); specialize (D1 eq_refl); specialize (D2 eq_refl);
      pose proof (zero_member _ _ _ Z2 D1 D2) as ->; rewrite Rmult_0_r;
      [by apply set_lower_ok | by apply set_upper_ok].
Qed.

(** The bounds given by a rule, and then the bound of the result. *)
Ltac use_deps :=
  cbv zeta; cbn [m_lower_combine m_upper_combine]; split;
  intros (D1 & D2 & D3 & D4); cbn in D1, D2, D3, D4;
  repeat match goal with
  | H : true = true -> _ |- _ => specialize (H eq_refl)
  | H : false = true -> _ |- _ => clear H
  end;
  [apply set_bounds_lower | apply set_bounds_upper]; ist.
Ltac test_rewrite :=
  repeat match goal with
  | H : is_N _ _ = _ |- _ => rewrite H; clear H
  | H : is_M _ _ = _ |- _ => rewrite H; clear H
  | H : is_zero _ _ = _ |- _ => rewrite H; clear H
  end.

Lemma upper_ok_num (s : state) i x :
  upper_kind s i = EN_NUMERAL -> upper_ok s i x -> le_o (upper_is_open s i) x (val (upper s i)).
Proof. unfold IntervalProofs.upper_ok. by intros ->. Qed.
Lemma lower_ok_num (s : state) i x :
  lower_kind s i = EN_NUMERAL -> lower_ok s i x -> le_o (lower_is_open s i) (val (lower s i)) x.
Proof. unfold IntervalProofs.lower_ok. by intros ->. Qed.

Lemma mul_N_justified (s : state) i1 i2 r x y :
  is_zero s i1 = false -> is_zero s i2 = false -> is_N s i1 = true -> upper_kind s i1 = EN_NUMERAL ->
  val (upper s i1) <= 0 -> eneg (val := val) (lower s i1) (lower_kind s i1) -> sign_case (val := val) s i2 ->
  justified s (mul i1 i2 r s) (mul_jst s i1 i2) i1 i2 r x y (x * y).
Proof.
  intros Z1 Z2 N1 U1 B1 A1 S2. unfold mul, mul_jst.
  assert (X : upper_ok s i1 x -> x <= 0).
  { intros Hx. apply upper_ok_num in Hx; [|done]. apply le_o_le in Hx. lra. }
  destruct S2 as [N2 U2 B2 A2 | N2 M2 A2 B2 | N2 M2 L2 A2 B2]; test_rewrite.
  - use_deps.
    + apply upper_ok_num in D2 as H1, D4 as H2; try done.
      replace (if im_upper_inf s i1 then _ else _) with EN_NUMERAL by done.
      replace (if im_upper_inf s i2 then _ else _) with EN_NUMERAL by done.
      apply (inner_nn _ _ _ _ _ _ _ H1 H2 B1 B2).
      by apply (zopen_if _ _ (upper_kind s i1) _ _ (upper_kind s i2)); [apply is_N0_iff | apply is_N0_iff | |].
    + apply (outer_nn _ _ _ _ _ _ _ _ (or_introl (X D2)) D1 D3 A1 A2).
  - use_deps.
    + apply (outer_np _ _ _ _ _ _ _ _ (or_introl (X D2)) D1 D4 A1 B2).
    + apply (outer_nn _ _ _ _ _ _ _ _ (or_introl (X D2)) D1 D3 A1 A2).
  - use_deps.
    + apply (outer_np _ _ _ _ _ _ _ _ (or_introl (X D2)) D1 D4 A1 B2).
    + apply upper_ok_num in D2 as H1; [|done]. apply lower_ok_num in D3 as H2; [|done].
      replace (if im_upper_inf s i1 then _ else _) with EN_NUMERAL by done.
      replace (if im_lower_inf s i2 then _ else _) with EN_NUMERAL by done.
      apply (inner_np _ _ _ _ _ _ _ H1 H2 B1 A2).
      by apply (zopen_if _ _ (upper_kind s i1) _ _ (lower_kind s i2)); [apply is_N0_iff | apply is_P0_iff | |].
Qed.

Lemma mul_MM_justified (s : state) i1 i2 r x y :
  is_zero s i1 = false -> is_zero s i2 = false -> is_N s i1 = false -> is_M s i1 = true ->
  eneg (val := val) (lower s i1) (lower_kind s i1) -> epos (val := val) (upper s i1) (upper_kind s i1) ->
  is_N s i2 = false -> is_M s i2 = true ->
  eneg (val := val) (lower s i2) (lower_kind s i2) -> epos (val := val) (upper s i2) (upper_kind s i2) ->
  justified s (mul i1 i2 r s) (mul_jst s i1 i2) i1 i2 r x y (x * y).
Proof.
  intros Z1 Z2 N1 M1 A1 B1 N2 M2 A2 B2. unfold mul, mul_jst. test_rewrite. cbv zeta.
  cbn [m_lower_combine m_upper_combine]; split; intros (D1 & D2 & D3 & D4); cbn in D1, D2, D3, D4;
    specialize (D1 eq_refl); specialize (D2 eq_refl); specialize (D3 eq_refl); specialize (D4 eq_refl);
    (destruct (Rle_lt_dec x 0) as [X|X%Rlt_le];
      [pose proof (outer_np _ _ _ _ _ _ _ _ (or_introl X) D1 D4 A1 B2) as Hl;
       pose proof (outer_nn _ _ _ _ _ _ _ _ (or_introl X) D1 D3 A1 A2) as Hu
      |pose proof (outer_pn _ _ _ _ _ _ _ _ (or_introl X) D2 D3 B1 A2) as Hl;
       pose proof (outer_pp _ _ _ _ _ _ _ _ (or_introl X) D2 D4 B1 B2) as Hu]);
    unfold xmul_lb in Hl; unfold xmul_ub in Hu; cbn [im_up round_to_minus_inf round_to_plus_inf];
    destruct (ext_numeral.mul false (lower s i1) _ _ _) as [ad ad_k],
      (ext_numeral.mul false (upper s i1) _ _ _) as [bc bc_k],
      (ext_numeral.mul true (lower s i1) _ _ _) as [ac ac_k],
      (ext_numeral.mul true (upper s i1) _ _ _) as [bd bd_k]; cbn [fst snd] in Hl, Hu.
  1: apply (or_introl (B := elb (val := val) (upper_is_open s i1 || lower_is_open s i2) bc bc_k (x * y))) in Hl; clear Hu.
  2: apply (or_intror (A := elb (val := val) (lower_is_open s i1 || upper_is_open s i2) ad ad_k (x * y))) in Hl; clear Hu.
  3: apply (or_introl (B := eub (val := val) (upper_is_open s i1 || upper_is_open s i2) bd bd_k (x * y))) in Hu; clear Hl.
  4: apply (or_intror (A := eub (val := val) (lower_is_open s i1 || lower_is_open s i2) ac ac_k (x * y))) in Hu; clear Hl.
  1, 2: apply pick_lt_lb in Hl.
  3, 4: apply pick_gt_ub in Hu.
  1, 2: unfold pick_lt in Hl; destruct (ext_numeral.lt ad ad_k bc bc_k || _);
    destruct (ext_numeral.gt ac ac_k bd bd_k || _); apply set_bounds_lower; ist; apply Hl.
  1, 2: unfold pick_gt in Hu; destruct (ext_numeral.lt ad ad_k bc bc_k || _);
    destruct (ext_numeral.gt ac ac_k bd bd_k || _); apply set_bounds_upper; ist; apply Hu.
Qed.

Lemma mul_M_justified (s : state) i1 i2 r x y :
  is_zero s i1 = false -> is_zero s i2 = false -> is_N s i1 = false -> is_M s i1 = true ->
  eneg (val := val) (lower s i1) (lower_kind s i1) -> epos (val := val) (upper s i1) (upper_kind s i1) ->
  sign_case (val := val) s i2 ->
  justified s (mul i1 i2 r s) (mul_jst s i1 i2) i1 i2 r x y (x * y).
Proof.
  intros Z1 Z2 N1 M1 A1 B1 S2. destruct S2 as [N2 U2 B2 A2 | N2 M2 A2 B2 | N2 M2 L2 A2 B2];
    [| by apply mul_MM_justified |]; unfold mul, mul_jst; test_rewrite.
  - assert (Y : upper_ok s i2 y -> y <= 0).
    { intros Hy. apply upper_ok_num in Hy; [|done]. apply le_o_le in Hy. lra. }
    use_deps.
    + apply (outer_pn _ _ _ _ _ _ _ _ (or_intror (Y D4)) D2 D3 B1 A2).
    + apply (outer_nn _ _ _ _ _ _ _ _ (or_intror (Y D4)) D1 D3 A1 A2).
  - assert (Y : lower_ok s i2 y -> 0 <= y).
    { intros Hy. apply lower_ok_num in Hy; [|done]. apply le_o_le in Hy. lra. }
    use_deps.
    + apply (outer_np _ _ _ _ _ _ _ _ (or_intror (Y D3)) D1 D4 A1 B2).
    + apply (outer_pp _ _ _ _ _ _ _ _ (or_intror (Y D3)) D2 D4 B1 B2).
Qed.

Lemma mul_P_justified (s : state) i1 i2 r x y :
  is_zero s i1 = false -> is_zero s i2 = false -> is_N s i1 = false -> is_M s i1 = false ->
  lower_kind s i1 = EN_NUMERAL -> 0 <= val (lower s i1) ->
  epos (val := val) (upper s i1) (upper_kind s i1) -> sign_case (val := val) s i2 ->
  justified s (mul i1 i2 r s) (mul_jst s i1 i2) i1 i2 r x y (x * y).
Proof.
  intros Z1 Z2 N1 M1 L1 A1 B1 S2. unfold mul, mul_jst.
  assert (X : lower_ok s i1 x -> 0 <= x).
  { intros Hx. apply lower_ok_num in Hx; [|done]. apply le_o_le in Hx. lra. }
  destruct S2 as [N2 U2 B2 A2 | N2 M2 A2 B2 | N2 M2 L2 A2 B2]; test_rewrite.
  - use_deps.
    + apply (outer_pn _ _ _ _ _ _ _ _ (or_introl (X D1)) D2 D3 B1 A2).
    + apply lower_ok_num in D1 as H1; [|done]. apply upper_ok_num in D4 as H2; [|done].
      replace (if im_lower_inf s i1 then _ else _) with EN_NUMERAL by done.
      replace (if im_upper_inf s i2 then _ else _) with EN_NUMERAL by done.
      apply (inner_pn _ _ _ _ _ _ _ H1 H2 A1 B2).
      by apply (zopen_if _ _ (lower_kind s i1) _ _ (upper_kind s i2)); [apply is_P0_iff | apply is_N0_iff | |].
  - use_deps.
    + apply (outer_pn _ _ _ _ _ _ _ _ (or_introl (X D1)) D2 D3 B1 A2).
    + apply (outer_pp _ _ _ _ _ _ _ _ (or_introl (X D1)) D2 D4 B1 B2).
  - use_deps.
    + apply lower_ok_num in D1 as H1; [|done]. apply lower_ok_num in D3 as H2; [|done].
      replace (if im_lower_inf s i1 then _ else _) with EN_NUMERAL by done.
      replace (if im_lower_inf s i2 then _ else _) with EN_NUMERAL by done.
      apply (inner_pp _ _ _ _ _ _ _ H1 H2 A1 A2).
      by apply (zopen_if _ _ (lower_kind s i1) _ _ (lower_kind s i2)); [apply is_P0_iff | apply is_P0_iff | |].
    + apply (outer_pp _ _ _ _ _ _ _ _ (or_introl (X D1)) D2 D4 B1 B2).
Qed.

Lemma mul_justified (s : state) i1 i2 r x y :
  check_invariant s i1 = true -> check_invariant s i2 = true ->
  justified s (mul i1 i2 r s) (mul_jst s i1 i2) i1 i2 r x y (x * y).
Proof.
  intros I1 I2. destruct (is_zero s i1) eqn:Z1; [apply mul_zero_justified; by left|].
  destruct (is_zero s i2) eqn:Z2; [apply mul_zero_justified; by right|].
  pose proof (sign_cases s i2 I2 Z2) as S2.
  destruct (sign_cases (val := val) s i1 I1 Z1).
  - by apply mul_N_justified.
  - by apply mul_M_justified.
  - by apply mul_P_justified.
Qed.

(** *** Powers *)

(** The powers a manager rounds in the requested direction. *)
Definition power_ok (v : num) (n : nat) : Prop :=
  m_precise = true \/ 0 <= val v \/ (n <= 2)%nat.

Lemma power_dn v n : (0 < n)%nat -> power_ok v n -> val (m_power false v n) <= val v ^ n.
Proof. intros Hn Hv. apply rounds_dn, val_power; [right; lia | done]. Qed.
Lemma power_up v n : (0 < n)%nat -> power_ok v n -> val v ^ n <= val (m_power true v n).
Proof. intros Hn Hv. apply rounds_up, val_power; [right; lia | done]. Qed.

Lemma power_1_justified (s : state) a b x : justified s (power a 1 b s) (power_jst s a 1) a a b x x (x ^ 1).
Proof.
  rewrite pow_1. unfold power, power_jst. split; cbn; intros (D1 & D2 & _).
  - apply set_lower_ok, D1. done.
  - apply set_upper_ok, D2. done.
Qed.

Lemma power_pos_justified (s : state) a n b x :
  (0 < n)%nat -> n <> 1%nat -> Nat.even n = true -> lower_is_pos s a = true ->
  justified s (power a n b s) (power_jst s a n) a a b x x (x ^ n).
Proof.
  intros Hn H1 He Hp. unfold power, power_jst. rewrite (proj2 (Nat.eqb_neq _ _) H1), He, Hp.
  apply is_pos_spec in Hp. pose proof (lower_kind_not_plus s a).
  assert (El : lower_kind s a = EN_NUMERAL) by (by destruct (lower_kind s a)). rewrite El in Hp. simpl in Hp.
  cbv zeta. cbn [m_lower_combine m_upper_combine]; split.
  - intros (D1 & _). specialize (D1 eq_refl). apply lower_ok_num in D1; [|done].
    assert (G : le_o (lower_is_open s a) (val (m_power false (lower s a) n)) (x ^ n)).
    { eapply le_o_trans_l; [apply power_dn; [done | right; left; lra] | apply pow_le_o; done || lra]. }
    destruct (upper_is_inf _ a); ist; exact G.
  - unfold upper_is_inf; cbn -[lower_is_open]. destruct (im_upper_inf s a) eqn:Eu; [intros _; by ist|].
    intros (D1 & D2 & _). specialize (D1 eq_refl). specialize (D2 eq_refl). apply lower_ok_num in D1; [|done].
    unfold IntervalProofs.upper_ok, upper_kind, upper_is_inf in D2. rewrite Eu in D2. simpl in D2.
    apply le_o_le in D1, D2 as D2'.
    assert (G : le_o (upper_is_open s a) (x ^ n) (val (m_power true (upper s a) n))).
    { eapply le_o_trans_r; [apply (pow_le_o _ _ (val (upper s a))); done || lra|].
      apply power_up; [done | right; left; lra]. }
    ist. exact G.
Qed.

Lemma power_neg_justified (s : state) a n b x :
  (0 < n)%nat -> n <> 1%nat -> Nat.even n = true -> lower_is_pos s a = false -> upper_is_neg s a = true ->
  power_ok (lower s a) n -> power_ok (upper s a) n ->
  justified s (power a n b s) (power_jst s a n) a a b x x (x ^ n).
Proof.
  intros Hn H1 He Hp Hu Ol Ou. unfold power, power_jst.
  rewrite (proj2 (Nat.eqb_neq _ _) H1), He, Hp, Hu.
  apply is_neg_spec in Hu. pose proof (upper_kind_not_minus s a).
  assert (Eu : upper_kind s a = EN_NUMERAL) by (by destruct (upper_kind s a)). rewrite Eu in Hu. simpl in Hu.
  assert (Hop : forall o v w, le_o o v w -> w <= 0 -> le_o o (w ^ n) (v ^ n)).
  { intros o v w Hvw Hw. rewrite <- (pow_opp_even v), <- (pow_opp_even w) by done.
    apply pow_le_o; [lra | done | by apply le_o_opp]. }
  cbv zeta. cbn [m_lower_combine m_upper_combine]; split.
  - intros (_ & D2 & _). specialize (D2 eq_refl). apply upper_ok_num in D2; [|done].
    assert (G : le_o (upper_is_open s a) (val (m_power false (upper s a) n)) (x ^ n)).
    { eapply le_o_trans_l; [by apply power_dn | apply Hop; done || lra]. }
    destruct (lower_is_inf _ a); ist; exact G.
  - unfold lower_is_inf; cbn -[lower_is_open]. destruct (im_lower_inf s a) eqn:El; [intros _; by ist|].
    intros (D1 & D2 & _). specialize (D1 eq_refl). specialize (D2 eq_refl). apply upper_ok_num in D2; [|done].
    unfold IntervalProofs.lower_ok, lower_kind, lower_is_inf in D1. rewrite El in D1. simpl in D1.
    apply le_o_le in D2.
    assert (G : le_o (lower_is_open s a) (x ^ n) (val (m_power true (lower s a) n))).
    { eapply le_o_trans_r; [apply Hop; [done | lra] | by apply power_up]. }
    ist. exact G.
Qed.

(** [x^n] is below the power of the bound on its side of zero. *)
Lemma power_mid_ub (s : state) a n x :
  (0 < n)%nat -> Nat.even n = true -> lower_is_pos s a = false -> upper_is_neg s a = false ->
  power_ok (lower s a) n -> power_ok (upper s a) n -> lower_ok s a x -> upper_ok s a x ->
  both (fun v k => eub (val := val) (lower_is_open s a) v k (x ^ n))
       (ext_numeral.power true (lower s a) (lower_kind s a) n) \/
  both (fun v k => eub (val := val) (upper_is_open s a) v k (x ^ n))
       (ext_numeral.power true (upper s a) (upper_kind s a) n).
Proof.
  intros Hn He Hp Hu Ol Ou Hl Hx. unfold both, IntervalProofs.lower_ok, IntervalProofs.upper_ok in *.
  apply not_true_iff_false in Hp, Hu. unfold lower_is_pos in Hp. unfold upper_is_neg in Hu.
  rewrite (is_pos_spec (val := val)) in Hp. rewrite (is_neg_spec (val := val)) in Hu.
  destruct (Rle_lt_dec 0 x) as [X|X].
  - right. destruct (upper_kind s a); simpl in *; try done.
    eapply le_o_trans_r; [by apply pow_le_o | by apply power_up].
  - left. destruct (lower_kind s a); simpl in *; try done; [by rewrite He|].
    eapply le_o_trans_r; [|by apply power_up].
    rewrite <- (pow_opp_even x), <- (pow_opp_even (val (lower s a))) by done.
    apply pow_le_o; [lra | done | by apply le_o_opp].
Qed.

Lemma power_mid_justified (s : state) a n b x :
  (0 < n)%nat -> n <> 1%nat -> Nat.even n = true -> lower_is_pos s a = false -> upper_is_neg s a = false ->
  power_ok (lower s a) n -> power_ok (upper s a) n ->
  justified s (power a n b s) (power_jst s a n) a a b x x (x ^ n).
Proof.
  intros Hn H1 He Hp Hu Ol Ou. unfold power, power_jst.
  rewrite (proj2 (Nat.eqb_neq _ _) H1), He, Hp, Hu.
  cbv zeta. cbn [m_lower_combine m_upper_combine]; split.
  - intros _. assert (G : le_o false (val m_zero) (x ^ n)).
    { rewrite val_zero. by apply pow_even_nonneg. }
    destruct (ext_numeral.power _ (lower s a) _ _), (ext_numeral.power _ (upper s a) _ _).
    destruct (ext_numeral.gt _ _ _ _ || _); ist; exact G.
  - intros (D1 & D2 & _). specialize (D1 eq_refl). specialize (D2 eq_refl).
    pose proof (power_mid_ub s a n x Hn He Hp Hu Ol Ou D1 D2) as G.
    cbn [im_up round_to_plus_inf]. change (lower_is_open (round_to_plus_inf s) a) with (lower_is_open s a).
    change (upper_is_open (round_to_plus_inf s) a) with (upper_is_open s a).
    destruct (ext_numeral.power true (lower s a) _ _) as [un1 k1], (ext_numeral.power true (upper s a) _ _) as [un2 k2].
    unfold both in G. cbn [fst snd] in G. apply pick_gt_ub in G. unfold pick_gt in G.
    destruct (ext_numeral.gt un1 k1 un2 k2 || _); ist;
      (rewrite is_plus_inf_kind; [exact G | by intros ->]).
Qed.

(** With an odd exponent the rounding mode is the one left by earlier operations. *)
Lemma power_odd_justified (s : state) a n b x :
  Nat.even n = false -> n <> 1%nat -> m_precise = true ->
  justified s (power a n b s) (power_jst s a n) a a b x x (x ^ n).
Proof.
  intros Ho H1 Hprec. unfold power, power_jst.
  assert (V : forall up v, val (m_power up v n) = val v ^ n).
  { intros up v. apply (val_power (val := val) up v n); [right; by intros -> | by left | done]. }
  rewrite (proj2 (Nat.eqb_neq _ _) H1), Ho. cbv zeta. unfold lower_is_inf, upper_is_inf.
  cbn [m_lower_combine m_upper_combine]; split.
  - destruct (im_lower_inf s a) eqn:El.
    { intros _. unfold reset_lower, reset_upper. destruct (im_upper_inf _ a); by ist. }
    intros (D1 & _). specialize (D1 eq_refl). unfold IntervalProofs.lower_ok, lower_kind, lower_is_inf in D1.
    rewrite El in D1. simpl in D1.
    assert (G : le_o (lower_is_open s a) (val (m_power (im_up s) (lower s a) n)) (x ^ n)).
    { rewrite V. by apply pow_odd_le_o. }
    unfold reset_upper. destruct (im_upper_inf _ a); ist; exact G.
  - assert (Ei : forall t, im_upper_inf (if im_lower_inf s a then reset_lower b s else t) a =
      if im_lower_inf s a then im_upper_inf s a else im_upper_inf t a) by (intros; by destruct (im_lower_inf s a)).
    rewrite Ei. cbn. replace (if im_lower_inf s a then im_upper_inf s a else im_upper_inf s a) with
      (im_upper_inf s a) by (by destruct (im_lower_inf s a)).
    destruct (im_upper_inf s a) eqn:Eu; [intros _; unfold reset_upper; by ist|].
    intros (_ & D2 & _). specialize (D2 eq_refl). unfold IntervalProofs.upper_ok, upper_kind, upper_is_inf in D2.
    rewrite Eu in D2. simpl in D2.
    assert (G : le_o (upper_is_open s a) (x ^ n) (val (m_power (im_up s) (upper s a) n))).
    { rewrite V. by apply pow_odd_le_o. }
    destruct (im_lower_inf s a); unfold reset_lower; ist; exact G.
Qed.

Definition power_safe (s : state) (a : loc) (n : nat) : Prop :=
  m_precise = true \/ (n <= 2)%nat \/ (Nat.even n = true /\ lower_is_pos s a = true).

Lemma power_justified (s : state) a n b x : (0 < n)%nat -> power_safe s a n ->
  justified s (power a n b s) (power_jst s a n) a a b x x (x ^ n).
Proof.
  intros Hn Hs. destruct (decide (n = 1%nat)) as [->|H1]; [apply power_1_justified|].
  destruct (Nat.even n) eqn:He.
  - destruct (lower_is_pos s a) eqn:Hp; [by apply power_pos_justified|].
    assert (O : forall v, power_ok v n).
    { intros v. destruct Hs as [?|[?|[_ ?]]]; [by left | by right; right | congruence]. }
    destruct (upper_is_neg s a) eqn:Hu; [by apply power_neg_justified | by apply power_mid_justified].
  - apply power_odd_justified; [done | done |]. destruct Hs as [?|[?|[? _]]]; [done | | congruence].
    destruct n as [|[|[|n]]]; done || lia.
Qed.

(** *** Inverse *)

(** An interval that does not contain zero lies on one side of it. *)
Inductive side_case (s : state) (i : loc) : Prop :=
  | SideP : is_P1 s i = true -> is_N1 s i = false -> lower_kind s i = EN_NUMERAL -> 0 <= val (lower s i) ->
      (val (lower s i) = 0 -> lower_is_open s i = true) -> side_case s i
  | SideN : is_P1 s i = false -> is_N1 s i = true -> upper_kind s i = EN_NUMERAL -> val (upper s i) <= 0 ->
      (val (upper s i) = 0 -> upper_is_open s i = true) -> side_case s i.

Lemma is_P1_iff (s : state) i : is_P1 s i = true <->
  lower_kind s i = EN_NUMERAL /\ 0 <= val (lower s i) /\ (val (lower s i) = 0 -> lower_is_open s i = true).
Proof.
  unfold is_P1, lower_is_pos, lower_is_zero. rewrite orb_true_iff, andb_true_iff.
  rewrite (is_pos_spec (val := val)), (ezero_iff (val := val)). unfold ezero.
  pose proof (lower_kind_not_plus s i). destruct (lower_kind s i); simpl; [| |done].
  - split; [intros [[]|[[? _] _]]; done | intros [? _]; done].
  - split; [intros [?|[[_ ?] ?]]; split_and!; done || lra | intros (_ & H1 & H2)].
    destruct (Req_dec (val (lower s i)) 0); [right; split_and!; auto | left; lra].
Qed.
Lemma is_N1_iff (s : state) i : is_N1 s i = true <->
  upper_kind s i = EN_NUMERAL /\ val (upper s i) <= 0 /\ (val (upper s i) = 0 -> upper_is_open s i = true).
Proof.
  unfold is_N1, upper_is_neg, upper_is_zero. rewrite orb_true_iff, andb_true_iff.
  rewrite (is_neg_spec (val := val)), (ezero_iff (val := val)). unfold ezero.
  pose proof (upper_kind_not_minus s i). destruct (upper_kind s i); simpl; [done| |].
  - split; [intros [?|[[_ ?] ?]]; split_and!; done || lra | intros (_ & H1 & H2)].
    destruct (Req_dec (val (upper s i)) 0); [right; split_and!; auto | left; lra].
  - split; [intros [[]|[[? _] _]]; done | intros [? _]; done].
Qed.

Lemma le_o_zero (o : bool) v w : ~ le_o o v w <-> w <= v /\ (v = w -> o = true).
Proof.
  destruct o; simpl; [split; [intros; split; [lra | done] | intros [? _]; lra]|].
  split; [intros; split; [lra | intros ->; lra] | intros [? E] ?].
  assert (F : v = w) by lra. by specialize (E F).
Qed.

Lemma contains_lower_iff (o : bool) (v : num) k :
  ext_numeral.is_neg v k || (ext_numeral.is_zero v k && negb o) = true <-> elb (val := val) o v k 0.
Proof.
  rewrite orb_true_iff, andb_true_iff, (is_neg_spec (val := val)), (ezero_iff (val := val)), negb_true_iff.
  unfold ezero. destruct k; simpl; [tauto | | split; [intros [[]|[[? _] _]]; done | done]].
  destruct o; simpl; [split; [intros [?|[_ ?]]; done | by left]|].
  split; [intros [?|[[_ ?] _]]; lra|]. intros. destruct (Req_dec (val v) 0); [right; auto | left; lra].
Qed.
Lemma contains_upper_iff (o : bool) (v : num) k :
  ext_numeral.is_pos v k || (ext_numeral.is_zero v k && negb o) = true <-> eub (val := val) o v k 0.
Proof.
  rewrite orb_true_iff, andb_true_iff, (is_pos_spec (val := val)), (ezero_iff (val := val)), negb_true_iff.
  unfold ezero. destruct k; simpl; [split; [intros [[]|[[? _] _]]; done | done] | | tauto].
  destruct o; simpl; [split; [intros [?|[_ ?]]; done | by left]|].
  split; [intros [?|[[_ ?] _]]; lra|]. intros. destruct (Req_dec (val v) 0); [right; auto | left; lra].
Qed.

Lemma contains_zero_iff (s : state) i : contains_zero s i = true <-> member s i 0.
Proof.
  unfold contains_zero, IntervalProofs.member. rewrite andb_true_iff.
  unfold lower_is_neg, lower_is_zero, upper_is_pos, upper_is_zero.
  by rewrite contains_lower_iff, contains_upper_iff.
Qed.

Lemma P1_pos (s : state) i x : is_P1 s i = true -> lower_ok s i x -> 0 < x.
Proof.
  intros (K & V & O)%is_P1_iff Hx. apply lower_ok_num in Hx; [|done].
  destruct (Req_dec (val (lower s i)) 0) as [E|E]; [rewrite (O E) in Hx; simpl in Hx; lra|].
  apply le_o_le in Hx. lra.
Qed.
Lemma N1_neg (s : state) i x : is_N1 s i = true -> upper_ok s i x -> x < 0.
Proof.
  intros (K & V & O)%is_N1_iff Hx. apply upper_ok_num in Hx; [|done].
  destruct (Req_dec (val (upper s i)) 0) as [E|E]; [rewrite (O E) in Hx; simpl in Hx; lra|].
  apply le_o_le in Hx. lra.
Qed.

Lemma not_lower_P1 (s : state) i : ~ lower_ok s i 0 -> is_P1 s i = true.
Proof.
  unfold IntervalProofs.lower_ok. rewrite is_P1_iff. pose proof (lower_kind_not_plus s i).
  destruct (lower_kind s i); simpl; [tauto | | done]. by intros [? ?]%le_o_zero.
Qed.
Lemma not_upper_N1 (s : state) i : ~ upper_ok s i 0 -> is_N1 s i = true.
Proof.
  unfold IntervalProofs.upper_ok. rewrite is_N1_iff. pose proof (upper_kind_not_minus s i).
  destruct (upper_kind s i); simpl; [done | | tauto].
  intros [? E]%le_o_zero. split_and!; [done | done | intros; by apply E].
Qed.

Lemma side_cases (s : state) i : check_invariant s i = true -> contains_zero s i = false -> side_case s i.
Proof.
  intros (x & Hl & Hu)%(invariant_member (val := val)) Hz.
  assert (PN : is_P1 s i = true \/ is_N1 s i = true).
  { unfold contains_zero, lower_is_neg, lower_is_zero, upper_is_pos, upper_is_zero in Hz.
    apply andb_false_iff in Hz as [Hz|Hz]; apply not_true_iff_false in Hz;
      rewrite ?contains_lower_iff, ?contains_upper_iff in Hz;
      [left; by apply not_lower_P1 | right; by apply not_upper_N1]. }
  destruct (is_P1 s i) eqn:P, (is_N1 s i) eqn:N.
  - pose proof (P1_pos _ _ _ P Hl). pose proof (N1_neg _ _ _ N Hu). lra.
  - pose proof P as (? & ? & ?)%is_P1_iff. by apply SideP.
  - pose proof N as (? & ? & ?)%is_N1_iff. by apply SideN.
  - by destruct PN.
Qed.

Lemma inv_lb o (v : num) k x : 0 < x -> eub (val := val) o v k x ->
  both (fun w _ => le_o o (val w) (/ x)) (ext_numeral.inv false v k).
Proof.
  intros Hx. destruct k; simpl; [done | |].
  - intros Hv. apply le_o_le in Hv as Hv'. eapply le_o_trans_l; [apply rounds_dn, val_inv; lra|].
    by apply inv_le_o.
  - intros _. unfold both; simpl. rewrite val_zero. apply le_o_weaken. by apply Rinv_0_lt_compat.
Qed.
Lemma inv_ub o (v : num) k x : x < 0 -> elb (val := val) o v k x ->
  both (fun w _ => le_o o (/ x) (val w)) (ext_numeral.inv true v k).
Proof.
  intros Hx. destruct k; simpl; [| |done].
  - intros _. unfold both; simpl. rewrite val_zero. apply le_o_weaken. by apply Rinv_lt_0_compat.
  - intros Hv. apply le_o_le in Hv as Hv'. eapply le_o_trans_r; [|apply rounds_up, val_inv; lra].
    by apply inv_le_o_neg.
Qed.

Lemma inv_P_justified (s : state) a b x : is_P1 s a = true ->
  exists s' j, inv a b s = Some s' /\ inv_jst s a = Some j /\ justified s s' j a a b x x (/ x).
Proof.
  intros P. unfold inv, inv_jst. rewrite P. pose proof P as (K & V & O)%is_P1_iff. cbv zeta.
  destruct (ext_numeral.inv _ _ _) as [v k] eqn:Ei. do 2 eexists. split_and!; [done | done |].
  cbn [im_up round_to_minus_inf] in Ei. split; cbn [m_lower_combine m_upper_combine].
  - intros (D1 & D2 & _). specialize (D1 eq_refl). specialize (D2 eq_refl).
    pose proof (inv_lb _ _ _ x (P1_pos _ _ _ P D1) D2) as G. unfold upper, upper_kind, upper_is_inf in G, Ei.
    cbn in Ei. rewrite Ei in G. unfold both in G; simpl in G. destruct (lower_is_zero _ _); ist; exact G.
  - intros (D1 & _). specialize (D1 eq_refl). pose proof (P1_pos _ _ _ P D1) as X.
    apply lower_ok_num in D1; [|done]. destruct (lower_is_zero _ _) eqn:Z; [by ist|].
    change (lower_is_zero s a = false) in Z. apply not_true_iff_false in Z. unfold lower_is_zero in Z.
    rewrite (ezero_iff (val := val)) in Z. assert (N : val (lower s a) <> 0) by (intros E; by apply Z).
    assert (G : le_o (lower_is_open s a) (/ x) (val (m_inv true (lower s a)))).
    { eapply le_o_trans_r; [|apply rounds_up; by apply val_inv]. apply inv_le_o; [lra | done]. }
    ist. exact G.
Qed.
Lemma inv_N_justified (s : state) a b x : is_P1 s a = false -> is_N1 s a = true ->
  exists s' j, inv a b s = Some s' /\ inv_jst s a = Some j /\ justified s s' j a a b x x (/ x).
Proof.
  intros NP P. unfold inv, inv_jst. rewrite NP, P. pose proof P as (K & V & O)%is_N1_iff. cbv zeta.
  destruct (ext_numeral.inv _ _ _) as [v k] eqn:Ei. do 2 eexists. split_and!; [done | done |].
  cbn [im_up round_to_plus_inf] in Ei. split; cbn [m_lower_combine m_upper_combine].
  - intros (_ & D2 & _). specialize (D2 eq_refl). pose proof (N1_neg _ _ _ P D2) as X.
    apply upper_ok_num in D2; [|done]. destruct (upper_is_zero _ _) eqn:Z; [by ist|].
    change (upper_is_zero s a = false) in Z. apply not_true_iff_false in Z. unfold upper_is_zero in Z.
    rewrite (ezero_iff (val := val)) in Z. assert (N : val (upper s a) <> 0) by (intros E; by apply Z).
    assert (G : le_o (upper_is_open s a) (val (m_inv false (upper s a))) (/ x)).
    { eapply le_o_trans_l; [apply rounds_dn; by apply val_inv|]. apply inv_le_o_neg; [lra | done]. }
    ist. exact G.
  - intros (D1 & D2 & _). specialize (D1 eq_refl). specialize (D2 eq_refl).
    pose proof (inv_ub _ _ _ x (N1_neg _ _ _ P D2) D1) as G. unfold lower, lower_kind, lower_is_inf in G, Ei.
    cbn in Ei. rewrite Ei in G. unfold both in G; simpl in G. destruct (upper_is_zero _ _); ist; exact G.
Qed.

Lemma inv_justified (s : state) a b x : check_invariant s a = true -> contains_zero s a = false ->
  exists s' j, inv a b s = Some s' /\ inv_jst s a = Some j /\ justified s s' j a a b x x (/ x).
Proof.
  intros I Z. destruct (side_cases s a I Z); [by apply inv_P_justified | by apply inv_N_justified].
Qed.

Lemma inv_frame a b (s s' : state) j : inv a b s = Some s' -> j <> b -> same_at s s' j.
Proof.
  unfold inv. intros E Hj. cbv zeta in E.
  repeat match type of E with
  | context [if ?c then _ else _] => destruct c
  | context [let '(_, _) := ?e in _] => destruct e
  end; try done; injection E as <-;
  unfold same_at, lower, upper, lower_is_open, upper_is_open, lower_is_inf, upper_is_inf;
  cbn; rewrite ?fn_lookup_insert_ne by done; done.
Qed.

(** *** Quotients *)

Ltac use_div_deps :=
  cbn [m_lower_combine m_upper_combine]; split;
  intros (D1 & D2 & D3 & D4); cbn in D1, D2, D3, D4;
  repeat match goal with
  | H : true = true -> _ |- _ => specialize (H eq_refl)
  | H : false = true -> _ |- _ => clear H
  end.

Lemma div_zero_justified (s : state) i1 i2 r x y : is_zero s i1 = true -> side_case s i2 ->
  justified s (div i1 i2 r s) (div_jst s i1 i2) i1 i2 r x y (x / y).
Proof.
  intros Z S2. unfold div, div_jst. rewrite Z. cbv zeta.
  assert (Rz : forall z, (0 <= z -> lower_ok (set_upper_is_open r false (set_lower_is_open r false
      (set_upper_is_inf r false (set_lower_is_inf r false (set_upper r m_zero (set_lower r m_zero s)))))) r z) /\
    (z <= 0 -> upper_ok (set_upper_is_open r false (set_lower_is_open r false
      (set_upper_is_inf r false (set_lower_is_inf r false (set_upper r m_zero (set_lower r m_zero s)))))) r z)).
  { intros z. ist. simpl. rewrite val_zero. done. }
  pose proof (is_zero_iff (val := val) s i1) as [[[El Vl] [Eu Vu]] _]; [done|].
  assert (Xl : lower_ok s i1 x -> 0 <= x) by (intros H%lower_ok_num; [|done]; apply le_o_le in H; lra).
  assert (Xu : upper_ok s i1 x -> x <= 0) by (intros H%upper_ok_num; [|done]; apply le_o_le in H; lra).
  destruct S2 as [P N L2 V O | P N U2 V O]; rewrite P; use_div_deps; apply Rz.
  - pose proof (Rinv_0_lt_compat _ (P1_pos _ _ _ P D3)). specialize (Xl D1). unfold Rdiv. nra.
  - pose proof (Rinv_0_lt_compat _ (P1_pos _ _ _ P D3)). specialize (Xu D2). unfold Rdiv. nra.
  - pose proof (Rinv_lt_0_compat _ (N1_neg _ _ _ N D4)). specialize (Xu D2). unfold Rdiv. nra.
  - pose proof (Rinv_lt_0_compat _ (N1_neg _ _ _ N D4)). specialize (Xl D1). unfold Rdiv. nra.
Qed.

Lemma m_is_zero_cases (v : num) : (m_is_zero v = true /\ val v = 0) \/ (m_is_zero v = false /\ val v <> 0).
Proof.
  destruct (m_is_zero v) eqn:E; [left; by rewrite <- val_is_zero|].
  right. split; [done|]. intros F%val_is_zero. congruence.
Qed.

Lemma upper_kind_num (s : state) i : upper_kind s i = EN_NUMERAL ->
  (if im_upper_inf s i then EN_PLUS_INFINITY else EN_NUMERAL) = EN_NUMERAL.
Proof. done. Qed.
Lemma lower_kind_num (s : state) i : lower_kind s i = EN_NUMERAL ->
  (if im_lower_inf s i then EN_MINUS_INFINITY else EN_NUMERAL) = EN_NUMERAL.
Proof. done. Qed.
Ltac kinds := repeat match goal with
  | K : upper_kind ?s ?i = EN_NUMERAL |- context [if im_upper_inf ?s ?i then _ else _] =>
      rewrite (upper_kind_num s i K)
  | K : lower_kind ?s ?i = EN_NUMERAL |- context [if im_lower_inf ?s ?i then _ else _] =>
      rewrite (lower_kind_num s i K)
  end.
Ltac low := apply set_bounds_lower; ist; kinds.
Ltac upp := apply set_bounds_upper; ist; kinds.

Lemma div_N_justified (s : state) i1 i2 r x y :
  is_zero s i1 = false -> is_N s i1 = true -> upper_kind s i1 = EN_NUMERAL -> val (upper s i1) <= 0 ->
  eneg (val := val) (lower s i1) (lower_kind s i1) -> side_case s i2 ->
  justified s (div i1 i2 r s) (div_jst s i1 i2) i1 i2 r x y (x / y).
Proof.
  intros Z1 N1 K1 B1 A1 S2. unfold div, div_jst. rewrite Z1, N1. cbv zeta.
  destruct S2 as [P N K2 V O | P N K2 V O]; rewrite N.
  - destruct (m_is_zero_cases (lower s i2)) as [[Ez Vz]|[Ez Vz]]; rewrite Ez; use_div_deps.
    1: by low.
    2: { low. apply (div_outer_np _ _ _ _ _ _ _ D1 (lower_ok_num _ _ _ K2 D3)); [done | lra]. }
    all: upp; apply (div_inner_np _ _ _ _ _ _ _ _ (upper_ok_num _ _ _ K1 D2) (P1_pos _ _ _ P D3) D4 B1);
      by apply (dopen_if _ _ (upper_kind s i1)); [apply is_N0_iff|].
  - destruct (m_is_zero_cases (upper s i2)) as [[Ez Vz]|[Ez Vz]]; rewrite Ez; use_div_deps.
    1, 3: low; apply (div_inner_nn _ _ _ _ _ _ _ _ (upper_ok_num _ _ _ K1 D2) (N1_neg _ _ _ N D4) D3 B1);
      by apply (dopen_if _ _ (upper_kind s i1)); [apply is_N0_iff|].
    1: by upp.
    upp. apply (div_outer_nn _ _ _ _ _ _ _ D1 (upper_ok_num _ _ _ K2 D4)); [done | lra].
Qed.

Lemma div_M_justified (s : state) i1 i2 r x y :
  is_zero s i1 = false -> is_N s i1 = false -> is_M s i1 = true ->
  eneg (val := val) (lower s i1) (lower_kind s i1) -> epos (val := val) (upper s i1) (upper_kind s i1) ->
  side_case s i2 ->
  justified s (div i1 i2 r s) (div_jst s i1 i2) i1 i2 r x y (x / y).
Proof.
  intros Z1 N1 M1 A1 B1 S2. unfold div, div_jst. rewrite Z1, N1, M1. cbv zeta.
  destruct S2 as [P N K2 V O | P N K2 V O]; rewrite N.
  - destruct (m_is_zero_cases (lower s i2)) as [[Ez Vz]|[Ez Vz]]; rewrite Ez; use_div_deps.
    1: by low.
    1: by upp.
    + low. apply (div_outer_np _ _ _ _ _ _ _ D1 (lower_ok_num _ _ _ K2 D3)); [done | lra].
    + upp. apply (div_outer_pp _ _ _ _ _ _ _ D2 (lower_ok_num _ _ _ K2 D3)); [done | lra].
  - destruct (m_is_zero_cases (upper s i2)) as [[Ez Vz]|[Ez Vz]]; rewrite Ez; use_div_deps.
    1: by low.
    1: by upp.
    + low. apply (div_outer_pn _ _ _ _ _ _ _ D2 (upper_ok_num _ _ _ K2 D4)); [done | lra].
    + upp. apply (div_outer_nn _ _ _ _ _ _ _ D1 (upper_ok_num _ _ _ K2 D4)); [done | lra].
Qed.

Lemma div_P_justified (s : state) i1 i2 r x y :
  is_zero s i1 = false -> is_N s i1 = false -> is_M s i1 = false -> lower_kind s i1 = EN_NUMERAL ->
  0 <= val (lower s i1) -> epos (val := val) (upper s i1) (upper_kind s i1) -> side_case s i2 ->
  justified s (div i1 i2 r s) (div_jst s i1 i2) i1 i2 r x y (x / y).
Proof.
  intros Z1 N1 M1 K1 A1 B1 S2. unfold div, div_jst. rewrite Z1, N1, M1. cbv zeta.
  destruct S2 as [P N K2 V O | P N K2 V O]; rewrite N.
  - destruct (m_is_zero_cases (lower s i2)) as [[Ez Vz]|[Ez Vz]]; rewrite Ez; use_div_deps.
    1, 3: low; apply (div_inner_pp _ _ _ _ _ _ _ _ (lower_ok_num _ _ _ K1 D1) (P1_pos _ _ _ P D3) D4 A1);
      by apply (dopen_if _ _ (lower_kind s i1)); [apply is_P0_iff|].
    1: by upp.
    upp. apply (div_outer_pp _ _ _ _ _ _ _ D2 (lower_ok_num _ _ _ K2 D3)); [done | lra].
  - destruct (m_is_zero_cases (upper s i2)) as [[Ez Vz]|[Ez Vz]]; rewrite Ez; use_div_deps.
    1: by low.
    2: { low. apply (div_outer_pn _ _ _ _ _ _ _ D2 (upper_ok_num _ _ _ K2 D4)); [done | lra]. }
    all: upp; apply (div_inner_pn _ _ _ _ _ _ _ _ (lower_ok_num _ _ _ K1 D1) (N1_neg _ _ _ N D4) D3 A1);
      by apply (dopen_if _ _ (lower_kind s i1)); [apply is_P0_iff|].
Qed.

Lemma div_justified (s : state) i1 i2 r x y :
  check_invariant s i1 = true -> check_invariant s i2 = true -> contains_zero s i2 = false ->
  justified s (div i1 i2 r s) (div_jst s i1 i2) i1 i2 r x y (x / y).
Proof.
  intros I1 I2 Hz. pose proof (side_cases s i2 I2 Hz) as S2.
  destruct (is_zero s i1) eqn:Z1; [by apply div_zero_justified|].
  destruct (sign_cases (val := val) s i1 I1 Z1).
  - by apply div_N_justified.
  - by apply div_M_justified.
  - by apply div_P_justified.
Qed.
End Sound.
