(* ===== verification/IntervalTight.v ===== *)
(** * IntervalTight: products of intervals have the best bounds

    For precise numerals: a number below all products of the members of two intervals is below the
    lower bound of their product, which then is not infinite, and dually.  A bound that [mul] computes is the
    product of two bounds of the operands, and the members come close to a bound or grow without limit
    towards an infinite one ([toward]). *)
From S2P Require Import Prelude.
From S2P Require Import ExtNumeral.
From S2P Require Import Interval.
From S2P Require Import IntervalBounds.
From S2P Require Import IntervalProofs.
From S2P Require Import IntervalSound.
From Stdlib Require Import ZArith Lia Reals Lra Psatz.
From stdpp Require Import base tactics option list numbers functions.
Close Scope word_scope.
Open Scope R_scope.
Import interval_manager.

(** ** Limits *)

Lemma lim_le B c K : (forall u, 0 < u <= 1 -> B <= c + u * K) -> B <= c.
Proof.
  intros H. destruct (Rle_lt_dec B c) as [|Hlt]; [done|]. exfalso.
  set (M := Rmax 1 K). assert (M1 : 1 <= M) by apply Rmax_l. assert (MK : K <= M) by apply Rmax_r.
  set (u := Rmin 1 ((B - c) / (2 * M))).
  assert (Hq : 0 < (B - c) / (2 * M)) by (apply Rdiv_lt_0_compat; lra).
  assert (U0 : 0 < u) by (by apply Rmin_glb_lt; [lra|]). assert (U1 : u <= 1) by apply Rmin_l.
  assert (U2 : u <= (B - c) / (2 * M)) by apply Rmin_r.
  specialize (H u (conj U0 U1)). apply Rmult_le_compat_r with (r := 2 * M) in U2; [|lra].
  replace ((B - c) / (2 * M) * (2 * M)) with (B - c) in U2 by (field; lra). nra.
Qed.

Lemma lin_unbounded B d c : c < 0 -> ~ (forall t, 0 <= t -> B <= d + t * c).
Proof.
  intros Hc H. set (t := (Rmax 0 (d - B) + 1) / - c).
  assert (M0 : 0 <= Rmax 0 (d - B)) by apply Rmax_l. assert (M1 : d - B <= Rmax 0 (d - B)) by apply Rmax_r.
  assert (Ht : 0 < t) by (apply Rdiv_lt_0_compat; lra). specialize (H t ltac:(lra)).
  assert (E : t * c = - (Rmax 0 (d - B) + 1)) by (unfold t; field; lra). lra.
Qed.

Section Tight.
Context {num : Type} {M : NumManager num} {val : num -> R} {L : NumLaws val}.
Abbreviation state := (imstate num).
Abbreviation member := (member (val := val)).
Abbreviation epos := (epos (val := val)).
Abbreviation eneg := (eneg (val := val)).
Hypothesis precise : m_precise = true.

(** The members of [S], from one of them, go all the way to the bound. *)
Definition toward (S : R -> Prop) (a : num) (ak : ext_numeral_kind) : Prop := exists x0, S x0 /\
  match ak with
  | EN_NUMERAL => forall u, 0 < u <= 1 -> S (val a + u * (x0 - val a))
  | EN_PLUS_INFINITY => forall t, 0 <= t -> S (x0 + t)
  | EN_MINUS_INFINITY => forall t, 0 <= t -> S (x0 - t)
  end.

Lemma toward_lower (s : state) i : check_invariant s i = true -> toward (member s i) (lower s i) (lower_kind s i).
Proof.
  intros (x & Hx)%(invariant_member (val := val)). exists x. split; [done|]. destruct Hx as [Hl Hu].
  pose proof (lower_kind_not_plus s i). unfold member, lower_ok, upper_ok in *.
  destruct (lower_kind s i), (upper_kind s i); try done; simpl in *; intros u Hu'; split; try done;
    destruct (lower_is_open s i), (upper_is_open s i); simpl in *; try done; try nra; try lra.
Qed.
Lemma toward_upper (s : state) i : check_invariant s i = true -> toward (member s i) (upper s i) (upper_kind s i).
Proof.
  intros (x & Hx)%(invariant_member (val := val)). exists x. split; [done|]. destruct Hx as [Hl Hu].
  pose proof (upper_kind_not_minus s i). unfold member, lower_ok, upper_ok in *.
  destruct (lower_kind s i), (upper_kind s i); try done; simpl in *; intros u Hu'; split; try done;
    destruct (lower_is_open s i), (upper_is_open s i); simpl in *; try done; try nra; try lra.
Qed.

(** Near a bound that is not 0 the members have its sign. *)
Lemma toward_pos S a ak : toward S a ak -> epos a ak -> exists x, S x /\ 0 < x.
Proof.
  intros (x0 & H0 & H) Ha. destruct ak; simpl in *; [done | |].
  - set (u := val a / (val a + Rmax 0 (- x0) + 1)). assert (M0 : 0 <= Rmax 0 (- x0)) by apply Rmax_l.
    assert (M1 : - x0 <= Rmax 0 (- x0)) by apply Rmax_r. set (D := val a + Rmax 0 (- x0) + 1) in *.
    assert (Eu : u * D = val a) by (unfold u; field; unfold D; lra).
    assert (Hu : 0 < u) by (apply Rdiv_lt_0_compat; unfold D; lra). assert (Hu1 : u < 1) by (unfold D in Eu; nra).
    exists (val a + u * (x0 - val a)). split; [apply H; lra|]. unfold D in Eu. nra.
  - exists (x0 + (Rabs x0 + 1)). pose proof (Rabs_pos x0). split; [apply H; lra|].
    pose proof (Rle_abs (- x0)). rewrite Rabs_Ropp in *. lra.
Qed.
Lemma toward_opp S a ak : toward S a ak ->
  toward (fun x => S (- x)) (fst (ext_numeral.neg a ak)) (snd (ext_numeral.neg a ak)).
Proof.
  intros (x0 & H0 & H). exists (- x0). rewrite Ropp_involutive. split; [done|].
  destruct ak; simpl; intros u Hu.
  - replace (- (- x0 + u)) with (x0 - u) by ring. by apply H.
  - rewrite (val_neg (val := val)). replace (- (- val a + u * (- x0 - - val a))) with (val a + u * (x0 - val a)) by ring.
    by apply H.
  - replace (- (- x0 - u)) with (x0 + u) by ring. by apply H.
Qed.
Lemma toward_neg S a ak : toward S a ak -> eneg a ak -> exists x, S x /\ x < 0.
Proof.
  intros H%toward_opp Hn. destruct (toward_pos _ _ _ H) as (x & Hx & Hp).
  - destruct ak; simpl in *; try done. rewrite val_neg. lra.
  - exists (- x). split; [done | lra].
Qed.

(** *** Signs as numbers *)

Definition unit_sign (e : R) : Prop := e = 1 \/ e = -1.
Definition eside (e : R) (a : num) (ak : ext_numeral_kind) : Prop :=
  match ak with EN_MINUS_INFINITY => e = -1 | EN_NUMERAL => 0 < e * val a | EN_PLUS_INFINITY => e = 1 end.

Lemma eside_exists a ak : ext_numeral.is_zero a ak = false -> exists e, unit_sign e /\ eside e a ak.
Proof.
  intros Z. apply not_true_iff_false in Z. rewrite (ezero_iff (val := val)) in Z. destruct ak; simpl.
  - exists (-1). split; [by right | done].
  - destruct (Rtotal_order (val a) 0) as [Hv|[Hv|Hv]].
    + exists (-1). split; [by right | lra].
    + by destruct Z.
    + exists 1. split; [by left | lra].
  - exists 1. split; [by left | done].
Qed.
Lemma eside_epos e a ak : unit_sign e -> eside e a ak -> if Rlt_dec 0 e then epos a ak else eneg a ak.
Proof. intros [->| ->] H; destruct (Rlt_dec 0 _); try lra; destruct ak; simpl in *; try done; lra. Qed.

Lemma toward_side S a ak e : unit_sign e -> toward S a ak -> eside e a ak -> exists x, S x /\ 0 < e * x.
Proof.
  intros Hu Ht Hs. pose proof (eside_epos e a ak Hu Hs) as E. destruct Hu as [->| ->]; destruct (Rlt_dec 0 _); try lra.
  - destruct (toward_pos S a ak Ht E) as (x & ? & ?). exists x. split; [done | lra].
  - destruct (toward_neg S a ak Ht E) as (x & ? & ?). exists x. split; [done | lra].
Qed.
Lemma toward_infinite S b bk f : bk <> EN_NUMERAL -> toward S b bk -> eside f b bk ->
  exists y0, forall t, 0 <= t -> S (y0 + t * f).
Proof.
  intros Hb (y0 & _ & H) Hs. exists y0. intros t Ht. destruct bk; simpl in *; [|done|]; subst f.
  - replace (y0 + t * -1) with (y0 - t) by ring. by apply H.
  - rewrite Rmult_1_r. by apply H.
Qed.

(** *** Corners *)

Section Corner.
Variables (sg B : R) (Sx Sy : R -> Prop).
Hypothesis Hsg : unit_sign sg.
Hypothesis HB : forall x y, Sx x -> Sy y -> B <= sg * (x * y).

Lemma corner_infinite a ak b bk e f : unit_sign e -> unit_sign f -> toward Sx a ak -> toward Sy b bk ->
  eside e a ak -> eside f b bk -> ak <> EN_NUMERAL \/ bk <> EN_NUMERAL -> sg * e * f <> -1.
Proof.
  intros He Hf Ta Tb Sa Sb Hi E. destruct Hi as [Hi|Hi].
  - destruct (toward_infinite Sx a ak e Hi Ta Sa) as (x0 & Hx). destruct (toward_side Sy b bk f Hf Tb Sb) as (y & Hy & Py).
    apply (lin_unbounded B (sg * (x0 * y)) (sg * e * y)).
    + destruct Hsg as [->| ->], He as [->| ->], Hf as [->| ->]; lra.
    + intros t Ht. specialize (HB _ _ (Hx t Ht) Hy). lra.
  - destruct (toward_infinite Sy b bk f Hi Tb Sb) as (y0 & Hy). destruct (toward_side Sx a ak e He Ta Sa) as (x & Hx & Px).
    apply (lin_unbounded B (sg * (x * y0)) (sg * f * x)).
    + destruct Hsg as [->| ->], He as [->| ->], Hf as [->| ->]; lra.
    + intros t Ht. specialize (HB _ _ Hx (Hy t Ht)). lra.
Qed.

Lemma corner_finite a b : toward Sx a EN_NUMERAL -> toward Sy b EN_NUMERAL -> B <= sg * (val a * val b).
Proof.
  intros (x0 & _ & Hx) (y0 & _ & Hy).
  set (p := sg * (val a * (y0 - val b) + val b * (x0 - val a))). set (q := sg * ((x0 - val a) * (y0 - val b))).
  apply (lim_le _ _ (Rabs p + Rabs q)). intros u Hu. specialize (HB _ _ (Hx u Hu) (Hy u Hu)).
  assert (E : sg * ((val a + u * (x0 - val a)) * (val b + u * (y0 - val b))) = sg * (val a * val b) + u * p + u * u * q)
    by (unfold p, q; ring).
  rewrite E in HB. pose proof (Rle_abs p). pose proof (Rle_abs q). pose proof (Rabs_pos q).
  clearbody p q. assert (0 <= u * (1 - u)) by nra. assert (0 <= u * u <= u) by nra.
  assert (u * p <= u * Rabs p) by nra. assert (u * u * q <= u * u * Rabs q) by nra.
  assert (u * u * Rabs q <= u * Rabs q) by nra. lra.
Qed.

Lemma corner_zero_l a b bk : val a = 0 -> toward Sx a EN_NUMERAL -> toward Sy b bk -> B <= 0.
Proof.
  intros Ea (x0 & _ & Hx) (y0 & Hy & _). apply (lim_le _ _ (sg * (x0 * y0))). intros u Hu.
  specialize (HB _ _ (Hx u Hu) Hy). rewrite Ea in HB. lra.
Qed.
Lemma corner_zero_r a ak b : val b = 0 -> toward Sx a ak -> toward Sy b EN_NUMERAL -> B <= 0.
Proof.
  intros Eb (x0 & Hx & _) (y0 & _ & Hy). apply (lim_le _ _ (sg * (x0 * y0))). intros u Hu.
  specialize (HB _ _ Hx (Hy u Hu)). rewrite Eb in HB. lra.
Qed.

(** The product of two bounds is no worse than [B], or infinite on the other side. *)
Lemma corner up a ak b bk : toward Sx a ak -> toward Sy b bk ->
  match snd (ext_numeral.mul up a ak b bk) with
  | EN_MINUS_INFINITY => sg = -1
  | EN_NUMERAL => B <= sg * val (fst (ext_numeral.mul up a ak b bk))
  | EN_PLUS_INFINITY => sg = 1
  end.
Proof.
  intros Ta Tb. destruct (ext_numeral.is_zero a ak) eqn:Za.
  { unfold ext_numeral.mul. rewrite Za. simpl. rewrite val_zero, Rmult_0_r.
    apply (ezero_iff (val := val)) in Za as [-> Va]. by apply (corner_zero_l a b bk). }
  destruct (ext_numeral.is_zero b bk) eqn:Zb.
  { unfold ext_numeral.mul. rewrite Za, Zb. simpl. rewrite val_zero, Rmult_0_r.
    apply (ezero_iff (val := val)) in Zb as [-> Vb]. by apply (corner_zero_r a ak b). }
  assert (Dec : (ak = EN_NUMERAL /\ bk = EN_NUMERAL) \/ (ak <> EN_NUMERAL \/ bk <> EN_NUMERAL))
    by (destruct ak, bk; auto).
  destruct Dec as [[-> ->]|Hi].
  { destruct (mul_num (val := val) up a b) as (v & -> & [Ev _]). simpl. rewrite (Ev precise). by apply corner_finite. }
  destruct (eside_exists a ak Za) as (e & He & Sa), (eside_exists b bk Zb) as (f & Hf & Sb).
  pose proof (corner_infinite a ak b bk e f He Hf Ta Tb Sa Sb Hi) as N.
  pose proof (eside_epos e a ak He Sa) as Ea. pose proof (eside_epos f b bk Hf Sb) as Eb.
  assert (Same : forall same : bool, e * f = (if same then 1 else -1) ->
    ext_numeral.mul up a ak b bk = (m_zero, if same then EN_PLUS_INFINITY else EN_MINUS_INFINITY)).
  { intros same E. apply (mul_inf (val := val)); [done|]. destruct (Rlt_dec 0 e), (Rlt_dec 0 f), same;
      destruct He as [->| ->], Hf as [->| ->]; try lra; auto. }
  destruct Hsg as [->| ->], He as [->| ->], Hf as [->| ->]; try (exfalso; apply N; lra);
    first [rewrite (Same true) by lra | rewrite (Same false) by lra]; simpl; lra.
Qed.
End Corner.

(** *** The bounds of the product *)

Definition above (s : state) i1 i2 (B : R) : Prop := forall x y, member s i1 x -> member s i2 y -> B <= x * y.
Definition below (s : state) i1 i2 (B : R) : Prop := forall x y, member s i1 x -> member s i2 y -> x * y <= B.
Definition good_lower (B : R) (p : num * ext_numeral_kind) : Prop := snd p = EN_NUMERAL /\ B <= val (fst p).
Definition good_upper (B : R) (p : num * ext_numeral_kind) : Prop := snd p = EN_NUMERAL /\ val (fst p) <= B.

Definition bounded_below (a : num) (ak : ext_numeral_kind) (b : num) (bk : ext_numeral_kind) : Prop :=
  (epos a ak /\ eneg b bk) \/ (eneg a ak /\ epos b bk) \/ (ak = EN_NUMERAL /\ bk = EN_NUMERAL).
Definition bounded_above (a : num) (ak : ext_numeral_kind) (b : num) (bk : ext_numeral_kind) : Prop :=
  (epos a ak /\ epos b bk) \/ (eneg a ak /\ eneg b bk) \/ (ak = EN_NUMERAL /\ bk = EN_NUMERAL).

Lemma mul_kind up a ak b bk (same : bool) :
  (if same then bounded_above a ak b bk else bounded_below a ak b bk) ->
  snd (ext_numeral.mul up a ak b bk) <> if same then EN_MINUS_INFINITY else EN_PLUS_INFINITY.
Proof.
  intros H. assert (Dec : (ak = EN_NUMERAL /\ bk = EN_NUMERAL) \/ (ak <> EN_NUMERAL \/ bk <> EN_NUMERAL))
    by (destruct ak, bk; auto).
  destruct Dec as [[-> ->]|Hi].
  - destruct (mul_num (val := val) up a b) as (v & -> & _). by destruct same.
  - rewrite (mul_inf (val := val) up a ak b bk same Hi); [by destruct same|].
    destruct same, H as [H|[H|[-> ->]]]; auto; by destruct Hi.
Qed.

Lemma good_lower_corner s i1 i2 B up a ak b bk : above s i1 i2 B -> bounded_below a ak b bk ->
  toward (member s i1) a ak -> toward (member s i2) b bk -> good_lower B (ext_numeral.mul up a ak b bk).
Proof.
  intros HB Hk Ta Tb. pose proof (mul_kind up a ak b bk false Hk) as K.
  assert (H : forall x y, member s i1 x -> member s i2 y -> B <= 1 * (x * y)).
  { intros x y Hx Hy. rewrite Rmult_1_l. by apply HB. }
  pose proof (corner 1 B _ _ (or_introl eq_refl) H up a ak b bk Ta Tb) as C. unfold good_lower.
  destruct (snd _); [lra | by rewrite Rmult_1_l in C | done].
Qed.
Lemma good_upper_corner s i1 i2 B up a ak b bk : below s i1 i2 B -> bounded_above a ak b bk ->
  toward (member s i1) a ak -> toward (member s i2) b bk -> good_upper B (ext_numeral.mul up a ak b bk).
Proof.
  intros HB Hk Ta Tb. pose proof (mul_kind up a ak b bk true Hk) as K.
  assert (H : forall x y, member s i1 x -> member s i2 y -> - B <= -1 * (x * y)).
  { intros x y Hx Hy. specialize (HB x y Hx Hy). lra. }
  pose proof (corner (-1) (- B) _ _ (or_intror eq_refl) H up a ak b bk Ta Tb) as C. unfold good_upper.
  destruct (snd _); [done | split; [done | lra] | lra].
Qed.

(** What is claimed of the result. *)
Definition best_lower (s : state) (r : loc) (B : R) : Prop := lower_is_inf s r = false /\ B <= val (lower s r).
Definition best_upper (s : state) (r : loc) (B : R) : Prop := upper_is_inf s r = false /\ val (upper s r) <= B.

Lemma set_bounds_best_lower r l u (s : state) B : good_lower B l -> best_lower (set_bounds r l u s) r B.
Proof.
  intros [E H]. unfold best_lower, lower_is_inf, lower. cbn. rewrite !fn_lookup_insert, E. done.
Qed.
Lemma set_bounds_best_upper r l u (s : state) B : good_upper B u -> best_upper (set_bounds r l u s) r B.
Proof.
  intros [E H]. unfold best_upper, upper_is_inf, upper. cbn. rewrite !fn_lookup_insert, E. done.
Qed.

Lemma set_zero_best (s : state) i r : is_zero s i = true ->
  lower_is_inf (set r i s) r = false /\ val (lower (set r i s) r) = 0 /\
  upper_is_inf (set r i s) r = false /\ val (upper (set r i s) r) = 0.
Proof.
  intros [[El Vl] [Eu Vu]]%(is_zero_iff (val := val)).
  assert (Il : im_lower_inf s i = false) by (revert El; unfold lower_kind, lower_is_inf; by destruct (im_lower_inf s i)).
  assert (Iu : im_upper_inf s i = false) by (revert Eu; unfold upper_kind, upper_is_inf; by destruct (im_upper_inf s i)).
  unfold lower, upper in *. unfold set. case_bool_decide as E; [by subst|].
  unfold lower_is_inf, upper_is_inf. rewrite Il. cbn. rewrite Iu. cbn.
  rewrite !fn_lookup_insert, ?fn_lookup_insert_ne by done. done.
Qed.

(** The branches of [mul]: the tests, and then the corner that is stored. *)
Ltac mul_tests :=
  repeat match goal with
  | H : is_zero _ _ = _ |- _ => rewrite H; clear H
  | H : is_N _ _ = _ |- _ => rewrite H; clear H
  | H : is_M _ _ = _ |- _ => rewrite H; clear H
  end.

Lemma mul_best_lower (s : state) i1 i2 r B : check_invariant s i1 = true -> check_invariant s i2 = true ->
  above s i1 i2 B -> best_lower (mul i1 i2 r s) r B.
Proof.
  intros I1 I2 HB.
  assert (Zero : forall i, is_zero s i = true -> B <= 0 -> best_lower (set r i s) r B).
  { intros i Z H0. destruct (set_zero_best s i r Z) as (E & V & _). split; [done | lra]. }
  destruct (invariant_member (val := val) s i1 I1) as [x X], (invariant_member (val := val) s i2 I2) as [y Y].
  pose proof (HB x y X Y) as Hxy.
  unfold mul. destruct (is_zero s i1) eqn:Z1.
  { apply Zero; [done|]. destruct X as [Xl Xu]. by rewrite (zero_member (val := val) s i1 x Z1 Xl Xu), Rmult_0_l in Hxy. }
  destruct (is_zero s i2) eqn:Z2.
  { apply Zero; [done|]. destruct Y as [Yl Yu]. by rewrite (zero_member (val := val) s i2 y Z2 Yl Yu), Rmult_0_r in Hxy. }
  pose proof (toward_lower s i1 I1) as Ta. pose proof (toward_upper s i1 I1) as Tb.
  pose proof (toward_lower s i2 I2) as Tc. pose proof (toward_upper s i2 I2) as Td.
  pose proof (fun up a ak b bk => good_lower_corner s i1 i2 B up a ak b bk HB) as Corner.
  destruct (sign_cases (val := val) s i1 I1 Z1) as [N1 U1 B1 A1|N1 M1 A1 B1|N1 M1 L1 A1 B1],
    (sign_cases (val := val) s i2 I2 Z2) as [N2 U2 B2 A2|N2 M2 A2 B2|N2 M2 L2 A2 B2]; mul_tests; cbv zeta;
    try (apply set_bounds_best_lower, Corner; unfold bounded_below; auto; fail).
  pose proof (Corner false _ _ _ _ (or_intror (or_introl (conj A1 B2))) Ta Td) as G1.
  pose proof (Corner false _ _ _ _ (or_introl (conj B1 A2)) Tb Tc) as G2.
  cbn [im_up round_to_minus_inf round_to_plus_inf].
  destruct (ext_numeral.mul false _ _ (upper s i2) _) as [ad ad_k], (ext_numeral.mul false _ _ (lower s i2) _) as [bc bc_k].
  destruct (ext_numeral.mul true _ _ (lower s i2) _) as [ac ac_k], (ext_numeral.mul true _ _ (upper s i2) _) as [bd bd_k].
  destruct (_ || _); destruct (_ || _); by apply set_bounds_best_lower.
Qed.

Lemma mul_best_upper (s : state) i1 i2 r B : check_invariant s i1 = true -> check_invariant s i2 = true ->
  below s i1 i2 B -> best_upper (mul i1 i2 r s) r B.
Proof.
  intros I1 I2 HB.
  assert (Zero : forall i, is_zero s i = true -> 0 <= B -> best_upper (set r i s) r B).
  { intros i Z H0. destruct (set_zero_best s i r Z) as (_ & _ & E & V). split; [done | lra]. }
  destruct (invariant_member (val := val) s i1 I1) as [x X], (invariant_member (val := val) s i2 I2) as [y Y].
  pose proof (HB x y X Y) as Hxy.
  unfold mul. destruct (is_zero s i1) eqn:Z1.
  { apply Zero; [done|]. destruct X as [Xl Xu]. by rewrite (zero_member (val := val) s i1 x Z1 Xl Xu), Rmult_0_l in Hxy. }
  destruct (is_zero s i2) eqn:Z2.
  { apply Zero; [done|]. destruct Y as [Yl Yu]. by rewrite (zero_member (val := val) s i2 y Z2 Yl Yu), Rmult_0_r in Hxy. }
  pose proof (toward_lower s i1 I1) as Ta. pose proof (toward_upper s i1 I1) as Tb.
  pose proof (toward_lower s i2 I2) as Tc. pose proof (toward_upper s i2 I2) as Td.
  pose proof (fun up a ak b bk => good_upper_corner s i1 i2 B up a ak b bk HB) as Corner.
  destruct (sign_cases (val := val) s i1 I1 Z1) as [N1 U1 B1 A1|N1 M1 A1 B1|N1 M1 L1 A1 B1],
    (sign_cases (val := val) s i2 I2 Z2) as [N2 U2 B2 A2|N2 M2 A2 B2|N2 M2 L2 A2 B2]; mul_tests; cbv zeta;
    try (apply set_bounds_best_upper, Corner; unfold bounded_above; auto; fail).
  pose proof (Corner true _ _ _ _ (or_intror (or_introl (conj A1 A2))) Ta Tc) as G1.
  pose proof (Corner true _ _ _ _ (or_introl (conj B1 B2)) Tb Td) as G2.
  cbn [im_up round_to_minus_inf round_to_plus_inf].
  destruct (ext_numeral.mul false _ _ (upper s i2) _) as [ad ad_k], (ext_numeral.mul false _ _ (lower s i2) _) as [bc bc_k].
  destruct (ext_numeral.mul true _ _ (lower s i2) _) as [ac ac_k], (ext_numeral.mul true _ _ (upper s i2) _) as [bd bd_k].
  destruct (_ || _); destruct (_ || _); by apply set_bounds_best_upper.
Qed.
End Tight.
