(* ===== verification/IntervalRoot.v ===== *)
(** * IntervalRoot: roots and series of the interval manager ([math/interval/interval_def.h])

    The root operations loop until the requested precision is reached and check the resource limit in each
    round, so they run in a monad: a run yields a value or the exception of [checkpoint], with the state at
    that point, or [None] when the fuel given to the loops is used up.  Numerals that the source passes by
    reference to receive a result are returned. *)
From S2P Require Import Prelude.
From S2P Require Import ExtNumeral.
From S2P Require Import Interval.
From Stdlib Require Import ZArith Lia.
From stdpp Require Import base tactics option list numbers functions.
Close Scope word_scope.
Open Scope Z_scope.

Inductive exn : Type := default_exception.

Module interval_root.
Import interval_manager.
Section Root.
Context {num : Type} `{NumManager num}.
Abbreviation state := (imstate num).

Definition M (A : Type) : Type := state -> option ((A + exn) * state).
Definition ret {A} (x : A) : M A := fun s => Some (inl x, s).
Definition throw {A} (e : exn) : M A := fun s => Some (inr e, s).
Definition bind {A B} (m : M A) (k : A -> M B) : M B := fun s =>
  match m s with
  | Some (inl x, s) => k x s
  | Some (inr e, s) => Some (inr e, s)
  | None => None
  end.
Definition out_of_fuel {A} : M A := fun _ => None.
Definition update (f : state -> state) : M unit := fun s => Some (inl tt, f s).
Definition read {A} (f : state -> A) : M A := fun s => Some (inl (f s), s).
Local Notation "x <<- m ; k" := (bind m (fun x => k)) (at level 100, m at level 99, right associativity).
Local Notation "'vars' p <<- m ; k" := (bind m (fun x => match x with p => k end))
  (at level 100, p pattern, m at level 99, right associativity).
Local Notation "m ;; k" := (bind m (fun _ => k)) (at level 100, right associativity).

Definition checkpoint : M unit :=
  ok <<- (fun s => let '(ok, l) := rlimit.inc (im_limit s) in Some (inl ok, set_limit l s));
  if ok then ret tt else throw default_exception.

Definition m_one (s : state) : num := m_of_int (im_up s) 1.
Definition m_minus_one (s : state) : num := m_of_int (im_up s) (-1).

(** *** Roots of numbers *)

Definition rough_approx_nth_root (a : num) (n : nat) : M num :=
  update round_to_minus_inf;;
  let k := m_prev_power_of_two a in
  up <<- read im_up;
  ret (m_power up (m_of_int up 2) (k / n)).

Definition A_div_x_n (A x : num) (n : nat) (to_plus_inf : bool) : M num :=
  if (n =? 1)%nat then
    (if m_precise then ret tt else update (set_rounding to_plus_inf));;
    up <<- read im_up;
    ret (m_div up A x)
  else
    if m_precise then
      up <<- read im_up;
      let r := m_power up x n in
      ret (m_div up A r)
    else
      update (set_rounding (negb to_plus_inf));;
      up <<- read im_up;
      let r := m_power up x n in
      update (set_rounding to_plus_inf);;
      up <<- read im_up;
      ret (m_div up A r).

(** The two loops of [approx_nth_root]: Newton's iteration. *)
Fixpoint approx_loop_2 (fuel : nat) (A p two x : num) : M num :=
  match fuel with
  | O => out_of_fuel
  | S fuel =>
      checkpoint;;
      up <<- read im_up;
      let x_prime := m_div up A x in
      let x_prime := m_add up x x_prime in
      let x_prime := m_div up x_prime two in
      let d := m_abs (m_sub up x_prime x) in
      let x := x_prime in
      if m_lt d p then ret x else approx_loop_2 fuel A p two x
  end.
Fixpoint approx_loop_n (fuel : nat) (A : num) (n : nat) (p _n _n_1 x : num) : M num :=
  match fuel with
  | O => out_of_fuel
  | S fuel =>
      checkpoint;;
      up <<- read im_up;
      let x_prime := m_power up x (n - 1) in
      let x_prime := m_div up A x_prime in
      let d := m_mul up _n_1 x in
      let x_prime := m_add up d x_prime in
      let x_prime := m_div up x_prime _n in
      let d := m_abs (m_sub up x_prime x) in
      let x := x_prime in
      if m_lt d p then ret x else approx_loop_n fuel A n p _n _n_1 x
  end.

Definition approx_nth_root (fuel : nat) (A : num) (n : nat) (p : num) : M num :=
  up <<- read im_up;
  let d := m_of_int up 1 in
  x <<- (if m_lt A d then ret A else rough_approx_nth_root A n);
  update round_to_minus_inf;;
  up <<- read im_up;
  if (n =? 2)%nat then
    let two := m_of_int up 2 in
    approx_loop_2 fuel A p two x
  else
    let _n := m_of_int up (Z.of_nat n) in
    let _n_1 := m_dec up (m_of_int up (Z.of_nat n)) in
    approx_loop_n fuel A n p _n _n_1 x.

(** [one] of the last branch is declared and never set: a fresh numeral is 0. *)
Definition nth_root_pos (fuel : nat) (A : num) (n : nat) (p : num) : M (num * num) :=
  hi <<- approx_nth_root fuel A n p;
  if m_precise then
    lo <<- A_div_x_n A hi (n - 1) false;
    if m_lt hi lo then ret (hi, lo) else ret (lo, hi)
  else
    lo <<- A_div_x_n A hi (n - 1) true;
    if m_le lo hi then
      lo <<- A_div_x_n A hi (n - 1) false;
      ret (lo, hi)
    else
      let '(lo, hi) := (hi, lo) in
      hi <<- A_div_x_n A lo (n - 1) false;
      if m_le lo hi then
        hi <<- A_div_x_n A lo (n - 1) true;
        ret (lo, hi)
      else
        let one := m_zero in
        up <<- read im_up;
        if m_lt A one then ret (m_of_int up 0, m_of_int up 1)
        else ret (m_of_int up 1, A).

Definition nth_root (fuel : nat) (a : num) (n : nat) (p : num) : M (num * num) :=
  if (n =? 1)%nat || m_is_zero a || m_is_one a || m_is_minus_one a then ret (a, a)
  else
    let is_neg := m_is_neg a in
    let A := m_abs a in
    vars (lo, hi) <<- nth_root_pos fuel A n p;
    if is_neg then
      let '(lo, hi) := (hi, lo) in
      ret (m_neg lo, m_neg hi)
    else ret (lo, hi).

(** Bisection, the procedure [nth_root] replaced. *)
Fixpoint nth_root_slow_loop (fuel : nat) (a : num) (n : nat) (p two lo hi : num) : M (num * num) :=
  match fuel with
  | O => out_of_fuel
  | S fuel =>
      checkpoint;;
      up <<- read im_up;
      let c := m_add up hi lo in
      let c := m_div up c two in
      let finish lo hi : M (num * num) :=
        update round_to_plus_inf;;
        up <<- read im_up;
        let c := m_sub up hi lo in
        if m_le c p then ret (lo, hi) else nth_root_slow_loop fuel a n p two lo hi in
      if m_precise then
        let cn := m_power up c n in
        if m_gt cn a then finish lo c
        else if m_eq cn a then ret (c, c)
        else finish c hi
      else
        update round_to_minus_inf;;
        up <<- read im_up;
        let cn := m_power up c n in
        if m_gt cn a then finish lo c
        else
          update round_to_plus_inf;;
          up <<- read im_up;
          let cn := m_power up c n in
          if m_lt cn a then finish c hi else ret (lo, hi)
  end.

Definition nth_root_slow (fuel : nat) (a : num) (n : nat) (p : num) : M (num * num) :=
  one <<- read m_one;
  minus_one <<- read m_minus_one;
  let n_is_even := Nat.even n in
  if m_is_zero a || m_is_one a || (negb n_is_even && m_eq a minus_one) then ret (a, a)
  else
    up <<- read im_up;
    let '(lo, hi) :=
      if m_lt a minus_one then (a, m_of_int up (-1))
      else if m_is_neg a then (m_of_int up (-1), m_of_int up 0)
      else if m_lt a one then (m_of_int up 0, m_of_int up 1)
      else (m_of_int up 1, a) in
    let two := m_of_int up 2 in
    nth_root_slow_loop fuel a n p two lo hi.

(** *** Roots of intervals *)

Definition nth_root_jst (n : nat) : interval_deps_combine_rule :=
  IntervalDeps DEP_IN_LOWER1
    (if Nat.even n then (DEP_IN_LOWER1 ∣∣ DEP_IN_UPPER1)%deps else DEP_IN_UPPER1).

Definition nth_root_interval (fuel : nat) (a : loc) (n : nat) (p : num) (b : loc) : M unit :=
  if (n =? 1)%nat then update (set b a)
  else
    l_inf <<- read (fun s => lower_is_inf s a);
    (if l_inf then
       update (set_lower b m_zero);;
       update (set_lower_is_inf b true);;
       update (set_lower_is_open b true)
     else
       l <<- read (fun s => lower s a);
       vars (lo, hi) <<- nth_root fuel l n p;
       update (set_lower_is_inf b false);;
       update (fun s => set_lower_is_open b (lower_is_open s a && m_eq lo hi) s);;
       update (set_lower b lo));;
    u_inf <<- read (fun s => upper_is_inf s a);
    if u_inf then
      update (set_upper b m_zero);;
      update (set_upper_is_inf b true);;
      update (set_upper_is_open b true)
    else
      u <<- read (fun s => upper s a);
      vars (lo, hi) <<- nth_root fuel u n p;
      update (set_upper_is_inf b false);;
      update (fun s => set_upper_is_open b (upper_is_open s a && m_eq lo hi) s);;
      update (set_upper b hi).

Definition xn_eq_y_jst (n : nat) : interval_deps_combine_rule :=
  if Nat.even n then
    IntervalDeps (DEP_IN_LOWER1 ∣∣ DEP_IN_UPPER1)%deps (DEP_IN_LOWER1 ∣∣ DEP_IN_UPPER1)%deps
  else IntervalDeps DEP_IN_LOWER1 DEP_IN_UPPER1.

Definition xn_eq_y (fuel : nat) (y : loc) (n : nat) (p : num) (x : loc) : M unit :=
  if Nat.even n then
    u_inf <<- read (fun s => upper_is_inf s y);
    if u_inf then update (reset x)
    else
      u <<- read (fun s => upper s y);
      vars (lo, hi) <<- nth_root fuel u n p;
      u_open <<- read (fun s => upper_is_open s y);
      let open := u_open && m_eq lo hi in
      update (set_lower_is_inf x false);;
      update (set_upper_is_inf x false);;
      update (set_lower_is_open x open);;
      update (set_upper_is_open x open);;
      update (set_upper x hi);;
      update round_to_minus_inf;;
      update (set_lower x hi);;
      update (fun s => set_lower x (m_neg (lower s x)) s)
  else nth_root_interval fuel y n p x.

(** *** Series *)

Fixpoint fact_loop (k : nat) (i : nat) (o : num) (up : bool) : num :=
  match k with
  | O => o
  | S k => fact_loop k (S i) (m_mul up (m_of_int up (Z.of_nat i)) o) up
  end.
Definition fact (n : nat) (s : state) : num :=
  fact_loop (n - 1) 2 (m_of_int (im_up s) 1) (im_up s).

Fixpoint e_series_loop (k : nat) (i : nat) (upper : bool) (d o : num) : M num :=
  match k with
  | O => ret o
  | S k =>
      update (set_rounding (negb upper));;
      up <<- read im_up;
      let a := m_of_int up (Z.of_nat i) in
      let d := m_mul up d a in
      let a := d in
      update (set_rounding upper);;
      up <<- read im_up;
      let a := m_inv up a in
      let o := m_add up o a in
      e_series_loop k (S i) upper d o
  end.
Definition e_series (k : nat) (upper : bool) : M num :=
  up <<- read im_up;
  e_series_loop (k - 1) 2 upper (m_of_int up 1) (m_of_int up 2).

Definition e (k : nat) (r : loc) : M unit :=
  lo <<- e_series k false;
  update round_to_minus_inf;;
  error <<- read (fact (k + 1));
  update round_to_plus_inf;;
  up <<- read im_up;
  let error := m_inv up error in
  let aux := m_of_int up 4 in
  let error := m_mul up aux error in
  hi <<- (if m_precise then
            up <<- read im_up;
            ret (m_add up lo error)
          else
            hi <<- e_series k true;
            update round_to_plus_inf;;
            up <<- read im_up;
            ret (m_add up hi error));
  update (set_lower_is_open r false);;
  update (set_upper_is_open r false);;
  update (set_lower_is_inf r false);;
  update (set_upper_is_inf r false);;
  update (set_lower r lo);;
  update (set_upper r hi).

Definition pi_series (x : nat) (plus_inf : bool) : M num :=
  let frac n d : M num := up <<- read im_up; ret (m_of_frac up n d) in
  let x8 := 8 * Z.of_nat x in
  update (set_rounding plus_inf);;
  r <<- frac 4 (x8 + 1);
  update (set_rounding (negb plus_inf));;
  f <<- frac 2 (x8 + 4);
  update (set_rounding plus_inf);;
  up <<- read im_up;
  let r := m_sub up r f in
  update (set_rounding (negb plus_inf));;
  f <<- frac 1 (x8 + 5);
  update (set_rounding plus_inf);;
  up <<- read im_up;
  let r := m_sub up r f in
  update (set_rounding (negb plus_inf));;
  f <<- frac 1 (x8 + 6);
  update (set_rounding plus_inf);;
  up <<- read im_up;
  let r := m_sub up r f in
  f <<- frac 1 16;
  up <<- read im_up;
  let f := m_power up f x in
  ret (m_mul up r f).

Fixpoint pi_sum (k i : nat) (plus_inf : bool) (acc : num) : M num :=
  match k with
  | O => ret acc
  | S k =>
      p <<- pi_series i plus_inf;
      update (set_rounding plus_inf);;
      up <<- read im_up;
      pi_sum k (S i) plus_inf (m_add up acc p)
  end.
Definition pi (n : nat) (r : loc) : M unit :=
  update round_to_plus_inf;;
  up <<- read im_up;
  let len := m_power up (m_of_frac up 1 16) n in
  let p := m_of_frac up 1 15 in
  let len := m_mul up p len in
  l_val <<- pi_sum (S n) 0 false m_zero;
  u_val <<- (if m_precise then
               up <<- read im_up;
               ret (m_add up l_val len)
             else
               u_val <<- pi_sum (S n) 0 true m_zero;
               update round_to_plus_inf;;
               up <<- read im_up;
               ret (m_add up u_val len));
  update (set_lower_is_open r false);;
  update (set_upper_is_open r false);;
  update (set_lower_is_inf r false);;
  update (set_upper_is_inf r false);;
  update (set_lower r l_val);;
  update (set_upper r u_val).

End Root.
End interval_root.
