(* ===== verification/IntervalRootProofs.v ===== *)
(** * IntervalRootProofs: Newton's iteration and roots of intervals, for precise managers

    [wp Q N m s]: the run of [m] from [s] ends in a state satisfying [Q], or with the exception of the
    resource limit, or runs out of fuel, and then [N] holds.  The loop lemmas take for [N] that the fuel was
    not enough, which gives partial correctness for every fuel and termination from one lemma. *)
From S2P Require Import Prelude.
From S2P Require Import ExtNumeral.
From S2P Require Import Interval.
From S2P Require Import IntervalBounds.
From S2P Require Import IntervalProofs.
From S2P Require Import IntervalSound.
From S2P Require Import IntervalRoot.
From Stdlib Require Import ZArith Lia Reals Lra Psatz.
From stdpp Require Import base tactics option list numbers functions.
Close Scope word_scope.
Open Scope R_scope.

(** ** Newton's iteration over the reals *)

Lemma bernoulli h n : -1 <= h -> 1 + INR n * h <= (1 + h) ^ n.
Proof.
  intros Hh. induction n as [|n IH]; [simpl; lra|].
  change ((1 + h) ^ S n) with ((1 + h) * (1 + h) ^ n). rewrite S_INR.
  pose proof (pos_INR n). nra.
Qed.

(** [((n-1) x + A / x^(n-1)) / n] *)
Definition newton (A : R) (n : nat) (x : R) : R := ((INR n - 1) * x + A / x ^ (n - 1)) / INR n.

Lemma newton_factor A n x : (0 < n)%nat -> 0 < x ->
  newton A n x = x * (1 + (A / x ^ n - 1) / INR n).
Proof.
  intros Hn Hx. unfold newton. destruct n as [|n]; [lia|]. simpl (S n - 1)%nat. rewrite Nat.sub_0_r.
  change (x ^ S n) with (x * x ^ n). assert (0 < x ^ n) by (by apply pow_lt).
  assert (INR (S n) <> 0) by (apply not_0_INR; lia). field. lra.
Qed.

Lemma newton_pos A n x : (0 < n)%nat -> 0 < A -> 0 < x -> 0 < newton A n x.
Proof.
  intros Hn HA Hx. unfold newton. assert (1 <= INR n) by (apply (le_INR 1); lia).
  apply Rdiv_lt_0_compat; [|lra]. assert (0 < A / x ^ (n - 1)) by (apply Rdiv_lt_0_compat; [done | by apply pow_lt]).
  nra.
Qed.

Lemma newton_above A n x : (0 < n)%nat -> 0 < A -> 0 < x -> A <= newton A n x ^ n.
Proof.
  intros Hn HA Hx. rewrite newton_factor by done. rewrite Rpow_mult_distr.
  assert (Hp : 0 < x ^ n) by (by apply pow_lt).
  assert (Hi : 1 <= INR n) by (apply (le_INR 1); lia).
  set (h := (A / x ^ n - 1) / INR n).
  assert (Hq : 0 < A / x ^ n) by (by apply Rdiv_lt_0_compat).
  assert (E : INR n * h = A / x ^ n - 1) by (unfold h; field; lra).
  assert (Hh : -1 <= h) by nra.
  pose proof (bernoulli h n Hh) as B. rewrite E in B.
  assert (E2 : x ^ n * (A / x ^ n) = A) by (field; lra). nra.
Qed.

Lemma newton_decreases A n x : (0 < n)%nat -> 0 < x -> A <= x ^ n -> newton A n x <= x.
Proof.
  intros Hn Hx HA. rewrite newton_factor by done.
  assert (Hp : 0 < x ^ n) by (by apply pow_lt). assert (Hi : 1 <= INR n) by (apply (le_INR 1); lia).
  assert (Hq : A / x ^ n <= 1).
  { apply (Rmult_le_reg_r (x ^ n)); [done|]. unfold Rdiv. rewrite Rmult_assoc, Rinv_l by lra. lra. }
  assert (Hh : (A / x ^ n - 1) / INR n <= 0).
  { apply (Rmult_le_reg_r (INR n)); [lra|]. unfold Rdiv. rewrite Rmult_assoc, Rinv_l by lra. lra. }
  nra.
Qed.

(** ** The order of roots *)

Lemma pow_le_inv x y n : 0 <= y -> (0 < n)%nat -> x ^ n <= y ^ n -> x <= y.
Proof.
  intros Hy Hn H. destruct (Rle_lt_dec x y) as [|Hlt]; [done|].
  pose proof (pow_le_o true y x n Hy Hn Hlt). simpl in *. lra.
Qed.
Lemma pow_lt_inv x y n : 0 <= y -> (0 < n)%nat -> x ^ n < y ^ n -> x < y.
Proof.
  intros Hy Hn H. destruct (Rlt_le_dec x y) as [|Hle]; [done|].
  pose proof (pow_le_o false y x n Hy Hn Hle). simpl in *. lra.
Qed.
Lemma pow_odd_le_inv (o : bool) x y n : Nat.even n = false -> le_o o (x ^ n) (y ^ n) -> le_o o x y.
Proof.
  intros Ho H. destruct o; simpl in *.
  - destruct (Rlt_le_dec x y) as [|Hle]; [done|]. pose proof (pow_odd_le_o false y x n Ho Hle). simpl in *. lra.
  - destruct (Rle_lt_dec x y) as [|Hlt]; [done|]. pose proof (pow_odd_le_o true y x n Ho Hlt). simpl in *. lra.
Qed.

Import interval_manager interval_root.
Section RootProofs.
Context {num : Type} {Mgr : NumManager num} {val : num -> R} {L : NumLaws val}.
Abbreviation state := (imstate num).

Definition wp {A} (Q : A -> state -> Prop) (N : Prop) (m : M A) (s : state) : Prop :=
  match m s with
  | Some (inl x, s') => Q x s'
  | Some (inr _, _) => True
  | None => N
  end.

Lemma root_wp_ret {A} Q N (x : A) s : Q x s -> wp Q N (ret x) s.
Proof. done. Qed.
Lemma root_wp_bind {A B} Q N (m : M A) (k : A -> M B) s :
  wp (fun x s' => wp Q N (k x) s') N m s -> wp Q N (bind m k) s.
Proof. unfold wp, bind. destruct (m s) as [[[x|e] s']|]; done. Qed.
Lemma wp_update Q N f s : Q tt (f s) -> wp Q N (update f) s.
Proof. done. Qed.
Lemma wp_read {A} (Q : A -> state -> Prop) N f s : Q (f s) s -> wp Q N (read f) s.
Proof. done. Qed.
Lemma root_wp_mono {A} (Q Q' : A -> state -> Prop) (N N' : Prop) m s :
  wp Q N m s -> (forall x s', Q x s' -> Q' x s') -> (N -> N') -> wp Q' N' m s.
Proof. unfold wp. destruct (m s) as [[[x|e] s']|]; auto. Qed.

(** The root operations on numbers change only the rounding mode and the resource limit. *)
Definition same_store (s s' : state) : Prop :=
  im_lower s' = im_lower s /\ im_upper s' = im_upper s /\ im_lower_open s' = im_lower_open s /\
  im_upper_open s' = im_upper_open s /\ im_lower_inf s' = im_lower_inf s /\ im_upper_inf s' = im_upper_inf s.
#[local] Instance same_store_preorder : PreOrder same_store.
Proof.
  split; [by intros s | intros s1 s2 s3 (?&?&?&?&?&?) (?&?&?&?&?&?)]. split_and!; congruence.
Qed.

Lemma wp_checkpoint Q N s : (forall s', same_store s s' -> Q tt s') -> wp Q N checkpoint s.
Proof.
  intros H. unfold checkpoint. apply root_wp_bind. unfold wp at 1.
  destruct (rlimit.inc (im_limit s)) as [ok l]. destruct ok; [|done]. by apply root_wp_ret, H.
Qed.

Hypothesis precise : m_precise = true.

Lemma x_add up a b : val (m_add up a b) = val a + val b.
Proof. by apply (val_add (val := val) up a b). Qed.
Lemma x_sub up a b : val (m_sub up a b) = val a - val b.
Proof. by apply (val_sub (val := val) up a b). Qed.
Lemma x_mul up a b : val (m_mul up a b) = val a * val b.
Proof. by apply (val_mul (val := val) up a b). Qed.
Lemma x_div up a b : val b <> 0 -> val (m_div up a b) = val a / val b.
Proof. intros Hb. by apply (val_div (val := val) up a b Hb). Qed.
Lemma x_power up a n : val a <> 0 \/ n <> O -> val (m_power up a n) = val a ^ n.
Proof. intros Hn. apply (val_power (val := val) up a n Hn); [by left | done]. Qed.
Lemma x_of_int up z : val (m_of_int up z) = IZR z.
Proof. by apply (val_of_int (val := val) up z). Qed.
Lemma x_dec up a : val (m_dec up a) = val a - 1.
Proof. by apply (val_dec (val := val) up a). Qed.

(** *** Both loops are one loop *)

Fixpoint newton_loop (step : bool -> num -> num) (fuel : nat) (p x : num) : M (num := num) num :=
  match fuel with
  | O => out_of_fuel
  | S fuel =>
      bind checkpoint (fun _ => bind (read im_up) (fun up =>
        if m_lt (m_abs (m_sub up (step up x) x)) p then ret (step up x)
        else newton_loop step fuel p (step up x)))
  end.

Definition step_2 (A two : num) (up : bool) (x : num) : num := m_div up (m_add up x (m_div up A x)) two.
Definition step_n (A : num) (n : nat) (_n _n_1 : num) (up : bool) (x : num) : num :=
  m_div up (m_add up (m_mul up _n_1 x) (m_div up A (m_power up x (n - 1)))) _n.

Lemma loop_2_newton fuel A p two x s :
  approx_loop_2 fuel A p two x s = newton_loop (step_2 A two) fuel p x s.
Proof.
  revert x s. induction fuel as [|fuel IH]; intros x s; [done|]. simpl. unfold bind, read.
  destruct (checkpoint s) as [[[[]|e] s']|]; try done. unfold step_2 at 1. destruct (m_lt _ p); [done | apply IH].
Qed.
Lemma loop_n_newton fuel A n p _n _n_1 x s :
  approx_loop_n fuel A n p _n _n_1 x s = newton_loop (step_n A n _n _n_1) fuel p x s.
Proof.
  revert x s. induction fuel as [|fuel IH]; intros x s; [done|]. simpl. unfold bind, read.
  destruct (checkpoint s) as [[[[]|e] s']|]; try done. unfold step_n at 1. destruct (m_lt _ p); [done | apply IH].
Qed.

Lemma step_2_val A two up x : val two = 2 -> 0 < val x -> val (step_2 A two up x) = newton (val A) 2 (val x).
Proof.
  intros H2 Hx. unfold step_2, newton. rewrite !x_div, x_add, x_div by lra. rewrite H2. simpl. field. lra.
Qed.
Lemma step_n_val A n _n _n_1 up x : (0 < n)%nat -> val _n = INR n -> val _n_1 = INR n - 1 -> 0 < val x ->
  val (step_n A n _n _n_1 up x) = newton (val A) n (val x).
Proof.
  intros Hn E1 E2 Hx. unfold step_n, newton.
  assert (val x ^ (n - 1) <> 0) by (apply pow_nonzero; lra).
  rewrite !x_div, x_add, x_mul, x_div, x_power, E1, E2; [done | left; lra | rewrite x_power; [done | left; lra] |].
  rewrite E1. apply not_0_INR. lia.
Qed.

Section Loop.
Variables (A : num) (n : nat) (p : num) (step : bool -> num -> num).
Hypothesis Hn : (0 < n)%nat.
Hypothesis HA : 0 < val A.
Hypothesis Hstep : forall up x, 0 < val x -> val (step up x) = newton (val A) n (val x).

Definition root_above (s : state) (x : num) (s' : state) : Prop :=
  same_store s s' /\ 0 < val x /\ val A <= val x ^ n.

(** From above the root each round that does not stop decreases [x] by [p] at least. *)
Lemma newton_loop_above fuel x s : 0 < val x -> val A <= val x ^ n ->
  wp (root_above s) (INR fuel * val p <= val x) (newton_loop step fuel p x) s.
Proof.
  revert x s. induction fuel as [|fuel IH]; intros x s Hx Hab; [unfold wp; simpl; lra|].
  cbn [newton_loop]. apply root_wp_bind, wp_checkpoint. intros s1 S1. apply root_wp_bind, wp_read.
  set (x' := step (im_up s1) x). assert (Ex : val x' = newton (val A) n (val x)) by (by apply Hstep).
  assert (Hx' : 0 < val x') by (rewrite Ex; by apply newton_pos).
  assert (Hab' : val A <= val x' ^ n) by (rewrite Ex; by apply newton_above).
  assert (Hle : val x' <= val x) by (rewrite Ex; by apply newton_decreases).
  destruct (m_lt _ p) eqn:E; [by apply root_wp_ret|].
  apply not_true_iff_false in E. rewrite (val_lt (val := val)), val_abs, x_sub in E.
  rewrite Rabs_left1 in E by lra.
  eapply root_wp_mono; [by apply IH | |].
  - intros y s2 (S2 & ? & ?). split_and!; [by etrans | done | done].
  - rewrite S_INR. lra.
Qed.

Lemma newton_loop_start fuel x s : 0 < val x ->
  wp (root_above s) (INR (fuel - 1) * val p <= newton (val A) n (val x)) (newton_loop step fuel p x) s.
Proof.
  intros Hx. pose proof (newton_pos (val A) n (val x) Hn HA Hx).
  destruct fuel as [|fuel]; [unfold wp; simpl; lra|]. replace (S fuel - 1)%nat with fuel by lia.
  cbn [newton_loop]. apply root_wp_bind, wp_checkpoint. intros s1 S1. apply root_wp_bind, wp_read.
  set (x' := step (im_up s1) x). assert (Ex : val x' = newton (val A) n (val x)) by (by apply Hstep).
  assert (Hx' : 0 < val x') by (by rewrite Ex).
  assert (Hab' : val A <= val x' ^ n) by (rewrite Ex; by apply newton_above).
  destruct (m_lt _ p); [by apply root_wp_ret|].
  eapply root_wp_mono; [by apply newton_loop_above | | by rewrite Ex].
  intros y s2 (S2 & ? & ?). split_and!; [by etrans | done | done].
Qed.
End Loop.

(** *** Roots of numbers *)

Definition newton_start (A : num) (n : nat) : R :=
  if Rlt_dec (val A) 1 then val A else 2 ^ (m_prev_power_of_two A / n).
(** Fuel is enough once it exceeds this bound divided by the precision. *)
Definition newton_bound (A : num) (n : nat) : R := newton (val A) n (newton_start A n).

Lemma same_store_rounding b s : same_store s (set_rounding b s).
Proof. by destruct b. Qed.

Lemma approx_nth_root_wp fuel A n p s : (1 < n)%nat -> 0 < val A ->
  wp (root_above A n s) (INR (fuel - 1) * val p <= newton_bound A n) (approx_nth_root fuel A n p) s.
Proof.
  intros Hn HA. unfold approx_nth_root. apply root_wp_bind, wp_read. apply root_wp_bind.
  assert (Start : wp (fun x s' => same_store s s' /\ val x = newton_start A n) False
    (if m_lt A (m_of_int (im_up s) 1) then ret A else rough_approx_nth_root A n) s).
  { unfold newton_start. destruct (m_lt _ _) eqn:E.
    - rewrite (val_lt (val := val)), x_of_int in E. by destruct (Rlt_dec (val A) 1).
    - apply not_true_iff_false in E. rewrite (val_lt (val := val)), x_of_int in E.
      destruct (Rlt_dec (val A) 1); [done|]. unfold rough_approx_nth_root.
      apply root_wp_bind, wp_update, root_wp_bind, wp_read, root_wp_ret. split; [done|].
      by rewrite x_power, x_of_int; [|left; rewrite x_of_int; lra]. }
  eapply root_wp_mono; [exact Start | | done]. clear Start. intros x s1 [S1 Ex].
  assert (Hx : 0 < val x).
  { rewrite Ex. unfold newton_start. destruct (Rlt_dec _ _); [done|]. apply pow_lt. lra. }
  apply root_wp_bind, wp_update, root_wp_bind, wp_read. unfold newton_bound. rewrite <- Ex.
  destruct (Nat.eqb_spec n 2) as [->|N2].
  - unfold wp. rewrite loop_2_newton. eapply root_wp_mono; [apply (newton_loop_start A 2); [lia | done | | done] | | done].
    + intros up y Hy. apply step_2_val; [by rewrite x_of_int | done].
    + intros y s2 (S2 & ? & ?). split_and!; [|done|done]. by etrans; [|exact S2].
  - unfold wp. rewrite loop_n_newton. eapply root_wp_mono; [apply (newton_loop_start A n); [lia | done | | done] | | done].
    + intros up y Hy. apply step_n_val; [lia | | | done]; rewrite ?x_dec, x_of_int, INR_IZR_INZ; done.
    + intros y s2 (S2 & ? & ?). split_and!; [|done|done]. by etrans; [|exact S2].
Qed.

Lemma A_div_x_n_wp A x n b s Q N : (0 < n)%nat -> 0 < val x ->
  (forall r s', same_store s s' -> val r = val A / val x ^ n -> Q r s') -> wp Q N (A_div_x_n A x n b) s.
Proof.
  intros Hn Hx HQ. assert (val x ^ n <> 0) by (apply pow_nonzero; lra).
  unfold A_div_x_n. rewrite precise. destruct (Nat.eqb_spec n 1) as [->|].
  - apply root_wp_bind, root_wp_ret, root_wp_bind, wp_read, root_wp_ret, HQ; [done|]. rewrite x_div by lra. by rewrite pow_1.
  - apply root_wp_bind, wp_read, root_wp_ret, HQ; [done|].
    rewrite x_div, x_power; [done | left; lra | rewrite x_power; [done | left; lra]].
Qed.

(** Bounds of the real n-th root of [a], stated without it. *)
Definition root_enclosed (a : num) (n : nat) (lo hi : num) : Prop :=
  val lo ^ n <= val a <= val hi ^ n /\ (0 <= val a -> 0 <= val lo /\ 0 <= val hi).

Lemma div_below_root A x n : (1 < n)%nat -> 0 < A -> 0 < x -> A <= x ^ n ->
  0 < A / x ^ (n - 1) <= x /\ (A / x ^ (n - 1)) ^ n <= A.
Proof.
  intros Hn HA Hx Hab. destruct n as [|n]; [lia|]. simpl (S n - 1)%nat. rewrite Nat.sub_0_r.
  assert (Hp : 0 < x ^ n) by (by apply pow_lt). change (x ^ S n) with (x * x ^ n) in Hab.
  set (q := A / x ^ n). assert (Eq : q * x ^ n = A) by (unfold q; field; lra).
  assert (Hq : 0 < q) by (by apply Rdiv_lt_0_compat). assert (Hqx : q <= x) by nra.
  split; [done|]. change (q ^ S n) with (q * q ^ n).
  assert (q ^ n <= x ^ n) by (apply pow_incr; lra). nra.
Qed.

Lemma nth_root_pos_wp fuel A n p s : (1 < n)%nat -> 0 < val A ->
  wp (fun r s' => same_store s s' /\ root_enclosed A n (fst r) (snd r))
     (INR (fuel - 1) * val p <= newton_bound A n) (nth_root_pos fuel A n p) s.
Proof.
  intros Hn HA. unfold nth_root_pos. apply root_wp_bind.
  eapply root_wp_mono; [by apply approx_nth_root_wp | | done]. intros x s1 (S1 & Hx & Hab).
  rewrite precise. apply root_wp_bind. apply A_div_x_n_wp; [lia | done |]. intros lo s2 S2 Elo.
  destruct (div_below_root (val A) (val x) n Hn HA Hx Hab) as [[Hl1 Hl2] Hl3]. rewrite <- Elo in *.
  replace (m_lt x lo) with false by (symmetry; apply not_true_iff_false; rewrite (val_lt (val := val)); lra).
  apply root_wp_ret. split; [by etrans|]. unfold root_enclosed; simpl. lra.
Qed.

Lemma nth_root_wp fuel a n p s : (0 < n)%nat -> (Nat.even n = true -> 0 <= val a) ->
  wp (fun r s' => same_store s s' /\ root_enclosed a n (fst r) (snd r))
     (INR (fuel - 1) * val p <= newton_bound (m_abs a) n) (nth_root fuel a n p) s.
Proof.
  intros Hn Ha. unfold nth_root.
  destruct (_ || _ || _ || _) eqn:E.
  { apply root_wp_ret. split; [done|]. unfold root_enclosed; simpl.
    assert (Ep : val a ^ n = val a); [|rewrite Ep; lra].
    apply orb_true_iff in E as [[[E|E]%orb_true_iff|E]%orb_true_iff|E].
    - apply Nat.eqb_eq in E as ->. apply pow_1.
    - apply (val_is_zero (val := val)) in E. rewrite E. apply pow_i. lia.
    - apply (val_is_one (val := val)) in E. rewrite E. apply pow1.
    - apply (val_is_minus_one (val := val)) in E. rewrite E.
      destruct (Nat.even n) eqn:Ev; [specialize (Ha eq_refl); lra|].
      replace (-1) with (- (1)) by ring. rewrite pow_opp_odd, pow1 by done. done. }
  repeat (apply orb_false_iff in E as [E ?]). apply Nat.eqb_neq in E.
  assert (Hz : val a <> 0) by (intros F%val_is_zero; congruence).
  assert (HA : 0 < val (m_abs a)) by (rewrite val_abs; by apply Rabs_pos_lt).
  apply root_wp_bind. eapply root_wp_mono; [apply nth_root_pos_wp; [lia | done] | | done].
  intros [lo hi] s1 (S1 & [R1 R2] & R3). cbn [fst snd] in *. rewrite val_abs in *.
  destruct (m_is_neg a) eqn:Neg.
  - apply val_is_neg in Neg. destruct (Nat.even n) eqn:Ev; [specialize (Ha eq_refl); lra|].
    apply root_wp_ret. split; [done|]. unfold root_enclosed; cbn [fst snd]. rewrite !val_neg, !pow_opp_odd by done.
    rewrite Rabs_left in R1, R2 by done. lra.
  - apply not_true_iff_false in Neg. rewrite (val_is_neg (val := val)) in Neg.
    rewrite Rabs_pos_eq in R1, R2, R3 by lra. apply root_wp_ret. split; [done|]. split; [by split|]. intros _.
    apply R3. lra.
Qed.

(** *** Roots of intervals *)

Abbreviation justified := (justified (val := val)).
Abbreviation lower_ok := (lower_ok (val := val)).
Abbreviation upper_ok := (upper_ok (val := val)).

Definition same_lowers (P : loc -> Prop) (s s' : state) : Prop := forall j, P j ->
  im_lower s' j = im_lower s j /\ im_lower_open s' j = im_lower_open s j /\ im_lower_inf s' j = im_lower_inf s j.
Definition same_uppers (P : loc -> Prop) (s s' : state) : Prop := forall j, P j ->
  im_upper s' j = im_upper s j /\ im_upper_open s' j = im_upper_open s j /\ im_upper_inf s' j = im_upper_inf s j.

Lemma same_lower_ok P s s' j x : same_lowers P s s' -> P j -> lower_ok s' j x <-> lower_ok s j x.
Proof.
  intros H Hj. destruct (H j Hj) as (E1 & E2 & E3).
  unfold IntervalProofs.lower_ok, lower_kind, lower, lower_is_open, lower_is_inf. by rewrite E1, E2, E3.
Qed.
Lemma same_upper_ok P s s' j x : same_uppers P s s' -> P j -> upper_ok s' j x <-> upper_ok s j x.
Proof.
  intros H Hj. destruct (H j Hj) as (E1 & E2 & E3).
  unfold IntervalProofs.upper_ok, upper_kind, upper, upper_is_open, upper_is_inf. by rewrite E1, E2, E3.
Qed.

Definition root_bound (s : state) (a : loc) (n : nat) : R :=
  Rmax (newton_bound (m_abs (lower s a)) n) (newton_bound (m_abs (upper s a)) n).

(** The real number whose power lies above the bound lies above the lower bound of the root, strictly
    when the bound is open and the root exact; dually below. *)
Lemma root_lower (a : num) n lo hi (o : bool) x : (0 < n)%nat -> (Nat.even n = true -> 0 <= x /\ 0 <= val a) ->
  root_enclosed a n lo hi -> le_o o (val a) (x ^ n) -> le_o (o && m_eq lo hi) (val lo) x.
Proof.
  intros Hn Hx [[R1 R2] R3] Ha. destruct (Nat.even n) eqn:Ev.
  - destruct (Hx eq_refl) as [X A]. destruct (R3 A) as [Hlo Hhi]. destruct (o && m_eq lo hi) eqn:E.
    + apply andb_true_iff in E as [-> E%(val_eq (val := val))]. rewrite <- E in *.
      apply pow_lt_inv with n; [done | done |]. simpl in *. lra.
    + apply pow_le_inv with n; [done | done |]. apply le_o_le in Ha. lra.
  - apply pow_odd_le_inv with n; [done|]. destruct (o && m_eq lo hi) eqn:E.
    + apply andb_true_iff in E as [-> E%(val_eq (val := val))]. rewrite <- E in *. simpl in *. lra.
    + apply le_o_le in Ha. simpl. lra.
Qed.
Lemma root_upper (a : num) n lo hi (o : bool) x : (0 < n)%nat -> (Nat.even n = true -> 0 <= val a) ->
  root_enclosed a n lo hi -> le_o o (x ^ n) (val a) -> le_o (o && m_eq lo hi) x (val hi).
Proof.
  intros Hn Hx [[R1 R2] R3] Ha. destruct (Nat.even n) eqn:Ev.
  - destruct (R3 (Hx eq_refl)) as [Hlo Hhi]. destruct (o && m_eq lo hi) eqn:E.
    + apply andb_true_iff in E as [-> E%(val_eq (val := val))]. rewrite E in *.
      apply pow_lt_inv with n; [done | done |]. simpl in *. lra.
    + apply pow_le_inv with n; [done | done |]. apply le_o_le in Ha. lra.
  - apply pow_odd_le_inv with n; [done|]. destruct (o && m_eq lo hi) eqn:E.
    + apply andb_true_iff in E as [-> E%(val_eq (val := val))]. rewrite E in *. simpl in *. lra.
    + apply le_o_le in Ha. simpl. lra.
Qed.

(** Precondition of the operations on intervals: asserted, and the interval is not empty. *)
Definition root_pre (s : state) (a : loc) (n : nat) : Prop :=
  (0 < n)%nat /\ check_invariant s a = true /\ (Nat.even n = true -> lower_is_neg s a = false).

Lemma root_pre_bounds s a n : root_pre s a n -> Nat.even n = true ->
  lower_kind s a = EN_NUMERAL /\ 0 <= val (lower s a) /\ (upper_kind s a = EN_NUMERAL -> 0 <= val (upper s a)).
Proof.
  intros (Hn & I & He) Ev. specialize (He Ev). apply not_true_iff_false in He.
  unfold lower_is_neg in He. rewrite (is_neg_spec (val := val)) in He. pose proof (lower_kind_not_plus s a).
  destruct (lower_kind s a) eqn:El; try done. simpl in He. split_and!; [done | lra |].
  intros Eu. apply (invariant_member (val := val)) in I as (x & Hl & Hu).
  apply lower_ok_num in Hl; [|done]. apply upper_ok_num in Hu; [|done]. apply le_o_le in Hl, Hu. lra.
Qed.

Lemma nth_root_phase1 fuel a n p b s : root_pre s a n -> n <> 1%nat ->
  wp (fun _ s' =>
        (forall x, (Nat.even n = true -> 0 <= x) -> lower_ok s a (x ^ n) -> lower_ok s' b x) /\
        same_lowers (fun j => j <> b) s s' /\ same_uppers (fun _ => True) s s')
     (INR (fuel - 1) * val p <= root_bound s a n)
     (if lower_is_inf s a then
        bind (update (set_lower b m_zero)) (fun _ =>
        bind (update (set_lower_is_inf b true)) (fun _ => update (set_lower_is_open b true)))
      else
        bind (read (fun s => lower s a)) (fun l =>
        bind (nth_root fuel l n p) (fun r => match r with (lo, hi) =>
        bind (update (set_lower_is_inf b false)) (fun _ =>
        bind (update (fun s => set_lower_is_open b (lower_is_open s a && m_eq lo hi) s)) (fun _ =>
        update (set_lower b lo))) end))) s.
Proof.
  intros Pre H1. pose proof Pre as (Hn & _). destruct (lower_is_inf s a) eqn:Ei.
  - apply root_wp_bind, wp_update, root_wp_bind, wp_update, wp_update. split_and!.
    + intros x _ _. by ist.
    + intros j Hj. cbn. by rewrite !fn_lookup_insert_ne by done.
    + by intros j _.
  - apply root_wp_bind, wp_read, root_wp_bind.
    assert (El : lower_kind s a = EN_NUMERAL) by (unfold lower_kind; by rewrite Ei).
    eapply root_wp_mono; [apply nth_root_wp; [done | by intros Ev; apply (root_pre_bounds s a n Pre Ev)] | |].
    2: { intros HN. etrans; [exact HN | apply Rmax_l]. }
    intros [lo hi] s1 [(E1 & E2 & E3 & E4 & E5 & E6) HR]. cbn [fst snd] in HR.
    apply root_wp_bind, wp_update, root_wp_bind, wp_update, wp_update. split_and!.
    + intros x Hx Hl. apply lower_ok_num in Hl; [|done].
      assert (G : le_o (lower_is_open s a && m_eq lo hi) (val lo) x).
      { apply (root_lower (lower s a) n); [done | | done | done]. intros Ev. split; [by apply Hx|].
        by apply (root_pre_bounds s a n Pre Ev). }
      unfold lower_is_open in G. ist. rewrite E3. exact G.
    + intros j Hj. cbn. rewrite !fn_lookup_insert_ne by done. by rewrite E1, E3, E5.
    + intros j _. cbn. by rewrite E2, E4, E6.
Qed.

Lemma nth_root_interval_wp fuel a n p b s : root_pre s a n ->
  wp (fun _ s' =>
        (forall x, (Nat.even n = true -> 0 <= x) ->
           justified s s' (nth_root_jst n) a a b (x ^ n) (x ^ n) x) /\
        (forall j, j <> b -> same_at s s' j))
     (INR (fuel - 1) * val p <= root_bound s a n) (nth_root_interval fuel a n p b) s.
Proof.
  intros Pre. pose proof Pre as (Hn & _). unfold nth_root_interval. destruct (Nat.eqb_spec n 1) as [->|H1].
  { apply wp_update. split; [|intros; by apply set_frame]. intros x _. rewrite pow_1.
    split; cbn; intros (D1 & D2 & _); [by apply set_lower_ok, D1 | by apply set_upper_ok, D2]. }
  apply root_wp_bind, wp_read, root_wp_bind. eapply root_wp_mono; [by apply nth_root_phase1 | | done].
  intros _ s1 (Hlow & Sl & Su).
  apply root_wp_bind, wp_read. destruct (Su a I) as (U1 & U2 & U3). unfold upper_is_inf. rewrite U3.
  assert (Jst : forall x, deps_sat (val := val) s (m_lower_combine (nth_root_jst n)) a a (x ^ n) (x ^ n) ->
    lower_ok s a (x ^ n)) by (intros x (D1 & _); by apply D1).
  destruct (im_upper_inf s a) eqn:Ei.
  - apply root_wp_bind, wp_update, root_wp_bind, wp_update, wp_update. split; [intros x Hx; split|].
    + intros D. by apply Jst, (Hlow x Hx) in D.
    + intros _. by ist.
    + intros j Hj. destruct (Sl j Hj) as (?&?&?), (Su j I) as (?&?&?).
      unfold same_at. cbn. rewrite !fn_lookup_insert_ne by done. done.
  - apply root_wp_bind, wp_read, root_wp_bind. unfold upper at 1. rewrite U1.
    assert (Eu : upper_kind s a = EN_NUMERAL) by (unfold upper_kind, upper_is_inf; by rewrite Ei).
    assert (Ub : Nat.even n = true -> 0 <= val (upper s a)).
    { intros Ev. by apply (root_pre_bounds s a n Pre Ev). }
    eapply root_wp_mono; [by apply (nth_root_wp fuel (upper s a)) | |].
    2: { intros HN. etrans; [exact HN | apply Rmax_r]. }
    intros [lo hi] s2 [(E1 & E2 & E3 & E4 & E5 & E6) HR]. cbn [fst snd] in HR.
    apply root_wp_bind, wp_update, root_wp_bind, wp_update, wp_update. split; [intros x Hx; split|].
    + intros D. apply Jst, (Hlow x Hx) in D. revert D. ist. by rewrite E1, E3, E5.
    + intros D. assert (Hu : upper_ok s a (x ^ n)).
      { unfold nth_root_jst in D. destruct (Nat.even n); destruct D as (_ & D2 & _); by apply D2. }
      apply upper_ok_num in Hu; [|done].
      assert (G : le_o (upper_is_open s a && m_eq lo hi) x (val hi)) by (by apply (root_upper (upper s a) n)).
      unfold upper_is_open in G. ist. rewrite E4, U2. exact G.
    + intros j Hj. destruct (Sl j Hj) as (?&?&?), (Su j I) as (?&?&?).
      unfold same_at. cbn. rewrite !fn_lookup_insert_ne by done.
      rewrite E1, E2, E3, E4, E5, E6. done.
Qed.

Lemma pow_even_abs x n : Nat.even n = true -> Rabs x ^ n = x ^ n.
Proof.
  intros He. unfold Rabs. destruct (Rcase_abs x); [by apply pow_opp_even | done].
Qed.
Lemma le_o_abs o x h : le_o o (Rabs x) h -> le_o o (- h) x /\ le_o o x h.
Proof.
  intros H. assert (- Rabs x <= x <= Rabs x) by (pose proof (Rle_abs x); pose proof (Rle_abs (- x));
    rewrite Rabs_Ropp in *; lra).
  destruct o; simpl in *; lra.
Qed.

Lemma xn_eq_y_wp fuel y n p x s : root_pre s y n ->
  wp (fun _ s' =>
        (forall v, justified s s' (xn_eq_y_jst n) y y x (v ^ n) (v ^ n) v) /\
        (forall j, j <> x -> same_at s s' j))
     (INR (fuel - 1) * val p <= root_bound s y n) (xn_eq_y fuel y n p x) s.
Proof.
  intros Pre. pose proof Pre as (Hn & _). unfold xn_eq_y, xn_eq_y_jst. destruct (Nat.even n) eqn:Ev.
  - apply root_wp_bind, wp_read. destruct (upper_is_inf s y) eqn:Ei.
    + apply wp_update. split; [intros v; split; intros _; [apply reset_lower_ok | apply reset_upper_ok]|].
      intros j Hj. unfold same_at, reset, reset_lower, reset_upper. cbn.
      by rewrite !fn_lookup_insert_ne by done.
    + apply root_wp_bind, wp_read, root_wp_bind.
      assert (Eu : upper_kind s y = EN_NUMERAL) by (unfold upper_kind; by rewrite Ei).
      assert (Ub : 0 <= val (upper s y)) by (by apply (root_pre_bounds s y n Pre Ev)).
      eapply root_wp_mono; [by apply (nth_root_wp fuel (upper s y)) | |].
      2: { intros HN. etrans; [exact HN | apply Rmax_r]. }
      intros [lo hi] s1 [(E1 & E2 & E3 & E4 & E5 & E6) HR]. cbn [fst snd] in HR.
      apply root_wp_bind, wp_read. unfold upper_is_open. rewrite E4. do 7 apply root_wp_bind, wp_update. apply wp_update.
      assert (G : forall v, upper_ok s y (v ^ n) ->
        le_o (im_upper_open s y && m_eq lo hi) (- val hi) v /\ le_o (im_upper_open s y && m_eq lo hi) v (val hi)).
      { intros v Hv. apply upper_ok_num in Hv; [|done]. apply le_o_abs.
        apply (root_upper (upper s y) n); [done | done | done |]. by rewrite pow_even_abs. }
      split; [intros v; split; intros (_ & D2 & _); specialize (D2 eq_refl)|].
      * ist. simpl. rewrite val_neg. by apply G.
      * ist. by apply G.
      * intros j Hj. unfold same_at. cbn. rewrite !fn_lookup_insert_ne by done.
        by rewrite E1, E2, E3, E4, E5, E6.
  - eapply root_wp_mono; [by apply nth_root_interval_wp | | done]. intros _ s' [J F]. split; [|done].
    intros v. specialize (J v). unfold nth_root_jst in J. rewrite Ev in J. by apply J.
Qed.

End RootProofs.
