(* ===== verification/IntervalTrig.v ===== *)
(** * IntervalTrig: sine, cosine and the multiples of pi ([math/interval/interval_def.h])

    Taylor series with directed rounding, in the monad of [IntervalRoot].  The loops of the two series are the
    same but for their start.  The intervals the manager caches for pi are intervals of the store, at the references
    of [pi_cache]. *)
From S2P Require Import Prelude.
From S2P Require Import ExtNumeral.
From S2P Require Import Interval.
From S2P Require Import IntervalRoot.
From Stdlib Require Import ZArith Lia.
From stdpp Require Import base tactics option list numbers functions.
Close Scope word_scope.
Open Scope Z_scope.

Record pi_cache := PiCache { m_pi_n : nat; m_pi : loc; m_pi_div_2 : loc; m_3_pi_div_2 : loc; m_2_pi : loc }.

Module interval_trig.
Import interval_manager interval_root.
Section Trig.
Context {num : Type} `{NumManager num}.
Local Notation "x <<- m ; k" := (bind m (fun x => k)) (at level 100, m at level 99, right associativity).
Local Notation "m ;; k" := (bind m (fun _ => k)) (at level 100, right associativity).

(** The loops, from the term of degree [i], with [cnt] rounds left. *)
Fixpoint series_loop (cnt i : nat) (a : num) (upper sign upper_factor : bool) (o : num) : M num :=
  match cnt with
  | O => ret o
  | S cnt =>
      update (set_rounding upper_factor);;
      up <<- read im_up;
      let f := m_power up a i in
      update (set_rounding (negb upper_factor));;
      aux <<- read (fact i);
      update (set_rounding upper_factor);;
      up <<- read im_up;
      let f := m_div up f aux in
      update (set_rounding upper);;
      up <<- read im_up;
      let o := if sign then m_sub up o f else m_add up o f in
      series_loop cnt (i + 2) a upper (negb sign) (negb upper_factor) o
  end.
Definition sine_series (a : num) (k : nat) (upper : bool) : M num :=
  series_loop ((k - 1) / 2) 3 a upper true (negb upper) a.
Definition cosine_series (a : num) (k : nat) (upper : bool) : M num :=
  up <<- read im_up;
  series_loop (k / 2) 2 a upper true (negb upper) (m_of_int up 1).

(** |a|^n / n!, rounded up. *)
Definition error_term (a : num) (n : nat) : M num :=
  update round_to_plus_inf;;
  up <<- read im_up;
  let error := if m_is_neg a then m_neg a else a in
  let error := m_power up error n in
  update round_to_minus_inf;;
  aux <<- read (fact n);
  update round_to_plus_inf;;
  up <<- read im_up;
  ret (m_div up error aux).

(** The second half of [sine] and [cosine]. *)
Definition with_error (series : bool -> M num) (error : num) : M (num * num) :=
  lo <<- series false;
  if m_precise then
    let hi := lo in
    up <<- read im_up;
    let lo := m_sub up lo error in
    minus_one <<- read m_minus_one;
    if m_lt lo minus_one then ret (m_of_int up (-1), m_of_int up 1)
    else ret (lo, m_add up hi error)
  else
    update round_to_minus_inf;;
    up <<- read im_up;
    let lo := m_sub up lo error in
    minus_one <<- read m_minus_one;
    if m_lt lo minus_one then ret (m_of_int up (-1), m_of_int up 1)
    else
      hi <<- series true;
      update round_to_plus_inf;;
      up <<- read im_up;
      ret (lo, m_add up hi error).

(** [lo] and [hi]. *)
Definition sine (a : num) (k : nat) : M (num * num) :=
  if m_is_zero a then ret (m_zero, m_zero)
  else
    let k := if (k mod 2 =? 0)%nat then (k + 1)%nat else k in
    error <<- error_term a (k + 1);
    with_error (sine_series a k) error.
Definition cosine (a : num) (k : nat) : M (num * num) :=
  if m_is_zero a then up <<- read im_up; ret (m_of_int up 1, m_of_int up 1)
  else
    let k := if (k mod 2 =? 1)%nat then (k + 1)%nat else k in
    error <<- error_term a (k + 1);
    with_error (cosine_series a k) error.

(** *** Multiples of pi *)

Definition set_pi_prec (n : nat) (c : pi_cache) : M pi_cache :=
  pi n (m_pi c);;
  update (mul_frac 1 2 (m_pi c) (m_pi_div_2 c));;
  update (mul_frac 3 2 (m_pi c) (m_3_pi_div_2 c));;
  update (mul_frac 2 1 (m_pi c) (m_2_pi c));;
  ret (PiCache n (m_pi c) (m_pi_div_2 c) (m_3_pi_div_2 c) (m_2_pi c)).
Definition set_pi_at_least_prec (n : nat) (c : pi_cache) : M pi_cache :=
  if (m_pi_n c <? n)%nat then set_pi_prec n c else ret c.
End Trig.
End interval_trig.
