(* ===== verification/IntervalTrigProofs.v ===== *)
(** * IntervalTrigProofs: Taylor series of sine and cosine, for precise managers

    [trig i] is the i-th derivative of the sine, [taylor n i] its Taylor polynomial of [n] terms.  The remainder is
    bounded by the next power, by induction on the number of terms; the loops of [interval_trig] compute the
    polynomials. *)
From S2P Require Import Prelude.
From S2P Require Import ExtNumeral.
From S2P Require Import Interval.
From S2P Require Import IntervalRoot.
From S2P Require Import IntervalTrig.
From Stdlib Require Import ZArith Lia Reals Lra QArith Qreals.
From stdpp Require Import base tactics option list numbers functions.
Close Scope word_scope.
Close Scope Q_scope.
Open Scope R_scope.

(** ** Taylor's formula *)

Definition trig (i : nat) (x : R) : R := sin (x + INR i * (PI / 2)).
Fixpoint taylor (n i : nat) (x : R) : R :=
  match n with O => 0 | S n => taylor n i x + trig (i + n) 0 * (x ^ n / INR (Factorial.fact n)) end.

Lemma trig_S i x : trig (S i) x = cos (x + INR i * (PI / 2)).
Proof. unfold trig. rewrite S_INR. rewrite cos_sin. f_equal. lra. Qed.
Lemma trig_SS i x : trig (S (S i)) x = - trig i x.
Proof. rewrite trig_S. unfold trig. rewrite S_INR. rewrite cos_sin, <- neg_sin. f_equal. lra. Qed.
Lemma trig_bound i x : Rabs (trig i x) <= 1.
Proof. apply Rabs_le. apply SIN_bound. Qed.
Lemma trig_0 x : trig 0 x = sin x.
Proof. unfold trig. f_equal. simpl. lra. Qed.
Lemma trig_1 x : trig 1 x = cos x.
Proof. rewrite trig_S. f_equal. simpl. lra. Qed.
Lemma trig_even m : trig (2 * m) 0 = 0.
Proof.
  induction m as [|m IH]; [by rewrite trig_0, sin_0|].
  replace (2 * S m)%nat with (S (S (2 * m))) by lia. rewrite trig_SS, IH. lra.
Qed.

Lemma trig_derive i x : derivable_pt_lim (trig i) x (trig (S i) x).
Proof.
  rewrite trig_S. unfold trig. replace (cos (x + INR i * (PI / 2))) with (cos (x + INR i * (PI / 2)) * (1 + 0)) by lra.
  apply (derivable_pt_lim_comp (fun x => x + INR i * (PI / 2)) sin).
  - apply (derivable_pt_lim_plus (fun x => x) (fun _ => INR i * (PI / 2))); [apply derivable_pt_lim_id | apply derivable_pt_lim_const].
  - apply derivable_pt_lim_sin.
Qed.
Lemma fact_pos n : 0 < INR (Factorial.fact n).
Proof. apply lt_0_INR, Factorial.lt_O_fact. Qed.
Lemma power_derive n x : derivable_pt_lim (fun x => x ^ S n / INR (Factorial.fact (S n))) x (x ^ n / INR (Factorial.fact n)).
Proof.
  pose proof (fact_pos n). pose proof (fact_pos (S n)). assert (0 < INR (S n)) by (apply lt_0_INR; lia).
  replace (x ^ n / INR (Factorial.fact n)) with (/ INR (Factorial.fact (S n)) * (INR (S n) * x ^ n)).
  - apply (derivable_pt_lim_ext (fun x => / INR (Factorial.fact (S n)) * x ^ S n)); [intros y; unfold Rdiv; lra|].
    apply (derivable_pt_lim_scal (fun x => x ^ S n)). apply derivable_pt_lim_pow.
  - change (Factorial.fact (S n)) with (S n * Factorial.fact n)%nat. rewrite mult_INR. field. split; lra.
Qed.
Lemma taylor_derive n i x : derivable_pt_lim (taylor (S n) i) x (taylor n (S i) x).
Proof.
  revert x. induction n as [|n IH]; intros x.
  - apply (derivable_pt_lim_ext (fun _ => trig i 0)); [|apply derivable_pt_lim_const].
    intros y. cbn. rewrite Nat.add_0_r. lra.
  - change (derivable_pt_lim (fun x => taylor (S n) i x + trig (i + S n) 0 * (x ^ S n / INR (Factorial.fact (S n)))) x
      (taylor n (S i) x + trig (S i + n) 0 * (x ^ n / INR (Factorial.fact n)))).
    replace (i + S n)%nat with (S i + n)%nat by lia. apply (derivable_pt_lim_plus (taylor (S n) i)); [apply IH|].
    apply (derivable_pt_lim_scal (fun x => x ^ S n / INR (Factorial.fact (S n)))). apply power_derive.
Qed.
Lemma taylor_at_0 n i : taylor (S n) i 0 = trig i 0.
Proof.
  induction n as [|n IH]; [cbn; rewrite Nat.add_0_r; lra|].
  change (taylor (S (S n)) i 0) with (taylor (S n) i 0 + trig (i + S n) 0 * (0 ^ S n / INR (Factorial.fact (S n)))).
  rewrite IH, pow_i by lia. unfold Rdiv. lra.
Qed.

(** A function that is 0 at 0 and whose derivative is not negative. *)
Lemma nonneg_derive (h h' : R -> R) x : 0 <= x -> h 0 = 0 -> (forall t, derivable_pt_lim h t (h' t)) ->
  (forall t, 0 <= t -> 0 <= h' t) -> 0 <= h x.
Proof.
  intros [Hx|<-] H0 Hd Hp; [|lra]. destruct (MVT_cor2 h h' 0 x Hx (fun c _ => Hd c)) as (c & E & Hc).
  assert (0 <= h' c) by (apply Hp; lra). nra.
Qed.

Definition remainder (s : R) (n i : nat) (t : R) : R := trig i (s * t) - taylor n i (s * t).
Lemma remainder_derive s n i t : derivable_pt_lim (remainder s (S n) i) t (s * remainder s n (S i) t).
Proof.
  unfold remainder. replace (s * (trig (S i) (s * t) - taylor n (S i) (s * t)))
    with (trig (S i) (s * t) * (s * 1) - taylor n (S i) (s * t) * (s * 1)) by lra.
  assert (Hs : derivable_pt_lim (fun t => s * t) t (s * 1)) by (apply (derivable_pt_lim_scal id), derivable_pt_lim_id).
  apply (derivable_pt_lim_minus (fun t => trig i (s * t)) (fun t => taylor (S n) i (s * t))).
  - apply (derivable_pt_lim_comp (fun t => s * t) (trig i)); [exact Hs | apply trig_derive].
  - apply (derivable_pt_lim_comp (fun t => s * t) (taylor (S n) i)); [exact Hs | apply taylor_derive].
Qed.

Lemma remainder_bound s n i t : s = 1 \/ s = -1 -> 0 <= t -> Rabs (remainder s n i t) <= t ^ n / INR (Factorial.fact n).
Proof.
  intros Hs. revert i t. induction n as [|n IH]; intros i t Ht.
  { unfold remainder. cbn. rewrite Rminus_0_r. pose proof (trig_bound i (s * t)). lra. }
  assert (B : forall e, e = 1 \/ e = -1 -> 0 <= t ^ S n / INR (Factorial.fact (S n)) - e * remainder s (S n) i t).
  { intros e He. apply (nonneg_derive (fun t => t ^ S n / INR (Factorial.fact (S n)) - e * remainder s (S n) i t)
      (fun t => t ^ n / INR (Factorial.fact n) - e * (s * remainder s n (S i) t))); [done | | |].
    - unfold remainder. rewrite Rmult_0_r, taylor_at_0, pow_i by lia. unfold Rdiv. lra.
    - intros u. apply (derivable_pt_lim_minus (fun t => t ^ S n / INR (Factorial.fact (S n)))); [apply power_derive|].
      apply (derivable_pt_lim_scal (remainder s (S n) i)), remainder_derive.
    - intros u Hu. specialize (IH (S i) u Hu). pose proof (Rle_abs (remainder s n (S i) u)) as A1.
      pose proof (Rle_abs (- remainder s n (S i) u)) as A2. rewrite Rabs_Ropp in A2. destruct He as [->| ->], Hs as [->| ->]; lra. }
  pose proof (B 1 (or_introl eq_refl)). pose proof (B (-1) (or_intror eq_refl)). apply Rabs_le. lra.
Qed.

Lemma taylor_bound n i x : Rabs (trig i x - taylor n i x) <= Rabs x ^ n / INR (Factorial.fact n).
Proof.
  destruct (Rle_dec 0 x) as [Hx|Hx].
  - pose proof (remainder_bound 1 n i x (or_introl eq_refl) Hx) as H. unfold remainder in H.
    rewrite Rmult_1_l in H. by rewrite (Rabs_pos_eq x).
  - pose proof (remainder_bound (-1) n i (- x) (or_intror eq_refl) ltac:(lra)) as H. unfold remainder in H.
    replace (-1 * - x) with x in H by lra. by rewrite (Rabs_left x) by lra.
Qed.

Lemma taylor_3 x : taylor 3 0 x = x.
Proof. cbn [taylor Nat.add]. rewrite trig_SS, trig_1, trig_0, cos_0, sin_0. simpl. field. Qed.
Lemma taylor_2 x : taylor 2 1 x = 1.
Proof. cbn [taylor Nat.add]. rewrite trig_SS, trig_1, trig_0, cos_0, sin_0. simpl. field. Qed.

(** ** The loops *)

(** What they add: every other term, with alternating signs. *)
Fixpoint alternating (cnt i : nat) (sign : bool) (x : R) : R :=
  match cnt with
  | O => 0
  | S cnt => (if sign then -1 else 1) * (x ^ i / INR (Factorial.fact i)) + alternating cnt (i + 2) (negb sign) x
  end.
Lemma taylor_alternating cnt p i (sign : bool) x : trig (p + i) 0 = (if sign then -1 else 1) -> trig (p + S i) 0 = 0 ->
  taylor (i + 2 * cnt) p x = taylor i p x + alternating cnt i sign x.
Proof.
  revert i sign. induction cnt as [|cnt IH]; intros i sign H1 H2; [rewrite Nat.add_0_r; cbn; lra|].
  replace (i + 2 * S cnt)%nat with (i + 2 + 2 * cnt)%nat by lia. rewrite (IH (i + 2)%nat (negb sign)).
  - replace (i + 2)%nat with (S (S i)) by lia. cbn [taylor alternating]. rewrite H1, H2.
    replace (i + 2)%nat with (S (S i)) by lia. lra.
  - replace (p + (i + 2))%nat with (S (S (p + i))) by lia. rewrite trig_SS, H1. destruct sign; simpl; lra.
  - replace (p + S (i + 2))%nat with (S (S (p + S i))) by lia. rewrite trig_SS, H2. lra.
Qed.

Section Proofs.
Context {num : Type} {Mgr : NumManager num} {val : num -> R} {L : NumLaws val}.
Hypothesis precise : m_precise = true.
Abbreviation state := (imstate num).

Ltac exact_ops := rewrite ?(proj1 (val_add (val := val) _ _ _) precise), ?(proj1 (val_sub (val := val) _ _ _) precise),
  ?(proj1 (val_mul (val := val) _ _ _) precise), ?(proj1 (val_of_int (val := val) _ _) precise).

Lemma fact_loop_val k i o up : (1 <= i)%nat -> val o = INR (Factorial.fact (i - 1)) ->
  val (interval_root.fact_loop k i o up) = INR (Factorial.fact (i + k - 1)).
Proof.
  revert i o. induction k as [|k IH]; intros i o Hi Ho; [rewrite Nat.add_0_r; done|].
  cbn [interval_root.fact_loop]. rewrite IH; [f_equal; f_equal; lia | lia |]. exact_ops. rewrite Ho, <- INR_IZR_INZ, <- mult_INR.
  f_equal. destruct i as [|i]; [lia|]. replace (S (S i) - 1)%nat with (S i) by lia. by replace (S i - 1)%nat with i by lia.
Qed.
Lemma trig_fact_val n (s : state) : val (interval_root.fact n s) = INR (Factorial.fact n).
Proof.
  unfold interval_root.fact. rewrite fact_loop_val; [|lia | exact_ops; done].
  destruct n as [|n]; [done|]. f_equal. f_equal. lia.
Qed.

Lemma term_val up1 up2 a i (s : state) : i <> 0%nat ->
  val (m_div up1 (m_power up2 a i) (interval_root.fact i s)) = val a ^ i / INR (Factorial.fact i).
Proof.
  intros Hi. pose proof (fact_pos i). assert (Hf : val (interval_root.fact i s) <> 0) by (rewrite trig_fact_val; lra).
  rewrite (proj1 (val_div (val := val) _ _ _ Hf) precise), trig_fact_val. by rewrite (proj1 (val_power (val := val) _ _ _ (or_intror Hi) (or_introl precise)) precise).
Qed.

Lemma series_loop_val cnt i a upper sign uf o (s : state) : i <> 0%nat ->
  exists o' s', interval_trig.series_loop cnt i a upper sign uf o s = Some (inl o', s') /\
    val o' = val o + alternating cnt i sign (val a).
Proof.
  revert i sign uf o s. induction cnt as [|cnt IH]; intros i sign uf o s Hi.
  { exists o, s. split; [done|]. cbn. lra. }
  cbn [interval_trig.series_loop]. unfold interval_root.bind, interval_root.update, interval_root.read.
  edestruct (IH (i + 2)%nat (negb sign) (negb uf)) as (o' & s' & -> & E); [lia|]. exists o', s'. split; [done|].
  rewrite E. cbn [alternating]. destruct sign; exact_ops; rewrite term_val by done; lra.
Qed.

Lemma error_term_val a n (s : state) : n <> 0%nat ->
  exists e s', interval_trig.error_term a n s = Some (inl e, s') /\ val e = Rabs (val a) ^ n / INR (Factorial.fact n).
Proof.
  intros Hn. unfold interval_trig.error_term, interval_root.bind, interval_root.update, interval_root.read, interval_root.ret.
  do 2 eexists. split; [done|]. rewrite term_val by done. do 2 f_equal. destruct (m_is_neg a) eqn:E.
  - apply (val_is_neg (val := val)) in E. rewrite val_neg, Rabs_left; [done | done].
  - apply not_true_iff_false in E. rewrite (val_is_neg (val := val)) in E. rewrite Rabs_pos_eq; [done | lra].
Qed.

(** The numbers enclose [r], and are as close as the error says or are -1 and 1. *)
Definition trig_result (r err : R) (lo hi : num) : Prop :=
  val lo <= r <= val hi /\ (val hi - val lo <= 2 * err \/ (val lo = -1 /\ val hi = 1)).

Lemma with_error_val series e r S (s : state) : -1 <= r <= 1 -> Rabs (r - S) <= val e ->
  (forall s, exists o s', series false s = Some (inl o, s') /\ val o = S) ->
  exists lo hi s', interval_trig.with_error series e s = Some (inl (lo, hi), s') /\ trig_result r (val e) lo hi.
Proof.
  intros Hr He Hs. pose proof (Rle_abs (r - S)) as A1. pose proof (Rle_abs (- (r - S))) as A2. rewrite Rabs_Ropp in A2.
  unfold interval_trig.with_error, interval_root.bind, interval_root.read, interval_root.ret. rewrite precise.
  destruct (Hs s) as (o & s' & -> & Eo). destruct (m_lt _ _).
  - do 3 eexists. split; [done|]. unfold trig_result. exact_ops. lra.
  - do 3 eexists. split; [done|]. unfold trig_result. exact_ops. lra.
Qed.

(** The degree of the error: one more than the one of the series, which has the parity of the function. *)
Definition sine_degree (k : nat) : nat := if (k mod 2 =? 0)%nat then (k + 2)%nat else (k + 1)%nat.
Definition cosine_degree (k : nat) : nat := if (k mod 2 =? 1)%nat then (k + 2)%nat else (k + 1)%nat.
Definition trig_error (a : num) (n : nat) : R := Rabs (val a) ^ n / INR (Factorial.fact n).

Lemma trig_error_nonneg a n : 0 <= trig_error a n.
Proof.
  pose proof (fact_pos n). unfold trig_error. apply Rmult_le_pos; [apply pow_le, Rabs_pos|]. by apply Rlt_le, Rinv_0_lt_compat.
Qed.

Lemma sine_series_val a m (s : state) : exists o s', interval_trig.sine_series a (2 * m + 1) false s = Some (inl o, s') /\
  val o = taylor (2 * m + 2) 0 (val a).
Proof.
  unfold interval_trig.sine_series. replace ((2 * m + 1 - 1) / 2)%nat with m by (rewrite Nat.add_sub, Nat.mul_comm, Nat.div_mul; lia).
  destruct (series_loop_val m 3 a false true (negb false) a s ltac:(lia)) as (o & s' & E & Ho). exists o, s'. split; [exact E|].
  assert (E3 : trig (0 + 3) 0 = -1) by (cbn; rewrite trig_SS, trig_1, cos_0; lra).
  assert (E4 : trig (0 + 4) 0 = 0) by (apply (trig_even 2)).
  pose proof (taylor_alternating m 0 3 true (val a) E3 E4) as T.
  replace (3 + 2 * m)%nat with (S (2 * m + 2)) in T by lia. change (taylor (S (2 * m + 2)) 0 (val a)) with
    (taylor (2 * m + 2) 0 (val a) + trig (2 * m + 2) 0 * (val a ^ (2 * m + 2) / INR (Factorial.fact (2 * m + 2)))) in T.
  replace (2 * m + 2)%nat with (2 * (m + 1))%nat in * by lia. rewrite trig_even, taylor_3 in T. lra.
Qed.
Lemma cosine_series_val a m (s : state) : exists o s', interval_trig.cosine_series a (2 * m) false s = Some (inl o, s') /\
  val o = taylor (2 * m + 1) 1 (val a).
Proof.
  unfold interval_trig.cosine_series, interval_root.bind, interval_root.read.
  replace (2 * m / 2)%nat with m by (rewrite Nat.mul_comm, Nat.div_mul; lia).
  destruct (series_loop_val m 2 a false true (negb false) (m_of_int (im_up s) 1) s ltac:(lia)) as (o & s' & E & Ho).
  exists o, s'. split; [exact E|].
  assert (E3 : trig (1 + 2) 0 = -1) by (cbn; rewrite trig_SS, trig_1, cos_0; lra).
  assert (E4 : trig (1 + 3) 0 = 0) by (apply (trig_even 2)).
  pose proof (taylor_alternating m 1 2 true (val a) E3 E4) as T. revert Ho. exact_ops. intros Ho.
  replace (2 + 2 * m)%nat with (S (2 * m + 1)) in T by lia. change (taylor (S (2 * m + 1)) 1 (val a)) with
    (taylor (2 * m + 1) 1 (val a) + trig (1 + (2 * m + 1)) 0 * (val a ^ (2 * m + 1) / INR (Factorial.fact (2 * m + 1)))) in T.
  replace (1 + (2 * m + 1))%nat with (2 * (m + 1))%nat in T by lia. rewrite trig_even, taylor_2 in T. lra.
Qed.

Lemma trig_run_val (series : bool -> interval_root.M num) a i n (s : state) : n <> 0%nat ->
  (forall s, exists o s', series false s = Some (inl o, s') /\ val o = taylor n i (val a)) ->
  exists lo hi s', interval_root.bind (interval_trig.error_term a n) (fun e => interval_trig.with_error series e) s =
    Some (inl (lo, hi), s') /\ trig_result (trig i (val a)) (trig_error a n) lo hi.
Proof.
  intros Hn Hs. destruct (error_term_val a n s Hn) as (e & s1 & E & Ee). unfold interval_root.bind. rewrite E.
  unfold trig_error. rewrite <- Ee. apply (with_error_val series e _ (taylor n i (val a))).
  - apply SIN_bound.
  - rewrite Ee. apply taylor_bound.
  - exact Hs.
Qed.

Lemma sine_val a k (s : state) : exists lo hi s', interval_trig.sine a k s = Some (inl (lo, hi), s') /\
  trig_result (sin (val a)) (trig_error a (sine_degree k)) lo hi.
Proof.
  unfold interval_trig.sine, sine_degree. destruct (m_is_zero a) eqn:Z.
  { apply (val_is_zero (val := val)) in Z. do 3 eexists. split; [done|]. pose proof (trig_error_nonneg a (if (k mod 2 =? 0)%nat then (k + 2)%nat else (k + 1)%nat)).
    unfold trig_result. rewrite Z, sin_0, val_zero. lra. }
  rewrite <- trig_0. pose proof (Nat.div_mod_eq k 2) as Ek. pose proof (Nat.mod_upper_bound k 2 ltac:(lia)).
  destruct (Nat.eqb_spec (k mod 2) 0) as [E|E].
  - replace (k + 2)%nat with (k + 1 + 1)%nat by lia. apply trig_run_val; [lia|]. intros s'.
    replace (k + 1)%nat with (2 * (k / 2) + 1)%nat by lia. replace (2 * (k / 2) + 1 + 1)%nat with (2 * (k / 2) + 2)%nat by lia.
    apply sine_series_val.
  - assert (Hk : exists m, k = (2 * m + 1)%nat) by (exists (k / 2)%nat; lia). destruct Hk as [m ->].
    apply trig_run_val; [lia|]. intros s'. replace (2 * m + 1 + 1)%nat with (2 * m + 2)%nat by lia. apply sine_series_val.
Qed.
Lemma cosine_val a k (s : state) : exists lo hi s', interval_trig.cosine a k s = Some (inl (lo, hi), s') /\
  trig_result (cos (val a)) (trig_error a (cosine_degree k)) lo hi.
Proof.
  unfold interval_trig.cosine, cosine_degree. destruct (m_is_zero a) eqn:Z.
  { apply (val_is_zero (val := val)) in Z. do 3 eexists. split; [done|]. pose proof (trig_error_nonneg a (if (k mod 2 =? 1)%nat then (k + 2)%nat else (k + 1)%nat)).
    unfold trig_result. exact_ops. rewrite Z, cos_0. lra. }
  rewrite <- trig_1. pose proof (Nat.div_mod_eq k 2) as Ek. pose proof (Nat.mod_upper_bound k 2 ltac:(lia)).
  destruct (Nat.eqb_spec (k mod 2) 1) as [E|E].
  - replace (k + 2)%nat with (k + 1 + 1)%nat by lia. apply trig_run_val; [lia|]. intros s'.
    replace (k + 1)%nat with (2 * (k / 2 + 1))%nat by lia. apply cosine_series_val.
  - assert (Hk : exists m, k = (2 * m)%nat) by (exists (k / 2)%nat; lia). destruct Hk as [m ->].
    apply trig_run_val; [lia|]. intros s'. apply cosine_series_val.
Qed.
End Proofs.
