(* ===== verification/Dependency.v ===== *)
(** * Dependency: justification graphs ([util/dependency.h])

    [scoped_dependency_manager]: shared binary joins of leaves, allocated in a region with scopes.  A node is
    addressed by its index in the region and the null pointer is [None].  [contains] and [linearize] walk the
    graph with a queue and one mark bit per node.  An access outside the region is [None]. *)
From S2P Require Import Prelude.
From Stdlib Require Import ZArith Lia.
From stdpp Require Import base tactics option list numbers sets propset.
Close Scope word_scope.
Open Scope nat_scope.

Inductive dep_kind : Type :=
  | DLeaf (v : Z)
  | DJoin (d1 d2 : nat).
Record dep_node := DepNode { m_ref_count : Z; m_mark : bool; m_kind : dep_kind }.
(** [r_scopes] has the sizes of the region at each [push_scope]. *)
Record dep_state := DepState { r_nodes : list dep_node; r_scopes : list nat; m_todo : list nat }.
Definition dependency := option nat.

Module dep_manager.

Definition set_nodes (ns : list dep_node) (s : dep_state) : dep_state := DepState ns (r_scopes s) (m_todo s).
Definition set_todo (t : list nat) (s : dep_state) : dep_state := DepState (r_nodes s) (r_scopes s) t.
Definition get (s : dep_state) (d : nat) : option dep_node := rd (r_nodes s) d.
Definition put (d : nat) (n : dep_node) (s : dep_state) : option dep_state :=
  ns ← wr (r_nodes s) d n; Some (set_nodes ns s).

(** A 30 bit counter. *)
Definition inc_ref (d : dependency) (s : dep_state) : option dep_state :=
  match d with
  | None => Some s
  | Some d =>
      n ← get s d;
      put d (DepNode ((m_ref_count n + 1) mod 1073741824) (m_mark n) (m_kind n)) s
  end.
Definition set_mark (b : bool) (d : nat) (s : dep_state) : option dep_state :=
  n ← get s d; put d (DepNode (m_ref_count n) b (m_kind n)) s.
Definition mark := set_mark true.
Definition unmark := set_mark false.

Definition allocate (k : dep_kind) (s : dep_state) : nat * dep_state :=
  (length (r_nodes s), set_nodes (r_nodes s ++ [DepNode 0 false k]) s).

Definition mk_empty : dependency := None.
Definition mk_leaf (v : Z) (s : dep_state) : dependency * dep_state :=
  let '(d, s) := allocate (DLeaf v) s in (Some d, s).
Definition mk_join (d1 d2 : dependency) (s : dep_state) : option (dependency * dep_state) :=
  match d1, d2 with
  | None, _ => Some (d2, s)
  | _, None => Some (d1, s)
  | Some n1, Some n2 =>
      if n1 =? n2 then Some (d1, s)
      else
        s ← inc_ref d1 s;
        s ← inc_ref d2 s;
        let '(d, s) := allocate (DJoin n1 n2) s in
        Some (Some d, s)
  end.

(** [m_todo.push_back(child); child->mark()], unless the child is marked. *)
Definition visit (child : nat) (s : dep_state) : option dep_state :=
  n ← get s child;
  if m_mark n then Some s else mark child (set_todo (m_todo s ++ [child]) s).

Fixpoint unmark_list (l : list nat) (s : dep_state) : option dep_state :=
  match l with
  | [] => Some s
  | d :: l => s ← unmark d s; unmark_list l s
  end.
Definition unmark_todo (s : dep_state) : option dep_state :=
  s ← unmark_list (m_todo s) s; Some (set_todo [] s).

Fixpoint contains_loop (fuel : nat) (v : Z) (qhead : nat) (s : dep_state) : option (bool * dep_state) :=
  match fuel with
  | O => None
  | S fuel =>
      if length (m_todo s) <=? qhead then s ← unmark_todo s; Some (false, s)
      else
        d ← rd (m_todo s) qhead;
        n ← get s d;
        match m_kind n with
        | DLeaf w =>
            if (w =? v)%Z then s ← unmark_todo s; Some (true, s)
            else contains_loop fuel v (S qhead) s
        | DJoin d1 d2 => s ← visit d1 s; s ← visit d2 s; contains_loop fuel v (S qhead) s
        end
  end.
Definition contains (d : dependency) (v : Z) (s : dep_state) : option (bool * dep_state) :=
  match d with
  | None => Some (false, s)
  | Some d =>
      let s := set_todo [] s in
      s ← mark d s;
      contains_loop (S (S (length (r_nodes s)))) v 0 (set_todo [d] s)
  end.

Fixpoint linearize_loop (fuel : nat) (qhead : nat) (vs : list Z) (s : dep_state) : option (list Z * dep_state) :=
  match fuel with
  | O => None
  | S fuel =>
      if length (m_todo s) <=? qhead then s ← unmark_todo s; Some (vs, s)
      else
        d ← rd (m_todo s) qhead;
        n ← get s d;
        match m_kind n with
        | DLeaf w => linearize_loop fuel (S qhead) (vs ++ [w]) s
        | DJoin d1 d2 => s ← visit d1 s; s ← visit d2 s; linearize_loop fuel (S qhead) vs s
        end
  end.
(** The values are appended to [vs]. *)
Definition linearize (d : dependency) (vs : list Z) (s : dep_state) : option (list Z * dep_state) :=
  match d with
  | None => Some (vs, s)
  | Some d =>
      let s := set_todo [] s in
      s ← mark d s;
      linearize_loop (S (S (length (r_nodes s)))) 0 vs (set_todo [d] s)
  end.

Definition reset (s : dep_state) : dep_state := DepState [] [] (m_todo s).
Definition push_scope (s : dep_state) : dep_state :=
  DepState (r_nodes s) (length (r_nodes s) :: r_scopes s) (m_todo s).
Fixpoint pop_scope (num_scopes : nat) (s : dep_state) : option dep_state :=
  match num_scopes, r_scopes s with
  | O, _ => Some s
  | S k, sz :: scopes => pop_scope k (DepState (take sz (r_nodes s)) scopes (m_todo s))
  | S _, [] => None
  end.

End dep_manager.
