(* ===== verification/DependencyProofs.v ===== *)
(** * DependencyProofs: what a justification denotes, and the walks over its graph

    [leaves s d v]: the leaf [v] is reachable from [d].  Between operations no node is marked and children
    are older than their joins ([wf]).  During a walk the marked nodes are those of the queue, which are
    reachable, and the children of the nodes already taken from it are in the queue. *)
From S2P Require Import Prelude.
From S2P Require Import Dependency.
From Stdlib Require Import ZArith Lia.
From stdpp Require Import base tactics option list numbers.
Close Scope word_scope.
Open Scope nat_scope.
Import dep_manager.

Implicit Types (s : dep_state) (ns : list dep_node) (d e : nat).

Definition kind_at ns (d : nat) : option dep_kind := m_kind <$> ns !! d.

(** [child ns d e]: [d] is a join and [e] one of its two parts. *)
Definition child ns (d e : nat) : Prop :=
  exists d1 d2, kind_at ns d = Some (DJoin d1 d2) /\ (e = d1 \/ e = d2).
Inductive reach ns : nat -> nat -> Prop :=
  | reach_refl d : d < length ns -> reach ns d d
  | reach_child d d' e : child ns d d' -> reach ns d' e -> reach ns d e.

Definition leaves_at ns (d : nat) (v : Z) : Prop := exists e, reach ns d e /\ kind_at ns e = Some (DLeaf v).
Definition leaves s (d : dependency) (v : Z) : Prop :=
  match d with None => False | Some d => leaves_at (r_nodes s) d v end.

Definition wf s : Prop :=
  (forall d n, r_nodes s !! d = Some n -> m_mark n = false) /\
  (forall d e, child (r_nodes s) d e -> e < d).
Definition valid s (d : dependency) : Prop :=
  match d with None => True | Some d => d < length (r_nodes s) end.

Lemma reach_trans ns a b c : reach ns a b -> reach ns b c -> reach ns a c.
Proof. induction 1; intros; [done | eapply reach_child; eauto]. Qed.

(** *** Marks *)

Definition marked (f : nat -> bool) ns : list dep_node :=
  imap (fun i n => DepNode (m_ref_count n) (f i) (m_kind n)) ns.

Lemma marked_lookup f ns i :
  marked f ns !! i = (fun n => DepNode (m_ref_count n) (f i) (m_kind n)) <$> ns !! i.
Proof. apply list_lookup_imap. Qed.
Lemma marked_length f ns : length (marked f ns) = length ns.
Proof. apply length_imap. Qed.
Lemma marked_kind f ns d : kind_at (marked f ns) d = kind_at ns d.
Proof. unfold kind_at. rewrite marked_lookup. by destruct (ns !! d). Qed.
Lemma marked_ext f g ns : (forall i, i < length ns -> f i = g i) -> marked f ns = marked g ns.
Proof.
  intros E. apply list_eq. intros i. rewrite !marked_lookup.
  destruct (ns !! i) eqn:Ei; simpl; [|done]. apply lookup_lt_Some in Ei. by rewrite E.
Qed.
Lemma marked_none ns : (forall d n, ns !! d = Some n -> m_mark n = false) -> marked (fun _ => false) ns = ns.
Proof.
  intros H. apply list_eq. intros i. rewrite marked_lookup. destruct (ns !! i) as [n|] eqn:Ei; simpl; [|done].
  specialize (H i n Ei). destruct n; simpl in *. by subst.
Qed.

Lemma set_mark_marked b d f ns sc t : d < length ns ->
  set_mark b d (DepState (marked f ns) sc t) =
    Some (DepState (marked (fun i => if i =? d then b else f i) ns) sc t).
Proof.
  intros Hd. destruct (lookup_lt_is_Some_2 ns d Hd) as [n En].
  unfold set_mark, get, put, rd; simpl. rewrite marked_lookup, En. simpl.
  rewrite wr_ok by (by rewrite marked_length). simpl. unfold set_nodes; simpl. do 2 f_equal.
  apply list_eq. intros i. rewrite marked_lookup. destruct (Nat.eqb_spec i d) as [->|Hne].
  - rewrite list_lookup_insert_eq by (by rewrite marked_length). by rewrite En.
  - rewrite list_lookup_insert_ne by done. by rewrite marked_lookup.
Qed.

Lemma unmark_list_marked l f ns sc t : Forall (fun d => d < length ns) l ->
  unmark_list l (DepState (marked f ns) sc t) =
    Some (DepState (marked (fun i => f i && negb (bool_decide (i ∈ l))) ns) sc t).
Proof.
  revert f. induction l as [|d l IH]; intros f Hl; simpl.
  - do 2 f_equal. apply marked_ext. intros i _. by rewrite andb_true_r.
  - apply list.Forall_cons in Hl as [Hd Hl]. unfold unmark. rewrite set_mark_marked by done. simpl.
    rewrite IH by done. do 2 f_equal. apply marked_ext. intros i _.
    destruct (Nat.eqb_spec i d) as [->|Hne].
    + rewrite (bool_decide_eq_true_2 (d ∈ d :: l)) by (by left). by rewrite andb_false_r.
    + f_equal. f_equal. apply bool_decide_ext. rewrite elem_of_cons. tauto.
Qed.

Definition in_list (l : list nat) (i : nat) : bool := bool_decide (i ∈ l).

Lemma visit_marked c todo ns sc : c < length ns -> NoDup todo ->
  exists todo', visit c (DepState (marked (in_list todo) ns) sc todo) =
    Some (DepState (marked (in_list todo') ns) sc todo') /\
    NoDup todo' /\ (todo' = todo \/ todo' = todo ++ [c]) /\ c ∈ todo'.
Proof.
  intros Hc Hnd. destruct (lookup_lt_is_Some_2 ns c Hc) as [n En].
  unfold visit, get, rd. simpl. rewrite marked_lookup, En. simpl. unfold in_list at 1.
  case_bool_decide as Hin; [exists todo; auto|].
  exists (todo ++ [c]). unfold mark, set_todo. simpl. rewrite set_mark_marked by done.
  split_and!; [|apply list.NoDup_app; split_and!; [done | | apply NoDup_singleton] | by right |].
  - do 2 f_equal. apply marked_ext. intros i _. unfold in_list.
    destruct (Nat.eqb_spec i c) as [->|Hne]; symmetry.
    + apply bool_decide_eq_true_2. rewrite elem_of_app. right. by apply list_elem_of_singleton.
    + apply bool_decide_ext. rewrite elem_of_app, list_elem_of_singleton. tauto.
  - intros x Hx ->%list_elem_of_singleton. done.
  - rewrite elem_of_app. right. by apply list_elem_of_singleton.
Qed.

(** *** The walk *)

(** The queue holds nodes reachable from the root, and the children of the first [q] nodes. *)
Record walking ns (root q : nat) (todo : list nat) : Prop := Walking {
  walk_nodup : NoDup todo;
  walk_reach : forall i, i ∈ todo -> reach ns root i;
  walk_root : root ∈ todo;
  walk_closed : forall i d e, i < q -> todo !! i = Some d -> child ns d e -> e ∈ todo;
  walk_q : q <= length todo }.

Lemma reach_lt ns a b : (forall d e, child ns d e -> e < d) -> reach ns a b -> b < length ns.
Proof. intros Hwf. by induction 1. Qed.
Lemma child_lt ns d e : (forall d e, child ns d e -> e < d) -> child ns d e -> d < length ns /\ e < length ns.
Proof.
  intros Hwf Hc. specialize (Hwf d e Hc). destruct Hc as (d1 & d2 & E & _). unfold kind_at in E.
  destruct (ns !! d) eqn:En; [|done]. apply lookup_lt_Some in En. lia.
Qed.

Lemma walking_bound ns root q todo : (forall d e, child ns d e -> e < d) ->
  walking ns root q todo -> length todo <= length ns.
Proof.
  intros Hwf W. rewrite <- (length_seq (length ns) 0). apply submseteq_length, NoDup_submseteq.
  - apply W.
  - intros x Hx. apply elem_of_seq. split; [lia|]. simpl. eapply reach_lt; [done | by apply (walk_reach _ _ _ _ W)].
Qed.

Lemma walking_start ns root : root < length ns -> walking ns root 0 [root].
Proof.
  intros Hr. split; [apply NoDup_singleton | | by apply list_elem_of_singleton | lia | simpl; lia].
  intros i ->%list_elem_of_singleton. by apply reach_refl.
Qed.

(** When the queue is exhausted it holds every reachable node. *)
Lemma walking_done ns root todo : walking ns root (length todo) todo ->
  forall e, e ∈ todo <-> reach ns root e.
Proof.
  intros W e. split; [apply W|]. intros Hr. pose proof (walk_root _ _ _ _ W) as H0.
  pose proof (walk_closed _ _ _ _ W) as C. clear W.
  induction Hr as [|d d' e Hc _ IH]; [done|]. apply IH.
  apply list_elem_of_lookup in H0 as [i Hi]. eapply C; [|exact Hi | done]. by apply lookup_lt_Some in Hi.
Qed.

Lemma walking_leaf ns root q todo d v : walking ns root q todo -> todo !! q = Some d ->
  kind_at ns d = Some (DLeaf v) -> walking ns root (S q) todo.
Proof.
  intros W Hd Hk. apply lookup_lt_Some in Hd as Hq. split; try apply W; [|lia].
  intros i x e Hi Hx Hc. destruct (decide (i = q)) as [->|Hne]; [|eapply (walk_closed _ _ _ _ W); eauto; lia].
  rewrite Hd in Hx. injection Hx as <-. destruct Hc as (? & ? & E & _). congruence.
Qed.

(** [todo'] is [todo] with some of the nodes [cs] appended. *)
Lemma walking_join ns root q todo todo' d d1 d2 :
  (forall d e, child ns d e -> e < d) -> walking ns root q todo -> todo !! q = Some d ->
  kind_at ns d = Some (DJoin d1 d2) -> NoDup todo' ->
  (exists l, todo' = todo ++ l /\ forall x, x ∈ l -> x = d1 \/ x = d2) -> d1 ∈ todo' -> d2 ∈ todo' ->
  walking ns root (S q) todo'.
Proof.
  intros Hwf W Hd Hk Hnd (l & -> & Hl) H1 H2. apply lookup_lt_Some in Hd as Hq.
  assert (Hch : forall x, x = d1 \/ x = d2 -> child ns d x) by (intros x Hx; by exists d1, d2).
  split; [done | | | | rewrite length_app; lia].
  - intros i [Hi|Hi]%elem_of_app; [by apply (walk_reach _ _ _ _ W)|].
    eapply reach_trans; [apply (walk_reach _ _ _ _ W), (list_elem_of_lookup_2 _ _ _ Hd)|].
    eapply reach_child; [apply Hch, Hl, Hi|]. apply reach_refl. apply (child_lt ns d i Hwf), Hch, Hl, Hi.
  - apply elem_of_app. left. apply W.
  - intros i x e Hi Hx Hc. rewrite lookup_app_l in Hx by lia.
    destruct (decide (i = q)) as [->|Hne].
    + rewrite Hd in Hx. injection Hx as <-. destruct Hc as (a & b & E & He). rewrite Hk in E.
      injection E as -> ->. by destruct He as [->| ->].
    + apply elem_of_app. left. eapply (walk_closed _ _ _ _ W); eauto. lia.
Qed.

(** One round on a join: both children are in the queue afterwards. *)
Lemma visit_both ns root q todo sc d d1 d2 :
  (forall d e, child ns d e -> e < d) -> walking ns root q todo -> todo !! q = Some d ->
  kind_at ns d = Some (DJoin d1 d2) ->
  exists todo', (s ← visit d1 (DepState (marked (in_list todo) ns) sc todo); visit d2 s) =
    Some (DepState (marked (in_list todo') ns) sc todo') /\ walking ns root (S q) todo' /\
    exists l, todo' = todo ++ l.
Proof.
  intros Hwf W Hd Hk.
  assert (L1 : d1 < length ns) by (apply (child_lt ns d d1 Hwf); exists d1, d2; auto).
  assert (L2 : d2 < length ns) by (apply (child_lt ns d d2 Hwf); exists d1, d2; auto).
  destruct (visit_marked d1 todo ns sc L1 (walk_nodup _ _ _ _ W)) as (t1 & E1 & N1 & C1 & I1).
  destruct (visit_marked d2 t1 ns sc L2 N1) as (t2 & E2 & N2 & C2 & I2).
  exists t2. rewrite E1. simpl. split; [done|].
  assert (Hl : exists l, t2 = todo ++ l /\ forall x, x ∈ l -> x = d1 \/ x = d2).
  { destruct C1 as [->| ->], C2 as [->| ->].
    - exists []. rewrite app_nil_r. split; [done|]. intros x []%not_elem_of_nil.
    - exists [d2]. split; [done|]. intros x ->%list_elem_of_singleton. by right.
    - exists [d1]. split; [done|]. intros x ->%list_elem_of_singleton. by left.
    - exists [d1; d2]. split; [by rewrite <- app_assoc|].
      intros x [->|[->|[]%not_elem_of_nil]%elem_of_cons]%elem_of_cons; auto. }
  split; [|destruct Hl as (l & ? & _); by exists l].
  apply (walking_join ns root q todo t2 d d1 d2); try done.
  destruct C2 as [->| ->]; [done|]. apply elem_of_app. by left.
Qed.

Lemma unmark_todo_marked ns sc todo : (forall d n, ns !! d = Some n -> m_mark n = false) ->
  Forall (fun d => d < length ns) todo ->
  unmark_todo (DepState (marked (in_list todo) ns) sc todo) = Some (DepState ns sc []).
Proof.
  intros Hm Hl. unfold unmark_todo. simpl. rewrite unmark_list_marked by done. simpl. unfold set_todo. simpl.
  do 2 f_equal. rewrite <- (marked_none ns Hm) at 2. apply marked_ext. intros i _.
  unfold in_list. by destruct (bool_decide (i ∈ todo)).
Qed.

Definition leaf_value ns (d : nat) : option Z :=
  match kind_at ns d with Some (DLeaf v) => Some v | _ => None end.

Lemma leaves_at_values ns root (todo : list nat) (v : Z) : (forall e, e ∈ todo <-> reach ns root e) ->
  v ∈ omap (leaf_value ns) todo <-> leaves_at ns root v.
Proof.
  intros H. rewrite list_elem_of_omap. unfold leaves_at, leaf_value. split.
  - intros (e & He & Hv). exists e. apply H in He. split; [done|].
    destruct (kind_at ns e) as [[]|]; congruence.
  - intros (e & He & Hv). exists e. apply H in He. by rewrite Hv.
Qed.

Lemma walking_all_lt ns root q todo : (forall d e, child ns d e -> e < d) ->
  walking ns root q todo -> Forall (fun d => d < length ns) todo.
Proof. intros Hwf W. apply list.Forall_forall. intros x Hx. eapply reach_lt; [done | by apply W]. Qed.

Lemma node_at ns sc todo d k : kind_at ns d = Some k ->
  exists n, get (DepState (marked (in_list todo) ns) sc todo) d = Some n /\ m_kind n = k.
Proof.
  unfold kind_at, get, rd. simpl. rewrite marked_lookup. destruct (ns !! d); [|done].
  simpl. intros E. eexists. split; [done|]. simpl. congruence.
Qed.

Lemma kind_at_lt ns d : d < length ns -> exists k, kind_at ns d = Some k.
Proof. intros Hd. unfold kind_at. destruct (lookup_lt_is_Some_2 ns d Hd) as [n ->]. by eexists. Qed.

Lemma linearize_loop_spec fuel q vs ns sc root todo :
  wf (DepState ns sc todo) -> walking ns root q todo -> length ns < fuel + q ->
  exists l todo', linearize_loop fuel q vs (DepState (marked (in_list todo) ns) sc todo) =
    Some (vs ++ l, DepState ns sc []) /\ (forall e, e ∈ todo' <-> reach ns root e) /\
    omap (leaf_value ns) (take q todo) ++ l = omap (leaf_value ns) todo'.
Proof.
  intros [Hm Hwf] W Hf. simpl in *. revert q vs todo W Hf. induction fuel as [|fuel IH]; intros q vs todo W Hf.
  { pose proof (walking_bound _ _ _ _ Hwf W). pose proof (walk_q _ _ _ _ W). lia. }
  cbn [linearize_loop m_todo r_nodes]. destruct (Nat.leb_spec (length todo) q) as [Hq|Hq].
  - rewrite unmark_todo_marked by (done || by eapply walking_all_lt). simpl.
    pose proof (walk_q _ _ _ _ W). assert (q = length todo) as -> by lia.
    exists [], todo. rewrite !app_nil_r, take_ge by lia. split_and!; [done | by apply walking_done | done].
  - destruct (lookup_lt_is_Some_2 todo q Hq) as [d Hd]. unfold rd at 1. rewrite Hd. simpl.
    assert (Hdl : d < length ns).
    { eapply reach_lt; [done|]. eapply (walk_reach _ _ _ _ W), list_elem_of_lookup_2, Hd. }
    destruct (kind_at_lt ns d Hdl) as [k Hk]. destruct (node_at ns sc todo d k Hk) as (n & En & Ekn).
    rewrite En. simpl. rewrite Ekn. destruct k as [w|d1 d2].
    + destruct (IH (S q) (vs ++ [w]) todo) as (l & t & E & Hr & Ho); [by eapply walking_leaf | lia |].
      exists (w :: l), t. rewrite E, <- app_assoc. split_and!; [done | done |]. rewrite <- Ho.
      rewrite (take_S_r _ _ _ Hd), omap_app. simpl. unfold leaf_value at 3. rewrite Hk.
      by rewrite <- app_assoc.
    + destruct (visit_both ns root q todo sc d d1 d2 Hwf W Hd Hk) as (todo1 & E1 & W1 & l1 & El1).
      destruct (visit d1 _) as [s1|]; [|done]. simpl in E1 |- *. rewrite E1. simpl.
      destruct (IH (S q) vs todo1 W1) as (l & t & E & Hr & Ho); [lia|].
      exists l, t. rewrite E. split_and!; [done | done |]. rewrite <- Ho. f_equal.
      rewrite El1, take_app_le by lia. rewrite (take_S_r _ _ _ Hd), omap_app. simpl.
      unfold leaf_value at 3. by rewrite Hk, app_nil_r.
Qed.

Lemma contains_loop_spec fuel q v ns sc root todo :
  wf (DepState ns sc todo) -> walking ns root q todo -> length ns < fuel + q ->
  v ∉ omap (leaf_value ns) (take q todo) ->
  exists b, contains_loop fuel v q (DepState (marked (in_list todo) ns) sc todo) =
    Some (b, DepState ns sc []) /\ (b = true <-> leaves_at ns root v).
Proof.
  intros [Hm Hwf] W Hf Hv. simpl in *. revert q todo W Hf Hv. induction fuel as [|fuel IH]; intros q todo W Hf Hv.
  { pose proof (walking_bound _ _ _ _ Hwf W). pose proof (walk_q _ _ _ _ W). lia. }
  cbn [contains_loop m_todo r_nodes]. destruct (Nat.leb_spec (length todo) q) as [Hq|Hq].
  - rewrite unmark_todo_marked by (done || by eapply walking_all_lt). simpl.
    pose proof (walk_q _ _ _ _ W). assert (q = length todo) as -> by lia. exists false. split; [done|].
    rewrite take_ge in Hv by lia. split; [done|]. intros Hl. destruct Hv.
    apply (leaves_at_values ns root todo v); [by apply walking_done | done].
  - destruct (lookup_lt_is_Some_2 todo q Hq) as [d Hd]. unfold rd at 1. rewrite Hd. simpl.
    assert (Hrd : reach ns root d) by (eapply (walk_reach _ _ _ _ W), list_elem_of_lookup_2, Hd).
    destruct (kind_at_lt ns d (reach_lt _ _ _ Hwf Hrd)) as [k Hk].
    destruct (node_at ns sc todo d k Hk) as (n & En & Ekn).
    rewrite En. simpl. rewrite Ekn. destruct k as [w|d1 d2].
    + destruct (Z.eqb_spec w v) as [->|Hne].
      * rewrite unmark_todo_marked by (done || by eapply walking_all_lt). exists true. split; [done|].
        split; [|done]. intros _. by exists d.
      * apply IH; [by eapply walking_leaf | lia |].
        rewrite (take_S_r _ _ _ Hd), omap_app. simpl. unfold leaf_value at 2. rewrite Hk.
        intros [?|<-%list_elem_of_singleton]%elem_of_app; done.
    + destruct (visit_both ns root q todo sc d d1 d2 Hwf W Hd Hk) as (todo1 & E1 & W1 & l1 & El1).
      destruct (visit d1 _) as [s1|]; [|done]. simpl in E1 |- *. rewrite E1. simpl.
      apply IH; [done | lia |]. rewrite El1, take_app_le by lia.
      rewrite (take_S_r _ _ _ Hd), omap_app. simpl. unfold leaf_value at 2. by rewrite Hk, app_nil_r.
Qed.

Lemma start_walk ns sc root : root < length ns -> (forall d n, ns !! d = Some n -> m_mark n = false) ->
  mark root (DepState ns sc []) = Some (DepState (marked (in_list [root]) ns) sc []).
Proof.
  intros Hr Hm. rewrite <- (marked_none ns Hm) at 1. unfold mark. rewrite set_mark_marked by done.
  do 2 f_equal. apply marked_ext. intros i _. unfold in_list. destruct (Nat.eqb_spec i root) as [->|Hne]; symmetry.
  - apply bool_decide_eq_true_2. by left.
  - apply bool_decide_eq_false_2. by intros ->%list_elem_of_singleton.
Qed.

Lemma linearize_spec s (d : dependency) vs : wf s -> valid s d ->
  exists l, linearize d vs s = Some (vs ++ l, match d with None => s | Some _ => set_todo [] s end) /\
    forall v, v ∈ l <-> leaves s d v.
Proof.
  intros Hwf Hd. destruct s as [ns sc t], d as [d|]; simpl in *.
  2: { exists []. rewrite app_nil_r. split; [done|]. intros v. split; [intros []%not_elem_of_nil | done]. }
  pose proof Hwf as [Hm Hc]. simpl in *. unfold set_todo. simpl. rewrite start_walk by done. simpl.
  unfold set_todo. simpl.
  destruct (linearize_loop_spec (S (S (length (marked (in_list [d]) ns)))) 0 vs ns sc d [d]) as (l & T & E & Hr & Ho).
  - by split.
  - by apply walking_start.
  - rewrite marked_length. lia.
  - exists l. rewrite marked_length in E |- *. simpl in E. rewrite E. split; [done|]. intros v. simpl in Ho.
    rewrite Ho. by apply leaves_at_values.
Qed.

Lemma contains_spec s (d : dependency) v : wf s -> valid s d ->
  exists b, contains d v s = Some (b, match d with None => s | Some _ => set_todo [] s end) /\
    (b = true <-> leaves s d v).
Proof.
  intros Hwf Hd. destruct s as [ns sc t], d as [d|]; simpl in *; [|by exists false].
  pose proof Hwf as [Hm Hc]. simpl in *. unfold set_todo. simpl. rewrite start_walk by done. simpl.
  unfold set_todo. simpl.
  destruct (contains_loop_spec (S (S (length (marked (in_list [d]) ns)))) 0 v ns sc d [d]) as (b & E & Hb).
  - by split.
  - by apply walking_start.
  - rewrite marked_length. lia.
  - intros []%not_elem_of_nil.
  - exists b. rewrite marked_length in E |- *. simpl in E. by rewrite E.
Qed.

(** *** Allocation *)

(** [s'] has the nodes of [s] with other counts, and newer ones. *)
Definition extends s s' : Prop :=
  forall d, d < length (r_nodes s) -> kind_at (r_nodes s') d = kind_at (r_nodes s) d.

Lemma extends_length s s' : extends s s' -> length (r_nodes s) <= length (r_nodes s').
Proof.
  intros H. destruct (decide (length (r_nodes s) <= length (r_nodes s'))) as [|Hn]; [done|].
  assert (Hd : length (r_nodes s') < length (r_nodes s)) by lia. destruct (kind_at_lt _ _ Hd) as [k Hk].
  rewrite <- (H _ Hd) in Hk. unfold kind_at in Hk. by rewrite lookup_ge_None_2 in Hk.
Qed.
#[export] Instance extends_preorder : PreOrder extends.
Proof.
  split; [by intros s d|]. intros s1 s2 s3 H12 H23 d Hd. pose proof (extends_length _ _ H12).
  rewrite H23 by lia. by apply H12.
Qed.

Lemma extends_reach s s' d e : wf s -> extends s s' -> d < length (r_nodes s) ->
  reach (r_nodes s') d e <-> reach (r_nodes s) d e.
Proof.
  intros [_ Hwf] H Hd. pose proof (extends_length _ _ H). split.
  - intros Hr. induction Hr as [d _|d d' e Hc Hr IH]; [by apply reach_refl|].
    assert (Hc' : child (r_nodes s) d d').
    { destruct Hc as (a & b & E & ?). exists a, b. by rewrite <- (H d Hd). }
    eapply reach_child; [done|]. apply IH. apply (child_lt _ _ _ Hwf Hc').
  - intros Hr. induction Hr as [d _|d d' e Hc Hr IH]; [apply reach_refl; lia|].
    eapply reach_child; [|apply IH; by apply (child_lt _ _ _ Hwf Hc)].
    destruct Hc as (a & b & E & ?). exists a, b. by rewrite (H d Hd).
Qed.
Lemma extends_leaves s s' (d : dependency) v : wf s -> extends s s' -> valid s d -> leaves s' d v <-> leaves s d v.
Proof.
  intros Hwf H Hd. destruct d as [d|]; [|done]. simpl in *. unfold leaves_at.
  split; intros (e & Hr & He); exists e.
  - apply (extends_reach s s') in Hr as Hr'; try done. split; [done|].
    rewrite <- (H e); [done|]. eapply reach_lt; [apply Hwf | done].
  - split; [by apply (extends_reach s s')|]. rewrite (H e); [done|]. eapply reach_lt; [apply Hwf | done].
Qed.
Lemma extends_valid s s' (d : dependency) : extends s s' -> valid s d -> valid s' d.
Proof. intros H. apply extends_length in H. destruct d; simpl; [lia | done]. Qed.

Lemma wf_intro s : (forall d n, r_nodes s !! d = Some n -> m_mark n = false) ->
  (forall d d1 d2, kind_at (r_nodes s) d = Some (DJoin d1 d2) -> d1 < d /\ d2 < d) -> wf s.
Proof. intros Hm Hj. split; [done|]. intros d e (d1 & d2 & E & He). apply Hj in E. lia. Qed.

Lemma dep_allocate_spec k s : wf s ->
  (forall d1 d2, k = DJoin d1 d2 -> d1 < length (r_nodes s) /\ d2 < length (r_nodes s)) ->
  let '(d, s') := allocate k s in
  wf s' /\ extends s s' /\ d < length (r_nodes s') /\ kind_at (r_nodes s') d = Some k.
Proof.
  intros [Hm Hc] Hk. unfold allocate, set_nodes. cbn [r_nodes].
  assert (Lk : forall d, kind_at (r_nodes s ++ [DepNode 0 false k]) d =
    if d <? length (r_nodes s) then kind_at (r_nodes s) d else if d =? length (r_nodes s) then Some k else None).
  { intros d. unfold kind_at. destruct (Nat.ltb_spec d (length (r_nodes s))).
    - by rewrite lookup_app_l by lia.
    - rewrite lookup_app_r by lia. destruct (Nat.eqb_spec d (length (r_nodes s))) as [->|Hne].
      + by rewrite Nat.sub_diag.
      + destruct (d - length (r_nodes s)) as [|j] eqn:Ej; [lia | done]. }
  split_and!.
  - apply wf_intro; cbn [r_nodes].
    + intros d n [Hn|[_ Hn]]%lookup_app_Some; [by eapply Hm|].
      apply list_lookup_singleton_Some in Hn as [_ <-]. done.
    + intros d d1 d2. rewrite Lk. destruct (Nat.ltb_spec d (length (r_nodes s))).
      * intros E. split; apply Hc; exists d1, d2; auto.
      * destruct (Nat.eqb_spec d (length (r_nodes s))) as [->|]; [|done]. intros [= E]. by apply Hk.
  - intros d Hd. cbn [r_nodes]. rewrite Lk. by apply Nat.ltb_lt in Hd as ->.
  - rewrite length_app. simpl. lia.
  - by rewrite Lk, Nat.ltb_irrefl, Nat.eqb_refl.
Qed.

Lemma inc_ref_spec s d : wf s -> d < length (r_nodes s) ->
  exists s', inc_ref (Some d) s = Some s' /\ wf s' /\ extends s s' /\ length (r_nodes s') = length (r_nodes s).
Proof.
  intros [Hm Hc] Hd. destruct (lookup_lt_is_Some_2 _ d Hd) as [n En].
  unfold inc_ref, get, put, rd. rewrite En. simpl. rewrite wr_ok by done. simpl. eexists. split; [done|].
  assert (Lk : forall i, kind_at (<[d:=DepNode ((m_ref_count n + 1) mod 1073741824) (m_mark n) (m_kind n)]>
    (r_nodes s)) i = kind_at (r_nodes s) i).
  { intros i. unfold kind_at. destruct (decide (i = d)) as [->|].
    - rewrite list_lookup_insert_eq by done. by rewrite En.
    - by rewrite list_lookup_insert_ne. }
  split_and!; [| intros i _; apply Lk | apply length_insert].
  apply wf_intro; simpl.
  - intros i x Hx. destruct (decide (i = d)) as [->|].
    + rewrite list_lookup_insert_eq in Hx by done. injection Hx as <-. simpl. by eapply Hm.
    + rewrite list_lookup_insert_ne in Hx by done. by eapply Hm.
  - intros i d1 d2. rewrite Lk. intros E. split; apply Hc; exists d1, d2; auto.
Qed.

Lemma mk_leaf_spec v s : wf s ->
  let '(d, s') := mk_leaf v s in
  wf s' /\ extends s s' /\ valid s' d /\ (forall w, leaves s' d w <-> w = v).
Proof.
  intros Hwf. unfold mk_leaf. pose proof (dep_allocate_spec (DLeaf v) s Hwf ltac:(done)) as A.
  destruct (allocate (DLeaf v) s) as [d s']. destruct A as (W & X & V & K). split_and!; try done.
  intros w. split.
  - intros (e & Hr & He). destruct Hr as [d _|d d' e Hc _]; [congruence|].
    destruct Hc as (? & ? & E & _). congruence.
  - intros ->. exists d. split; [by apply reach_refl | done].
Qed.

Lemma reach_join ns d d1 d2 v : d < length ns -> kind_at ns d = Some (DJoin d1 d2) ->
  leaves_at ns d v <-> leaves_at ns d1 v \/ leaves_at ns d2 v.
Proof.
  intros Hd Hk. split.
  - intros (e & Hr & He). destruct Hr as [d _|d d' e Hc Hr]; [congruence|].
    destruct Hc as (a & b & E & H). rewrite Hk in E. injection E as -> ->.
    destruct H as [->| ->]; [left | right]; by exists e.
  - intros [(e & Hr & He)|(e & Hr & He)]; exists e; (split; [|done]); eapply reach_child; try done;
      exists d1, d2; auto.
Qed.

Lemma mk_join_spec (d1 d2 : dependency) s : wf s -> valid s d1 -> valid s d2 ->
  exists (d : dependency) s', mk_join d1 d2 s = Some (d, s') /\ wf s' /\ extends s s' /\ valid s' d /\
    (forall v, leaves s' d v <-> leaves s d1 v \/ leaves s d2 v).
Proof.
  intros Hwf V1 V2. destruct d1 as [d1|], d2 as [d2|]; simpl in V1, V2.
  4: { exists None, s. split_and!; try done. simpl. tauto. }
  2: { exists (Some d1), s. split_and!; try done. simpl. tauto. }
  2: { exists (Some d2), s. split_and!; try done. simpl. tauto. }
  unfold mk_join. destruct (Nat.eqb_spec d1 d2) as [->|Hne].
  { exists (Some d2), s. split_and!; try done. simpl. tauto. }
  destruct (inc_ref_spec s d1 Hwf V1) as (s1 & E1 & W1 & X1 & L1). rewrite E1. cbn [mbind option_bind].
  destruct (inc_ref_spec s1 d2 W1 ltac:(lia)) as (s2 & E2 & W2 & X2 & L2). rewrite E2. cbn [mbind option_bind].
  pose proof (dep_allocate_spec (DJoin d1 d2) s2 W2 ltac:(intros ? ? [= <- <-]; lia)) as A.
  destruct (allocate (DJoin d1 d2) s2) as [d s3].
  destruct A as (W3 & X3 & V3 & K3).
  assert (X : extends s s3) by (etrans; [done | by etrans]).
  exists (Some d), s3. split_and!; [done | done | done | exact V3 |]. intros v. simpl.
  rewrite (reach_join _ _ _ _ _ V3 K3).
  rewrite <- (extends_leaves s s3 (Some d1) v Hwf X V1), <- (extends_leaves s s3 (Some d2) v Hwf X V2). done.
Qed.
