(* ===== verification/DepIntervals.v ===== *)
(** * DepIntervals: intervals with justifications ([math/interval/dep_intervals.h], [.cpp])

    [dep_intervals]: an interval manager whose intervals have a justification for each bound, built with a
    dependency manager from the rules the interval operations give.  The template argument [with_deps_t] is a
    boolean.  [None] is an access outside the region of the dependencies, or an unreachable branch of an
    interval operation.  [rational] and [mpq] are the numerals of the manager. *)
From S2P Require Import Prelude.
From S2P Require Import ExtNumeral.
From S2P Require Import Interval.
From S2P Require Import Dependency.
From Stdlib Require Import ZArith Lia.
From stdpp Require Import base tactics option list numbers functions.
Close Scope word_scope.
Open Scope Z_scope.

(** The fields [im_config::interval] adds, and the two managers. *)
Record dep_im (num : Type) := DepIm {
  di_im : imstate num;
  m_lower_dep : loc -> dependency;
  m_upper_dep : loc -> dependency;
  di_deps : dep_state }.
Arguments DepIm {num}.
Arguments di_im {num}.
Arguments m_lower_dep {num}.
Arguments m_upper_dep {num}.
Arguments di_deps {num}.

Module dep_intervals.
Section DepIntervals.
Context {num : Type} `{NumManager num}.
Abbreviation state := (dep_im num).
Abbreviation IM := (imstate num).

Definition on_im (f : IM -> IM) (s : state) : state :=
  DepIm (f (di_im s)) (m_lower_dep s) (m_upper_dep s) (di_deps s).
Definition set_lower_dep (a : loc) (d : dependency) (s : state) : state :=
  DepIm (di_im s) (<[a:=d]> (m_lower_dep s)) (m_upper_dep s) (di_deps s).
Definition set_upper_dep (a : loc) (d : dependency) (s : state) : state :=
  DepIm (di_im s) (m_lower_dep s) (<[a:=d]> (m_upper_dep s)) (di_deps s).
Definition set_deps (m : dep_state) (s : state) : state :=
  DepIm (di_im s) (m_lower_dep s) (m_upper_dep s) m.

Definition lower (s : state) (a : loc) : num := interval_manager.lower (di_im s) a.
Definition upper (s : state) (a : loc) : num := interval_manager.upper (di_im s) a.
Definition lower_is_open (s : state) (a : loc) : bool := interval_manager.lower_is_open (di_im s) a.
Definition upper_is_open (s : state) (a : loc) : bool := interval_manager.upper_is_open (di_im s) a.
Definition lower_is_inf (s : state) (a : loc) : bool := interval_manager.lower_is_inf (di_im s) a.
Definition upper_is_inf (s : state) (a : loc) : bool := interval_manager.upper_is_inf (di_im s) a.
Definition set_lower (a : loc) (n : num) (s : state) : state := on_im (interval_manager.set_lower a n) s.
Definition set_upper (a : loc) (n : num) (s : state) : state := on_im (interval_manager.set_upper a n) s.
Definition set_lower_is_open (a : loc) (v : bool) (s : state) : state :=
  on_im (interval_manager.set_lower_is_open a v) s.
Definition set_upper_is_open (a : loc) (v : bool) (s : state) : state :=
  on_im (interval_manager.set_upper_is_open a v) s.
Definition set_lower_is_inf (a : loc) (v : bool) (s : state) : state :=
  on_im (interval_manager.set_lower_is_inf a v) s.
Definition set_upper_is_inf (a : loc) (v : bool) (s : state) : state :=
  on_im (interval_manager.set_upper_is_inf a v) s.

Definition is_inf (s : state) (a : loc) : bool := upper_is_inf s a && lower_is_inf s a.
Definition is_zero (s : state) (a : loc) : bool :=
  negb (lower_is_inf s a) && negb (upper_is_inf s a) &&
  negb (lower_is_open s a) && negb (upper_is_open s a) &&
  m_is_zero (lower s a) && m_is_zero (upper s a).

(** *** Justifications *)

Definition mk_leaf (v : Z) (s : state) : dependency * state :=
  let '(d, m) := dep_manager.mk_leaf v (di_deps s) in (d, set_deps m s).
Definition mk_join (a b : dependency) (s : state) : option (dependency * state) :=
  '(d, m) ← dep_manager.mk_join a b (di_deps s); Some (d, set_deps m s).
Definition join_if (c : bool) (d : dependency) (p : dependency * state) : option (dependency * state) :=
  if c then mk_join (fst p) d (snd p) else Some p.

(** Both overloads of [mk_dependency]; the one for a unary operation ignores the second operand. *)
Definition mk_dependency (a b : loc) (bd : deps_combine_rule) (s : state) : option (dependency * state) :=
  p ← join_if (dep_in_lower1 bd) (m_lower_dep s a) (None, s);
  p ← join_if (dep_in_lower2 bd) (m_lower_dep s b) p;
  p ← join_if (dep_in_upper1 bd) (m_upper_dep s a) p;
  join_if (dep_in_upper2 bd) (m_upper_dep s b) p.
Definition mk_dependency1 (a : loc) (bd : deps_combine_rule) (s : state) : option (dependency * state) :=
  p ← join_if (dep_in_lower1 bd) (m_lower_dep s a) (None, s);
  join_if (dep_in_upper1 bd) (m_upper_dep s a) p.

Definition add_deps (a b : loc) (deps : interval_deps_combine_rule) (i : loc) (s : state) : option state :=
  '(lower_dep, s) ← (if lower_is_inf s i then Some (None, s) else mk_dependency a b (m_lower_combine deps) s);
  '(upper_dep, s) ← (if upper_is_inf s i then Some (None, s) else mk_dependency a b (m_upper_combine deps) s);
  Some (set_upper_dep i upper_dep (set_lower_dep i lower_dep s)).
Definition add_deps1 (a : loc) (deps : interval_deps_combine_rule) (i : loc) (s : state) : option state :=
  '(lower_dep, s) ← (if lower_is_inf s i then Some (None, s) else mk_dependency1 a (m_lower_combine deps) s);
  '(upper_dep, s) ← (if upper_is_inf s i then Some (None, s) else mk_dependency1 a (m_upper_combine deps) s);
  Some (set_upper_dep i upper_dep (set_lower_dep i lower_dep s)).

Definition linearize (dep : dependency) (expl : list Z) (s : state) : option (list Z * state) :=
  '(v, m) ← dep_manager.linearize dep [] (di_deps s);
  Some (expl ++ v, set_deps m s).
Definition get_upper_dep (a : loc) (expl : list Z) (s : state) := linearize (m_upper_dep s a) expl s.
Definition get_lower_dep (a : loc) (expl : list Z) (s : state) := linearize (m_lower_dep s a) expl s.

(** *** Constants and tests *)

Definition set_value (a : loc) (n : num) (s : state) : state :=
  let s := set_lower a n s in
  let s := set_upper a n s in
  let s := set_lower_is_open a false s in
  let s := set_upper_is_open a false s in
  let s := set_lower_is_inf a false s in
  set_upper_is_inf a false s.
Definition set_interval_for_scalar (a : loc) (v : num) (s : state) : state :=
  let s := set_lower a v s in
  let s := set_upper a v s in
  let s := set_lower_is_open a false s in
  let s := set_lower_is_inf a false s in
  let s := set_upper_is_open a false s in
  set_upper_is_inf a false s.
Definition set_zero_interval (i : loc) (dep : dependency) (s : state) : state :=
  let val := m_of_int (im_up (di_im s)) 0 in
  let s := set_lower i val s in
  let s := set_lower_is_open i false s in
  let s := set_lower_is_inf i false s in
  let s := set_upper i val s in
  let s := set_upper_is_open i false s in
  let s := set_upper_is_inf i false s in
  set_lower_dep i dep (set_upper_dep i dep s).
Definition set_zero_interval_deps_for_mult (a : loc) (s : state) : option state :=
  '(d, s) ← mk_join (m_lower_dep s a) (m_upper_dep s a) s;
  let s := set_lower_dep a d s in
  Some (set_upper_dep a (m_lower_dep s a) s).

Definition separated_from_zero_on_lower (s : state) (i : loc) : bool :=
  if lower_is_inf s i then false
  else if m_is_neg (lower s i) then false
  else if m_is_zero (lower s i) && negb (lower_is_open s i) then false
  else true.
Definition separated_from_zero_on_upper (s : state) (i : loc) : bool :=
  if upper_is_inf s i then false
  else if m_is_pos (upper s i) then false
  else if m_is_zero (upper s i) && negb (upper_is_open s i) then false
  else true.
Definition separated_from_zero (s : state) (i : loc) : bool :=
  separated_from_zero_on_upper s i || separated_from_zero_on_lower s i.

Definition is_empty (s : state) (a : loc) : bool :=
  if lower_is_inf s a || upper_is_inf s a then false
  else if m_gt (lower s a) (upper s a) then true
  else if m_lt (lower s a) (upper s a) then false
  else if lower_is_open s a || upper_is_open s a then true
  else false.
Definition is_above (s : state) (i : loc) (r : num) : bool :=
  if lower_is_inf s i then false
  else if m_lt r (lower s i) then true
  else if m_eq (lower s i) r && lower_is_open s i then true
  else false.
Definition is_below (s : state) (i : loc) (r : num) : bool :=
  if upper_is_inf s i then false
  else if m_lt (upper s i) r then true
  else if m_eq (upper s i) r && upper_is_open s i then true
  else false.

(** [f] is called on the explanation, which is the result when the answer is positive. *)
Definition check_interval_for_conflict_on_zero_lower (i : loc) (dep : dependency) (s : state)
    : option (option (list Z) * state) :=
  if negb (separated_from_zero_on_lower s i) then Some (None, s)
  else
    '(dep, s) ← mk_join dep (m_lower_dep s i) s;
    '(expl, s) ← linearize dep [] s;
    Some (Some expl, s).
Definition check_interval_for_conflict_on_zero_upper (i : loc) (dep : dependency) (s : state)
    : option (option (list Z) * state) :=
  if negb (separated_from_zero_on_upper s i) then Some (None, s)
  else
    '(dep, s) ← mk_join dep (m_upper_dep s i) s;
    '(expl, s) ← linearize dep [] s;
    Some (Some expl, s).
Definition check_interval_for_conflict_on_zero (i : loc) (dep : dependency) (s : state)
    : option (option (list Z) * state) :=
  '(r, s) ← check_interval_for_conflict_on_zero_lower i dep s;
  match r with
  | Some expl => Some (Some expl, s)
  | None => check_interval_for_conflict_on_zero_upper i dep s
  end.

(** *** Operations *)

Definition add_r (r : num) (a : loc) (s : state) : state :=
  let s := if lower_is_inf s a then s else set_lower a (m_add (im_up (di_im s)) (lower s a) r) s in
  if upper_is_inf s a then s else set_upper a (m_add (im_up (di_im s)) (upper s a) r) s.

Definition set (wd : bool) (a b : loc) (s : state) : state :=
  let s := on_im (interval_manager.set a b) s in
  if wd then
    let s := set_lower_dep a (m_lower_dep s b) s in
    set_upper_dep a (m_upper_dep s b) s
  else s.

Definition power (wd : bool) (a : loc) (n : nat) (b : loc) (s : state) : option state :=
  if (n =? 1)%nat && bool_decide (a = b) then Some s
  else if wd then
    let combine_rule := interval_manager.power_jst (di_im s) a n in
    let s := on_im (interval_manager.power a n b) s in
    add_deps1 a combine_rule b s
  else Some (on_im (interval_manager.power a n b) s).

Definition mul_r (wd : bool) (r : num) (a b : loc) (s : state) : state :=
  if m_is_zero r then s
  else
    let s := on_im (interval_manager.mul_k r a b) s in
    if wd then
      let lower_dep := m_lower_dep s a in
      let upper_dep := m_upper_dep s a in
      let '(lower_dep, upper_dep) :=
        if negb (m_is_pos r) then (upper_dep, lower_dep) else (lower_dep, upper_dep) in
      set_upper_dep b upper_dep (set_lower_dep b lower_dep s)
    else s.

Definition mul (wd : bool) (a b c : loc) (s : state) : option state :=
  if wd then
    let comb_rule := interval_manager.mul_jst (di_im s) a b in
    let s := on_im (interval_manager.mul a b c) s in
    add_deps a b comb_rule c s
  else Some (on_im (interval_manager.mul a b c) s).
Definition div (wd : bool) (a b c : loc) (s : state) : option state :=
  if wd then
    let comb_rule := interval_manager.div_jst (di_im s) a b in
    let s := on_im (interval_manager.div a b c) s in
    add_deps a b comb_rule c s
  else Some (on_im (interval_manager.div a b c) s).
Definition add (wd : bool) (a b c : loc) (s : state) : option state :=
  if wd then
    let comb_rule := interval_manager.add_jst (di_im s) a b in
    let s := on_im (interval_manager.add a b c) s in
    add_deps a b comb_rule c s
  else Some (on_im (interval_manager.add a b c) s).

Definition copy_upper_bound (wd : bool) (a i : loc) (s : state) : state :=
  let s := set_upper_is_inf i false s in
  let s := set_upper i (upper s a) s in
  let s := set_upper_is_open i (upper_is_open s a) s in
  if wd then set_upper_dep i (m_upper_dep s a) s else s.
Definition copy_lower_bound (wd : bool) (a i : loc) (s : state) : state :=
  let s := set_lower_is_inf i false s in
  let s := set_lower i (lower s a) s in
  let s := set_lower_is_open i (lower_is_open s a) s in
  if wd then set_lower_dep i (m_lower_dep s a) s else s.

Definition update_lower_for_intersection (wd : bool) (a b i : loc) (s : state) : state :=
  if lower_is_inf s a then
    if lower_is_inf s b then s else copy_lower_bound wd b i s
  else if lower_is_inf s b then copy_lower_bound wd a i s
  else if m_lt (lower s a) (lower s b) then copy_lower_bound wd b i s
  else if m_gt (lower s a) (lower s b) then copy_lower_bound wd a i s
  else if lower_is_open s a then copy_lower_bound wd a i s
  else copy_lower_bound wd b i s.
Definition update_upper_for_intersection (wd : bool) (a b i : loc) (s : state) : state :=
  if upper_is_inf s a then
    if upper_is_inf s b then s else copy_upper_bound wd b i s
  else if upper_is_inf s b then copy_upper_bound wd a i s
  else if m_gt (upper s a) (upper s b) then copy_upper_bound wd b i s
  else if m_lt (upper s a) (upper s b) then copy_upper_bound wd a i s
  else if upper_is_open s a then copy_upper_bound wd a i s
  else copy_upper_bound wd b i s.
Definition intersect (wd : bool) (a b i : loc) (s : state) : state :=
  update_upper_for_intersection wd a b i (update_lower_for_intersection wd a b i s).

End DepIntervals.
End dep_intervals.
