(* ===== verification/DepIntervalsProofs.v ===== *)
(** * DepIntervalsProofs: every bound follows from the constraints its justification names

    [dep_ok C s i x]: each bound of interval [i] holds of [x] as soon as the constraints ([C]) at the leaves of
    its justification hold.  The operations keep it, whatever the aliasing of their operands; [exec_all] is a
    client that runs a sequence of them, against the real numbers the intervals stand for. *)
From S2P Require Import Prelude.
From S2P Require Import ExtNumeral.
From S2P Require Import Interval.
From S2P Require Import IntervalBounds.
From S2P Require Import IntervalProofs.
From S2P Require Import IntervalSound.
From S2P Require Import Dependency.
From S2P Require Import DependencyProofs.
From S2P Require Import DepIntervals.
From Stdlib Require Import ZArith Lia Reals Lra.
From stdpp Require Import base tactics option list numbers functions.
Close Scope word_scope.
Open Scope R_scope.
Import dep_intervals.

Section Proofs.
Context {num : Type} {Mgr : NumManager num} {val : num -> R} {L : NumLaws val}.
Abbreviation state := (dep_im num).
Abbreviation justified := (justified (val := val)).
Abbreviation lower_ok := (lower_ok (val := val)).
Abbreviation upper_ok := (upper_ok (val := val)).
Abbreviation member := (member (val := val)).

Definition dwf (s : state) : Prop :=
  wf (di_deps s) /\ forall i, valid (di_deps s) (m_lower_dep s i) /\ valid (di_deps s) (m_upper_dep s i).

(** The constraints at the leaves of a justification hold. *)
Definition holds (C : Z -> Prop) (s : state) (d : dependency) : Prop :=
  forall v, leaves (di_deps s) d v -> C v.
Definition dep_ok (C : Z -> Prop) (s : state) (i : loc) (x : R) : Prop :=
  (holds C s (m_lower_dep s i) -> lower_ok (di_im s) i x) /\
  (holds C s (m_upper_dep s i) -> upper_ok (di_im s) i x).

(** Only the graph grew. *)
Definition deps_only (s s' : state) : Prop :=
  di_im s' = di_im s /\ m_lower_dep s' = m_lower_dep s /\ m_upper_dep s' = m_upper_dep s /\
  extends (di_deps s) (di_deps s').
#[local] Instance deps_only_preorder : PreOrder deps_only.
Proof.
  split; [by intros s|]. intros s1 s2 s3 (?&?&?&?) (?&?&?&?).
  split_and!; [congruence | congruence | congruence | by etrans].
Qed.

Lemma deps_only_holds C s s' d : dwf s -> deps_only s s' -> valid (di_deps s) d ->
  holds C s' d <-> holds C s d.
Proof.
  intros [Hwf _] (_ & _ & _ & X) Hd. unfold holds. split; intros H v Hv; apply H;
    by apply (extends_leaves _ _ _ v Hwf X Hd).
Qed.

Lemma mk_join_ok d1 d2 s : dwf s -> valid (di_deps s) d1 -> valid (di_deps s) d2 ->
  exists d s', mk_join d1 d2 s = Some (d, s') /\ dwf s' /\ deps_only s s' /\ valid (di_deps s') d /\
    forall C, holds C s' d <-> holds C s d1 /\ holds C s d2.
Proof.
  intros [Hwf Hv] V1 V2. destruct (mk_join_spec d1 d2 (di_deps s) Hwf V1 V2) as (d & m & E & W & X & V & Hl).
  exists d, (set_deps m s). unfold mk_join. rewrite E. split_and!; [done | split; [done|] | | done |].
  - intros i. destruct (Hv i). split; by eapply extends_valid.
  - by split_and!.
  - intros C. unfold holds. simpl. split.
    + intros H. split; intros v Hv'; apply H, Hl; auto.
    + intros [H1 H2] v [Hv'|Hv']%Hl; auto.
Qed.

(** A justification under construction: [p] holds exactly when [P] does. *)
Definition builds (s : state) (p : dependency * state) (P : (Z -> Prop) -> Prop) : Prop :=
  dwf (snd p) /\ deps_only s (snd p) /\ valid (di_deps (snd p)) (fst p) /\
  forall C, holds C (snd p) (fst p) <-> P C.

Lemma builds_nil s : dwf s -> builds s (None, s) (fun _ => True).
Proof.
  intros Hs. split; [done|]. split; [done|]. split; [done|]. intros C. split; [done|]. by intros _ v.
Qed.

Lemma join_if_ok (c : bool) d s p P : dwf s -> valid (di_deps s) d -> builds s p P ->
  exists p', join_if c d p = Some p' /\ builds s p' (fun C => P C /\ (c = true -> holds C s d)).
Proof.
  intros Hs Hd (W & D & V & H). destruct c; simpl.
  - destruct p as [d0 s0]. simpl in *.
    assert (Hd0 : valid (di_deps s0) d) by (destruct D as (_ & _ & _ & X); by eapply extends_valid).
    destruct (mk_join_ok d0 d s0 W V Hd0) as (d' & s' & E & W' & D' & V' & H').
    exists (d', s'). split; [done|]. split_and!; [done | by etrans | done |]. intros C. simpl.
    rewrite H', H, (deps_only_holds C s s0) by done. split; [intros [? ?]; auto | intros [? H1]; auto].
  - exists p. split; [done|]. split_and!; try done. intros C. rewrite H. split; [by intros | by intros []].
Qed.

Lemma mk_dependency_ok a b bd s : dwf s ->
  exists p, mk_dependency a b bd s = Some p /\ builds s p (fun C =>
    (dep_in_lower1 bd = true -> holds C s (m_lower_dep s a)) /\
    (dep_in_upper1 bd = true -> holds C s (m_upper_dep s a)) /\
    (dep_in_lower2 bd = true -> holds C s (m_lower_dep s b)) /\
    (dep_in_upper2 bd = true -> holds C s (m_upper_dep s b))).
Proof.
  intros Hs. pose proof Hs as [_ Hv]. destruct (Hv a) as [Va1 Va2], (Hv b) as [Vb1 Vb2].
  pose proof (builds_nil s Hs) as B0.
  unfold mk_dependency.
  destruct (join_if_ok (dep_in_lower1 bd) _ s _ _ Hs Va1 B0) as (p1 & -> & B1). simpl.
  destruct (join_if_ok (dep_in_lower2 bd) _ s _ _ Hs Vb1 B1) as (p2 & -> & B2). simpl.
  destruct (join_if_ok (dep_in_upper1 bd) _ s _ _ Hs Va2 B2) as (p3 & -> & B3). simpl.
  destruct (join_if_ok (dep_in_upper2 bd) _ s _ _ Hs Vb2 B3) as (p4 & -> & W & D & V & H).
  exists p4. split; [done|]. split_and!; try done. intros C. rewrite H. tauto.
Qed.
Lemma mk_dependency1_ok a bd s : dwf s ->
  exists p, mk_dependency1 a bd s = Some p /\ builds s p (fun C =>
    (dep_in_lower1 bd = true -> holds C s (m_lower_dep s a)) /\
    (dep_in_upper1 bd = true -> holds C s (m_upper_dep s a))).
Proof.
  intros Hs. pose proof Hs as [_ Hv]. destruct (Hv a) as [Va1 Va2].
  pose proof (builds_nil s Hs) as B0.
  unfold mk_dependency1.
  destruct (join_if_ok (dep_in_lower1 bd) _ s _ _ Hs Va1 B0) as (p1 & -> & B1). simpl.
  destruct (join_if_ok (dep_in_upper1 bd) _ s _ _ Hs Va2 B1) as (p2 & -> & W & D & V & H).
  exists p2. split; [done|]. split_and!; try done. intros C. rewrite H. tauto.
Qed.

(** What the bounds a rule names give for the operands. *)
Definition named (C : Z -> Prop) (s : state) (a b : loc) (bd : deps_combine_rule) : Prop :=
  (dep_in_lower1 bd = true -> holds C s (m_lower_dep s a)) /\
  (dep_in_upper1 bd = true -> holds C s (m_upper_dep s a)) /\
  (dep_in_lower2 bd = true -> holds C s (m_lower_dep s b)) /\
  (dep_in_upper2 bd = true -> holds C s (m_upper_dep s b)).

Lemma named_sat C s a b bd x y :
  named C s a b bd -> dep_ok C s a x -> dep_ok C s b y -> deps_sat (val := val) (di_im s) bd a b x y.
Proof. intros (H1 & H2 & H3 & H4) [Hl1 Hu1] [Hl2 Hu2]. split_and!; auto. Qed.

(** One bound of [add_deps] and [add_deps1]: no justification for an infinite bound. *)
Lemma dep_phase_ok (inf : bool) (m : state -> option (dependency * state)) s P : dwf s ->
  (exists p, m s = Some p /\ builds s p P) ->
  exists d s', (if inf then Some (None, s) else m s) = Some (d, s') /\ dwf s' /\ deps_only s s' /\
    valid (di_deps s') d /\ forall C, holds C s' d -> inf = true \/ P C.
Proof.
  intros Hs (p & E & W & D & V & H). destruct inf.
  - exists None, s. split_and!; try done. by left.
  - destruct p as [d s']. exists d, s'. split_and!; try done. intros C Hd. right. by apply H.
Qed.

Lemma mk_dependency1_named a bd s : dwf s -> dep_in_lower2 bd = false -> dep_in_upper2 bd = false ->
  exists p, mk_dependency1 a bd s = Some p /\ builds s p (fun C => named C s a a bd).
Proof.
  intros Hs E1 E2. destruct (mk_dependency1_ok a bd s Hs) as (p & E & W & D & V & H).
  exists p. split; [done|]. split_and!; try done. intros C. rewrite H. unfold named. rewrite E1, E2.
  split; [intros []; by split_and! | by intros (? & ? & _)].
Qed.

Definition finish_deps (m : deps_combine_rule -> state -> option (dependency * state))
    (j : interval_deps_combine_rule) (c : loc) (s : state) : option state :=
  '(lower_dep, s) ← (if lower_is_inf s c then Some (None, s) else m (m_lower_combine j) s);
  '(upper_dep, s) ← (if upper_is_inf s c then Some (None, s) else m (m_upper_combine j) s);
  Some (set_upper_dep c upper_dep (set_lower_dep c lower_dep s)).

Lemma bind_Some_eq {A B} (m : option A) (x : A) (k : A -> option B) : m = Some x -> (m ≫= k) = k x.
Proof. by intros ->. Qed.

(** The result of an operation with its justifications. *)
Record deps_result (s s1 : state) (j : interval_deps_combine_rule) (a b c : loc) (s' : state) : Prop := DepsResult {
  dr_wf : dwf s';
  dr_im : di_im s' = di_im s1;
  dr_deps : extends (di_deps s) (di_deps s');
  dr_frame : forall i, i <> c -> m_lower_dep s' i = m_lower_dep s i /\ m_upper_dep s' i = m_upper_dep s i;
  dr_ok : forall C x y z, dep_ok C s a x -> dep_ok C s b y ->
    justified (di_im s) (di_im s1) j a b c x y z -> dep_ok C s' c z }.

Lemma dwf_on_im f s : dwf s -> dwf (on_im f s).
Proof. done. Qed.

Lemma finish_deps_ok m f j a b c s : dwf s ->
  (forall bd s2, bd = m_lower_combine j \/ bd = m_upper_combine j -> dwf s2 -> deps_only (on_im f s) s2 ->
     exists p, m bd s2 = Some p /\ builds s2 p (fun C => named C s2 a b bd)) ->
  exists s', finish_deps m j c (on_im f s) = Some s' /\ deps_result s (on_im f s) j a b c s'.
Proof.
  intros Hs Hm. set (s1 := on_im f s). assert (W1 : dwf s1) by done. unfold finish_deps.
  destruct (dep_phase_ok (lower_is_inf s1 c) (m (m_lower_combine j)) s1 _ W1
    (Hm _ s1 (or_introl eq_refl) W1 (reflexivity s1))) as (dl & s2 & Q2 & W2 & D2 & Vl & Hl).
  erewrite (bind_Some_eq _ (dl, s2)) by exact Q2.
  destruct (dep_phase_ok (upper_is_inf s2 c) (m (m_upper_combine j)) s2 _ W2
    (Hm _ s2 (or_intror eq_refl) W2 D2)) as (du & s3 & Q3 & W3 & D3 & Vu & Hu).
  erewrite (bind_Some_eq _ (du, s3)) by exact Q3. eexists. split; [done|].
  pose proof D2 as (Ei2 & El2 & Eu2 & X2). pose proof D3 as (Ei3 & El3 & Eu3 & X3).
  split; cbn [di_im di_deps set_upper_dep set_lower_dep m_lower_dep m_upper_dep].
  - destruct W3 as [W3 V3]. split; [done|]. intros i. cbn. destruct (V3 i) as [A B].
    destruct (decide (i = c)) as [->|Hne]; rewrite ?fn_lookup_insert, ?fn_lookup_insert_ne by done; [|done].
    split; [by eapply extends_valid | done].
  - congruence.
  - by etrans.
  - intros i Hi. rewrite !fn_lookup_insert_ne by done. by rewrite El3, El2, Eu3, Eu2.
  - intros C x y z Ha Hb [Jl Ju].
    assert (Nm : forall bd s', deps_only s1 s' -> named C s' a b bd -> named C s a b bd).
    { intros bd s' D (H1 & H2 & H3 & H4). pose proof D as (_ & Fl & Fu & _). rewrite Fl in H1, H3. rewrite Fu in H2, H4.
      destruct Hs as [Hwf Hv]. destruct (Hv a), (Hv b).
      split_and!; intros Hc; (eapply (deps_only_holds C s1 s'); [done | done | done | auto]). }
    split; cbn; rewrite fn_lookup_insert, Ei3, Ei2; intros Hd.
    + assert (Hd2 : holds C s2 dl) by (by eapply (deps_only_holds C s2 s3)).
      destruct (Hl C Hd2) as [Hinf|Hn].
      * unfold IntervalProofs.lower_ok, interval_manager.lower_kind. unfold lower_is_inf in Hinf. by rewrite Hinf.
      * apply Jl. by apply (named_sat C).
    + destruct (Hu C Hd) as [Hinf|Hn].
      * unfold IntervalProofs.upper_ok, interval_manager.upper_kind. unfold upper_is_inf in Hinf. rewrite Ei2 in Hinf.
        by rewrite Hinf.
      * apply Ju. eapply (named_sat C); try done. by apply (Nm _ s2).
Qed.

Lemma add_deps_ok f j a b c s : dwf s ->
  exists s', add_deps a b j c (on_im f s) = Some s' /\ deps_result s (on_im f s) j a b c s'.
Proof.
  intros Hs. apply (finish_deps_ok (fun bd s => mk_dependency a b bd s)); [done|].
  intros bd s2 _ W2 _. by apply mk_dependency_ok.
Qed.
Lemma add_deps1_ok f j a c s : dwf s ->
  (forall bd, bd = m_lower_combine j \/ bd = m_upper_combine j -> dep_in_lower2 bd = false /\ dep_in_upper2 bd = false) ->
  exists s', add_deps1 a j c (on_im f s) = Some s' /\ deps_result s (on_im f s) j a a c s'.
Proof.
  intros Hs Hj. apply (finish_deps_ok (fun bd s => mk_dependency1 a bd s)); [done|].
  intros bd s2 Hb W2 _. destruct (Hj bd Hb). by apply mk_dependency1_named.
Qed.

(** *** A client: a sequence of operations *)

Inductive dop : Type :=
  | DAdd (a b c : loc)
  | DMul (a b c : loc)
  | DDiv (a b c : loc)
  | DPower (a : loc) (n : nat) (b : loc)
  | DMulR (r : num) (a b : loc)
  | DAddR (r : num) (a : loc)
  | DSet (a b : loc).

(** The assertion of [div] stops the client. *)
Definition exec (o : dop) (s : state) : option (option state) :=
  match o with
  | DAdd a b c => s ← add true a b c s; Some (Some s)
  | DMul a b c => s ← mul true a b c s; Some (Some s)
  | DDiv a b c =>
      if interval_manager.contains_zero (di_im s) b then Some None
      else s ← div true a b c s; Some (Some s)
  | DPower a n b => s ← power true a n b s; Some (Some s)
  | DMulR r a b => Some (Some (mul_r true r a b s))
  | DAddR r a => Some (Some (add_r r a s))
  | DSet a b => Some (Some (set true a b s))
  end.
Fixpoint exec_all (l : list dop) (s : state) : option (option state) :=
  match l with
  | [] => Some (Some s)
  | o :: l => r ← exec o s; match r with Some s => exec_all l s | None => Some None end
  end.

Definition op_ok (o : dop) : Prop := match o with DPower _ n _ => (0 < n)%nat | _ => True end.

(** What the operations compute; the product by the number 0 leaves its result as it was. *)
Definition astep (o : dop) (env : loc -> R) : loc -> R :=
  match o with
  | DAdd a b c => <[c:=env a + env b]> env
  | DMul a b c => <[c:=env a * env b]> env
  | DDiv a b c => <[c:=env a / env b]> env
  | DPower a n b => <[b:=env a ^ n]> env
  | DMulR r a b => if m_is_zero r then env else <[b:=env a * val r]> env
  | DAddR r a => <[a:=env a + val r]> env
  | DSet a b => <[a:=env b]> env
  end.
Fixpoint asteps (l : list dop) (env : loc -> R) : loc -> R :=
  match l with [] => env | o :: l => asteps l (astep o env) end.

Definition consistent (s : state) (env : loc -> R) : Prop := forall i, member (di_im s) i (env i).
Definition all_ok (C : Z -> Prop) (s : state) (env : loc -> R) : Prop := forall i, dep_ok C s i (env i).

Record step_ok (s s' : state) (o : dop) : Prop := StepOk {
  so_wf : dwf s';
  so_consistent : forall env, consistent s env -> consistent s' (astep o env);
  so_ok : forall C env, all_ok C s env -> all_ok C s' (astep o env) }.

Lemma dep_ok_frame C s s' i x : dwf s -> extends (di_deps s) (di_deps s') ->
  m_lower_dep s' i = m_lower_dep s i -> m_upper_dep s' i = m_upper_dep s i ->
  (forall x, lower_ok (di_im s') i x <-> lower_ok (di_im s) i x) ->
  (forall x, upper_ok (di_im s') i x <-> upper_ok (di_im s) i x) ->
  dep_ok C s i x -> dep_ok C s' i x.
Proof.
  intros [Hwf Hv] X El Eu Hl Hu [Dl Du]. destruct (Hv i). split; intros Hh.
  - apply Hl, Dl. intros v Hlv. apply Hh. rewrite El. by apply (extends_leaves _ _ _ v Hwf X).
  - apply Hu, Du. intros v Hlv. apply Hh. rewrite Eu. by apply (extends_leaves _ _ _ v Hwf X).
Qed.

Lemma same_at_bounds (s s' : imstate num) j : same_at s s' j ->
  (forall x, lower_ok s' j x <-> lower_ok s j x) /\ (forall x, upper_ok s' j x <-> upper_ok s j x).
Proof.
  intros (E1 & E2 & E3 & E4 & E5 & E6).
  unfold IntervalProofs.lower_ok, IntervalProofs.upper_ok, interval_manager.lower_kind, interval_manager.upper_kind.
  by rewrite E1, E2, E3, E4, E5, E6.
Qed.

(** An operation that is justified and changes one interval only. *)
Lemma op_step s f j a b c (o : dop) s' (g : R -> R -> R) :
  dwf s -> deps_result s (on_im f s) j a b c s' ->
  (forall i, i <> c -> same_at (di_im s) (f (di_im s)) i) ->
  (forall x y, justified (di_im s) (f (di_im s)) j a b c x y (g x y)) ->
  (forall env, astep o env = <[c:=g (env a) (env b)]> env) -> step_ok s s' o.
Proof.
  intros Hs [W Ei X Fr Ok] Hf Hj Ha. simpl in Ei. split; [done | |].
  - intros env He i. rewrite Ha, Ei. destruct (decide (i = c)) as [->|Hi].
    + rewrite fn_lookup_insert. eapply justified_member; [apply Hj | apply He | apply He].
    + rewrite fn_lookup_insert_ne by done. apply (same_at_member (val := val) (di_im s) _ _ _ (Hf i Hi)), He.
  - intros C env He i. rewrite Ha. destruct (decide (i = c)) as [->|Hi].
    + rewrite fn_lookup_insert. eapply Ok; [apply He | apply He | apply Hj].
    + rewrite fn_lookup_insert_ne by done. destruct (Fr i Hi).
      destruct (same_at_bounds _ _ _ (Hf i Hi)). apply (dep_ok_frame C s); try done; by rewrite Ei.
Qed.

(** Operations that leave the graph as it is. *)
Lemma plain_step s s' (o : dop) b : dwf s -> di_deps s' = di_deps s ->
  (forall i, valid (di_deps s) (m_lower_dep s' i) /\ valid (di_deps s) (m_upper_dep s' i)) ->
  (forall i, i <> b -> m_lower_dep s' i = m_lower_dep s i /\ m_upper_dep s' i = m_upper_dep s i /\
     same_at (di_im s) (di_im s') i) ->
  (forall env i, i <> b -> astep o env i = env i) ->
  (forall env, consistent s env -> member (di_im s') b (astep o env b)) ->
  (forall C env, all_ok C s env -> dep_ok C s' b (astep o env b)) -> step_ok s s' o.
Proof.
  intros Hs Ed Hv Hf Ha Hc Ho. split.
  - split; [rewrite Ed; apply Hs|]. by rewrite Ed.
  - intros env He i. destruct (decide (i = b)) as [->|Hi]; [by apply Hc|].
    rewrite Ha by done. destruct (Hf i Hi) as (_ & _ & S). apply (same_at_member (val := val) _ _ _ _ S), He.
  - intros C env He i. destruct (decide (i = b)) as [->|Hi]; [by apply Ho|].
    rewrite Ha by done. destruct (Hf i Hi) as (? & ? & S). destruct (same_at_bounds _ _ _ S).
    apply (dep_ok_frame C s); try done. by rewrite Ed.
Qed.

Lemma set_step s a b : dwf s -> step_ok s (set true a b s) (DSet a b).
Proof.
  intros Hs. pose proof Hs as [_ Hv].
  assert (Bl : forall x, lower_ok (interval_manager.set a b (di_im s)) a x <-> lower_ok (di_im s) b x)
    by (intros; apply set_lower_ok).
  assert (Bu : forall x, upper_ok (interval_manager.set a b (di_im s)) a x <-> upper_ok (di_im s) b x)
    by (intros; apply set_upper_ok).
  apply (plain_step _ _ _ a); [done | done | | | | |].
  - intros i. cbn. destruct (Hv b), (Hv i).
    destruct (decide (i = a)) as [->|Hi]; rewrite ?fn_lookup_insert, ?fn_lookup_insert_ne by done; done.
  - intros i Hi. cbn. rewrite !fn_lookup_insert_ne by done. split_and!; [done | done | by apply set_frame].
  - intros env i Hi. cbn. by rewrite fn_lookup_insert_ne.
  - intros env He. cbn. rewrite fn_lookup_insert. destruct (He b) as [Hl Hu].
    split; [by apply Bl | by apply Bu].
  - intros C env He. cbn [astep]. rewrite fn_lookup_insert. destruct (He b) as [Hl Hu].
    split; cbn; rewrite fn_lookup_insert; intros Hd; [apply Bl, Hl | apply Bu, Hu]; intros v Hlv; by apply Hd.
Qed.

Lemma not_pos_is_neg (r : num) : m_is_zero r = false -> negb (m_is_pos r) = m_is_neg r.
Proof.
  intros Z. apply not_true_iff_false in Z. rewrite (val_is_zero (val := val)) in Z.
  destruct (m_is_pos r) eqn:P, (m_is_neg r) eqn:N; try done.
  - apply (val_is_pos (val := val)) in P. apply (val_is_neg (val := val)) in N. lra.
  - apply not_true_iff_false in P, N. rewrite (val_is_pos (val := val)) in P.
    rewrite (val_is_neg (val := val)) in N. lra.
Qed.
Lemma mul_r_step s r a b : dwf s -> step_ok s (mul_r true r a b s) (DMulR r a b).
Proof.
  intros Hs. pose proof Hs as [_ Hv]. unfold mul_r. destruct (m_is_zero r) eqn:Z.
  { split; [done | |]; intros *; unfold astep; rewrite Z; done. }
  pose proof (fun x => mul_k_justified (val := val) (di_im s) r a b x) as J. unfold interval_manager.mul_k_jst in J.
  rewrite Z in J.
  cbv zeta. rewrite (not_pos_is_neg r Z).
  apply (plain_step _ _ _ b); [done | by destruct (m_is_neg r) | | | | |].
  - intros i. destruct (Hv a), (Hv i). destruct (m_is_neg r); cbn;
      destruct (decide (i = b)) as [->|Hi]; rewrite ?fn_lookup_insert, ?fn_lookup_insert_ne by done; done.
  - intros i Hi. destruct (m_is_neg r); cbn; rewrite !fn_lookup_insert_ne by done;
      (split_and!; [done | done | by apply div_mul_frame]).
  - intros env i Hi. cbn. rewrite Z. by rewrite fn_lookup_insert_ne.
  - intros env He. cbn. rewrite Z, fn_lookup_insert. destruct (m_is_neg r);
      (eapply justified_member; [apply J | apply He | apply He]).
  - intros C env He. cbn [astep]. rewrite Z, fn_lookup_insert. destruct (He a) as [Hl Hu], (J (env a)) as [Jl Ju].
    destruct (m_is_neg r); split; cbn; rewrite fn_lookup_insert; intros Hd; (apply Jl || apply Ju);
      split_and!; try done; intros _; (apply Hl || apply Hu); intros v Hlv; by apply Hd.
Qed.

Hypothesis precise : m_precise = true.

Lemma add_exact up a b : val (m_add up a b) = val a + val b.
Proof. by apply (val_add (val := val) up a b). Qed.

Lemma add_r_im s r a :
  let s' := add_r r a s in
  di_deps s' = di_deps s /\ m_lower_dep s' = m_lower_dep s /\ m_upper_dep s' = m_upper_dep s /\
  (forall i, i <> a -> same_at (di_im s) (di_im s') i) /\
  (forall x, lower_ok (di_im s) a x -> lower_ok (di_im s') a (x + val r)) /\
  (forall x, upper_ok (di_im s) a x -> upper_ok (di_im s') a (x + val r)).
Proof.
  unfold add_r, lower_is_inf, upper_is_inf, interval_manager.lower_is_inf, interval_manager.upper_is_inf. cbv zeta.
  assert (T : forall o v w, le_o o v w -> le_o o (v + val r) (w + val r)) by (intros [] v w; simpl; lra).
  destruct (im_lower_inf (di_im s) a) eqn:El;
    destruct (im_upper_inf _ a) eqn:Eu; cbn in Eu; split_and!; try done;
    (try (intros i Hi; unfold same_at; cbn; rewrite ?fn_lookup_insert_ne by done; done));
    intros x; ist; rewrite ?El, ?Eu; try done; simpl;
    unfold lower, upper, interval_manager.lower, interval_manager.upper; cbn; rewrite ?add_exact; apply T.
Qed.

Lemma add_r_step s r a : dwf s -> step_ok s (add_r r a s) (DAddR r a).
Proof.
  intros Hs. pose proof Hs as [_ Hv]. destruct (add_r_im s r a) as (Ed & El & Eu & Hf & Hl & Hu).
  apply (plain_step _ _ _ a); [done | done | | | | |].
  - intros i. rewrite El, Eu. apply Hv.
  - intros i Hi. rewrite El, Eu. split_and!; [done | done | by apply Hf].
  - intros env i Hi. cbn. by rewrite fn_lookup_insert_ne.
  - intros env He. cbn [astep]. rewrite fn_lookup_insert. destruct (He a). split; auto.
  - intros C env He. cbn [astep]. rewrite fn_lookup_insert. destruct (He a) as [Dl Du].
    split; [rewrite El; intros Hd; apply Hl, Dl | rewrite Eu; intros Hd; apply Hu, Du];
      intros v Hlv; apply Hd; by rewrite Ed.
Qed.

Lemma power_rule_unary (s : imstate num) a n bd :
  bd = m_lower_combine (interval_manager.power_jst s a n) \/ bd = m_upper_combine (interval_manager.power_jst s a n) ->
  dep_in_lower2 bd = false /\ dep_in_upper2 bd = false.
Proof.
  unfold interval_manager.power_jst.
  destruct (n =? 1)%nat, (Nat.even n), (interval_manager.lower_is_pos s a), (interval_manager.upper_is_neg s a),
    (interval_manager.lower_is_inf s a), (interval_manager.upper_is_inf s a); by intros [->| ->].
Qed.

Lemma binary_step f j a b c (o : dop) (g : R -> R -> R) s : dwf s ->
  (forall i, i <> c -> same_at (di_im s) (f (di_im s)) i) ->
  (forall x y, justified (di_im s) (f (di_im s)) j a b c x y (g x y)) ->
  (forall env, astep o env = <[c:=g (env a) (env b)]> env) ->
  exists s', add_deps a b j c (on_im f s) = Some s' /\ step_ok s s' o.
Proof.
  intros Hs Hf Hj Ha. destruct (add_deps_ok f j a b c s Hs) as (s' & E & D).
  exists s'. split; [done|]. by apply (op_step s f j a b c o s' g).
Qed.

(** The rule as one for two operands. *)
Lemma power_pair_justified (s : imstate num) a n b x y : (0 < n)%nat ->
  justified s (interval_manager.power a n b s) (interval_manager.power_jst s a n) a a b x y (x ^ n).
Proof.
  intros Hn. pose proof (power_justified (val := val) s a n b x Hn (or_introl precise)) as [Jl Ju].
  destruct (power_rule_unary s a n _ (or_introl eq_refl)) as [A1 A2].
  destruct (power_rule_unary s a n _ (or_intror eq_refl)) as [B1 B2].
  split; intros (D1 & D2 & D3 & D4); [apply Jl | apply Ju]; split_and!; try done; intros F; congruence.
Qed.
Lemma power_step s a n b : dwf s -> (0 < n)%nat ->
  exists s', power true a n b s = Some s' /\ step_ok s s' (DPower a n b).
Proof.
  intros Hs Hn. unfold power. destruct ((n =? 1)%nat && bool_decide (a = b)) eqn:E1.
  { apply andb_true_iff in E1 as [->%Nat.eqb_eq ->%bool_decide_eq_true]. exists s. split; [done|].
    assert (Same : forall (env : loc -> R) i, astep (DPower b 1 b) env i = env i).
    { intros env i. cbn. destruct (decide (i = b)) as [->|]; [|by rewrite fn_lookup_insert_ne].
      by rewrite fn_lookup_insert, Rmult_1_r. }
    split; [done | |]; intros *; intros Hc i; rewrite Same; apply Hc. }
  destruct (add_deps1_ok (interval_manager.power a n b) (interval_manager.power_jst (di_im s) a n) a b s Hs
    (power_rule_unary _ _ _)) as (s' & E & D).
  exists s'. split; [done|]. apply (op_step _ _ _ _ _ _ _ _ (fun x _ => x ^ n) Hs D); [| |done].
  - intros i Hi. by apply power_frame.
  - intros x y. by apply power_pair_justified.
Qed.

(** Each operation returns, keeps the invariants and is justified, or the assertion of [div] fails. *)
Definition step_result (s : state) (o : dop) (r : option state) : Prop :=
  match r with
  | Some s' => step_ok s s' o
  | None => exists a b c, o = DDiv a b c /\ member (di_im s) b 0
  end.

Lemma exec_step o s env : dwf s -> consistent s env -> op_ok o ->
  exists r, exec o s = Some r /\ step_result s o r.
Proof.
  intros Hs He Hop.
  assert (Inv : forall i, interval_manager.check_invariant (di_im s) i = true) by (intros; eapply member_invariant, He).
  destruct o as [a b c|a b c|a b c|a n b|r a b|r a|a b]; cbn [exec].
  - destruct (binary_step (interval_manager.add a b c) (interval_manager.add_jst (di_im s) a b) a b c
      (DAdd a b c) Rplus s Hs) as (s' & E & D); [by apply add_frame | by intros; apply add_justified | done |].
    unfold add. rewrite E. by exists (Some s').
  - destruct (binary_step (interval_manager.mul a b c) (interval_manager.mul_jst (di_im s) a b) a b c
      (DMul a b c) Rmult s Hs) as (s' & E & D); [by apply mul_frame | by intros; apply mul_justified | done |].
    unfold mul. rewrite E. by exists (Some s').
  - destruct (interval_manager.contains_zero (di_im s) b) eqn:Z.
    { eexists. split; [done|]. exists a, b, c. split; [done|]. by apply contains_zero_iff. }
    destruct (binary_step (interval_manager.div a b c) (interval_manager.div_jst (di_im s) a b) a b c
      (DDiv a b c) Rdiv s Hs) as (s' & E & D); [by apply div_frame | by intros; apply div_justified | done |].
    unfold div. rewrite E. by exists (Some s').
  - destruct (power_step s a n b Hs Hop) as (s' & -> & D). by exists (Some s').
  - eexists. split; [done|]. by apply mul_r_step.
  - eexists. split; [done|]. by apply add_r_step.
  - eexists. split; [done|]. by apply set_step.
Qed.

Lemma program_ok l s env : dwf s -> consistent s env -> Forall op_ok l ->
  exists r, exec_all l s = Some r /\ forall s', r = Some s' ->
    dwf s' /\ consistent s' (asteps l env) /\ forall C e, all_ok C s e -> all_ok C s' (asteps l e).
Proof.
  revert s env. induction l as [|o l IH]; intros s env Hs He Hl.
  { exists (Some s). split; [done|]. by intros s' [= <-]. }
  apply list.Forall_cons in Hl as [Ho Hl]. cbn [exec_all].
  destruct (exec_step o s env Hs He Ho) as ([s1|] & -> & Hr); cbn [mbind option_bind]; [|by exists None].
  destruct Hr as [W1 C1 O1]. destruct (IH s1 (astep o env) W1 (C1 _ He) Hl) as (r & E & Hr).
  exists r. split; [done|]. intros s' ->. destruct (Hr s' eq_refl) as (? & ? & Ok). split_and!; [done | done |].
  intros C e Hk. by apply Ok, O1.
Qed.

(** *** Conflicts *)

Lemma separated_lower_iff s i :
  separated_from_zero_on_lower s i = false <-> lower_ok (di_im s) i 0.
Proof.
  unfold separated_from_zero_on_lower, lower_is_inf, IntervalProofs.lower_ok, interval_manager.lower_kind.
  destruct (interval_manager.lower_is_inf _ _); [done|]. rewrite <- contains_lower_iff.
  unfold ext_numeral.is_neg, ext_numeral.is_zero. simpl. unfold lower, lower_is_open.
  destruct (m_is_neg _); [done|]. simpl. by destruct (m_is_zero _ && _).
Qed.
Lemma separated_upper_iff s i :
  separated_from_zero_on_upper s i = false <-> upper_ok (di_im s) i 0.
Proof.
  unfold separated_from_zero_on_upper, upper_is_inf, IntervalProofs.upper_ok, interval_manager.upper_kind.
  destruct (interval_manager.upper_is_inf _ _); [done|]. rewrite <- contains_upper_iff.
  unfold ext_numeral.is_pos, ext_numeral.is_zero. simpl. unfold upper, upper_is_open.
  destruct (m_is_pos _); [done|]. simpl. by destruct (m_is_zero _ && _).
Qed.

Lemma linearize_ok d expl s : dwf s -> valid (di_deps s) d ->
  exists l s', linearize d expl s = Some (expl ++ l, s') /\ dwf s' /\ deps_only s s' /\
    forall v, v ∈ l <-> leaves (di_deps s) d v.
Proof.
  intros [Hwf Hv] Hd. destruct (linearize_spec (di_deps s) d [] Hwf Hd) as (l & E & Hl).
  unfold linearize. rewrite E. cbn [mbind option_bind app]. eexists l, _. split; [done|].
  split; [|split; [|done]]; destruct d; done.
Qed.

(** The join of a justification with the one of a bound, listed. *)
Lemma explain_ok (sel : state -> dependency) dep s : dwf s -> valid (di_deps s) dep -> valid (di_deps s) (sel s) ->
  exists expl s', ('(d, s) ← mk_join dep (sel s) s; '(expl, s) ← linearize d [] s; Some (Some expl, s)) =
    Some (Some expl, s') /\ dwf s' /\ deps_only s s' /\
    forall C, (forall v, v ∈ expl -> C v) <-> holds C s dep /\ holds C s (sel s).
Proof.
  intros Hs Vd Vs. destruct (mk_join_ok dep (sel s) s Hs Vd Vs) as (d & s1 & -> & W1 & D1 & V1 & H1).
  cbn [mbind option_bind]. destruct (linearize_ok d [] s1 W1 V1) as (l & s2 & -> & W2 & D2 & Hl).
  cbn [mbind option_bind app]. exists l, s2. split_and!; [done | done | by etrans |].
  intros C. rewrite <- H1. unfold holds. split; intros Hc v Hv; by apply Hc, Hl.
Qed.

Definition conflict_result (s : state) (i : loc) (dep : dependency) (r : option (list Z)) : Prop :=
  match r with
  | None => member (di_im s) i 0
  | Some expl => ~ member (di_im s) i 0 /\ forall C x, (forall v, v ∈ expl -> C v) -> dep_ok C s i x -> holds C s dep /\ x <> 0
  end.

Lemma check_conflict_ok i dep s : dwf s -> valid (di_deps s) dep ->
  exists r s', check_interval_for_conflict_on_zero i dep s = Some (r, s') /\ dwf s' /\ deps_only s s' /\
    conflict_result s i dep r.
Proof.
  intros Hs Hd. pose proof Hs as [_ Hv]. destruct (Hv i) as [Vl Vu].
  unfold check_interval_for_conflict_on_zero, check_interval_for_conflict_on_zero_lower.
  pose proof (separated_lower_iff s i) as Sl. pose proof (separated_upper_iff s i) as Su.
  destruct (separated_from_zero_on_lower s i); cbn [negb].
  - destruct (explain_ok (fun s => m_lower_dep s i) dep s Hs Hd Vl) as (expl & s1 & -> & W & D & H).
    cbn [mbind option_bind]. exists (Some expl), s1. split; [done|]. split; [done|]. split; [done|]. split.
    + intros [Hl _]. by apply Sl in Hl.
    + intros C x Hx [Dl _]. apply H in Hx as [H1 H2]. split; [done|]. intros ->.
      specialize (Dl H2). by apply Sl in Dl.
  - cbn [mbind option_bind]. unfold check_interval_for_conflict_on_zero_upper.
    destruct (separated_from_zero_on_upper s i); cbn [negb].
    + destruct (explain_ok (fun s => m_upper_dep s i) dep s Hs Hd Vu) as (expl & s1 & -> & W & D & H).
      exists (Some expl), s1. split; [done|]. split; [done|]. split; [done|]. split.
      * intros [_ Hu]. by apply Su in Hu.
      * intros C x Hx [_ Du]. apply H in Hx as [H1 H2]. split; [done|]. intros ->.
        specialize (Du H2). by apply Su in Du.
    + exists None, s. split; [done|]. split; [done|]. split; [done|]. split; [by apply Sl | by apply Su].
Qed.

(** *** Intersections *)

Lemma lower_ok_order (s : imstate num) a b x : interval_manager.lower_is_inf s a = false ->
  (interval_manager.lower_is_inf s b = true \/ val (interval_manager.lower s b) < val (interval_manager.lower s a) \/
   (val (interval_manager.lower s b) = val (interval_manager.lower s a) /\
    (interval_manager.lower_is_open s a = true \/ interval_manager.lower_is_open s b = false))) ->
  lower_ok s a x -> lower_ok s b x.
Proof.
  unfold IntervalProofs.lower_ok, interval_manager.lower_kind. intros -> H. simpl. intros Ha.
  destruct (interval_manager.lower_is_inf s b); [done|]. simpl. destruct H as [H|[H|[H Ho]]]; [done | |].
  - apply le_o_le in Ha. apply le_o_weaken. lra.
  - rewrite H. revert Ho Ha. destruct (interval_manager.lower_is_open s a), (interval_manager.lower_is_open s b);
      simpl; intros [] ?; try done; lra.
Qed.
Lemma upper_ok_order (s : imstate num) a b x : interval_manager.upper_is_inf s a = false ->
  (interval_manager.upper_is_inf s b = true \/ val (interval_manager.upper s a) < val (interval_manager.upper s b) \/
   (val (interval_manager.upper s b) = val (interval_manager.upper s a) /\
    (interval_manager.upper_is_open s a = true \/ interval_manager.upper_is_open s b = false))) ->
  upper_ok s a x -> upper_ok s b x.
Proof.
  unfold IntervalProofs.upper_ok, interval_manager.upper_kind. intros -> H. simpl. intros Ha.
  destruct (interval_manager.upper_is_inf s b); [done|]. simpl. destruct H as [H|[H|[H Ho]]]; [done | |].
  - apply le_o_le in Ha. apply le_o_weaken. lra.
  - rewrite H. revert Ho Ha. destruct (interval_manager.upper_is_open s a), (interval_manager.upper_is_open s b);
      simpl; intros [] ?; try done; lra.
Qed.

Lemma lt_cases (v w : num) : (m_lt v w = true /\ val v < val w) \/ (m_lt v w = false /\ m_gt v w = true /\ val w < val v) \/
  (m_lt v w = false /\ m_gt v w = false /\ val v = val w).
Proof.
  unfold m_gt. destruct (m_lt v w) eqn:E1; [left; split; [done | by apply val_lt]|].
  destruct (m_lt w v) eqn:E2; [right; left; split_and!; [done | done | by apply val_lt]|].
  right; right. split_and!; [done | done |]. apply not_true_iff_false in E1, E2.
  rewrite (val_lt (val := val)) in E1, E2. lra.
Qed.

(** The tighter of the two lower bounds is copied, or both are infinite. *)
Lemma update_lower_choice a b i (s : state) :
  (update_lower_for_intersection true a b i s = s /\ lower_is_inf s a = true /\ lower_is_inf s b = true) \/
  exists c, (c = a \/ c = b) /\ update_lower_for_intersection true a b i s = copy_lower_bound true c i s /\
    lower_is_inf s c = false /\ forall x, lower_ok (di_im s) c x -> lower_ok (di_im s) a x /\ lower_ok (di_im s) b x.
Proof.
  unfold update_lower_for_intersection. destruct (lower_is_inf s a) eqn:Ia, (lower_is_inf s b) eqn:Ib.
  - by left.
  - right. exists b. split_and!; auto. intros x Hx. split; [|done]. eapply lower_ok_order; [exact Ib | by left | done].
  - right. exists a. split_and!; auto. intros x Hx. split; [done|]. eapply lower_ok_order; [exact Ia | by left | done].
  - right. destruct (lt_cases (lower s a) (lower s b)) as [[-> V]|[(-> & -> & V)|(-> & -> & V)]].
    + exists b. split_and!; auto. intros x Hx. split; [|done]. eapply lower_ok_order; [exact Ib | by right; left | done].
    + exists a. split_and!; auto. intros x Hx. split; [done|]. eapply lower_ok_order; [exact Ia | by right; left | done].
    + destruct (lower_is_open s a) eqn:O; [exists a | exists b]; split_and!; auto; intros x Hx; split; try done.
      * eapply lower_ok_order; [exact Ia | right; right; split; [by symmetry | by left] | done].
      * eapply lower_ok_order; [exact Ib | right; right; split; [done | by right] | done].
Qed.
Lemma update_upper_choice a b i (s : state) :
  (update_upper_for_intersection true a b i s = s /\ upper_is_inf s a = true /\ upper_is_inf s b = true) \/
  exists c, (c = a \/ c = b) /\ update_upper_for_intersection true a b i s = copy_upper_bound true c i s /\
    upper_is_inf s c = false /\ forall x, upper_ok (di_im s) c x -> upper_ok (di_im s) a x /\ upper_ok (di_im s) b x.
Proof.
  unfold update_upper_for_intersection. destruct (upper_is_inf s a) eqn:Ia, (upper_is_inf s b) eqn:Ib.
  - by left.
  - right. exists b. split_and!; auto. intros x Hx. split; [|done]. eapply upper_ok_order; [exact Ib | by left | done].
  - right. exists a. split_and!; auto. intros x Hx. split; [done|]. eapply upper_ok_order; [exact Ia | by left | done].
  - right. destruct (lt_cases (upper s b) (upper s a)) as [[E V]|[(E & F & V)|(E & F & V)]];
      unfold m_gt in *; rewrite E; try rewrite F.
    + exists b. split_and!; auto. intros x Hx. split; [|done]. eapply upper_ok_order; [exact Ib | by right; left | done].
    + exists a. split_and!; auto. intros x Hx. split; [done|]. eapply upper_ok_order; [exact Ia | by right; left | done].
    + destruct (upper_is_open s a) eqn:O; [exists a | exists b]; split_and!; auto; intros x Hx; split; try done.
      * eapply upper_ok_order; [exact Ia | right; right; split; [done | by left] | done].
      * eapply upper_ok_order; [exact Ib | right; right; split; [by symmetry | by right] | done].
Qed.

(** What updating the lower bounds leaves unchanged, and dually. *)
Definition lowers_only (i : loc) (s s' : state) : Prop :=
  di_deps s' = di_deps s /\ m_upper_dep s' = m_upper_dep s /\
  (forall j x, upper_ok (di_im s') j x <-> upper_ok (di_im s) j x) /\
  (forall j, upper_is_inf s' j = upper_is_inf s j) /\
  forall j, j <> i -> m_lower_dep s' j = m_lower_dep s j /\ same_at (di_im s) (di_im s') j.
Definition uppers_only (i : loc) (s s' : state) : Prop :=
  di_deps s' = di_deps s /\ m_lower_dep s' = m_lower_dep s /\
  (forall j x, lower_ok (di_im s') j x <-> lower_ok (di_im s) j x) /\
  forall j, j <> i -> m_upper_dep s' j = m_upper_dep s j /\ same_at (di_im s) (di_im s') j.

Lemma copy_lower_only c i (s : state) : lowers_only i s (copy_lower_bound true c i s).
Proof.
  split_and!; try done. intros j Hj. cbn. rewrite !fn_lookup_insert_ne by done. split; [done|].
  unfold same_at. cbn. by rewrite !fn_lookup_insert_ne by done.
Qed.
Lemma copy_upper_only c i (s : state) : uppers_only i s (copy_upper_bound true c i s).
Proof.
  split_and!; try done. intros j Hj. cbn. rewrite !fn_lookup_insert_ne by done. split; [done|].
  unfold same_at. cbn. by rewrite !fn_lookup_insert_ne by done.
Qed.
Lemma copy_lower_at c i (s : state) : lower_is_inf s c = false ->
  m_lower_dep (copy_lower_bound true c i s) i = m_lower_dep s c /\
  forall x, lower_ok (di_im (copy_lower_bound true c i s)) i x <-> lower_ok (di_im s) c x.
Proof.
  intros Hc. split; [cbn; by rewrite fn_lookup_insert|]. intros x. unfold lower_is_inf in Hc.
  unfold IntervalProofs.lower_ok, interval_manager.lower_kind. rewrite Hc. cbn. rewrite !fn_lookup_insert.
  unfold fn_insert. by destruct (decide (i = c)) as [->|].
Qed.
Lemma copy_upper_at c i (s : state) : upper_is_inf s c = false ->
  m_upper_dep (copy_upper_bound true c i s) i = m_upper_dep s c /\
  forall x, upper_ok (di_im (copy_upper_bound true c i s)) i x <-> upper_ok (di_im s) c x.
Proof.
  intros Hc. split; [cbn; by rewrite fn_lookup_insert|]. intros x. unfold upper_is_inf in Hc.
  unfold IntervalProofs.upper_ok, interval_manager.upper_kind. rewrite Hc. cbn. rewrite !fn_lookup_insert.
  unfold fn_insert. by destruct (decide (i = c)) as [->|].
Qed.

Lemma update_lower_ok a b i (s : state) : i = a \/ i = b \/ lower_is_inf s i = true ->
  let s' := update_lower_for_intersection true a b i s in
  lowers_only i s s' /\ (forall x, lower_ok (di_im s') i x <-> lower_ok (di_im s) a x /\ lower_ok (di_im s) b x) /\
  forall C x, (holds C s (m_lower_dep s a) -> lower_ok (di_im s) a x) -> (holds C s (m_lower_dep s b) -> lower_ok (di_im s) b x) ->
    holds C s (m_lower_dep s' i) -> lower_ok (di_im s') i x.
Proof.
  intros Hi. destruct (update_lower_choice a b i s) as [(-> & Ia & Ib)|(c & Hc & -> & Ic & H)]; cbv zeta.
  - assert (T : forall j x, lower_is_inf s j = true -> lower_ok (di_im s) j x).
    { intros j x E. unfold lower_is_inf in E. unfold IntervalProofs.lower_ok, interval_manager.lower_kind. by rewrite E. }
    assert (Ii : lower_is_inf s i = true) by (destruct Hi as [->|[->|?]]; done).
    split_and!; try done; [|intros; by apply T]. intros x. split; intros; [split|]; by apply T.
  - destruct (copy_lower_at c i s Ic) as [Ed Hx]. split; [apply copy_lower_only|]. split.
    + intros x. rewrite Hx. split; [apply H|]. intros []. destruct Hc; by subst.
    + intros C x Ha Hb. rewrite Ed, Hx. destruct Hc as [->| ->]; auto.
Qed.
Lemma update_upper_ok a b i (s : state) : i = a \/ i = b \/ upper_is_inf s i = true ->
  let s' := update_upper_for_intersection true a b i s in
  uppers_only i s s' /\ (forall x, upper_ok (di_im s') i x <-> upper_ok (di_im s) a x /\ upper_ok (di_im s) b x) /\
  forall C x, (holds C s (m_upper_dep s a) -> upper_ok (di_im s) a x) -> (holds C s (m_upper_dep s b) -> upper_ok (di_im s) b x) ->
    holds C s (m_upper_dep s' i) -> upper_ok (di_im s') i x.
Proof.
  intros Hi. destruct (update_upper_choice a b i s) as [(-> & Ia & Ib)|(c & Hc & -> & Ic & H)]; cbv zeta.
  - assert (T : forall j x, upper_is_inf s j = true -> upper_ok (di_im s) j x).
    { intros j x E. unfold upper_is_inf in E. unfold IntervalProofs.upper_ok, interval_manager.upper_kind. by rewrite E. }
    assert (Ii : upper_is_inf s i = true) by (destruct Hi as [->|[->|?]]; done).
    split_and!; try done; [|intros; by apply T]. intros x. split; intros; [split|]; by apply T.
  - destruct (copy_upper_at c i s Ic) as [Ed Hx]. split; [apply copy_upper_only|]. split.
    + intros x. rewrite Hx. split; [apply H|]. intros []. destruct Hc; by subst.
    + intros C x Ha Hb. rewrite Ed, Hx. destruct Hc as [->| ->]; auto.
Qed.

(** The result is a fresh interval or one of the operands. *)
Definition intersect_pre (s : state) (a b i : loc) : Prop :=
  i = a \/ i = b \/ (lower_is_inf s i = true /\ upper_is_inf s i = true).

Lemma intersect_ok a b i (s : state) : intersect_pre s a b i ->
  let s' := intersect true a b i s in
  di_deps s' = di_deps s /\
  (forall x, member (di_im s') i x <-> member (di_im s) a x /\ member (di_im s) b x) /\
  (forall C x, dep_ok C s a x -> dep_ok C s b x -> dep_ok C s' i x) /\
  forall j, j <> i -> m_lower_dep s' j = m_lower_dep s j /\ m_upper_dep s' j = m_upper_dep s j /\
    same_at (di_im s) (di_im s') j.
Proof.
  intros Hi. cbv zeta. unfold intersect. set (s1 := update_lower_for_intersection true a b i s).
  destruct (update_lower_ok a b i s) as ((E1 & E2 & U1 & U2 & F1) & M1 & D1); [destruct Hi as [?|[?|[]]]; auto|].
  fold s1 in E1, E2, U1, U2, F1, M1, D1. set (s2 := update_upper_for_intersection true a b i s1).
  destruct (update_upper_ok a b i s1) as ((G1 & G2 & V1 & F2) & M2 & D2);
    [rewrite U2; destruct Hi as [?|[?|[]]]; auto|]. fold s2 in G1, G2, V1, F2, M2, D2.
  split_and!.
  - congruence.
  - intros x. unfold IntervalProofs.member. rewrite V1, M1, M2, !U1. tauto.
  - intros C x [La Ua] [Lb Ub]. assert (Hh : forall d, holds C s2 d <-> holds C s d) by (intros d; unfold holds; by rewrite G1, E1).
    assert (Hh1 : forall d, holds C s1 d <-> holds C s d) by (intros d; unfold holds; by rewrite E1).
    split; rewrite Hh; intros Hd.
    + rewrite V1. rewrite G2 in Hd. by apply D1 with C.
    + apply D2 with C; [rewrite Hh1, E2, U1; auto | rewrite Hh1, E2, U1; auto | by rewrite Hh1].
  - intros j Hj. destruct (F1 j Hj) as [A1 A2], (F2 j Hj) as [B1 B2]. rewrite G2, B1, E2. split_and!; [done | done |].
    destruct A2 as (?&?&?&?&?&?), B2 as (?&?&?&?&?&?). split_and!; congruence.
Qed.

Lemma is_empty_iff (s : state) a : is_empty s a = true <-> forall x, ~ member (di_im s) a x.
Proof.
  assert (E : is_empty s a = negb (interval_manager.check_invariant (di_im s) a)).
  { unfold is_empty, interval_manager.check_invariant, interval_manager.lower_kind, interval_manager.upper_kind.
    unfold lower_is_inf, upper_is_inf.
    destruct (interval_manager.lower_is_inf _ _), (interval_manager.upper_is_inf _ _); try done.
    simpl. unfold lower, upper, lower_is_open, upper_is_open, ext_numeral.eq, ext_numeral.lt. simpl.
    destruct (m_eq _ _) eqn:Em.
    - apply (val_eq (val := val)) in Em. destruct (lt_cases (interval_manager.lower (di_im s) a) (interval_manager.upper (di_im s) a))
        as [[_ V]|[(_ & _ & V)|(-> & -> & _)]]; [lra | lra |].
      by destruct (interval_manager.lower_is_open _ _), (interval_manager.upper_is_open _ _).
    - destruct (lt_cases (interval_manager.lower (di_im s) a) (interval_manager.upper (di_im s) a))
        as [[-> V]|[(-> & -> & V)|(_ & _ & V)]].
      + replace (m_gt _ _) with false; [done|]. symmetry. apply not_true_iff_false. unfold m_gt.
        rewrite (val_lt (val := val)). lra.
      + done.
      + exfalso. apply not_true_iff_false in Em. apply Em. by apply (val_eq (val := val)). }
  rewrite E, negb_true_iff. split.
  - intros Hc x Hx. apply member_invariant in Hx. congruence.
  - intros Hn. apply not_true_iff_false. intros (x & Hx)%(invariant_member (val := val)). by apply (Hn x).
Qed.
End Proofs.
