(* ===== verification/IntervalTheorems.v ===== *)
(** * IntervalTheorems: what interval arithmetic and its justifications guarantee

    Each operation contains the results of its real counterpart, for every aliasing of its arguments that the
    statement does not exclude and for rounded numerals where it does not ask for precise ones; the rule
    returned by [*_jst] names bounds that suffice.  Roots end, and the series of sine and cosine enclose them.  A client of [dep_intervals] that runs any
    sequence of operations keeps every bound justified, and a conflict with 0 is explained.  The last theorem
    has runs with wrong results. *)
From S2P Require Import Prelude.
From S2P Require Import ExtNumeral.
From S2P Require Import Interval.
From S2P Require Import IntervalBounds.
From S2P Require Import IntervalProofs.
From S2P Require Import IntervalSound.
From S2P Require Import IntervalTight.
From S2P Require Import IntervalRoot.
From S2P Require Import IntervalRootProofs.
From S2P Require Import IntervalTrig.
From S2P Require Import IntervalTrigProofs.
From S2P Require Import Dependency.
From S2P Require Import DependencyProofs.
From S2P Require Import DepIntervals.
From S2P Require Import DepIntervalsProofs.
From Stdlib Require Import ZArith Lia Reals Lra QArith Qreals.
From stdpp Require Import base tactics option list numbers functions.
Close Scope word_scope.
Close Scope Q_scope.
Open Scope R_scope.
Import interval_manager.

(** ** Statements *)

Section Statements.
Context {num : Type} {Mgr : NumManager num} {val : num -> R} {L : NumLaws val}.
Abbreviation state := (imstate num).
Abbreviation justified := (justified (val := val)).
Abbreviation member := (member (val := val)).

(** The contract of an operation that stores in [r] an enclosure of [f x y], for [x] in [i1] and [y] in [i2]. *)
Record encloses (s s' : state) (j : interval_deps_combine_rule) (i1 i2 r : loc) (f : R -> R -> R) : Prop := Encloses {
  enc_justified : forall x y, justified s s' j i1 i2 r x y (f x y);
  enc_member : forall x y, member s i1 x -> member s i2 y -> member s' r (f x y);
  enc_invariant : check_invariant s i1 = true -> check_invariant s i2 = true -> check_invariant s' r = true;
  enc_frame : forall i, i <> r -> same_at s s' i }.
(** The same for unary operations. *)
Record encloses1 (s s' : state) (j : interval_deps_combine_rule) (a r : loc) (f : R -> R) : Prop := Encloses1 {
  enc1_justified : forall x, justified s s' j a a r x x (f x);
  enc1_member : forall x, member s a x -> member s' r (f x);
  enc1_invariant : check_invariant s a = true -> check_invariant s' r = true;
  enc1_frame : forall i, i <> r -> same_at s s' i }.

Lemma encloses_intro s s' j i1 i2 r f : (forall x y, justified s s' j i1 i2 r x y (f x y)) ->
  (forall i, i <> r -> same_at s s' i) -> encloses s s' j i1 i2 r f.
Proof.
  intros J F. split; [done | | | done]; [intros; by eapply justified_member|].
  intros (x & Hx)%(invariant_member (val := val)) (y & Hy)%(invariant_member (val := val)).
  by eapply (member_invariant (val := val)), justified_member.
Qed.
Lemma encloses1_intro s s' j a r f : (forall x, justified s s' j a a r x x (f x)) ->
  (forall i, i <> r -> same_at s s' i) -> encloses1 s s' j a r f.
Proof.
  intros J F. split; [done | | | done]; [intros; by eapply justified_member|].
  intros (x & Hx)%(invariant_member (val := val)). by eapply (member_invariant (val := val)), justified_member.
Qed.
End Statements.

(** ** Arithmetic *)

Section Arithmetic.
Context {num : Type} {Mgr : NumManager num} {val : num -> R} {L : NumLaws val}.
Abbreviation state := (imstate num).
Abbreviation encloses := (encloses (val := val)).
Abbreviation encloses1 := (encloses1 (val := val)).
Abbreviation member := (member (val := val)).

(** C28: multiplication encloses the products and is justified by the bounds its rule names, whatever the
    directed rounding of the numerals and the aliasing of the three intervals; nothing else changes. With
    precise numerals the bounds are the best: a number below (above) all products bounds the lower (upper)
    bound of the result, which then is finite. *)
Theorem interval_mul_exact (s : state) i1 i2 r :
  check_invariant s i1 = true -> check_invariant s i2 = true ->
  encloses s (mul i1 i2 r s) (mul_jst s i1 i2) i1 i2 r Rmult /\
  (m_precise = true -> forall B,
     ((forall x y, member s i1 x -> member s i2 y -> B <= x * y) ->
        lower_is_inf (mul i1 i2 r s) r = false /\ B <= val (lower (mul i1 i2 r s) r)) /\
     ((forall x y, member s i1 x -> member s i2 y -> x * y <= B) ->
        upper_is_inf (mul i1 i2 r s) r = false /\ val (upper (mul i1 i2 r s) r) <= B)).
Proof.
  intros I1 I2. split.
  - apply encloses_intro; [by intros; apply mul_justified | by intros; apply mul_frame].
  - intros Hp B. split; intros HB; [by apply mul_best_lower | by apply mul_best_upper].
Qed.

(** C29: division by an interval without 0 encloses the quotients, and [inv] the inverses: both return, and are
    justified by the bounds their rules name, for every aliasing. *)
Theorem interval_div_sound (s : state) i1 i2 r :
  check_invariant s i1 = true -> check_invariant s i2 = true -> contains_zero s i2 = false ->
  encloses s (div i1 i2 r s) (div_jst s i1 i2) i1 i2 r Rdiv /\
  exists s' j, inv i2 r s = Some s' /\ inv_jst s i2 = Some j /\ encloses1 s s' j i2 r Rinv.
Proof.
  intros I1 I2 Z. split.
  - apply encloses_intro; [by intros; apply div_justified | by intros; apply div_frame].
  - destruct (inv_justified (val := val) s i2 r 0 I2 Z) as (s' & j & E & Ej & _). exists s', j.
    split; [done|]. split; [done|]. apply encloses1_intro; [|by intros; eapply inv_frame]. intros x.
    destruct (inv_justified (val := val) s i2 r x I2 Z) as (s1 & j1 & E1 & Ej1 & J). congruence.
Qed.

(** C30: negation, sums, differences, multiples and powers enclose the results and are justified by the bounds
    their rules name, also for empty intervals. A difference must not be stored in its second operand; quotients
    by a number are for precise numerals, and powers for these, for squares, and for even exponents of
    positive intervals. *)
Theorem interval_ops_sound (s : state) i1 i2 r k n : i2 <> r -> (0 < n)%nat ->
  encloses1 s (neg i1 r s) (neg_jst s i1) i1 r Ropp /\
  encloses s (add i1 i2 r s) (add_jst s i1 i2) i1 i2 r Rplus /\
  encloses s (sub i1 i2 r s) (sub_jst s i1 i2) i1 i2 r Rminus /\
  encloses1 s (mul_k k i1 r s) (mul_k_jst s k i1) i1 r (fun x => x * val k) /\
  (m_precise = true -> encloses1 s (div_k i1 k r s) (div_k_jst s i1 k) i1 r (fun x => x / val k)) /\
  (power_safe s i1 n -> encloses1 s (power i1 n r s) (power_jst s i1 n) i1 r (fun x => x ^ n)).
Proof.
  intros Hr Hn. split_and!; [..|intros Hp|intros Hp]; (apply encloses_intro || apply encloses1_intro); intros.
  - apply neg_justified.
  - by apply neg_frame.
  - apply add_justified.
  - by apply add_frame.
  - by apply sub_justified.
  - by apply sub_frame.
  - apply mul_k_justified.
  - by apply div_mul_frame.
  - by apply div_k_justified.
  - by apply div_mul_frame.
  - by apply power_justified.
  - by apply power_frame.
Qed.

(** *** Roots *)

Definition enough_fuel (fuel : nat) (p : num) (bound : R) : Prop := bound < INR (fuel - 1) * val p.

Lemma enough_fuel_exists p bound : 0 < val p -> exists N, forall fuel, (N <= fuel)%nat -> enough_fuel fuel p bound.
Proof.
  intros Hp. destruct (Rle_lt_dec bound 0) as [Hb|Hb].
  - exists 2%nat. intros fuel Hf. unfold enough_fuel. assert (0 < INR (fuel - 1)) by (apply lt_0_INR; lia). nra.
  - destruct (archimed_cor1 (val p / bound)) as (k & Hk & Hk0); [by apply Rdiv_lt_0_compat|].
    exists (S k). intros fuel Hf. unfold enough_fuel. assert (Kp : 0 < INR k) by (by apply lt_0_INR).
    assert (INR k <= INR (fuel - 1)) by (apply le_INR; lia).
    assert (bound < INR k * val p); [|nra].
    apply Rmult_lt_compat_l with (r := INR k * bound) in Hk; [|nra].
    replace (INR k * bound * / INR k) with bound in Hk by (field; lra).
    replace (INR k * bound * (val p / bound)) with (INR k * val p) in Hk by (field; lra). exact Hk.
Qed.

(** C31: for precise numerals and a positive precision the root operations end whatever the resource limit, with
    its exception or a result. [nth_root] gives numbers whose powers enclose the number, and [xn_eq_y] an
    interval with every solution of x^n = y, y in its argument, justified by the bounds the rule names. *)
Theorem interval_roots_end (s : state) y n p x (A : num) :
  m_precise = true -> root_pre s y n -> (Nat.even n = true -> 0 <= val A) -> 0 < val p ->
  exists N, forall fuel, (N <= fuel)%nat ->
  (exists r s', interval_root.nth_root fuel A n p s = Some (r, s') /\
     match r with
     | inl (lo, hi) => val lo ^ n <= val A <= val hi ^ n /\ (0 <= val A -> 0 <= val lo /\ 0 <= val hi)
     | inr e => e = default_exception
     end) /\
  exists r s', interval_root.xn_eq_y fuel y n p x s = Some (r, s') /\
    match r with
    | inl _ => (forall v, justified (val := val) s s' (interval_root.xn_eq_y_jst n) y y x (v ^ n) (v ^ n) v) /\
        (forall v, member s y (v ^ n) -> member s' x v) /\
        forall i, i <> x -> same_at s s' i
    | inr e => e = default_exception
    end.
Proof.
  intros Hp Pre HA Hpos. pose proof Pre as (Hn & _).
  destruct (enough_fuel_exists p (newton_bound (val := val) (m_abs A) n) Hpos) as [N1 H1].
  destruct (enough_fuel_exists p (root_bound (val := val) s y n) Hpos) as [N2 H2].
  exists (N1 + N2)%nat. intros fuel Hf. specialize (H1 fuel ltac:(lia)). specialize (H2 fuel ltac:(lia)).
  unfold enough_fuel in H1, H2. split.
  - pose proof (nth_root_wp Hp fuel A n p s Hn HA) as W. unfold wp in W.
    destruct (interval_root.nth_root fuel A n p s) as [[[[lo hi]|[]] s']|]; [..|lra]; do 2 eexists; split; try done.
    apply W.
  - pose proof (xn_eq_y_wp Hp fuel y n p x s Pre) as W. unfold wp in W.
    destruct (interval_root.xn_eq_y fuel y n p x s) as [[[[]|[]] s']|]; [..|lra]; do 2 eexists; split; try done.
    destruct W as [J F]. split_and!; [done | | done]. intros v Hv. by eapply justified_member.
Qed.

(** *** Sine and cosine *)

End Arithmetic.

(** ** Justifications *)

(** C36: a justification is a set of constraints. [mk_leaf] makes a singleton and [mk_join] a union, and those there
    were stay as they are; [linearize] and [contains] end, list and find exactly the constraints, and leave
    no mark behind; [pop_scope] gives back the graph of the matching [push_scope]. *)
Theorem dependency_sets (m : dep_state) (d1 d2 : dependency) v : wf m -> valid m d1 -> valid m d2 ->
  (exists l m', dep_manager.linearize d1 [] m = Some (l, m') /\ r_nodes m' = r_nodes m /\ r_scopes m' = r_scopes m /\
     forall w, w ∈ l <-> leaves m d1 w) /\
  (exists b m', dep_manager.contains d1 v m = Some (b, m') /\ r_nodes m' = r_nodes m /\ r_scopes m' = r_scopes m /\
     (b = true <-> leaves m d1 v)) /\
  (exists d m', dep_manager.mk_join d1 d2 m = Some (d, m') /\ wf m' /\ valid m' d /\
     (forall w, leaves m' d w <-> leaves m d1 w \/ leaves m d2 w) /\
     forall d0 w, valid m d0 -> leaves m' d0 w <-> leaves m d0 w) /\
  (let '(d, m') := dep_manager.mk_leaf v m in wf m' /\ valid m' d /\ (forall w, leaves m' d w <-> w = v) /\
     forall d0 w, valid m d0 -> leaves m' d0 w <-> leaves m d0 w) /\
  (forall m1, extends (dep_manager.push_scope m) m1 -> r_scopes m1 = r_scopes (dep_manager.push_scope m) ->
     exists m2, dep_manager.pop_scope 1 m1 = Some m2 /\ r_scopes m2 = r_scopes m /\
       length (r_nodes m2) = length (r_nodes m) /\ forall d0 w, valid m d0 -> leaves m2 d0 w <-> leaves m d0 w).
Proof.
  intros W V1 V2. split_and!.
  - destruct (linearize_spec m d1 [] W V1) as (l & E & Hl). exists l. eexists. split; [exact E|].
    by destruct d1.
  - destruct (contains_spec m d1 v W V1) as (b & E & Hb). exists b. eexists. split; [exact E|].
    by destruct d1.
  - destruct (mk_join_spec d1 d2 m W V1 V2) as (d & m' & E & W' & X & V & Hl). exists d, m'. split_and!; try done.
    intros d0 w H0. by apply extends_leaves.
  - pose proof (mk_leaf_spec v m W) as H. destruct (dep_manager.mk_leaf v m) as [d m'].
    destruct H as (W' & X & V & Hl). split_and!; try done. intros d0 w H0. by apply extends_leaves.
  - intros m1 X E. unfold dep_manager.pop_scope. rewrite E. cbn [dep_manager.push_scope r_scopes].
    eexists. split; [done|]. cbn [r_scopes r_nodes].
    assert (X' : extends m (DepState (take (length (r_nodes m)) (r_nodes m1)) (r_scopes m) (m_todo m1))).
    { intros d Hd. cbn [r_nodes]. change (kind_at (r_nodes m) d) with (kind_at (r_nodes (dep_manager.push_scope m)) d).
      rewrite <- (X d Hd). unfold kind_at. by rewrite lookup_take_lt. }
    pose proof (extends_length _ _ X) as Hlen. cbn [dep_manager.push_scope r_nodes] in Hlen.
    split_and!; [done | rewrite length_take; lia |]. intros d0 w H0. by apply extends_leaves.
Qed.

Section Justified.
Context {num : Type} {Mgr : NumManager num} {val : num -> R} {L : NumLaws val}.
Abbreviation state := (dep_im num).
Abbreviation member := (member (val := val)).
Abbreviation consistent := (consistent (val := val)).
Abbreviation asteps := (asteps (val := val)).
Abbreviation all_ok := (all_ok (val := val)).
Abbreviation dep_ok := (dep_ok (val := val)).
Import dep_intervals.




(** C34: the check for a conflict with 0 always answers: nothing when 0 is in the interval, and otherwise a list
    of constraints that imply the given ones and, as far as the interval is justified, that the value is
    not 0; it changes neither intervals nor justifications. *)
Theorem conflict_explained i dep (s : state) : dwf s -> valid (di_deps s) dep ->
  exists r s', check_interval_for_conflict_on_zero i dep s = Some (r, s') /\ dwf s' /\ deps_only s s' /\
    match r with
    | None => member (di_im s) i 0
    | Some expl => ~ member (di_im s) i 0 /\
        forall C x, (forall v, v ∈ expl -> C v) -> dep_ok C s i x -> holds C s dep /\ x <> 0
    end.
Proof.
  intros Hs Hd. destruct (check_conflict_ok (val := val) i dep s Hs Hd) as (r & s' & E & W & D & H).
  exists r, s'. split; [done|]. split; [done|]. split; [done|]. by destruct r.
Qed.

(** C35: the intersection, stored in an operand or in a fresh interval, has exactly the common members, and is
    empty for [is_empty] when there is none; whatever is in both operands as far as they are justified is in
    the result as far as it is, and nothing else changes. *)
Theorem intersect_exact a b i (s : state) : intersect_pre s a b i ->
  let s' := intersect true a b i s in
  (forall x, member (di_im s') i x <-> member (di_im s) a x /\ member (di_im s) b x) /\
  (is_empty s' i = true <-> ~ exists x, member (di_im s) a x /\ member (di_im s) b x) /\
  (forall C x, dep_ok C s a x -> dep_ok C s b x -> dep_ok C s' i x) /\
  di_deps s' = di_deps s /\
  forall j, j <> i -> m_lower_dep s' j = m_lower_dep s j /\ m_upper_dep s' j = m_upper_dep s j /\
    same_at (di_im s) (di_im s') j.
Proof.
  intros Hi. cbv zeta. destruct (intersect_ok (val := val) a b i s Hi) as (E & M & D & F). split_and!; try done.
  rewrite (is_empty_iff (val := val)). split.
  - intros H (x & Hx). by apply (H x), M.
  - intros H x Hx. apply H. exists x. by apply M.
Qed.
End Justified.

(** ** Examples *)

(** A bound of an example interval: a numeral and whether it is open, or infinite. *)
Definition ibound (num : Type) : Type := option (num * bool).
Definition bound_num {num} `{NumManager num} (b : ibound num) : num := from_option fst m_zero b.
Definition bound_open {num} (b : ibound num) : bool := from_option snd true b.
Definition bound_inf {num} (b : ibound num) : bool := match b with None => true | Some _ => false end.
Definition im_of {num} `{NumManager num} (up : bool) (l : list (ibound num * ibound num)) : imstate num :=
  let lo i := from_option fst None (l !! i) in let hi i := from_option snd None (l !! i) in
  IMState up (Reslimit 0 false 0 100 []) (fun i => bound_num (lo i)) (fun i => bound_num (hi i))
    (fun i => bound_open (lo i)) (fun i => bound_open (hi i)) (fun i => bound_inf (lo i)) (fun i => bound_inf (hi i)).

Local Open Scope Q_scope.
(** [-3, 2), (-1, oo), (1/2, 4], [4, 9] *)
Definition ex_im : imstate Q := im_of true
  [(Some (-3, false), Some (2, true)); (Some (-1, true), None); (Some (1 # 2, true), Some (4, false));
   (Some (4, false), Some (9, false))].
(** [-1, 1/2) with quarters *)
Definition ex_grid : imstate grid := im_of true [(Some (Grid (-4), false), Some (Grid 2, true)); (Some (Grid 1, false), None)].

Close Scope Q_scope.

Example ex_mul : let s := mul 0 2 1 ex_im in
  (lower s 1, lower_is_open s 1, upper s 1, upper_is_open s 1) = ((-12)%Q, false, 8%Q, true).
Proof. vm_compute. reflexivity. Qed.
Example ex_power : let s := power 0 2 1 ex_im in
  (lower s 1, lower_is_open s 1, upper s 1, upper_is_open s 1) = (0%Q, false, 9%Q, false).
Proof. vm_compute. reflexivity. Qed.

Lemma interval_mul_exact_witness :
  check_invariant ex_im 0 = true /\ check_invariant ex_im 2 = true /\
  encloses (val := Q2R) ex_im (mul 0 2 2 ex_im) (mul_jst ex_im 0 2) 0 2 2 Rmult /\
  encloses (val := gval) ex_grid (mul 0 1 0 ex_grid) (mul_jst ex_grid 0 1) 0 1 0 Rmult.
Proof.
  split; [reflexivity|]. split; [reflexivity|]. split.
  - apply (interval_mul_exact (val := Q2R) ex_im 0 2 2); reflexivity.
  - apply (interval_mul_exact (val := gval) ex_grid 0 1 0); reflexivity.
Defined.

Lemma interval_div_sound_witness :
  contains_zero ex_im 2 = false /\ encloses (val := Q2R) ex_im (div 1 2 1 ex_im) (div_jst ex_im 1 2) 1 2 1 Rdiv.
Proof. split; [reflexivity|]. apply (interval_div_sound (val := Q2R) ex_im 1 2 1); reflexivity. Defined.

Lemma interval_ops_sound_witness : (1%nat <> 2%nat) /\ power_safe ex_im 0 3 /\
  encloses (val := Q2R) ex_im (sub 0 1 2 ex_im) (sub_jst ex_im 0 1) 0 1 2 Rminus /\
  encloses1 (val := Q2R) ex_im (power 0 3 2 ex_im) (power_jst ex_im 0 3) 0 2 (fun x => x ^ 3).
Proof.
  assert (Safe : power_safe ex_im 0 3) by (left; reflexivity). split; [lia|]. split; [exact Safe|].
  destruct (interval_ops_sound (val := Q2R) ex_im 0 1 2 (3 # 4)%Q 3) as (_ & _ & H1 & _ & _ & H2); [lia | lia |].
  split; [exact H1 | exact (H2 Safe)].
Defined.

Lemma interval_roots_end_witness : root_pre ex_im 3 2 /\
  exists N, forall fuel, (N <= fuel)%nat ->
    exists r s', interval_root.xn_eq_y fuel 3 2 (1 # 10)%Q 0 ex_im = Some (r, s').
Proof.
  assert (Pre : root_pre ex_im 3 2) by (split; [lia | split; reflexivity]). split; [exact Pre|].
  assert (V : forall z, Q2R (inject_Z z) = IZR z) by (intros; apply Q2R_inject).
  destruct (interval_roots_end (val := Q2R) ex_im 3 2 (1 # 10)%Q 0 (inject_Z 2)) as [N H];
    [reflexivity | exact Pre | rewrite V; lra | unfold Q2R; simpl; lra |].
  exists N. intros fuel Hf. destruct (H fuel Hf) as [_ (r & s' & E & _)]. exists r, s'. exact E.
Defined.

Example ex_sine : option_map fst (interval_trig.sine 2%Q 5 ex_im) = Some (inl ((38 # 45)%Q, (46 # 45)%Q)).
Proof. vm_compute. reflexivity. Qed.

(** Each bound of the first two intervals, [2, 3) and [-1, 1], has its own constraint; the third is unbounded. *)
Definition ex_deps : dep_state :=
  DepState [DepNode 0 false (DLeaf 10); DepNode 0 false (DLeaf 11); DepNode 0 false (DLeaf 20);
            DepNode 0 false (DLeaf 21)] [] [].
Definition ex_dep : dep_im Q :=
  DepIm (im_of true [(Some (2%Q, false), Some (3%Q, true)); (Some ((-1)%Q, false), Some (1%Q, false))])
    (fun i => from_option fst None ([(Some 0%nat, Some 1%nat); (Some 2%nat, Some 3%nat)] !! i))
    (fun i => from_option snd None ([(Some 0%nat, Some 1%nat); (Some 2%nat, Some 3%nat)] !! i)) ex_deps.
Definition ex_program : list (dop (num := Q)) := [DAdd 0 1 2; DMul 2 0 1; DPower 1 2 1; DDiv 0 2 2].

Lemma ex_deps_wf : wf ex_deps.
Proof.
  split.
  - intros d n Hd. do 4 (destruct d as [|d]; [by injection Hd as <-|]). done.
  - intros d e (d1 & d2 & Hk & _). unfold kind_at in Hk. do 4 (destruct d as [|d]; [done|]). done.
Qed.
Lemma ex_dep_wf : dwf ex_dep.
Proof.
  split; [exact ex_deps_wf|]. intros i. do 2 (destruct i as [|i]; [simpl; lia|]). done.
Qed.

Lemma dependency_sets_witness : valid ex_deps (Some 0%nat) /\ valid ex_deps (Some 3%nat) /\
  (exists d m', dep_manager.mk_join (Some 0%nat) (Some 3%nat) ex_deps = Some (d, m') /\ wf m' /\ valid m' d /\
     (forall w, leaves m' d w <-> leaves ex_deps (Some 0%nat) w \/ leaves ex_deps (Some 3%nat) w) /\
     forall d0 w, valid ex_deps d0 -> leaves m' d0 w <-> leaves ex_deps d0 w).
Proof.
  assert (V0 : valid ex_deps (Some 0%nat)) by (simpl; lia). assert (V3 : valid ex_deps (Some 3%nat)) by (simpl; lia).
  split; [exact V0|]. split; [exact V3|].
  destruct (dependency_sets ex_deps (Some 0%nat) (Some 3%nat) 7 ex_deps_wf V0 V3) as (_ & _ & H & _). exact H.
Defined.

Example ex_program_runs : (r ← exec_all ex_program ex_dep; s ← r;
  '(l, _) ← dep_intervals.get_lower_dep 2 [] s;
  Some (dep_intervals.lower s 2, dep_intervals.upper s 2, l)) = Some ((1 # 2)%Q, 3%Q, [10; 11; 21; 20]%Z).
Proof. vm_compute. reflexivity. Qed.

Lemma conflict_explained_witness : valid (di_deps ex_dep) (Some 3%nat) /\
  exists r s', dep_intervals.check_interval_for_conflict_on_zero 0 (Some 3%nat) ex_dep = Some (r, s') /\ dwf s' /\
    deps_only ex_dep s'.
Proof.
  assert (V3 : valid (di_deps ex_dep) (Some 3%nat)) by (simpl; lia). split; [exact V3|].
  destruct (conflict_explained (val := Q2R) 0 (Some 3%nat) ex_dep ex_dep_wf V3) as (r & s' & E & W & D & _).
  exists r, s'. split; [exact E|]. split; [exact W | exact D].
Defined.
Example ex_conflict : fst <$> dep_intervals.check_interval_for_conflict_on_zero 0 (Some 3%nat) ex_dep =
  Some (Some [21; 10]%Z).
Proof. vm_compute. reflexivity. Qed.

Lemma intersect_exact_witness : intersect_pre ex_dep 0 1 2 /\
  let s' := dep_intervals.intersect true 0 1 2 ex_dep in
  (forall x, member (val := Q2R) (di_im s') 2 x <->
     member (val := Q2R) (di_im ex_dep) 0 x /\ member (val := Q2R) (di_im ex_dep) 1 x).
Proof.
  assert (Pre : intersect_pre ex_dep 0 1 2) by (right; right; split; reflexivity). split; [exact Pre|].
  exact (proj1 (intersect_exact (val := Q2R) 0 1 2 ex_dep Pre)).
Defined.

(** ** Wrong results *)



