(* ===== verification/Nla.v ===== *)
(** * Nla: intervals of polynomial expressions ([math/lp/nex.h], [math/lp/nla_intervals.cpp])

    Nested expressions over the columns of the linear solver, linear terms ([math/lp/lar_term.h]), and the
    class [nla::intervals], which computes an interval for an expression from the bounds of the
    columns and reports a conflict when 0 is not in it.  What it asks of the linear solver and of [nla::core]
    is the interface [NlaCore].

    A scoped interval lives at the next free reference: functions take that reference as an argument, as a
    stack pointer.  The state has the explanations the callback [f] was called with, oldest first.  [None] is an
    access out of bounds, a cast to the wrong class or a failed assertion.  The degree
    is a natural number, and an explanation, a set in the source, is the list of what is put into it. *)
From S2P Require Import Prelude.
From S2P Require Import ExtNumeral.
From S2P Require Import Interval.
From S2P Require Import Dependency.
From S2P Require Import DepIntervals.
From Stdlib Require Import ZArith Lia.
From stdpp Require Import base tactics option list numbers functions gmap.
Close Scope word_scope.
Open Scope Z_scope.

Definition lpvar := nat.
Bind Scope nat_scope with lpvar.

(** ** Expressions *)

#[universes(template)]
Inductive nex (num : Type) : Type :=
  | nex_var (m_j : lpvar)
  | nex_scalar (m_v : num)
  | nex_mul (m_coeff : num) (m_children : list (nex num * nat))
  | nex_sum (m_children : list (nex num)).
Arguments nex_var {num}.
Arguments nex_scalar {num}.
Arguments nex_mul {num}.
Arguments nex_sum {num}.

Definition is_elementary {num} (e : nex num) : bool :=
  match e with nex_sum _ | nex_mul _ _ => false | _ => true end.
Definition is_scalar {num} (e : nex num) : bool := match e with nex_scalar _ => true | _ => false end.

Fixpoint get_degree {num} (e : nex num) : nat :=
  match e with
  | nex_var _ => 1
  | nex_scalar _ => 0
  | nex_mul _ children => list_sum (map (fun '(c, pow) => get_degree c * pow)%nat children)
  | nex_sum children => list_max (map get_degree children)
  end.

(** At least two children that are not scalars, none of a degree above 1. *)
Fixpoint linear_children {num} (children : list (nex num)) (number_of_non_scalars : nat) : bool :=
  match children with
  | [] => (1 <? number_of_non_scalars)%nat
  | e :: children =>
      let d := get_degree e in
      if (d =? 0)%nat then linear_children children number_of_non_scalars
      else if (1 <? d)%nat then false
      else linear_children children (S number_of_non_scalars)
  end.
Definition is_a_linear_term {num} (children : list (nex num)) : bool := linear_children children 0.

(** ** Linear terms *)

Definition lar_term (num : Type) : Type := gmap lpvar num.

Module lar_term_ops.
Section LarTerm.
Context {num : Type} `{NumManager num}.
Definition add_monomial (up : bool) (c : num) (j : lpvar) (t : lar_term num) : lar_term num :=
  if m_is_zero c then t
  else match t !! j with
       | None => <[j:=c]> t
       | Some d => let d := m_add up d c in if m_is_zero d then delete j t else <[j:=d]> t
       end.
Definition add_var (up : bool) (j : lpvar) (t : lar_term num) : lar_term num := add_monomial up (m_of_int up 1) j t.
End LarTerm.
End lar_term_ops.

(** ** The linear solver *)

Class NlaCore (num : Type) : Type := {
  has_lower_bound : lpvar -> option (Z * num * bool);
  has_upper_bound : lpvar -> option (Z * num * bool);
  no_bounds : lpvar -> bool;
  var_is_fixed_to_zero : lpvar -> bool;
  explain_by_equiv : lar_term num -> option (list Z);
  fetch_normalized_term_column : lar_term num -> option (num * lpvar) }.

(** ** The class [nla::intervals] *)

Record nla_state (num : Type) := NlaState { ns_dep : dep_im num; ns_lemmas : list (list Z) }.
Arguments NlaState {num}.
Arguments ns_dep {num}.
Arguments ns_lemmas {num}.

Module nla_intervals.
Section NlaIntervals.
Context {num : Type} `{NumManager num} `{NlaCore num}.
Abbreviation state := (nla_state num).
Abbreviation expr := (nex num).

Definition on_dep (f : dep_im num -> dep_im num) (s : state) : state := NlaState (f (ns_dep s)) (ns_lemmas s).
Definition try_dep (f : dep_im num -> option (dep_im num)) (s : state) : option state :=
  d ← f (ns_dep s); Some (NlaState d (ns_lemmas s)).
(** The callback. *)
Definition call_f (expl : list Z) (s : state) : state := NlaState (ns_dep s) (ns_lemmas s ++ [expl]).

(** The constructor of an interval. *)
Definition new_interval (a : loc) (s : dep_im num) : dep_im num :=
  let s := dep_intervals.set_lower a m_zero s in
  let s := dep_intervals.set_upper a m_zero s in
  let s := dep_intervals.set_lower_is_open a true s in
  let s := dep_intervals.set_upper_is_open a true s in
  let s := dep_intervals.set_lower_is_inf a true s in
  let s := dep_intervals.set_upper_is_inf a true s in
  dep_intervals.set_lower_dep a None (dep_intervals.set_upper_dep a None s).
Definition scoped (a : loc) (s : state) : state := on_dep (new_interval a) s.

(** *** Infinite and zero intervals *)

Definition has_zero_interval (e : expr) : bool :=
  match e with nex_var j => var_is_fixed_to_zero j | _ => false end.
Definition elementary_has_inf (e : expr) : bool := match e with nex_var j => no_bounds j | _ => false end.
(** The children are elementary where [has_inf_interval] is asked. *)
Fixpoint mul_has_inf_interval (children : list (expr * nat)) (has_inf : bool) : bool :=
  match children with
  | [] => has_inf
  | (c, _) :: children =>
      if negb (is_elementary c) then false
      else if has_zero_interval c then false
      else mul_has_inf_interval children (has_inf || elementary_has_inf c)
  end.
Fixpoint has_inf_interval (e : expr) : bool :=
  match e with
  | nex_var j => no_bounds j
  | nex_mul _ children => mul_has_inf_interval children false
  | nex_scalar _ => false
  | nex_sum children => existsb has_inf_interval children
  end.
Fixpoint get_zero_interval_child (children : list (expr * nat)) : option expr :=
  match children with
  | [] => None
  | (c, _) :: children => if has_zero_interval c then Some c else get_zero_interval_child children
  end.

Fixpoint get_inf_interval_child (children : list expr) : option expr :=
  match children with
  | [] => None
  | c :: children => if has_inf_interval c then Some c else get_inf_interval_child children
  end.

(** *** Justifications and zero *)

(** [mk_dep] of an explanation, after its first elements. *)
Fixpoint mk_dep (expl : list Z) (r : dependency) (s : dep_im num) : option (dependency * dep_im num) :=
  match expl with
  | [] => Some (r, s)
  | ci :: expl =>
      let '(d, s) := dep_intervals.mk_leaf ci s in
      match r with
      | None => mk_dep expl d s
      | Some _ => '(r, s) ← dep_intervals.mk_join r d s; mk_dep expl r s
      end
  end.
Definition set_zero_interval (i : loc) (s : dep_im num) : dep_im num :=
  let val := m_of_int (im_up (di_im s)) 0 in
  let s := dep_intervals.set_lower i val s in
  let s := dep_intervals.set_lower_is_open i false s in
  let s := dep_intervals.set_lower_is_inf i false s in
  let s := dep_intervals.set_upper i val s in
  let s := dep_intervals.set_upper_is_open i false s in
  dep_intervals.set_upper_is_inf i false s.
Definition set_zero_interval_with_explanation (i : loc) (expl : list Z) (s : dep_im num) : option (dep_im num) :=
  '(d, s) ← mk_dep expl None (set_zero_interval i s);
  Some (dep_intervals.set_lower_dep i d (dep_intervals.set_upper_dep i d s)).

(** *** Linear terms *)

(** The new entry of [v], unless the child is a scalar. *)
Definition add_linear_to_vector (up : bool) (e : expr) (v : list (num * lpvar)) : option (list (num * lpvar)) :=
  match e with
  | nex_mul c [(nex_var j, S O)] => Some (v ++ [(c, j)])
  | nex_mul _ _ => None
  | nex_var j => Some (v ++ [(m_of_int up 1, j)])
  | nex_scalar _ => Some v
  | nex_sum _ => None
  end.

Fixpoint collect_terms (up : bool) (children : list expr) (smallest_j : lpvar) (v : list (num * lpvar)) (b : num)
    (a_index : option nat) : option (list (num * lpvar) * num * option nat) :=
  match children with
  | [] => Some (v, b, a_index)
  | nex_scalar c :: children => collect_terms up children smallest_j v (m_add up b c) a_index
  | c :: children =>
      v ← add_linear_to_vector up c v;
      match last v with
      | None => collect_terms up children smallest_j v b a_index
      | Some (_, j) =>
          if (length v =? 1)%nat || (j <? smallest_j)%nat
          then collect_terms up children j v b (Some (length v - 1)%nat)
          else collect_terms up children smallest_j v b a_index
      end
  end.

(** The loops that fill the term; the pair at [a_index] gets the coefficient 1 in the second. *)
Fixpoint fill_term (up : bool) (v : list (num * lpvar)) (t : lar_term num) : lar_term num :=
  match v with
  | [] => t
  | (c, j) :: v => fill_term up v (lar_term_ops.add_monomial up c j t)
  end.
Fixpoint fill_divided (up : bool) (a : num) (a_index k : nat) (v : list (num * lpvar)) (t : lar_term num) : lar_term num :=
  match v with
  | [] => t
  | (c, j) :: v =>
      fill_divided up a a_index (S k) v
        (if (k =? a_index)%nat then lar_term_ops.add_var up j t
         else lar_term_ops.add_monomial up (m_div up c a) j t)
  end.
(** The term and the numbers [a] and [b]. *)
Definition expression_to_normalized_term (up : bool) (children : list expr) : option (lar_term num * num * num) :=
  '(v, b, a_index) ← collect_terms up children 0 [] (m_of_int up 0) None;
  i ← a_index; p ← v !! i;
  let a := fst p in
  Some (if m_is_one a then fill_term up v ∅ else fill_divided up a i 0 v ∅, a, b).

Definition find_term_column (up : bool) (norm_t : lar_term num) (a : num) : option (num * lpvar) :=
  '(k, j) ← fetch_normalized_term_column norm_t; Some (m_div up a k, j).

(** *** Intervals of expressions *)

Definition set_var_lower (wd : bool) (v : lpvar) (b : loc) (s : dep_im num) : dep_im num :=
  match has_lower_bound v with
  | Some (ci, val, is_strict) =>
      let s := dep_intervals.set_lower b val s in
      let s := dep_intervals.set_lower_is_open b is_strict s in
      let s := dep_intervals.set_lower_is_inf b false s in
      if wd then let '(d, s) := dep_intervals.mk_leaf ci s in dep_intervals.set_lower_dep b d s else s
  | None =>
      let s := dep_intervals.set_lower_is_open b true s in
      let s := dep_intervals.set_lower_is_inf b true s in
      if wd then dep_intervals.set_lower_dep b None s else s
  end.
Definition set_var_upper (wd : bool) (v : lpvar) (b : loc) (s : dep_im num) : dep_im num :=
  match has_upper_bound v with
  | Some (ci, val, is_strict) =>
      let s := dep_intervals.set_upper b val s in
      let s := dep_intervals.set_upper_is_open b is_strict s in
      let s := dep_intervals.set_upper_is_inf b false s in
      if wd then let '(d, s) := dep_intervals.mk_leaf ci s in dep_intervals.set_upper_dep b d s else s
  | None =>
      let s := dep_intervals.set_upper_is_open b true s in
      let s := dep_intervals.set_upper_is_inf b true s in
      if wd then dep_intervals.set_upper_dep b None s else s
  end.
Definition set_var_interval (wd : bool) (v : lpvar) (b : loc) (s : dep_im num) : dep_im num :=
  set_var_upper wd v b (set_var_lower wd v b s).

Fixpoint add_expl_to_lower (exp : list Z) (i : loc) (s : dep_im num) : option (dep_im num) :=
  match exp with
  | [] => Some s
  | ci :: exp =>
      let '(d, s) := dep_intervals.mk_leaf ci s in
      '(d, s) ← dep_intervals.mk_join (m_lower_dep s i) d s;
      add_expl_to_lower exp i (dep_intervals.set_lower_dep i d s)
  end.

(** [i] is fresh and [nxt] is the local [bi]; the answer says whether a term was found. *)
Definition interval_from_term (wd : bool) (children : list expr) (i nxt : loc) (s : dep_im num)
    : option (bool * dep_im num) :=
  let up := im_up (di_im s) in
  '(norm_t, a, b) ← expression_to_normalized_term up children;
  match explain_by_equiv norm_t with
  | Some exp =>
      let s := dep_intervals.set_interval_for_scalar i b s in
      if wd then
        s ← add_expl_to_lower exp i s;
        Some (true, dep_intervals.set_upper_dep i (m_lower_dep s i) s)
      else Some (true, s)
  | None =>
      match find_term_column up norm_t a with
      | None => Some (false, s)
      | Some (a, j) =>
          let s := set_var_interval wd j i s in
          let s := new_interval nxt s in
          let s := dep_intervals.mul_r wd a i nxt s in
          let s := dep_intervals.add_r b nxt s in
          Some (true, dep_intervals.set wd i nxt s)
      end
  end.

(** The comment: a.upper < b.lower, or they are equal and one of them is open. *)
Definition conflict_u_l (s : dep_im num) (a b : loc) : bool :=
  if dep_intervals.upper_is_inf s a then false
  else if dep_intervals.lower_is_inf s b then false
  else if m_lt (dep_intervals.upper s a) (dep_intervals.lower s b) then true
  else if m_gt (dep_intervals.upper s a) (dep_intervals.lower s b) then false
  else dep_intervals.upper_is_open s a || dep_intervals.upper_is_open s b.

Definition to_power (wd : bool) (a : loc) (p : nat) (nxt : loc) (s : dep_im num) : option (dep_im num) :=
  if (p =? 1)%nat then Some s
  else
    let s := new_interval nxt s in
    s ← dep_intervals.power wd a p nxt s;
    Some (dep_intervals.set wd a nxt s).

(** [VAR]; the second use is for a child that [has_zero_interval]. *)
Definition interval_of_var (wd : bool) (j : lpvar) (p : nat) (a nxt : loc) (s : state) : option (bool * state) :=
  let s := on_dep (set_var_interval wd j a) s in
  s ← try_dep (to_power wd a p nxt) s;
  Some (true, s).

Section Composite.
Variable rec : expr -> bool -> nat -> loc -> loc -> state -> option (bool * state).

Definition sum_loop (wd : bool) (sdi nxt : loc) : list expr -> state -> option (bool * state) :=
  fix loop (children : list expr) (s : state) :=
  match children with
  | [] => Some (true, s)
  | e :: children =>
      let s := scoped nxt s in
      '(ok, s) ← rec e wd 1 nxt (S nxt) s;
      if negb ok then Some (false, s)
      else
        let s := scoped (S nxt) s in
        s ← try_dep (dep_intervals.add wd sdi nxt (S nxt)) s;
        loop children (on_dep (dep_intervals.set wd sdi (S nxt)) s)
  end.
Definition interval_of_sum_no_term (wd : bool) (children : list expr) (sdi nxt : loc) (s : state)
    : option (bool * state) :=
  if existsb has_inf_interval children then Some (true, s)
  else
    match children with
    | [] => None
    | e :: children =>
        '(ok, s) ← rec e wd 1 sdi nxt s;
        if negb ok then Some (false, s) else sum_loop wd sdi nxt children s
    end.

(** The explanation of an empty intersection [r] of [a] and the interval of the term. *)
Definition explain_empty (a i_from_term r : loc) (s : state) : option state :=
  let d := ns_dep s in
  if conflict_u_l d a i_from_term then
    '(expl, d) ← dep_intervals.linearize (m_upper_dep d a) [] d;
    '(expl, d) ← dep_intervals.linearize (m_lower_dep d r) expl d;
    Some (call_f expl (NlaState d (ns_lemmas s)))
  else
    '(expl, d) ← dep_intervals.linearize (m_upper_dep d r) [] d;
    '(expl, d) ← dep_intervals.linearize (m_lower_dep d a) expl d;
    Some (call_f expl (NlaState d (ns_lemmas s))).

(** [recalculate] is what an instance without dependencies does on an empty intersection. *)
Definition sum_with_term (wd : bool) (recalculate : loc -> state -> option state) (children : list expr) (a nxt : loc)
    (s : state) : option (bool * state) :=
  '(ok, s) ← interval_of_sum_no_term wd children a nxt s;
  if negb ok then Some (false, s)
  else if is_a_linear_term children then
    let i_from_term := nxt in
    let s := scoped i_from_term s in
    '(found, d) ← interval_from_term wd children i_from_term (S nxt) (ns_dep s);
    let s := NlaState d (ns_lemmas s) in
    if negb found then Some (true, s)
    else
      let r := S nxt in
      let s := scoped r s in
      let s := on_dep (dep_intervals.intersect wd a i_from_term r) s in
      if dep_intervals.is_empty (ns_dep s) r then
        s ← (if wd then explain_empty a i_from_term r s else recalculate (S r) s);
        Some (false, s)
      else Some (true, on_dep (dep_intervals.set wd a r) s)
  else Some (true, s).
Definition interval_of_sum (wd : bool) (children : list expr) (a nxt : loc) (s : state) : option (bool * state) :=
  sum_with_term wd
    (fun sa s =>
       '(_, s) ← sum_with_term true (fun _ s => Some s) children sa (S sa) (scoped sa s);
       Some s)
    children a nxt s.

Definition mul_loop (wd : bool) (a nxt : loc) : list (expr * nat) -> state -> option (bool * state) :=
  fix loop (children : list (expr * nat)) (s : state) :=
  match children with
  | [] => Some (true, s)
  | (e, pow) :: children =>
      let s := scoped nxt s in
      '(ok, s) ← rec e wd pow nxt (S nxt) s;
      if negb ok then Some (false, s)
      else
        let s := scoped (S nxt) s in
        s ← try_dep (dep_intervals.mul wd a nxt (S nxt)) s;
        loop children (on_dep (dep_intervals.set wd a (S nxt)) s)
  end.
Definition interval_of_mul (wd : bool) (coeff : num) (children : list (expr * nat)) (a nxt : loc) (s : state)
    : option (bool * state) :=
  match get_zero_interval_child children with
  | Some (nex_var j) =>
      '(r, s) ← interval_of_var wd j 1 a nxt s;
      s ← (if wd then try_dep (dep_intervals.set_zero_interval_deps_for_mult a) s else Some s);
      Some (true, s)
  | Some _ => None
  | None => mul_loop wd a nxt children (on_dep (dep_intervals.set_interval_for_scalar a coeff) s)
  end.
End Composite.

Fixpoint interval_of_expr (e : expr) (wd : bool) (p : nat) (a nxt : loc) (s : state) : option (bool * state) :=
  match e with
  | nex_scalar v =>
      Some (true, on_dep (dep_intervals.set_interval_for_scalar a (m_power (im_up (di_im (ns_dep s))) v p)) s)
  | nex_sum children =>
      '(ok, s) ← interval_of_sum interval_of_expr wd children a nxt s;
      if negb ok then Some (false, s) else s ← try_dep (to_power wd a p nxt) s; Some (true, s)
  | nex_mul coeff children =>
      '(ok, s) ← interval_of_mul interval_of_expr wd coeff children a nxt s;
      if negb ok then Some (false, s) else s ← try_dep (to_power wd a p nxt) s; Some (true, s)
  | nex_var j => interval_of_var wd j p a nxt s
  end.

Definition check_nex (n : expr) (initial_deps : dependency) (nxt : loc) (s : state) : option (bool * state) :=
  let i := nxt in
  let s := scoped i s in
  '(ok, s) ← interval_of_expr n false 1 i (S i) s;
  if negb ok then Some (true, s)
  else if negb (dep_intervals.separated_from_zero (ns_dep s) i) then Some (false, s)
  else
    let interv_wd := S nxt in
    let s := scoped interv_wd s in
    '(_, s) ← interval_of_expr n true 1 interv_wd (S interv_wd) s;
    '(r, d) ← dep_intervals.check_interval_for_conflict_on_zero interv_wd initial_deps (ns_dep s);
    let s := NlaState d (ns_lemmas s) in
    Some (true, match r with Some expl => call_f expl s | None => s end).

End NlaIntervals.
End nla_intervals.
