(* ===== verification/NlaTerms.v ===== *)
(** * NlaTerms: values of expressions and linear terms

    [nval] is the real number an expression stands for, [tval] the one of a linear term.  The normalized term of a
    linear sum has, with the numbers [a] and [b] of the decomposition, the value of the sum. *)
From S2P Require Import Prelude.
From S2P Require Import ExtNumeral.
From S2P Require Import Interval.
From S2P Require Import DepIntervals.
From S2P Require Import Nla.
From Stdlib Require Import ZArith Lia Reals Lra.
From stdpp Require Import base tactics option list numbers functions gmap fin_maps.
Close Scope word_scope.
Open Scope R_scope.

(** Induction on an expression, with the hypothesis for each child. *)
Section Induction.
Context {num : Type} (P : nex num -> Prop).
Hypothesis Hvar : forall j, P (nex_var j).
Hypothesis Hscalar : forall v, P (nex_scalar v).
Hypothesis Hmul : forall c l, Forall (fun p => P (fst p)) l -> P (nex_mul c l).
Hypothesis Hsum : forall l, Forall P l -> P (nex_sum l).

Fixpoint nex_nested_ind (e : nex num) : P e :=
  match e with
  | nex_var j => Hvar j
  | nex_scalar v => Hscalar v
  | nex_mul c l =>
      Hmul c l ((fix go (l : list (nex num * nat)) : Forall (fun p => P (fst p)) l :=
        match l with [] => List.Forall_nil _ | p :: l => @List.Forall_cons _ _ p l (nex_nested_ind (fst p)) (go l) end) l)
  | nex_sum l =>
      Hsum l ((fix go (l : list (nex num)) : Forall P l :=
        match l with [] => List.Forall_nil _ | e :: l => @List.Forall_cons _ _ e l (nex_nested_ind e) (go l) end) l)
  end.
End Induction.

Section Values.
Context {num : Type} {Mgr : NumManager num} {val : num -> R} {L : NumLaws val}.
Abbreviation expr := (nex num).
Abbreviation term := (gmap lpvar num).

Fixpoint nval (x : lpvar -> R) (e : expr) : R :=
  match e with
  | nex_var j => x j
  | nex_scalar v => val v
  | nex_mul c l => val c * fold_right (fun p r => nval x (fst p) ^ snd p * r) 1 l
  | nex_sum l => fold_right (fun e r => nval x e + r) 0 l
  end.
Definition vval (x : lpvar -> R) (v : list (num * lpvar)) : R := fold_right (fun p r => val (fst p) * x (snd p) + r) 0 v.
Definition tval (x : lpvar -> R) (t : term) : R := map_fold (fun j c r => val c * x j + r) 0 t.

(** A child of a linear sum: a scalar or a variable with a coefficient. *)
Definition linear_child (e : expr) : bool :=
  match e with
  | nex_scalar _ | nex_var _ => true
  | nex_mul c [(nex_var _, 1%nat)] => negb (m_is_zero c)
  | _ => false
  end.
(** Powers are positive, sums are not empty and the children of a linear sum are linear. *)
Fixpoint wf_expr (e : expr) : bool :=
  match e with
  | nex_var _ | nex_scalar _ => true
  | nex_mul _ l => forallb (fun p => (0 <? snd p)%nat && wf_expr (fst p)) l
  | nex_sum l => negb (length l =? 0)%nat && forallb wf_expr l && (negb (is_a_linear_term l) || forallb linear_child l)
  end.

(** *** Terms *)

Hypothesis precise : m_precise = true.

Lemma nla_add_exact up a b : val (m_add up a b) = val a + val b.
Proof. by apply (val_add (val := val) up a b). Qed.
Lemma nla_of_int_exact up z : val (m_of_int up z) = IZR z.
Proof. by apply (val_of_int (val := val) up z). Qed.
Lemma nla_div_exact up a b : val b <> 0 -> val (m_div up a b) = val a / val b.
Proof. intros Hb. by apply (val_div (val := val) up a b Hb). Qed.

Lemma tval_empty x : tval x ∅ = 0.
Proof. unfold tval. by rewrite map_fold_empty. Qed.
Lemma tval_insert x t j c : t !! j = None -> tval x (<[j:=c]> t) = val c * x j + tval x t.
Proof. intros Hj. unfold tval. rewrite map_fold_insert_L; [done | intros; lra | done]. Qed.
Lemma tval_delete x t j d : t !! j = Some d -> tval x t = val d * x j + tval x (delete j t).
Proof. intros Hj. rewrite <- tval_insert by apply lookup_delete_eq. by rewrite insert_delete_id. Qed.

Lemma tval_add_monomial x up c j t : tval x (lar_term_ops.add_monomial up c j t) = val c * x j + tval x t.
Proof.
  unfold lar_term_ops.add_monomial, lar_term in *. destruct (m_is_zero c) eqn:Z.
  { apply (val_is_zero (val := val)) in Z. rewrite Z. lra. }
  destruct (t !! j) as [d|] eqn:E; [|by apply tval_insert].
  pose proof (nla_add_exact up d c) as A. rewrite (tval_delete x t j d E). destruct (m_is_zero (m_add up d c)) eqn:Zd.
  - apply (val_is_zero (val := val)) in Zd. rewrite A in Zd. replace (val c) with (- val d) by lra. unfold lar_term. lra.
  - rewrite <- insert_delete_eq, tval_insert by apply lookup_delete_eq. rewrite A. lra.
Qed.
Lemma tval_add_var x up j t : tval x (lar_term_ops.add_var up j t) = x j + tval x t.
Proof. unfold lar_term_ops.add_var. rewrite tval_add_monomial, nla_of_int_exact. lra. Qed.

Lemma fill_term_val x up v t : tval x (nla_intervals.fill_term up v t) = vval x v + tval x t.
Proof.
  revert t. induction v as [|[c j] v IH]; intros t; cbn; [lra|]. rewrite IH, tval_add_monomial. unfold vval. lra.
Qed.
Lemma fill_divided_val x up a i k v t : val a <> 0 -> ((k <= i)%nat -> forall p, v !! (i - k)%nat = Some p -> fst p = a) ->
  val a * tval x (nla_intervals.fill_divided up a i k v t) = vval x v + val a * tval x t.
Proof.
  intros Ha. revert k t. induction v as [|[c j] v IH]; intros k t Hi; cbn; [lra|].
  rewrite IH.
  - destruct (Nat.eqb_spec k i) as [->|Hne].
    + rewrite tval_add_var. rewrite Nat.sub_diag in Hi. specialize (Hi ltac:(lia) _ eq_refl). cbn in Hi. subst c.
      unfold vval. lra.
    + rewrite tval_add_monomial, nla_div_exact by done. unfold vval. field_simplify; [lra | done].
  - intros Hk p Hp. apply Hi; [lia|]. by replace (i - k)%nat with (S (i - S k)) by lia.
Qed.

(** *** The normalized term *)

Lemma vval_app x v w : vval x (v ++ w) = vval x v + vval x w.
Proof. unfold vval. induction v as [|p v IH]; cbn; [lra|]. rewrite IH. lra. Qed.

Definition sval (x : lpvar -> R) (l : list expr) : R := fold_right (fun e r => nval x e + r) 0 l.

Definition index_ok (v : list (num * lpvar)) (i : option nat) : Prop :=
  match i with None => v = [] | Some i => (i < length v)%nat end.
Definition entries_ok (v : list (num * lpvar)) : Prop := Forall (fun p => val (fst p) <> 0) v.

Lemma linear_child_entry up e v : linear_child e = true -> is_scalar e = false ->
  exists c j, nla_intervals.add_linear_to_vector up e v = Some (v ++ [(c, j)]) /\ val c <> 0 /\
    (forall x, nval x e = val c * x j) /\ get_degree e = 1%nat.
Proof.
  intros Hl Hs. destruct e as [j|c|c l|l]; try done.
  - exists (m_of_int up 1), j. split; [done|]. rewrite nla_of_int_exact. split_and!; [lra | intros; cbn; lra | done].
  - destruct l as [|[[j| | |] [|[|n]]] [|]]; try done. exists c, j. split; [done|]. split_and!; [|intros; cbn; lra | done].
    cbn in Hl. intros E%(val_is_zero (val := val)). by rewrite E in Hl.
Qed.

(** The number of entries, from that of the children that are not scalars. *)
Lemma collect_terms_ok up l sj v b i k : forallb linear_child l = true -> linear_children l k = true ->
  (k <= length v)%nat -> index_ok v i -> entries_ok v ->
  exists v' b' i', nla_intervals.collect_terms up l sj v b i = Some (v', b', Some i') /\ (i' < length v')%nat /\
    entries_ok v' /\ forall x, vval x v' + val b' = vval x v + val b + sval x l.
Proof.
  revert sj v b i k. induction l as [|e l IH]; intros sj v b i k Hl Hk Hv Hi He.
  { apply Nat.ltb_lt in Hk. destruct i as [i|]; cbn in Hi; [|subst; cbn in Hv; lia].
    exists v, b, i. split_and!; try done. intros x. cbn. lra. }
  cbn [forallb] in Hl. apply andb_true_iff in Hl as [He1 Hl].
  destruct (is_scalar e) eqn:Es.
  { destruct e as [|c| |]; try done. cbn in Hk. edestruct (IH sj v (m_add up b c) i k) as (v' & b' & i' & E & Hi' & He' & Hx);
      try done. exists v', b', i'. split_and!; try done. intros x. rewrite Hx, nla_add_exact. cbn. unfold sval. lra. }
  destruct (linear_child_entry up e v He1 Es) as (c & j & Ea & Hc & Hval & Hd).
  cbn [linear_children] in Hk. rewrite Hd in Hk. cbn in Hk.
  assert (Hb : forall sj' i', index_ok (v ++ [(c, j)]) i' -> exists v' b' i'',
    nla_intervals.collect_terms up l sj' (v ++ [(c, j)]) b i' = Some (v', b', Some i'') /\ (i'' < length v')%nat /\
    entries_ok v' /\ forall x, vval x v' + val b' = vval x v + val b + sval x (e :: l)).
  { intros sj' i0 Hi0. edestruct (IH sj' (v ++ [(c, j)]) b i0 (S k)) as (v' & b' & i' & E & Hi' & He' & Hx); try done.
    - rewrite length_app. cbn. lia.
    - apply Forall_app. split; [done | by repeat constructor].
    - exists v', b', i'. split_and!; try done. intros x. rewrite Hx, vval_app. cbn. unfold sval. rewrite Hval. lra. }
  assert (Step : nla_intervals.collect_terms up (e :: l) sj v b i =
    if (length (v ++ [(c, j)]) =? 1)%nat || (j <? sj)%nat
    then nla_intervals.collect_terms up l j (v ++ [(c, j)]) b (Some (length (v ++ [(c, j)]) - 1)%nat)
    else nla_intervals.collect_terms up l sj (v ++ [(c, j)]) b i).
  { destruct e; try done; cbn [nla_intervals.collect_terms]; rewrite Ea; cbn [mbind option_bind]; by rewrite last_snoc. }
  rewrite Step. clear Step. destruct (_ || _) eqn:Ec; apply Hb; cbn; [rewrite length_app; cbn; lia|].
  destruct i as [i|]; cbn in Hi |- *; [rewrite length_app; lia|]. subst v. by apply orb_false_iff in Ec as [? _].
Qed.

(** e = a * t + b. *)
Lemma expression_to_normalized_term_ok up l : is_a_linear_term l = true -> forallb linear_child l = true ->
  exists t a b, nla_intervals.expression_to_normalized_term up l = Some (t, a, b) /\ val a <> 0 /\
    forall x, sval x l = val a * tval x t + val b.
Proof.
  intros Hl Hc. destruct (collect_terms_ok up l 0 [] (m_of_int up 0) None 0 Hc Hl) as (v & b & i & E & Hi & He & Hx);
    [done | done | constructor |].
  unfold nla_intervals.expression_to_normalized_term. rewrite E. cbn [mbind option_bind].
  destruct (lookup_lt_is_Some_2 v i Hi) as [[a j] Hp]. rewrite Hp. cbn [mbind option_bind fst].
  eexists _, a, b. split; [done|]. unfold entries_ok in He. rewrite Forall_lookup in He. pose proof (He _ _ Hp) as Ha. cbn in Ha.
  split; [done|]. intros x. specialize (Hx x). rewrite nla_of_int_exact in Hx. cbn in Hx. destruct (m_is_one a) eqn:E1.
  - apply (val_is_one (val := val)) in E1. rewrite fill_term_val, tval_empty, E1. lra.
  - rewrite fill_divided_val, tval_empty; [lra | done |]. intros _ p. rewrite Nat.sub_0_r, Hp. by intros [= <-].
Qed.
End Values.
