(* ===== verification/NlaObs.v ===== *)
(** * NlaObs: the result of an interval operation depends on its operands only

    [obs] is what a state holds for one interval.  For each operation of [nla::intervals] that writes to a fresh
    interval, the result is a function of the operands, wherever they are stored and with or without
    dependencies.  [NoRounding]: the numerals do not depend on the rounding mode, as rational numbers. *)
From S2P Require Import Prelude.
From S2P Require Import ExtNumeral.
From S2P Require Import Interval.
From S2P Require Import IntervalBounds.
From S2P Require Import IntervalProofs.
From S2P Require Import IntervalSound.
From S2P Require Import Dependency.
From S2P Require Import DepIntervals.
From S2P Require Import Nla.
From Stdlib Require Import ZArith Lia.
From stdpp Require Import base tactics option list numbers functions.
Close Scope word_scope.
Open Scope Z_scope.

Class NoRounding (num : Type) `{NumManager num} : Prop := {
  nr_of_int up z : m_of_int up z = m_of_int true z;
  nr_add up (a b : num) : m_add up a b = m_add true a b;
  nr_div up (a b : num) : m_div up a b = m_div true a b;
  nr_power up (a : num) n : m_power up a n = m_power true a n }.

Record bounds (num : Type) := Bounds {
  b_lower : num; b_upper : num; b_lower_open : bool; b_upper_open : bool; b_lower_inf : bool; b_upper_inf : bool }.
Arguments Bounds {num}.
Arguments b_lower {num}.
Arguments b_upper {num}.
Arguments b_lower_open {num}.
Arguments b_upper_open {num}.
Arguments b_lower_inf {num}.
Arguments b_upper_inf {num}.

Section Obs.
Context {num : Type} {Mgr : NumManager num}.

Definition obs (s : imstate num) (a : loc) : bounds num :=
  Bounds (im_lower s a) (im_upper s a) (im_lower_open s a) (im_upper_open s a) (im_lower_inf s a) (im_upper_inf s a).
(** What the constructor of an interval leaves. *)
Definition fresh_bounds : bounds num := Bounds m_zero m_zero true true true true.

(** The operands at 0 and 1, and a fresh interval at 2. *)
Definition pick {A} (f : bounds num -> A) (x y : bounds num) (i : loc) : A :=
  match i with O => f x | S O => f y | _ => f fresh_bounds end.
Definition canon (x y : bounds num) : imstate num :=
  IMState true (Reslimit 0 false 0 0 []) (pick b_lower x y) (pick b_upper x y) (pick b_lower_open x y)
    (pick b_upper_open x y) (pick b_lower_inf x y) (pick b_upper_inf x y).
Definition result2 (f : loc -> loc -> loc -> imstate num -> imstate num) (x y : bounds num) : bounds num :=
  obs (f 0%nat 1%nat 2%nat (canon x y)) 2%nat.

Lemma same_at_obs (s s' : imstate num) j : same_at s s' j -> obs s' j = obs s j.
Proof. intros (E1 & E2 & E3 & E4 & E5 & E6). unfold obs. f_equal; assumption. Qed.

Lemma fresh_obs (s : imstate num) c : obs s c = fresh_bounds ->
  im_lower s c = m_zero /\ im_upper s c = m_zero /\ im_lower_open s c = true /\ im_upper_open s c = true /\
  im_lower_inf s c = true /\ im_upper_inf s c = true.
Proof. unfold obs, fresh_bounds. by intros [= -> -> -> -> -> ->]. Qed.

(** Both sides read the operands only; the branches are the same. *)
Ltac obs_unfold :=
  unfold interval_manager.lower_kind, interval_manager.upper_kind, interval_manager.lower_is_inf,
    interval_manager.upper_is_inf, interval_manager.lower, interval_manager.upper, interval_manager.lower_is_open,
    interval_manager.upper_is_open;
  cbn -[ext_numeral.add ext_numeral.mul ext_numeral.power ext_numeral.lt ext_numeral.gt ext_numeral.eq
    ext_numeral.is_zero ext_numeral.is_neg ext_numeral.is_pos interval_manager.is_minus_inf interval_manager.is_plus_inf
    obs Nat.even Nat.eqb].
Ltac obs_kinds :=
  repeat match goal with |- context [if ?b then ?x else EN_NUMERAL] => generalize (if b then x else EN_NUMERAL); intros ? end.
Ltac obs_cases :=
  repeat match goal with
  | |- context [match ext_numeral.add ?up ?a ?j ?b ?k with (_, _) => _ end] => destruct (ext_numeral.add up a j b k)
  | |- context [match ext_numeral.mul ?up ?a ?j ?b ?k with (_, _) => _ end] => destruct (ext_numeral.mul up a j b k)
  | |- context [match ext_numeral.power ?up ?a ?k ?n with (_, _) => _ end] => destruct (ext_numeral.power up a k n)
  | |- context [if ?b then _ else _] => destruct b
  end.
Ltac obs_done :=
  unfold obs; cbn -[interval_manager.is_minus_inf interval_manager.is_plus_inf];
  rewrite ?fn_lookup_insert; reflexivity.

Lemma add_obs (s : imstate num) a b c :
  obs (interval_manager.add a b c s) c = result2 interval_manager.add (obs s a) (obs s b).
Proof.
  unfold obs at 2 3. unfold result2, interval_manager.add. obs_unfold. obs_kinds. obs_cases. obs_done.
Qed.
Lemma mul_k_obs (s : imstate num) k a b : m_is_zero k = false ->
  obs (interval_manager.mul_k k a b s) b = result2 (fun a _ => interval_manager.mul_k k a) (obs s a) (obs s a).
Proof.
  intros Z. unfold obs at 2 3. unfold result2, interval_manager.mul_k, interval_manager.div_mul, interval_manager.set_bounds.
  rewrite Z. obs_unfold. obs_kinds. destruct (m_is_pos k); obs_done.
Qed.
(** [x] after [y] is copied to it. *)
Definition copied (x y : bounds num) : bounds num :=
  Bounds (if b_lower_inf y then b_lower x else b_lower y) (if b_upper_inf y then b_upper x else b_upper y)
    (b_lower_open y) (b_upper_open y) (b_lower_inf y) (b_upper_inf y).
Lemma set_obs (s : imstate num) t a : t <> a -> obs (interval_manager.set t a s) t = copied (obs s t) (obs s a).
Proof.
  intros Ht. unfold interval_manager.set. rewrite bool_decide_false by done. unfold obs, copied.
  obs_unfold. destruct (im_lower_inf s a) eqn:E1; cbn; destruct (im_upper_inf s a) eqn:E2; cbn;
    by rewrite ?fn_lookup_insert, ?fn_lookup_insert_ne, ?E1, ?E2 by done.
Qed.

Lemma mul_obs (s : imstate num) a b c : c <> a -> c <> b -> obs s c = fresh_bounds ->
  obs (interval_manager.mul a b c s) c = result2 interval_manager.mul (obs s a) (obs s b).
Proof.
  intros Ha Hb Hc. pose proof (set_obs s c a Ha) as Sa. pose proof (set_obs s c b Hb) as Sb. rewrite Hc in Sa, Sb.
  unfold obs in Sa at 2. unfold obs in Sb at 2.
  unfold obs at 2 3. set (x := Bounds (im_lower s a) _ _ _ _ _) in *. set (y := Bounds (im_lower s b) _ _ _ _ _) in *.
  pose proof (set_obs (canon x y) 2 0 ltac:(done)) as Sx. pose proof (set_obs (canon x y) 2 1 ltac:(done)) as Sy.
  change (obs (canon x y) 2%nat) with fresh_bounds in Sx, Sy.
  change (obs (canon x y) 0%nat) with x in Sx. change (obs (canon x y) 1%nat) with y in Sy.
  unfold result2, interval_manager.mul, interval_manager.set_bounds,
    interval_manager.is_zero, interval_manager.is_N, interval_manager.is_M, interval_manager.is_N0, interval_manager.is_P0,
    interval_manager.lower_is_zero, interval_manager.upper_is_zero, interval_manager.lower_is_neg,
    interval_manager.upper_is_neg, interval_manager.upper_is_pos.
  obs_unfold. obs_kinds.
  destruct (ext_numeral.is_zero _ _ && ext_numeral.is_zero _ _); [congruence|].
  destruct (ext_numeral.is_zero _ _ && ext_numeral.is_zero _ _); [congruence|].
  clear. obs_cases; obs_done.
Qed.

Lemma power_obs `{!NoRounding num} (s : imstate num) a n b : b <> a -> n <> 1%nat ->
  obs (interval_manager.power a n b s) b = result2 (fun a _ => interval_manager.power a n) (obs s a) (obs s a).
Proof.
  intros Ha Hn. unfold obs at 2 3. unfold result2, interval_manager.power. rewrite (proj2 (Nat.eqb_neq _ _) Hn).
  unfold interval_manager.lower_is_pos, interval_manager.upper_is_neg, interval_manager.reset_upper, interval_manager.reset_lower.
  destruct (Nat.even n); obs_unfold.
  - rewrite ?(fn_lookup_insert_ne _ b a), ?fn_lookup_insert, ?nr_power by done. obs_kinds. obs_cases; obs_done.
  - destruct (im_lower_inf s a); obs_unfold; rewrite ?(fn_lookup_insert_ne _ b a) by done;
      destruct (im_upper_inf s a); obs_unfold; rewrite ?(fn_lookup_insert_ne _ b a) by done;
      unfold obs; cbn; rewrite ?fn_lookup_insert, ?(nr_power (im_up s)); reflexivity.
Qed.

(** *** Operations of [dep_intervals] *)

Definition dobs (s : dep_im num) (a : loc) : bounds num := obs (di_im s) a.
Definition dcanon (x y : bounds num) : dep_im num :=
  DepIm (canon x y) (fun _ => None) (fun _ => None) (DepState [] [] []).

Lemma new_interval_obs a s : dobs (nla_intervals.new_interval a s) a = fresh_bounds.
Proof. unfold dobs, obs. cbn. by rewrite !fn_lookup_insert. Qed.
Lemma scalar_obs a v s : dobs (dep_intervals.set_interval_for_scalar a v s) a = Bounds v v false false false false.
Proof. unfold dobs, obs. cbn. by rewrite !fn_lookup_insert. Qed.
Lemma dset_obs wd t a s : t <> a -> dobs (dep_intervals.set wd t a s) t = copied (dobs s t) (dobs s a).
Proof. intros Ht. unfold dobs. rewrite <- set_obs by done. by destruct wd. Qed.
Lemma mul_r_obs wd r a b s : m_is_zero r = false ->
  dobs (dep_intervals.mul_r wd r a b s) b = result2 (fun a _ => interval_manager.mul_k r a) (dobs s a) (dobs s a).
Proof.
  intros Z. unfold dobs. rewrite <- (mul_k_obs _ r a b Z). unfold dep_intervals.mul_r. rewrite Z.
  destruct wd; [|done]. by destruct (negb _).
Qed.

Definition shifted (r : num) (x : bounds num) : bounds num :=
  Bounds (if b_lower_inf x then b_lower x else m_add true (b_lower x) r)
    (if b_upper_inf x then b_upper x else m_add true (b_upper x) r)
    (b_lower_open x) (b_upper_open x) (b_lower_inf x) (b_upper_inf x).
Lemma add_r_obs `{!NoRounding num} r a s : dobs (dep_intervals.add_r r a s) a = shifted r (dobs s a).
Proof.
  unfold dobs, dep_intervals.add_r, shifted, dep_intervals.lower_is_inf, dep_intervals.upper_is_inf, dep_intervals.lower,
    dep_intervals.upper, obs. obs_unfold.
  destruct (im_lower_inf (di_im s) a) eqn:E1; cbn; destruct (im_upper_inf (di_im s) a) eqn:E2; cbn;
    rewrite ?fn_lookup_insert, ?(nr_add (im_up (di_im s))), ?E1, ?E2; done.
Qed.

(** The interval of a column. *)
Definition column_bounds `{NlaCore num} (v : lpvar) : bounds num :=
  dobs (nla_intervals.set_var_interval false v 2 (dcanon fresh_bounds fresh_bounds)) 2%nat.
Lemma set_var_im `{NlaCore num} wd v b s :
  di_im (nla_intervals.set_var_interval wd v b s) = di_im (nla_intervals.set_var_interval false v b s).
Proof.
  unfold nla_intervals.set_var_interval, nla_intervals.set_var_lower, nla_intervals.set_var_upper.
  by destruct wd, (has_lower_bound v) as [[[??]?]|], (has_upper_bound v) as [[[??]?]|].
Qed.
Lemma set_var_obs `{NlaCore num} wd v b s : dobs s b = fresh_bounds ->
  dobs (nla_intervals.set_var_interval wd v b s) b = column_bounds v.
Proof.
  intros (F1 & F2 & F3 & F4 & F5 & F6)%fresh_obs. unfold column_bounds, dobs. rewrite set_var_im.
  unfold nla_intervals.set_var_interval, nla_intervals.set_var_lower, nla_intervals.set_var_upper, obs.
  destruct (has_lower_bound v) as [[[??]?]|], (has_upper_bound v) as [[[??]?]|]; cbn;
    rewrite ?fn_lookup_insert, ?F1, ?F2, ?F3, ?F4, ?F5, ?F6; done.
Qed.

(** The intersection: the tighter bound of each side, if there is one, replaces the one of [z]. *)
Definition tighter_lower (x y : bounds num) : option (bounds num) :=
  if b_lower_inf x then (if b_lower_inf y then None else Some y)
  else if b_lower_inf y then Some x
  else if m_lt (b_lower x) (b_lower y) then Some y
  else if m_gt (b_lower x) (b_lower y) then Some x
  else if b_lower_open x then Some x else Some y.
Definition tighter_upper (x y : bounds num) : option (bounds num) :=
  if b_upper_inf x then (if b_upper_inf y then None else Some y)
  else if b_upper_inf y then Some x
  else if m_gt (b_upper x) (b_upper y) then Some y
  else if m_lt (b_upper x) (b_upper y) then Some x
  else if b_upper_open x then Some x else Some y.
Definition with_lower (x : option (bounds num)) (z : bounds num) : bounds num :=
  match x with
  | None => z
  | Some x => Bounds (b_lower x) (b_upper z) (b_lower_open x) (b_upper_open z) false (b_upper_inf z)
  end.
Definition with_upper (x : option (bounds num)) (z : bounds num) : bounds num :=
  match x with
  | None => z
  | Some x => Bounds (b_lower z) (b_upper x) (b_lower_open z) (b_upper_open x) (b_lower_inf z) false
  end.

Lemma update_lower_obs wd a b r s j : r <> a -> r <> b ->
  dobs (dep_intervals.update_lower_for_intersection wd a b r s) j =
  if decide (j = r) then with_lower (tighter_lower (dobs s a) (dobs s b)) (dobs s r) else dobs s j.
Proof.
  intros Ha Hb. unfold dep_intervals.update_lower_for_intersection, tighter_lower.
  change (dep_intervals.lower_is_inf s) with (fun i => b_lower_inf (dobs s i)).
  change (dep_intervals.lower_is_open s) with (fun i => b_lower_open (dobs s i)).
  change (dep_intervals.lower s) with (fun i => b_lower (dobs s i)). cbv beta.
  destruct (decide (j = r)) as [->|Hj]; repeat case_match; try done; destruct wd; unfold dobs, obs; cbn;
    rewrite ?fn_lookup_insert, ?fn_lookup_insert_ne by done; done.
Qed.
Lemma update_upper_obs wd a b r s j : r <> a -> r <> b ->
  dobs (dep_intervals.update_upper_for_intersection wd a b r s) j =
  if decide (j = r) then with_upper (tighter_upper (dobs s a) (dobs s b)) (dobs s r) else dobs s j.
Proof.
  intros Ha Hb. unfold dep_intervals.update_upper_for_intersection, tighter_upper.
  change (dep_intervals.upper_is_inf s) with (fun i => b_upper_inf (dobs s i)).
  change (dep_intervals.upper_is_open s) with (fun i => b_upper_open (dobs s i)).
  change (dep_intervals.upper s) with (fun i => b_upper (dobs s i)). cbv beta.
  destruct (decide (j = r)) as [->|Hj]; repeat case_match; try done; destruct wd; unfold dobs, obs; cbn;
    rewrite ?fn_lookup_insert, ?fn_lookup_insert_ne by done; done.
Qed.
Lemma intersect_obs wd a b r s : r <> a -> r <> b -> dobs s r = fresh_bounds ->
  dobs (dep_intervals.intersect wd a b r s) r =
  with_upper (tighter_upper (dobs s a) (dobs s b)) (with_lower (tighter_lower (dobs s a) (dobs s b)) fresh_bounds).
Proof.
  intros Ha Hb Hr. unfold dep_intervals.intersect. rewrite update_upper_obs, !update_lower_obs by done.
  by rewrite !(decide_True (P := r = r)), (decide_False (P := a = r)), (decide_False (P := b = r)), Hr by congruence.
Qed.

(** *** The normalized term *)

Section Term.
Context `{!NoRounding num}.

Lemma add_monomial_up up c j t : lar_term_ops.add_monomial up c j t = lar_term_ops.add_monomial true c j t.
Proof. unfold lar_term_ops.add_monomial. destruct (m_is_zero c); [done|]. destruct (_ !! _); [|done]. by rewrite (nr_add up). Qed.
Lemma collect_terms_up up l sj v b i :
  nla_intervals.collect_terms up l sj v b i = nla_intervals.collect_terms true l sj v b i.
Proof.
  revert sj v b i. induction l as [|e l IH]; intros sj v b i; [done|].
  assert (Ha : nla_intervals.add_linear_to_vector up e v = nla_intervals.add_linear_to_vector true e v).
  { unfold nla_intervals.add_linear_to_vector. destruct e; try done. by rewrite (nr_of_int up). }
  destruct e; cbn [nla_intervals.collect_terms]; rewrite ?Ha; [|by rewrite (nr_add up)|..];
    try apply IH; (destruct (nla_intervals.add_linear_to_vector true _ v) as [w|]; [|done]); cbn [mbind option_bind];
    repeat case_match; apply IH.
Qed.
Lemma fill_term_up up v t : nla_intervals.fill_term up v t = nla_intervals.fill_term true v t.
Proof. revert t. induction v as [|[c j] v IH]; intros t; cbn; [done|]. by rewrite (add_monomial_up up), IH. Qed.
Lemma fill_divided_up up a i k v t : nla_intervals.fill_divided up a i k v t = nla_intervals.fill_divided true a i k v t.
Proof.
  revert k t. induction v as [|[c j] v IH]; intros k t; cbn; [done|]. rewrite IH. unfold lar_term_ops.add_var.
  by rewrite (add_monomial_up up), (nr_div up), (nr_of_int up), (add_monomial_up up).
Qed.
Lemma expression_to_normalized_term_up up l :
  nla_intervals.expression_to_normalized_term up l = nla_intervals.expression_to_normalized_term true l.
Proof.
  unfold nla_intervals.expression_to_normalized_term. rewrite collect_terms_up, (nr_of_int up).
  destruct (nla_intervals.collect_terms true _ _ _ _ _) as [[[v b] [i|]]|]; try done. cbn [mbind option_bind].
  destruct (v !! i); [|done]. cbn [mbind option_bind]. by rewrite fill_term_up, fill_divided_up.
Qed.
End Term.
End Obs.
