(* ===== verification/NlaProofs.v ===== *)
(** * NlaProofs: intervals of expressions contain their values

    [holds_at]: an interval contains a value that depends on the assignment, for every feasible assignment, and
    with dependencies each bound follows from the constraints of its justification.  Each step of
    [nla::intervals] keeps it.  [NlaLaws] says what the linear solver and [nla::core] promise. *)
From S2P Require Import Prelude.
From S2P Require Import ExtNumeral.
From S2P Require Import Interval.
From S2P Require Import IntervalBounds.
From S2P Require Import IntervalProofs.
From S2P Require Import IntervalSound.
From S2P Require Import Dependency.
From S2P Require Import DependencyProofs.
From S2P Require Import DepIntervals.
From S2P Require Import DepIntervalsProofs.
From S2P Require Import Nla.
From S2P Require Import NlaTerms.
From S2P Require Import NlaObs.
From Stdlib Require Import ZArith Lia Reals Lra.
From stdpp Require Import base tactics option list numbers functions gmap.
Close Scope word_scope.
Open Scope R_scope.
Import dep_intervals.

(** [D]: the columns of terms have the values of their terms.  [cs]: the constraints. *)
Class NlaLaws {num} `{NlaCore num} (val : num -> R) (D : (lpvar -> R) -> Prop) (cs : Z -> (lpvar -> R) -> Prop) : Prop := {
  law_lower v ci b strict : has_lower_bound v = Some (ci, b, strict) ->
    forall x, D x -> cs ci x -> le_o strict (val b) (x v);
  law_upper v ci b strict : has_upper_bound v = Some (ci, b, strict) ->
    forall x, D x -> cs ci x -> le_o strict (x v) (val b);
  law_fixed v : var_is_fixed_to_zero v = true ->
    exists c1 b1 c2 b2, has_lower_bound v = Some (c1, b1, false) /\ has_upper_bound v = Some (c2, b2, false) /\
      val b1 = 0 /\ val b2 = 0;
  law_equiv t expl : explain_by_equiv t = Some expl ->
    forall x, D x -> (forall c, c ∈ expl -> cs c x) -> tval (val := val) x t = 0;
  law_column t k j : fetch_normalized_term_column t = Some (k, j) ->
    val k <> 0 /\ forall x, D x -> x j = val k * tval (val := val) x t }.

Section Proofs.
Context {num : Type} {Mgr : NumManager num} {Core : NlaCore num} {val : num -> R} {L : NumLaws val}.
Context {D : (lpvar -> R) -> Prop} {cs : Z -> (lpvar -> R) -> Prop} {NL : NlaLaws val D cs}.
Abbreviation state := (dep_im num).
Abbreviation lower_ok := (lower_ok (val := val)).
Abbreviation upper_ok := (upper_ok (val := val)).
Abbreviation member := (member (val := val)).
Abbreviation dep_ok := (dep_ok (val := val)).
Abbreviation nval := (nval (val := val)).

Definition feasible (x : lpvar -> R) : Prop := D x /\ forall c, cs c x.

(** *** Frames *)

Definition same_loc (s s' : state) (i : loc) : Prop :=
  m_lower_dep s' i = m_lower_dep s i /\ m_upper_dep s' i = m_upper_dep s i /\ same_at (di_im s) (di_im s') i.
(** Only the intervals in [P] change, and the graph grows. *)
Definition touch (P : loc -> Prop) (s s' : state) : Prop :=
  dwf s' /\ extends (di_deps s) (di_deps s') /\ forall i, ~ P i -> same_loc s s' i.

Lemma same_loc_trans s1 s2 s3 i : same_loc s1 s2 i -> same_loc s2 s3 i -> same_loc s1 s3 i.
Proof.
  intros (E1 & E2 & ?&?&?&?&?&?) (F1 & F2 & ?&?&?&?&?&?). split; [congruence|]. split; [congruence|].
  split_and!; congruence.
Qed.
Lemma touch_trans P s1 s2 s3 : touch P s1 s2 -> touch P s2 s3 -> touch P s1 s3.
Proof.
  intros (_ & X1 & F1) (W & X2 & F2). split; [done|]. split; [by etrans|]. intros i Hi. eapply same_loc_trans; auto.
Qed.
Lemma touch_mono (P Q : loc -> Prop) s s' : (forall i, P i -> Q i) -> touch P s s' -> touch Q s s'.
Proof. intros H (W & X & F). split; [done|]. split; [done|]. auto. Qed.
Lemma touch_refl P s : dwf s -> touch P s s.
Proof. intros W. split; [done|]. split; [done|]. intros i _. by split. Qed.

Definition holds_at (wd : bool) (s : state) (a : loc) (V : (lpvar -> R) -> R) : Prop :=
  (forall x, feasible x -> member (di_im s) a (V x)) /\
  (wd = true -> forall x, D x -> dep_ok (fun c => cs c x) s a (V x)).

Lemma holds_at_same wd s s' a V : dwf s -> extends (di_deps s) (di_deps s') -> same_loc s s' a ->
  holds_at wd s a V -> holds_at wd s' a V.
Proof.
  intros W X (El & Eu & S) [H1 H2]. destruct (same_at_bounds (val := val) _ _ _ S) as [Sl Su]. split.
  - intros x Hx. apply (same_at_member (val := val) _ _ _ _ S). auto.
  - intros Hwd x Hx. by apply (dep_ok_frame (val := val) _ s); auto.
Qed.
Lemma holds_at_touch P wd s s' a V : dwf s -> touch P s s' -> ~ P a -> holds_at wd s a V -> holds_at wd s' a V.
Proof. intros W (_ & X & F) Ha. apply holds_at_same; auto. Qed.
Lemma holds_at_ext wd s a V V' : (forall x, D x -> V x = V' x) -> holds_at wd s a V -> holds_at wd s a V'.
Proof.
  intros E [H1 H2]. split; [intros x Hx; rewrite <- E by apply Hx; auto | intros Hwd x Hx; rewrite <- E; auto].
Qed.

(** An interval that contains a value and has given bounds. *)
Definition val_at (wd : bool) (s : state) (a : loc) (V : (lpvar -> R) -> R) (B : bounds num) : Prop :=
  holds_at wd s a V /\ dobs s a = B.

Lemma dobs_touch P s s' a : touch P s s' -> ~ P a -> dobs s' a = dobs s a.
Proof. intros (_ & _ & F) Ha. destruct (F a Ha) as (_ & _ & S). by apply same_at_obs. Qed.
Lemma val_at_touch P wd s s' a V B : dwf s -> touch P s s' -> ~ P a -> val_at wd s a V B -> val_at wd s' a V B.
Proof. intros W T Ha [H E]. split; [by eapply holds_at_touch | by rewrite (dobs_touch P s s')]. Qed.
Lemma val_at_ext wd s a V V' B : (forall x, D x -> V x = V' x) -> val_at wd s a V B -> val_at wd s a V' B.
Proof. intros E [H Eb]. split; [by eapply holds_at_ext | done]. Qed.

(** Anything is in a fresh interval. *)
Lemma fresh_inf s a : dobs s a = fresh_bounds -> lower_is_inf s a = true /\ upper_is_inf s a = true.
Proof. intros (_ & _ & _ & _ & E1 & E2)%fresh_obs. by split. Qed.
Lemma fresh_val wd s a V : dobs s a = fresh_bounds -> val_at wd s a V fresh_bounds.
Proof.
  intros F. split; [|done]. destruct (fresh_inf s a F) as [E1 E2]. unfold lower_is_inf, upper_is_inf in *.
  assert (B : forall y, lower_ok (di_im s) a y /\ upper_ok (di_im s) a y).
  { intros y. unfold IntervalProofs.lower_ok, IntervalProofs.upper_ok, interval_manager.lower_kind,
      interval_manager.upper_kind. by rewrite E1, E2. }
  split; [intros x _; split; apply B | intros _ x _; split; intros _; apply B].
Qed.
Lemma new_interval_touch a s : dwf s -> touch (fun i => i = a) s (nla_intervals.new_interval a s).
Proof.
  intros [W V]. split; [|split; [done|]].
  - split; [done|]. intros i. cbn. destruct (V i).
    destruct (decide (i = a)) as [->|Hi]; rewrite ?fn_lookup_insert, ?fn_lookup_insert_ne by done; done.
  - intros i Hi. unfold same_loc, same_at. cbn. by rewrite !fn_lookup_insert_ne by done.
Qed.

(** *** Operations of [dep_intervals] *)

Lemma op_holds f j a b c g wd s (m : option state) Va Vb : dwf s -> holds_at wd s a Va -> holds_at wd s b Vb ->
  (forall i, i <> c -> same_at (di_im s) (f (di_im s)) i) ->
  ((exists x0, feasible x0) -> forall x y, justified (val := val) (di_im s) (f (di_im s)) j a b c x y (g x y)) ->
  (exists x0, feasible x0) ->
  (if wd then exists s', m = Some s' /\ deps_result (val := val) s (on_im f s) j a b c s' else m = Some (on_im f s)) ->
  exists s', m = Some s' /\ touch (fun i => i = c) s s' /\
    val_at wd s' c (fun x => g (Va x) (Vb x)) (obs (f (di_im s)) c).
Proof.
  intros W [Ma Da] [Mb Db] F J Hf Hm. specialize (J Hf). destruct wd.
  - destruct Hm as (s' & -> & [W' Ei X Fr Ok]). exists s'. split; [done|]. cbn in Ei. split; [split; [done|split; [done|]]|].
    + intros i Hi. destruct (Fr i Hi). split; [done|]. split; [done|]. rewrite Ei. auto.
    + split; [|unfold dobs; by rewrite Ei].
      split; [intros x Hx; rewrite Ei; eapply justified_member; auto | intros Hwd x Hx; eapply Ok; auto].
  - eexists. split; [exact Hm|]. split; [split; [done|split; [done|]]|].
    + intros i Hi. split; [done|]. split; [done|]. auto.
    + split; [|done]. split; [|done]. intros x Hx. eapply justified_member; auto.
Qed.

Lemma holds_at_invariant wd s a V : (exists x0, feasible x0) -> holds_at wd s a V ->
  interval_manager.check_invariant (di_im s) a = true.
Proof. intros [x0 Hx] [H _]. by eapply (member_invariant (val := val)), H. Qed.

Lemma add_holds wd a b c s Va Vb Ba Bb : (exists x0, feasible x0) -> dwf s ->
  val_at wd s a Va Ba -> val_at wd s b Vb Bb ->
  exists s', add wd a b c s = Some s' /\ touch (fun i => i = c) s s' /\
    val_at wd s' c (fun x => Va x + Vb x) (result2 interval_manager.add Ba Bb).
Proof.
  intros Hf W [Ha <-] [Hb <-]. unfold dobs. rewrite <- (add_obs _ a b c).
  apply (op_holds (interval_manager.add a b c) (interval_manager.add_jst (di_im s) a b) a b c Rplus);
    try done; [by intros; apply add_frame | by intros; apply add_justified |].
  unfold add. destruct wd; [by apply add_deps_ok | done].
Qed.
Lemma mul_holds wd a b c s Va Vb Ba Bb : (exists x0, feasible x0) -> dwf s -> c <> a -> c <> b -> dobs s c = fresh_bounds ->
  val_at wd s a Va Ba -> val_at wd s b Vb Bb ->
  exists s', mul wd a b c s = Some s' /\ touch (fun i => i = c) s s' /\
    val_at wd s' c (fun x => Va x * Vb x) (result2 interval_manager.mul Ba Bb).
Proof.
  intros Hf W Hca Hcb Hc [Ha <-] [Hb <-]. unfold dobs in *. rewrite <- (mul_obs _ a b c) by done.
  apply (op_holds (interval_manager.mul a b c) (interval_manager.mul_jst (di_im s) a b) a b c Rmult);
    try done; [by intros; apply mul_frame | |].
  - intros _ x y. apply mul_justified; by eapply holds_at_invariant.
  - unfold mul. destruct wd; [by apply add_deps_ok | done].
Qed.

Context {NR : NoRounding num}.
Hypothesis precise : m_precise = true.

Lemma power_holds wd a n b s V B : (exists x0, feasible x0) -> (0 < n)%nat -> n <> 1%nat -> b <> a -> dwf s ->
  val_at wd s a V B ->
  exists s', power wd a n b s = Some s' /\ touch (fun i => i = b) s s' /\
    val_at wd s' b (fun x => V x ^ n) (result2 (fun a _ => interval_manager.power a n) B B).
Proof.
  intros Hf Hn Hn1 Hab W [Ha <-]. unfold power. rewrite bool_decide_false by done. rewrite andb_false_r.
  unfold dobs. rewrite <- (power_obs _ a n b) by done.
  apply (op_holds (interval_manager.power a n b) (interval_manager.power_jst (di_im s) a n) a a b (fun x _ => x ^ n) _ _ _ V V);
    try done; [by intros; apply power_frame | |].
  - intros _ x y. by apply power_pair_justified.
  - destruct wd; [|done]. apply add_deps1_ok; [done|]. apply power_rule_unary.
Qed.

Lemma touch_intro c s s' : dwf s -> di_deps s' = di_deps s ->
  valid (di_deps s) (m_lower_dep s' c) -> valid (di_deps s) (m_upper_dep s' c) ->
  (forall i, i <> c -> same_loc s s' i) -> touch (fun i => i = c) s s'.
Proof.
  intros [W V] E Vl Vu F. split; [|split; [by rewrite E | done]]. split; [by rewrite E|]. intros i. rewrite E.
  destruct (decide (i = c)) as [->|Hi]; [done|]. destruct (F i Hi) as (-> & -> & _). apply V.
Qed.

Lemma set_holds wd a b s V B : dwf s -> a <> b -> val_at wd s b V B ->
  touch (fun i => i = a) s (set wd a b s) /\ val_at wd (set wd a b s) a V (copied (dobs s a) B).
Proof.
  intros W Hab [[Hm Hd] <-]. pose proof W as [_ Hv]. destruct (Hv a) as [Va1 Va2], (Hv b) as [Vb1 Vb2]. split.
  - apply touch_intro; [done | by destruct wd | | |];
      [destruct wd; cbn; by rewrite ?fn_lookup_insert | destruct wd; cbn; by rewrite ?fn_lookup_insert |].
    intros i Hi. destruct wd; unfold same_loc; cbn; rewrite ?fn_lookup_insert_ne by done;
      (split; [done|split; [done | by apply set_frame]]).
  - split; [|by apply dset_obs]. split.
    + intros x Hx. destruct (Hm x Hx). destruct wd; (split; [by apply set_lower_ok | by apply set_upper_ok]).
    + intros -> x Hx. destruct (Hd eq_refl x Hx) as [Dl Du]. split; cbn; rewrite fn_lookup_insert; intros Hh.
      * by apply set_lower_ok, Dl.
      * by apply set_upper_ok, Du.
Qed.

Lemma mul_r_holds wd r a b s V B : dwf s -> val r <> 0 -> val_at wd s a V B ->
  touch (fun i => i = b) s (mul_r wd r a b s) /\
  val_at wd (mul_r wd r a b s) b (fun x => val r * V x) (result2 (fun a _ => interval_manager.mul_k r a) B B).
Proof.
  intros W Hr [[Hm Hd] <-]. pose proof W as [_ Hv]. destruct (Hv a) as [Va1 Va2], (Hv b) as [Vb1 Vb2].
  assert (Z : m_is_zero r = false).
  { apply not_true_iff_false. by rewrite (val_is_zero (val := val)). }
  pose proof (mul_r_obs wd r a b s Z) as Hobs.
  assert (J : forall x, justified (val := val) (di_im s) (interval_manager.mul_k r a b (di_im s))
    (interval_manager.mul_k_jst (di_im s) r a) a a b x x (val r * x)).
  { intros x. rewrite Rmult_comm. apply mul_k_justified. }
  unfold interval_manager.mul_k_jst in J. rewrite Z in J.
  unfold mul_r in *. rewrite Z in *. cbv zeta in *. rewrite (not_pos_is_neg (val := val) r Z) in *. split.
  - apply touch_intro; [done | by destruct wd, (m_is_neg r) | | |];
      [destruct wd, (m_is_neg r); cbn; by rewrite ?fn_lookup_insert.. |].
    intros i Hi. destruct wd, (m_is_neg r); unfold same_loc; cbn; rewrite ?fn_lookup_insert_ne by done;
      (split; [done|split; [done | by apply div_mul_frame]]).
  - split; [|done]. clear Hobs. split.
    + intros x Hx. specialize (Hm x Hx). destruct wd, (m_is_neg r); by eapply justified_member; [apply J|..].
    + intros -> x Hx. destruct (Hd eq_refl x Hx) as [Dl Du], (J (V x)) as [Jl Ju].
      destruct (m_is_neg r); split; cbn; rewrite fn_lookup_insert; intros Hh; (apply Jl || apply Ju);
        split_and!; try done; intros _; (apply Dl || apply Du); done.
Qed.

Lemma add_r_holds wd r a s V B : dwf s -> val_at wd s a V B ->
  touch (fun i => i = a) s (add_r r a s) /\ val_at wd (add_r r a s) a (fun x => V x + val r) (shifted r B).
Proof.
  intros W [[Hm Hd] <-]. pose proof W as [_ Hv]. destruct (Hv a). destruct (add_r_im precise s r a) as (Ed & El & Eu & F & Hl & Hu).
  split.
  - apply touch_intro; [done | done | by rewrite El | by rewrite Eu |]. intros i Hi. split; [by rewrite El|].
    split; [by rewrite Eu | auto].
  - split; [|apply add_r_obs].
    split; [intros x Hx; destruct (Hm x Hx); split; auto|]. intros Hwd x Hx. destruct (Hd Hwd x Hx) as [Dl Du].
    unfold DepIntervalsProofs.dep_ok, holds in *. rewrite El, Eu, Ed. split; auto.
Qed.

(** *** Columns and scalars *)

Lemma scalar_member a v s : member (di_im (set_interval_for_scalar a v s)) a (val v).
Proof. split; ist; cbn; rewrite ?fn_lookup_insert; cbn; rewrite ?fn_lookup_insert; apply Rle_refl. Qed.
Lemma scalar_touch a v s : dwf s -> touch (fun i => i = a) s (set_interval_for_scalar a v s).
Proof.
  intros W. pose proof W as [_ Hv]. destruct (Hv a). apply touch_intro; try done.
  intros i Hi. unfold same_loc, same_at. cbn. by rewrite !fn_lookup_insert_ne by done.
Qed.
(** The interval of a number. *)
Definition point (v : num) : bounds num := Bounds v v false false false false.
Lemma scalar_holds wd a v s : val_at wd (set_interval_for_scalar a v s) a (fun _ => val v) (point v).
Proof.
  destruct (scalar_member a v s) as [Hl Hu]. split; [|apply scalar_obs].
  split; [intros x _; by split | intros _ x _; split; intros _; [exact Hl | exact Hu]].
Qed.

(** One bound of an interval. *)
Definition lower_holds (wd : bool) (s : state) (a : loc) (V : (lpvar -> R) -> R) : Prop :=
  (forall x, feasible x -> lower_ok (di_im s) a (V x)) /\
  (wd = true -> forall x, D x -> holds (fun c => cs c x) s (m_lower_dep s a) -> lower_ok (di_im s) a (V x)).
Definition upper_holds (wd : bool) (s : state) (a : loc) (V : (lpvar -> R) -> R) : Prop :=
  (forall x, feasible x -> upper_ok (di_im s) a (V x)) /\
  (wd = true -> forall x, D x -> holds (fun c => cs c x) s (m_upper_dep s a) -> upper_ok (di_im s) a (V x)).

Lemma holds_at_bounds wd s a V : holds_at wd s a V <-> lower_holds wd s a V /\ upper_holds wd s a V.
Proof.
  split.
  - intros [Hm Hd]. split; (split; [intros x Hx; apply (Hm x Hx) | intros Hwd x Hx; apply (Hd Hwd x Hx)]).
  - intros [[L1 L2] [U1 U2]]. split; [intros x Hx; split; auto | intros Hwd x Hx; split; auto].
Qed.

(** The leaf that names constraint [ci]. *)
Lemma leaf_ok ci (s : state) : dwf s -> exists d s', mk_leaf ci s = (d, s') /\ dwf s' /\ deps_only s s' /\ valid (di_deps s') d /\
  forall C, holds C s' d <-> C ci.
Proof.
  intros [W V]. pose proof (mk_leaf_spec ci (di_deps s) W) as H. unfold mk_leaf.
  destruct (dep_manager.mk_leaf ci (di_deps s)) as [d m]. destruct H as (W' & X & Vd & Hl).
  exists d, (set_deps m s). split; [done|]. split; [split; [done|]|].
  - intros i. destruct (V i). split; by eapply extends_valid.
  - split; [by split_and!|]. split; [done|]. intros C. unfold holds. cbn. split.
    + intros H. by apply H, Hl.
    + by intros Hc w ->%Hl.
Qed.


Lemma lower_num (s : state) a x : interval_manager.lower_is_inf (di_im s) a = false ->
  lower_ok (di_im s) a x <-> le_o (interval_manager.lower_is_open (di_im s) a) (val (interval_manager.lower (di_im s) a)) x.
Proof. intros E. unfold IntervalProofs.lower_ok, interval_manager.lower_kind. by rewrite E. Qed.
Lemma upper_num (s : state) a x : interval_manager.upper_is_inf (di_im s) a = false ->
  upper_ok (di_im s) a x <-> le_o (interval_manager.upper_is_open (di_im s) a) x (val (interval_manager.upper (di_im s) a)).
Proof. intros E. unfold IntervalProofs.upper_ok, interval_manager.upper_kind. by rewrite E. Qed.

Lemma set_var_lower_ok wd v b s : dwf s ->
  touch (fun i => i = b) s (nla_intervals.set_var_lower wd v b s) /\
  lower_holds wd (nla_intervals.set_var_lower wd v b s) b (fun x => x v).
Proof.
  intros W. pose proof W as [_ Hv]. destruct (Hv b). unfold nla_intervals.set_var_lower.
  destruct (has_lower_bound v) as [[[ci c] strict]|] eqn:E.
  - pose proof (law_lower (val := val) _ _ _ _ E) as Law.
    set (s1 := set_lower_is_inf b false (set_lower_is_open b strict (set_lower b c s))).
    assert (W1 : dwf s1) by done.
    assert (F1 : forall i, i <> b -> same_at (di_im s) (di_im s1) i).
    { intros i Hi. unfold same_at. cbn. by rewrite !fn_lookup_insert_ne by done. }
    assert (B1 : forall x, lower_ok (di_im s1) b x <-> le_o strict (val c) x).
    { intros x. rewrite lower_num; cbn; by rewrite !fn_lookup_insert. }
    destruct wd.
    + destruct (leaf_ok ci s1 W1) as (d & s2 & -> & [W2 V2] & (Ei & El & Eu & X) & Vd & Hd). split.
      * split; [split; [done|]|split; [done|]].
        -- intros i. cbn. destruct (V2 i). destruct (decide (i = b)) as [->|Hi];
             rewrite ?fn_lookup_insert, ?fn_lookup_insert_ne by done; done.
        -- intros i Hi. unfold same_loc. cbn. rewrite fn_lookup_insert_ne, El, Eu, Ei by done. auto.
      * split; cbn [set_lower_dep di_im m_lower_dep]; rewrite ?fn_lookup_insert, Ei; intros; apply B1;
          [apply Law; apply H1 || apply H1|]. apply Law; [done|]. by apply Hd.
    + split; [apply touch_intro; try done; intros i Hi; split; [done|split; [done|auto]]|].
      split; [|done]. intros x [Hx Hc]. apply B1, Law; auto.
  - set (s1 := set_lower_is_inf b true (set_lower_is_open b true s)).
    assert (F1 : forall i, i <> b -> same_at (di_im s) (di_im s1) i).
    { intros i Hi. unfold same_at. cbn. by rewrite !fn_lookup_insert_ne by done. }
    assert (B1 : forall x, lower_ok (di_im s1) b x).
    { intros x. ist. done. }
    split; [|by destruct wd; split; intros; apply B1].
    apply touch_intro; [done | by destruct wd | by destruct wd; cbn; rewrite ?fn_lookup_insert | by destruct wd |].
    intros i Hi. destruct wd; unfold same_loc; cbn; rewrite ?fn_lookup_insert_ne by done; auto.
Qed.
Lemma set_var_upper_ok wd v b s : dwf s ->
  touch (fun i => i = b) s (nla_intervals.set_var_upper wd v b s) /\
  upper_holds wd (nla_intervals.set_var_upper wd v b s) b (fun x => x v).
Proof.
  intros W. pose proof W as [_ Hv]. destruct (Hv b). unfold nla_intervals.set_var_upper.
  destruct (has_upper_bound v) as [[[ci c] strict]|] eqn:E.
  - pose proof (law_upper (val := val) _ _ _ _ E) as Law.
    set (s1 := set_upper_is_inf b false (set_upper_is_open b strict (set_upper b c s))).
    assert (W1 : dwf s1) by done.
    assert (F1 : forall i, i <> b -> same_at (di_im s) (di_im s1) i).
    { intros i Hi. unfold same_at. cbn. by rewrite !fn_lookup_insert_ne by done. }
    assert (B1 : forall x, upper_ok (di_im s1) b x <-> le_o strict x (val c)).
    { intros x. rewrite upper_num; cbn; by rewrite !fn_lookup_insert. }
    destruct wd.
    + destruct (leaf_ok ci s1 W1) as (d & s2 & -> & [W2 V2] & (Ei & El & Eu & X) & Vd & Hd). split.
      * split; [split; [done|]|split; [done|]].
        -- intros i. cbn. destruct (V2 i). destruct (decide (i = b)) as [->|Hi];
             rewrite ?fn_lookup_insert, ?fn_lookup_insert_ne by done; done.
        -- intros i Hi. unfold same_loc. cbn. rewrite fn_lookup_insert_ne, El, Eu, Ei by done. auto.
      * split; cbn [set_upper_dep di_im m_upper_dep]; rewrite ?fn_lookup_insert, Ei; intros; apply B1;
          [apply Law; apply H1 || apply H1|]. apply Law; [done|]. by apply Hd.
    + split; [apply touch_intro; try done; intros i Hi; split; [done|split; [done|auto]]|].
      split; [|done]. intros x [Hx Hc]. apply B1, Law; auto.
  - set (s1 := set_upper_is_inf b true (set_upper_is_open b true s)).
    assert (F1 : forall i, i <> b -> same_at (di_im s) (di_im s1) i).
    { intros i Hi. unfold same_at. cbn. by rewrite !fn_lookup_insert_ne by done. }
    assert (B1 : forall x, upper_ok (di_im s1) b x).
    { intros x. ist. done. }
    split; [|by destruct wd; split; intros; apply B1].
    apply touch_intro; [done | by destruct wd | by destruct wd | by destruct wd; cbn; rewrite ?fn_lookup_insert |].
    intros i Hi. destruct wd; unfold same_loc; cbn; rewrite ?fn_lookup_insert_ne by done; auto.
Qed.

Lemma set_var_upper_keeps_lower wd v b s V : dwf s -> lower_holds wd s b V ->
  lower_holds wd (nla_intervals.set_var_upper wd v b s) b V.
Proof.
  intros W [H1 H2]. pose proof W as [_ Hv]. destruct (Hv b). unfold nla_intervals.set_var_upper.
  destruct (has_upper_bound v) as [[[ci c] strict]|] eqn:E.
  - set (s1 := set_upper_is_inf b false (set_upper_is_open b strict (set_upper b c s))). destruct wd; [|split; [exact H1 | exact H2]].
    destruct (leaf_ok ci s1 W) as (d & s2 & -> & _ & D2 & _ & _). pose proof D2 as (Ei & El & _).
    split; cbn [set_upper_dep di_im m_lower_dep]; rewrite Ei; [exact H1|]. intros _ x Hx. rewrite El. intros Hh.
    apply H2; [done | done |]. by apply (deps_only_holds (fun c => cs c x) s1 s2).
  - destruct wd; (split; [exact H1 | exact H2]).
Qed.

Lemma set_var_interval_holds wd v b s : dwf s -> dobs s b = fresh_bounds ->
  touch (fun i => i = b) s (nla_intervals.set_var_interval wd v b s) /\
  val_at wd (nla_intervals.set_var_interval wd v b s) b (fun x => x v) (column_bounds v).
Proof.
  intros W F. unfold val_at. rewrite (set_var_obs wd v b s F). unfold nla_intervals.set_var_interval. destruct (set_var_lower_ok wd v b s W) as [T1 H1].
  pose proof T1 as [W1 _]. destruct (set_var_upper_ok wd v b _ W1) as [T2 H2]. split; [by eapply touch_trans|].
  split; [|done]. apply holds_at_bounds. split; [by apply set_var_upper_keeps_lower | done].
Qed.

(** *** Powers and terms *)

(** The interval [a] and the local ones may change. *)
Definition scope (a nxt : loc) (i : loc) : Prop := i = a \/ (nxt <= i)%nat.

Lemma touch_scope c a nxt s s' : scope a nxt c -> touch (fun i => i = c) s s' -> touch (scope a nxt) s s'.
Proof. intros Hc. apply touch_mono. by intros i ->. Qed.

Definition powered (p : nat) (x : bounds num) : bounds num :=
  if (p =? 1)%nat then x else copied x (result2 (fun a _ => interval_manager.power a p) x x).
Lemma to_power_holds wd a p nxt s V B : (exists x0, feasible x0) -> (0 < p)%nat -> (a < nxt)%nat -> dwf s ->
  val_at wd s a V B ->
  exists s', nla_intervals.to_power wd a p nxt s = Some s' /\ touch (scope a nxt) s s' /\
    val_at wd s' a (fun x => V x ^ p) (powered p B).
Proof.
  intros Hf Hp Ha W H. unfold nla_intervals.to_power, powered. destruct (Nat.eqb_spec p 1) as [->|Hp1].
  { exists s. split; [done|]. split; [by apply touch_refl|]. eapply val_at_ext; [|done]. intros x _. lra. }
  pose proof (new_interval_touch nxt s W) as T1. pose proof T1 as [W1 _].
  assert (H1 : val_at wd (nla_intervals.new_interval nxt s) a V B) by (apply (val_at_touch _ _ _ _ _ _ _ W T1); [cbn; lia | done]).
  destruct (power_holds wd a p nxt _ V B Hf Hp Hp1 ltac:(lia) W1 H1) as (s2 & E2 & T2 & H2). rewrite E2. cbn [mbind option_bind].
  pose proof T2 as [W2 _]. destruct (set_holds wd a nxt s2 _ _ W2 ltac:(lia) H2) as [T3 H3].
  rewrite (dobs_touch _ _ _ a T2), (proj2 H1) in H3 by (cbn; lia). eexists. split; [done|]. split; [|done].
  eapply touch_trans; [eapply touch_scope, T1; by right|].
  eapply touch_trans; [eapply touch_scope, T2; by right | eapply touch_scope, T3; by left].
Qed.

Lemma add_expl_to_lower_ok exp i s : dwf s ->
  exists s', nla_intervals.add_expl_to_lower exp i s = Some s' /\ dwf s' /\ extends (di_deps s) (di_deps s') /\
    di_im s' = di_im s /\ (forall j, j <> i -> same_loc s s' j) /\
    forall C, holds C s' (m_lower_dep s' i) -> holds C s (m_lower_dep s i) /\ forall c, c ∈ exp -> C c.
Proof.
  revert s. induction exp as [|ci exp IH]; intros s W.
  { exists s. split; [done|]. split_and!; try done. intros C Hh. split; [done|]. intros c Hc. by apply not_elem_of_nil in Hc. }
  cbn [nla_intervals.add_expl_to_lower]. destruct (leaf_ok ci s W) as (d & s1 & -> & W1 & D1 & Vd & Hd).
  pose proof W1 as [_ V1]. destruct (V1 i) as [Vl _].
  destruct (mk_join_ok (m_lower_dep s1 i) d s1 W1 Vl Vd) as (d2 & s2 & E2 & W2 & D2 & V2 & Hd2). rewrite E2.
  cbn [mbind option_bind]. assert (W3 : dwf (set_lower_dep i d2 s2)).
  { destruct W2 as [W2 V]. split; [done|]. intros j. cbn. destruct (V j).
    destruct (decide (j = i)) as [->|Hj]; rewrite ?fn_lookup_insert, ?fn_lookup_insert_ne by done; done. }
  destruct (IH _ W3) as (s4 & E4 & W4 & X4 & Ei4 & F4 & H4). exists s4. cbn [set_lower_dep di_im di_deps m_lower_dep] in *.
  destruct D1 as (Ei1 & El1 & Eu1 & X1), D2 as (Ei2 & El2 & Eu2 & X2).
  split; [done|]. split; [done|]. split; [etrans; [exact X1|]; etrans; [exact X2 | exact X4]|]. split; [congruence|]. split.
  - intros j Hj. eapply same_loc_trans; [|by apply F4]. unfold same_loc. cbn.
    rewrite fn_lookup_insert_ne, El2, El1, Eu2, Eu1, Ei2, Ei1 by done. by split.
  - intros C Hh. apply H4 in Hh as [Hl He]. rewrite fn_lookup_insert in Hl. apply Hd2 in Hl as [Hl Hc].
    rewrite El1 in Hl. split.
    + pose proof W as [_ V]. destruct (V i). by apply (deps_only_holds C s s1).
    + intros c [->|Hc']%elem_of_cons; [exact (proj1 (Hd C) Hc) | by apply He].
Qed.

Lemma equiv_holds (wd : bool) expl i b (s : state) V : dwf s ->
  (forall x, D x -> (forall c, c ∈ expl -> cs c x) -> V x = val b) ->
  exists s', (let s := set_interval_for_scalar i b s in
      if wd then
        s' ← nla_intervals.add_expl_to_lower expl i s; Some (true, set_upper_dep i (m_lower_dep s' i) s')
      else Some (true, s)) = Some (true, s') /\ touch (fun j => j = i) s s' /\ val_at wd s' i V (point b).
Proof.
  intros W HV. cbv zeta. pose proof (scalar_touch i b s W) as T1. pose proof (scalar_member i b s) as M1. pose proof (scalar_obs i b s) as O1.
  set (s1 := set_interval_for_scalar i b s) in *. pose proof T1 as [W1 [X1 F1]].
  assert (M : forall x, feasible x -> member (di_im s1) i (V x)).
  { intros x Hx. rewrite HV; [done | apply Hx | intros c _; apply Hx]. }
  destruct wd; [|eexists; split; [done|]; split; [done|]; split; [by split | done]].
  destruct (add_expl_to_lower_ok expl i s1 W1) as (s2 & E2 & W2 & X2 & Ei2 & F2 & H2). rewrite E2. cbn [mbind option_bind].
  eexists. split; [done|]. split.
  - split; [|split; [cbn; by etrans|]].
    + destruct W2 as [W2 V2]. split; [done|]. intros j. cbn. destruct (V2 j), (V2 i).
      destruct (decide (j = i)) as [->|Hj]; rewrite ?fn_lookup_insert, ?fn_lookup_insert_ne by done; done.
    + intros j Hj. eapply same_loc_trans; [by apply F1|]. eapply same_loc_trans; [by apply F2|].
      unfold same_loc. cbn. by rewrite !fn_lookup_insert_ne by done.
  - assert (B : forall x, D x -> holds (fun c => cs c x) s2 (m_lower_dep s2 i) -> member (di_im s1) i (V x)).
    { intros x Hx Hh. apply H2 in Hh as [_ Hc]. by rewrite HV. }
    split; [|unfold dobs in *; cbn; by rewrite Ei2].
    split; [intros x Hx; cbn; rewrite Ei2; auto|]. intros _ x Hx. split; cbn; rewrite ?fn_lookup_insert, Ei2; intros Hh; by apply B.
Qed.

(** The interval of [a * x_j + b]. *)
Definition affine_bounds (a : num) (j : lpvar) (b : num) : bounds num :=
  let x := column_bounds j in copied x (shifted b (result2 (fun i _ => interval_manager.mul_k a i) x x)).
Lemma column_holds wd a j b i nxt (s : state) : dwf s -> dobs s i = fresh_bounds -> (i < nxt)%nat -> val a <> 0 ->
  let s1 := nla_intervals.set_var_interval wd j i s in
  let s2 := mul_r wd a i nxt (nla_intervals.new_interval nxt s1) in
  let s3 := set wd i nxt (add_r b nxt s2) in
  touch (scope i nxt) s s3 /\ val_at wd s3 i (fun x => val a * x j + val b) (affine_bounds a j b).
Proof.
  intros W F Hi Ha. cbv zeta. destruct (set_var_interval_holds wd j i s W F) as [T1 H1].
  set (s1 := nla_intervals.set_var_interval wd j i s) in *. pose proof T1 as [W1 _].
  pose proof (new_interval_touch nxt s1 W1) as T2. set (s2 := nla_intervals.new_interval nxt s1) in *.
  pose proof T2 as [W2 _].
  assert (H2 : val_at wd s2 i (fun x => x j) (column_bounds j)) by (apply (val_at_touch _ _ _ _ _ _ _ W1 T2); [cbn; lia | done]).
  destruct (mul_r_holds wd a i nxt s2 _ _ W2 Ha H2) as [T3 H3]. set (s3 := mul_r wd a i nxt s2) in *. pose proof T3 as [W3 _].
  destruct (add_r_holds wd b nxt s3 _ _ W3 H3) as [T4 H4]. set (s4 := add_r b nxt s3) in *. pose proof T4 as [W4 _].
  destruct (set_holds wd i nxt s4 _ _ W4 ltac:(lia) H4) as [T5 H5].
  rewrite (dobs_touch _ _ _ i T4), (dobs_touch _ _ _ i T3), (proj2 H2) in H5 by (cbn; lia). split; [|done].
  eapply touch_trans; [eapply touch_scope, T1; by left|].
  eapply touch_trans; [eapply touch_scope, T2; by right|].
  eapply touch_trans; [eapply touch_scope, T3; by right|].
  eapply touch_trans; [eapply touch_scope, T4; by right | eapply touch_scope, T5; by left].
Qed.

(** The answer, and the bounds where a term was found, depend on the sum only. *)
Lemma interval_from_term_ok l : is_a_linear_term l = true -> forallb linear_child l = true ->
  exists B, forall wd i nxt s, dwf s -> dobs s i = fresh_bounds -> (i < nxt)%nat ->
  exists s', nla_intervals.interval_from_term wd l i nxt s = Some (bool_decide (is_Some B), s') /\ touch (scope i nxt) s s' /\
    forall b, B = Some b -> val_at wd s' i (fun x => nval x (nex_sum l)) b.
Proof.
  intros Hl Hc. destruct (expression_to_normalized_term_ok (val := val) precise true l Hl Hc) as (t & a & b & E & Ha & Hx).
  destruct (explain_by_equiv t) as [expl|] eqn:Ee.
  - exists (Some (point b)). intros wd i nxt s W F Hi.
    destruct (equiv_holds wd expl i b s (fun x => nval x (nex_sum l)) W) as (s' & E2 & T & H).
    { intros x Hd He. change (sval (val := val) x l = val b). rewrite Hx, (law_equiv _ _ Ee x Hd He). lra. }
    exists s'. unfold nla_intervals.interval_from_term. rewrite expression_to_normalized_term_up, E.
    cbn [mbind option_bind]. rewrite Ee. split; [exact E2|]. split; [eapply touch_scope, T; by left|]. by intros _ [= <-].
  - destruct (fetch_normalized_term_column t) as [[k j]|] eqn:Ek.
    + destruct (law_column _ _ _ Ek) as [Hk Hj]. pose proof (nla_div_exact (val := val) precise true a k Hk) as Hq.
      exists (Some (affine_bounds (m_div true a k) j b)). intros wd i nxt s W F Hi.
      destruct (column_holds wd (m_div true a k) j b i nxt s W F Hi) as [T H].
      { rewrite Hq. unfold Rdiv. apply Rmult_integral_contrapositive. split; [done|]. by apply Rinv_neq_0_compat. }
      unfold nla_intervals.interval_from_term. rewrite expression_to_normalized_term_up, E. cbn [mbind option_bind].
      rewrite Ee. unfold nla_intervals.find_term_column. rewrite Ek. cbn [mbind option_bind]. rewrite nr_div.
      eexists. split; [done|]. split; [exact T|]. intros _ [= <-]. eapply val_at_ext; [|exact H].
      intros x Hd. change (nval x (nex_sum l)) with (sval (val := val) x l). cbv beta. rewrite Hx, Hq, (Hj x Hd). by field.
    + exists None. intros wd i nxt s W F Hi.
      unfold nla_intervals.interval_from_term. rewrite expression_to_normalized_term_up, E. cbn [mbind option_bind].
      rewrite Ee. unfold nla_intervals.find_term_column. rewrite Ek. cbn [mbind option_bind].
      exists s. split; [done|]. split; [by apply touch_refl | done].
Qed.

(** *** Intersections *)

Lemma copy_lower_dwf wd c i (s : state) : dwf s -> dwf (copy_lower_bound wd c i s).
Proof.
  intros [W V]. split; [by destruct wd|]. intros j. destruct (V c), (V j).
  destruct wd; cbn; destruct (decide (j = i)) as [->|Hj]; rewrite ?fn_lookup_insert, ?fn_lookup_insert_ne by done; done.
Qed.
Lemma copy_upper_dwf wd c i (s : state) : dwf s -> dwf (copy_upper_bound wd c i s).
Proof.
  intros [W V]. split; [by destruct wd|]. intros j. destruct (V c), (V j).
  destruct wd; cbn; destruct (decide (j = i)) as [->|Hj]; rewrite ?fn_lookup_insert, ?fn_lookup_insert_ne by done; done.
Qed.
Lemma intersect_dwf wd a b i (s : state) : dwf s -> dwf (intersect wd a b i s).
Proof.
  intros W. unfold intersect. set (s1 := update_lower_for_intersection wd a b i s). assert (W1 : dwf s1).
  { unfold s1, update_lower_for_intersection. repeat case_match; try done; by apply copy_lower_dwf. }
  clearbody s1. unfold update_upper_for_intersection. repeat case_match; try done; by apply copy_upper_dwf.
Qed.

(** Dependencies do not matter for the bounds. *)
Lemma update_lower_im wd a b i (s : state) :
  di_im (update_lower_for_intersection wd a b i s) = di_im (update_lower_for_intersection true a b i s).
Proof. unfold update_lower_for_intersection, copy_lower_bound. by repeat case_match. Qed.
Lemma update_upper_im wd a b i (s s' : state) : di_im s = di_im s' ->
  di_im (update_upper_for_intersection wd a b i s) = di_im (update_upper_for_intersection true a b i s').
Proof.
  intros E. unfold update_upper_for_intersection, copy_upper_bound.
  unfold upper_is_inf, upper, upper_is_open. rewrite E. destruct wd; repeat case_match; try done; cbn; by rewrite E.
Qed.
Lemma intersect_im wd a b i (s : state) : di_im (intersect wd a b i s) = di_im (intersect true a b i s).
Proof. unfold intersect. apply update_upper_im, update_lower_im. Qed.
Lemma intersect_false_deps a b i (s : state) :
  di_deps (intersect false a b i s) = di_deps s /\ m_lower_dep (intersect false a b i s) = m_lower_dep s /\
  m_upper_dep (intersect false a b i s) = m_upper_dep s.
Proof.
  unfold intersect. set (s1 := update_lower_for_intersection false a b i s).
  assert (E : di_deps s1 = di_deps s /\ m_lower_dep s1 = m_lower_dep s /\ m_upper_dep s1 = m_upper_dep s).
  { unfold s1, update_lower_for_intersection. by repeat case_match. }
  clearbody s1. destruct E as (<- & <- & <-). unfold update_upper_for_intersection. by repeat case_match.
Qed.

Definition met (x y : bounds num) : bounds num := with_upper (tighter_upper x y) (with_lower (tighter_lower x y) fresh_bounds).
Lemma intersect_holds wd a b r (s : state) V Ba Bb : dwf s -> dobs s r = fresh_bounds -> r <> a -> r <> b ->
  val_at wd s a V Ba -> val_at wd s b V Bb ->
  touch (fun i => i = r) s (intersect wd a b r s) /\ val_at wd (intersect wd a b r s) r V (met Ba Bb).
Proof.
  intros W Hr Hra Hrb [[Ma Da] <-] [[Mb Db] <-].
  destruct (intersect_ok (val := val) a b r s) as (Ed & M & Dd & F); [right; right; by apply fresh_inf|].
  split.
  - split; [by apply intersect_dwf|]. destruct wd.
    + split; [by rewrite Ed|]. intros i Hi. by apply F.
    + destruct (intersect_false_deps a b r s) as (Ed' & El & Eu). split; [by rewrite Ed'|]. intros i Hi.
      split; [by rewrite El|]. split; [by rewrite Eu|]. rewrite intersect_im. by apply F.
  - split; [|by apply intersect_obs]. split.
    + intros x Hx. rewrite intersect_im. apply M. auto.
    + intros -> x Hx. apply Dd; auto.
Qed.

Lemma not_empty wd (s : state) a V : (exists x0, feasible x0) -> holds_at wd s a V -> is_empty s a = false.
Proof.
  intros [x0 Hx] [M _]. apply not_true_iff_false. intros E. rewrite (is_empty_iff (val := val)) in E. by eapply E, M.
Qed.

(** *** Expressions *)

Abbreviation expr := (nex num).
Abbreviation nstate := (nla_state num).

Definition feasible_point : Prop := exists x0, feasible x0.
(** A call that finds no conflict, records no explanation and puts the value in [a], with bounds [B]. *)
Definition run_ok (wd : bool) (a nxt : loc) (V : (lpvar -> R) -> R) (B : bounds num) (s : nstate)
    (r : option (bool * nstate)) : Prop :=
  exists s', r = Some (true, s') /\ ns_lemmas s' = ns_lemmas s /\ touch (scope a nxt) (ns_dep s) (ns_dep s') /\
    val_at wd (ns_dep s') a V B.

Lemma run_ok_here wd a nxt V B s : dwf (ns_dep s) -> val_at wd (ns_dep s) a V B -> run_ok wd a nxt V B s (Some (true, s)).
Proof. intros W H. exists s. split; [done|]. split; [done|]. split; [by apply touch_refl | done]. Qed.
Lemma run_ok_ext wd a nxt V V' B s r : (forall x, V x = V' x) -> run_ok wd a nxt V B s r -> run_ok wd a nxt V' B s r.
Proof.
  intros E (s' & Er & El & T & H). exists s'. split; [done|]. split; [done|]. split; [done|].
  eapply val_at_ext; [|done]. auto.
Qed.
(** Work done before a run. *)
Lemma run_ok_after wd a nxt V B s s1 r : ns_lemmas s1 = ns_lemmas s -> touch (scope a nxt) (ns_dep s) (ns_dep s1) ->
  run_ok wd a nxt V B s1 r -> run_ok wd a nxt V B s r.
Proof.
  intros E1 T1 (s' & Er & El & T & H). exists s'. split; [done|]. split; [congruence|]. split; [|done].
  by eapply touch_trans.
Qed.

Lemma interval_of_var_ok wd j p a nxt s : feasible_point -> (0 < p)%nat -> (a < nxt)%nat -> dwf (ns_dep s) ->
  dobs (ns_dep s) a = fresh_bounds ->
  run_ok wd a nxt (fun x => x j ^ p) (powered p (column_bounds j)) s (nla_intervals.interval_of_var wd j p a nxt s).
Proof.
  intros Hf Hp Ha W F. unfold nla_intervals.interval_of_var, nla_intervals.try_dep. cbn [nla_intervals.on_dep ns_dep].
  destruct (set_var_interval_holds wd j a _ W F) as [T1 H1]. pose proof T1 as [W1 _].
  destruct (to_power_holds wd a p nxt _ _ _ Hf Hp Ha W1 H1) as (s2 & E2 & T2 & H2). rewrite E2. cbn [mbind option_bind].
  eexists. split; [done|]. split; [done|]. split; [|done].
  eapply touch_trans; [eapply touch_scope, T1; by left | done].
Qed.

Section Composite.
Variable rec : expr -> bool -> nat -> loc -> loc -> nstate -> option (bool * nstate).
(** The bounds depend on the expression only: not on the references, the rest of the state, or the dependencies. *)
Definition call_ok (e : expr) (p : nat) (B : bounds num) : Prop := forall wd a nxt s,
  (a < nxt)%nat -> dwf (ns_dep s) -> dobs (ns_dep s) a = fresh_bounds ->
  run_ok wd a nxt (fun x => nval x e ^ p) B s (rec e wd p a nxt s).
Definition expr_ok (e : expr) : Prop := wf_expr e = true -> forall p, (0 < p)%nat -> exists B, call_ok e p B.

(** One child, evaluated in a fresh interval. *)
Lemma child_ok e p B wd a nxt s V Ba : call_ok e p B -> (a < nxt)%nat -> dwf (ns_dep s) -> val_at wd (ns_dep s) a V Ba ->
  exists s', rec e wd p nxt (S nxt) (nla_intervals.scoped nxt s) = Some (true, s') /\
    ns_lemmas s' = ns_lemmas s /\ touch (scope a nxt) (ns_dep s) (ns_dep s') /\
    val_at wd (ns_dep s') a V Ba /\ val_at wd (ns_dep s') nxt (fun x => nval x e ^ p) B.
Proof.
  intros He Ha W H. pose proof (new_interval_touch nxt (ns_dep s) W) as T1. pose proof T1 as [W1 _].
  destruct (He wd nxt (S nxt) (nla_intervals.scoped nxt s) ltac:(lia) W1 (new_interval_obs nxt _)) as (s2 & E2 & L2 & T2 & H2).
  exists s2. split; [done|]. split; [done|].
  assert (T : touch (fun i => (nxt <= i)%nat) (ns_dep s) (ns_dep s2)).
  { eapply touch_trans; [eapply touch_mono, T1; intros i ->; lia | eapply touch_mono, T2; intros i [->|?]; lia]. }
  split; [eapply touch_mono, T; intros i ?; by right|]. split; [|done].
  apply (val_at_touch _ _ _ _ _ _ _ W T); [cbn; lia | done].
Qed.

(** The interval [a] combined with the one at [nxt]. *)
Lemma accumulate_ok (op : loc -> loc -> loc -> state -> option state) (g : R -> R -> R) wd a nxt s Va Vb Ba Bb Bc :
  (forall s, dwf s -> dobs s (S nxt) = fresh_bounds -> val_at wd s a Va Ba -> val_at wd s nxt Vb Bb ->
     exists s', op a nxt (S nxt) s = Some s' /\ touch (fun i => i = S nxt) s s' /\
       val_at wd s' (S nxt) (fun x => g (Va x) (Vb x)) Bc) ->
  (a < nxt)%nat -> dwf (ns_dep s) -> val_at wd (ns_dep s) a Va Ba -> val_at wd (ns_dep s) nxt Vb Bb ->
  exists s', nla_intervals.try_dep (op a nxt (S nxt)) (nla_intervals.scoped (S nxt) s) = Some s' /\
    let s2 := nla_intervals.on_dep (set wd a (S nxt)) s' in
    ns_lemmas s2 = ns_lemmas s /\ touch (scope a nxt) (ns_dep s) (ns_dep s2) /\
    val_at wd (ns_dep s2) a (fun x => g (Va x) (Vb x)) (copied Ba Bc).
Proof.
  intros Hop Ha W H1 H2. pose proof (new_interval_touch (S nxt) (ns_dep s) W) as T1. pose proof T1 as [W1 _].
  assert (Ha1 : val_at wd (nla_intervals.new_interval (S nxt) (ns_dep s)) a Va Ba)
    by (apply (val_at_touch _ _ _ _ _ _ _ W T1); [cbn; lia | done]).
  destruct (Hop _ W1) as (d & E & T2 & H3); [apply new_interval_obs | done |
    apply (val_at_touch _ _ _ _ _ _ _ W T1); [cbn; lia | done]|].
  unfold nla_intervals.try_dep. cbn [nla_intervals.scoped nla_intervals.on_dep ns_dep]. rewrite E. cbn [mbind option_bind].
  eexists. split; [done|]. cbn [nla_intervals.on_dep ns_dep ns_lemmas]. split; [done|].
  pose proof T2 as [W2 _]. destruct (set_holds wd a (S nxt) d _ _ W2 ltac:(lia) H3) as [T3 H4].
  rewrite (dobs_touch _ _ _ a T2), (proj2 Ha1) in H4 by (cbn; lia). split; [|done].
  eapply touch_trans; [eapply touch_scope, T1; right; lia|].
  eapply touch_trans; [eapply touch_scope, T2; right; lia | eapply touch_scope, T3; by left].
Qed.

Lemma sum_loop_ok l Ba : feasible_point -> Forall expr_ok l -> forallb wf_expr l = true ->
  exists B, forall wd a nxt s V, (a < nxt)%nat -> dwf (ns_dep s) -> val_at wd (ns_dep s) a V Ba ->
  run_ok wd a nxt (fun x => V x + nval x (nex_sum l)) B s (nla_intervals.sum_loop rec wd a nxt l s).
Proof.
  intros Hf Hok Hwf. revert Ba. induction l as [|e l IH]; intros Ba.
  { exists Ba. intros wd a nxt s V _ W H. apply run_ok_here; [done|]. eapply val_at_ext; [|done]. intros x _. cbn. lra. }
  apply list.Forall_cons in Hok as [He Hok]. apply andb_true_iff in Hwf as [Hwe Hwf].
  destruct (He Hwe 1%nat ltac:(lia)) as [Be Ce].
  destruct (IH Hok Hwf (copied Ba (result2 interval_manager.add Ba Be))) as [B HB]. exists B.
  intros wd a nxt s V Ha W H. cbn [nla_intervals.sum_loop].
  destruct (child_ok e 1 Be wd a nxt s V Ba Ce Ha W H) as (s1 & E1 & L1 & T1 & H1 & B1).
  rewrite E1. cbn [mbind option_bind negb]. pose proof T1 as [W1 _].
  destruct (accumulate_ok (add wd) Rplus wd a nxt s1 _ _ _ _ _
    (fun s W _ => add_holds wd a nxt (S nxt) s _ _ _ _ Hf W) Ha W1 H1 B1) as (s2 & E2 & L2 & T2 & H2).
  rewrite E2. cbn [mbind option_bind]. pose proof T2 as [W2 _].
  eapply run_ok_after; [|by eapply touch_trans|]; [by rewrite L2|].
  eapply run_ok_ext; [|apply (HB _ _ _ _ _ Ha W2 H2)]. intros x. cbn. lra.
Qed.

Lemma mul_loop_ok l Ba : feasible_point -> Forall (fun p => expr_ok (fst p)) l ->
  forallb (fun p => (0 <? snd p)%nat && wf_expr (fst p)) l = true ->
  exists B, forall wd a nxt s V, (a < nxt)%nat -> dwf (ns_dep s) -> val_at wd (ns_dep s) a V Ba ->
  run_ok wd a nxt (fun x => V x * fold_right (fun p r => nval x (fst p) ^ snd p * r) 1 l) B s
    (nla_intervals.mul_loop rec wd a nxt l s).
Proof.
  intros Hf Hok Hwf. revert Ba. induction l as [|[e p] l IH]; intros Ba.
  { exists Ba. intros wd a nxt s V _ W H. apply run_ok_here; [done|]. eapply val_at_ext; [|done]. intros x _. cbn. lra. }
  apply list.Forall_cons in Hok as [He Hok]. apply andb_true_iff in Hwf as [[Hp%Nat.ltb_lt Hwe]%andb_true_iff Hwf].
  destruct (He Hwe p Hp) as [Be Ce].
  destruct (IH Hok Hwf (copied Ba (result2 interval_manager.mul Ba Be))) as [B HB]. exists B.
  intros wd a nxt s V Ha W H. cbn [nla_intervals.mul_loop].
  destruct (child_ok e p Be wd a nxt s V Ba Ce Ha W H) as (s1 & E1 & L1 & T1 & H1 & B1).
  rewrite E1. cbn [mbind option_bind negb]. pose proof T1 as [W1 _].
  destruct (accumulate_ok (mul wd) Rmult wd a nxt s1 _ _ _ _ _
    (fun s W => mul_holds wd a nxt (S nxt) s _ _ _ _ Hf W ltac:(lia) ltac:(lia)) Ha W1 H1 B1) as (s2 & E2 & L2 & T2 & H2).
  rewrite E2. cbn [mbind option_bind]. pose proof T2 as [W2 _].
  eapply run_ok_after; [|by eapply touch_trans|]; [by rewrite L2|].
  eapply run_ok_ext; [|apply (HB _ _ _ _ _ Ha W2 H2)]. intros x. cbn. lra.
Qed.

Lemma interval_of_sum_no_term_ok l : feasible_point -> Forall expr_ok l -> l <> [] -> forallb wf_expr l = true ->
  exists B, forall wd a nxt s, (a < nxt)%nat -> dwf (ns_dep s) -> dobs (ns_dep s) a = fresh_bounds ->
  run_ok wd a nxt (fun x => nval x (nex_sum l)) B s (nla_intervals.interval_of_sum_no_term rec wd l a nxt s).
Proof.
  intros Hf Hok Hne Hwf. unfold nla_intervals.interval_of_sum_no_term. destruct (existsb _ _).
  { exists fresh_bounds. intros wd a nxt s Ha W F. apply run_ok_here; [done | by apply fresh_val]. }
  destruct l as [|e l]; [done|]. apply list.Forall_cons in Hok as [He Hok]. apply andb_true_iff in Hwf as [Hwe Hwf].
  destruct (He Hwe 1%nat ltac:(lia)) as [Be Ce]. destruct (sum_loop_ok l Be Hf Hok Hwf) as [B HB]. exists B.
  intros wd a nxt s Ha W F. destruct (Ce wd a nxt s Ha W F) as (s1 & E1 & L1 & T1 & H1). rewrite E1.
  cbn [mbind option_bind negb]. pose proof T1 as [W1 _]. eapply run_ok_after; [done | done |].
  eapply run_ok_ext; [|by apply HB]. intros x. cbn. lra.
Qed.

(** The interval of the term is intersected with [a]; a feasible assignment is in both. *)
Lemma with_term_ok l Ba : feasible_point -> is_a_linear_term l = true -> forallb linear_child l = true ->
  exists B, forall wd recalc a nxt s, (a < nxt)%nat -> dwf (ns_dep s) ->
  val_at wd (ns_dep s) a (fun x => nval x (nex_sum l)) Ba ->
  run_ok wd a nxt (fun x => nval x (nex_sum l)) B s
    (let s := nla_intervals.scoped nxt s in
     '(found, d) ← nla_intervals.interval_from_term wd l nxt (S nxt) (ns_dep s);
     let s := NlaState d (ns_lemmas s) in
     if negb found then Some (true, s)
     else
       let r := S nxt in
       let s := nla_intervals.scoped r s in
       let s := nla_intervals.on_dep (intersect wd a nxt r) s in
       if is_empty (ns_dep s) r then
         s ← (if wd then nla_intervals.explain_empty a nxt r s else recalc (S r) s); Some (false, s)
       else Some (true, nla_intervals.on_dep (set wd a r) s)).
Proof.
  intros Hf Hl Hc. destruct (interval_from_term_ok l Hl Hc) as [Bt HBt].
  exists (match Bt with None => Ba | Some b => copied Ba (met Ba b) end). intros wd recalc a nxt s Ha W H. cbv zeta.
  pose proof (new_interval_touch nxt (ns_dep s) W) as T1. pose proof T1 as [W1 _].
  destruct (HBt wd nxt (S nxt) _ W1 (new_interval_obs nxt _) ltac:(lia)) as (d & E & T2 & H2).
  cbn [nla_intervals.scoped nla_intervals.on_dep ns_dep ns_lemmas]. rewrite E. cbn [mbind option_bind].
  pose proof T2 as [W2 _].
  assert (T : touch (fun i => (nxt <= i)%nat) (ns_dep s) d).
  { eapply touch_trans; [eapply touch_mono, T1; intros i ->; lia | eapply touch_mono, T2; intros i [->|?]; lia]. }
  assert (Ha2 : val_at wd d a (fun x => nval x (nex_sum l)) Ba) by (apply (val_at_touch _ _ _ _ _ _ _ W T); [cbn; lia | done]).
  destruct Bt as [b|]; cbn.
  2:{ eexists. split; [done|]. split; [done|]. split; [|done]. eapply touch_mono, T. by right. }
  specialize (H2 b eq_refl). pose proof (new_interval_touch (S nxt) d W2) as T3. pose proof T3 as [W3 _].
  assert (Ha3 := Ha2). assert (H3 := H2). apply (val_at_touch _ _ _ _ _ _ _ W2 T3) in Ha3; [|cbn; lia].
  apply (val_at_touch _ _ _ _ _ _ _ W2 T3) in H3; [|cbn; lia].
  destruct (intersect_holds wd a nxt (S nxt) _ _ _ _ W3 (new_interval_obs (S nxt) d) ltac:(lia) ltac:(lia) Ha3 H3) as [T4 H4].
  pose proof T4 as [W4 _]. rewrite (not_empty wd _ _ _ Hf (proj1 H4)).
  destruct (set_holds wd a (S nxt) _ _ _ W4 ltac:(lia) H4) as [T5 H5].
  rewrite (dobs_touch _ _ _ a T4), (proj2 Ha3) in H5 by (cbn; lia).
  eexists. split; [done|]. split; [done|]. split; [|exact H5].
  eapply touch_trans; [eapply touch_mono, T; by right|].
  eapply touch_trans; [eapply touch_scope, T3; right; lia|].
  eapply touch_trans; [eapply touch_scope, T4; right; lia | eapply touch_scope, T5; by left].
Qed.

Lemma sum_with_term_ok l : feasible_point -> Forall expr_ok l -> wf_expr (nex_sum l) = true ->
  exists B, forall wd recalc a nxt s, (a < nxt)%nat -> dwf (ns_dep s) -> dobs (ns_dep s) a = fresh_bounds ->
  run_ok wd a nxt (fun x => nval x (nex_sum l)) B s (nla_intervals.sum_with_term rec wd recalc l a nxt s).
Proof.
  intros Hf Hok Hwf. cbn [wf_expr] in Hwf. rewrite !andb_true_iff in Hwf. destruct Hwf as [[Hne Hwf] Hlin].
  destruct (interval_of_sum_no_term_ok l Hf Hok ltac:(by intros ->) Hwf) as [Ba HBa]. unfold nla_intervals.sum_with_term.
  destruct (is_a_linear_term l) eqn:El.
  - destruct (with_term_ok l Ba Hf El Hlin) as [B HB]. exists B. intros wd recalc a nxt s Ha W F.
    destruct (HBa wd a nxt s Ha W F) as (s1 & E1 & L1 & T1 & H1).
    rewrite E1. cbn [mbind option_bind negb]. pose proof T1 as [W1 _]. eapply run_ok_after; [done | done |]. by apply HB.
  - exists Ba. intros wd recalc a nxt s Ha W F. destruct (HBa wd a nxt s Ha W F) as (s1 & E1 & L1 & T1 & H1).
    rewrite E1. cbn [mbind option_bind negb]. pose proof T1 as [W1 _]. eapply run_ok_after; [done | done |].
    by apply run_ok_here.
Qed.

Lemma get_zero_interval_child_ok l c : nla_intervals.get_zero_interval_child l = Some c ->
  exists j p, c = nex_var j /\ var_is_fixed_to_zero j = true /\ (c, p) ∈ l.
Proof.
  induction l as [|[e p] l IH]; cbn; [done|]. destruct (nla_intervals.has_zero_interval e) eqn:E.
  - intros [= <-]. destruct e as [j| | |]; try done. exists j, p. split; [done|]. split; [done | by left].
  - intros (j & q & ? & ? & ?)%IH. exists j, q. split_and!; try done. by right.
Qed.

(** A product with a factor that is 0. *)
Lemma zero_factor x (l : list (expr * nat)) j p :
  (nex_var j, p) ∈ l -> forallb (fun p => (0 <? snd p)%nat && wf_expr (fst p)) l = true -> x j = 0 ->
  fold_right (fun p r => nval x (fst p) ^ snd p * r) 1 l = 0.
Proof.
  induction l as [|[e q] l IH]; intros Hin Hwf Hx; [by apply not_elem_of_nil in Hin|].
  apply andb_true_iff in Hwf as [[Hq%Nat.ltb_lt _]%andb_true_iff Hwf]. cbn [fold_right fst snd].
  apply elem_of_cons in Hin as [[= <- <-]|Hin]; [|rewrite IH by done; lra].
  cbn [NlaTerms.nval]. rewrite Hx, pow_i by done. lra.
Qed.

Lemma fixed_zero_member wd j a (s : state) v : var_is_fixed_to_zero j = true ->
  member (di_im (nla_intervals.set_var_interval wd j a s)) a v <-> v = 0.
Proof.
  intros Hj. destruct (law_fixed j Hj) as (c1 & b1 & c2 & b2 & E1 & E2 & V1 & V2).
  unfold nla_intervals.set_var_interval, nla_intervals.set_var_lower, nla_intervals.set_var_upper. rewrite E1, E2.
  unfold IntervalProofs.member. destruct wd; ist; cbn; rewrite ?fn_lookup_insert; cbn; rewrite V1, V2; lra.
Qed.

(** The interval of a column that is fixed to 0, justified by both its bounds. *)
Lemma fixed_zero_ok wd j a nxt s V : var_is_fixed_to_zero j = true -> dwf (ns_dep s) -> dobs (ns_dep s) a = fresh_bounds ->
  (forall x, x j = 0 -> V x = 0) ->
  run_ok wd a nxt V (column_bounds j) s ('(_, s) ← nla_intervals.interval_of_var wd j 1 a nxt s;
    s ← (if wd then nla_intervals.try_dep (set_zero_interval_deps_for_mult a) s else Some s); Some (true, s)).
Proof.
  intros Hj W F HV. unfold nla_intervals.interval_of_var, nla_intervals.try_dep, nla_intervals.to_power.
  cbn [Nat.eqb mbind option_bind nla_intervals.on_dep ns_dep ns_lemmas].
  pose proof (fun v => fixed_zero_member wd j a (ns_dep s) v Hj) as Z.
  destruct (set_var_interval_holds wd j a _ W F) as [T1 [[M1 D1] O1]]. set (d := nla_intervals.set_var_interval wd j a (ns_dep s)) in *.
  assert (M : forall x, feasible x -> member (di_im d) a (V x)) by (intros x Hx; apply Z, HV, Z; auto).
  destruct wd; [|eexists; split; [done|]; split; [done|]; split; [eapply touch_scope, T1; by left | split; [by split | done]]].
  unfold set_zero_interval_deps_for_mult. pose proof T1 as [W1 [X1 F1]]. pose proof W1 as [_ V1]. destruct (V1 a) as [Vl Vu].
  destruct (mk_join_ok _ _ d W1 Vl Vu) as (dj & d2 & E2 & [W2 V2] & (Ei & El & Eu & X) & Vj & Hj2). rewrite E2.
  cbn [mbind option_bind]. eexists. split; [done|]. split; [done|]. cbn [ns_dep]. split.
  - apply (touch_scope a); [by left|]. split; [split; [done|]|split; [cbn; by etrans|]].
    + intros i. cbn. destruct (V2 i). rewrite fn_lookup_insert.
      destruct (decide (i = a)) as [->|Hi]; rewrite ?fn_lookup_insert, ?fn_lookup_insert_ne by done; done.
    + intros i Hi. eapply same_loc_trans; [by apply F1|]. unfold same_loc. cbn.
      rewrite !fn_lookup_insert_ne, El, Eu, Ei by done. by split.
  - assert (B : forall x, D x -> holds (fun c => cs c x) d2 dj -> member (di_im d) a (V x)).
    { intros x Hx [Hl Hu]%Hj2. destruct (D1 eq_refl x Hx) as [Dl Du]. apply Z, HV, Z. split; auto. }
    split; [|unfold dobs in *; cbn; by rewrite Ei]. split; [intros x Hx; cbn; rewrite Ei; auto|]. intros _ x Hx.
    split; cbn; rewrite !fn_lookup_insert, Ei; intros Hh; by apply B.
Qed.

Lemma interval_of_mul_ok c l : feasible_point -> Forall (fun p => expr_ok (fst p)) l -> wf_expr (nex_mul c l) = true ->
  exists B, forall wd a nxt s, (a < nxt)%nat -> dwf (ns_dep s) -> dobs (ns_dep s) a = fresh_bounds ->
  run_ok wd a nxt (fun x => nval x (nex_mul c l)) B s (nla_intervals.interval_of_mul rec wd c l a nxt s).
Proof.
  intros Hf Hok Hwf. cbn [wf_expr] in Hwf. unfold nla_intervals.interval_of_mul.
  destruct (nla_intervals.get_zero_interval_child l) as [e|] eqn:E.
  - destruct (get_zero_interval_child_ok l e E) as (j & p & -> & Hj & Hin). exists (column_bounds j). intros wd a nxt s Ha W F.
    apply fixed_zero_ok; [done | done | done |]. intros x Hx. cbn. rewrite (zero_factor x l j p) by done. lra.
  - destruct (mul_loop_ok l (point c) Hf Hok Hwf) as [B HB]. exists B. intros wd a nxt s Ha W F.
    pose proof (scalar_touch a c _ W) as T. pose proof T as [W1 _]. eapply run_ok_after; [| |].
    3:{ apply (HB wd a nxt _ (fun _ => val c)); [done | exact W1 | apply scalar_holds]. }
    + done.
    + eapply touch_scope, T. by left.
Qed.
End Composite.

Lemma to_power_run wd p a nxt V B s r : feasible_point -> (0 < p)%nat -> (a < nxt)%nat -> run_ok wd a nxt V B s r ->
  run_ok wd a nxt (fun x => V x ^ p) (powered p B) s ('(ok, s) ← r;
    if negb ok then Some (false, s)
    else s ← nla_intervals.try_dep (nla_intervals.to_power wd a p nxt) s; Some (true, s)).
Proof.
  intros Hf Hp Ha (s1 & -> & L1 & T1 & H1). cbn [mbind option_bind negb]. pose proof T1 as [W1 _].
  destruct (to_power_holds wd a p nxt _ _ _ Hf Hp Ha W1 H1) as (d & E & T2 & H2).
  unfold nla_intervals.try_dep. rewrite E. cbn [mbind option_bind]. eexists. split; [done|]. split; [done|].
  split; [by eapply touch_trans | done].
Qed.

Lemma interval_of_expr_ok e : feasible_point -> expr_ok nla_intervals.interval_of_expr e.
Proof.
  intros Hf. induction e as [j|v|c l IH|l IH] using nex_nested_ind; intros Hwf p Hp.
  - exists (powered p (column_bounds j)). intros wd a nxt s Ha W F. by apply interval_of_var_ok.
  - exists (point (m_power true v p)). intros wd a nxt s Ha W F. cbn [nla_intervals.interval_of_expr]. rewrite (nr_power (im_up (di_im (ns_dep s)))).
    eexists. split; [done|]. split; [done|]. cbn [nla_intervals.on_dep ns_dep].
    split; [eapply touch_scope, scalar_touch, W; by left|]. eapply val_at_ext; [|apply scalar_holds].
    intros x _. cbn. apply (val_power (val := val)); [right; lia | by left | done].
  - destruct (interval_of_mul_ok _ c l Hf IH Hwf) as [B HB]. exists (powered p B). intros wd a nxt s Ha W F.
    cbn [nla_intervals.interval_of_expr]. apply (to_power_run wd p a nxt (fun x => nval x (nex_mul c l))); try done. by apply HB.
  - destruct (sum_with_term_ok _ l Hf IH Hwf) as [B HB]. exists (powered p B). intros wd a nxt s Ha W F.
    cbn [nla_intervals.interval_of_expr]. apply (to_power_run wd p a nxt (fun x => nval x (nex_sum l))); try done. by apply HB.
Qed.
End Proofs.
