(* ===== verification/NlaTheorems.v ===== *)
(** * NlaTheorems: the interval analysis of polynomial expressions is sound

    From a linear solver that keeps [NlaLaws] and whose constraints have a solution, [interval_of_expr] always
    returns an interval with the value of the expression, justified, and [check_nex] records exactly one explanation
    when it reports a conflict, and none otherwise.  The last theorem shows the explanation of an empty
    intersection going wrong. *)
From S2P Require Import Prelude.
From S2P Require Import ExtNumeral.
From S2P Require Import Interval.
From S2P Require Import IntervalBounds.
From S2P Require Import IntervalProofs.
From S2P Require Import IntervalSound.
From S2P Require Import Dependency.
From S2P Require Import DependencyProofs.
From S2P Require Import DepIntervals.
From S2P Require Import DepIntervalsProofs.
From S2P Require Import Nla.
From S2P Require Import NlaTerms.
From S2P Require Import NlaObs.
From S2P Require Import NlaProofs.
From Stdlib Require Import ZArith Lia Reals Lra QArith Qreals.
From stdpp Require Import base tactics option list numbers functions gmap.
Close Scope word_scope.
Close Scope Q_scope.
Open Scope R_scope.

Section Theorems.
Context {num : Type} {Mgr : NumManager num} {Core : NlaCore num} {val : num -> R} {L : NumLaws val} {NR : NoRounding num}.
Context {D : (lpvar -> R) -> Prop} {cs : Z -> (lpvar -> R) -> Prop} {NL : NlaLaws val D cs}.
Abbreviation feasible := (feasible (D := D) (cs := cs)).
Abbreviation nval := (nval (val := val)).

(** The test for a conflict reads the bounds only. *)
Lemma separated_obs (s s' : dep_im num) a a' : dobs s a = dobs s' a' ->
  dep_intervals.separated_from_zero s a = dep_intervals.separated_from_zero s' a'.
Proof.
  unfold dobs, obs. intros [= E1 E2 E3 E4 E5 E6].
  unfold dep_intervals.separated_from_zero, dep_intervals.separated_from_zero_on_upper, dep_intervals.separated_from_zero_on_lower,
    dep_intervals.upper_is_inf, dep_intervals.lower_is_inf, dep_intervals.upper_is_open, dep_intervals.lower_is_open,
    dep_intervals.upper, dep_intervals.lower, interval_manager.upper_is_inf, interval_manager.lower_is_inf,
    interval_manager.upper_is_open, interval_manager.lower_is_open, interval_manager.upper, interval_manager.lower.
  by rewrite E1, E2, E3, E4, E5, E6.
Qed.
Lemma separated_not_member (s : dep_im num) a : dep_intervals.separated_from_zero s a = true -> ~ member (val := val) (di_im s) a 0.
Proof.
  unfold dep_intervals.separated_from_zero. intros [E|E]%orb_true_iff [Hl Hu].
  - apply (separated_upper_iff (val := val)) in Hu. congruence.
  - apply (separated_lower_iff (val := val)) in Hl. congruence.
Qed.

(** C38: with exact numerals and a solver whose constraints have a solution, [interval_of_expr] returns for every
    expression and power, without a conflict or an explanation. The interval has the value for every solution; with
    dependencies each bound follows from the constraints that justify it. The bounds are the same
    with and without dependencies, and other intervals stay as they are. *)
Theorem interval_of_expr_sound (e : nex num) p : m_precise = true -> (exists x, feasible x) -> wf_expr e = true -> (0 < p)%nat ->
  exists B, forall wd a nxt s, (a < nxt)%nat -> dwf (ns_dep s) -> dobs (ns_dep s) a = fresh_bounds ->
  exists s', nla_intervals.interval_of_expr e wd p a nxt s = Some (true, s') /\ ns_lemmas s' = ns_lemmas s /\
    (forall x, feasible x -> member (val := val) (di_im (ns_dep s')) a (nval x e ^ p)) /\
    (wd = true -> forall x, D x -> dep_ok (val := val) (fun c => cs c x) (ns_dep s') a (nval x e ^ p)) /\
    dobs (ns_dep s') a = B /\ touch (fun i => i = a \/ (nxt <= i)%nat) (ns_dep s) (ns_dep s').
Proof.
  intros Hp Hf Hwf Hpos. destruct (interval_of_expr_ok (NL := NL) Hp e Hf Hwf p Hpos) as [B HB]. exists B.
  intros wd a nxt s Ha W F. destruct (HB wd a nxt s Ha W F) as (s' & E & El & T & [Hm Hd] & Eb).
  exists s'. split; [done|]. split; [done|]. split; [done|]. split; [done|]. by split.
Qed.

(** C39: the check of an expression always answers. It reports a conflict exactly when it records one explanation:
    constraints that imply the given ones and that the expression is not 0, whatever the other constraints.
    The intervals of the callers stay as they are. *)
Theorem check_nex_sound (n : nex num) initial_deps nxt s : m_precise = true -> (exists x, feasible x) -> wf_expr n = true ->
  dwf (ns_dep s) -> valid (di_deps (ns_dep s)) initial_deps ->
  exists b s', nla_intervals.check_nex n initial_deps nxt s = Some (b, s') /\
    touch (fun i => (nxt <= i)%nat) (ns_dep s) (ns_dep s') /\
    if b then exists expl, ns_lemmas s' = ns_lemmas s ++ [expl] /\
           forall x, D x -> (forall c, c ∈ expl -> cs c x) -> holds (fun c => cs c x) (ns_dep s) initial_deps /\ nval x n <> 0
    else ns_lemmas s' = ns_lemmas s.
Proof.
  intros Hp Hf Hwf W Vi. destruct (interval_of_expr_ok (NL := NL) Hp n Hf Hwf 1%nat ltac:(lia)) as [B HB].
  unfold nla_intervals.check_nex. pose proof (new_interval_touch nxt (ns_dep s) W) as T1. pose proof T1 as [W1 _].
  destruct (HB false nxt (S nxt) (nla_intervals.scoped nxt s) ltac:(lia) W1 (new_interval_obs nxt _))
    as (s2 & E2 & L2 & T2 & _ & O2). rewrite E2. cbn [mbind option_bind negb].
  assert (T : touch (fun i => (nxt <= i)%nat) (ns_dep s) (ns_dep s2)).
  { eapply touch_trans; [eapply touch_mono, T1; intros i ->; lia | eapply touch_mono, T2; intros i [->|?]; lia]. }
  pose proof T as [W2 _]. destruct (dep_intervals.separated_from_zero (ns_dep s2) nxt) eqn:Sep; cbn [negb].
  2:{ exists false, s2. split; [done|]. by split. }
  pose proof (new_interval_touch (S nxt) (ns_dep s2) W2) as T3. pose proof T3 as [W3 _].
  destruct (HB true (S nxt) (S (S nxt)) (nla_intervals.scoped (S nxt) s2) ltac:(lia) W3 (new_interval_obs (S nxt) _))
    as (s4 & E4 & L4 & T4 & [_ Hd] & O4). rewrite E4. cbn [mbind option_bind].
  assert (T' : touch (fun i => (nxt <= i)%nat) (ns_dep s) (ns_dep s4)).
  { eapply touch_trans; [exact T|]. eapply touch_trans; [eapply touch_mono, T3; intros i ->; lia|].
    eapply touch_mono, T4; intros i [->|?]; lia. }
  pose proof T' as (W4 & X4 & F4). assert (Vi4 : valid (di_deps (ns_dep s4)) initial_deps) by (by eapply extends_valid).
  destruct (check_conflict_ok (val := val) (S nxt) initial_deps (ns_dep s4) W4 Vi4) as (r & d & E5 & W5 & (Ei & El & Eu & X5) & Hr).
  rewrite E5. cbn [mbind option_bind].
  assert (Sep4 : dep_intervals.separated_from_zero (ns_dep s4) (S nxt) = true).
  { rewrite <- Sep. apply separated_obs. congruence. }
  destruct r as [expl|]; [|by apply separated_not_member in Sep4].
  eexists true, _. split; [done|]. split.
  - split; [done|]. split; [cbn; by etrans|]. intros i Hi. eapply same_loc_trans; [by apply F4|].
    unfold same_loc. cbn. rewrite El, Eu, Ei. by split.
  - exists expl. cbn [nla_intervals.call_f ns_lemmas]. split; [by rewrite L4; cbn; rewrite L2|].
    intros x Hx Hc. destruct Hr as [_ Hr]. destruct (Hr (fun c => cs c x) (nval x n ^ 1) Hc (Hd eq_refl x Hx)) as [H1 H2].
    split; [|by rewrite pow_1 in H2]. intros v Hv. apply H1. destruct W as [Wf _].
    by apply (extends_leaves _ _ _ v Wf X4 Vi).
Qed.
End Theorems.

(** ** Instances *)

#[export] Instance QNoRounding : NoRounding Q.
Proof. by split. Qed.

#[export] Instance Q_eq_decision : EqDecision Q.
Proof. solve_decision. Defined.

(** A solver with bounds for the first columns and one term. *)
Definition bound_of (l : list (option (Z * Q * bool))) (v : lpvar) : option (Z * Q * bool) := mjoin (l !! v).
Definition core_of (lowers uppers : list (option (Z * Q * bool))) (zeros : list lpvar) (t : gmap lpvar Q) (j : lpvar) : NlaCore Q := {|
  has_lower_bound := bound_of lowers;
  has_upper_bound := bound_of uppers;
  no_bounds v := negb (bool_decide (is_Some (bound_of lowers v))) && negb (bool_decide (is_Some (bound_of uppers v)));
  var_is_fixed_to_zero v := bool_decide (v ∈ zeros);
  explain_by_equiv _ := None;
  fetch_normalized_term_column t' := if bool_decide ((t' : gmap lpvar Q) = t) then Some (1%Q, j) else None |}.
(** Constraint [ci] bounds the column it is listed for. *)
Definition cs_of (lowers uppers : list (option (Z * Q * bool))) (ci : Z) (x : lpvar -> R) : Prop :=
  (forall v b strict, bound_of lowers v = Some (ci, b, strict) -> le_o strict (Q2R b) (x v)) /\
  (forall v b strict, bound_of uppers v = Some (ci, b, strict) -> le_o strict (x v) (Q2R b)).
Definition defines (t : gmap lpvar Q) (j : lpvar) (x : lpvar -> R) : Prop := x j = tval (val := Q2R) x t.

Lemma core_of_laws lowers uppers zeros t j :
  (forall v, v ∈ zeros -> exists c1 c2, bound_of lowers v = Some (c1, 0%Q, false) /\ bound_of uppers v = Some (c2, 0%Q, false)) ->
  NlaLaws (H := core_of lowers uppers zeros t j) Q2R (defines t j) (cs_of lowers uppers).
Proof.
  intros Hz. split; cbn -[Q2R].
  - intros v ci b strict E x _ [Hl _]. by apply Hl.
  - intros v ci b strict E x _ [_ Hu]. by apply Hu.
  - intros v Hv%bool_decide_eq_true. destruct (Hz v Hv) as (c1 & c2 & E1 & E2). exists c1, 0%Q, c2, 0%Q.
    split_and!; try done; apply RMicromega.Q2R_0.
  - done.
  - intros t' k i. case_bool_decide as E; [|done]. intros [= <- <-]. subst t'. rewrite RMicromega.Q2R_1.
    split; [lra|]. intros x Hx. unfold defines in Hx. lra.
Qed.

(** x0 in [1, 2], x1 in [1, 3], x2 = x0 - x1 >= 0, x3 = 0. *)
Definition ex_lowers : list (option (Z * Q * bool)) :=
  [Some (0%Z, 1%Q, false); Some (2%Z, 1%Q, false); Some (4%Z, 0%Q, false); Some (5%Z, 0%Q, false)].
Definition ex_uppers : list (option (Z * Q * bool)) :=
  [Some (1%Z, 2%Q, false); Some (3%Z, 3%Q, false); None; Some (6%Z, 0%Q, false)].
Definition ex_term : gmap lpvar Q := <[0%nat := 1%Q]> (<[1%nat := (-1)%Q]> ∅).
Definition ex_core : NlaCore Q := core_of ex_lowers ex_uppers [3%nat] ex_term 2.
(** x0 (x0 - x1) + x0 x3 + 1/2. *)
Definition ex_nex : nex Q :=
  nex_sum [nex_mul 1%Q [(nex_var 0%nat, 1%nat); (nex_sum [nex_var 0%nat; nex_mul (-1)%Q [(nex_var 1%nat, 1%nat)]], 1%nat)];
           nex_mul 1%Q [(nex_var 0%nat, 1%nat); (nex_var 3%nat, 1%nat)]; nex_scalar (1 # 2)%Q].
Definition ex_state : nla_state Q :=
  NlaState (DepIm (canon fresh_bounds fresh_bounds) (fun _ => None) (fun _ => None) (DepState [] [] [])) [].

Lemma ex_core_laws : NlaLaws (H := ex_core) Q2R (defines ex_term 2) (cs_of ex_lowers ex_uppers).
Proof. apply core_of_laws. intros v ->%list_elem_of_singleton. by exists 5%Z, 6%Z. Qed.
Definition ex_point (v : lpvar) : R := match v with O => 2 | 1%nat | 2%nat => 1 | _ => 0 end.
Lemma ex_point_feasible : feasible (D := defines ex_term 2) (cs := cs_of ex_lowers ex_uppers) ex_point.
Proof.
  split.
  - unfold defines, ex_term. rewrite !tval_insert, tval_empty by done. unfold Q2R. cbn. lra.
  - intros c. split; intros v b strict; do 4 (destruct v as [|v]; [cbn; intros [= <- <- <-]; unfold Q2R; cbn; lra || done|]); done.
Qed.
Lemma ex_feasible : exists x, feasible (D := defines ex_term 2) (cs := cs_of ex_lowers ex_uppers) x.
Proof. exists ex_point. exact ex_point_feasible. Qed.
Lemma ex_state_wf : dwf (ns_dep ex_state).
Proof. split; [split; [by intros d n | by intros d e (d1 & d2 & Hk & _)] | done]. Qed.
Example ex_check_nex : ('(b, s) ← nla_intervals.check_nex (H0 := ex_core) ex_nex None 0 ex_state; Some (b, ns_lemmas s)) =
  Some (true, [[0; 4; 5; 6]%Z]).
Proof. vm_compute. reflexivity. Qed.

Lemma interval_of_expr_sound_witness : wf_expr ex_nex = true /\ exists s',
  nla_intervals.interval_of_expr (H0 := ex_core) ex_nex true 2 0 1 ex_state = Some (true, s') /\
  member (val := Q2R) (di_im (ns_dep s')) 0 (nval (val := Q2R) ex_point ex_nex ^ 2).
Proof.
  assert (Wf : wf_expr ex_nex = true) by reflexivity. split; [exact Wf|].
  destruct (interval_of_expr_sound (NL := ex_core_laws) ex_nex 2 (eq_refl : @m_precise Q QNum = true) ex_feasible Wf) as [B HB]; [lia|].
  destruct (HB true 0%nat 1%nat ex_state) as (s' & E & _ & Hm & _); [lia | exact ex_state_wf | reflexivity |].
  exists s'. split; [exact E|]. apply Hm. exact ex_point_feasible.
Defined.
Lemma check_nex_sound_witness : wf_expr ex_nex = true /\
  exists b s', nla_intervals.check_nex (H0 := ex_core) ex_nex None 0 ex_state = Some (b, s') /\
    if b then exists expl, ns_lemmas s' = [expl] /\
           forall x, defines ex_term 2 x -> (forall c, c ∈ expl -> cs_of ex_lowers ex_uppers c x) -> nval (val := Q2R) x ex_nex <> 0
    else ns_lemmas s' = [].
Proof.
  assert (Wf : wf_expr ex_nex = true) by reflexivity. split; [exact Wf|].
  destruct (check_nex_sound (NL := ex_core_laws) ex_nex None 0 ex_state (eq_refl : @m_precise Q QNum = true) ex_feasible Wf ex_state_wf I)
    as (b & s' & E & _ & H). exists b, s'. split; [exact E|]. destruct b; [|exact H].
  destruct H as (expl & El & Hx). exists expl. split; [exact El|]. intros x Hd Hc. exact (proj2 (Hx x Hd Hc)).
Defined.

(** ** A wrong explanation *)




